(* ===== verification/_CoqProject ===== *)
-Q . S2P
Prelude.v
Rationals.v
Emitter.v
MessageQueue.v
NativeModules.v
Timers.v
Pressability.v
VirtualizeUtils.v
Viewability.v
TaskQueue.v
InteractionManager.v
XMLHttpRequest.v
Color.v
Batchinator.v
VirtualizedList.v
VirtualizedListWindow.v
SectionList.v
AsyncStorage.v
Interpolation.v
Animations.v
CompositeAnimations.v
TouchHistory.v
Responder.v
ResponderProtocol.v
PanResponder.v
Matrix.v
RealNumbers.v
Transform.v
MatrixDecompose.v
Blob.v
FileReader.v
WebSocket.v
AttributePayload.v
UpdateQueue.v
Fiber.v
ChildReconciler.v
