(* ===== verification/Prelude.v ===== *)
(** * The JavaScript core of React Native

    A model of the JavaScript side of React Native (src/Libraries): the bridge to
    native code and what the framework builds on it.

    ** Parts and how they interact

    - Prelude.v: JavaScript completions ([result]), code over a mutable state ([JS S A],
      a state that survives a throw), invariants and relations that code keeps
      ([evolves], [preserves]), termination, dense arrays, 32-bit operators.
      Rationals.v: comparisons and extrema of rationals.
    - Emitter.v: Libraries/vendor/emitter, Libraries/EventEmitter.  Vendors,
      subscriptions and emitters are shared, mutable objects; listeners re-enter.
    - MessageQueue.v: Libraries/BatchedBridge/MessageQueue.js, the queue of calls to
      native, the table of callbacks, the guarded entry points of native.
    - NativeModules.v: Libraries/BatchedBridge/NativeModules.js and
      Libraries/Utilities/defineLazyObjectProperty.js over the message queue: generated
      modules, the promise and callback wrappers, lazy loading.
    - Timers.v: Libraries/Core/Timers/JSTimers.js, driven by native.
    - Pressability.v: Libraries/Pressability/Pressability.js, the press recogniser.
    - VirtualizeUtils.v, Viewability.v, Batchinator.v, VirtualizedList.v,
      VirtualizedListWindow.v: the list components (Libraries/Lists) and
      Libraries/Interaction/Batchinator.js.  VirtualizedList.v computes its window with
      VirtualizeUtils.v and owns a batcher through the class [HasBatchinator];
      VirtualizedListWindow.v is about the window's evolution.
    - SectionList.v: Libraries/Lists/VirtualizedSectionList.js, the flattening of
      sections into the items of a VirtualizedList.
    - TaskQueue.v, InteractionManager.v: Libraries/Interaction/TaskQueue.js and
      InteractionManager.js; the manager owns a queue through the class [HasTaskQueue],
      and is what Batchinator.js waits for.
    - XMLHttpRequest.v: Libraries/Network/XMLHttpRequest.js between native networking
      and the listeners.
    - Color.v: Libraries/StyleSheet/normalizeColor.js, processColor.js and
      setNormalizedColorAlpha.js.
    - AsyncStorage.v: Libraries/Storage/AsyncStorage.js, its requests to native storage
      and the batching of [multiGet].
    - Interpolation.v: the numeric interpolations of
      Libraries/Animated/src/nodes/AnimatedInterpolation.js.
    - Animations.v, CompositeAnimations.v: Libraries/Animated/src: animated values,
      timing animations and the composite animations of AnimatedImplementation.js, which
      are objects of a shared heap whose end callbacks call each other; the second file
      is about the runs of a composite animation.
    - TouchHistory.v, Responder.v, ResponderProtocol.v: the event system of
      Libraries/Renderer/implementations/ReactNativeRenderer-dev.js, from the touches
      native reports to the listeners, with the responder plugin, and
      Libraries/Interaction/TouchHistoryMath.js; the last file is about who is the
      responder and what its handlers see.
    - PanResponder.v: Libraries/Interaction/PanResponder.js, whose handlers the responder
      system calls, over the touch history and the interactions of InteractionManager.v.
    - AttributePayload.v: what a renderer tells native when the props of a view change
      (ReactNativeAttributePayload in ReactNativeRenderer-dev.js), with
      Libraries/Utilities/differ/deepDiffer.js and Libraries/StyleSheet/flattenStyle.js.
    - UpdateQueue.v: the queues of state updates of class components and roots in
      ReactNativeRenderer-dev.js, shared by the two fibers of a component.
    - Fiber.v, ChildReconciler.v: the fibers of ReactNativeRenderer-dev.js in a heap of
      their own, with a predicate transformer for total correctness, and ChildReconciler,
      which matches what is rendered with the fibers of the last time.
    - Matrix.v, RealNumbers.v, Transform.v, MatrixDecompose.v:
      Libraries/Utilities/MatrixMath.js over a class of numbers ([Numbers],
      [NumbersLaws]), its instance of real numbers, the transforms of
      Libraries/StyleSheet/processTransform.js, and the decomposition of a matrix.
    - Blob.v, FileReader.v, WebSocket.v: Libraries/Blob with the native store behind it,
      the reader over its blobs, and Libraries/WebSocket/WebSocket.js, which receives
      and sends them.

    In each file the fields of a class (or the variables of a module) are one record,
    each method or handler is a definition named after it, and closures the code
    creates are constructors of a type.  What is not JavaScript of the repository is a
    parameter or a step of the environment: client callbacks are code over the whole
    state, so re-entrancy is covered; native messages, timers that fire and commits of
    React are operations that may come in any order; calls out are recorded in a trace.
    A table from definitions to source lines accompanies the development.

    ** What the theorems show

    - Identity of calls across the bridge: callback ids decode to the functions given
      ([callback_ids_resolve]), a call consumes its pair of callbacks
      ([invokeCallback_consumes_pair]), the three arrays of the queue stay aligned
      ([queue_stays_aligned]), promises settle with the answer to their own call
      ([promise_roundtrip], [promises_settle_only_through_own_ids]), native entry points
      do not throw ([entry_points_return]).
    - Exactly-once behaviour: listeners ([once_removed_before_call],
      [emit_calls_live_in_order]), timers ([cleared_timer_never_fires],
      [one_shot_fires_at_most_once]), request completion ([completes_exactly_once]),
      batched updates ([one_invocation]), [onEndReached] ([end_reached_once]), lazy
      modules ([module_loaded_once]).
    - State machines: the press recogniser never leaves its table
      ([protocol_never_invalid]), interaction events alternate ([events_alternate]),
      a pending promise blocks the queue below it ([pending_promise_blocks]), a request
      goes through its ready states ([request_roundtrip], [abort_resets]).
    - Lists: the window computation terminates and covers what is visible
      ([limits_total_and_cover]), the cells and spacers reproduce the layout
      ([render_reproduces_layout]), the window stays in the list
      ([window_stays_in_list]) and settles ([window_settles]), viewability
      notifications keep an observer in sync ([observer_in_sync]), the flat index of a
      section list addresses every row once ([flat_index_roundtrip]).
    - Storage: every pending promise has an owner that will be asked or answered
      ([no_request_forgotten]), a batch answers each request with its own keys
      ([batch_answers_each]).
    - Animations: a composite animation that is started reports its end once, when
      nothing of it is pending any more ([composite_ends_once]).
    - Gestures: the lowest common ancestor ([lca_is_lowest]); handlers are called between
      a grant and a release, termination or rejection ([responder_bookends]); the lock
      only moves up ([lock_moves_up]) and is released with the last finger inside
      ([released_when_untouched]); native knows the responder ([native_knows_responder]);
      the touch history follows the fingers ([store_follows_fingers],
      [centroid_is_mean]).  PanResponder accumulates displacements
      ([move_adds_mean_displacement], [drag_is_displacement]), and along the responder's
      protocol it holds one interaction at most and leaves none
      ([gesture_holds_one_interaction]).
    - Rendering: however often a view is rendered, native shows its last props
      ([native_shows_last_props]), [deepDiffer] decides equality
      ([deepDiffer_decides]); no state update is lost or applied out of order, whatever
      is skipped, abandoned or committed ([all_updates_in_order]), and what is skipped
      is announced ([skipped_work_is_announced]).  Children are matched with their old
      fibers by key or position, each old fiber is used again or deleted, and what is
      not moved is in order ([children_matched]).
    - Transforms: a list of transforms is the matrix that applies them one after the
      other ([transforms_compose], [product_composes], [inverse_undoes]), and is found
      again by decomposition ([planar_transform_roundtrip], [decomposition_rebuilds]).
    - Binary data: open blobs are readable ([open_blobs_are_readable]) until the last
      is closed ([close_releases_last]), hold their parts ([blob_holds_parts],
      [slice_is_view]); a read reports once ([read_reports_once], [abort_is_silent]); a
      socket is silent after its close event ([close_is_last]) and reports what native
      does before ([native_is_reported]).
    - Values: colors ([hex_notation], [color_words], [normalizeColor_word]),
      interpolation between points ([interpolation_through_points],
      [interpolation_monotone]).
    - Defects of the code are theorems too, next to the operation they concern (for
      instance [late_id_hijacks], [rejected_call_misaligns],
      [failed_task_stalls], [gesture_without_interaction]).

    ** Bounds and fuel

    Where a loop of the source has no evident bound it takes fuel, and a theorem says
    how much is enough: [loop_fuel] for the window ([limits_total_and_cover]), the
    passes over immediates ([entry_points_terminate]), the nesting of client calls in
    Timers.v, two commits for a turn of a list ([window_settles]), the events of
    [_processUpdate] ([update_runs_queue]), the nested calls of animations
    ([composite_ends_once] finds one that is enough at every step), the height of the
    tree of fibers for the walks up ([well_founded_tree]), the height of a value for
    [deepDiffer] ([deepDiffer_decides]), the number of objects for the loop over an
    update queue ([length_bounded]), the number of old children for the walks along
    siblings ([children_matched]).  Elsewhere recursion is structural.

    Numbers that hold integers are [Z], other numbers [Q] or, with roots and angles, the
    real numbers: rounding is not modelled, NaN and infinities only in Interpolation.v
    and, as the one value [None], in the files about matrices.  Strings are ASCII, in
    Blob.v lists of UTF-16 code units.  Bit operators wrap at 32 bits as in JavaScript.
    Properties inherited from [Object.prototype] are not modelled: keys are looked up as
    in a map.

    ** Not modelled

    - React: VirtualizedList.v states the part it relies on ([commit], [flush]): updaters
      run in order, then [getDerivedStateFromProps], then, if the state or the props
      changed, [render] and [componentDidUpdate].  Of the renderers under
      Libraries/Renderer, builds of the React repository that share most of their code,
      the event system, the update queues, the reconciliation of children and the
      payloads of attributes are modelled: for them the rest of the reconciler, which
      keeps the tree of fibers and decides when to render, is the environment ([batchedUpdates], [event] of UpdateQueue.v); hooks, contexts,
      hydration, suspense, the scheduler, the pool of synthetic events and the
      registration of plugins are left out.
    - Native code (React, ReactCommon, ReactAndroid), the code generators, the scripts,
      the tester application: other languages, or tools that do not run in a program.
    - Profiling ([Systrace]) and log messages, except where they are effects a theorem
      mentions; LogBox, the inspector and the other development tools.
    - Of Animated: springs, decays, tracking, vectors and the mirroring of values in
      native, whose floating-point dynamics or native counterpart carry the meaning.
    - The user-interface components and the platform modules (Dimensions, AppState,
      Linking, Alert and the like), which hand props and calls on to native, and tables
      of styles and assets.
*)

From stdpp Require Import base numbers list strings gmap fin_maps.

(** ** JavaScript completions and the state monad of the development *)

(** A thrown value: a failed [invariant], an [Error] the sources construct, or a
    value thrown by client code (callbacks are parameters of the model). *)
Inductive exn :=
  | InvariantViolation (msg : string)
  | JSError (msg : string)
  | UserError (tag : Z).

#[export] Instance exn_eq_dec : EqDecision exn.
Proof. solve_decision. Defined.

(** The completion of a piece of code: normal, abrupt by a throw, or (only where
    the model bounds a loop of the source by a fuel) out of fuel. *)
Inductive result (A : Type) :=
  | Ret (a : A)
  | Throw (e : exn)
  | OutOfFuel.
Arguments Ret {_} _.
Arguments Throw {_} _.
Arguments OutOfFuel {_}.

(** Code of type [A] over the mutable state [S].  The state survives a throw, as
    in JavaScript. *)
Definition JS (S A : Type) : Type := S -> result A * S.

Declare Scope js_scope.
Delimit Scope js_scope with js.
Open Scope js_scope.

Definition ret {S A} (a : A) : JS S A := fun s => (Ret a, s).
Definition throw {S A} (e : exn) : JS S A := fun s => (Throw e, s).
Definition out_of_fuel {S A} : JS S A := fun s => (OutOfFuel, s).
Definition bind {S A B} (m : JS S A) (k : A -> JS S B) : JS S B := fun s =>
  match m s with
  | (Ret a, s') => k a s'
  | (Throw e, s') => (Throw e, s')
  | (OutOfFuel, s') => (OutOfFuel, s')
  end.
Definition gets {S A} (f : S -> A) : JS S A := fun s => (Ret (f s), s).
Definition modify {S} (f : S -> S) : JS S unit := fun s => (Ret tt, f s).
Definition try_catch {S A} (m : JS S A) (h : exn -> JS S A) : JS S A := fun s =>
  match m s with
  | (Throw e, s') => h e s'
  | r => r
  end.

Notation "'let!' x ':=' m 'in' k" := (bind m (fun x => k))
  (at level 10, x name, m at level 100, k at level 200) : js_scope.
Notation "'do!' m ';' k" := (bind m (fun _ => k))
  (at level 10, m at level 100, k at level 200) : js_scope.

Definition when {S} (b : bool) (m : JS S unit) : JS S unit :=
  if b then m else ret tt.

(** [invariant(cond, msg)] of the package [invariant]: throws when [cond] fails. *)
Definition invariant {S} (b : bool) (msg : string) : JS S unit :=
  if b then ret tt else throw (InvariantViolation msg).

(** [for (const x of l) f(x)]: stops at the first abrupt completion. *)
Fixpoint for_each {S A} (l : list A) (f : A -> JS S unit) : JS S unit :=
  match l with
  | [] => ret tt
  | x :: l' => do! f x; for_each l' f
  end.

(** [while (m()) {}] with at most [fuel] evaluations of the condition. *)
Fixpoint while_true {S} (fuel : nat) (m : JS S bool) : JS S unit :=
  match fuel with
  | O => out_of_fuel
  | Datatypes.S n => let! b := m in if b then while_true n m else ret tt
  end.

Definition final {S A} (m : JS S A) (s : S) : S := snd (m s).
Definition outcome {S A} (m : JS S A) (s : S) : result A := fst (m s).

(** ** Reasoning about state changes

    [evolves R m]: every run of [m] takes the state to an [R]-related one, whether
    it returns or throws.  For a preorder [R] this composes over the whole monad;
    [preserves I] is the instance for an invariant. *)
Definition evolves {S A} (R : S -> S -> Prop) (m : JS S A) : Prop :=
  forall s, R s (final m s).

Definition keeps {S} (I : S -> Prop) : S -> S -> Prop := fun s s' => I s -> I s'.
Abbreviation preserves I m := (evolves (keeps I) m).

#[export] Instance keeps_preorder {S} (I : S -> Prop) : PreOrder (keeps I).
Proof. split; unfold keeps; repeat intro; auto. Qed.

Create HintDb js.
#[export] Hint Resolve keeps_preorder : js.

Section evolves.
Context {S : Type} (R : S -> S -> Prop) `{!PreOrder R}.

Lemma evolves_ret {A} (a : A) : evolves R (ret a).
Proof. intros s. reflexivity. Qed.
Lemma evolves_throw {A} e : evolves R (throw (A:=A) e).
Proof. intros s. reflexivity. Qed.
Lemma evolves_fuel {A} : evolves R (out_of_fuel (A:=A)).
Proof. intros s. reflexivity. Qed.
Lemma evolves_gets {A} (f : S -> A) : evolves R (gets f).
Proof. intros s. reflexivity. Qed.
Lemma evolves_modify f : (forall s, R s (f s)) -> evolves R (modify f).
Proof. intros H s. apply H. Qed.
Lemma evolves_bind {A B} (m : JS S A) (k : A -> JS S B) :
  evolves R m -> (forall a, evolves R (k a)) -> evolves R (bind m k).
Proof.
  intros Hm Hk s. specialize (Hm s). unfold final, bind in *.
  destruct (m s) as [[a|e|] s'] eqn:E; simpl in *; [|done..].
  etransitivity; [exact Hm|]. apply (Hk a s').
Qed.
Lemma evolves_try {A} (m : JS S A) h :
  evolves R m -> (forall e, evolves R (h e)) -> evolves R (try_catch m h).
Proof.
  intros Hm Hh s. specialize (Hm s). unfold final, try_catch in *.
  destruct (m s) as [[a|e|] s'] eqn:E; simpl in *; [done| |done].
  etransitivity; [exact Hm|]. apply (Hh e s').
Qed.
Lemma evolves_when b (m : JS S unit) : evolves R m -> evolves R (when b m).
Proof. destruct b; [done|]. intros _. apply evolves_ret. Qed.
Lemma evolves_invariant b msg : evolves R (invariant b msg).
Proof. destruct b; [apply evolves_ret | apply evolves_throw]. Qed.
Lemma evolves_for_each {A} (l : list A) (f : A -> JS S unit) :
  (forall x, evolves R (f x)) -> evolves R (for_each l f).
Proof.
  intros H. induction l as [|x l IH]; simpl; [apply evolves_ret|].
  apply evolves_bind; [apply H | done].
Qed.
Lemma evolves_while n (m : JS S bool) : evolves R m -> evolves R (while_true n m).
Proof.
  intros H. induction n as [|n IH]; simpl; [apply evolves_fuel|].
  apply evolves_bind; [done|]. intros []; [done | apply evolves_ret].
Qed.
End evolves.

#[export] Hint Resolve evolves_ret evolves_throw evolves_fuel evolves_gets evolves_invariant : js.

(** One structural step of an [evolves] goal: a lemma of the [js] database about the
    operation at the head, or else descend into a bind, a branch or a loop. *)
Ltac js_step :=
  first
    [ assumption | solve [auto 3 with js nocore]
    | simple apply evolves_bind; [try apply _| |intros ?]
    | simple apply evolves_try; [try apply _| |intros ?]
    | simple apply evolves_when; [try apply _|]
    | simple apply evolves_for_each; [try apply _|intros ?]
    | simple apply evolves_while; [try apply _|]
    | progress case_match ].
Ltac js_auto := repeat (js_step; try apply _).

(** ** Termination: code that always returns, or at least never runs out of fuel *)
Definition terminates {S A} (m : JS S A) : Prop := forall s, outcome m s <> OutOfFuel.
Definition returns {S A} (m : JS S A) : Prop := forall s, exists a, outcome m s = Ret a.

Lemma terminates_bind {S A B} (m : JS S A) (f : A -> JS S B) :
  terminates m -> (forall a, terminates (f a)) -> terminates (bind m f).
Proof.
  intros Hm Hf s. specialize (Hm s). unfold outcome, bind in *.
  destruct (m s) as [[a|e|] s']; cbn in *; [apply Hf|done..].
Qed.
Lemma terminates_try {S A} (m : JS S A) (h : exn -> JS S A) :
  terminates m -> (forall e, terminates (h e)) -> terminates (try_catch m h).
Proof.
  intros Hm Hh s. specialize (Hm s). unfold outcome, try_catch in *.
  destruct (m s) as [[a|e|] s']; cbn in *; [done|apply Hh|done].
Qed.
Lemma terminates_ret {S A} (a : A) : terminates (S:=S) (ret a).
Proof. done. Qed.
Lemma terminates_throw {S A} e : terminates (S:=S) (A:=A) (throw e).
Proof. done. Qed.
Lemma terminates_gets {S A} (f : S -> A) : terminates (gets f).
Proof. done. Qed.
Lemma terminates_modify {S} (f : S -> S) : terminates (modify f).
Proof. done. Qed.
Lemma terminates_when {S} b (m : JS S unit) : terminates m -> terminates (when b m).
Proof. by destruct b. Qed.
Lemma terminates_invariant {S} b msg : terminates (S:=S) (invariant b msg).
Proof. by destruct b. Qed.
Lemma terminates_for_each {S A} (l : list A) (f : A -> JS S unit) :
  (forall x, terminates (f x)) -> terminates (for_each l f).
Proof.
  intros H. induction l as [|x l IH]; simpl; [apply terminates_ret|].
  by apply terminates_bind.
Qed.
#[export] Hint Resolve terminates_ret terminates_throw terminates_gets terminates_modify
  terminates_invariant : js.
Ltac js_terminates :=
  repeat first
    [ assumption | solve [auto 3 with js nocore]
    | simple apply terminates_bind; [|intros ?] | simple apply terminates_try; [|intros ?]
    | simple apply terminates_when | simple apply terminates_for_each; intros ?
    | progress case_match ].

Lemma returns_bind {S A B} (m : JS S A) (f : A -> JS S B) :
  returns m -> (forall a, returns (f a)) -> returns (bind m f).
Proof.
  intros Hm Hf s. destruct (Hm s) as [a Ha]. unfold outcome, bind in *.
  destruct (m s) as [[b|e|] s']; cbn in *; try done. apply Hf.
Qed.
Lemma returns_ret {S A} (a : A) : returns (S:=S) (ret a).
Proof. by eexists. Qed.
Lemma returns_gets {S A} (f : S -> A) : returns (gets f).
Proof. by eexists. Qed.
Lemma returns_modify {S} (f : S -> S) : returns (modify f).
Proof. by eexists. Qed.
Lemma returns_when {S} b (m : JS S unit) : returns m -> returns (when b m).
Proof. destruct b; [done|intros _; apply returns_ret]. Qed.
Lemma returns_for_each {S A} (l : list A) (f : A -> JS S unit) :
  (forall x, returns (f x)) -> returns (for_each l f).
Proof.
  intros H. induction l as [|x l IH]; simpl; [apply returns_ret|]. by apply returns_bind.
Qed.
#[export] Hint Resolve returns_ret returns_gets returns_modify : js.
Ltac js_returns :=
  repeat first
    [ assumption | solve [auto 3 with js nocore]
    | simple apply returns_bind; [|intros ?] | simple apply returns_when
    | simple apply returns_for_each; intros ?
    | progress case_match ].

(** A computation that always returns: its result and final state. *)
Lemma returns_run {S A} (m : JS S A) s : returns m -> exists a, m s = (Ret a, final m s).
Proof.
  intros H. destruct (H s) as [a Ha]. exists a. unfold outcome, final in *.
  destruct (m s); cbn in *; by subst.
Qed.

Lemma keeps_foldl {S A} (P : S -> Prop) (f : A -> JS S unit) l s :
  (forall x, preserves P (f x)) -> P s -> P (foldl (fun s x => final (f x) s) s l).
Proof. intros H. revert s. induction l as [|x l IH]; intros s HP; [done|]. by apply IH, H. Qed.

(** Running a monadic term one constructor at a time. *)
Lemma bind_ret {S A B} (a : A) (k : A -> JS S B) s : bind (ret a) k s = k a s.
Proof. done. Qed.
Lemma bind_throw {S A B} e (k : A -> JS S B) s : bind (throw e) k s = (Throw e, s).
Proof. done. Qed.
Lemma bind_gets {S A B} (f : S -> A) (k : A -> JS S B) s : bind (gets f) k s = k (f s) s.
Proof. done. Qed.
Lemma bind_modify {S B} (f : S -> S) (k : unit -> JS S B) s :
  bind (modify f) k s = k tt (f s).
Proof. done. Qed.
Lemma bind_assoc {S A B C} (m : JS S A) (f : A -> JS S B) (g : B -> JS S C) s :
  bind (bind m f) g s = bind m (fun a => bind (f a) g) s.
Proof. unfold bind. by destruct (m s) as [[] ?]. Qed.
Lemma bind_ext {S A B} (m : JS S A) (k k' : A -> JS S B) s :
  (forall a s', k a s' = k' a s') -> bind m k s = bind m k' s.
Proof. intros H. unfold bind. destruct (m s) as [[a|e|] s']; auto. Qed.
Lemma bind_ext2 {S A B} (m m' : JS S A) (k : A -> JS S B) s :
  m s = m' s -> bind m k s = bind m' k s.
Proof. unfold bind. by intros ->. Qed.
Lemma bind_of {S A B} (m : JS S A) (k : A -> JS S B) s a s' :
  m s = (Ret a, s') -> bind m k s = k a s'.
Proof. unfold bind. by intros ->. Qed.
Lemma bind_throws {S A B} (m : JS S A) (k : A -> JS S B) s e s' :
  m s = (Throw e, s') -> bind m k s = (Throw e, s').
Proof. unfold bind. by intros ->. Qed.

Lemma bind_Ret_inv {S A B} (m : JS S A) (k : A -> JS S B) s b s' :
  bind m k s = (Ret b, s') -> exists a s1, m s = (Ret a, s1) /\ k a s1 = (Ret b, s').
Proof. unfold bind. destruct (m s) as [[a|e|] s1]; [|done..]. intros. by exists a, s1. Qed.
Lemma evolves_of {S A} (R : S -> S -> Prop) (m : JS S A) s r s' :
  evolves R m -> m s = (r, s') -> R s s'.
Proof. intros H E. specialize (H s). unfold final in H. by rewrite E in H. Qed.
(** [evolves] from one state, with what is known about the states in between. *)
Lemma evolves_bind_at {S A B} (R : S -> S -> Prop) `{!PreOrder R} (m : JS S A) (k : A -> JS S B) s :
  R s (final m s) -> (forall a s1, m s = (Ret a, s1) -> R s1 (final (k a) s1)) ->
  R s (final (bind m k) s).
Proof.
  unfold final, bind. destruct (m s) as [[a|e|] s1] eqn:E; cbn; intros Hm Hk; [|done..].
  etransitivity; [exact Hm|]. by apply Hk.
Qed.
Lemma evolves_try_at {S A} (R : S -> S -> Prop) `{!PreOrder R} (m : JS S A) (h : exn -> JS S A) s :
  R s (final m s) -> (forall e s1, m s = (Throw e, s1) -> R s1 (final (h e) s1)) ->
  R s (final (try_catch m h) s).
Proof.
  unfold final, try_catch. destruct (m s) as [[a|e|] s1] eqn:E; cbn; intros Hm Hh; [done| |done].
  etransitivity; [exact Hm|]. by apply Hh.
Qed.
Lemma evolves_impl {S A} (R R' : S -> S -> Prop) (m : JS S A) :
  (forall s s', R s s' -> R' s s') -> evolves R m -> evolves R' m.
Proof. intros H Hm s. apply H, Hm. Qed.

Lemma for_each_app {S A} (l1 l2 : list A) (f : A -> JS S unit) s :
  for_each (l1 ++ l2) f s = (do! for_each l1 f; for_each l2 f) s.
Proof.
  revert s. induction l1 as [|x l1 IH]; intros s; simpl; [done|].
  rewrite bind_assoc. unfold bind at 1 2. destruct (f x s) as [[a| |] s']; simpl; auto.
Qed.

(** A loop whose body always returns and whose effect is the function [g] is a fold. *)
Lemma for_each_total {S A} (l : list A) (f : A -> JS S unit) (g : A -> S -> S) s :
  (forall x s, x ∈ l -> f x s = (Ret tt, g x s)) ->
  for_each l f s = (Ret tt, foldl (fun s x => g x s) s l).
Proof.
  revert s. induction l as [|x l IH]; intros s H; simpl; [done|].
  rewrite (bind_of _ _ _ tt (g x s)); [|apply H; left].
  apply IH. intros y s' Hy. apply H. by right.
Qed.

(** ** Arrays

    A dense array is a [list]; an array with holes (after [delete a[i]]) or with
    [null] slots is a [list (option A)]. *)

(** [a.indexOf(x)], with [None] for -1. *)
Fixpoint index_of {A} `{EqDecision A} (x : A) (l : list A) : option nat :=
  match l with
  | [] => None
  | y :: l' => if decide (y = x) then Some 0 else Datatypes.S <$> index_of x l'
  end.

(** [a.splice(i, 1)]. *)
Definition splice1 {A} (i : nat) (l : list A) : list A := take i l ++ drop (Datatypes.S i) l.

Lemma index_of_Some {A} `{EqDecision A} (x : A) l i :
  index_of x l = Some i -> l !! i = Some x /\ forall j, j < i -> l !! j <> Some x.
Proof.
  revert i. induction l as [|y l IH]; intros i; simpl; [done|].
  destruct (decide (y = x)) as [->|Hne].
  - intros [= <-]. split; [done | lia].
  - destruct (index_of x l) as [k|]; [|done]. intros [= <-].
    destruct (IH k eq_refl) as [H1 H2]. split; [done|].
    intros [|j] Hj; simpl; [congruence | apply H2; lia].
Qed.

Lemma index_of_None {A} `{EqDecision A} (x : A) l : index_of x l = None <-> x ∉ l.
Proof.
  induction l as [|y l IH]; simpl; [split; [intros _; apply not_elem_of_nil|done]|].
  destruct (decide (y = x)) as [->|Hne].
  - split; [done|]. intros H. destruct H. left.
  - rewrite not_elem_of_cons, <- IH. destruct (index_of x l); simpl; [split; [done|by intros []]|].
    split; [by split|done].
Qed.

Lemma index_of_NoDup {A} `{EqDecision A} (x : A) l i :
  NoDup l -> l !! i = Some x -> index_of x l = Some i.
Proof.
  intros Hnd Hi. destruct (index_of x l) as [j|] eqn:E.
  - apply index_of_Some in E as [E _]. f_equal. by eapply NoDup_lookup.
  - apply index_of_None in E. destruct E. by eapply list_elem_of_lookup_2.
Qed.

(** [a[i] = x] for [i <= a.length]: overwrites, or extends by one. *)
Definition set_at {A} (i : nat) (x : A) (l : list A) : list A :=
  if decide (i < length l) then <[i := x]> l else l ++ [x].

Lemma set_at_lookup {A} i (x : A) l : i <= length l -> set_at i x l !! i = Some x.
Proof.
  intros H. unfold set_at. case_decide.
  - by apply list_lookup_insert_eq.
  - rewrite lookup_app_r by lia. by replace (i - length l) with 0 by lia.
Qed.
Lemma set_at_lookup_ne {A} i j (x : A) l :
  i <= length l -> i <> j -> set_at i x l !! j = l !! j.
Proof.
  intros H Hne. unfold set_at. case_decide; [by apply list_lookup_insert_ne|].
  destruct (decide (j < length l)); [by rewrite lookup_app_l|].
  rewrite lookup_app_r by lia. destruct (j - length l) as [|k] eqn:E; [lia|].
  rewrite (lookup_ge_None_2 l j) by lia. by destruct k.
Qed.
Lemma set_at_length {A} i (x : A) l :
  i <= length l -> length (set_at i x l) = max (length l) (Datatypes.S i).
Proof.
  intros H. unfold set_at. case_decide; [rewrite length_insert | rewrite length_app; simpl]; lia.
Qed.

(** ** 32-bit integer operators on Numbers that hold integers *)

Definition to_uint32 (n : Z) : Z := n `mod` 2 ^ 32.
Definition to_int32 (n : Z) : Z :=
  let m := to_uint32 n in if (m <? 2 ^ 31)%Z then m else (m - 2 ^ 32)%Z.
(** [a << k], [a >>> k], [a & b], [a | b]. *)
Definition shl32 (a k : Z) : Z := to_int32 (Z.shiftl (to_int32 a) (k `mod` 32)).
Definition shru32 (a k : Z) : Z := Z.shiftr (to_uint32 a) (k `mod` 32).
Definition and32 (a b : Z) : Z := to_int32 (Z.land (to_uint32 a) (to_uint32 b)).
Definition or32 (a b : Z) : Z := to_int32 (Z.lor (to_uint32 a) (to_uint32 b)).

Lemma to_uint32_range n : (0 <= to_uint32 n < 2 ^ 32)%Z.
Proof. unfold to_uint32. apply Z.mod_pos_bound. lia. Qed.
Lemma to_uint32_small n : (0 <= n < 2 ^ 32)%Z -> to_uint32 n = n.
Proof. intros. unfold to_uint32. by apply Z.mod_small. Qed.
Lemma to_int32_range n : (- 2 ^ 31 <= to_int32 n < 2 ^ 31)%Z.
Proof.
  unfold to_int32. pose proof (to_uint32_range n). destruct (Z.ltb_spec (to_uint32 n) (2 ^ 31)); lia.
Qed.
Lemma to_uint32_int32 n : to_uint32 (to_int32 n) = to_uint32 n.
Proof.
  unfold to_int32. pose proof (to_uint32_range n) as H.
  destruct (Z.ltb_spec (to_uint32 n) (2 ^ 31)) as [|]; [by apply to_uint32_small|].
  transitivity (to_uint32 (to_uint32 n)); [|by apply to_uint32_small].
  unfold to_uint32 at 1 3.
  replace (to_uint32 n - 2 ^ 32)%Z with (to_uint32 n + (-1) * 2 ^ 32)%Z by lia.
  apply Z_mod_plus_full.
Qed.

Lemma to_int32_small n : (0 <= n < 2 ^ 31)%Z -> to_int32 n = n.
Proof.
  intros. unfold to_int32. rewrite to_uint32_small by lia.
  destruct (Z.ltb_spec n (2 ^ 31)); lia.
Qed.

(** Tagging an identifier with one low bit and taking it apart again. *)
Lemma tag0_decode id : (0 <= id < 2 ^ 31)%Z ->
  shru32 (shl32 id 1) 1 = id /\ and32 (shl32 id 1) 1 = 0%Z.
Proof.
  intros H. unfold shru32, shl32, and32. rewrite (to_int32_small id) by lia.
  change (1 `mod` 32)%Z with 1%Z. rewrite !to_uint32_int32, Z.shiftl_mul_pow2, Z.shiftr_div_pow2 by lia.
  change (2 ^ 1)%Z with 2%Z.
  rewrite (to_uint32_small (id * 2)) by lia. split; [by rewrite Z.div_mul|].
  rewrite (to_uint32_small 1) by lia. change (Z.land (id * 2) 1) with (Z.land (id * 2) (Z.ones 1)).
  rewrite Z.land_ones by lia. change (2 ^ 1)%Z with 2%Z. by rewrite Z.mod_mul.
Qed.
Lemma tag1_decode id : (0 <= id < 2 ^ 31)%Z ->
  shru32 (or32 (shl32 id 1) 1) 1 = id /\ and32 (or32 (shl32 id 1) 1) 1 = 1%Z.
Proof.
  intros H. unfold shru32, and32, or32, shl32. rewrite (to_int32_small id) by lia.
  change (1 `mod` 32)%Z with 1%Z. rewrite !to_uint32_int32, Z.shiftl_mul_pow2 by lia.
  change (2 ^ 1)%Z with 2%Z.
  rewrite (to_uint32_small (id * 2)), (to_uint32_small 1) by lia.
  assert (E : Z.lor (id * 2) 1 = (id * 2 + 1)%Z).
  { pose proof (Z.add_lor_land (id * 2) 1) as E.
    change (Z.land (id * 2) 1) with (Z.land (id * 2) (Z.ones 1)) in E.
    rewrite Z.land_ones in E by lia. change (2 ^ 1)%Z with 2%Z in E.
    rewrite Z.mod_mul in E by lia. lia. }
  rewrite E, to_uint32_small by lia. split.
  - rewrite Z.shiftr_div_pow2 by lia. change (2 ^ 1)%Z with 2%Z.
    by rewrite Z.div_add_l, Z.add_0_r by lia.
  - change (Z.land (id * 2 + 1) 1) with (Z.land (id * 2 + 1) (Z.ones 1)).
    rewrite Z.land_ones by lia. change (2 ^ 1)%Z with 2%Z.
    by rewrite Z.add_comm, Z.mod_add by lia.
Qed.

(** ** Filters *)

Lemma filter_none {A} (P : A -> Prop) `{forall x, Decision (P x)} (l : list A) :
  (forall x, x ∈ l -> ~ P x) -> filter P l = [].
Proof.
  induction l as [|x l IH]; intros H'; [done|]. rewrite filter_cons, decide_False.
  - apply IH. intros y Hy. apply H'. by right.
  - apply H'. left.
Qed.
Lemma filter_all {A} (P : A -> Prop) `{forall x, Decision (P x)} (l : list A) :
  (forall x, x ∈ l -> P x) -> filter P l = l.
Proof.
  induction l as [|x l IH]; intros H'; [done|]. rewrite filter_cons, decide_True.
  - f_equal. apply IH. intros y Hy. apply H'. by right.
  - apply H'. left.
Qed.

Lemma filter_bool_cons {A} (f : A -> bool) x (l : list A) :
  filter (fun x => f x = true) (x :: l) =
    if f x then x :: filter (fun x => f x = true) l else filter (fun x => f x = true) l.
Proof. rewrite filter_cons. case_decide as H; [by rewrite H|]. by destruct (f x). Qed.

(** ** [Map] (and objects used as maps): entries in insertion order *)
Section js_map.
Context {K V : Type} `{EqDecision K}.
Implicit Types (m : list (K * V)).

Fixpoint map_get (k : K) m : option V :=
  match m with
  | [] => None
  | (k', v) :: m' => if decide (k' = k) then Some v else map_get k m'
  end.
Definition map_has (k : K) m : bool := if map_get k m is Some _ then true else false.
(** An existing key keeps its place. *)
Fixpoint map_set (k : K) (v : V) m : list (K * V) :=
  match m with
  | [] => [(k, v)]
  | (k', v') :: m' => if decide (k' = k) then (k, v) :: m' else (k', v') :: map_set k v m'
  end.
Definition map_delete (k : K) m : list (K * V) := filter (fun e => e.1 <> k) m.
Definition map_of (l : list (K * V)) : list (K * V) := foldl (fun m e => map_set e.1 e.2 m) [] l.

Lemma map_get_set k v m k' :
  map_get k' (map_set k v m) = if decide (k = k') then Some v else map_get k' m.
Proof.
  induction m as [|[x w] m IH]; simpl; [done|].
  destruct (decide (x = k)) as [->|]; simpl.
  - by destruct (decide (k = k')).
  - rewrite IH. repeat case_decide; congruence.
Qed.
Lemma map_get_delete k m k' :
  map_get k' (map_delete k m) = if decide (k = k') then None else map_get k' m.
Proof.
  unfold map_delete. induction m as [|[x w] m IH]; simpl; [by case_decide|].
  rewrite filter_cons. simpl. repeat case_decide; simpl; rewrite ?IH; repeat case_decide; congruence.
Qed.
Lemma map_get_None k m : map_get k m = None <-> k ∉ m.*1.
Proof.
  induction m as [|[x w] m IH]; simpl; [split; [intros _; apply not_elem_of_nil|done]|].
  rewrite not_elem_of_cons, <- IH. case_decide; subst; [split; [done|by intros [? _]]|]. split; [|by intros [_ ?]]. split; [congruence|done].
Qed.
Lemma map_has_spec k m : map_has k m = true <-> k ∈ m.*1.
Proof.
  unfold map_has. destruct (map_get k m) eqn:E.
  - split; [|done]. intros _. destruct (decide (k ∈ m.*1)) as [|Hn]; [done|].
    apply map_get_None in Hn. congruence.
  - apply map_get_None in E. split; [done|]. intros. contradiction.
Qed.
Lemma map_set_keys k v m :
  (map_set k v m).*1 = if map_has k m then m.*1 else m.*1 ++ [k].
Proof.
  unfold map_has. induction m as [|[x w] m IH]; simpl; [done|].
  destruct (decide (x = k)) as [->|]; simpl; [done|].
  change (list_fmap _ _ fst ?l) with (l.*1). rewrite IH. by destruct (map_get k m).
Qed.
Lemma map_set_NoDup k v m : NoDup m.*1 -> NoDup (map_set k v m).*1.
Proof.
  intros H. rewrite map_set_keys. destruct (map_has k m) eqn:E; [done|].
  apply NoDup_app. split_and!; [done| |apply NoDup_singleton].
  intros x Hx ->%list_elem_of_singleton. apply map_has_spec in Hx. congruence.
Qed.
Lemma map_delete_NoDup k m : NoDup m.*1 -> NoDup (map_delete k m).*1.
Proof.
  unfold map_delete. induction m as [|[x w] m IH]; simpl; [done|]. intros [Hn H]%NoDup_cons.
  rewrite filter_cons. case_decide; simpl; [|by apply IH]. apply NoDup_cons. split; [|by apply IH].
  intros ([??] & -> & [_ Hin]%list_elem_of_filter)%list_elem_of_fmap. apply Hn.
  apply list_elem_of_fmap. eauto.
Qed.
Lemma map_set_Forall (P : K * V -> Prop) k v m :
  P (k, v) -> Forall P m -> Forall P (map_set k v m).
Proof.
  intros Hk. induction 1 as [|[x w] m Hw Hm IH]; simpl; [by repeat constructor|].
  case_decide; by constructor.
Qed.
Lemma map_of_Forall (P : K * V -> Prop) l : Forall P l -> Forall P (map_of l).
Proof.
  unfold map_of. assert (H : Forall P []) by done. revert H.
  generalize ([] : list (K * V)) as m. induction l as [|e l IH]; intros m H; [done|].
  intros [He Hl]%Forall_cons. simpl. apply IH; [|done]. apply map_set_Forall; [by destruct e|done].
Qed.
Lemma elem_of_filter_keys (f : K -> bool) b m k :
  k ∈ (filter (fun e => f e.1 = b) m).*1 <-> k ∈ m.*1 /\ f k = b.
Proof.
  rewrite !list_elem_of_fmap. split.
  - intros ([x v] & -> & [Hf Hin]%list_elem_of_filter). split; [by exists (x, v)|done].
  - intros [([x v] & -> & Hin) Hf]. exists (x, v). by rewrite list_elem_of_filter.
Qed.
Lemma map_of_NoDup l : NoDup (map_of l).*1.
Proof.
  unfold map_of. assert (H : NoDup ([] : list (K * V)).*1) by constructor. revert H.
  generalize ([] : list (K * V)) as m. induction l as [|e l IH]; intros m H; [done|]. simpl. apply IH.
  by apply map_set_NoDup.
Qed.
End js_map.

(** ** Strings *)
Lemma string_app_cons c (s t : string) : String c s +:+ t = String c (s +:+ t).
Proof. done. Qed.
Lemma string_app_nil_r (s : string) : s +:+ "" = s.
Proof. induction s as [|c s IH]; [done|]. rewrite string_app_cons. by f_equal. Qed.
Lemma string_app_assoc (a b c : string) : a +:+ (b +:+ c) = (a +:+ b) +:+ c.
Proof. induction a as [|x a IH]; [done|]. rewrite !string_app_cons. by f_equal. Qed.

(** ** Words of several fields *)
Lemma lor_disjoint a b k : (0 <= k -> 0 <= a -> 0 <= b < 2 ^ k -> Z.lor (a * 2 ^ k) b = a * 2 ^ k + b)%Z.
Proof.
  intros Hk Ha Hb. pose proof (Z.add_lor_land (a * 2 ^ k) b) as E.
  assert (H0 : Z.land (a * 2 ^ k) b = 0%Z); [|lia].
  apply Z.bits_inj'. intros i Hi. rewrite Z.land_spec, Z.bits_0.
  destruct (Z.ltb_spec i k) as [H|H].
  - by rewrite Z.mul_pow2_bits_low.
  - destruct (Z.eq_dec b 0%Z) as [->|Hne]; [by rewrite Z.bits_0, andb_false_r|].
    rewrite (Z.bits_above_log2 b i), andb_false_r; [done|lia|].
    assert (Z.log2 b < k)%Z by (apply Z.log2_lt_pow2; lia). lia.
Qed.
Lemma log2_word a k : (0 < k -> 0 <= a < 2 ^ k -> Z.log2 a < k)%Z.
Proof.
  intros Hk Ha. destruct (Z.eq_dec a 0%Z) as [->|]; [by rewrite Z.log2_nonpos by lia|].
  apply Z.log2_lt_pow2; lia.
Qed.
Lemma lor_range a b : (0 <= a < 2 ^ 32 -> 0 <= b < 2 ^ 32 -> 0 <= Z.lor a b < 2 ^ 32)%Z.
Proof.
  intros Ha Hb. assert (H0 : (0 <= Z.lor a b)%Z) by (apply Z.lor_nonneg; lia). split; [done|].
  destruct (Z.eq_dec (Z.lor a b) 0%Z) as [->|Hne]; [lia|].
  apply Z.log2_lt_pow2; [lia|]. rewrite Z.log2_lor by lia.
  apply Z.max_lub_lt; by apply log2_word.
Qed.
Lemma to_uint32_or32 a b : to_uint32 (or32 a b) = Z.lor (to_uint32 a) (to_uint32 b).
Proof.
  unfold or32. rewrite to_uint32_int32. apply to_uint32_small, lor_range; apply to_uint32_range.
Qed.
Lemma to_uint32_shl32 a k : (0 <= k < 32)%Z -> to_uint32 (shl32 a k) = ((a * 2 ^ k) `mod` 2 ^ 32)%Z.
Proof.
  intros Hk. unfold shl32. rewrite to_uint32_int32, (Z.mod_small k) by lia. rewrite Z.shiftl_mul_pow2 by lia.
  unfold to_uint32. rewrite <- Z.mul_mod_idemp_l by lia.
  change (to_int32 a `mod` 2 ^ 32)%Z with (to_uint32 (to_int32 a)). rewrite to_uint32_int32.
  unfold to_uint32. by rewrite Z.mul_mod_idemp_l by lia.
Qed.
