(* ===== verification/Rationals.v ===== *)
(** * Rationals

    Numbers that need not be integers are rationals in this development: comparison,
    [Math.min] and [Math.max] as executable functions, with their specifications and
    their compatibility with the equality of rationals. *)
From S2P Require Import Prelude.
From stdpp Require Import base numbers.
From Stdlib Require Import QArith Lqa.

(** [a < b], [Math.min(a, b)], [Math.max(a, b)]. *)
Definition Qltb (a b : Q) : bool := negb (Qle_bool b a).
Definition Qminb (a b : Q) : Q := if Qle_bool a b then a else b.
Definition Qmaxb (a b : Q) : Q := if Qle_bool a b then b else a.

Lemma Qltb_true a b : Qltb a b = true <-> (a < b)%Q.
Proof.
  unfold Qltb. rewrite negb_true_iff, <- not_true_iff_false, Qle_bool_iff.
  split; [apply Qnot_le_lt|apply Qlt_not_le].
Qed.
Lemma Qltb_false a b : Qltb a b = false <-> (b <= a)%Q.
Proof. unfold Qltb. rewrite negb_false_iff. apply Qle_bool_iff. Qed.
Lemma Qmaxb_spec a b :
  (a <= Qmaxb a b)%Q /\ (b <= Qmaxb a b)%Q /\ (Qmaxb a b == a \/ Qmaxb a b == b)%Q.
Proof.
  unfold Qmaxb. destruct (Qle_bool a b) eqn:E.
  - apply Qle_bool_iff in E. split_and!; [done|apply Qle_refl|by right].
  - assert (b < a)%Q by (apply Qltb_true; unfold Qltb; by rewrite E).
    split_and!; [apply Qle_refl|lra|by left].
Qed.

#[export] Instance Qltb_proper : Proper (Qeq ==> Qeq ==> eq) Qltb.
Proof. intros a a' Ha b b' Hb. unfold Qltb. by rewrite Ha, Hb. Qed.
#[export] Instance Qminb_proper : Proper (Qeq ==> Qeq ==> Qeq) Qminb.
Proof. intros a a' Ha b b' Hb. unfold Qminb. rewrite Ha, Hb. by destruct (Qle_bool a' b'). Qed.
#[export] Instance Qmaxb_proper : Proper (Qeq ==> Qeq ==> Qeq) Qmaxb.
Proof. intros a a' Ha b b' Hb. unfold Qmaxb. rewrite Ha, Hb. by destruct (Qle_bool a' b'). Qed.
