(* ===== verification/Emitter.v ===== *)
(** * Emitter

    Libraries/vendor/emitter (EventSubscriptionVendor, EventSubscription,
    EmitterSubscription, EventEmitter) and its two subclasses in
    Libraries/EventEmitter (RCTDeviceEventEmitter, NativeEventEmitter).

    Emitters, vendors, subscription objects and subscription arrays are JavaScript
    objects that are shared and mutated in place (several emitters share a vendor,
    [emit] walks an array that listeners change), so the state is a store of each
    kind, indexed by references drawn from one counter.  A subscription array is
    sparse: [delete a[key]] leaves a hole.  What a listener does is the parameter
    [call]: it may run any operation of this file.  The calls to a native module are
    recorded in [effects]; the state of the rest of the program is [world]. *)
From S2P Require Import Prelude.
From stdpp Require Import base numbers list strings gmap fin_maps.

(** An optional string argument as JavaScript has it. *)
Inductive optstring := SUndefined | SNull | SStr (v : string).

(** The class of an emitter object; [KNative] carries [this._nativeModule]. *)
Inductive kind := KBase | KDevice | KNative (nativeModule : option nat).

(** A listener: a function of client code, or the closure that [once] creates.
    Functions are compared by identity, which for a closure is its [id]. *)
Inductive listener :=
  | User (f : nat)
  | OnceWrapper (id : nat) (em : nat) (f : nat) (context : option nat).

#[export] Instance listener_eq_dec : EqDecision listener.
Proof. solve_decision. Defined.

Record emitter := {
  em_subscriber : nat;
  em_currentSubscription : option nat;
  em_kind : kind
}.

Record subscription := {
  sub_emitter : nat;
  sub_subscriber : nat;
  sub_listener : listener;
  sub_context : option nat;
  sub_eventType : option string;
  sub_key : option nat
}.

Inductive effect :=
  | NativeAddListener (m : nat) (eventType : string)
  | NativeRemoveListeners (m : nat) (count : nat).

Record st (W : Type) := {
  emitters : gmap nat emitter;
  vendors : gmap nat (gmap string nat);
  arrays : gmap nat (list (option nat));
  subs : gmap nat subscription;
  next : nat;
  effects : list effect;
  world : W
}.
Arguments emitters {W}. Arguments vendors {W}. Arguments arrays {W}. Arguments subs {W}.
Arguments next {W}. Arguments effects {W}. Arguments world {W}.

Section emitter.
Context {W V : Type}.
Abbreviation S := (st W).

Definition set_emitters x (s : S) : S :=
  Build_st W x (vendors s) (arrays s) (subs s) (next s) (effects s) (world s).
Definition set_vendors x (s : S) : S :=
  Build_st W (emitters s) x (arrays s) (subs s) (next s) (effects s) (world s).
Definition set_arrays x (s : S) : S :=
  Build_st W (emitters s) (vendors s) x (subs s) (next s) (effects s) (world s).
Definition set_subs x (s : S) : S :=
  Build_st W (emitters s) (vendors s) (arrays s) x (next s) (effects s) (world s).
Definition set_next x (s : S) : S :=
  Build_st W (emitters s) (vendors s) (arrays s) (subs s) x (effects s) (world s).
Definition set_effects x (s : S) : S :=
  Build_st W (emitters s) (vendors s) (arrays s) (subs s) (next s) x (world s).
Definition set_world x (s : S) : S :=
  Build_st W (emitters s) (vendors s) (arrays s) (subs s) (next s) (effects s) x.

(** Dereferencing; a reference the program holds is always allocated. *)
Definition deref {A} (o : option A) : JS S A :=
  match o with Some a => ret a | None => throw (JSError "TypeError") end.
Definition get_emitter (em : nat) : JS S emitter :=
  let! o := gets (fun s => emitters s !! em) in deref o.
Definition get_vendor (v : nat) : JS S (gmap string nat) :=
  let! o := gets (fun s => vendors s !! v) in deref o.
Definition get_sub (i : nat) : JS S subscription :=
  let! o := gets (fun s => subs s !! i) in deref o.
Definition get_array (a : nat) : JS S (list (option nat)) :=
  let! o := gets (fun s => arrays s !! a) in deref o.
Definition fresh : JS S nat :=
  let! n := gets next in do! modify (set_next (n + 1)); ret n.
Definition log (e : effect) : JS S unit :=
  modify (fun s => set_effects (effects s ++ [e]) s).

(** ** EventSubscriptionVendor *)

Definition new_EventSubscriptionVendor : JS S nat :=
  let! v := fresh in
  do! modify (fun s => set_vendors (<[v := ∅]> (vendors s)) s);
  ret v.

Definition addSubscription (this : nat) (eventType : string) (i : nat) : JS S nat :=
  let! sub := get_sub i in
  do! invariant (bool_decide (sub_subscriber sub = this))
        "The subscriber of the subscription is incorrectly set.";
  let! types := get_vendor this in
  let! a :=
    match types !! eventType with
    | Some a => ret a
    | None =>
        let! a := fresh in
        do! modify (fun s => set_arrays (<[a := []]> (arrays s)) s);
        do! modify (fun s => set_vendors (<[this := <[eventType := a]> types]> (vendors s)) s);
        ret a
    end in
  let! l := get_array a in
  let key := length l in
  do! modify (fun s => set_arrays (<[a := l ++ [Some i]]> (arrays s)) s);
  do! modify (fun s => set_subs (<[i := Build_subscription (sub_emitter sub)
        (sub_subscriber sub) (sub_listener sub) (sub_context sub)
        (Some eventType) (Some key)]> (subs s)) s);
  ret i.

Definition property_name (e : optstring) : string :=
  match e with SUndefined => "undefined" | SNull => "null" | SStr v => v end.

Definition removeAllSubscriptions (this : nat) (eventType : optstring) : JS S unit :=
  let! types := get_vendor this in
  match eventType with
  | SUndefined => modify (fun s => set_vendors (<[this := ∅]> (vendors s)) s)
  | _ => modify (fun s =>
           set_vendors (<[this := delete (property_name eventType) types]> (vendors s)) s)
  end.

(** [delete subscriptionsForType[key]] leaves a hole in the array. *)
Definition vendor_removeSubscription (this : nat) (i : nat) : JS S unit :=
  let! sub := get_sub i in
  let! types := get_vendor this in
  match sub_eventType sub ≫= fun eventType => types !! eventType with
  | None => ret tt
  | Some a =>
      match sub_key sub with
      | None => ret tt
      | Some key =>
          let! l := get_array a in
          modify (fun s => set_arrays (<[a := <[key := None]> l]> (arrays s)) s)
      end
  end.

Definition getSubscriptionsForType (this : nat) (eventType : string) : JS S (option nat) :=
  let! types := get_vendor this in ret (types !! eventType).

(** ** EventSubscription, EmitterSubscription: constructors *)

Definition new_EmitterSubscription (em subscriber : nat) (l : listener)
    (context : option nat) : JS S nat :=
  let! i := fresh in
  do! modify (fun s => set_subs (<[i := Build_subscription em subscriber l context
        None None]> (subs s)) s);
  ret i.

(** ** The emitter classes *)

Definition new_EventEmitter (k : kind) (subscriber : option nat) : JS S nat :=
  let! v := match subscriber with Some v => ret v | None => new_EventSubscriptionVendor end in
  let! em := fresh in
  do! modify (fun s => set_emitters (<[em := Build_emitter v None k]> (emitters s)) s);
  ret em.

Definition new_RCTDeviceEventEmitter : JS S nat :=
  let! sharedSubscriber := new_EventSubscriptionVendor in
  new_EventEmitter KDevice (Some sharedSubscriber).

(** [apple] is [Platform.OS === 'ios' || Platform.OS === 'macos']. *)
Definition new_NativeEventEmitter (apple : bool) (sharedSubscriber : nat)
    (nativeModule : option nat) : JS S nat :=
  if apple then
    do! invariant (bool_decide (is_Some nativeModule)) "Native module cannot be null.";
    new_EventEmitter (KNative nativeModule) (Some sharedSubscriber)
  else new_EventEmitter (KNative None) (Some sharedSubscriber).

Definition set_current (em : nat) (c : option nat) : JS S unit :=
  let! e := get_emitter em in
  modify (fun s => set_emitters
    (<[em := Build_emitter (em_subscriber e) c (em_kind e)]> (emitters s)) s).

Definition starts_with (p : string) (v : string) : bool := String.prefix p v.

Definition checkNativeEventModule (eventType : optstring) : JS S unit :=
  match eventType with
  | SUndefined | SNull | SStr "" => ret tt
  | SStr v =>
      if starts_with "statusBar" v then
        throw (JSError ("`" +:+ v +:+ "` event should be registered via the StatusBarIOS module"))
      else if starts_with "keyboard" v then
        throw (JSError ("`" +:+ v +:+ "` event should be registered via the Keyboard module"))
      else if bool_decide (v = "appStateDidChange") || bool_decide (v = "memoryWarning") then
        throw (JSError ("`" +:+ v +:+ "` event should be registered via the AppState module"))
      else ret tt
  end.

Definition base_addListener (em : nat) (eventType : string) (l : listener)
    (context : option nat) : JS S nat :=
  let! e := get_emitter em in
  let! i := new_EmitterSubscription em (em_subscriber e) l context in
  addSubscription (em_subscriber e) eventType i.

(** [addListener], dispatched on the class of the emitter; [dev] is [__DEV__]. *)
Definition addListener (dev : bool) (em : nat) (eventType : string) (l : listener)
    (context : option nat) : JS S nat :=
  let! e := get_emitter em in
  match em_kind e with
  | KBase => base_addListener em eventType l context
  | KDevice =>
      do! when dev (checkNativeEventModule (SStr eventType));
      base_addListener em eventType l context
  | KNative m =>
      do! (match m with
           | Some m => log (NativeAddListener m eventType)
           | None => ret tt end);
      base_addListener em eventType l context
  end.

Definition once (dev : bool) (em : nat) (eventType : string) (f : nat)
    (context : option nat) : JS S nat :=
  let! id := fresh in
  addListener dev em eventType (OnceWrapper id em f context) None.

Definition base_removeSubscription (em : nat) (i : nat) : JS S unit :=
  let! sub := get_sub i in
  do! invariant (bool_decide (sub_emitter sub = em))
        "Subscription does not belong to this emitter.";
  let! e := get_emitter em in
  vendor_removeSubscription (em_subscriber e) i.

Definition native_removeSubscription (em : nat) (m : option nat) (i : nat) : JS S unit :=
  do! (match m with
       | Some m => log (NativeRemoveListeners m 1)
       | None => ret tt end);
  base_removeSubscription em i.

(** [removeSubscription], dispatched on the class.  The device emitter forwards a
    subscription of another emitter to that emitter, which then owns it. *)
Definition removeSubscription (em : nat) (i : nat) : JS S unit :=
  let! e := get_emitter em in
  match em_kind e with
  | KBase => base_removeSubscription em i
  | KNative m => native_removeSubscription em m i
  | KDevice =>
      let! sub := get_sub i in
      if decide (sub_emitter sub = em) then base_removeSubscription em i
      else
        let! owner := get_emitter (sub_emitter sub) in
        match em_kind owner with
        | KNative m => native_removeSubscription (sub_emitter sub) m i
        | _ => base_removeSubscription (sub_emitter sub) i
        end
  end.

(** [EmitterSubscription.remove]. *)
Definition remove (i : nat) : JS S unit :=
  let! sub := get_sub i in removeSubscription (sub_emitter sub) i.

Definition removeCurrentListener (em : nat) : JS S unit :=
  let! e := get_emitter em in
  match em_currentSubscription e with
  | None => throw (InvariantViolation
              "Not in an emitting cycle; there is no current subscription")
  | Some i => removeSubscription em i
  end.

(** The listeners of the entries that exist. *)
Definition listeners (em : nat) (eventType : string) : JS S (list listener) :=
  let! e := get_emitter em in
  let! o := getSubscriptionsForType (em_subscriber e) eventType in
  match o with
  | None => ret []
  | Some a =>
      let! l := get_array a in
      gets (fun s => sub_listener <$> omap (fun i => subs s !! i) (omap id l))
  end.

Definition base_removeAllListeners (em : nat) (eventType : optstring) : JS S unit :=
  let! e := get_emitter em in removeAllSubscriptions (em_subscriber e) eventType.

Definition truthy_string (e : optstring) : bool :=
  match e with SStr "" => false | SStr _ => true | _ => false end.

Definition removeAllListeners (dev : bool) (em : nat) (eventType : optstring) : JS S unit :=
  let! e := get_emitter em in
  match em_kind e with
  | KBase => base_removeAllListeners em eventType
  | KDevice =>
      do! when dev (checkNativeEventModule eventType);
      base_removeAllListeners em eventType
  | KNative m =>
      do! invariant (truthy_string eventType) "eventType argument is required.";
      let! ls := listeners em (property_name eventType) in
      do! (match m with
           | Some m => log (NativeRemoveListeners m (length ls))
           | None => ret tt end);
      base_removeAllListeners em eventType
  end.

Section emit.
(** What client code does when it is called with a context and arguments. *)
Variable call : nat -> option nat -> list V -> JS S unit.

Definition invoke (l : listener) (context : option nat) (args : list V) : JS S unit :=
  match l with
  | User f => call f context args
  | OnceWrapper _ em f ctx => do! removeCurrentListener em; call f ctx args
  end.

(** One iteration of the loop of [emit]: the slot is read when it is reached. *)
Definition emit_at (em a : nat) (args : list V) (i : nat) : JS S unit :=
  let! l := get_array a in
  match l !! i with
  | Some (Some sid) =>
      let! sub := get_sub sid in
      do! set_current em (Some sid);
      invoke (sub_listener sub) (sub_context sub) args
  | _ => ret tt
  end.

(** The bound [l] of the loop is the length before the first call. *)
Definition emit (em : nat) (eventType : string) (args : list V) : JS S unit :=
  let! e := get_emitter em in
  let! o := getSubscriptionsForType (em_subscriber e) eventType in
  match o with
  | None => ret tt
  | Some a =>
      let! l := get_array a in
      do! for_each (seq 0 (length l)) (emit_at em a args);
      set_current em None
  end.
End emit.

Definition removeListener_at (a : nat) (lis : listener) (i : nat) : JS S unit :=
  let! l := get_array a in
  match l !! i with
  | Some (Some sid) =>
      let! sub := get_sub sid in
      if decide (sub_listener sub = lis) then remove sid else ret tt
  | _ => ret tt
  end.

Definition removeListener (em : nat) (eventType : string) (lis : listener) : JS S unit :=
  let! e := get_emitter em in
  let! o := getSubscriptionsForType (em_subscriber e) eventType in
  match o with
  | None => ret tt
  | Some a =>
      let! l := get_array a in
      for_each (seq 0 (length l)) (removeListener_at a lis)
  end.
End emitter.

(** ** The well-formedness invariant *)
Section wf.
Context {W V : Type}.
Abbreviation S := (st W).

(** What every slot of a registered array satisfies: the object it refers to
    knows its own place, so [delete a[key]] of that object empties that slot. *)
Record wf (s : S) : Prop := {
  wf_slot : forall v types ty a l k i,
    vendors s !! v = Some types -> types !! ty = Some a -> arrays s !! a = Some l ->
    l !! k = Some (Some i) ->
    exists sub, subs s !! i = Some sub /\ sub_eventType sub = Some ty /\
      sub_key sub = Some k /\ sub_subscriber sub = v;
  wf_array : forall v types ty a,
    vendors s !! v = Some types -> types !! ty = Some a -> is_Some (arrays s !! a);
  wf_unshared : forall v types ty v' types' ty' a,
    vendors s !! v = Some types -> types !! ty = Some a ->
    vendors s !! v' = Some types' -> types' !! ty' = Some a -> v = v' /\ ty = ty';
  wf_fresh : forall n, next s <= n ->
    vendors s !! n = None /\ arrays s !! n = None /\ subs s !! n = None /\
    emitters s !! n = None
}.

Lemma wf_registered_lt (s : S) v types ty a :
  wf s -> vendors s !! v = Some types -> types !! ty = Some a -> a < next s.
Proof.
  intros Hwf Hv Ha. destruct (wf_array s Hwf _ _ _ _ Hv Ha) as [l Hl].
  destruct (decide (a < next s)) as [|Hge]; [done|].
  destruct (wf_fresh s Hwf a) as (_ & Hn & _); [lia | congruence].
Qed.

(** Steps that leave vendors, arrays and subscriptions alone. *)
Lemma wf_ext (s s' : S) :
  vendors s' = vendors s -> arrays s' = arrays s -> subs s' = subs s ->
  next s <= next s' ->
  (forall n, next s' <= n -> emitters s !! n = None -> emitters s' !! n = None) ->
  wf s -> wf s'.
Proof.
  intros Hv Ha Hs Hn He [H1 H2 H3 H4]. split; rewrite ?Hv, ?Ha, ?Hs; [done..|].
  intros n Hlt. destruct (H4 n ltac:(lia)) as (?&?&?&?). auto 10.
Qed.

(** Shrinking a vendor's table (both branches of [removeAllSubscriptions]). *)
Lemma wf_shrink (s : S) v types types' :
  wf s -> vendors s !! v = Some types -> types' ⊆ types ->
  wf (set_vendors (<[v := types']> (vendors s)) s).
Proof.
  intros [H1 H2 H3 H4] Hv Hsub.
  assert (Hold : forall w t ty a, <[v := types']> (vendors s) !! w = Some t ->
            t !! ty = Some a -> exists t0, vendors s !! w = Some t0 /\ t0 !! ty = Some a).
  { intros w t ty a. rewrite lookup_insert. case_decide as E; intros; simplify_eq; [|eauto].
    exists types. split; [done|]. by eapply lookup_weaken. }
  split; simpl.
  - intros w t ty a l k i Hw Ha. destruct (Hold _ _ _ _ Hw Ha) as (t0 & ? & ?). eauto.
  - intros w t ty a Hw Ha. destruct (Hold _ _ _ _ Hw Ha) as (t0 & ? & ?). eauto.
  - intros w t ty w' t' ty' a Hw Ha Hw' Ha'.
    destruct (Hold _ _ _ _ Hw Ha) as (t0 & ? & ?).
    destruct (Hold _ _ _ _ Hw' Ha') as (t1 & ? & ?). eauto.
  - intros n Hn. destruct (H4 n Hn) as (Hv' & ? & ? & ?). repeat split; try done.
    rewrite lookup_insert. case_decide; [congruence | done].
Qed.

(** Emptying a slot. *)
Lemma wf_hole (s : S) a l k :
  wf s -> arrays s !! a = Some l ->
  wf (set_arrays (<[a := <[k := None]> l]> (arrays s)) s).
Proof.
  intros [H1 H2 H3 H4] Ha. split; simpl; [| |done|].
  - intros v types ty b l' k' i Hv Ht. rewrite lookup_insert.
    case_decide as E; intros; simplify_eq; [|eauto].
    eapply H1; [done..|]. by apply list_lookup_insert_Some in H0 as [(?&?&?)|[? ?]]; simplify_eq.
  - intros v types ty b Hv Ht. rewrite lookup_insert. case_decide; [done|eauto].
  - intros n Hn. destruct (H4 n Hn) as (? & Ha' & ? & ?). repeat split; try done.
    rewrite lookup_insert. case_decide; [congruence | done].
Qed.

(** Registering an empty array for a new event type. *)
Lemma wf_new_array (s : S) v types ty :
  wf s -> vendors s !! v = Some types -> types !! ty = None ->
  wf (set_vendors (<[v := <[ty := next s]> types]> (vendors s))
       (set_arrays (<[next s := []]> (arrays s)) (set_next (next s + 1) s))).
Proof.
  intros Hwf Hv Hty. pose proof Hwf as [H1 H2 H3 H4].
  assert (Hold : forall w t u a, <[v := <[ty := next s]> types]> (vendors s) !! w = Some t ->
            t !! u = Some a ->
            (w = v /\ u = ty /\ a = next s) \/
            (a <> next s /\ exists t0, vendors s !! w = Some t0 /\ t0 !! u = Some a)).
  { intros w t u a. rewrite lookup_insert. case_decide as E; intros Hw Hu; simplify_eq.
    - rewrite lookup_insert in Hu. case_decide; simplify_eq; [auto|]. right.
      split; [|eauto]. pose proof (wf_registered_lt _ _ _ _ _ Hwf Hv Hu). lia.
    - right. split; [|eauto]. pose proof (wf_registered_lt _ _ _ _ _ Hwf Hw Hu). lia. }
  split; simpl.
  - intros w t u a l k i Hw Ha. rewrite lookup_insert.
    destruct (Hold _ _ _ _ Hw Ha) as [(->&->&->)|(Hne&t0&?&?)].
    + rewrite decide_True by done. intros; simplify_eq.
    + rewrite decide_False by done. eauto.
  - intros w t u a Hw Ha. rewrite lookup_insert. case_decide; [done|].
    destruct (Hold _ _ _ _ Hw Ha) as [(->&->&->)|(Hne&t0&?&?)]; [done|eauto].
  - intros w t u w' t' u' a Hw Ha Hw' Ha'.
    destruct (Hold _ _ _ _ Hw Ha) as [(?&?&?)|(Hne&t0&?&?)];
      destruct (Hold _ _ _ _ Hw' Ha') as [(?&?&?)|(Hne'&t1&?&?)]; subst; try done; eauto.
  - intros n Hn. destruct (H4 n) as (? & ? & ? & ?); [lia|]. repeat split; try done;
      rewrite lookup_insert; case_decide; try done; [congruence | lia].
Qed.

(** Appending a subscription that is in no array. *)
Lemma wf_push (s : S) v types ty a l i sub :
  wf s -> vendors s !! v = Some types -> types !! ty = Some a -> arrays s !! a = Some l ->
  subs s !! i = Some sub -> sub_eventType sub = None -> sub_subscriber sub = v ->
  wf (set_subs (<[i := Build_subscription (sub_emitter sub) (sub_subscriber sub)
         (sub_listener sub) (sub_context sub) (Some ty) (Some (length l))]> (subs s))
       (set_arrays (<[a := l ++ [Some i]]> (arrays s)) s)).
Proof.
  intros Hwf Hv Ht Ha Hi Hnone Hs. pose proof Hwf as [H1 H2 H3 H4].
  assert (Hnew : forall w t u b m k j, vendors s !! w = Some t -> t !! u = Some b ->
            arrays s !! b = Some m -> m !! k = Some (Some j) -> j <> i).
  { intros w t u b m k j E1 E2 E3 E4 ->. destruct (H1 _ _ _ _ _ _ _ E1 E2 E3 E4) as (?&?&?&?).
    congruence. }
  split; simpl; [| |done|].
  - intros w t u b m k j Hw Hu. rewrite lookup_insert. case_decide as E.
    + destruct (H3 _ _ _ _ _ _ _ Hv Ht Hw ltac:(by rewrite E)) as [-> ->].
      intros [= <-] Hk. destruct (decide (k < length l)).
      * rewrite lookup_app_l in Hk by done. pose proof (Hnew _ _ _ _ _ _ _ Hv Ht Ha Hk).
        rewrite lookup_insert_ne by congruence.
        exact (H1 _ _ _ _ _ _ _ Hv Ht Ha Hk).
      * rewrite lookup_app_r in Hk by lia.
        apply list_lookup_singleton_Some in Hk as [Hk [= <-]].
        rewrite lookup_insert_eq. eexists. split; [done|]. simpl. repeat split; try done.
        f_equal. lia.
    + intros Hb Hk. pose proof (Hnew _ _ _ _ _ _ _ Hw Hu Hb Hk).
      rewrite lookup_insert_ne by congruence.
      exact (H1 _ _ _ _ _ _ _ Hw Hu Hb Hk).
  - intros w t u b Hw Hu. rewrite lookup_insert. case_decide; [done|eauto].
  - intros n Hn. destruct (H4 n Hn) as (? & ? & ? & ?). repeat split; try done;
      rewrite lookup_insert; case_decide; congruence.
Qed.

Lemma wf_new_sub (s : S) sub :
  wf s -> wf (set_subs (<[next s := sub]> (subs s)) (set_next (next s + 1) s)).
Proof.
  intros [H1 H2 H3 H4]. split; simpl; [|done..|].
  - intros v t ty a l k i Hv Ht Ha Hk. destruct (H1 _ _ _ _ _ _ _ Hv Ht Ha Hk) as (x&Hx&?&?&?).
    rewrite lookup_insert_ne; [eauto|]. intros <-. destruct (H4 (next s)) as (?&?&?&?); [lia|].
    congruence.
  - intros n Hn. destruct (H4 n) as (? & ? & ? & ?); [lia|]. repeat split; try done.
    rewrite lookup_insert_ne; [done|lia].
Qed.
End wf.

(** ** Every operation preserves the invariant *)
Section wf_operations.
Context {W V : Type}.
Abbreviation S := (st W).
Implicit Types s : S.

Lemma evolves_deref {A} (R : S -> S -> Prop) `{!PreOrder R} (o : option A) :
  evolves R (deref o).
Proof. destruct o; simpl; js_auto. Qed.
Lemma evolves_get_emitter (R : S -> S -> Prop) `{!PreOrder R} em : evolves R (get_emitter em).
Proof. unfold get_emitter. js_auto. apply evolves_deref, _. Qed.
Lemma evolves_get_vendor (R : S -> S -> Prop) `{!PreOrder R} v : evolves R (get_vendor v).
Proof. unfold get_vendor. js_auto. apply evolves_deref, _. Qed.
Lemma evolves_get_sub (R : S -> S -> Prop) `{!PreOrder R} i : evolves R (get_sub i).
Proof. unfold get_sub. js_auto. apply evolves_deref, _. Qed.
Lemma evolves_get_array (R : S -> S -> Prop) `{!PreOrder R} a : evolves R (get_array a).
Proof. unfold get_array. js_auto. apply evolves_deref, _. Qed.
#[local] Hint Resolve evolves_get_emitter evolves_get_vendor evolves_get_sub
  evolves_get_array : js.

(** Reading a reference: either it is allocated, or the code throws. *)
Lemma get_sub_spec {B} i (k : subscription -> JS S B) s :
  bind (get_sub i) k s =
  match subs s !! i with Some x => k x s | None => (Throw (JSError "TypeError"), s) end.
Proof. unfold get_sub, bind, gets, deref. by destruct (subs s !! i). Qed.
Lemma get_vendor_spec {B} i (k : gmap string nat -> JS S B) s :
  bind (get_vendor i) k s =
  match vendors s !! i with Some x => k x s | None => (Throw (JSError "TypeError"), s) end.
Proof. unfold get_vendor, bind, gets, deref. by destruct (vendors s !! i). Qed.
Lemma get_array_spec {B} i (k : list (option nat) -> JS S B) s :
  bind (get_array i) k s =
  match arrays s !! i with Some x => k x s | None => (Throw (JSError "TypeError"), s) end.
Proof. unfold get_array, bind, gets, deref. by destruct (arrays s !! i). Qed.
Lemma get_emitter_spec {B} i (k : emitter -> JS S B) s :
  bind (get_emitter i) k s =
  match emitters s !! i with Some x => k x s | None => (Throw (JSError "TypeError"), s) end.
Proof. unfold get_emitter, bind, gets, deref. by destruct (emitters s !! i). Qed.

Lemma wf_log e : preserves wf (log (W:=W) e).
Proof. apply evolves_modify. intros s Hwf. eapply wf_ext; [..|exact Hwf]; simpl; auto. Qed.
Lemma wf_set_current em c : preserves wf (set_current (W:=W) em c).
Proof.
  intros s Hwf. unfold final, set_current. rewrite get_emitter_spec.
  destruct (emitters s !! em) as [e|] eqn:E; simpl; [|done].
  eapply wf_ext; [..|exact Hwf]; simpl; try done.
  intros n Hn ?. rewrite lookup_insert. case_decide; [congruence|done].
Qed.
#[local] Hint Resolve wf_log wf_set_current : js.

Lemma wf_addSubscription v ty i s :
  wf s -> (exists sub, subs s !! i = Some sub /\ sub_eventType sub = None) ->
  wf (final (addSubscription (W:=W) v ty i) s).
Proof.
  intros Hwf (sub & Hi & Hnone). unfold final, addSubscription.
  rewrite get_sub_spec, Hi. unfold invariant. case_bool_decide as Hs; [|done].
  rewrite bind_ret, get_vendor_spec.
  destruct (vendors s !! v) as [types|] eqn:Hv; [|done].
  destruct (types !! ty) as [a|] eqn:Ht.
  - rewrite bind_ret, get_array_spec. destruct (arrays s !! a) as [l|] eqn:Ha; [|done].
    simpl. by eapply wf_push.
  - rewrite bind_assoc. unfold fresh. cbn. rewrite get_array_spec. cbn.
    rewrite lookup_insert_eq. cbn.
    pose proof (wf_new_array _ _ _ _ Hwf Hv Ht) as Hwf'.
    eapply (wf_push _ v _ ty (next s) [] i sub) in Hwf'; simpl;
      rewrite ?lookup_insert_eq; try done.
Qed.

Lemma wf_base_addListener em ty l ctx : preserves wf (base_addListener (W:=W) em ty l ctx).
Proof.
  intros s Hwf. unfold final, base_addListener. rewrite get_emitter_spec.
  destruct (emitters s !! em) as [e|]; [|done].
  unfold new_EmitterSubscription, fresh. cbn.
  apply wf_addSubscription; [by apply wf_new_sub|].
  eexists. simpl. by rewrite lookup_insert_eq.
Qed.
#[local] Hint Resolve wf_base_addListener : js.

Lemma wf_checkNative ty : preserves wf (checkNativeEventModule (W:=W) ty).
Proof. unfold checkNativeEventModule. js_auto. Qed.
#[local] Hint Resolve wf_checkNative : js.

Lemma wf_addListener dev em ty l ctx : preserves wf (addListener (W:=W) dev em ty l ctx).
Proof. unfold addListener. js_auto. Qed.
Lemma wf_fresh_op : preserves wf (fresh (W:=W)).
Proof.
  intros s Hwf. unfold final, fresh. cbn. eapply wf_ext; [..|exact Hwf]; simpl; try done. lia.
Qed.
#[local] Hint Resolve wf_addListener wf_fresh_op : js.
Lemma wf_once dev em ty f ctx : preserves wf (once (W:=W) dev em ty f ctx).
Proof. unfold once. js_auto. Qed.

Lemma wf_vendor_removeSubscription v i : preserves wf (vendor_removeSubscription (W:=W) v i).
Proof.
  unfold vendor_removeSubscription. js_step; [auto with js|].
  js_step; [auto with js|]. case_match; [|js_auto]. case_match; [|js_auto].
  intros s Hwf. unfold final. rewrite get_array_spec.
  destruct (arrays s !! n) eqn:E; [|done]. simpl. by apply wf_hole.
Qed.
#[local] Hint Resolve wf_vendor_removeSubscription : js.
Lemma wf_base_removeSubscription em i : preserves wf (base_removeSubscription (W:=W) em i).
Proof. unfold base_removeSubscription. js_auto. Qed.
#[local] Hint Resolve wf_base_removeSubscription : js.
Lemma wf_native_removeSubscription em m i :
  preserves wf (native_removeSubscription (W:=W) em m i).
Proof. unfold native_removeSubscription. js_auto. Qed.
#[local] Hint Resolve wf_native_removeSubscription : js.
Lemma wf_removeSubscription em i : preserves wf (removeSubscription (W:=W) em i).
Proof. unfold removeSubscription. js_auto. Qed.
#[local] Hint Resolve wf_removeSubscription : js.
Lemma wf_remove i : preserves wf (remove (W:=W) i).
Proof. unfold remove. js_auto. Qed.
Lemma wf_removeCurrentListener em : preserves wf (removeCurrentListener (W:=W) em).
Proof. unfold removeCurrentListener. js_auto. Qed.
#[local] Hint Resolve wf_remove wf_removeCurrentListener : js.

Lemma wf_removeAllSubscriptions v ty : preserves wf (removeAllSubscriptions (W:=W) v ty).
Proof.
  intros s Hwf. unfold final, removeAllSubscriptions. rewrite get_vendor_spec.
  destruct (vendors s !! v) as [types|] eqn:Hv; [|done].
  destruct ty; simpl; (eapply wf_shrink; [done..|]).
  - apply map_empty_subseteq.
  - apply delete_subseteq.
  - apply delete_subseteq.
Qed.
Lemma wf_listeners em ty : preserves wf (listeners (W:=W) em ty).
Proof. unfold listeners, getSubscriptionsForType. js_auto. Qed.
#[local] Hint Resolve wf_removeAllSubscriptions wf_listeners : js.
Lemma wf_removeAllListeners dev em ty : preserves wf (removeAllListeners (W:=W) dev em ty).
Proof. unfold removeAllListeners, base_removeAllListeners. js_auto. Qed.
Lemma wf_removeListener em ty l : preserves wf (removeListener (W:=W) em ty l).
Proof. unfold removeListener, removeListener_at, getSubscriptionsForType. js_auto. Qed.

Lemma wf_emit (call : nat -> option nat -> list V -> JS S unit) em ty args :
  (forall f ctx args, preserves wf (call f ctx args)) -> preserves wf (emit call em ty args).
Proof. intros Hc. unfold emit, emit_at, invoke, getSubscriptionsForType. js_auto. Qed.
End wf_operations.

(** ** Theorems *)
Section theorems.
Context {W V : Type}.
Abbreviation S := (st W).
Implicit Types s : S.

(** The subscriptions that the slots of an array refer to, in order. *)
Definition live_subs (s : S) (l : list (option nat)) : list subscription :=
  omap (fun o => o ≫= fun i => subs s !! i) l.

(** The state after [set_current em c]. *)
Definition with_current (em : nat) (e : emitter) (c : option nat) (s : S) : S :=
  set_emitters (<[em := Build_emitter (em_subscriber e) c (em_kind e)]> (emitters s)) s.

Lemma set_current_spec em c s e :
  emitters s !! em = Some e -> set_current em c s = (Ret tt, with_current em e c s).
Proof. intros H. unfold set_current. by rewrite get_emitter_spec, H. Qed.

(** The effect on [world] of calling a plain listener that behaves as [h]. *)
Definition listener_world (h : nat -> option nat -> list V -> W -> W) (args : list V)
    (w : W) (sub : subscription) : W :=
  match sub_listener sub with User f => h f (sub_context sub) args w | _ => w end.

(** The loop of [emit] over the slots [k, k + n) of the array. *)
Lemma emit_loop (call : nat -> option nat -> list V -> JS S unit) h em a args l s k n e :
  emitters s !! em = Some e -> arrays s !! a = Some l ->
  (forall i, Some i ∈ l -> exists sub f, subs s !! i = Some sub /\ sub_listener sub = User f) ->
  (forall f ctx args s, call f ctx args s = (Ret tt, set_world (h f ctx args (world s)) s)) ->
  exists c, for_each (seq k n) (emit_at call em a args) s =
    (Ret tt, set_world (foldl (listener_world h args) (world s)
                          (live_subs s (take n (drop k l)))) (with_current em e c s)).
Proof.
  intros He Ha Hsubs Hcall. revert s k e He Ha Hsubs.
  induction n as [|n IH]; intros s k e He Ha Hsubs; simpl.
  { exists (em_currentSubscription e). unfold with_current. destruct e, s; simpl in *.
    by rewrite insert_id. }
  unfold emit_at at 1. rewrite bind_assoc, get_array_spec, Ha.
  destruct (l !! k) as [o|] eqn:Hk.
  2: { rewrite bind_ret. destruct (IH s (Datatypes.S k) e He Ha Hsubs) as [c Hc].
       exists c. rewrite Hc. apply lookup_ge_None in Hk. by rewrite !drop_ge, !take_nil by lia. }
  rewrite (drop_S _ _ _ Hk). simpl. destruct o as [i|].
  2: { rewrite bind_ret. by apply IH. }
  destruct (Hsubs i) as (sub & f & Hi & Hf); [by eapply list_elem_of_lookup_2|].
  rewrite bind_assoc, get_sub_spec, Hi, bind_assoc.
  rewrite (bind_of _ _ _ _ _ (set_current_spec em (Some i) s e He)).
  rewrite Hf. simpl. rewrite (bind_of _ _ _ _ _ (Hcall _ _ _ _)).
  set (s1 := set_world _ _).
  destruct (IH s1 (Datatypes.S k) (Build_emitter (em_subscriber e) (Some i) (em_kind e)))
    as [c Hc]; [by apply lookup_insert_eq|done|done|].
  exists c. rewrite Hc. unfold live_subs. simpl. rewrite Hi. simpl. f_equal.
  unfold listener_world at 3. rewrite Hf.
  unfold s1, with_current, set_world, set_emitters; simpl. by rewrite insert_insert_eq.
Qed.


Lemma vendor_removeSubscription_spec v i s sub types ty a k l :
  subs s !! i = Some sub -> vendors s !! v = Some types ->
  sub_eventType sub = Some ty -> types !! ty = Some a -> sub_key sub = Some k ->
  arrays s !! a = Some l ->
  vendor_removeSubscription v i s =
    (Ret tt, set_arrays (<[a := <[k := None]> l]> (arrays s)) s).
Proof.
  intros Hi Hv Hty Ha Hk Hl. unfold vendor_removeSubscription.
  rewrite get_sub_spec, Hi, get_vendor_spec, Hv, Hty. simpl. rewrite Ha, Hk.
  by rewrite get_array_spec, Hl.
Qed.

Lemma base_removeSubscription_spec em i s sub e types ty a k l :
  subs s !! i = Some sub -> sub_emitter sub = em -> emitters s !! em = Some e ->
  vendors s !! em_subscriber e = Some types ->
  sub_eventType sub = Some ty -> types !! ty = Some a -> sub_key sub = Some k ->
  arrays s !! a = Some l ->
  base_removeSubscription em i s =
    (Ret tt, set_arrays (<[a := <[k := None]> l]> (arrays s)) s).
Proof.
  intros Hi Hem He Hv Hty Ha Hk Hl. unfold base_removeSubscription.
  rewrite get_sub_spec, Hi. rewrite bool_decide_true by done. simpl.
  rewrite bind_ret, get_emitter_spec, He. by eapply vendor_removeSubscription_spec.
Qed.

(** A [once] listener is taken out of its array before its function runs, on
    every class of emitter: whatever the function does (emit again included), the
    slot it was called from is already empty. *)
Theorem once_removed_before_call (call : nat -> option nat -> list V -> JS S unit)
    em id f ctx args s e types ty a l k i sub :
  wf s -> emitters s !! em = Some e -> em_currentSubscription e = Some i ->
  vendors s !! em_subscriber e = Some types -> types !! ty = Some a ->
  arrays s !! a = Some l -> l !! k = Some (Some i) ->
  subs s !! i = Some sub -> sub_emitter sub = em ->
  exists s', invoke call (OnceWrapper id em f ctx) (sub_context sub) args s =
               call f ctx args s' /\
    arrays s' = <[a := <[k := None]> l]> (arrays s) /\
    subs s' = subs s /\ vendors s' = vendors s /\ emitters s' = emitters s /\
    world s' = world s.
Proof.
  intros Hwf He Hc Hv Ht Ha Hk Hi Hem.
  destruct (wf_slot s Hwf _ _ _ _ _ _ _ Hv Ht Ha Hk) as (sub' & Hi' & Hty & Hkey & _).
  rewrite Hi in Hi'. injection Hi' as <-.
  unfold invoke, removeCurrentListener. rewrite bind_assoc, get_emitter_spec, He, Hc.
  unfold removeSubscription. rewrite bind_assoc, get_emitter_spec, He.
  destruct (em_kind e) as [| |m].
  - erewrite bind_of by (eapply base_removeSubscription_spec; eauto). by eexists.
  - rewrite bind_assoc, get_sub_spec, Hi, decide_True by done.
    erewrite bind_of by (eapply base_removeSubscription_spec; eauto). by eexists.
  - unfold native_removeSubscription, log. rewrite bind_assoc.
    destruct m; rewrite ?bind_modify, ?bind_ret;
      (erewrite bind_of by (eapply base_removeSubscription_spec; simpl; eauto)); by eexists.
Qed.

(** Every operation of the emitter API, with listeners that use it, keeps the
    store well formed: an object in a slot of a registered array records that very
    event type and index, so removing it empties its own slot. *)
Theorem emitter_operations_preserve_wf
    (call : nat -> option nat -> list V -> JS S unit) dev em ty ety f ctx lis i args :
  (forall f ctx args, preserves wf (call f ctx args)) ->
  preserves wf (addListener (W:=W) dev em ty lis ctx) /\
  preserves wf (once (W:=W) dev em ty f ctx) /\
  preserves wf (emit call em ty args) /\
  preserves wf (remove (W:=W) i) /\
  preserves wf (removeCurrentListener (W:=W) em) /\
  preserves wf (removeListener (W:=W) em ty lis) /\
  preserves wf (removeAllListeners (W:=W) dev em ety).
Proof.
  intros Hc. split_and!; auto using wf_addListener, wf_once, wf_emit, wf_remove,
    wf_removeCurrentListener, wf_removeListener, wf_removeAllListeners.
Qed.

(** Registering the first listener of an event type. *)
Lemma base_addListener_new em ty lis ctx s e types :
  emitters s !! em = Some e -> vendors s !! em_subscriber e = Some types ->
  types !! ty = None ->
  base_addListener em ty lis ctx s =
    (Ret (next s),
     Build_st W (emitters s)
       (<[em_subscriber e := <[ty := next s + 1]> types]> (vendors s))
       (<[next s + 1 := [Some (next s)]]> (arrays s))
       (<[next s := Build_subscription em (em_subscriber e) lis ctx (Some ty) (Some 0)]> (subs s))
       (next s + 1 + 1) (effects s) (world s)).
Proof.
  intros He Hv Ht. unfold base_addListener. rewrite get_emitter_spec, He.
  unfold new_EmitterSubscription, fresh. cbn. unfold addSubscription.
  rewrite get_sub_spec. cbn. rewrite lookup_insert_eq. cbn.
  rewrite bool_decide_true by done. cbn. rewrite get_vendor_spec. cbn.
  rewrite Hv, Ht, bind_assoc. unfold fresh. cbn. rewrite get_array_spec. cbn.
  rewrite lookup_insert_eq. cbn. by rewrite !insert_insert_eq.
Qed.

Lemma addListener_base dev em ty lis ctx s e :
  emitters s !! em = Some e -> em_kind e = KBase ->
  addListener dev em ty lis ctx s = base_addListener em ty lis ctx s.
Proof. intros He Hk. unfold addListener. by rewrite get_emitter_spec, He, Hk. Qed.

Lemma listeners_spec em ty s e types a l :
  emitters s !! em = Some e -> vendors s !! em_subscriber e = Some types ->
  types !! ty = Some a -> arrays s !! a = Some l ->
  listeners em ty s = (Ret (sub_listener <$> omap (fun i => subs s !! i) (omap id l)), s).
Proof.
  intros He Hv Ht Ha. unfold listeners, getSubscriptionsForType.
  rewrite get_emitter_spec, He, bind_assoc, get_vendor_spec, Hv, bind_ret, Ht.
  by rewrite get_array_spec, Ha.
Qed.

(** After [removeAllListeners(ty)], the [remove()] of a subscription taken
    before it silences whichever listener was registered afterwards at the same
    index: keys restart at 0 in the new array and [remove] only looks at the key. *)
Theorem stale_remove_silences_new_listener dev em ty f g s e types :
  emitters s !! em = Some e -> em_kind e = KBase ->
  vendors s !! em_subscriber e = Some types -> types !! ty = None ->
  outcome (let! old := addListener dev em ty (User f) None in
           do! removeAllListeners dev em (SStr ty);
           let! new := addListener dev em ty (User g) None in
           let! before := listeners em ty in
           do! remove old;
           let! after := listeners em ty in
           ret (before, after)) s
  = Ret ([User g], []).
Proof.
  intros He Hk Hv Ht. unfold outcome.
  erewrite bind_of by (erewrite addListener_base by done; by apply base_addListener_new).
  unfold removeAllListeners, base_removeAllListeners, removeAllSubscriptions.
  rewrite bind_assoc, get_emitter_spec. cbn [emitters]. rewrite He, Hk, bind_assoc.
  rewrite get_emitter_spec. cbn [emitters]. rewrite He, bind_assoc, get_vendor_spec.
  cbn [vendors]. rewrite lookup_insert_eq. cbn [property_name].
  rewrite bind_modify. unfold set_vendors. cbn [vendors emitters arrays subs next effects world].
  rewrite insert_insert_eq.
  erewrite bind_of.
  2: { erewrite addListener_base by done. apply base_addListener_new; cbn.
       - done. - by rewrite lookup_insert_eq. - by rewrite lookup_delete_eq. }
  cbn [vendors emitters arrays subs next effects world].
  erewrite bind_of.
  2: { eapply listeners_spec; cbn; [done|by rewrite lookup_insert_eq..|by rewrite lookup_insert_eq]. }
  cbn [vendors emitters arrays subs next effects world omap list_omap id].
  rewrite lookup_insert_eq. cbn.
  unfold remove. rewrite bind_assoc, get_sub_spec. cbn [subs].
  rewrite lookup_insert_ne, lookup_insert_eq by lia. cbn [sub_emitter].
  erewrite bind_of.
  2: { unfold removeSubscription. rewrite get_emitter_spec. cbn. rewrite He, Hk.
       eapply base_removeSubscription_spec; cbn.
       - rewrite lookup_insert_ne, lookup_insert_eq by lia. done.
       - done. - done. - by rewrite lookup_insert_eq. - done.
       - by rewrite lookup_insert_eq. - done. - by rewrite lookup_insert_eq. }
  erewrite bind_of.
  2: { eapply listeners_spec; cbn; [done|by rewrite lookup_insert_eq..|by rewrite lookup_insert_eq]. }
  done.
Qed.
End theorems.

(** ** Instances: a program with one emitter, one plain and one [once] listener *)
Section instances.
Definition empty_store : st (list Z) := Build_st _ ∅ ∅ ∅ ∅ 0 [] [].
Definition log_call (f : nat) (ctx : option nat) (args : list Z) : JS (st (list Z)) unit :=
  modify (fun s => set_world (world s ++ [Z.of_nat f]) s).
Definition demo_setup : JS (st (list Z)) unit :=
  let! em := new_EventEmitter KBase None in
  let! i := addListener true em "tick" (User 10) None in
  let! j := addListener true em "tick" (User 20) (Some 5) in
  let! k := addListener true em "tick" (User 30) None in
  remove j.
Definition demo : st (list Z) := final demo_setup empty_store.

Lemma wf_empty_store : wf empty_store.
Proof. split; simpl; intros; try (by rewrite lookup_empty in * ); by rewrite !lookup_empty. Qed.

Definition demo_once : JS (st (list Z)) unit :=
  let! em := new_EventEmitter KBase None in
  let! i := once true em "tick" 10 None in
  set_current em (Some i).
Definition demo2 : st (list Z) := final demo_once empty_store.

Lemma wf_new_EventEmitter {W} k s : wf s -> wf (final (new_EventEmitter (W:=W) k None) s).
Proof.
  intros [H1 H2 H3 H4]. unfold final, new_EventEmitter, new_EventSubscriptionVendor, fresh.
  cbn. assert (Hold : forall w t ty (a : nat), <[next s := ∅]> (vendors s) !! w = Some t ->
    t !! ty = Some a -> vendors s !! w = Some t).
  { intros w t ty a. rewrite lookup_insert. case_decide; [|done]. intros [= <-].
    by rewrite lookup_empty. }
  split; simpl; eauto 10.
  - intros n Hn. destruct (H4 n) as (?&?&?&?); [lia|].
    rewrite !lookup_insert_ne by lia. done.
Qed.

Lemma wf_demo2 : wf demo2.
Proof.
  assert (H : preserves wf demo_once); [|apply H, wf_empty_store].
  apply evolves_bind; [apply _|intros s Hs; by apply wf_new_EventEmitter|intros em].
  apply evolves_bind; [apply _|apply wf_once|intros i]. apply wf_set_current.
Qed.


Lemma once_removed_before_call_witness :
  exists s', invoke log_call (OnceWrapper 2 1 10 None) None [] demo2 =
               log_call 10 None [] s' /\
    arrays s' = <[4 := [None]]> (arrays demo2) /\ subs s' = subs demo2 /\
    vendors s' = vendors demo2 /\ emitters s' = emitters demo2 /\ world s' = world demo2.
Proof.
  apply (once_removed_before_call log_call 1 2 10 None [] demo2
    (Build_emitter 0 (Some 3) KBase) {["tick" := 4]} "tick" 4 [Some 3] 0 3
    (Build_subscription 1 0 (OnceWrapper 2 1 10 None) None (Some "tick") (Some 0)));
    try reflexivity. apply wf_demo2.
Defined.

Lemma emitter_operations_preserve_wf_witness :
  wf (final (emit log_call 1 "tick" [7%Z]) demo2).
Proof.
  apply (emitter_operations_preserve_wf log_call true 1 "tick" SUndefined 0 None (User 0) 0
    [7%Z]); [|apply wf_demo2].
  intros f ctx args. apply evolves_modify. intros s Hs. eapply wf_ext; [..|exact Hs]; simpl; auto.
Defined.

Lemma stale_remove_silences_new_listener_witness :
  outcome (let! old := addListener true 1 "tock" (User 1) None in
           do! removeAllListeners true 1 (SStr "tock");
           let! new := addListener true 1 "tock" (User 2) None in
           let! before := listeners 1 "tock" in
           do! remove old;
           let! after := listeners 1 "tock" in
           ret (before, after)) demo = Ret ([User 2], []).
Proof.
  apply (stale_remove_silences_new_listener true 1 "tock" 1 2 demo
    (Build_emitter 0 None KBase) {["tick" := 3]}); reflexivity.
Defined.
End instances.
