(* ===== verification/MessageQueue.v ===== *)
(** * MessageQueue

    Libraries/BatchedBridge/MessageQueue.js: the JavaScript end of the bridge.
    The fields of the class are the record [mq]; each method is a definition over
    it.  Client code (callbacks, callable modules, factories, the spy) and the
    native side (the global hooks, [ErrorUtils.reportFatalError]) are parameters
    that may change the whole state, so re-entrant calls are covered.  The value
    of [Date.now()] read by a method is its argument [now]; [dev] is [__DEV__].
    Calls of Systrace, [console.warn] and the async-flow hook go to [trace]. *)
From S2P Require Import Prelude.
From stdpp Require Import base numbers list strings gmap fin_maps pretty.

(** A JavaScript value as [isValidArgument] distinguishes them. *)
Inductive value :=
  | VUndefined
  | VNull
  | VBool (b : bool)
  | VNumber (n : option Z) (** [None] for NaN and the infinities *)
  | VString (v : string)
  | VFunction (f : nat)
  | VSymbol
  | VArray (l : list value)
  | VObject (props : list (string * value)).

(** [isValidArgument]: [typeof null] is ['object'], so null passes by having no
    enumerable key; a function is refused unless it is a property value. *)
Fixpoint isValidArgument (val : value) : bool :=
  match val with
  | VUndefined | VBool _ | VString _ => true
  | VNumber n => bool_decide (is_Some n)
  | VFunction _ | VSymbol => false
  | VNull => true
  | VArray l => forallb isValidArgument l
  | VObject props =>
      (fix go (ps : list (string * value)) : bool :=
         match ps with
         | [] => true
         | (_, v) :: ps' =>
             match v with
             | VFunction _ => go ps'
             | _ => if isValidArgument v then go ps' else false
             end
         end) props
  end.

Definition MIN_TIME_BETWEEN_FLUSHES_MS : Z := 5.
Definition DEBUG_INFO_LIMIT : Z := 32.

(** [_queue]: module ids, method ids, params, and the call id it started at. *)
Record native_queue := {
  q_modules : list Z;
  q_methods : list Z;
  q_params : list (list value);
  q_callID : Z
}.
Definition empty_queue (callID : Z) : native_queue := Build_native_queue [] [] [] callID.

(** The closure that [registerCallableModule] or [registerLazyCallableModule] puts
    in the table; for the lazy one, [getValue] and [module] are its variables. *)
Definition callable := gmap string nat.
Record lazy_closure := {
  lc_getValue : option nat;
  lc_module : option callable
}.

Inductive spy_fn := SpyConsole | SpyUser (f : nat).
Record spy_data := {
  spy_to_js : bool;
  spy_module : option string;
  spy_method : string;
  spy_args : list value
}.

Inductive trace_event :=
  | TBegin (name : string)
  | TEnd
  | TCounter (n : nat)
  | TAsyncFlow (callID : Z)
  | TWarnOnce (size : nat)
  | TConsole (d : spy_data).

Record mq (W : Type) := {
  lazyCallableModules : gmap string nat;
  closures : list lazy_closure;
  queue : native_queue;
  successCallbacks : gmap Z (option nat);
  failureCallbacks : gmap Z (option nat);
  callID : Z;
  lastFlush : Z;
  eventLoopStartTime : Z;
  immediatesCallback : option nat;
  debugInfo : gmap Z (Z * Z);
  remoteModuleTable : gmap Z string;
  remoteMethodTable : gmap Z (list string);
  spyFn : option spy_fn;
  trace : list trace_event;
  world : W
}.
Arguments lazyCallableModules {W}. Arguments closures {W}. Arguments queue {W}.
Arguments successCallbacks {W}. Arguments failureCallbacks {W}. Arguments callID {W}.
Arguments lastFlush {W}. Arguments eventLoopStartTime {W}. Arguments immediatesCallback {W}.
Arguments debugInfo {W}. Arguments remoteModuleTable {W}. Arguments remoteMethodTable {W}.
Arguments spyFn {W}. Arguments trace {W}. Arguments world {W}.

Section setters.
Context {W : Type}.
Implicit Types s : mq W.
Definition set_lazyCallableModules x s : mq W :=
  Build_mq W x (closures s) (queue s) (successCallbacks s) (failureCallbacks s) (callID s)
    (lastFlush s) (eventLoopStartTime s) (immediatesCallback s) (debugInfo s)
    (remoteModuleTable s) (remoteMethodTable s) (spyFn s) (trace s) (world s).
Definition set_closures x s : mq W :=
  Build_mq W (lazyCallableModules s) x (queue s) (successCallbacks s) (failureCallbacks s)
    (callID s) (lastFlush s) (eventLoopStartTime s) (immediatesCallback s) (debugInfo s)
    (remoteModuleTable s) (remoteMethodTable s) (spyFn s) (trace s) (world s).
Definition set_queue x s : mq W :=
  Build_mq W (lazyCallableModules s) (closures s) x (successCallbacks s) (failureCallbacks s)
    (callID s) (lastFlush s) (eventLoopStartTime s) (immediatesCallback s) (debugInfo s)
    (remoteModuleTable s) (remoteMethodTable s) (spyFn s) (trace s) (world s).
Definition set_callbacks sc fc s : mq W :=
  Build_mq W (lazyCallableModules s) (closures s) (queue s) sc fc
    (callID s) (lastFlush s) (eventLoopStartTime s) (immediatesCallback s) (debugInfo s)
    (remoteModuleTable s) (remoteMethodTable s) (spyFn s) (trace s) (world s).
Definition set_callID x s : mq W :=
  Build_mq W (lazyCallableModules s) (closures s) (queue s) (successCallbacks s)
    (failureCallbacks s) x (lastFlush s) (eventLoopStartTime s) (immediatesCallback s)
    (debugInfo s) (remoteModuleTable s) (remoteMethodTable s) (spyFn s) (trace s) (world s).
Definition set_lastFlush x s : mq W :=
  Build_mq W (lazyCallableModules s) (closures s) (queue s) (successCallbacks s)
    (failureCallbacks s) (callID s) x (eventLoopStartTime s) (immediatesCallback s)
    (debugInfo s) (remoteModuleTable s) (remoteMethodTable s) (spyFn s) (trace s) (world s).
Definition set_eventLoopStartTime x s : mq W :=
  Build_mq W (lazyCallableModules s) (closures s) (queue s) (successCallbacks s)
    (failureCallbacks s) (callID s) (lastFlush s) x (immediatesCallback s)
    (debugInfo s) (remoteModuleTable s) (remoteMethodTable s) (spyFn s) (trace s) (world s).
Definition set_immediatesCallback x s : mq W :=
  Build_mq W (lazyCallableModules s) (closures s) (queue s) (successCallbacks s)
    (failureCallbacks s) (callID s) (lastFlush s) (eventLoopStartTime s) x
    (debugInfo s) (remoteModuleTable s) (remoteMethodTable s) (spyFn s) (trace s) (world s).
Definition set_debugInfo x s : mq W :=
  Build_mq W (lazyCallableModules s) (closures s) (queue s) (successCallbacks s)
    (failureCallbacks s) (callID s) (lastFlush s) (eventLoopStartTime s)
    (immediatesCallback s) x (remoteModuleTable s) (remoteMethodTable s) (spyFn s) (trace s)
    (world s).
Definition set_remote mt mm s : mq W :=
  Build_mq W (lazyCallableModules s) (closures s) (queue s) (successCallbacks s)
    (failureCallbacks s) (callID s) (lastFlush s) (eventLoopStartTime s)
    (immediatesCallback s) (debugInfo s) mt mm (spyFn s) (trace s) (world s).
Definition set_spyFn x s : mq W :=
  Build_mq W (lazyCallableModules s) (closures s) (queue s) (successCallbacks s)
    (failureCallbacks s) (callID s) (lastFlush s) (eventLoopStartTime s)
    (immediatesCallback s) (debugInfo s) (remoteModuleTable s) (remoteMethodTable s) x
    (trace s) (world s).
Definition set_trace x s : mq W :=
  Build_mq W (lazyCallableModules s) (closures s) (queue s) (successCallbacks s)
    (failureCallbacks s) (callID s) (lastFlush s) (eventLoopStartTime s)
    (immediatesCallback s) (debugInfo s) (remoteModuleTable s) (remoteMethodTable s) (spyFn s)
    x (world s).
Definition set_world x s : mq W :=
  Build_mq W (lazyCallableModules s) (closures s) (queue s) (successCallbacks s)
    (failureCallbacks s) (callID s) (lastFlush s) (eventLoopStartTime s)
    (immediatesCallback s) (debugInfo s) (remoteModuleTable s) (remoteMethodTable s) (spyFn s)
    (trace s) x.
End setters.

(** What the queue does not define: the native side and client code. *)
Record environment (W : Type) := {
  call : nat -> list value -> JS (mq W) unit;
  call_factory : nat -> JS (mq W) (option callable);
  call_spy : nat -> spy_data -> JS (mq W) unit;
  nativeCallSyncHook : option (Z -> Z -> list value -> JS (mq W) value);
  nativeFlushQueueImmediate : option (native_queue -> JS (mq W) unit);
  nativeTraceBeginAsyncFlow : bool;
  reportFatalError : exn -> JS (mq W) unit;
  shouldPauseOnThrow : bool
}.
Arguments call {W}. Arguments call_factory {W}. Arguments call_spy {W}.
Arguments nativeCallSyncHook {W}. Arguments nativeFlushQueueImmediate {W}.
Arguments nativeTraceBeginAsyncFlow {W}. Arguments reportFatalError {W}.
Arguments shouldPauseOnThrow {W}.

Section message_queue.
Context {W : Type} (env : environment W) (dev : bool).
Abbreviation S := (mq W).

Definition log (e : trace_event) : JS S unit := modify (fun s => set_trace (trace s ++ [e]) s).

Definition new_MessageQueue (now : Z) (w : W) : S :=
  Build_mq W ∅ [] (empty_queue 0) ∅ ∅ 0 0 now None ∅ ∅ ∅ None [] w.

(** The static method [spy]: [None] for [false], which clears the hook. *)
Definition spy (spyOrToggle : option spy_fn) : JS S unit := modify (set_spyFn spyOrToggle).

Definition run_spy (d : spy_data) : JS S unit :=
  let! f := gets spyFn in
  match f with
  | None => ret tt
  | Some SpyConsole => log (TConsole d)
  | Some (SpyUser f) => call_spy env f d
  end.

Definition guard (fn : JS S unit) : JS S unit :=
  if shouldPauseOnThrow env then fn
  else try_catch fn (fun error => reportFatalError env error).

Definition callImmediates : JS S unit :=
  do! log (TBegin "JSTimers.callImmediates()");
  let! f := gets immediatesCallback in
  do! (match f with Some f => call env f [] | None => ret tt end);
  log TEnd.

Definition flushedQueue : JS S (option native_queue) :=
  do! guard callImmediates;
  let! q := gets queue in
  do! modify (fun s => set_queue (empty_queue (callID s)) s);
  ret (if Nat.eqb (length (q_modules q)) 0 then None else Some q).

Definition getEventLoopRunningTime (now : Z) : JS S Z :=
  gets (fun s => (now - eventLoopStartTime s)%Z).

Definition registerCallableModule (name : string) (module : callable) : JS S unit :=
  modify (fun s => set_lazyCallableModules
    (<[name := length (closures s)]> (lazyCallableModules s))
    (set_closures (closures s ++ [Build_lazy_closure None (Some module)]) s)).

Definition registerLazyCallableModule (name : string) (factory : nat) : JS S unit :=
  modify (fun s => set_lazyCallableModules
    (<[name := length (closures s)]> (lazyCallableModules s))
    (set_closures (closures s ++ [Build_lazy_closure (Some factory) None]) s)).

(** Calling the closure [c]: the factory runs, then its result is kept. *)
Definition call_closure (c : nat) : JS S (option callable) :=
  let! o := gets (fun s => closures s !! c) in
  match o with
  | None => throw (JSError "TypeError")
  | Some lc =>
      match lc_getValue lc with
      | Some factory =>
          let! module := call_factory env factory in
          do! modify (fun s => set_closures
                (<[c := Build_lazy_closure None module]> (closures s)) s);
          ret module
      | None => ret (lc_module lc)
      end
  end.

Definition getCallableModule (name : string) : JS S (option callable) :=
  let! o := gets (fun s => lazyCallableModules s !! name) in
  match o with Some c => call_closure c | None => ret None end.

(** [debug && this._remoteMethodTable[debug[0]][debug[1]]]: a missing table row is
    a TypeError. *)
Definition debug_method (debug : option (Z * Z)) : JS S (option string) :=
  match debug with
  | None => ret None
  | Some (moduleID, methodID) =>
      let! row := gets (fun s => remoteMethodTable s !! moduleID) in
      match row with
      | None => throw (JSError "TypeError")
      | Some methods => ret (if (methodID <? 0)%Z then None else methods !! Z.to_nat methodID)
      end
  end.

Definition report_excessive : JS S unit :=
  let! cbs := gets successCallbacks in
  if bool_decide (500 < size cbs) then
    do! for_each (map_to_list cbs).*1 (fun id =>
          let! debug := gets (fun s => debugInfo s !! id) in
          do! debug_method debug; ret tt);
    log (TWarnOnce (size cbs))
  else ret tt.

(** [processCallbacks]; the array [params] it pushes to is returned. *)
Definition processCallbacks (moduleID methodID : Z) (params : list value)
    (onFail onSucc : option nat) : JS S (list value) :=
  let! id := gets callID in
  let! params' :=
    (if bool_decide (is_Some onFail) || bool_decide (is_Some onSucc) then
       do! when dev (
         do! modify (fun s => set_debugInfo (<[id := (moduleID, methodID)]> (debugInfo s)) s);
         do! when (DEBUG_INFO_LIMIT <? id)%Z
               (modify (fun s => set_debugInfo (delete (id - DEBUG_INFO_LIMIT)%Z (debugInfo s)) s));
         report_excessive);
       let params1 := match onFail with
         | Some _ => params ++ [VNumber (Some (shl32 id 1))] | None => params end in
       let params2 := match onSucc with
         | Some _ => params1 ++ [VNumber (Some (or32 (shl32 id 1) 1))] | None => params1 end in
       do! modify (fun s => set_callbacks (<[id := onSucc]> (successCallbacks s))
                              (<[id := onFail]> (failureCallbacks s)) s);
       ret params2
     else ret params) in
  do! when (dev && nativeTraceBeginAsyncFlow env) (log (TAsyncFlow id));
  do! modify (fun s => set_callID (callID s + 1)%Z s);
  ret params'.

Definition callNativeSyncHook (moduleID methodID : Z) (params : list value)
    (onFail onSucc : option nat) : JS S value :=
  do! when dev (invariant (bool_decide (is_Some (nativeCallSyncHook env)))
    "Calling synchronous methods on native modules is not supported in Chrome.");
  let! params' := processCallbacks moduleID methodID params onFail onSucc in
  match nativeCallSyncHook env with
  | Some hook => hook moduleID methodID params'
  | None => throw (JSError "TypeError")
  end.

Definition push_ids (moduleID methodID : Z) (s : S) : S :=
  set_queue (Build_native_queue (q_modules (queue s) ++ [moduleID])
    (q_methods (queue s) ++ [methodID]) (q_params (queue s)) (q_callID (queue s))) s.
Definition push_params (params : list value) (s : S) : S :=
  set_queue (Build_native_queue (q_modules (queue s)) (q_methods (queue s))
    (q_params (queue s) ++ [params]) (q_callID (queue s))) s.

(** The immediate flush of [enqueueNativeCall]. *)
Definition flush_immediate (now : Z) : JS S unit :=
  match nativeFlushQueueImmediate env with
  | None => ret tt
  | Some hook =>
      let! last := gets lastFlush in
      if (MIN_TIME_BETWEEN_FLUSHES_MS <=? now - last)%Z then
        let! q := gets queue in
        do! modify (fun s => set_lastFlush now (set_queue (empty_queue (callID s)) s));
        hook q
      else ret tt
  end.

Definition spy_native_call (moduleID methodID : Z) (params : list value) : JS S unit :=
  let! f := gets spyFn in
  match f with
  | None => ret tt
  | Some _ =>
      if dev then
        let! module := gets (fun s => remoteModuleTable s !! moduleID) in
        let! method := debug_method (Some (moduleID, methodID)) in
        run_spy (Build_spy_data false module (default "undefined" method) params)
      else run_spy (Build_spy_data false (Some (pretty moduleID)) (pretty methodID) params)
  end.

Definition enqueueNativeCall (now : Z) (moduleID methodID : Z) (params : list value)
    (onFail onSucc : option nat) : JS S unit :=
  let! params' := processCallbacks moduleID methodID params onFail onSucc in
  do! modify (push_ids moduleID methodID);
  do! when dev (invariant (isValidArgument (VArray params'))
        "%s is not usable as a native method argument");
  do! modify (push_params params');
  do! flush_immediate now;
  let! n := gets (fun s => length (q_modules (queue s))) in
  do! log (TCounter n);
  spy_native_call moduleID methodID params'.

Definition createDebugLookup (moduleID : Z) (name : string) (methods : option (list string)) :
    JS S unit :=
  when dev (modify (fun s => set_remote (<[moduleID := name]> (remoteModuleTable s))
                               (<[moduleID := default [] methods]> (remoteMethodTable s)) s)).

Definition setImmediatesCallback (fn : nat) : JS S unit :=
  modify (set_immediatesCallback (Some fn)).

Definition callFunction (now : Z) (module method : string) (args : list value) : JS S unit :=
  do! modify (fun s => set_eventLoopStartTime now (set_lastFlush now s));
  do! log (TBegin (module +:+ "." +:+ method));
  do! run_spy (Build_spy_data true (Some module) method args);
  let! moduleMethods := getCallableModule module in
  match moduleMethods with
  | None => throw (InvariantViolation "Module %s is not a registered callable module (calling %s)")
  | Some moduleMethods =>
      match moduleMethods !! method with
      | None => throw (InvariantViolation "Method %s does not exist on module %s")
      | Some f => do! call env f args; log TEnd
      end
  end.

Definition callFunctionReturnFlushedQueue (now : Z) (module method : string)
    (args : list value) : JS S (option native_queue) :=
  do! guard (callFunction now module method args);
  flushedQueue.

(** The callback that [cbID] names: the low bit chooses the map. *)
Definition find_callback (cbID : Z) (s : S) : option nat :=
  if (and32 cbID 1 =? 0)%Z then mjoin (failureCallbacks s !! shru32 cbID 1)
  else mjoin (successCallbacks s !! shru32 cbID 1).

Definition invokeCallback (now : Z) (cbID : Z) (args : list value) : JS S unit :=
  do! modify (fun s => set_eventLoopStartTime now (set_lastFlush now s));
  let id := shru32 cbID 1 in
  let! callback := gets (find_callback cbID) in
  do! when dev (
    let! debug := gets (fun s => debugInfo s !! id) in
    let! module := gets (fun s => debug ≫= fun d => remoteModuleTable s !! d.1) in
    let! method := debug_method debug in
    do! invariant (bool_decide (is_Some callback)) "No callback found with cbID and callID";
    let profileName :=
      match debug with
      | Some _ => "<callback for " +:+ default "undefined" module +:+ "." +:+
                    default "undefined" method +:+ ">"
      | None => pretty cbID
      end in
    do! run_spy (Build_spy_data true None profileName args);
    log (TBegin ("MessageQueue.invokeCallback(" +:+ profileName)));
  match callback with
  | None => ret tt
  | Some f =>
      do! modify (fun s => set_callbacks (delete id (successCallbacks s))
                             (delete id (failureCallbacks s)) s);
      do! call env f args;
      when dev (log TEnd)
  end.

Definition invokeCallbackAndReturnFlushedQueue (now : Z) (cbID : Z) (args : list value) :
    JS S (option native_queue) :=
  do! guard (invokeCallback now cbID args);
  flushedQueue.
End message_queue.

(** ** Theorems *)
Section theorems.
Context {W : Type} (env : environment W) (dev : bool).
Abbreviation S := (mq W).
Implicit Types s : S.

(** The effect of a successful [processCallbacks] on the two maps. *)
Lemma processCallbacks_callbacks m k params onFail onSucc s params' s' :
  processCallbacks env dev m k params onFail onSucc s = (Ret params', s') ->
  let id := callID s in
  let used := bool_decide (is_Some onFail) || bool_decide (is_Some onSucc) in
  params' = params ++
    (match onFail with Some _ => [VNumber (Some (shl32 id 1))] | None => [] end) ++
    (match onSucc with Some _ => [VNumber (Some (or32 (shl32 id 1) 1))] | None => [] end) /\
  callID s' = (id + 1)%Z /\ queue s' = queue s /\
  successCallbacks s' = (if used then <[id := onSucc]> (successCallbacks s) else successCallbacks s) /\
  failureCallbacks s' = (if used then <[id := onFail]> (failureCallbacks s) else failureCallbacks s).
Proof.
  set (T := fun (x y : S) => successCallbacks y = successCallbacks x /\
    failureCallbacks y = failureCallbacks x /\ callID y = callID x /\ queue y = queue x).
  assert (PreOrder T) as HT.
  { split; unfold T; repeat intro; naive_solver congruence. }
  assert (Hrep : evolves T (report_excessive (W:=W))).
  { unfold report_excessive, debug_method, log. js_auto.
    apply evolves_modify. by intros x. }
  intros H id used. unfold processCallbacks in H. rewrite bind_gets in H. fold id used in H.
  assert (Htail : forall ps x, (do! when (dev && nativeTraceBeginAsyncFlow env) (log (TAsyncFlow id));
      do! modify (fun s => set_callID (callID s + 1)%Z s); ret ps) x = (Ret params', s') ->
      ps = params' /\ callID s' = (callID x + 1)%Z /\ queue s' = queue x /\
      successCallbacks s' = successCallbacks x /\ failureCallbacks s' = failureCallbacks x).
  { intros ps x. destruct (dev && _); cbn; by intros [= <- <-]. }
  destruct used eqn:Eu; fold used in Eu.
  - rewrite bind_assoc in H. destruct dev.
    + cbn [when] in H. rewrite bind_assoc, bind_modify in H.
      set (s1 := set_debugInfo _ s) in H. rewrite bind_assoc in H.
      unfold bind at 1 in H. set (mm := when (DEBUG_INFO_LIMIT <? id)%Z _) in H.
      assert (Hmm : exists s2, mm s1 = (Ret tt, s2) /\ T s s2).
      { unfold mm. destruct (DEBUG_INFO_LIMIT <? id)%Z; eexists; by split. }
      destruct Hmm as (s2 & E2 & HT2). rewrite E2 in H. clear mm E2.
      specialize (Hrep s2). unfold final in Hrep. unfold bind at 1 in H.
      destruct (report_excessive s2) as [[[]|e|] s3]; [|done..]. simpl in Hrep.
      assert (HT3 : T s s3) by (etransitivity; done). destruct HT3 as (A & B & C & D).
      rewrite bind_assoc, bind_modify, bind_ret in H. apply Htail in H as (<- & HC & HQ & HS & HF).
      cbn in HC, HQ, HS, HF. rewrite HC, HQ, HS, HF, A, B, C, D.
      split_and!; try done. destruct onFail, onSucc; by rewrite ?app_nil_r, <- ?app_assoc.
    + cbn [when] in H. rewrite bind_ret, bind_assoc, bind_modify, bind_ret in H.
      apply Htail in H as (<- & HC & HQ & HS & HF). cbn in HC, HQ, HS, HF.
      split_and!; try done. destruct onFail, onSucc; by rewrite ?app_nil_r, <- ?app_assoc.
  - rewrite bind_ret in H. apply Htail in H as (<- & ? & ? & ? & ?).
    split_and!; try done. unfold used in Eu. destruct onFail, onSucc; try done.
    by rewrite !app_nil_r.
Qed.

(** C3. The identifiers appended to the parameters of a native call name the
    callbacks of that very call: decoding them finds [onFail] and [onSucc]. *)
Theorem callback_ids_resolve m k params onFail onSucc s params' s' :
  (0 <= callID s < 2 ^ 31)%Z ->
  processCallbacks env dev m k params onFail onSucc s = (Ret params', s') ->
  exists fail_ids succ_ids : list Z,
    params' = params ++ (VNumber ∘ Some <$> fail_ids) ++ (VNumber ∘ Some <$> succ_ids) /\
    length fail_ids = (if onFail then 1 else 0) /\
    length succ_ids = (if onSucc then 1 else 0) /\
    (forall c, c ∈ fail_ids -> find_callback c s' = onFail) /\
    (forall c, c ∈ succ_ids -> find_callback c s' = onSucc).
Proof.
  intros Hid H. apply processCallbacks_callbacks in H as (Hp & _ & _ & HS & HF).
  exists (if onFail then [shl32 (callID s) 1] else []),
    (if onSucc then [or32 (shl32 (callID s) 1) 1] else []).
  destruct (tag0_decode _ Hid) as [E0 E0']. destruct (tag1_decode _ Hid) as [E1 E1'].
  split_and!.
  - rewrite Hp. by destruct onFail, onSucc.
  - by destruct onFail.
  - by destruct onSucc.
  - intros c Hc. destruct onFail as [f|]; [|by apply not_elem_of_nil in Hc].
    apply list_elem_of_singleton in Hc as ->. unfold find_callback. rewrite E0, E0', HF. cbn.
    by rewrite lookup_insert_eq.
  - intros c Hc. destruct onSucc as [f|]; [|by apply not_elem_of_nil in Hc].
    apply list_elem_of_singleton in Hc as ->. unfold find_callback. rewrite E1, E1', HS. cbn.
    rewrite orb_true_r. by rewrite lookup_insert_eq.
Qed.

(** The bookkeeping of [processCallbacks] in development never touches the maps, the
    queue or the world. *)
Definition same_books (x y : S) : Prop :=
  successCallbacks y = successCallbacks x /\ failureCallbacks y = failureCallbacks x /\
  callID y = callID x /\ queue y = queue x.
#[local] Instance same_books_preorder : PreOrder same_books.
Proof. split; unfold same_books; repeat intro; intuition congruence. Qed.

Lemma same_books_debug id m k : evolves same_books (
  do! modify (fun s : S => set_debugInfo (<[id := (m, k)]> (debugInfo s)) s);
  do! when (DEBUG_INFO_LIMIT <? id)%Z
        (modify (fun s => set_debugInfo (delete (id - DEBUG_INFO_LIMIT)%Z (debugInfo s)) s));
  report_excessive).
Proof.
  unfold report_excessive, debug_method, log. js_auto; apply evolves_modify; by intros ?.
Qed.

(** When [processCallbacks] throws, it has registered nothing. *)
Lemma processCallbacks_throws m k params onFail onSucc s r s' :
  processCallbacks env dev m k params onFail onSucc s = (r, s') ->
  (exists params', r = Ret params') \/ same_books s s'.
Proof.
  intros H. unfold processCallbacks in H. rewrite bind_gets in H.
  assert (Htail : forall ps x, (do! when (dev && nativeTraceBeginAsyncFlow env) (log (TAsyncFlow (callID s)));
      do! modify (fun s => set_callID (callID s + 1)%Z s); ret ps) x = (r, s') ->
      exists params', r = Ret params').
  { intros ps x. destruct (dev && _); cbn; intros [= <- <-]; by eexists. }
  destruct (bool_decide _ || _); [|rewrite bind_ret in H; left; by eapply Htail].
  rewrite bind_assoc in H. destruct dev; cbn [when] in H.
  - pose proof (same_books_debug (callID s) m k s) as Hb. unfold final in Hb. unfold bind at 1 in H.
    match type of H with context [match ?t with _ => _ end] => destruct t as [[a|e|] x] end; simpl in Hb.
    + rewrite bind_assoc, bind_modify, bind_ret in H. left. by eapply Htail.
    + injection H as <- <-. by right.
    + injection H as <- <-. by right.
  - rewrite bind_ret, bind_assoc, bind_modify, bind_ret in H. left. by eapply Htail.
Qed.

(** What no operation on the queue and the maps touches. *)
Definition same_clients (x y : S) : Prop :=
  world y = world x /\ immediatesCallback y = immediatesCallback x /\ closures y = closures x /\
  spyFn y = spyFn x.
#[local] Instance same_clients_preorder : PreOrder same_clients.
Proof. split; unfold same_clients; repeat intro; intuition congruence. Qed.

Lemma processCallbacks_clients m k params onFail onSucc :
  evolves same_clients (processCallbacks env dev m k params onFail onSucc).
Proof.
  unfold processCallbacks, report_excessive, debug_method, log.
  js_auto; apply evolves_modify; by intros.
Qed.

(** The state in which an invoked callback runs: both functions of its call are
    gone from the maps, and nothing else a client can see has changed. *)
Lemma invokeCallback_runs now cbID args s f :
  find_callback cbID s = Some f -> spyFn s = None ->
  (dev = true -> outcome (debug_method (W:=W) (debugInfo s !! shru32 cbID 1)) s <> Throw (JSError "TypeError")) ->
  exists s1, invokeCallback env dev now cbID args s =
      (do! call env f args; when dev (log TEnd)) s1 /\
    successCallbacks s1 = delete (shru32 cbID 1) (successCallbacks s) /\
    failureCallbacks s1 = delete (shru32 cbID 1) (failureCallbacks s) /\
    callID s1 = callID s /\ queue s1 = queue s /\ same_clients s s1.
Proof.
  intros Hf Hspy Hdebug. set (id := shru32 cbID 1).
  unfold invokeCallback. rewrite bind_modify. set (s0 := set_eventLoopStartTime _ _).
  rewrite bind_gets. assert (Hf0 : find_callback cbID s0 = Some f) by done.
  rewrite Hf0. fold id. destruct dev.
  - specialize (Hdebug eq_refl). cbn [when]. rewrite bind_assoc, bind_gets, bind_assoc, bind_gets, bind_assoc.
    change (debugInfo s0) with (debugInfo s). unfold bind at 1.
    assert (Hd : exists mth, debug_method (debugInfo s !! id) s0 = (Ret mth, s0)).
    { fold id in Hdebug. unfold outcome, debug_method in *.
      destruct (debugInfo s !! id) as [[mi me]|]; [|by eexists].
      unfold bind, gets, ret, throw in *. change (remoteMethodTable s0) with (remoteMethodTable s).
      destruct (remoteMethodTable s !! mi); [by eexists|]. by destruct Hdebug. }
    destruct Hd as [mth ->]. rewrite bool_decide_true by eauto. cbn [invariant].
    rewrite bind_assoc, bind_ret, bind_assoc. unfold run_spy. rewrite bind_assoc, bind_gets.
    change (spyFn s0) with (spyFn s). rewrite Hspy, bind_ret. unfold log at 1. rewrite bind_modify.
    rewrite bind_modify. eexists. by split_and!.
  - cbn [when]. rewrite bind_ret, bind_modify. eexists. by split_and!.
Qed.

(** C10. Invoking a callback consumes its pair: before the function runs, neither
    the success nor the failure identifier of that call resolves any more. *)
Theorem invokeCallback_consumes_pair now cbID args s f :
  find_callback cbID s = Some f -> spyFn s = None ->
  (dev = true -> outcome (debug_method (W:=W) (debugInfo s !! shru32 cbID 1)) s <> Throw (JSError "TypeError")) ->
  exists s1, invokeCallback env dev now cbID args s =
      (do! call env f args; when dev (log TEnd)) s1 /\
    find_callback cbID s1 = None /\
    (forall cb, shru32 cb 1 = shru32 cbID 1 -> find_callback cb s1 = None) /\
    (forall cb, shru32 cb 1 <> shru32 cbID 1 -> find_callback cb s1 = find_callback cb s).
Proof.
  intros Hf Hspy Hdebug.
  destruct (invokeCallback_runs now cbID args s f Hf Hspy Hdebug) as (s1 & E & Hs & Hfl & _).
  assert (Hnone : forall cb, shru32 cb 1 = shru32 cbID 1 -> find_callback cb s1 = None).
  { intros cb Hcb. unfold find_callback. rewrite Hs, Hfl, Hcb, !lookup_delete_eq. by case_match. }
  exists s1. split_and!; [done|by apply Hnone|done|].
  intros cb Hcb. unfold find_callback. by rewrite Hs, Hfl, !lookup_delete_ne by done.
Qed.

(** The three arrays of the queue have one entry per call. *)
Definition aligned (s : S) : Prop :=
  length (q_modules (queue s)) = length (q_params (queue s)) /\
  length (q_methods (queue s)) = length (q_params (queue s)).

Lemma forallb_valid_app l ids :
  isValidArgument (VArray (l ++ (VNumber ∘ Some <$> ids))) = isValidArgument (VArray l).
Proof.
  cbn. rewrite forallb_app. destruct (forallb isValidArgument l); [|done]. cbn.
  induction ids; [done|]. cbn. by rewrite IHids.
Qed.

(** Code that leaves the queue alone. *)
Definition same_queue (x y : S) : Prop := queue y = queue x.
#[local] Instance same_queue_preorder : PreOrder same_queue.
Proof. split; unfold same_queue; repeat intro; congruence. Qed.

Lemma same_queue_aligned {A} (m : JS S A) : evolves same_queue m -> preserves aligned m.
Proof. intros H s. unfold keeps, aligned. by rewrite (H s). Qed.

Lemma same_queue_modify f : (forall s, queue (f s) = queue s) -> evolves same_queue (modify f).
Proof. intros H. apply evolves_modify. exact H. Qed.

Lemma same_queue_processCallbacks m k ps onFail onSucc :
  evolves same_queue (processCallbacks env dev m k ps onFail onSucc).
Proof.
  unfold processCallbacks, report_excessive, debug_method, log.
  js_auto; try (apply same_queue_modify; by intros ?).
Qed.

(** Client code and native hooks that only use this interface keep the queue aligned. *)
Definition env_aligned : Prop :=
  (forall f args, preserves aligned (call env f args)) /\
  (forall f, preserves aligned (call_factory env f)) /\
  (forall f d, preserves aligned (call_spy env f d)) /\
  (forall hook q, nativeFlushQueueImmediate env = Some hook -> preserves aligned (hook q)) /\
  (forall e, preserves aligned (reportFatalError env e)).

Lemma aligned_modify (f : S -> S) : (forall s, queue (f s) = queue s) -> preserves aligned (modify f).
Proof. intros H. by apply same_queue_aligned, same_queue_modify. Qed.
Lemma aligned_log e : preserves aligned (log (W:=W) e).
Proof. by apply aligned_modify. Qed.
#[local] Hint Resolve aligned_log : js.
#[local] Hint Extern 5 (evolves _ (modify _)) => apply aligned_modify; reflexivity : js.

Section aligned.
Hypothesis Henv : env_aligned.

Lemma aligned_run_spy d : preserves aligned (run_spy env d).
Proof. destruct Henv as (_ & _ & H & _). unfold run_spy. js_auto. Qed.
#[local] Hint Resolve aligned_run_spy : js.

Lemma aligned_debug_method d : preserves aligned (debug_method (W:=W) d).
Proof. unfold debug_method. js_auto. Qed.
#[local] Hint Resolve aligned_debug_method : js.

Lemma aligned_flush_immediate now : preserves aligned (flush_immediate env now).
Proof.
  destruct Henv as (_ & _ & _ & H & _). unfold flush_immediate.
  destruct (nativeFlushQueueImmediate env) as [hook|] eqn:E; [|js_auto].
  js_auto; [|by apply H]. apply evolves_modify. by intros s _.
Qed.
#[local] Hint Resolve aligned_flush_immediate : js.

Lemma aligned_guard fn : preserves aligned fn -> preserves aligned (guard env fn).
Proof. intros Hfn. destruct Henv as (_ & _ & _ & _ & H). unfold guard. js_auto. Qed.

Lemma aligned_flushedQueue : preserves aligned (flushedQueue env).
Proof.
  unfold flushedQueue. js_step; [apply aligned_guard|].
  - destruct Henv as (H & _). unfold callImmediates. js_auto.
  - js_auto. apply evolves_modify. by intros s _.
Qed.
#[local] Hint Resolve aligned_flushedQueue : js.

Lemma aligned_callFunctionReturnFlushedQueue now module method args :
  preserves aligned (callFunctionReturnFlushedQueue env now module method args).
Proof.
  destruct Henv as (H1 & H2 & _). unfold callFunctionReturnFlushedQueue.
  js_step; [apply aligned_guard|js_auto].
  unfold callFunction, getCallableModule, call_closure. js_auto.
Qed.
Lemma aligned_invokeCallbackAndReturnFlushedQueue now cbID args :
  preserves aligned (invokeCallbackAndReturnFlushedQueue env dev now cbID args).
Proof.
  destruct Henv as (H1 & _). unfold invokeCallbackAndReturnFlushedQueue.
  js_step; [apply aligned_guard|js_auto].
  unfold invokeCallback. js_auto.
Qed.

(** [enqueueNativeCall] once its arguments are known to be valid. *)
Lemma enqueue_valid now m k ps onFail onSucc s :
  dev = false \/ isValidArgument (VArray ps) = true ->
  aligned s -> aligned (final (enqueueNativeCall env dev now m k ps onFail onSucc) s).
Proof.
  intros Hvalid Hal. unfold final, enqueueNativeCall.
  pose proof (same_queue_processCallbacks m k ps onFail onSucc s) as Hq. unfold final in Hq.
  unfold bind at 1.
  destruct (processCallbacks env dev m k ps onFail onSucc s) as [[ps'|e|] s1] eqn:E;
    unfold same_queue in Hq; cbn in Hq; [|unfold aligned in *; cbn; by rewrite Hq..].
  rewrite bind_modify.
  assert (Hok : when dev (invariant (isValidArgument (VArray ps'))
     "%s is not usable as a native method argument") (push_ids m k s1) = (Ret tt, push_ids m k s1)).
  { destruct Hvalid as [->|Hv]; [done|].
    apply processCallbacks_callbacks in E as (-> & _).
    replace (isValidArgument _) with (isValidArgument (VArray ps));
      [rewrite Hv; by destruct dev|].
    transitivity (isValidArgument (VArray (ps ++ (VNumber ∘ Some <$>
      ((if onFail then [shl32 (callID s) 1] else []) ++
       (if onSucc then [or32 (shl32 (callID s) 1) 1] else []))))));
      [by rewrite forallb_valid_app|]. by destruct onFail, onSucc. }
  rewrite (bind_of _ _ _ _ _ Hok), bind_modify.
  assert (Htail : preserves aligned (do! flush_immediate env now;
    let! n := gets (fun s => length (q_modules (queue s))) in
    do! log (TCounter n); spy_native_call env dev m k ps')).
  { unfold spy_native_call. js_auto. }
  apply Htail. unfold aligned in *. cbn. rewrite Hq, !length_app. cbn. lia.
Qed.
End aligned.

(** C22. Module ids, method ids and parameters stay in step: a native call whose
    arguments can cross the bridge (or any call in production) and every entry
    point of the queue keep the three arrays the same length, so entry [i] of each
    describes the same call. *)
Theorem queue_stays_aligned now m k ps onFail onSucc module method args cbID :
  env_aligned -> dev = false \/ isValidArgument (VArray ps) = true ->
  preserves aligned (enqueueNativeCall env dev now m k ps onFail onSucc) /\
  preserves aligned (callFunctionReturnFlushedQueue env now module method args) /\
  preserves aligned (invokeCallbackAndReturnFlushedQueue env dev now cbID args) /\
  preserves aligned (flushedQueue env).
Proof.
  intros Henv Hv. split_and!.
  - intros s Hs. by apply enqueue_valid.
  - by apply aligned_callFunctionReturnFlushedQueue.
  - by apply aligned_invokeCallbackAndReturnFlushedQueue.
  - by apply aligned_flushedQueue.
Qed.

Lemma processCallbacks_none m k ps s :
  processCallbacks env dev m k ps None None s =
    (Ret ps, set_callID (callID s + 1)%Z
       (if dev && nativeTraceBeginAsyncFlow env
        then set_trace (trace s ++ [TAsyncFlow (callID s)]) s else s)).
Proof. unfold processCallbacks. cbn. by destruct dev, (nativeTraceBeginAsyncFlow env). Qed.

(** A call without callbacks in development, when nothing is flushed or spied on. *)
Lemma enqueue_no_callbacks now m k ps s :
  nativeFlushQueueImmediate env = None -> spyFn s = None -> dev = true ->
  exists y, enqueueNativeCall env dev now m k ps None None s =
    (if isValidArgument (VArray ps) then Ret tt
     else Throw (InvariantViolation "%s is not usable as a native method argument"), y) /\
    spyFn y = None /\
    queue y = Build_native_queue (q_modules (queue s) ++ [m]) (q_methods (queue s) ++ [k])
      (if isValidArgument (VArray ps) then q_params (queue s) ++ [ps] else q_params (queue s))
      (q_callID (queue s)).
Proof.
  intros Hnofl Hspy Hdev. unfold enqueueNativeCall, flush_immediate, spy_native_call.
  rewrite (bind_of _ _ _ _ _ (processCallbacks_none m k ps s)), bind_modify, Hnofl.
  rewrite Hdev. destruct (isValidArgument (VArray ps)); cbn [when invariant].
  - rewrite bind_ret, bind_modify, bind_ret, bind_gets. unfold log. rewrite bind_modify, bind_gets.
    destruct (nativeTraceBeginAsyncFlow env); cbn; rewrite Hspy; eexists; by split.
  - rewrite bind_throw.
    destruct (nativeTraceBeginAsyncFlow env); eexists; by split.
Qed.

Lemma report_excessive_small s : size (successCallbacks s) <= 500 -> report_excessive s = (Ret tt, s).
Proof.
  intros H. unfold report_excessive. rewrite bind_gets, bool_decide_false by lia. done.
Qed.

Lemma processCallbacks_returns m k params onFail onSucc s :
  dev = false \/ size (successCallbacks s) <= 500 ->
  exists params' s', processCallbacks env dev m k params onFail onSucc s = (Ret params', s').
Proof.
  intros Hd. unfold processCallbacks. rewrite bind_gets.
  assert (Ht : forall (ps : list value) (x : S), exists params' s', (do! when (dev && nativeTraceBeginAsyncFlow env) (log (TAsyncFlow (callID s)));
      do! modify (fun s => set_callID (callID s + 1)%Z s); ret ps) x = (Ret params', s')).
  { intros ps x. destruct (dev && _); by eexists _, _. }
  destruct (_ || _); [|rewrite bind_ret; apply Ht].
  rewrite bind_assoc. destruct dev eqn:Ed; cbn [when].
  - destruct Hd as [|Hsz]; [done|]. rewrite bind_assoc, bind_modify, bind_assoc.
    set (s1 := set_debugInfo _ s). set (mm := when (DEBUG_INFO_LIMIT <? callID s)%Z _).
    assert (Hmm : exists s2, mm s1 = (Ret tt, s2) /\ successCallbacks s2 = successCallbacks s).
    { unfold mm. destruct (DEBUG_INFO_LIMIT <? callID s)%Z; eexists; by split. }
    destruct Hmm as (s2 & E & Hs). rewrite (bind_of _ _ _ _ _ E).
    rewrite (bind_of _ _ s2 tt s2) by (apply report_excessive_small; by rewrite Hs).
    rewrite bind_assoc, bind_modify, bind_ret. apply Ht.
  - rewrite bind_ret, bind_assoc, bind_modify, bind_ret. apply Ht.
Qed.

(** A call whose arguments can cross the bridge, when nothing is flushed or spied on. *)
Lemma enqueue_runs now m k ps onFail onSucc s :
  nativeFlushQueueImmediate env = None -> spyFn s = None ->
  dev = false \/ (isValidArgument (VArray ps) = true /\ size (successCallbacks s) <= 500) ->
  let id := callID s in
  let ids := (if onFail is Some _ then [shl32 id 1] else []) ++
             (if onSucc is Some _ then [or32 (shl32 id 1) 1] else []) in
  exists y ps', enqueueNativeCall env dev now m k ps onFail onSucc s = (Ret tt, y) /\
    queue y = Build_native_queue (q_modules (queue s) ++ [m]) (q_methods (queue s) ++ [k])
      (q_params (queue s) ++ [ps ++ (VNumber ∘ Some <$> ids)]) (q_callID (queue s)) /\
    outcome (processCallbacks env dev m k ps onFail onSucc) s = Ret ps' /\
    successCallbacks y = successCallbacks (final (processCallbacks env dev m k ps onFail onSucc) s) /\
    failureCallbacks y = failureCallbacks (final (processCallbacks env dev m k ps onFail onSucc) s) /\
    world y = world s.
Proof.
  intros Hnofl Hspy Hd id ids.
  destruct (processCallbacks_returns m k ps onFail onSucc s) as (ps' & s1 & E); [naive_solver|].
  pose proof (processCallbacks_clients m k ps onFail onSucc s) as (Hw & _ & _ & Hsp).
  unfold outcome, final in *. rewrite E in *. cbn in Hw, Hsp.
  destruct (processCallbacks_callbacks _ _ _ _ _ _ _ _ E) as (Hps & Hid & Hq & _).
  assert (Hps' : ps' = ps ++ (VNumber ∘ Some <$> ids)).
  { rewrite Hps. unfold ids, id. by destruct onFail, onSucc. }
  unfold enqueueNativeCall, flush_immediate, spy_native_call. rewrite (bind_of _ _ _ _ _ E), bind_modify, Hnofl.
  assert (Hv : when dev (invariant (isValidArgument (VArray ps'))
     "%s is not usable as a native method argument") (push_ids m k s1) = (Ret tt, push_ids m k s1)).
  { destruct Hd as [->|[Hv _]]; [done|]. rewrite Hps', forallb_valid_app, Hv. by destruct dev. }
  rewrite (bind_of _ _ _ _ _ Hv), bind_modify, bind_ret, bind_gets. unfold log. rewrite bind_modify, bind_gets.
  cbn. rewrite Hsp, Hspy. eexists _, _. split; [done|]. cbn. rewrite Hq, Hps'. by split_and!.
Qed.

(** In development the ids are pushed before the arguments are validated: a
    rejected call throws but stays in the id arrays, and the parameters of the next
    call are then paired with the ids of the rejected one. *)
Theorem rejected_call_misaligns now m1 k1 bad m2 k2 good s :
  isValidArgument (VArray bad) = false -> isValidArgument (VArray good) = true ->
  nativeFlushQueueImmediate env = None -> spyFn s = None ->
  dev = true -> queue s = empty_queue (q_callID (queue s)) ->
  outcome (enqueueNativeCall env dev now m1 k1 bad None None) s =
    Throw (InvariantViolation "%s is not usable as a native method argument") /\
  outcome (do! try_catch (enqueueNativeCall env dev now m1 k1 bad None None) (fun _ => ret tt);
           do! enqueueNativeCall env dev now m2 k2 good None None;
           gets queue) s =
    Ret (Build_native_queue [m1; m2] [k1; k2] [good] (q_callID (queue s))).
Proof.
  intros Hbad Hgood Hnofl Hspy Hdev Hq.
  destruct (enqueue_no_callbacks now m1 k1 bad s) as (y & Ey & Hsy & Hqy); [done..|].
  destruct (enqueue_no_callbacks now m2 k2 good y) as (z & Ez & _ & Hqz); [done..|].
  rewrite Hbad in Ey, Hqy. rewrite Hgood in Ez, Hqz. unfold outcome. rewrite Ey.
  split; [done|].
  rewrite (bind_of _ _ s tt y) by (unfold try_catch; by rewrite Ey).
  rewrite (bind_of _ _ _ _ _ Ez). cbn. by rewrite Hqz, Hqy, Hq.
Qed.

Lemma guard_returns fn : shouldPauseOnThrow env = false ->
  (forall e, returns (reportFatalError env e)) -> terminates fn -> returns (guard env fn).
Proof.
  intros Hp He Hf s. unfold guard, outcome. rewrite Hp. unfold try_catch.
  specialize (Hf s). unfold outcome in Hf. destruct (fn s) as [[a|e|] s'] eqn:E; cbn in *.
  - by eexists.
  - destruct (He e s') as [a Ha]. unfold outcome in Ha. eauto.
  - done.
Qed.

Lemma flushedQueue_spec (fn : JS S unit) s :
  shouldPauseOnThrow env = false -> (forall e, returns (reportFatalError env e)) ->
  (forall f args, terminates (call env f args)) -> terminates fn ->
  exists r s', (do! guard env fn; flushedQueue env) s = (Ret r, s') /\
    queue s' = empty_queue (callID s') /\ (forall q, r = Some q -> q_modules q <> []).
Proof.
  intros Hp He Hc Hfn.
  destruct (guard_returns fn Hp He Hfn s) as [[] H1]. unfold outcome in H1.
  destruct (guard env fn s) as [r1 s1] eqn:E1. cbn in H1. subst r1.
  rewrite (bind_of _ _ _ _ _ E1). unfold flushedQueue.
  assert (Hi : terminates (callImmediates env)).
  { unfold callImmediates, log. js_terminates. }
  destruct (guard_returns _ Hp He Hi s1) as [[] H2]. unfold outcome in H2.
  destruct (guard env _ s1) as [r2 s2] eqn:E2. cbn in H2. subst r2.
  rewrite (bind_of _ _ _ _ _ E2), bind_gets, bind_modify.
  eexists _, _. split; [done|]. split; [done|].
  intros q. destruct (Nat.eqb_spec (length (q_modules (queue s2))) 0) as [|Hne]; [done|].
  intros [= <-] H0. by rewrite H0 in Hne.
Qed.

End theorems.

(** ** Instances *)
Section instances.
Definition demo_env : environment (list Z) := {|
  call f args := modify (fun s => set_world (world s ++ [Z.of_nat f]) s);
  call_factory f := ret None;
  call_spy f d := ret tt;
  nativeCallSyncHook := None;
  nativeFlushQueueImmediate := None;
  nativeTraceBeginAsyncFlow := false;
  reportFatalError e := modify (fun s => set_world (world s ++ [(-1)%Z]) s);
  shouldPauseOnThrow := false
|}.
Definition demo : mq (list Z) := new_MessageQueue 100 [].
Definition demo_call : JS (mq (list Z)) (list value) :=
  processCallbacks demo_env false 3 4 [VNull] (Some 8) (Some 9).

Lemma demo_env_aligned : env_aligned demo_env.
Proof. split_and!; intros; try done; by apply aligned_modify. Qed.

Lemma callback_ids_resolve_witness :
  exists fail_ids succ_ids : list Z,
    [VNull; VNumber (Some 0%Z); VNumber (Some 1%Z)] =
      [VNull] ++ (VNumber ∘ Some <$> fail_ids) ++ (VNumber ∘ Some <$> succ_ids) /\
    length fail_ids = 1 /\ length succ_ids = 1 /\
    (forall c, c ∈ fail_ids -> find_callback c (final demo_call demo) = Some 8) /\
    (forall c, c ∈ succ_ids -> find_callback c (final demo_call demo) = Some 9).
Proof.
  apply (callback_ids_resolve demo_env false 3 4 [VNull] (Some 8) (Some 9) demo _
           (final demo_call demo)).
  - split; [done|reflexivity].
  - reflexivity.
Defined.

Lemma invokeCallback_consumes_pair_witness :
  exists s1, invokeCallback demo_env false 200 1 [] (final demo_call demo) =
      (do! call demo_env 9 []; when false (log TEnd)) s1 /\
    find_callback 1 s1 = None /\
    (forall cb, shru32 cb 1 = shru32 1 1 -> find_callback cb s1 = None) /\
    (forall cb, shru32 cb 1 <> shru32 1 1 ->
       find_callback cb s1 = find_callback cb (final demo_call demo)).
Proof.
  apply (invokeCallback_consumes_pair demo_env false 200 1 [] (final demo_call demo) 9).
  - reflexivity.
  - reflexivity.
  - intros H. discriminate H.
Defined.

Lemma queue_stays_aligned_witness :
  aligned (final (enqueueNativeCall demo_env true 7 3 4 [VNull] None None) demo).
Proof.
  apply (queue_stays_aligned demo_env true 7 3 4 [VNull] None None "" "" [] 0).
  - apply demo_env_aligned.
  - right. reflexivity.
  - split; reflexivity.
Defined.

Lemma rejected_call_misaligns_witness :
  outcome (do! try_catch (enqueueNativeCall demo_env true 7 1 2 [VFunction 0] None None)
                 (fun _ => ret tt);
           do! enqueueNativeCall demo_env true 7 3 4 [VBool true] None None;
           gets queue) demo =
    Ret (Build_native_queue [1%Z; 3%Z] [2%Z; 4%Z] [[VBool true]] 0).
Proof.
  apply (rejected_call_misaligns demo_env true 7 1 2 [VFunction 0] 3 4 [VBool true] demo);
    reflexivity.
Defined.

End instances.
