(* ===== verification/NativeModules.v ===== *)
(** * NativeModules

    Libraries/BatchedBridge/NativeModules.js over the message queue of
    [MessageQueue]: generating modules from their configuration, the wrappers that
    turn a method into a call of the queue (with a promise for the methods of type
    ['promise']), and the object of lazily loaded modules with the property helper
    of Libraries/Utilities/defineLazyObjectProperty.js.  The world of the queue is
    the record [nm]: the functions the queue can hold (client functions and the
    two closures a promise method passes), the promises, and the module object. *)
From S2P Require Import Prelude MessageQueue.
From stdpp Require Import base numbers list strings gmap pretty.

(** A function value: client code, or one of the two arrows of
    [promiseMethodWrapper] with the promise it settles. *)
Inductive closure :=
  | Client (g : nat)
  | ResolveOf (p : nat)
  | RejectOf (p : nat).

(** Why a promise is rejected: with the error of the enqueuing frame, which got the
    listed properties assigned, or with what its executor threw. *)
Inductive rejection :=
  | UpdatedError (assigned : list (string * value))
  | Thrown (e : exn).
Inductive promise :=
  | Pending
  | Resolved (v : value)
  | Rejected (r : rejection).

Inductive method_type := TAsync | TPromise | TSync.
#[export] Instance method_type_eq_dec : EqDecision method_type.
Proof. solve_decision. Defined.

(** A property of a generated module. *)
Inductive member :=
  | Method (moduleID methodID : Z) (type : method_type)
  | Constant (v : value)
  | GetConstants (constants : option (list (string * value))).
Abbreviation module := (list (string * member)).

(** [ModuleConfig]; the method ids of the last two arrays index [methods]. *)
Record config := {
  moduleName : string;
  constants : option (list (string * value));
  methods : option (list string);
  promiseMethods : option (list nat);
  syncMethods : option (list nat)
}.

(** A property of [NativeModules]: a plain value, or the accessor installed by
    [defineLazyObjectProperty] with its variable [valueSet] ([value] is still
    undefined as long as the accessor is in place). *)
Inductive property :=
  | Value (m : option module)
  | Accessor (moduleID : Z) (valueSet : bool).

Record nm (C : Type) := {
  fns : list closure;
  promises : list promise;
  nativeModules : list (string * property);
  warnings : list string;
  client : C
}.
Arguments fns {C}. Arguments promises {C}. Arguments nativeModules {C}.
Arguments warnings {C}. Arguments client {C}.

(** [Object.assign(error, errorData || {})]: the own enumerable properties of what
    the native side passes, in order. *)
Fixpoint indexed (i : nat) (l : list value) : list (string * value) :=
  match l with [] => [] | v :: l' => (pretty (Z.of_nat i), v) :: indexed (S i) l' end.
Fixpoint chars (s : string) : list value :=
  match s with EmptyString => [] | String c s' => VString (String c "") :: chars s' end.
Definition own_properties (v : value) : list (string * value) :=
  match v with
  | VObject props => props
  | VArray l => indexed 0 l
  | VString s => indexed 0 (chars s)
  | _ => []
  end.
Definition updateErrorWithErrorData (errorData : value) (error : list (string * value)) :
    list (string * value) :=
  foldl (fun o e => map_set e.1 e.2 o) error (own_properties errorData).

Definition arrayContains (a : list nat) (v : nat) : bool := bool_decide (is_Some (index_of v a)).

Section native_modules.
Context {C : Type} (e : environment (nm C)) (dev : bool).
Context (nativeRequireModuleConfig : option (string -> JS (mq (nm C)) (option config))).
Abbreviation S := (mq (nm C)).

Definition modify_nm (f : nm C -> nm C) : JS S unit := modify (fun s => set_world (f (world s)) s).
Definition set_fns x (w : nm C) : nm C :=
  Build_nm C x (promises w) (nativeModules w) (warnings w) (client w).
Definition set_promises x (w : nm C) : nm C :=
  Build_nm C (fns w) x (nativeModules w) (warnings w) (client w).
Definition set_nativeModules x (w : nm C) : nm C :=
  Build_nm C (fns w) (promises w) x (warnings w) (client w).
Definition set_warnings x (w : nm C) : nm C :=
  Build_nm C (fns w) (promises w) (nativeModules w) x (client w).

(** Allocating a function object. *)
Definition new_fn (c : closure) : JS S nat :=
  let! f := gets (fun s => length (fns (world s))) in
  do! modify_nm (fun w => set_fns (fns w ++ [c]) w);
  ret f.

(** [resolve] and [reject] of a promise: only the first call has an effect. *)
Definition settle (p : nat) (r : promise) : JS S unit :=
  modify_nm (fun w =>
    match promises w !! p with
    | Some Pending => set_promises (<[p := r]> (promises w)) w
    | _ => w
    end).

(** Calling a function value. *)
Definition call_fn (f : nat) (args : list value) : JS S unit :=
  let! c := gets (fun s => fns (world s) !! f) in
  match c with
  | Some (Client g) => call e g args
  | Some (ResolveOf p) => settle p (Resolved (default VUndefined (args !! 0)))
  | Some (RejectOf p) =>
      settle p (Rejected (UpdatedError
        (updateErrorWithErrorData (default VUndefined (args !! 0)) [])))
  | None => throw (JSError "TypeError")
  end.

(** The queue's environment: the function values are those of this file. *)
Definition nm_env : environment (nm C) := {|
  call := call_fn;
  call_factory := call_factory e;
  call_spy := call_spy e;
  nativeCallSyncHook := nativeCallSyncHook e;
  nativeFlushQueueImmediate := nativeFlushQueueImmediate e;
  nativeTraceBeginAsyncFlow := nativeTraceBeginAsyncFlow e;
  reportFatalError := reportFatalError e;
  shouldPauseOnThrow := shouldPauseOnThrow e
|}.

(** [promiseMethodWrapper]: the arrow that resolves takes the place of [onFail] and
    the one that rejects that of [onSucc]; an exception in the executor rejects the
    promise. *)
Definition promiseMethodWrapper (now moduleID methodID : Z) (args : list value) : JS S nat :=
  let! p := gets (fun s => length (promises (world s))) in
  do! modify_nm (fun w => set_promises (promises w ++ [Pending]) w);
  do! try_catch
    (let! onSucc := new_fn (ResolveOf p) in
     let! onFail := new_fn (RejectOf p) in
     enqueueNativeCall nm_env dev now moduleID methodID args (Some onSucc) (Some onFail))
    (fun err => settle p (Rejected (Thrown err)));
  ret p.

Definition as_function (v : option value) : option nat :=
  match v with Some (VFunction f) => Some f | _ => None end.

(** What a generated method returns. *)
Inductive returned := RPromise (p : nat) | RValue (v : value) | RUndefined.

Definition nonPromiseMethodWrapper (type : method_type) (now moduleID methodID : Z)
    (args : list value) : JS S returned :=
  let lastArg := last args in
  let secondLastArg := if 1 <? length args then args !! (length args - 2) else None in
  let onSuccess := as_function lastArg in
  let onFail := as_function secondLastArg in
  do! when (bool_decide (is_Some onFail))
    (invariant (bool_decide (is_Some onSuccess)) "Cannot have a non-function arg after a function arg.");
  let callbackCount := (if onSuccess is Some _ then 1 else 0) + (if onFail is Some _ then 1 else 0) in
  let args' := take (length args - callbackCount) args in
  if bool_decide (type = TSync) then
    let! v := callNativeSyncHook nm_env dev moduleID methodID args' onFail onSuccess in
    ret (RValue v)
  else
    do! enqueueNativeCall nm_env dev now moduleID methodID args' onFail onSuccess;
    ret RUndefined.

(** Calling the function [genMethod] returns. *)
Definition genMethod (moduleID methodID : Z) (type : method_type) (now : Z) (args : list value) :
    JS S returned :=
  if bool_decide (type = TPromise) then
    let! p := promiseMethodWrapper now moduleID methodID args in ret (RPromise p)
  else nonPromiseMethodWrapper type now moduleID methodID args.

(** The body of the [forEach] of [genModule], from the method at index [i] on. *)
Definition method_of (c : config) (moduleID : Z) (i : nat) : JS S member :=
  let isPromise := if promiseMethods c is Some l then arrayContains l i else false in
  let isSync := if syncMethods c is Some l then arrayContains l i else false in
  do! invariant (negb isPromise || negb isSync) "Cannot have a method that is both async and a sync hook";
  ret (Method moduleID (Z.of_nat i)
         (if isPromise then TPromise else if isSync then TSync else TAsync)).
Fixpoint gen_methods (c : config) (moduleID : Z) (i : nat) (names : list string) (o : module) :
    JS S module :=
  match names with
  | [] => ret o
  | name :: rest =>
      let! m := method_of c moduleID i in
      gen_methods c moduleID (Datatypes.S i) rest (map_set name m o)
  end.

Definition is_nullish (m : option member) : bool :=
  match m with None | Some (Constant VUndefined) | Some (Constant VNull) => true | _ => false end.

(** [genModule]: the module's name with its object, [None] inside when the content
    is to be loaded lazily. *)
Definition genModule (config : option config) (moduleID : Z) :
    JS S (option (string * option module)) :=
  match config with
  | None => ret None
  | Some c =>
      do! invariant (negb (String.prefix "RCT" (moduleName c)) && negb (String.prefix "RK" (moduleName c)))
        "Module name prefixes should've been stripped by the native side but wasn't for %s";
      match constants c, methods c with
      | None, None => ret (Some (moduleName c, None))
      | _, _ =>
          let! o := gen_methods c moduleID 0 (default [] (methods c)) [] in
          let o1 := foldl (fun o e => map_set e.1 (Constant e.2) o) o (default [] (constants c)) in
          let! o2 :=
            (if is_nullish (map_get "getConstants" o1)
             then ret (map_set "getConstants" (GetConstants (constants c)) o1)
             else do! modify_nm (fun w => set_warnings (warnings w ++ [moduleName c]) w); ret o1) in
          do! when dev (createDebugLookup dev moduleID (moduleName c) (methods c));
          ret (Some (moduleName c, Some o2))
      end
  end.

Definition loadModule (name : string) (moduleID : Z) : JS S (option module) :=
  match nativeRequireModuleConfig with
  | None => throw (InvariantViolation "Can't lazily create module without nativeRequireModuleConfig")
  | Some req =>
      let! config := req name in
      let! info := genModule config moduleID in
      ret (info ≫= snd)
  end.

(** Reading [NativeModules[name]]: the accessor marks itself as set, loads the
    module, and replaces itself by the value. *)
Definition get_property (name : string) : JS S (option module) :=
  let! o := gets (fun s => map_get name (nativeModules (world s))) in
  match o with
  | None => ret None
  | Some (Value m) => ret m
  | Some (Accessor moduleID true) => ret None
  | Some (Accessor moduleID false) =>
      do! modify_nm (fun w => set_nativeModules
            (map_set name (Accessor moduleID true) (nativeModules w)) w);
      let! m := loadModule name moduleID in
      do! modify_nm (fun w => set_nativeModules (map_set name (Value m) (nativeModules w)) w);
      ret m
  end.

(** The module-level code for a [__fbBatchedBridgeConfig] with the given
    [remoteModuleConfig]. *)
Fixpoint init_modules (l : list (option config)) (moduleID : Z) : JS S unit :=
  match l with
  | [] => ret tt
  | c :: rest =>
      let! info := genModule c moduleID in
      do! (match info with
           | None => ret tt
           | Some (name, Some m) =>
               modify_nm (fun w => set_nativeModules (map_set name (Value (Some m)) (nativeModules w)) w)
           | Some (name, None) =>
               modify_nm (fun w => set_nativeModules
                 (map_set name (Accessor moduleID false) (nativeModules w)) w)
           end);
      init_modules rest (moduleID + 1)
  end.
End native_modules.

(** ** Which promise a pair of callback ids settles *)
Section links.
Context {C : Type}.
Abbreviation S := (mq (nm C)).
Implicit Types s : S.

Definition fn_is s (f : nat) (c : closure) : Prop := fns (world s) !! f = Some c.
Definition client_fn s (o : option nat) : Prop := forall f, o = Some f -> exists g, fn_is s f (Client g).
Definition clients s (m : callable) : Prop := forall name f, m !! name = Some f -> client_fn s (Some f).

(** The callbacks registered for the call [id] are the two arrows of promise [p]. *)
Definition pair_of s (id : Z) (p : nat) : Prop :=
  exists f g, failureCallbacks s !! id = Some (Some f) /\ fn_is s f (ResolveOf p) /\
              successCallbacks s !! id = Some (Some g) /\ fn_is s g (RejectOf p).
Definition waiting s (p : nat) (id : Z) : Prop := pair_of s id p /\ promises (world s) !! p = Some Pending.

Record linked s : Prop := {
  lk_fail id o : failureCallbacks s !! id = Some o -> client_fn s o \/ exists p, pair_of s id p;
  lk_succ id o : successCallbacks s !! id = Some o -> client_fn s o \/ exists p, pair_of s id p;
  lk_unique id id' p : pair_of s id p -> pair_of s id' p -> id = id';
  lk_bound f p : fn_is s f (ResolveOf p) \/ fn_is s f (RejectOf p) -> p < length (promises (world s));
  lk_fresh id : is_Some (failureCallbacks s !! id) \/ is_Some (successCallbacks s !! id) ->
    (0 <= id < callID s)%Z;
  lk_callID : (0 <= callID s)%Z;
  lk_immediates : client_fn s (immediatesCallback s);
  lk_modules c lc m : closures s !! c = Some lc -> lc_module lc = Some m -> clients s m
}.

(** Nothing is unlinked, no function is lost, the promises of the calls in [keep]
    keep waiting for them, and settled promises stay as they are. *)
Definition moves (keep : Z -> Prop) s s' : Prop :=
  linked s -> linked s' /\ fns (world s) `prefix_of` fns (world s') /\
    (forall p id, keep id -> waiting s p id -> waiting s' p id) /\
    (forall p r, r <> Pending -> promises (world s) !! p = Some r -> promises (world s') !! p = Some r).

#[export] Instance moves_preorder keep : PreOrder (moves keep).
Proof.
  split.
  - intros s H. by split_and!.
  - intros x y z H1 H2 H. destruct (H1 H) as (Hy & Hp & Hw & Hs).
    destruct (H2 Hy) as (Hz & Hp' & Hw' & Hs'). split_and!; [done|by etrans|auto..].
Qed.

Lemma moves_intro keep s s' : (linked s -> moves keep s s') -> moves keep s s'.
Proof. intros H HL. by apply H. Qed.

Lemma moves_bind_at {A B} keep (m : JS S A) (k : A -> JS S B) s :
  moves keep s (final m s) ->
  (forall a s1, m s = (Ret a, s1) -> moves keep s s1 -> linked s1 -> moves keep s1 (final (k a) s1)) ->
  moves keep s (final (bind m k) s).
Proof.
  intros Hm Hk. apply moves_intro. intros HL. apply evolves_bind_at; [apply _|done|].
  intros a s1 E. unfold final in Hm. rewrite E in Hm. apply Hk; [done|done|by apply Hm].
Qed.

Lemma moves_weaken (keep keep' : Z -> Prop) s s' :
  (forall id, keep' id -> keep id) -> moves keep s s' -> moves keep' s s'.
Proof. intros H Hm Hl. destruct (Hm Hl) as (? & ? & ? & ?). split_and!; auto. Qed.

Lemma fn_is_prefix s s' f c : fns (world s) `prefix_of` fns (world s') -> fn_is s f c -> fn_is s' f c.
Proof. intros [k E] H. unfold fn_is in *. rewrite E. by apply lookup_app_l_Some. Qed.
Lemma client_fn_prefix s s' o : fns (world s) `prefix_of` fns (world s') -> client_fn s o -> client_fn s' o.
Proof. intros Hp H f Hf. destruct (H f Hf) as [g Hg]. exists g. by eapply fn_is_prefix. Qed.
Lemma clients_prefix s s' m : fns (world s) `prefix_of` fns (world s') -> clients s m -> clients s' m.
Proof. intros Hp H name f Hf. eapply client_fn_prefix; [done|]. by eapply H. Qed.

(** A state change outside of the links. *)
Lemma moves_frame keep s s' :
  failureCallbacks s' = failureCallbacks s -> successCallbacks s' = successCallbacks s ->
  callID s' = callID s -> immediatesCallback s' = immediatesCallback s -> closures s' = closures s ->
  fns (world s') = fns (world s) -> promises (world s') = promises (world s) -> moves keep s s'.
Proof.
  intros E1 E2 E3 E4 E5 E6 E7 [L1 L2 L3 L4 L5 L6 L7 L8].
  assert (Hp : forall id p, pair_of s' id p <-> pair_of s id p).
  { intros. unfold pair_of, fn_is. by rewrite E1, E2, E6. }
  assert (Hc : forall o, client_fn s' o <-> client_fn s o).
  { intros. unfold client_fn, fn_is. by rewrite E6. }
  split_and!.
  - split.
    + intros id o. rewrite E1, Hc. setoid_rewrite Hp. apply L1.
    + intros id o. rewrite E2, Hc. setoid_rewrite Hp. apply L2.
    + intros id id' p. rewrite !Hp. apply L3.
    + intros f p. unfold fn_is. rewrite E6, E7. apply L4.
    + intros id. rewrite E1, E2, E3. apply L5.
    + by rewrite E3.
    + by rewrite E4, Hc.
    + intros c lc m. rewrite E5. intros H1 H2 name f Hf. apply Hc. by eapply L8.
  - by rewrite E6.
  - intros p id _ [H1 H2]. split; [by apply Hp|by rewrite E7].
  - intros p r _. by rewrite E7.
Qed.

Lemma moves_modify keep (f : S -> S) :
  (forall s, failureCallbacks (f s) = failureCallbacks s /\ successCallbacks (f s) = successCallbacks s /\
    callID (f s) = callID s /\ immediatesCallback (f s) = immediatesCallback s /\
    closures (f s) = closures s /\ fns (world (f s)) = fns (world s) /\
    promises (world (f s)) = promises (world s)) ->
  evolves (moves keep) (modify f).
Proof. intros H. apply evolves_modify. intros s. destruct (H s) as (?&?&?&?&?&?&?). by apply moves_frame. Qed.

(** A state that only differs in the promises: each one is kept, settled by one that
    waits for no call in [keep], or new. *)
Lemma moves_promises keep s x :
  length (promises (world s)) <= length x ->
  (forall p id, keep id -> waiting s p id -> x !! p = Some Pending) ->
  (forall p r, r <> Pending -> promises (world s) !! p = Some r -> x !! p = Some r) ->
  moves keep s (set_world (set_promises x (world s)) s).
Proof.
  intros Hlen Hw Hs [L1 L2 L3 L4 L5 L6 L7 L8]. split_and!; [|done| |done].
  - split; try done. intros f p Hf. pose proof (L4 f p Hf). cbn. lia.
  - intros p id Hk Hwt. split; [apply Hwt|]. by eapply Hw.
Qed.

Lemma moves_settle keep p r s :
  r <> Pending -> (forall id, keep id -> ~ waiting s p id) -> moves keep s (final (settle p r) s).
Proof.
  intros Hr Hno. unfold settle, modify_nm, final, modify. cbn.
  destruct (promises (world s) !! p) as [[]|] eqn:E; try by apply moves_frame.
  apply moves_promises; [by rewrite length_insert|..].
  - intros q id Hk Hw. rewrite list_lookup_insert_ne; [apply Hw|]. intros <-. by eapply Hno.
  - intros q r' Hr' Hq. rewrite list_lookup_insert_ne; [done|]. intros <-. congruence.
Qed.

(** What [promiseMethodWrapper] allocates before it calls the queue. *)
Definition allocated s : S :=
  let p := length (promises (world s)) in
  set_world (set_fns (fns (world s) ++ [ResolveOf p; RejectOf p])
    (set_promises (promises (world s) ++ [Pending]) (world s))) s.

Lemma fn_is_allocated s f c : fn_is (allocated s) f c ->
  fn_is s f c \/ (f = length (fns (world s)) /\ c = ResolveOf (length (promises (world s)))) \/
  (f = Datatypes.S (length (fns (world s))) /\ c = RejectOf (length (promises (world s)))).
Proof.
  unfold fn_is. cbn. intros [H|[Hlen H]]%lookup_app_Some; [by left|right].
  destruct (f - length _) as [|[|k]] eqn:E; cbn in H; [left|right|by destruct k]; simplify_eq; split; [lia|done|lia|done].
Qed.
Lemma allocated_new_fns s :
  fn_is (allocated s) (length (fns (world s))) (ResolveOf (length (promises (world s)))) /\
  fn_is (allocated s) (Datatypes.S (length (fns (world s)))) (RejectOf (length (promises (world s)))).
Proof.
  unfold fn_is. cbn. rewrite !lookup_app_r by lia.
  split; [by rewrite Nat.sub_diag|by replace (_ - _) with 1 by lia].
Qed.

(** A function that is registered is not one of the new ones. *)
Lemma registered_fn s id o f : linked s ->
  failureCallbacks s !! id = Some o \/ successCallbacks s !! id = Some o -> o = Some f ->
  is_Some (fns (world s) !! f).
Proof.
  intros HL H ->.
  assert (Hc : client_fn s (Some f) \/ exists p, pair_of s id p).
  { destruct H; [by eapply lk_fail|by eapply lk_succ]. }
  destruct Hc as [Hc|(p & f' & g & E1 & H1 & E2 & H2)].
  - destruct (Hc f eq_refl) as [g Hg]. by eexists.
  - destruct H; simplify_eq; by eexists.
Qed.

Lemma pair_of_allocated s id p : linked s -> pair_of (allocated s) id p -> pair_of s id p.
Proof.
  intros HL (f & g & E1 & H1 & E2 & H2). change (failureCallbacks s !! id = Some (Some f)) in E1.
  change (successCallbacks s !! id = Some (Some g)) in E2.
  destruct (registered_fn s id (Some f) f) as [cf Hf]; [done|by left|done|].
  destruct (registered_fn s id (Some g) g) as [cg Hg]; [done|by right|done|].
  exists f, g. pose proof (lookup_lt_Some _ _ _ Hf). pose proof (lookup_lt_Some _ _ _ Hg).
  apply fn_is_allocated in H1 as [H1|[[]|[]]]; [|lia..].
  apply fn_is_allocated in H2 as [H2|[[]|[]]]; [|lia..]. done.
Qed.

Lemma moves_allocated keep s : moves keep s (allocated s).
Proof.
  intros HL. assert (Hpre : fns (world s) `prefix_of` fns (world (allocated s))) by (eexists; done).
  assert (Hpair : forall id p, pair_of s id p -> pair_of (allocated s) id p).
  { intros id p (f & g & ? & ? & ? & ?). exists f, g. split_and!; try done; by eapply fn_is_prefix. }
  destruct HL as [L1 L2 L3 L4 L5 L6 L7 L8] eqn:E. clear E. split_and!; [split|done|..].
  - intros id o Ho. destruct (L1 id o Ho) as [H|[p H]]; [left; by eapply client_fn_prefix|eauto].
  - intros id o Ho. destruct (L2 id o Ho) as [H|[p H]]; [left; by eapply client_fn_prefix|eauto].
  - intros id id' p H H'. by apply (L3 id id' p); apply pair_of_allocated.
  - intros f p Hf. cbn. rewrite length_app. cbn.
    destruct Hf as [Hf|Hf]; apply fn_is_allocated in Hf as [Hf|[[_ ?]|[_ ?]]]; simplify_eq; try lia;
      pose proof (L4 f p ltac:(auto)); lia.
  - exact L5.
  - exact L6.
  - by eapply client_fn_prefix.
  - intros c lc m Hc Hm. eapply clients_prefix; [done|]. by eapply L8.
  - intros p id _ [H1 H2]. split; [by apply Hpair|]. cbn. by apply lookup_app_l_Some.
  - intros p r _ H. cbn. by apply lookup_app_l_Some.
Qed.

(** The functions a call may register: client functions, or the two arrows of a
    promise that no registered call has. *)
Definition registrable s (onFail onSucc : option nat) : Prop :=
  (client_fn s onFail /\ client_fn s onSucc) \/
  exists p f g, onFail = Some f /\ onSucc = Some g /\ fn_is s f (ResolveOf p) /\ fn_is s g (RejectOf p) /\
    forall id, ~ pair_of s id p.

Definition register onFail onSucc s : S :=
  set_callID (callID s + 1)%Z
    (if bool_decide (is_Some onFail) || bool_decide (is_Some onSucc)
     then set_callbacks (<[callID s := onSucc]> (successCallbacks s)) (<[callID s := onFail]> (failureCallbacks s)) s
     else s).

Lemma pair_of_register onFail onSucc s id p : linked s -> registrable s onFail onSucc ->
  pair_of (register onFail onSucc s) id p ->
  pair_of s id p \/ (id = callID s /\ exists f g, onFail = Some f /\ onSucc = Some g /\
    fn_is s f (ResolveOf p) /\ fn_is s g (RejectOf p) /\ forall id', ~ pair_of s id' p).
Proof.
  intros HL HR (f & g & E1 & H1 & E2 & H2). unfold register in *.
  destruct (bool_decide (is_Some onFail) || bool_decide (is_Some onSucc)); cbn in E1, E2.
  - destruct (decide (callID s = id)) as [<-|Hne].
    + rewrite lookup_insert_eq in E1, E2. simplify_eq. right. split; [done|]. exists f, g.
      split_and!; try done. destruct HR as [[Hc _]|(q & f' & g' & ? & ? & Hf' & Hg' & Hn)].
      * destruct (Hc f eq_refl) as [h Hh]. unfold fn_is in *. cbn in H1. congruence.
      * simplify_eq. assert (q = p) as -> by (unfold fn_is in *; cbn in H1; congruence). done.
    + rewrite lookup_insert_ne in E1, E2 by done. left. by exists f, g.
  - left. by exists f, g.
Qed.

Lemma pair_of_register_old onFail onSucc s id p :
  linked s -> pair_of s id p -> pair_of (register onFail onSucc s) id p.
Proof.
  intros HL (f & g & E1 & H1 & E2 & H2).
  assert (id <> callID s) by (pose proof (lk_fresh s HL id ltac:(left; by eexists)); lia).
  exists f, g. unfold register. destruct (_ || _); cbn; [|done].
  by rewrite !lookup_insert_ne by done.
Qed.

Lemma register_entry onFail onSucc s id o : linked s -> registrable s onFail onSucc ->
  failureCallbacks (register onFail onSucc s) !! id = Some o \/
  successCallbacks (register onFail onSucc s) !! id = Some o ->
  client_fn s o \/ exists p, pair_of (register onFail onSucc s) id p.
Proof.
  intros HL HR Ho.
  assert (H : (bool_decide (is_Some onFail) || bool_decide (is_Some onSucc) = true /\
      id = callID s /\ (o = onFail \/ o = onSucc)) \/
    failureCallbacks s !! id = Some o \/ successCallbacks s !! id = Some o).
  { unfold register in Ho. destruct (_ || _); cbn in Ho; [|by right].
    destruct (decide (callID s = id)) as [<-|];
      [rewrite !lookup_insert_eq in Ho|rewrite !lookup_insert_ne in Ho by done]; naive_solver. }
  destruct H as [(Hu & -> & Hor)|H].
  - destruct HR as [[Hc1 Hc2]|(p & f & g & -> & -> & Hf & Hg & Hn)]; [left; by destruct Hor; subst|].
    right. exists p, f, g. unfold register, fn_is. rewrite Hu. cbn. by rewrite !lookup_insert_eq.
  - assert (Hc : client_fn s o \/ exists p, pair_of s id p) by (destruct H; [by eapply lk_fail|by eapply lk_succ]).
    destruct Hc as [Hc|[p Hp]]; [by left|right; exists p; by apply pair_of_register_old].
Qed.

Lemma register_rest onFail onSucc s :
  world (register onFail onSucc s) = world s /\
  immediatesCallback (register onFail onSucc s) = immediatesCallback s /\
  closures (register onFail onSucc s) = closures s /\
  callID (register onFail onSucc s) = (callID s + 1)%Z.
Proof. unfold register. by destruct (_ || _). Qed.

Lemma moves_register keep onFail onSucc s :
  registrable s onFail onSucc -> moves keep s (register onFail onSucc s).
Proof.
  intros HR HL. destruct (register_rest onFail onSucc s) as (Hw & Hi & Hcl & Hid).
  assert (Hold : forall o, client_fn s o -> client_fn (register onFail onSucc s) o).
  { intros o. apply client_fn_prefix. by rewrite Hw. }
  pose proof HL as [L1 L2 L3 L4 L5 L6 L7 L8]. split_and!; [split|by rewrite Hw|..].
  - intros id o Ho. edestruct register_entry; eauto.
  - intros id o Ho. edestruct register_entry; eauto.
  - intros id id' p H H'. apply (pair_of_register _ _ _ _ _ HL HR) in H, H'.
    destruct H as [H|(-> & f & g & _ & _ & _ & _ & Hn)], H' as [H'|(-> & f' & g' & _ & _ & _ & _ & Hn')];
      [by eapply L3| | |done]; exfalso; [by eapply Hn'|by eapply Hn].
  - intros f p. unfold fn_is. rewrite Hw. apply L4.
  - intros id H. rewrite Hid. destruct (decide (callID s = id)) as [<-|Hne]; [lia|].
    enough (0 <= id < callID s)%Z by lia. apply L5. unfold register in H.
    destruct (_ || _); cbn in H; [|done]. by rewrite !lookup_insert_ne in H by done.
  - rewrite Hid. lia.
  - rewrite Hi. by apply Hold.
  - intros c lc m. rewrite Hcl. intros Hc Hm. apply (clients_prefix s); [by rewrite Hw|]. by eapply L8.
  - intros p id _ [H1 H2]. split; [by apply pair_of_register_old|by rewrite Hw].
  - intros p r _ H. by rewrite Hw.
Qed.

(** A call whose callbacks are being invoked is taken out of the maps. *)
Definition unregister (id : Z) s : S :=
  set_callbacks (delete id (successCallbacks s)) (delete id (failureCallbacks s)) s.

Lemma pair_of_unregister id s id' p :
  pair_of (unregister id s) id' p <-> id' <> id /\ pair_of s id' p.
Proof.
  unfold pair_of, unregister, fn_is. cbn. setoid_rewrite lookup_delete_Some. split.
  - intros (f & g & [? ?] & ? & [? ?] & ?). split; [done|]. by exists f, g.
  - intros [Hne (f & g & ? & ? & ? & ?)]. exists f, g. by split_and!.
Qed.

Lemma moves_unregister id s : moves (fun i => i <> id) s (unregister id s).
Proof.
  intros [L1 L2 L3 L4 L5 L6 L7 L8]. split_and!; [split|done|..]; try done.
  - intros i o Ho. cbn in Ho. apply lookup_delete_Some in Ho as [Hne Ho]. destruct (L1 i o Ho) as [|[p Hp]]; [by left|right].
    exists p. apply pair_of_unregister. by split.
  - intros i o Ho. cbn in Ho. apply lookup_delete_Some in Ho as [Hne Ho]. destruct (L2 i o Ho) as [|[p Hp]]; [by left|right].
    exists p. apply pair_of_unregister. by split.
  - intros i i' p [_ H]%pair_of_unregister [_ H']%pair_of_unregister. by eapply L3.
  - intros i H. apply L5. destruct H as [[x Hx]|[x Hx]]; cbn in Hx;
      apply lookup_delete_Some in Hx as [_ Hx]; eauto.
  - intros p i Hne [H1 H2]. split; [by apply pair_of_unregister|done].
Qed.
End links.
#[export] Hint Resolve moves_preorder : js.
#[export] Hint Extern 5 (evolves (moves _) (modify _)) =>
  apply moves_modify; intros ?; split_and!; reflexivity : js.

(** ** Every operation keeps the links *)
Section operations.
Context {C : Type} (e : environment (nm C)) (dev : bool).
Context (nativeRequireModuleConfig : option (string -> JS (mq (nm C)) (option config))).
Abbreviation S := (mq (nm C)).
Implicit Types s : S.
Abbreviation always := (fun _ : Z => True).

(** Client code and native hooks use the queue through its interface: they do not
    settle promises that wait for a call, nor register foreign functions. *)
Record env_links : Prop := {
  el_call g args : evolves (moves always) (call e g args);
  el_factory g : evolves (moves always) (call_factory e g);
  el_factory_result g s m s' : linked s -> call_factory e g s = (Ret (Some m), s') -> clients s' m;
  el_spy g d : evolves (moves always) (call_spy e g d);
  el_sync hook m k args : nativeCallSyncHook e = Some hook -> evolves (moves always) (hook m k args);
  el_flush hook q : nativeFlushQueueImmediate e = Some hook -> evolves (moves always) (hook q);
  el_report err : evolves (moves always) (reportFatalError e err)
}.
Context (Henv : env_links).

Lemma processCallbacks_registers m k args onFail onSucc s r s' :
  processCallbacks (nm_env e) dev m k args onFail onSucc s = (r, s') ->
  (forall keep, moves keep s s') \/
  ((exists params', r = Ret params') /\ forall keep, moves keep (register onFail onSucc s) s').
Proof.
  intros H. pose proof (processCallbacks_clients (nm_env e) dev m k args onFail onSucc s) as Hc.
  unfold final in Hc. rewrite H in Hc. destruct Hc as (Hw & Hi & Hcl & _). cbn in Hw, Hi, Hcl.
  destruct (register_rest onFail onSucc s) as (Rw & Ri & Rcl & Rid).
  destruct (processCallbacks_throws _ _ _ _ _ _ _ _ _ _ H) as [[params' ->]|(Hs & Hf & Hid & _)].
  - right. split; [by eexists|]. intros keep.
    apply processCallbacks_callbacks in H as (_ & Hid & _ & Hs & Hf).
    apply moves_frame; try congruence.
    + rewrite Hf. unfold register. by destruct (_ || _).
    + rewrite Hs. unfold register. by destruct (_ || _).
  - left. intros keep. apply moves_frame; congruence.
Qed.

Lemma moves_spy g d : evolves (moves always) (call_spy (nm_env e) g d).
Proof. apply (el_spy Henv). Qed.
Lemma moves_report err : evolves (moves always) (reportFatalError (nm_env e) err).
Proof. apply (el_report Henv). Qed.
Lemma moves_factory g : evolves (moves always) (call_factory (nm_env e) g).
Proof. apply (el_factory Henv). Qed.
#[local] Hint Resolve moves_spy moves_report moves_factory : js.

Lemma moves_run_spy d : evolves (moves always) (run_spy (nm_env e) d).
Proof. unfold run_spy, log. js_auto. Qed.
Lemma moves_debug_method d : evolves (moves always) (debug_method (W:=nm C) d).
Proof. unfold debug_method. js_auto. Qed.
#[local] Hint Resolve moves_run_spy moves_debug_method : js.

Lemma moves_process m k args onFail onSucc s :
  registrable s onFail onSucc ->
  moves always s (final (processCallbacks (nm_env e) dev m k args onFail onSucc) s).
Proof.
  intros HR. unfold final. destruct (processCallbacks _ _ _ _ _ _ _ s) as [r s'] eqn:E; cbn.
  destruct (processCallbacks_registers _ _ _ _ _ _ _ _ E) as [H|[_ H]]; [apply H|].
  transitivity (register onFail onSucc s); [by apply moves_register|apply H].
Qed.

Lemma moves_enqueue now m k args onFail onSucc s :
  registrable s onFail onSucc ->
  moves always s (final (enqueueNativeCall (nm_env e) dev now m k args onFail onSucc) s).
Proof.
  intros HR. unfold enqueueNativeCall. apply evolves_bind_at; [apply _|..].
  - by apply moves_process.
  - intros params' s1 _. revert s1.
    match goal with |- forall s1, moves _ s1 (final ?M s1) => change (evolves (moves always) M) end.
    unfold flush_immediate, spy_native_call, log. js_auto. by eapply (el_flush Henv).
Qed.
#[local] Hint Resolve moves_enqueue : js.

(** Calling a function value that is a client function. *)
Lemma moves_call_client f args s :
  (linked s -> client_fn s (Some f)) -> moves always s (final (call_fn e f args) s).
Proof.
  intros Hc HL. destruct (Hc HL f eq_refl) as [g Hg]. revert HL.
  change (moves always s (final (call_fn e f args) s)).
  assert (E : call_fn e f args s = call e g args s).
  { unfold call_fn. rewrite bind_gets. unfold fn_is in Hg. by rewrite Hg. }
  unfold final. rewrite E. apply (el_call Henv).
Qed.

(** Settling a promise that did not exist at the start. *)
Lemma moves_settle_new p r s s' :
  r <> Pending -> length (promises (world s)) <= p -> moves always s s' ->
  moves always s (final (settle p r) s').
Proof.
  intros Hr Hp Hm HL. destruct (Hm HL) as (HL' & Hpre & Hw & Hs).
  assert (Hlt : forall q x, promises (world s) !! q = Some x -> q <> p).
  { intros q x ?%lookup_lt_Some ->. lia. }
  destruct (moves_settle (fun _ => False) p r s' Hr ltac:(done) HL') as (HL2 & Hpre2 & _ & Hs2).
  assert (Hq : forall q, q <> p -> promises (world (final (settle p r) s')) !! q = promises (world s') !! q).
  { intros q Hne. unfold settle, modify_nm, final, modify. cbn.
    destruct (promises (world s') !! p) as [[]|]; try done. cbn. by rewrite list_lookup_insert_ne. }
  split_and!; [done|by etrans| |].
  - intros q id _ Hwt. destruct (Hw q id I Hwt) as [H1 H2]. split.
    + destruct H1 as (f & g & Ef & Hf & Eg & Hg). exists f, g. unfold fn_is in *.
      revert Ef Hf Eg Hg. unfold settle, modify_nm, final, modify. cbn.
      by destruct (promises (world s') !! p) as [[]|].
    + rewrite Hq; [done|]. destruct Hwt as [_ Hx]. by eapply Hlt.
  - intros q x Hx Hqx. rewrite Hq; [by apply Hs|by eapply Hlt].
Qed.

Lemma promise_run now m k args s :
  let p := length (promises (world s)) in
  let f := length (fns (world s)) in
  promiseMethodWrapper e dev now m k args s =
  (do! try_catch (enqueueNativeCall (nm_env e) dev now m k args (Some f) (Some (Datatypes.S f)))
         (fun err => settle p (Rejected (Thrown err)));
   ret p) (allocated s).
Proof.
  intros p f. unfold promiseMethodWrapper. rewrite bind_gets. unfold modify_nm at 1. rewrite bind_modify.
  set (s1 := set_world _ s).
  assert (E : (let! onSucc := new_fn (ResolveOf p) in let! onFail := new_fn (RejectOf p) in
      enqueueNativeCall (nm_env e) dev now m k args (Some onSucc) (Some onFail)) s1 =
    enqueueNativeCall (nm_env e) dev now m k args (Some f) (Some (Datatypes.S f)) (allocated s)).
  { unfold new_fn, modify_nm. rewrite bind_assoc, bind_gets, bind_assoc, bind_modify, bind_ret.
    rewrite bind_assoc, bind_gets, bind_assoc, bind_modify, bind_ret. cbn.
    rewrite length_app, Nat.add_comm, <- app_assoc. done. }
  unfold bind at 1 4. unfold try_catch. fold p. cbv beta. rewrite E. done.
Qed.

Lemma registrable_allocated s : linked s ->
  registrable (allocated s) (Some (length (fns (world s)))) (Some (Datatypes.S (length (fns (world s))))).
Proof.
  intros HL. destruct (allocated_new_fns s) as [H1 H2]. right.
  eexists _, _, _. split_and!; [done..|]. intros id Hp.
  apply pair_of_allocated in Hp as (f & g & _ & Hf & _); [|done].
  pose proof (lk_bound s HL f _ (or_introl Hf)). lia.
Qed.

Lemma moves_promise now m k args : evolves (moves always) (promiseMethodWrapper e dev now m k args).
Proof.
  intros s. apply moves_intro. intros HL. unfold final. rewrite promise_run.
  pose proof (moves_enqueue now m k args _ _ _ (registrable_allocated s HL)) as Hm.
  assert (Ha : moves always s (allocated s)) by apply moves_allocated. revert Hm.
  unfold final, bind, try_catch.
  destruct (enqueueNativeCall _ _ _ _ _ _ _ _ (allocated s)) as [[[]|err|] s']; cbn; intros Hm.
  - by etrans.
  - change (moves always s (final (settle (length (promises (world s))) (Rejected (Thrown err))) s')).
    apply moves_settle_new; [done|lia|by etrans].
  - by etrans.
Qed.
#[local] Hint Resolve moves_promise : js.

(** The functions among the arguments of a method are client functions. *)
Definition client_args s (args : list value) : Prop := forall f, VFunction f ∈ args -> client_fn s (Some f).

Lemma client_as_function s args v : client_args s args -> (forall x, v = Some x -> x ∈ args) ->
  client_fn s (as_function v).
Proof.
  intros H Hv f Hf. destruct v as [[]|]; try done. injection Hf as ->.
  apply (H f); [|done]. by apply Hv.
Qed.

Lemma moves_genMethod now m k type args s :
  client_args s args -> moves always s (final (genMethod e dev m k type now args) s).
Proof.
  intros Ha. unfold genMethod. case_bool_decide; [apply evolves_bind; [apply _|js_auto..]|].
  unfold nonPromiseMethodWrapper. set (os := as_function (last args)).
  set (ofl := as_function (if 1 <? length args then args !! (length args - 2) else None)).
  assert (HR : registrable s ofl os).
  { left. split; apply (client_as_function s args); try done.
    - intros x. case_match; [|done]. apply list_elem_of_lookup_2.
    - intros x Hx. rewrite last_lookup in Hx. by eapply list_elem_of_lookup_2. }
  assert (Hw : final (when (bool_decide (is_Some ofl)) (invariant (bool_decide (is_Some os))
    "Cannot have a non-function arg after a function arg.")) s = s).
  { unfold when, invariant. by repeat case_bool_decide. }
  apply evolves_bind_at; [apply _|by rewrite Hw|]. intros [] s1 E.
  assert (s1 = s) as -> by (unfold final in Hw; rewrite E in Hw; done). clear E Hw.
  case_bool_decide.
  - apply evolves_bind_at; [apply _| |intros; by apply evolves_ret; apply _].
    unfold callNativeSyncHook. apply evolves_bind_at; [apply _| |].
    + apply evolves_when; [apply _|apply evolves_invariant; apply _].
    + intros [] s1 E. assert (s1 = s) as ->.
      { unfold when, invariant in E. by repeat case_match; simplify_eq/=; injection E. }
      apply evolves_bind_at; [apply _|by apply moves_process|].
      intros params' s1 _. case_match; [by eapply (el_sync Henv)|]. apply evolves_throw, _.
  - apply evolves_bind_at; [apply _|by apply moves_enqueue|]. intros. by apply evolves_ret; apply _.
Qed.

(** What the callback of an id is: a client function, or the arrow of its promise
    that the low bit chooses. *)
Lemma callback_kind s cbID f : linked s -> find_callback cbID s = Some f ->
  client_fn s (Some f) \/
  exists p, pair_of s (shru32 cbID 1) p /\
    fn_is s f (if (and32 cbID 1 =? 0)%Z then ResolveOf p else RejectOf p).
Proof.
  intros HL. unfold find_callback. destruct (and32 cbID 1 =? 0)%Z; intros H;
    apply bind_Some in H as (o & Ho & H); cbn in H; subst o.
  - destruct (lk_fail s HL _ _ Ho) as [|[p Hp]]; [by left|right]. exists p. split; [done|].
    destruct Hp as (f' & g & ? & ? & ? & ?). by simplify_eq.
  - destruct (lk_succ s HL _ _ Ho) as [|[p Hp]]; [by left|right]. exists p. split; [done|].
    destruct Hp as (f' & g & ? & ? & ? & ?). by simplify_eq.
Qed.

(** What an arrow does to its promise. *)
Definition settlement (resolves : bool) (args : list value) : promise :=
  let arg := default VUndefined (args !! 0) in
  if resolves then Resolved arg else Rejected (UpdatedError (updateErrorWithErrorData arg [])).

Lemma call_arrow (b : bool) f p args s :
  fn_is s f (if b then ResolveOf p else RejectOf p) ->
  call_fn e f args s = settle p (settlement b args) s.
Proof. intros H. unfold call_fn. rewrite bind_gets. unfold fn_is in H. rewrite H. by destruct b. Qed.

Lemma moves_call_callback cbID f args s s1 :
  linked s -> moves always s s1 -> find_callback cbID s = Some f ->
  moves (fun id => id <> shru32 cbID 1) s1 (final (call_fn e f args) (unregister (shru32 cbID 1) s1)).
Proof.
  intros HL Hm Hf. set (id := shru32 cbID 1). destruct (Hm HL) as (HL1 & Hpre & Hw & Hs).
  transitivity (unregister id s1); [apply moves_unregister|].
  destruct (callback_kind s cbID f HL Hf) as [Hc|(p & Hp & Hk)].
  - apply (moves_weaken always); [done|]. apply moves_call_client. intros _.
    by apply (client_fn_prefix s).
  - unfold final. rewrite (call_arrow (and32 cbID 1 =? 0)%Z f p); [|by eapply (fn_is_prefix s)].
    apply moves_settle; [by unfold settlement; destruct (_ =? _)%Z|].
    intros id' Hne [[_ Hp']%pair_of_unregister Hpend].
    assert (Hlt : p < length (promises (world s))).
    { apply (lk_bound s HL f). destruct (and32 cbID 1 =? 0)%Z; auto. }
    apply lookup_lt_is_Some in Hlt as [r Hr].
    assert (r = Pending \/ r <> Pending) as [->|Hnp] by (destruct r; auto).
    + destruct (Hw p id I) as [Hp1 _]; [by split|]. apply Hne. by eapply (lk_unique s1 HL1).
    + pose proof (Hs p r Hnp Hr) as Hr1. change (promises (world s1) !! p = Some Pending) in Hpend. congruence.
Qed.

Lemma moves_invokeCallback now cbID args :
  evolves (moves (fun id => id <> shru32 cbID 1)) (invokeCallback (nm_env e) dev now cbID args).
Proof.
  intros s. apply moves_intro. intros HL. unfold invokeCallback. unfold final at 1. rewrite bind_modify.
  set (s0 := set_eventLoopStartTime _ _).
  assert (Hm0 : moves always s s0) by by apply moves_frame.
  destruct (Hm0 HL) as (HL0 & _). transitivity s0; [by eapply moves_weaken, Hm0|].
  rewrite bind_gets. match goal with |- moves _ _ (?M s0).2 => change (moves (fun id => id <> shru32 cbID 1) s0 (final M s0)) end.
  set (M := when dev _). assert (HM : evolves (moves always) M).
  { unfold M, log. js_auto. }
  apply evolves_bind_at; [apply _|by eapply moves_weaken, HM|]. intros [] s1 E.
  assert (Hm1 : moves always s0 s1) by by eapply evolves_of. clear HM E M.
  destruct (find_callback cbID s0) as [f|] eqn:Ef; [|by apply evolves_ret, _].
  unfold final. rewrite bind_modify. fold (unregister (shru32 cbID 1) s1).
  pose proof (moves_call_callback cbID f args s0 s1 HL0 Hm1 Ef) as Hc. revert Hc.
  unfold final, bind. cbn [call nm_env].
  destruct (call_fn e f args (unregister (shru32 cbID 1) s1)) as [[[]|err|] s2]; cbn; intros Hc; try done.
  transitivity s2; [done|]. unfold when, log. destruct dev; [by apply moves_frame|by cbn].
Qed.

Lemma moves_guard keep fn : evolves (moves keep) fn -> evolves (moves keep) (MessageQueue.guard (nm_env e) fn).
Proof.
  intros Hfn. unfold MessageQueue.guard. js_auto. intros s. by eapply moves_weaken, moves_report.
Qed.

Lemma moves_callImmediates : evolves (moves always) (callImmediates (nm_env e)).
Proof.
  intros s. unfold callImmediates. apply moves_bind_at; [by apply moves_frame|]. intros [] s1 _ _ HL1.
  unfold final. rewrite bind_gets. change (moves always s1 (final ?M s1)) with (moves always s1 (final M s1)).
  match goal with |- moves _ _ (?M s1).2 => change (moves always s1 (final M s1)) end.
  apply moves_bind_at; [|intros; by apply moves_frame].
  destruct (immediatesCallback s1) as [f|] eqn:E; [|by apply evolves_ret, _].
  apply moves_call_client. intros _. rewrite <- E. by apply lk_immediates.
Qed.
#[local] Hint Resolve moves_callImmediates moves_guard : js.

Lemma moves_flushedQueue : evolves (moves always) (flushedQueue (nm_env e)).
Proof. unfold flushedQueue. js_auto. Qed.
#[local] Hint Resolve moves_flushedQueue : js.

(** A closure of a callable module gives client functions only. *)
Lemma moves_call_closure c s :
  linked s -> moves always s (final (call_closure (nm_env e) c) s) /\
  forall m, outcome (call_closure (nm_env e) c) s = Ret (Some m) -> clients (final (call_closure (nm_env e) c) s) m.
Proof.
  intros HL. unfold call_closure. unfold final, outcome. rewrite bind_gets.
  destruct (closures s !! c) as [lc|] eqn:Ec; [|done].
  destruct (lc_getValue lc) as [factory|].
  - unfold bind. cbn [call_factory nm_env]. pose proof (el_factory Henv factory s) as Hf. unfold final in Hf.
    pose proof (fun m => el_factory_result Henv factory s m) as Hr.
    destruct (call_factory e factory s) as [[o|err|] s1] eqn:E; cbn in *; [|done..].
    destruct (Hf HL) as (HL1 & _). set (s2 := set_closures _ s1).
    assert (Hm : moves always s1 s2).
    { intros _. split_and!; [|done..]. destruct HL1 as [L1 L2 L3 L4 L5 L6 L7 L8]. split; try done.
      intros c' lc' m Hc' Hlc. cbn in Hc'. destruct (decide (c = c')) as [<-|Hne].
      - apply list_lookup_insert_Some in Hc' as [(_ & <- & _)|[? _]]; [|done]. cbn in Hlc. subst o.
        exact (Hr m s1 HL eq_refl).
      - rewrite list_lookup_insert_ne in Hc' by done. by eapply L8. }
    split; [by etrans|]. intros m [= ->]. by apply (clients_prefix s1), (Hr m s1 HL).
  - cbn. split; [by intros|]. intros m [= Hm]. by eapply (lk_modules s HL).
Qed.

Lemma moves_callFunction now module method args :
  evolves (moves always) (callFunction (nm_env e) now module method args).
Proof.
  intros s. unfold callFunction. apply moves_bind_at; [by apply moves_frame|]. intros [] s1 _ _ _.
  apply moves_bind_at; [by apply moves_frame|]. intros [] s2 _ _ _.
  apply moves_bind_at; [apply moves_run_spy|]. intros [] s3 _ _ HL3.
  assert (Hg : moves always s3 (final (getCallableModule (nm_env e) module) s3) /\
    forall m, outcome (getCallableModule (nm_env e) module) s3 = Ret (Some m) ->
      clients (final (getCallableModule (nm_env e) module) s3) m).
  { unfold getCallableModule, final, outcome. rewrite bind_gets.
    destruct (lazyCallableModules s3 !! module) as [c|]; [by apply moves_call_closure|]. by split. }
  destruct Hg as [Hg1 Hg2]. apply moves_bind_at; [done|]. intros o s4 E _ _.
  unfold outcome, final in Hg2. rewrite E in Hg2. cbn in Hg2.
  destruct o as [m|]; [|by apply evolves_throw, _].
  destruct (m !! method) as [f|] eqn:Ef; [|by apply evolves_throw, _].
  apply moves_bind_at; [|intros; by apply moves_frame].
  apply moves_call_client. intros _. by eapply Hg2.
Qed.

(** C9. A promise settles only through its own ids: whatever method is called with
    client functions and whatever native calls or calls back, every promise that
    waits for another call keeps waiting, settled promises never change, and every
    registered callback stays the function of its call. *)
Theorem promises_settle_only_through_own_ids now m k type args module method cbID s :
  client_args s args ->
  moves always s (final (genMethod e dev m k type now args) s) /\
  moves always s (final (callFunctionReturnFlushedQueue (nm_env e) now module method args) s) /\
  moves always s (final (flushedQueue (nm_env e)) s) /\
  moves (fun id => id <> shru32 cbID 1) s
    (final (invokeCallbackAndReturnFlushedQueue (nm_env e) dev now cbID args) s).
Proof.
  intros Ha. split_and!.
  - by apply moves_genMethod.
  - revert s Ha. intros s _. revert s. unfold callFunctionReturnFlushedQueue. js_auto.
    apply moves_guard, moves_callFunction.
  - apply moves_flushedQueue.
  - revert s Ha. intros s _. revert s. unfold invokeCallbackAndReturnFlushedQueue. js_auto.
    + apply moves_guard, moves_invokeCallback.
    + intros s. eapply moves_weaken, moves_flushedQueue. done.
Qed.

(** Invoking an arrow of a waiting promise settles that promise and no other. *)
Lemma invoke_arrow now cbID data p s :
  waiting s p (shru32 cbID 1) -> spyFn s = None ->
  (dev = true -> outcome (debug_method (W:=nm C) (debugInfo s !! shru32 cbID 1)) s <> Throw (JSError "TypeError")) ->
  promises (world (final (invokeCallback (nm_env e) dev now cbID [data]) s)) =
    <[p := settlement (and32 cbID 1 =? 0)%Z [data]]> (promises (world s)).
Proof.
  intros [(f & g & Ef & Hf & Eg & Hg) Hp] Hspy Hdeb. set (b := (and32 cbID 1 =? 0)%Z).
  set (h := if b then f else g).
  assert (Hfind : find_callback cbID s = Some h).
  { unfold find_callback, h. fold b. destruct b; [by rewrite Ef|by rewrite Eg]. }
  assert (Hh : fn_is s h (if b then ResolveOf p else RejectOf p)) by (unfold h; by destruct b).
  destruct (invokeCallback_runs (nm_env e) dev now cbID [data] s h) as (s1 & E & _ & _ & _ & _ & Hw & _); [done..|].
  unfold final. rewrite E. cbn [call nm_env].
  assert (Hh1 : fn_is s1 h (if b then ResolveOf p else RejectOf p)) by (unfold fn_is; by rewrite Hw).
  unfold bind. rewrite (call_arrow b h p) by done.
  unfold settle, modify_nm, modify. cbn. rewrite Hw, Hp. by destruct dev.
Qed.

(** C7. The promise of a method call is fulfilled with the data native passes to the
    first of the two ids appended to the arguments, and rejected with the error data
    passed to the second: in every later state in which it still waits, invoking
    either id settles this promise, and no other. *)
Theorem promise_roundtrip now m k args s :
  linked s -> (callID s < 2 ^ 31)%Z -> spyFn s = None -> nativeFlushQueueImmediate e = None ->
  dev = false \/ (isValidArgument (VArray args) = true /\ size (successCallbacks s) <= 500) ->
  let p := length (promises (world s)) in
  let id := callID s in
  let resolveId := shl32 id 1 in
  let rejectId := or32 (shl32 id 1) 1 in
  exists s1, promiseMethodWrapper e dev now m k args s = (Ret p, s1) /\ linked s1 /\ waiting s1 p id /\
    queue s1 = Build_native_queue (q_modules (queue s) ++ [m]) (q_methods (queue s) ++ [k])
      (q_params (queue s) ++ [args ++ [VNumber (Some resolveId); VNumber (Some rejectId)]]) (q_callID (queue s)) /\
    forall s2 now' data, waiting s2 p id -> spyFn s2 = None ->
      (dev = true -> outcome (debug_method (W:=nm C) (debugInfo s2 !! id)) s2 <> Throw (JSError "TypeError")) ->
      promises (world (final (invokeCallback (nm_env e) dev now' resolveId [data]) s2)) =
        <[p := Resolved data]> (promises (world s2)) /\
      promises (world (final (invokeCallback (nm_env e) dev now' rejectId [data]) s2)) =
        <[p := Rejected (UpdatedError (updateErrorWithErrorData data []))]> (promises (world s2)).
Proof.
  intros HL Hlt Hspy Hnf Hd p id resolveId rejectId.
  assert (Hid : (0 <= id < 2 ^ 31)%Z) by (pose proof (lk_callID s HL); unfold id; lia).
  destruct (tag0_decode id Hid) as [E0 E0']. destruct (tag1_decode id Hid) as [E1 E1'].
  pose proof (promise_run now m k args s) as Hrun. cbv zeta in Hrun. fold p in Hrun.
  destruct (enqueue_runs (nm_env e) dev now m k args (Some (length (fns (world s))))
    (Some (Datatypes.S (length (fns (world s))))) (allocated s)) as (y & ps' & Ey & Hq & Hps & Hs & Hf & Hw);
    [done..|].
  rewrite (bind_of _ _ (allocated s) tt y) in Hrun by (unfold try_catch; by rewrite Ey).
  assert (HLy : linked y).
  { pose proof (moves_promise now m k args s HL) as [H _]. unfold final in H. by rewrite Hrun in H. }
  unfold outcome, final in Hps, Hs, Hf. destruct (processCallbacks _ _ _ _ _ _ _ (allocated s)) as [r z] eqn:Ez.
  cbn in Hps, Hs, Hf. subst r. apply processCallbacks_callbacks in Ez as (_ & _ & _ & Hzs & Hzf).
  exists y. split_and!; [done|done| |by rewrite Hq|].
  - split.
    + exists (length (fns (world s))), (Datatypes.S (length (fns (world s)))).
      destruct (allocated_new_fns s) as [H1 H2]. unfold fn_is in *. rewrite Hw, Hs, Hf, Hzs, Hzf. cbn.
      split_and!; [by rewrite lookup_insert_eq|exact H1|by rewrite lookup_insert_eq|exact H2].
    + rewrite Hw. cbn. rewrite lookup_app_r by (unfold p; lia). by replace (p - _) with 0 by (unfold p; lia).
  - intros s2 now' data Hwt Hspy2 Hdeb. split.
    + rewrite (invoke_arrow now' resolveId data p s2); unfold resolveId; rewrite ?E0, ?E0'; done.
    + rewrite (invoke_arrow now' rejectId data p s2); unfold rejectId; rewrite ?E1, ?E1'; done.
Qed.
End operations.

(** ** Generated modules *)
Section modules.
Context {C : Type} (dev : bool).
Context (nativeRequireModuleConfig : option (string -> JS (mq (nm C)) (option config))).
Abbreviation S := (mq (nm C)).
Implicit Types s : S.

Definition type_at (c : config) (i : nat) : method_type :=
  if (if promiseMethods c is Some l then arrayContains l i else false) then TPromise
  else if (if syncMethods c is Some l then arrayContains l i else false) then TSync else TAsync.
(** No method is both a promise method and a sync hook. *)
Definition types_ok (c : config) : Prop :=
  forall i, i < length (default [] (methods c)) ->
    (if promiseMethods c is Some l then arrayContains l i else false) = false \/
    (if syncMethods c is Some l then arrayContains l i else false) = false.

Lemma method_of_ok c moduleID i s : types_ok c -> i < length (default [] (methods c)) ->
  method_of c moduleID i s = (Ret (Method moduleID (Z.of_nat i) (type_at c i)), s).
Proof.
  intros Hok Hi. unfold method_of, type_at. destruct (Hok i Hi) as [->| ->]; [done|].
  by destruct (if promiseMethods c is Some l then arrayContains l i else false).
Qed.

Fixpoint entries (c : config) (moduleID : Z) (i : nat) (names : list string) : module :=
  match names with
  | [] => []
  | name :: rest => (name, Method moduleID (Z.of_nat i) (type_at c i)) :: entries c moduleID (Datatypes.S i) rest
  end.
Lemma gen_methods_ok c moduleID names i o s :
  types_ok c -> i + length names = length (default [] (methods c)) ->
  gen_methods c moduleID i names o s =
    (Ret (foldl (fun o e => map_set e.1 e.2 o) o (entries c moduleID i names)), s).
Proof.
  intros Hok. revert i o. induction names as [|name names IH]; intros i o Hlen; [done|]. cbn in *.
  rewrite (bind_of _ _ _ _ _ (method_of_ok c moduleID i s Hok ltac:(lia))). apply IH. lia.
Qed.

(** Assigning properties in order: the last one of a name counts. *)
Lemma map_get_foldl {V} (l o : list (string * V)) k :
  map_get k (foldl (fun o e => map_set e.1 e.2 o) o l) =
    match map_get k (reverse l) with Some v => Some v | None => map_get k o end.
Proof.
  revert o. induction l as [|[x v] l IH]; intros o; [done|]. cbn [foldl].
  rewrite IH, reverse_cons. cbn. rewrite map_get_set.
  clear IH. generalize (reverse l) as m. intros m. induction m as [|[y w] m IHm]; cbn.
  - by destruct (decide (x = k)).
  - by destruct (decide (y = k)).
Qed.
Lemma map_get_NoDup {V} (l : list (string * V)) k v : NoDup l.*1 -> (k, v) ∈ l -> map_get k l = Some v.
Proof.
  induction l as [|[x w] l IH]; cbn; [by intros _ ?%not_elem_of_nil|].
  intros [Hn Hd]%NoDup_cons [[= -> ->]|Hin]%elem_of_cons; [by rewrite decide_True|].
  rewrite decide_False; [by apply IH|]. intros ->. apply Hn. apply list_elem_of_fmap. by exists (k, v).
Qed.
Lemma map_get_reverse {V} (l : list (string * V)) k v :
  NoDup l.*1 -> (k, v) ∈ l -> map_get k (reverse l) = Some v.
Proof.
  intros Hd Hin. apply map_get_NoDup; [by rewrite fmap_reverse, reverse_Permutation|by apply elem_of_reverse].
Qed.
Lemma map_get_reverse_None {V} (l : list (string * V)) k : k ∉ l.*1 -> map_get k (reverse l) = None.
Proof. intros H. apply map_get_None. by rewrite fmap_reverse, elem_of_reverse. Qed.

Lemma entries_keys c moduleID i names : (entries c moduleID i names).*1 = names.
Proof. revert i. induction names as [|n names IH]; intros i; [done|]. cbn. f_equal. apply IH. Qed.
Lemma entries_lookup c moduleID i names j name : names !! j = Some name ->
  (name, Method moduleID (Z.of_nat (i + j)) (type_at c (i + j))) ∈ entries c moduleID i names.
Proof.
  revert i j. induction names as [|n names IH]; intros i j; [done|].
  destruct j as [|j]; cbn; [intros [= ->]; rewrite Nat.add_0_r; left|].
  intros H. right. replace (i + Datatypes.S j) with (Datatypes.S i + j) by lia. by apply IH.
Qed.

Definition stripped (c : config) : Prop :=
  String.prefix "RCT" (moduleName c) = false /\ String.prefix "RK" (moduleName c) = false.
Definition named_apart (c : config) : Prop :=
  NoDup ("getConstants" :: (default [] (constants c)).*1 ++ default [] (methods c)).

(** A module generated from a configuration whose names are distinct has, under
    the name of each method, the call of that method's index with the type the two
    index lists give it, the constants as they are, and [getConstants]; in
    development the queue can name every method of it. *)
Theorem genModule_spec c moduleID s :
  stripped c -> types_ok c -> named_apart c -> is_Some (constants c) \/ is_Some (methods c) ->
  exists o s', genModule dev (Some c) moduleID s = (Ret (Some (moduleName c, Some o)), s') /\
    (forall i name, default [] (methods c) !! i = Some name ->
      map_get name o = Some (Method moduleID (Z.of_nat i) (type_at c i)) /\
      (dev = true -> outcome (debug_method (W:=nm C) (Some (moduleID, Z.of_nat i))) s' = Ret (Some name))) /\
    (forall k v, (k, v) ∈ default [] (constants c) -> map_get k o = Some (Constant v)) /\
    map_get "getConstants" o = Some (GetConstants (constants c)).
Proof.
  intros [Hp1 Hp2] Hok Hnames Hsome.
  apply NoDup_cons in Hnames as [Hgc (Hnc & Hsep & Hnm)%NoDup_app].
  set (names := default [] (methods c)) in *. set (consts := default [] (constants c)) in *.
  set (o0 := foldl (fun o e => map_set e.1 e.2 o) [] (entries c moduleID 0 names)).
  set (cs := (fun e => (e.1, Constant e.2)) <$> consts).
  set (o1 := foldl (fun o e => map_set e.1 e.2 o) o0 cs).
  assert (Hcs : cs.*1 = consts.*1) by (unfold cs; rewrite <- list_fmap_compose; by apply list_fmap_ext).
  assert (Ho1 : foldl (fun o e => map_set e.1 (Constant e.2) o) o0 consts = o1).
  { unfold o1, cs. generalize o0. clear. induction consts as [|[k v] l IH]; intros o; [done|]. cbn. apply IH. }
  assert (Hno : map_get "getConstants" o1 = None).
  { unfold o1, o0. rewrite !map_get_foldl, !map_get_reverse_None; [done|..];
      rewrite ?entries_keys, ?Hcs; set_solver. }
  exists (map_set "getConstants" (GetConstants (constants c)) o1),
    (final (when dev (createDebugLookup dev moduleID (moduleName c) (methods c))) s).
  split_and!.
  - unfold genModule. rewrite Hp1, Hp2. cbn [negb andb invariant]. rewrite bind_ret.
    assert (Hbody : forall (k : JS S (option (string * option module))),
      match constants c, methods c with None, None => ret (Some (moduleName c, None)) | _, _ => k end s = k s)
      by (destruct (constants c), (methods c), Hsome as [[]|[]]; done).
    rewrite Hbody. rewrite (bind_of _ _ _ _ _ (gen_methods_ok c moduleID names 0 [] s Hok eq_refl)).
    fold o0 consts. rewrite Ho1, Hno. cbn [is_nullish]. rewrite bind_ret. by destruct dev.
  - intros i name Hi. assert (Hin : name ∈ names) by by eapply list_elem_of_lookup_2. split.
    + rewrite map_get_set, decide_False by (intros <-; apply Hgc, elem_of_app; by right).
      unfold o1, o0. rewrite !map_get_foldl, map_get_reverse_None; [|rewrite Hcs; intros ?; by eapply Hsep].
      by rewrite (map_get_reverse _ _ _ ltac:(by rewrite entries_keys) (entries_lookup c moduleID 0 names i name Hi)).
    + intros ->. unfold outcome, debug_method, createDebugLookup, final, modify. cbn.
      rewrite lookup_insert_eq. cbn. rewrite (proj2 (Z.ltb_ge _ _)) by lia. rewrite Nat2Z.id.
      fold names. by rewrite Hi.
  - intros k v Hkv. rewrite map_get_set, decide_False.
    + unfold o1. rewrite map_get_foldl, (map_get_reverse _ k (Constant v)); [done|by rewrite Hcs|].
      apply list_elem_of_fmap. by exists (k, v).
    + intros <-. apply Hgc, elem_of_app. left. apply list_elem_of_fmap. by exists ("getConstants", v).
  - by rewrite map_get_set, decide_True.
Qed.

(** Loading a module leaves the object of modules alone, as long as the native side
    does. *)
Definition same_modules s s' : Prop := nativeModules (world s') = nativeModules (world s).
#[local] Instance same_modules_preorder : PreOrder same_modules.
Proof. split; unfold same_modules; repeat intro; congruence. Qed.

#[local] Hint Resolve same_modules_preorder : js.

Lemma same_modules_gen_methods c moduleID i names o :
  evolves same_modules (gen_methods (C:=C) c moduleID i names o).
Proof.
  revert i o. induction names as [|n names IH]; intros i o; cbn; [js_auto|].
  unfold method_of. js_auto.
Qed.
Lemma same_modules_loadModule name moduleID :
  (forall req, nativeRequireModuleConfig = Some req -> evolves same_modules (req name)) ->
  evolves same_modules (loadModule dev nativeRequireModuleConfig name moduleID).
Proof.
  intros Hreq. unfold loadModule, genModule, createDebugLookup, modify_nm.
  destruct nativeRequireModuleConfig as [req|] eqn:E; [|js_auto].
  js_step; [by apply Hreq|].
  js_auto; try apply same_modules_gen_methods; apply evolves_modify; by intros.
Qed.

(** A lazily loaded module is loaded by the first read of its property: that
    read returns what [loadModule] returns, and every later read finds the value
    without asking the native side again.  When the first load throws, every later
    read gives undefined. *)
Theorem module_loaded_once name moduleID s :
  map_get name (nativeModules (world s)) = Some (Accessor moduleID false) ->
  (forall req, nativeRequireModuleConfig = Some req -> evolves same_modules (req name)) ->
  let get := get_property dev nativeRequireModuleConfig name in
  exists s1, outcome get s = outcome (loadModule dev nativeRequireModuleConfig name moduleID) s1 /\
    forall s2, same_modules (final get s) s2 -> get s2 =
      match outcome get s with Ret m => (Ret m, s2) | _ => (Ret None, s2) end.
Proof.
  intros Hacc Hreq get. subst get. set (s1 := set_world (set_nativeModules
    (map_set name (Accessor moduleID true) (nativeModules (world s))) (world s)) s).
  exists s1. pose proof (same_modules_loadModule name moduleID Hreq s1) as Hsame.
  assert (E : get_property dev nativeRequireModuleConfig name s =
    (let! m := loadModule dev nativeRequireModuleConfig name moduleID in
     do! modify_nm (fun w => set_nativeModules (map_set name (Value m) (nativeModules w)) w); ret m) s1).
  { unfold get_property. by rewrite bind_gets, Hacc. }
  unfold outcome, final, same_modules in *. rewrite E. clear E. unfold bind.
  destruct (loadModule _ _ name moduleID s1) as [[m|err|] s']; cbn in Hsame; (split; [done|]);
    cbn -[get_property]; intros s2 Hs2; unfold get_property; rewrite bind_gets, Hs2.
  - by rewrite map_get_set, decide_True.
  - by rewrite Hsame, map_get_set, decide_True.
  - by rewrite Hsame, map_get_set, decide_True.
Qed.
End modules.

(** ** Instances *)
Section instances.
Definition demo_native : environment (nm unit) := {|
  call g args := ret tt;
  call_factory g := ret None;
  call_spy g d := ret tt;
  nativeCallSyncHook := Some (fun m k args => ret (VBool true));
  nativeFlushQueueImmediate := None;
  nativeTraceBeginAsyncFlow := false;
  reportFatalError err := ret tt;
  shouldPauseOnThrow := false
|}.
Definition demo_world : nm unit := Build_nm unit [Client 0] [] [("Lazy", Accessor 7 false)] [] tt.
Definition demo_queue : mq (nm unit) := new_MessageQueue 100 demo_world.
Definition demo_config : config :=
  Build_config "Lazy" (Some [("pi", VNumber (Some 3%Z))]) (Some ["read"; "write"; "size"]) (Some [0; 1]) (Some [2]).
Definition demo_require : option (string -> JS (mq (nm unit)) (option config)) :=
  Some (fun name => ret (Some demo_config)).

Lemma demo_env_links : env_links demo_native.
Proof.
  split; intros; try discriminate; simplify_eq/=; try apply evolves_ret, _.
Qed.
Lemma demo_linked : linked demo_queue.
Proof.
  split; try done.
  - intros id id' p (f & g & H & _). done.
  - intros f p [H|H]; destruct f as [|[|f]]; discriminate H.
  - intros id [[x H]|[x H]]; done.
Qed.

Lemma promise_roundtrip_witness :
  exists s1, promiseMethodWrapper demo_native true 200 3 4 [VBool true] demo_queue = (Ret 0, s1) /\
    linked s1 /\ waiting s1 0 0 /\
    queue s1 = Build_native_queue [3%Z] [4%Z] [[VBool true; VNumber (Some 0%Z); VNumber (Some 1%Z)]] 0 /\
    forall s2 now' data, waiting s2 0 0 -> spyFn s2 = None ->
      (true = true -> outcome (debug_method (W:=nm unit) (debugInfo s2 !! 0%Z)) s2 <> Throw (JSError "TypeError")) ->
      promises (world (final (invokeCallback (nm_env demo_native) true now' 0 [data]) s2)) =
        <[0 := Resolved data]> (promises (world s2)) /\
      promises (world (final (invokeCallback (nm_env demo_native) true now' 1 [data]) s2)) =
        <[0 := Rejected (UpdatedError (updateErrorWithErrorData data []))]> (promises (world s2)).
Proof.
  apply (promise_roundtrip demo_native true demo_env_links 200 3 4 [VBool true] demo_queue).
  - exact demo_linked.
  - reflexivity.
  - reflexivity.
  - reflexivity.
  - right. split; [reflexivity|vm_compute; lia].
Defined.

Lemma promises_settle_witness :
  moves (fun _ => True) demo_queue
    (final (genMethod demo_native true 3 4 TAsync 200 [VBool true; VFunction 0]) demo_queue).
Proof.
  destruct (promises_settle_only_through_own_ids demo_native true demo_env_links 200 3 4 TAsync
    [VBool true; VFunction 0] "M" "f" 0 demo_queue) as [H _]; [|exact H].
  intros f Hf f' [= <-]. assert (f = 0) as -> by set_solver. exists 0. reflexivity.
Defined.

Lemma genModule_spec_witness :
  exists o s', genModule true (Some demo_config) 7 demo_queue = (Ret (Some ("Lazy", Some o)), s') /\
    (forall i name, ["read"; "write"; "size"] !! i = Some name ->
      map_get name o = Some (Method 7 (Z.of_nat i) (type_at demo_config i)) /\
      (true = true -> outcome (debug_method (W:=nm unit) (Some (7%Z, Z.of_nat i))) s' = Ret (Some name))) /\
    (forall k v, (k, v) ∈ [("pi", VNumber (Some 3%Z))] -> map_get k o = Some (Constant v)) /\
    map_get "getConstants" o = Some (GetConstants (Some [("pi", VNumber (Some 3%Z))])).
Proof.
  apply (genModule_spec true demo_config 7 demo_queue).
  - split; reflexivity.
  - intros i Hi. cbn in Hi. destruct i as [|[|[|i]]]; [right|right|left|lia]; reflexivity.
  - apply (bool_decide_eq_true_1 _). vm_compute. reflexivity.
  - left. eexists. reflexivity.
Defined.

Lemma module_loaded_once_witness :
  exists s1, outcome (get_property true demo_require "Lazy") demo_queue =
      outcome (loadModule true demo_require "Lazy" 7) s1 /\
    forall s2, same_modules (final (get_property true demo_require "Lazy") demo_queue) s2 ->
      get_property true demo_require "Lazy" s2 =
      match outcome (get_property true demo_require "Lazy") demo_queue with
      | Ret m => (Ret m, s2) | _ => (Ret None, s2) end.
Proof.
  apply (module_loaded_once true demo_require "Lazy" 7 demo_queue).
  - reflexivity.
  - intros req [= <-] s. reflexivity.
Defined.
End instances.
