(* ===== verification/Timers.v ===== *)
(** * JSTimers

    Libraries/Core/Timers/JSTimers.js: the timer functions, driven by native
    through [callTimers], [callIdleCallbacks] and [callImmediates].

    The module variables are the record [st].  The closures that the module builds
    are the constructors of [callback]; client functions are the parameter [call],
    which may run any operation of this file.  [clock] is what [performanceNow()]
    returns and [dateNow] what [Date.now()] returns at the current point (client
    code may advance them).  Calls of the native module and of [console] are
    recorded in [effects] ([warning] of fbjs only in development); the Systrace calls,
    which only profile, are left out.  Times are exact rationals. *)
From S2P Require Import Prelude.
From stdpp Require Import base numbers list strings gmap fin_maps.
From Stdlib Require Import QArith.
Open Scope nat_scope.

Inductive timer_type :=
  | TySetTimeout | TySetInterval | TyRequestAnimationFrame | TySetImmediate
  | TyRequestIdleCallback.
#[export] Instance timer_type_eq_dec : EqDecision timer_type.
Proof. solve_decision. Defined.

(** [FRAME_DURATION = 1000 / 60], [IDLE_CALLBACK_FRAME_DEADLINE = 1]. *)
Definition FRAME_DURATION : Q := (1000 # 60)%Q.
Definition IDLE_CALLBACK_FRAME_DEADLINE : Q := 1%Q.
Definition MAX_TIMER_DURATION_MS : Q := (60 * 1000)%Q.

(** [timeRemaining()] of the deadline object made for [frameTime], read at [now]. *)
Definition timeRemaining (frameTime now : Q) : Q :=
  let d := (FRAME_DURATION - (now - frameTime))%Q in if Qle_bool 0 d then d else 0%Q.

Section timers.
Context {V W : Type}.

(** What a client function is called with. *)
Inductive call_args :=
  | Args (args : list V)
  | Timestamp (t : Q)
  | Deadline (frameTime : Q) (didTimeout : bool).

(** The functions stored in [callbacks]: [() => func.apply(undefined, args)], [func]
    itself, the two closures of [requestIdleCallback] and the rethrowing closures. *)
Inductive callback :=
  | CbApply (func : nat) (args : list V)
  | CbFunc (func : nat)
  | CbIdle (id : Z) (func : nat)
  | CbIdleTimeout (id : Z)
  | CbRethrow (e : exn).

Inductive effect :=
  | CreateTimer (callbackID : Z) (duration : Q) (jsSchedulingTime : Z) (repeats : bool)
  | DeleteTimer (timerID : Z)
  | SetSendIdleEvents (b : bool)
  | ConsoleWarn (msg : string)
  | ConsoleError (msg : string).

Record st := {
  callbacks : list (option callback);
  types : list (option timer_type);
  timerIDs : list (option Z);
  immediates : list Z;
  requestIdleCallbacks : list Z;
  requestIdleCallbackTimeouts : gmap Z Z;
  GUID : Z;
  errors : option (list exn);
  hasEmittedTimeDriftWarning : bool;
  clock : Q;
  dateNow : Z;
  effects : list effect;
  world : W
}.

Definition set_slots c t i s : st :=
  Build_st c t i (immediates s) (requestIdleCallbacks s) (requestIdleCallbackTimeouts s)
    (GUID s) (errors s) (hasEmittedTimeDriftWarning s) (clock s) (dateNow s) (effects s) (world s).
Definition set_immediates x s : st :=
  Build_st (callbacks s) (types s) (timerIDs s) x (requestIdleCallbacks s)
    (requestIdleCallbackTimeouts s) (GUID s) (errors s) (hasEmittedTimeDriftWarning s)
    (clock s) (dateNow s) (effects s) (world s).
Definition set_requestIdleCallbacks x s : st :=
  Build_st (callbacks s) (types s) (timerIDs s) (immediates s) x
    (requestIdleCallbackTimeouts s) (GUID s) (errors s) (hasEmittedTimeDriftWarning s)
    (clock s) (dateNow s) (effects s) (world s).
Definition set_requestIdleCallbackTimeouts x s : st :=
  Build_st (callbacks s) (types s) (timerIDs s) (immediates s) (requestIdleCallbacks s)
    x (GUID s) (errors s) (hasEmittedTimeDriftWarning s)
    (clock s) (dateNow s) (effects s) (world s).
Definition set_GUID x s : st :=
  Build_st (callbacks s) (types s) (timerIDs s) (immediates s) (requestIdleCallbacks s)
    (requestIdleCallbackTimeouts s) x (errors s) (hasEmittedTimeDriftWarning s)
    (clock s) (dateNow s) (effects s) (world s).
Definition set_errors x s : st :=
  Build_st (callbacks s) (types s) (timerIDs s) (immediates s) (requestIdleCallbacks s)
    (requestIdleCallbackTimeouts s) (GUID s) x (hasEmittedTimeDriftWarning s)
    (clock s) (dateNow s) (effects s) (world s).
Definition set_hasEmittedTimeDriftWarning x s : st :=
  Build_st (callbacks s) (types s) (timerIDs s) (immediates s) (requestIdleCallbacks s)
    (requestIdleCallbackTimeouts s) (GUID s) (errors s) x
    (clock s) (dateNow s) (effects s) (world s).
Definition set_effects x s : st :=
  Build_st (callbacks s) (types s) (timerIDs s) (immediates s) (requestIdleCallbacks s)
    (requestIdleCallbackTimeouts s) (GUID s) (errors s) (hasEmittedTimeDriftWarning s)
    (clock s) (dateNow s) x (world s).
Definition set_world x s : st :=
  Build_st (callbacks s) (types s) (timerIDs s) (immediates s) (requestIdleCallbacks s)
    (requestIdleCallbackTimeouts s) (GUID s) (errors s) (hasEmittedTimeDriftWarning s)
    (clock s) (dateNow s) (effects s) x.

Definition log (e : effect) : JS st unit := modify (fun s => set_effects (effects s ++ [e]) s).

(** The module variables at load time. *)
Definition init (clock0 : Q) (now : Z) (w : W) : st :=
  Build_st [] [] [] [] [] ∅ 1 None false clock0 now [] w.

Definition getFreeIndex (s : st) : nat :=
  match index_of None (timerIDs s) with Some i => i | None => length (timerIDs s) end.

Definition allocateCallback (func : Z -> callback) (ty : timer_type) : JS st Z :=
  let! id := gets GUID in
  do! modify (fun s => set_GUID (GUID s + 1)%Z s);
  let! i := gets getFreeIndex in
  do! modify (fun s => set_slots (set_at i (Some (func id)) (callbacks s))
        (set_at i (Some ty) (types s)) (set_at i (Some id) (timerIDs s)) s);
  ret id.

Definition clearIndex (i : nat) : JS st unit :=
  modify (fun s => set_slots (set_at i None (callbacks s)) (set_at i None (types s))
                     (set_at i None (timerIDs s)) s).

Section native.
(** [NativeTiming] is available; [__DEV__]; [Platform.OS === 'android']. *)
Context (nativeTiming dev is_android : bool).

Definition createTimer (callbackID : Z) (duration : Q) (jsSchedulingTime : Z)
    (repeats : bool) : JS st unit :=
  do! invariant nativeTiming "NativeTiming is available";
  log (CreateTimer callbackID duration jsSchedulingTime repeats).

Definition deleteTimer (timerID : Z) : JS st unit :=
  do! invariant nativeTiming "NativeTiming is available";
  log (DeleteTimer timerID).

Definition setSendIdleEvents (b : bool) : JS st unit :=
  do! invariant nativeTiming "NativeTiming is available";
  log (SetSendIdleEvents b).

(** [None] is a [null] or [undefined] identifier. *)
Definition freeCallback (timerID : option Z) : JS st unit :=
  match timerID with
  | None => ret tt
  | Some id =>
      let! index := gets (fun s => index_of (Some id) (timerIDs s)) in
      match index with
      | None => ret tt
      | Some i =>
          let! ty := gets (fun s => mjoin (types s !! i)) in
          do! clearIndex i;
          if bool_decide (ty = Some TySetImmediate) ||
             bool_decide (ty = Some TyRequestIdleCallback)
          then ret tt else deleteTimer id
      end
  end.

Definition clearTimeout (timerID : option Z) : JS st unit := freeCallback timerID.
Definition clearInterval (timerID : option Z) : JS st unit := freeCallback timerID.
Definition cancelAnimationFrame (timerID : option Z) : JS st unit := freeCallback timerID.

Definition clearImmediate (timerID : Z) : JS st unit :=
  do! freeCallback (Some timerID);
  let! index := gets (fun s => index_of timerID (immediates s)) in
  match index with
  | None => ret tt
  | Some i => modify (fun s => set_immediates (splice1 i (immediates s)) s)
  end.

(** [setTimeout] and [setInterval] over the closure they store; [duration] is
    [None] when it is missing or NaN. *)
Definition set_timer (repeats : bool) (func : Z -> callback) (duration : option Q) : JS st Z :=
  let d := default 0%Q duration in
  do! when (dev && is_android && negb (Qle_bool d MAX_TIMER_DURATION_MS))
        (log (ConsoleWarn "Setting a timer for a long period of time"));
  let! id := allocateCallback func (if repeats then TySetInterval else TySetTimeout) in
  let! now := gets dateNow in
  do! createTimer id d now repeats;
  ret id.

Definition setTimeout (func : nat) (duration : option Q) (args : list V) : JS st Z :=
  set_timer false (fun _ => CbApply func args) duration.
Definition setInterval (func : nat) (duration : option Q) (args : list V) : JS st Z :=
  set_timer true (fun _ => CbApply func args) duration.

Definition setImmediate (func : nat) (args : list V) : JS st Z :=
  let! id := allocateCallback (fun _ => CbApply func args) TySetImmediate in
  do! modify (fun s => set_immediates (immediates s ++ [id]) s);
  ret id.

Definition requestAnimationFrame (func : nat) : JS st Z :=
  let! id := allocateCallback (fun _ => CbFunc func) TyRequestAnimationFrame in
  let! now := gets dateNow in
  do! createTimer id 1%Q now false;
  ret id.

Definition requestIdleCallback (func : nat) (timeout : option Q) : JS st Z :=
  let! rs := gets requestIdleCallbacks in
  do! when (bool_decide (rs = [])) (setSendIdleEvents true);
  let! id := allocateCallback
    (fun id => match timeout with Some _ => CbIdle id func | None => CbFunc func end)
    TyRequestIdleCallback in
  do! modify (fun s => set_requestIdleCallbacks (requestIdleCallbacks s ++ [id]) s);
  do! (match timeout with
       | None => ret tt
       | Some t =>
           let! timeoutId := set_timer false (fun _ => CbIdleTimeout id) (Some t) in
           modify (fun s => set_requestIdleCallbackTimeouts
             (<[id := timeoutId]> (requestIdleCallbackTimeouts s)) s)
       end);
  ret id.

(** [const timeoutId = requestIdleCallbackTimeouts[id]; if (timeoutId) {...}]: the
    identifier 0 is never allocated, so the test is that the entry exists. *)
Definition dropIdleTimeout (id : Z) : JS st unit :=
  let! t := gets (fun s => requestIdleCallbackTimeouts s !! id) in
  match t with
  | None => ret tt
  | Some timeoutId =>
      do! clearTimeout (Some timeoutId);
      modify (fun s => set_requestIdleCallbackTimeouts
        (delete id (requestIdleCallbackTimeouts s)) s)
  end.

Definition spliceIdle (id : Z) (i : nat) : JS st unit :=
  modify (fun s => set_requestIdleCallbacks (splice1 i (requestIdleCallbacks s)) s).

Definition stopIdleEvents : JS st unit :=
  let! rs := gets requestIdleCallbacks in
  when (bool_decide (rs = [])) (setSendIdleEvents false).

Definition cancelIdleCallback (timerID : Z) : JS st unit :=
  do! freeCallback (Some timerID);
  let! index := gets (fun s => index_of timerID (requestIdleCallbacks s)) in
  do! (match index with Some i => spliceIdle timerID i | None => ret tt end);
  do! dropIdleTimeout timerID;
  stopIdleEvents.

Section calls.
(** What client code does. *)
Variable call : nat -> call_args -> JS st unit.

(** Running a stored function; [rec] is [_callTimer], which the timeout closure of
    [requestIdleCallback] calls for the idle callback it guards. *)
Definition run_callback (rec : Z -> Q -> bool -> JS st unit) (cb : callback)
    (arg : call_args) : JS st unit :=
  match cb with
  | CbApply f args => call f (Args args)
  | CbFunc f => call f arg
  | CbIdle id f => do! dropIdleTimeout id; call f arg
  | CbIdleTimeout id =>
      let! index := gets (fun s => index_of id (requestIdleCallbacks s)) in
      do! (match index with
           | None => ret tt
           | Some i => do! spliceIdle id i; let! t := gets clock in rec id t true
           end);
      do! modify (fun s => set_requestIdleCallbackTimeouts
            (delete id (requestIdleCallbackTimeouts s)) s);
      stopIdleEvents
  | CbRethrow e => throw e
  end.

Definition invoke (rec : Z -> Q -> bool -> JS st unit) (ty : timer_type) (cb : callback)
    (frameTime : Q) (didTimeout : bool) : JS st unit :=
  match ty with
  | TySetTimeout | TySetInterval | TySetImmediate => run_callback rec cb (Args [])
  | TyRequestAnimationFrame =>
      let! t := gets clock in run_callback rec cb (Timestamp t)
  | TyRequestIdleCallback => run_callback rec cb (Deadline frameTime didTimeout)
  end.

Definition record_error (e : exn) : JS st unit :=
  modify (fun s => set_errors (Some (default [] (errors s) ++ [e])) s).

(** [_callTimer]; [fuel] bounds the nesting of [_callTimer] inside itself. *)
Fixpoint callTimer (fuel : nat) (timerID : Z) (frameTime : Q) (didTimeout : bool) :
    JS st unit :=
  match fuel with
  | 0 => out_of_fuel
  | S fuel' =>
      let! g := gets GUID in
      do! when (dev && negb (timerID <=? g)%Z)
            (log (ConsoleError "Tried to call timer with ID %s but no such timer exists."));
      let! index := gets (fun s => index_of (Some timerID) (timerIDs s)) in
      match index with
      | None => ret tt
      | Some i =>
          let! ty := gets (fun s => mjoin (types s !! i)) in
          let! cb := gets (fun s => mjoin (callbacks s !! i)) in
          match cb, ty with
          | Some cb, Some ty =>
              do! when (negb (bool_decide (ty = TySetInterval))) (clearIndex i);
              try_catch (invoke (callTimer fuel') ty cb frameTime didTimeout) record_error
          | _, _ => log (ConsoleError "No callback found for timerID")
          end
      end
  end.

(** The nesting bound of the entry points: a timeout closure and its idle callback. *)
Definition NESTING : nat := 2.

Definition callImmediatesPass : JS st bool :=
  let! pass := gets immediates in
  match pass with
  | [] => ret false
  | _ =>
      do! modify (set_immediates []);
      do! for_each pass (fun id => callTimer NESTING id 0%Q false);
      gets (fun s => negb (bool_decide (immediates s = [])))
  end.

(** [errors.forEach(error => setTimeout(() => {throw error}, 0))]. *)
Definition rethrow_later (es : list exn) : JS st unit :=
  for_each es (fun e =>
    let! id := set_timer false (fun _ => CbRethrow e) (Some 0%Q) in ret tt).

Definition callTimers (timersToCall : list Z) : JS st unit :=
  do! invariant (negb (bool_decide (timersToCall = [])))
        "Cannot call `callTimers` with an empty list of IDs.";
  do! modify (set_errors None);
  do! for_each timersToCall (fun id => callTimer NESTING id 0%Q false);
  let! es := gets errors in
  match es with
  | None | Some [] => ret tt
  | Some (e :: es') => do! rethrow_later es'; throw e
  end.

Definition callIdleCallbacks (frameTime : Q) : JS st unit :=
  let! now := gets clock in
  if negb (Qle_bool IDLE_CALLBACK_FRAME_DEADLINE (FRAME_DURATION - (now - frameTime)))%Q
  then ret tt
  else
    do! modify (set_errors None);
    let! pass := gets requestIdleCallbacks in
    do! when (negb (bool_decide (pass = []))) (
      do! modify (set_requestIdleCallbacks []);
      for_each pass (fun id => callTimer NESTING id frameTime false));
    do! stopIdleEvents;
    let! es := gets errors in
    match es with None => ret tt | Some es => rethrow_later es end.

(** [callImmediates]; [passes] bounds the [while] loop. *)
Definition callImmediates (passes : nat) : JS st unit :=
  do! modify (set_errors None);
  do! while_true passes callImmediatesPass;
  let! es := gets errors in
  match es with None => ret tt | Some es => rethrow_later es end.
End calls.

Definition emitTimeDriftWarning (warningMessage : string) : JS st unit :=
  let! b := gets hasEmittedTimeDriftWarning in
  if b then ret tt
  else
    do! modify (set_hasEmittedTimeDriftWarning true);
    log (ConsoleWarn warningMessage).
End native.
End timers.
Arguments st : clear implicits.
Arguments callback : clear implicits.
Arguments call_args : clear implicits.

(** ** Invariants *)
Section invariants.
Context {V W : Type}.
Abbreviation S := (st V W).
Implicit Types s : S.

(** The parallel arrays agree, live identifiers are distinct and below [GUID], and
    no idle callback is itself a timeout closure. *)
Record inv (s : S) : Prop := {
  inv_len : length (callbacks s) = length (timerIDs s) /\ length (types s) = length (timerIDs s);
  inv_ids : forall i id, timerIDs s !! i = Some (Some id) ->
    (0 < id < GUID s)%Z /\
    exists cb ty, callbacks s !! i = Some (Some cb) /\ types s !! i = Some (Some ty);
  inv_inj : forall i j id, timerIDs s !! i = Some (Some id) ->
    timerIDs s !! j = Some (Some id) -> i = j;
  inv_idle : forall i id id', id ∈ requestIdleCallbacks s ->
    timerIDs s !! i = Some (Some id) -> callbacks s !! i <> Some (Some (CbIdleTimeout id'));
  inv_idle_lt : forall id, id ∈ requestIdleCallbacks s -> (id < GUID s)%Z;
  inv_guid : (0 < GUID s)%Z
}.

(** [id] has been allocated and is in no slot. *)
Definition dead (id : Z) (s : S) : Prop := Some id ∉ timerIDs s /\ (id < GUID s)%Z.

Lemma free_index_le s : getFreeIndex s <= length (timerIDs s).
Proof.
  unfold getFreeIndex. destruct (index_of None (timerIDs s)) as [i|] eqn:E; [|done].
  apply index_of_Some in E as [E _]. apply lookup_lt_Some in E. lia.
Qed.
Lemma free_index_free s id : timerIDs s !! getFreeIndex s <> Some (Some id).
Proof.
  unfold getFreeIndex. destruct (index_of None (timerIDs s)) as [i|] eqn:E.
  - apply index_of_Some in E as [-> _]. done.
  - rewrite lookup_ge_None_2; done.
Qed.

Definition allocated (func : Z -> callback V) ty (s : S) : S :=
  let i := getFreeIndex s in
  set_slots (set_at i (Some (func (GUID s))) (callbacks s)) (set_at i (Some ty) (types s))
    (set_at i (Some (GUID s)) (timerIDs s)) (set_GUID (GUID s + 1)%Z s).
Lemma allocateCallback_spec func ty s :
  allocateCallback func ty s = (Ret (GUID s), allocated func ty s).
Proof. done. Qed.

(** The slots after [set_at] in step. *)
Lemma set_at_lookup_Some {A} i j (x y : A) l : i <= length l ->
  set_at i x l !! j = Some y <-> (i = j /\ x = y) \/ (i <> j /\ l !! j = Some y).
Proof.
  intros H. destruct (decide (i = j)) as [->|Hne].
  - rewrite set_at_lookup by done. naive_solver.
  - rewrite set_at_lookup_ne by done. naive_solver.
Qed.

Lemma inv_allocated func ty s :
  inv s -> inv (allocated func ty s).
Proof.
  intros Hinv. pose proof Hinv as [[Hc Ht] H2 H3 H4 H5 H6].
  pose proof (free_index_le s) as Hle. pose proof (free_index_free s) as Hfr.
  unfold allocated. set (i := getFreeIndex s) in *. split; cbn.
  - rewrite !set_at_length by lia. lia.
  - intros j id. rewrite set_at_lookup_Some by lia. intros [[<- [= <-]]|[Hne Hj]].
    + split; [lia|]. rewrite !set_at_lookup by lia. eauto.
    + apply H2 in Hj as (? & cb & ty' & ? & ?). split; [lia|].
      rewrite !set_at_lookup_ne by lia. eauto.
  - intros j k id. rewrite !set_at_lookup_Some by lia.
    intros [[<- [= <-]]|[Hne Hj]] [[<- E]|[Hne' Hk]]; try done.
    + apply H2 in Hk as [? _]. lia.
    + injection E as <-. apply H2 in Hj as [? _]. lia.
    + by eapply H3.
  - intros j id id' Hid. rewrite set_at_lookup_Some by lia. intros [[<- [= <-]]|[Hne Hj]].
    + apply H5 in Hid. lia.
    + rewrite set_at_lookup_ne by lia. by eapply H4.
  - intros id Hid. apply H5 in Hid. lia.
  - lia.
Qed.

(** Making the just allocated identifier an idle callback. *)
Lemma inv_idle_push func ty s :
  (forall id id', func id <> CbIdleTimeout id') -> inv s ->
  inv (set_requestIdleCallbacks (requestIdleCallbacks s ++ [GUID s]) (allocated func ty s)).
Proof.
  intros Hf Hinv. pose proof (inv_allocated func ty s Hinv) as [H1 H2 H3 H4 H5 H6].
  pose proof (inv_len _ Hinv) as [Hc Ht]. pose proof (free_index_le s) as Hle.
  split; try done; cbn in *.
  - intros i id id' [Hid|Hid]%elem_of_app; [by apply H4|].
    apply list_elem_of_singleton in Hid as ->.
    rewrite set_at_lookup_Some by lia. intros [[<- _]|[Hne Hj]].
    + rewrite set_at_lookup by lia. intros [= E]. by apply Hf in E.
    + apply (inv_ids _ Hinv) in Hj as [? _]. lia.
  - intros id [Hid|Hid]%elem_of_app; [by apply H5|].
    apply list_elem_of_singleton in Hid as ->. lia.
Qed.

(** Steps that keep the slots and shrink the idle list. *)
Lemma inv_frame s s' :
  callbacks s' = callbacks s -> types s' = types s -> timerIDs s' = timerIDs s ->
  GUID s' = GUID s -> (forall id, id ∈ requestIdleCallbacks s' -> id ∈ requestIdleCallbacks s) ->
  inv s -> inv s'.
Proof.
  intros E1 E2 E3 E4 E5 [H1 H2 H3 H4 H5 H6].
  split; rewrite ?E1, ?E2, ?E3, ?E4; eauto.
Qed.

Lemma inv_clear s i : i < length (timerIDs s) -> inv s ->
  inv (set_slots (set_at i None (callbacks s)) (set_at i None (types s))
         (set_at i None (timerIDs s)) s).
Proof.
  intros Hi [[Hc Ht] H2 H3 H4 H5 H6]. split; cbn; try done.
  - rewrite !set_at_length by lia. lia.
  - intros j id. rewrite set_at_lookup_Some by lia. intros [[_ ?]|[Hne Hj]]; [done|].
    rewrite !set_at_lookup_ne by lia. by apply H2.
  - intros j k id. rewrite !set_at_lookup_Some by lia. intros [[_ ?]|[? ?]] [[_ ?]|[? ?]]; try done.
    by eapply H3.
  - intros j id id' Hid. rewrite set_at_lookup_Some by lia. intros [[_ ?]|[Hne Hj]]; [done|].
    rewrite set_at_lookup_ne by lia. by eapply H4.
Qed.

Lemma splice1_subset {A} i (l : list A) x : x ∈ splice1 i l -> x ∈ l.
Proof.
  unfold splice1. intros [H|H]%elem_of_app.
  - by eapply elem_of_take in H as (?&?&?); eapply list_elem_of_lookup_2.
  - apply list_elem_of_lookup in H as [j H]. rewrite lookup_drop in H.
    by eapply list_elem_of_lookup_2.
Qed.

Lemma dead_allocated id func ty s : dead id s -> dead id (allocated func ty s).
Proof.
  intros [Hd Hlt]. split; cbn; [|lia]. intros [j Hj]%list_elem_of_lookup.
  pose proof (free_index_le s). apply set_at_lookup_Some in Hj as [[_ [= E]]|[_ Hj]]; [lia| |done].
  apply Hd. by eapply list_elem_of_lookup_2.
Qed.
Lemma dead_clear id s i : i <= length (timerIDs s) -> dead id s ->
  dead id (set_slots (set_at i None (callbacks s)) (set_at i None (types s))
         (set_at i None (timerIDs s)) s).
Proof.
  intros Hi [Hd Hlt]. split; [|done]. cbn. intros [j Hj]%list_elem_of_lookup.
  apply set_at_lookup_Some in Hj as [[_ ?]|[_ Hj]]; [done| |done].
  apply Hd. by eapply list_elem_of_lookup_2.
Qed.
End invariants.

(** ** Preservation, once for every predicate on the slots

    [slot_invariant P]: the four kinds of step the module takes keep [P].  The
    invariant and the deadness of an identifier are both instances, and every
    operation is shown to keep every such [P]. *)
Class slot_invariant {V W} (P : st V W -> Prop) : Prop := {
  si_alloc : forall func ty s, P s -> P (allocated func ty s);
  si_idle : forall func ty s, (forall id id', func id <> CbIdleTimeout id') -> P s ->
    P (set_requestIdleCallbacks (requestIdleCallbacks s ++ [GUID s]) (allocated func ty s));
  si_clear : forall s i, i < length (timerIDs s) -> P s ->
    P (set_slots (set_at i None (callbacks s)) (set_at i None (types s))
         (set_at i None (timerIDs s)) s);
  si_frame : forall s s', callbacks s' = callbacks s -> types s' = types s ->
    timerIDs s' = timerIDs s -> GUID s' = GUID s ->
    (forall id, id ∈ requestIdleCallbacks s' -> id ∈ requestIdleCallbacks s) -> P s -> P s'
}.

#[export] Instance inv_slot_invariant {V W} : slot_invariant (@inv V W).
Proof.
  split; [apply inv_allocated|apply inv_idle_push|apply inv_clear|apply inv_frame].
Qed.

#[export] Instance dead_slot_invariant {V W} id : slot_invariant (@dead V W id).
Proof.
  split; [apply dead_allocated| | |].
  - intros func ty s _ H. by apply (dead_allocated id func ty s) in H.
  - intros s i Hi. apply dead_clear. lia.
  - intros s s' _ _ E3 E4 _ [H1 H2]. split; [by rewrite E3|by rewrite E4].
Qed.

Section preservation.
Context {V W : Type}.
Abbreviation S := (st V W).
Context (P : S -> Prop) `{!slot_invariant P}.
Context (nativeTiming dev is_android : bool).
Implicit Types s : S.

Lemma si_modify (f : S -> S) :
  (forall s, callbacks (f s) = callbacks s /\ types (f s) = types s /\
     timerIDs (f s) = timerIDs s /\ GUID (f s) = GUID s /\
     (forall id, id ∈ requestIdleCallbacks (f s) -> id ∈ requestIdleCallbacks s)) ->
  preserves P (modify f).
Proof.
  intros H. apply evolves_modify. intros s HP. destruct (H s) as (?&?&?&?&?).
  by eapply si_frame.
Qed.
Lemma si_log e : preserves P (log (W:=W) e).
Proof. apply si_modify. by intros s. Qed.
Lemma si_allocateCallback func ty : preserves P (allocateCallback (W:=W) func ty).
Proof. intros s HP. unfold final. rewrite allocateCallback_spec. by apply si_alloc. Qed.
#[local] Hint Resolve si_log si_allocateCallback : js.
#[local] Hint Extern 4 (evolves _ (modify _)) =>
  apply si_modify; intros ?; split_and!;
    first [reflexivity
          | intros ?; first [done | intros Hin; cbn in Hin; by apply not_elem_of_nil in Hin]] : js.

Lemma si_native b : preserves P (setSendIdleEvents (V:=V) (W:=W) nativeTiming b).
Proof. unfold setSendIdleEvents. js_auto. Qed.
Lemma si_createTimer id d now r : preserves P (createTimer (V:=V) (W:=W) nativeTiming id d now r).
Proof. unfold createTimer. js_auto. Qed.
Lemma si_deleteTimer id : preserves P (deleteTimer (V:=V) (W:=W) nativeTiming id).
Proof. unfold deleteTimer. js_auto. Qed.
#[local] Hint Resolve si_native si_createTimer si_deleteTimer : js.

Lemma si_clear_at i s : timerIDs s !! i <> None -> P s -> P (final (clearIndex i) s).
Proof. intros Hi HP. apply si_clear; [|done]. by apply lookup_lt_is_Some, not_eq_None_Some. Qed.

Lemma si_freeCallback id : preserves P (freeCallback (V:=V) (W:=W) nativeTiming id).
Proof.
  destruct id as [id|]; [|simpl; js_auto]. intros s HP. unfold final, freeCallback.
  rewrite bind_gets. destruct (index_of _ _) as [i|] eqn:E; [|done].
  rewrite bind_gets. unfold bind at 1.
  assert (HP' : P (final (clearIndex i) s)).
  { apply si_clear_at; [|done]. apply index_of_Some in E as [-> _]. done. }
  unfold final, clearIndex, modify in *. cbn in *. case_match; [done|]. by apply si_deleteTimer.
Qed.
#[local] Hint Resolve si_freeCallback : js.

Lemma si_set_timer r func d :
  preserves P (set_timer (W:=W) nativeTiming dev is_android r func d).
Proof. unfold set_timer. js_auto. Qed.
#[local] Hint Resolve si_set_timer : js.

Lemma si_setImmediate f args : preserves P (setImmediate (V:=V) (W:=W) f args).
Proof. unfold setImmediate. js_auto. Qed.
Lemma si_clearImmediate id : preserves P (clearImmediate (V:=V) (W:=W) nativeTiming id).
Proof. unfold clearImmediate. js_auto. Qed.
Lemma si_requestAnimationFrame f :
  preserves P (requestAnimationFrame (V:=V) (W:=W) nativeTiming f).
Proof. unfold requestAnimationFrame. js_auto. Qed.

Lemma si_requestIdleCallback f t :
  preserves P (requestIdleCallback (W:=W) nativeTiming dev is_android f t).
Proof.
  unfold requestIdleCallback. do 2 (js_step; [solve [js_auto]|]).
  intros s HP. unfold final. rewrite (bind_of _ _ _ _ _ (allocateCallback_spec _ _ s)), bind_modify.
  set (s1 := set_requestIdleCallbacks _ _).
  assert (HP1 : P s1).
  { refine (si_idle (fun id => match t with Some _ => CbIdle id f | None => CbFunc f end)
      TyRequestIdleCallback s _ HP). intros id id'. by destruct t. }
  clearbody s1. revert s1 HP1. generalize (GUID s). intros id.
  match goal with |- forall x, P x -> P (snd (?m x)) => change (preserves P m) end.
  js_auto.
Qed.

Lemma si_dropIdleTimeout id : preserves P (dropIdleTimeout (V:=V) (W:=W) nativeTiming id).
Proof. unfold dropIdleTimeout, clearTimeout. js_auto. Qed.
Lemma si_spliceIdle id i : preserves P (spliceIdle (V:=V) (W:=W) id i).
Proof.
  apply si_modify. intros s. split_and!; try done. cbn. intros x. apply splice1_subset.
Qed.
Lemma si_stopIdleEvents : preserves P (stopIdleEvents (V:=V) (W:=W) nativeTiming).
Proof. unfold stopIdleEvents. js_auto. Qed.
#[local] Hint Resolve si_dropIdleTimeout si_spliceIdle si_stopIdleEvents : js.
Lemma si_cancelIdleCallback id : preserves P (cancelIdleCallback (V:=V) (W:=W) nativeTiming id).
Proof. unfold cancelIdleCallback. js_auto. Qed.

Lemma si_emitTimeDriftWarning msg : preserves P (emitTimeDriftWarning (V:=V) (W:=W) msg).
Proof. unfold emitTimeDriftWarning. js_auto. Qed.

Section calls.
Context (call : nat -> call_args V -> JS S unit).
Hypothesis Hcall : forall f a, preserves P (call f a).

Lemma si_invoke rec ty cb ft dt : (forall id t b, preserves P (rec id t b)) ->
  preserves P (invoke nativeTiming call rec ty cb ft dt).
Proof. intros Hrec. unfold invoke, run_callback. js_auto. Qed.

Lemma si_record_error e : preserves P (record_error (V:=V) (W:=W) e).
Proof. unfold record_error. js_auto. Qed.

(** The state in which [_callTimer] runs the stored function. *)
Definition before_callback (i : nat) (ty : timer_type) (s : S) : S :=
  final (when (negb (bool_decide (ty = TySetInterval))) (clearIndex i)) s.

Definition warned (timerID : Z) (s : S) : S :=
  final (when (dev && negb (timerID <=? GUID s)%Z)
    (log (ConsoleError "Tried to call timer with ID %s but no such timer exists."))) s.

(** [_callTimer] by cases on what it finds. *)
Lemma callTimer_unfold n id ft dt s :
  callTimer nativeTiming dev call (Datatypes.S n) id ft dt s =
  match index_of (Some id) (timerIDs s) with
  | None => (Ret tt, warned id s)
  | Some i =>
      match mjoin (callbacks s !! i), mjoin (types s !! i) with
      | Some cb, Some ty =>
          try_catch (invoke nativeTiming call (callTimer nativeTiming dev call n) ty cb ft dt)
            record_error (before_callback i ty (warned id s))
      | _, _ => log (ConsoleError "No callback found for timerID") (warned id s)
      end
  end.
Proof.
  cbn [callTimer]. rewrite bind_gets. unfold bind at 1.
  assert (E : when (dev && negb (id <=? GUID s)%Z)
    (log (ConsoleError "Tried to call timer with ID %s but no such timer exists.")) s =
    (Ret tt, warned id s)).
  { unfold warned, final. by destruct (dev && _). }
  rewrite E, bind_gets.
  assert (Hs : timerIDs (warned id s) = timerIDs s /\ callbacks (warned id s) = callbacks s /\
    types (warned id s) = types s).
  { unfold warned. by destruct (dev && _). }
  destruct Hs as (-> & Hc & Ht). destruct (index_of _ _) as [i|]; [|done].
  rewrite !bind_gets, Hc, Ht. destruct (mjoin (callbacks s !! i)) as [cb|]; [|done].
  destruct (mjoin (types s !! i)) as [ty|]; [|done].
  unfold bind at 1, before_callback, final. destruct ty; reflexivity.
Qed.

Lemma si_warned id s : P s -> P (warned id s).
Proof. intros HP. unfold warned. destruct (dev && _); [by apply si_log|done]. Qed.

Lemma si_before_callback id i ty s :
  index_of (Some id) (timerIDs s) = Some i -> P s -> P (before_callback i ty (warned id s)).
Proof.
  intros E HP. unfold before_callback. destruct (negb _); [|by apply si_warned].
  apply si_clear_at; [|by apply si_warned]. unfold warned.
  apply index_of_Some in E as [E _]. destruct (dev && _); cbn; by rewrite E.
Qed.

Lemma si_callTimer n : forall id ft dt, preserves P (callTimer nativeTiming dev call n id ft dt).
Proof.
  induction n as [|n IH]; intros id ft dt s HP; [done|]. unfold final.
  rewrite callTimer_unfold. destruct (index_of _ _) as [i|] eqn:E; [|by apply si_warned].
  destruct (mjoin (callbacks s !! i)) as [cb|]; [|by apply si_log, si_warned].
  destruct (mjoin (types s !! i)) as [ty|]; [|by apply si_log, si_warned].
  refine (_ : P (final (try_catch _ _) _)).
  apply (evolves_try (keeps P)); [by apply si_invoke|intros e; apply si_record_error|].
  by apply si_before_callback.
Qed.
#[local] Hint Resolve si_callTimer : js.

Lemma si_callImmediatesPass : preserves P (callImmediatesPass nativeTiming dev call).
Proof. unfold callImmediatesPass. js_auto. Qed.
#[local] Hint Resolve si_callImmediatesPass : js.
Lemma si_rethrow_later es : preserves P (rethrow_later (V:=V) (W:=W) nativeTiming dev is_android es).
Proof. unfold rethrow_later. js_auto. Qed.
#[local] Hint Resolve si_rethrow_later : js.
Lemma si_callTimers ids : preserves P (callTimers nativeTiming dev is_android call ids).
Proof. unfold callTimers. js_auto. Qed.
Lemma si_callIdleCallbacks ft : preserves P (callIdleCallbacks nativeTiming dev is_android call ft).
Proof. unfold callIdleCallbacks. js_auto. Qed.
Lemma si_callImmediates n : preserves P (callImmediates nativeTiming dev is_android call n).
Proof. unfold callImmediates. js_auto. Qed.
End calls.
End preservation.

(** ** Termination *)
#[export] Instance idle_timeout_dec {V} (cb : callback V) : Decision (exists id, cb = CbIdleTimeout id).
Proof. destruct cb; (by left; eauto) || (right; naive_solver). Defined.
Section termination.
Context {V W : Type}.
Abbreviation S := (st V W).
Context (nativeTiming dev is_android : bool) (call : nat -> call_args V -> JS S unit).
Implicit Types s : S.
Hypothesis Hcall : forall f a, terminates (call f a).

Lemma terminates_freeCallback id : terminates (freeCallback (V:=V) (W:=W) nativeTiming id).
Proof. unfold freeCallback, clearIndex, deleteTimer, log. js_terminates. Qed.
Lemma terminates_dropIdleTimeout id : terminates (dropIdleTimeout (V:=V) (W:=W) nativeTiming id).
Proof.
  pose proof terminates_freeCallback. unfold dropIdleTimeout, clearTimeout. js_terminates.
Qed.
Lemma terminates_stopIdleEvents : terminates (stopIdleEvents (V:=V) (W:=W) nativeTiming).
Proof. unfold stopIdleEvents, setSendIdleEvents, log. js_terminates. Qed.
Lemma terminates_set_timer r func d :
  terminates (set_timer (V:=V) (W:=W) nativeTiming dev is_android r func d).
Proof. unfold set_timer, allocateCallback, createTimer, log. js_terminates. Qed.
Lemma terminates_rethrow_later es :
  terminates (rethrow_later (V:=V) (W:=W) nativeTiming dev is_android es).
Proof. pose proof terminates_set_timer. unfold rethrow_later. js_terminates. Qed.
#[local] Hint Resolve terminates_dropIdleTimeout terminates_stopIdleEvents
  terminates_set_timer terminates_rethrow_later : js.

Lemma bind_no_oof {A B} (m : JS S A) (k : A -> JS S B) s :
  outcome m s <> OutOfFuel ->
  (forall a s', m s = (Ret a, s') -> outcome (k a) s' <> OutOfFuel) ->
  outcome (bind m k) s <> OutOfFuel.
Proof.
  unfold outcome, bind. destruct (m s) as [[a|e|] s'] eqn:E; cbn; auto.
Qed.

Lemma callTimer_no_throw n id ft dt s e :
  outcome (callTimer nativeTiming dev call n id ft dt) s <> Throw e.
Proof.
  destruct n as [|n]; [done|]. unfold outcome. rewrite callTimer_unfold.
  destruct (index_of _ _) as [i|]; [|done].
  destruct (mjoin (callbacks s !! i)) as [cb|]; [|done].
  destruct (mjoin (types s !! i)) as [ty|]; [|done].
  unfold try_catch. destruct (invoke _ _ _ _ _ _ _ _) as [[[]|e'|] s']; done.
Qed.

(** A stored function that is not a timeout closure does not nest. *)
Lemma invoke_no_nesting rec ty cb ft dt :
  (forall id, cb <> CbIdleTimeout id) -> terminates (invoke nativeTiming call rec ty cb ft dt).
Proof.
  intros Hcb. unfold invoke, run_callback.
  destruct cb; try (js_terminates; done). by destruct (Hcb id).
Qed.

Lemma callTimer_no_nesting n id ft dt s :
  (forall i id', timerIDs s !! i = Some (Some id) -> callbacks s !! i <> Some (Some (CbIdleTimeout id'))) ->
  outcome (callTimer nativeTiming dev call (Datatypes.S n) id ft dt) s <> OutOfFuel.
Proof.
  intros Hid. unfold outcome. rewrite callTimer_unfold.
  destruct (index_of _ _) as [i|] eqn:E; [|done]. apply index_of_Some in E as [E _].
  destruct (mjoin (callbacks s !! i)) as [cb|] eqn:Ec; [|done].
  destruct (mjoin (types s !! i)) as [ty|]; [|done].
  refine (_ : outcome (try_catch _ _) _ <> OutOfFuel).
  apply terminates_try; [|intros e; apply terminates_modify].
  apply invoke_no_nesting. intros id' ->. apply (Hid i id' E).
  destruct (callbacks s !! i) as [[c|]|]; cbn in Ec; congruence.
Qed.

(** Two levels are enough: the function a timeout closure runs is not one itself. *)
Lemma callTimer_fuel n id ft dt s :
  inv s -> outcome (callTimer nativeTiming dev call (NESTING + n) id ft dt) s <> OutOfFuel.
Proof.
  intros Hinv. unfold outcome. cbn [NESTING Nat.add]. rewrite callTimer_unfold.
  destruct (index_of _ _) as [i|] eqn:E; [|done].
  destruct (mjoin (callbacks s !! i)) as [cb|] eqn:Ec; [|done].
  destruct (mjoin (types s !! i)) as [ty|]; [|done].
  pose proof (si_before_callback inv dev id i ty s E Hinv) as Hinv1.
  set (s1 := before_callback i ty (warned dev id s)) in *. clearbody s1.
  assert (H : outcome (invoke nativeTiming call (callTimer nativeTiming dev call (Datatypes.S n))
     ty cb ft dt) s1 <> OutOfFuel).
  2: { unfold outcome, try_catch in *. destruct (invoke _ _ _ _ _ _ _ _) as [[]]; done. }
  destruct (decide (exists id', cb = CbIdleTimeout id')) as [[id' ->]|Hcb].
  2: { apply invoke_no_nesting. naive_solver. }
  assert (H : outcome (run_callback nativeTiming call (callTimer nativeTiming dev call (Datatypes.S n))
     (CbIdleTimeout id') (Args [])) s1 <> OutOfFuel).
  2: { by destruct ty. }
  cbn [run_callback]. unfold outcome. rewrite bind_gets.
  refine (_ : outcome (bind _ _) s1 <> OutOfFuel). apply bind_no_oof.
  2: { intros a s' _. js_terminates. }
  destruct (index_of id' (requestIdleCallbacks s1)) as [j|] eqn:Ej; [|done].
  unfold spliceIdle. unfold outcome. rewrite bind_modify, bind_gets.
  apply callTimer_no_nesting. cbn. intros k id''. eapply (inv_idle s1 Hinv1).
  apply index_of_Some in Ej as [Ej _]. by eapply list_elem_of_lookup_2.
Qed.
End termination.

(** ** Theorems *)
Section theorems.
Context {V W : Type}.
Abbreviation S := (st V W).
Context (nativeTiming dev is_android : bool) (call : nat -> call_args V -> JS S unit).
Implicit Types s : S.

(** C36. Every operation of the module, and every entry point native calls, keeps
    the timer tables consistent, provided client code does. *)
Theorem timer_operations_keep_inv func d t args id ids ft n :
  (forall f a, preserves inv (call f a)) ->
  preserves (@inv V W) (setTimeout nativeTiming dev is_android func d args) /\
  preserves (@inv V W) (setInterval nativeTiming dev is_android func d args) /\
  preserves (@inv V W) (setImmediate func args) /\
  preserves (@inv V W) (requestAnimationFrame nativeTiming func) /\
  preserves (@inv V W) (requestIdleCallback nativeTiming dev is_android func t) /\
  preserves (@inv V W) (clearTimeout nativeTiming (Some id)) /\
  preserves (@inv V W) (clearImmediate nativeTiming id) /\
  preserves (@inv V W) (cancelIdleCallback nativeTiming id) /\
  preserves inv (callTimers nativeTiming dev is_android call ids) /\
  preserves inv (callIdleCallbacks nativeTiming dev is_android call ft) /\
  preserves inv (callImmediates nativeTiming dev is_android call n).
Proof.
  intros Hc. split_and!.
  - apply si_set_timer, _.
  - apply si_set_timer, _.
  - apply si_setImmediate, _.
  - apply si_requestAnimationFrame, _.
  - apply si_requestIdleCallback, _.
  - apply si_freeCallback, _.
  - apply si_clearImmediate, _.
  - apply si_cancelIdleCallback, _.
  - by apply si_callTimers; [apply _|].
  - by apply si_callIdleCallbacks; [apply _|].
  - by apply si_callImmediates; [apply _|].
Qed.

Lemma clear_index_dead id i s :
  inv s -> timerIDs s !! i = Some (Some id) -> dead id (final (clearIndex i) s).
Proof.
  intros Hinv Hi. pose proof (inv_ids s Hinv i id Hi) as [? _].
  assert (Hlt : i < length (timerIDs s)) by (by apply lookup_lt_Some in Hi).
  split; [|cbn; lia]. cbn. intros [j Hj]%list_elem_of_lookup.
  apply set_at_lookup_Some in Hj as [[_ ?]|[Hne Hj]]; [done| |lia].
  apply Hne. by eapply (inv_inj s Hinv).
Qed.

Lemma callTimer_dead n id ft dt s :
  dead id s -> callTimer nativeTiming dev call (Datatypes.S n) id ft dt s = (Ret tt, s).
Proof.
  intros [Hd Hlt]. rewrite callTimer_unfold. apply index_of_None in Hd as ->.
  unfold warned. by rewrite (proj2 (Z.leb_le id (GUID s))), andb_false_r by lia.
Qed.


(** A one-shot timer (anything but [setInterval]) fires at most once: its
    function runs with the identifier already dead, and it is still dead when
    [_callTimer] is done, so every later call of the identifier does nothing. *)
Theorem one_shot_fires_at_most_once n id ft dt s i ty cb :
  inv s -> (forall f a, preserves (dead id) (call f a)) ->
  timerIDs s !! i = Some (Some id) -> types s !! i = Some (Some ty) ->
  callbacks s !! i = Some (Some cb) -> ty <> TySetInterval ->
  exists s1, dead id s1 /\ world s1 = world s /\
    callTimer nativeTiming dev call (Datatypes.S n) id ft dt s =
      try_catch (invoke nativeTiming call (callTimer nativeTiming dev call n) ty cb ft dt)
        record_error s1 /\
    dead id (final (callTimer nativeTiming dev call (Datatypes.S n) id ft dt) s).
Proof.
  intros Hinv Hc Hi Ht Hcb Hty.
  assert (E : index_of (Some id) (timerIDs s) = Some i).
  { destruct (index_of (Some id) (timerIDs s)) as [j|] eqn:E.
    - apply index_of_Some in E as [E _]. f_equal. by eapply (inv_inj s Hinv).
    - apply index_of_None in E. destruct E. by eapply list_elem_of_lookup_2. }
  pose proof (inv_ids s Hinv i id Hi) as [? _].
  assert (Hw : warned dev id s = s).
  { unfold warned. by rewrite (proj2 (Z.leb_le id (GUID s))), andb_false_r by lia. }
  assert (Hd : dead id (before_callback i ty s)).
  { unfold before_callback. rewrite bool_decide_false by done. by apply clear_index_dead. }
  exists (before_callback i ty s). unfold final. rewrite callTimer_unfold, E, Hcb, Ht, Hw.
  split_and!; try done.
  - unfold before_callback. by destruct (negb _).
  - cbn. refine (_ : dead id (final (try_catch _ _) _)).
    apply (evolves_try (keeps (dead id))); [|intros e; by apply si_record_error, _|done].
    apply si_invoke; [apply _|done|]. intros. by apply si_callTimer; [apply _|].
Qed.

(** Running the timers one after the other, whatever each of them does. *)
Lemma run_all_timers ids s :
  (forall f a, preserves inv (call f a)) -> (forall f a, terminates (call f a)) -> inv s ->
  for_each ids (fun id => callTimer nativeTiming dev call NESTING id 0%Q false) s =
    (Ret tt, foldl (fun s id => final (callTimer nativeTiming dev call NESTING id 0%Q false) s) s ids).
Proof.
  intros Hc Ht. revert s. induction ids as [|id ids IH]; intros s Hinv; [done|]. cbn [for_each foldl].
  pose proof (callTimer_fuel nativeTiming dev call Ht 0 id 0%Q false s Hinv) as H1.
  pose proof (fun e => callTimer_no_throw nativeTiming dev call NESTING id 0%Q false s e) as H2.
  pose proof (si_callTimer inv nativeTiming dev call Hc NESTING id 0%Q false s Hinv) as H3.
  unfold outcome, final in *. rewrite Nat.add_0_r in H1.
  destruct (callTimer _ _ _ _ _ _ _ s) as [[[]|e|] s1] eqn:E; cbn [fst snd] in *;
    [|by destruct (H2 e)|done].
  rewrite (bind_of _ _ _ _ _ E). by apply IH.
Qed.

Lemma rethrow_later_returns es s :
  nativeTiming = true -> exists y, rethrow_later nativeTiming dev is_android es s = (Ret tt, y).
Proof.
  intros Hnt. revert s. induction es as [|e es IH]; intros x; [by eexists|].
  unfold rethrow_later in *. cbn [for_each].
  assert (Hs : exists z, (let! _ := set_timer nativeTiming dev is_android false
    (fun _ => CbRethrow e) (Some 0%Q) in ret tt) x = (Ret tt, z)).
  { unfold set_timer, createTimer. rewrite Hnt. cbn.
    destruct (dev && is_android); eexists; reflexivity. }
  destruct Hs as [z Hz]. destruct (IH z) as [y Hy]. exists y.
  by rewrite (bind_of _ _ _ _ _ Hz).
Qed.

(** An exception in one timer does not keep the others from running: all of
    them run, the first exception is what [callTimers] throws in the end, and each
    other one is scheduled to be thrown from a timer of its own. *)
Theorem callTimers_runs_all ids s :
  (forall f a, preserves inv (call f a)) -> (forall f a, terminates (call f a)) ->
  inv s -> ids <> [] -> nativeTiming = true ->
  let s1 := foldl (fun s id => final (callTimer nativeTiming dev call NESTING id 0%Q false) s)
              (set_errors None s) ids in
  callTimers nativeTiming dev is_android call ids s =
  match errors s1 with
  | None | Some [] => (Ret tt, s1)
  | Some (e :: es) => (Throw e, final (rethrow_later nativeTiming dev is_android es) s1)
  end.
Proof.
  intros Hc Ht Hinv Hids Hnt s1. unfold callTimers. rewrite bool_decide_false by done.
  cbn [negb invariant]. rewrite bind_ret, bind_modify.
  rewrite (bind_of _ _ _ tt s1).
  2: { apply run_all_timers; try done. eapply inv_frame; [..|exact Hinv]; done. }
  rewrite bind_gets. destruct (errors s1) as [[|e es]|]; try done.
  destruct (rethrow_later_returns es s1 Hnt) as [y Hy]. unfold bind, final. by rewrite Hy.
Qed.

(** Client code that schedules no immediate. *)
Definition no_immediates (s : S) : Prop := immediates s = [].

Lemma callTimer_no_immediates k id ft dt :
  (forall f a, preserves no_immediates (call f a)) ->
  preserves no_immediates (callTimer nativeTiming dev call k id ft dt).
Proof.
  intros Hc. revert id ft dt. induction k as [|k IH]; intros id ft dt; [cbn; js_auto|].
  cbn [callTimer].
  unfold clearIndex, record_error, invoke, run_callback, dropIdleTimeout, spliceIdle,
    stopIdleEvents, setSendIdleEvents, clearTimeout, freeCallback, deleteTimer, clearIndex, log.
  js_auto; apply evolves_modify; by intros x Hx.
Qed.

Lemma quiet_pass s :
  (forall f a, preserves inv (call f a)) -> (forall f a, terminates (call f a)) ->
  (forall f a, preserves no_immediates (call f a)) -> inv s ->
  exists y, callImmediatesPass nativeTiming dev call s = (Ret false, y) /\ immediates y = [].
Proof.
  intros Hc Ht Him Hx. unfold callImmediatesPass. rewrite bind_gets.
  destruct (immediates s) as [|j js] eqn:Ei; [by eexists|]. rewrite bind_modify.
  assert (Hx0 : inv (set_immediates [] s)) by (eapply inv_frame; [..|exact Hx]; done).
  rewrite (bind_of _ _ _ _ _ (run_all_timers (j :: js) _ Hc Ht Hx0)).
  set (y := foldl _ _ _).
  assert (Hy : no_immediates y).
  { apply (keeps_foldl no_immediates); [|done]. intros k. by apply callTimer_no_immediates. }
  exists y. unfold gets. unfold no_immediates in Hy. by rewrite Hy.
Qed.

(** The entry points terminate: the bound on nested [_callTimer]s suffices in
    every consistent state, and when the immediates schedule no further immediate a
    single pass empties the queue. *)
Theorem entry_points_terminate ids n s :
  (forall f a, preserves inv (call f a)) -> (forall f a, terminates (call f a)) ->
  (forall f a, preserves no_immediates (call f a)) -> inv s ->
  outcome (callTimers nativeTiming dev is_android call ids) s <> OutOfFuel /\
  outcome (callImmediates nativeTiming dev is_android call (1 + n)) s <> OutOfFuel /\
  immediates (final (while_true (1 + n) (callImmediatesPass nativeTiming dev call)) s) = [].
Proof.
  intros Hc Ht Him Hinv.
  assert (Hinv0 : inv (set_errors None s)) by (eapply inv_frame; [..|exact Hinv]; done).
  split_and!.
  - unfold callTimers, outcome. destruct (bool_decide (ids = [])); [done|].
    cbn [negb invariant]. rewrite bind_ret, bind_modify.
    rewrite (bind_of _ _ _ _ _ (run_all_timers ids _ Hc Ht Hinv0)), bind_gets.
    case_match; [|done]. case_match; [done|].
    refine (_ : outcome (bind _ _) _ <> OutOfFuel). apply bind_no_oof; [|done].
    apply terminates_rethrow_later.
  - unfold callImmediates, outcome. rewrite bind_modify.
    destruct (quiet_pass (set_errors None s)) as (y & Hy & _); [done..|].
    cbn [Nat.add while_true]. rewrite bind_assoc, (bind_of _ _ _ _ _ Hy), bind_ret, bind_gets.
    case_match; [|done]. apply terminates_rethrow_later.
  - destruct (quiet_pass s) as (y & Hy & Hi); [done..|]. cbn [Nat.add while_true].
    unfold final. by rewrite (bind_of _ _ _ _ _ Hy).
Qed.
End theorems.

(** ** Instances: functions that log themselves; function 7 throws *)
Section instances.
Definition demo_call (f : nat) (a : call_args Z) : JS (st Z (list nat)) unit :=
  if decide (f = 7) then throw (UserError 7)
  else modify (fun s => set_world (world s ++ [f]) s).
Definition demo_setup : JS (st Z (list nat)) unit :=
  let! a := setTimeout true true false 1 (Some 10%Q) [] in
  let! b := setTimeout true true false 7 None [] in
  let! c := setInterval true true false 3 (Some 5%Q) [] in
  let! d := requestIdleCallback true true false 4 (Some 50%Q) in
  let! e := setImmediate 5 [] in
  clearTimeout true (Some a).
Definition demo0 : st Z (list nat) := init 0%Q 0 [].
Definition demo : st Z (list nat) := final demo_setup demo0.

Lemma demo_call_si (P : st Z (list nat) -> Prop) `{!slot_invariant P} f a :
  preserves P (demo_call f a).
Proof. unfold demo_call. case_decide; [js_auto|]. by apply si_modify; [apply _|intros s]. Qed.
Lemma demo_call_terminates f a : terminates (demo_call f a).
Proof. unfold demo_call. js_terminates. Qed.

Lemma inv_init : inv demo0.
Proof.
  split; cbn; try done; try lia; intros *; rewrite ?lookup_nil; try done;
    by intros H%not_elem_of_nil.
Qed.
Lemma inv_demo : inv demo.
Proof.
  assert (H : preserves inv demo_setup).
  { unfold demo_setup.
    repeat (simple apply evolves_bind; [try apply _| |intros ?]).
    - apply si_set_timer, _.
    - apply si_set_timer, _.
    - apply si_set_timer, _.
    - apply si_requestIdleCallback, _.
    - apply si_setImmediate, _.
    - apply si_freeCallback, _. }
  apply H, inv_init.
Qed.

Lemma timer_operations_keep_inv_witness :
  inv (final (callTimers true true false demo_call [2%Z; 3%Z]) demo).
Proof.
  destruct (timer_operations_keep_inv true true false demo_call 0 None None [] 0
    [2%Z; 3%Z] 0%Q 0) as (_ & _ & _ & _ & _ & _ & _ & _ & H & _).
  - intros f a. apply demo_call_si, _.
  - apply H, inv_demo.
Defined.


Lemma one_shot_fires_at_most_once_witness :
  exists s1, dead 2 s1 /\ world s1 = [] /\
    callTimer true true demo_call 2 2 0%Q false demo =
      try_catch (invoke true demo_call (callTimer true true demo_call 1) TySetTimeout
        (CbApply 7 []) 0%Q false) record_error s1 /\
    dead 2 (final (callTimer true true demo_call 2 2 0%Q false) demo).
Proof.
  apply (one_shot_fires_at_most_once true true demo_call 1 2 0%Q false demo 1 TySetTimeout
           (CbApply 7 [])); try reflexivity.
  - apply inv_demo.
  - intros f a. apply demo_call_si, _.
  - discriminate.
Defined.

Lemma callTimers_runs_all_witness :
  outcome (callTimers true true false demo_call [2%Z; 3%Z]) demo = Throw (UserError 7).
Proof.
  unfold outcome. rewrite (callTimers_runs_all true true false demo_call [2%Z; 3%Z] demo).
  - reflexivity.
  - intros f a. apply demo_call_si, _.
  - intros f a. apply demo_call_terminates.
  - apply inv_demo.
  - discriminate.
  - reflexivity.
Defined.

Lemma entry_points_terminate_witness :
  immediates (final (while_true 1 (callImmediatesPass true true demo_call)) demo) = [].
Proof.
  destruct (entry_points_terminate true true false demo_call [] 0 demo) as (_ & _ & H).
  - intros f a. apply demo_call_si, _.
  - intros f a. apply demo_call_terminates.
  - intros f a. unfold demo_call. case_decide; [js_auto|]. apply evolves_modify. by intros s Hs.
  - apply inv_demo.
  - exact H.
Defined.
End instances.
