(* ===== verification/Pressability.v ===== *)
(** * Pressability

    Libraries/Pressability/Pressability.js: the press recogniser behind Pressable and
    the Touchables.  The fields of the class are the record [st]; the transition
    table, the signal handler with its side effects, the timers and the event
    handlers are definitions over it.

    [setTimeout] and [clearTimeout] act on [timers], the closures that are pending
    (their own contract is the subject of Timers.v): [fire] runs one of them, in any
    order.  [now] is what [Date.now()] returns.  Handlers of the configuration are
    functions of client code, the parameter [call]; [trace] records which handler was
    called.  Measuring is asynchronous: [Measure] is recorded in [trace] and the
    answer is the operation [measureCallback].  Coordinates and times are rationals. *)
From S2P Require Import Prelude Rationals.
From stdpp Require Import base numbers list strings gmap fin_maps.
From Stdlib Require Import QArith.
Open Scope nat_scope.

Inductive touch_state :=
  | NOT_RESPONDER
  | RESPONDER_INACTIVE_PRESS_IN
  | RESPONDER_INACTIVE_PRESS_OUT
  | RESPONDER_ACTIVE_PRESS_IN
  | RESPONDER_ACTIVE_PRESS_OUT
  | RESPONDER_ACTIVE_LONG_PRESS_IN
  | RESPONDER_ACTIVE_LONG_PRESS_OUT
  | ERROR.
Inductive touch_signal :=
  | DELAY
  | RESPONDER_GRANT
  | RESPONDER_RELEASE
  | RESPONDER_TERMINATED
  | ENTER_PRESS_RECT
  | LEAVE_PRESS_RECT
  | LONG_PRESS_DETECTED.
#[export] Instance touch_state_eq_dec : EqDecision touch_state.
Proof. solve_decision. Defined.
#[export] Instance touch_signal_eq_dec : EqDecision touch_signal.
Proof. solve_decision. Defined.

(** The table [Transitions]. *)
Definition Transitions (state : touch_state) (signal : touch_signal) : touch_state :=
  match state, signal with
  | NOT_RESPONDER, RESPONDER_GRANT => RESPONDER_INACTIVE_PRESS_IN
  | NOT_RESPONDER, _ => ERROR
  | RESPONDER_INACTIVE_PRESS_IN, DELAY => RESPONDER_ACTIVE_PRESS_IN
  | RESPONDER_INACTIVE_PRESS_OUT, DELAY => RESPONDER_ACTIVE_PRESS_OUT
  | (RESPONDER_INACTIVE_PRESS_IN | RESPONDER_INACTIVE_PRESS_OUT), ENTER_PRESS_RECT =>
      RESPONDER_INACTIVE_PRESS_IN
  | (RESPONDER_INACTIVE_PRESS_IN | RESPONDER_INACTIVE_PRESS_OUT), LEAVE_PRESS_RECT =>
      RESPONDER_INACTIVE_PRESS_OUT
  | (RESPONDER_ACTIVE_PRESS_IN | RESPONDER_ACTIVE_PRESS_OUT), ENTER_PRESS_RECT =>
      RESPONDER_ACTIVE_PRESS_IN
  | (RESPONDER_ACTIVE_PRESS_IN | RESPONDER_ACTIVE_PRESS_OUT), LEAVE_PRESS_RECT =>
      RESPONDER_ACTIVE_PRESS_OUT
  | RESPONDER_ACTIVE_PRESS_IN, LONG_PRESS_DETECTED => RESPONDER_ACTIVE_LONG_PRESS_IN
  | (RESPONDER_ACTIVE_LONG_PRESS_IN | RESPONDER_ACTIVE_LONG_PRESS_OUT), ENTER_PRESS_RECT =>
      RESPONDER_ACTIVE_LONG_PRESS_IN
  | (RESPONDER_ACTIVE_LONG_PRESS_IN | RESPONDER_ACTIVE_LONG_PRESS_OUT), LEAVE_PRESS_RECT =>
      RESPONDER_ACTIVE_LONG_PRESS_OUT
  | RESPONDER_ACTIVE_LONG_PRESS_IN, LONG_PRESS_DETECTED => RESPONDER_ACTIVE_LONG_PRESS_IN
  | ERROR, RESPONDER_GRANT => RESPONDER_INACTIVE_PRESS_IN
  | ERROR, _ => NOT_RESPONDER
  | _, (RESPONDER_RELEASE | RESPONDER_TERMINATED) => NOT_RESPONDER
  | _, _ => ERROR
  end.

Definition isActiveSignal (x : touch_state) : bool :=
  bool_decide (x = RESPONDER_ACTIVE_PRESS_IN) ||
  bool_decide (x = RESPONDER_ACTIVE_LONG_PRESS_IN).
Definition isActivationSignal (x : touch_state) : bool :=
  bool_decide (x = RESPONDER_ACTIVE_PRESS_OUT) || bool_decide (x = RESPONDER_ACTIVE_PRESS_IN).
Definition isPressInSignal (x : touch_state) : bool :=
  bool_decide (x = RESPONDER_INACTIVE_PRESS_IN) ||
  bool_decide (x = RESPONDER_ACTIVE_PRESS_IN) ||
  bool_decide (x = RESPONDER_ACTIVE_LONG_PRESS_IN).
Definition isTerminalSignal (x : touch_signal) : bool :=
  bool_decide (x = RESPONDER_TERMINATED) || bool_decide (x = RESPONDER_RELEASE).

Definition DEFAULT_LONG_PRESS_DELAY_MS : Q := 500%Q.
Definition DEFAULT_MIN_PRESS_DURATION : Q := 130%Q.

(** Libraries/StyleSheet/Rect.js. *)
Record rect := {
  r_bottom : option Q; r_left : option Q; r_right : option Q; r_top : option Q
}.
Inductive rect_or_size := RRect (r : rect) | RSize (size : Q).
Definition createSquare (size : Q) : rect :=
  Build_rect (Some size) (Some size) (Some size) (Some size).
Definition normalizeRect (rectOrSize : option rect_or_size) : option rect :=
  match rectOrSize with
  | Some (RSize size) => Some (createSquare size)
  | Some (RRect r) => Some r
  | None => None
  end.

Definition normalizeDelay (delay : option Q) (min fallback : Q) : Q :=
  Qmaxb min (default fallback delay).

Record touch := { pageX : Q; pageY : Q }.
(** An event; [own] is [nativeEvent] itself seen as a touch. *)
Record event := {
  ev_id : nat;
  touches : option (list touch);
  changedTouches : option (list touch);
  own : touch;
  currentTarget : nat
}.
Definition getTouchFromPressEvent (e : event) : touch :=
  match touches e with
  | Some (t :: _) => t
  | _ => match changedTouches e with Some (t :: _) => t | _ => own e end
  end.

(** [PressabilityConfig]; a handler is a function of client code. *)
Record config := {
  cancelable : option bool; disabled : option bool;
  hitSlop : option rect_or_size; pressRectOffset : option rect_or_size;
  android_disableSound : option bool;
  delayHoverIn : option Q; delayHoverOut : option Q; delayLongPress : option Q;
  delayPressIn : option Q; delayPressOut : option Q; minPressDuration : option Q;
  onBlur : option nat; onFocus : option nat; onKeyDown : option nat; onKeyUp : option nat;
  onHoverIn : option nat; onHoverOut : option nat; onLongPress : option nat;
  onPress : option nat; onPressIn : option nat; onPressMove : option nat;
  onPressOut : option nat;
  onLongPressShouldCancelPress : option nat; onResponderTerminationRequest_D : option nat;
  onStartShouldSetResponder_D : option nat
}.

Inductive handler :=
  | HBlur | HFocus | HKeyDown | HKeyUp | HHoverIn | HHoverOut | HLongPress | HPress
  | HPressIn | HPressMove | HPressOut.
#[export] Instance handler_eq_dec : EqDecision handler.
Proof. solve_decision. Defined.

Inductive trace_event :=
  | Called (h : handler) (f : nat) (e : event)
  | Measure (responderID : nat)
  | PlayTouchSound.

(** The closures given to [setTimeout]. *)
Inductive timer_fn :=
  | TPressDelay (e : event)
  | TLongPress (e : event)
  | TPressOut (f : nat) (e : event)
  | THoverIn (f : nat) (e : event)
  | THoverOut (f : nat) (e : event).

Record region := { g_bottom : Q; g_left : Q; g_right : Q; g_top : Q }.

Record st (W : Type) := {
  cfg : config;
  eventHandlers : bool;
  hoverInDelayTimeout : option nat;
  hoverOutDelayTimeout : option nat;
  isHovered : bool;
  longPressDelayTimeout : option nat;
  pressDelayTimeout : option nat;
  pressOutDelayTimeout : option nat;
  responderID : option nat;
  responderRegion : option region;
  touchActivatePosition : option touch;
  touchActivateTime : option Q;
  touchState : touch_state;
  timers : gmap nat timer_fn;
  nextTimer : nat;
  now : Q;
  trace : list trace_event;
  world : W
}.
Arguments cfg {W}. Arguments eventHandlers {W}. Arguments hoverInDelayTimeout {W}. Arguments
hoverOutDelayTimeout {W}. Arguments isHovered {W}. Arguments longPressDelayTimeout {W}.
Arguments pressDelayTimeout {W}. Arguments pressOutDelayTimeout {W}. Arguments responderID
{W}. Arguments responderRegion {W}. Arguments touchActivatePosition {W}. Arguments
touchActivateTime {W}. Arguments touchState {W}. Arguments timers {W}. Arguments nextTimer
{W}. Arguments now {W}. Arguments trace {W}. Arguments world {W}.

Section setters.
Context {W : Type}.
Implicit Types s : st W.
Definition set_cfg x s : st W := Build_st W x (eventHandlers s)
  (hoverInDelayTimeout s) (hoverOutDelayTimeout s) (isHovered s) (longPressDelayTimeout s)
  (pressDelayTimeout s) (pressOutDelayTimeout s) (responderID s) (responderRegion s)
  (touchActivatePosition s) (touchActivateTime s) (touchState s) (timers s) (nextTimer s)
  (now s) (trace s) (world s).
Definition set_eventHandlers x s : st W := Build_st W (cfg s) x
  (hoverInDelayTimeout s) (hoverOutDelayTimeout s) (isHovered s) (longPressDelayTimeout s)
  (pressDelayTimeout s) (pressOutDelayTimeout s) (responderID s) (responderRegion s)
  (touchActivatePosition s) (touchActivateTime s) (touchState s) (timers s) (nextTimer s)
  (now s) (trace s) (world s).
Definition set_hoverInDelayTimeout x s : st W := Build_st W (cfg s) (eventHandlers
  s) x (hoverOutDelayTimeout s) (isHovered s) (longPressDelayTimeout s) (pressDelayTimeout
  s) (pressOutDelayTimeout s) (responderID s) (responderRegion s) (touchActivatePosition s)
  (touchActivateTime s) (touchState s) (timers s) (nextTimer s) (now s) (trace s) (world s).
Definition set_hoverOutDelayTimeout x s : st W := Build_st W (cfg s) (eventHandlers
  s) (hoverInDelayTimeout s) x (isHovered s) (longPressDelayTimeout s) (pressDelayTimeout s)
  (pressOutDelayTimeout s) (responderID s) (responderRegion s) (touchActivatePosition s)
  (touchActivateTime s) (touchState s) (timers s) (nextTimer s) (now s) (trace s) (world s).
Definition set_isHovered x s : st W := Build_st W (cfg s) (eventHandlers s)
  (hoverInDelayTimeout s) (hoverOutDelayTimeout s) x (longPressDelayTimeout s)
  (pressDelayTimeout s) (pressOutDelayTimeout s) (responderID s) (responderRegion s)
  (touchActivatePosition s) (touchActivateTime s) (touchState s) (timers s) (nextTimer s)
  (now s) (trace s) (world s).
Definition set_longPressDelayTimeout x s : st W := Build_st W (cfg s)
  (eventHandlers s) (hoverInDelayTimeout s) (hoverOutDelayTimeout s) (isHovered s) x
  (pressDelayTimeout s) (pressOutDelayTimeout s) (responderID s) (responderRegion s)
  (touchActivatePosition s) (touchActivateTime s) (touchState s) (timers s) (nextTimer s)
  (now s) (trace s) (world s).
Definition set_pressDelayTimeout x s : st W := Build_st W (cfg s) (eventHandlers s)
  (hoverInDelayTimeout s) (hoverOutDelayTimeout s) (isHovered s) (longPressDelayTimeout s) x
  (pressOutDelayTimeout s) (responderID s) (responderRegion s) (touchActivatePosition s)
  (touchActivateTime s) (touchState s) (timers s) (nextTimer s) (now s) (trace s) (world s).
Definition set_pressOutDelayTimeout x s : st W := Build_st W (cfg s) (eventHandlers
  s) (hoverInDelayTimeout s) (hoverOutDelayTimeout s) (isHovered s) (longPressDelayTimeout
  s) (pressDelayTimeout s) x (responderID s) (responderRegion s) (touchActivatePosition s)
  (touchActivateTime s) (touchState s) (timers s) (nextTimer s) (now s) (trace s) (world s).
Definition set_responderID x s : st W := Build_st W (cfg s) (eventHandlers s)
  (hoverInDelayTimeout s) (hoverOutDelayTimeout s) (isHovered s) (longPressDelayTimeout s)
  (pressDelayTimeout s) (pressOutDelayTimeout s) x (responderRegion s)
  (touchActivatePosition s) (touchActivateTime s) (touchState s) (timers s) (nextTimer s)
  (now s) (trace s) (world s).
Definition set_responderRegion x s : st W := Build_st W (cfg s) (eventHandlers s)
  (hoverInDelayTimeout s) (hoverOutDelayTimeout s) (isHovered s) (longPressDelayTimeout s)
  (pressDelayTimeout s) (pressOutDelayTimeout s) (responderID s) x (touchActivatePosition s)
  (touchActivateTime s) (touchState s) (timers s) (nextTimer s) (now s) (trace s) (world s).
Definition set_touchActivatePosition x s : st W := Build_st W (cfg s)
  (eventHandlers s) (hoverInDelayTimeout s) (hoverOutDelayTimeout s) (isHovered s)
  (longPressDelayTimeout s) (pressDelayTimeout s) (pressOutDelayTimeout s) (responderID s)
  (responderRegion s) x (touchActivateTime s) (touchState s) (timers s) (nextTimer s) (now
  s) (trace s) (world s).
Definition set_touchActivateTime x s : st W := Build_st W (cfg s) (eventHandlers s)
  (hoverInDelayTimeout s) (hoverOutDelayTimeout s) (isHovered s) (longPressDelayTimeout s)
  (pressDelayTimeout s) (pressOutDelayTimeout s) (responderID s) (responderRegion s)
  (touchActivatePosition s) x (touchState s) (timers s) (nextTimer s) (now s) (trace s)
  (world s).
Definition set_touchState x s : st W := Build_st W (cfg s) (eventHandlers s)
  (hoverInDelayTimeout s) (hoverOutDelayTimeout s) (isHovered s) (longPressDelayTimeout s)
  (pressDelayTimeout s) (pressOutDelayTimeout s) (responderID s) (responderRegion s)
  (touchActivatePosition s) (touchActivateTime s) x (timers s) (nextTimer s) (now s) (trace
  s) (world s).
Definition set_timers x s : st W := Build_st W (cfg s) (eventHandlers s)
  (hoverInDelayTimeout s) (hoverOutDelayTimeout s) (isHovered s) (longPressDelayTimeout s)
  (pressDelayTimeout s) (pressOutDelayTimeout s) (responderID s) (responderRegion s)
  (touchActivatePosition s) (touchActivateTime s) (touchState s) x (nextTimer s) (now s)
  (trace s) (world s).
Definition set_nextTimer x s : st W := Build_st W (cfg s) (eventHandlers s)
  (hoverInDelayTimeout s) (hoverOutDelayTimeout s) (isHovered s) (longPressDelayTimeout s)
  (pressDelayTimeout s) (pressOutDelayTimeout s) (responderID s) (responderRegion s)
  (touchActivatePosition s) (touchActivateTime s) (touchState s) (timers s) x (now s) (trace
  s) (world s).
Definition set_now x s : st W := Build_st W (cfg s) (eventHandlers s)
  (hoverInDelayTimeout s) (hoverOutDelayTimeout s) (isHovered s) (longPressDelayTimeout s)
  (pressDelayTimeout s) (pressOutDelayTimeout s) (responderID s) (responderRegion s)
  (touchActivatePosition s) (touchActivateTime s) (touchState s) (timers s) (nextTimer s) x
  (trace s) (world s).
Definition set_trace x s : st W := Build_st W (cfg s) (eventHandlers s)
  (hoverInDelayTimeout s) (hoverOutDelayTimeout s) (isHovered s) (longPressDelayTimeout s)
  (pressDelayTimeout s) (pressOutDelayTimeout s) (responderID s) (responderRegion s)
  (touchActivatePosition s) (touchActivateTime s) (touchState s) (timers s) (nextTimer s)
  (now s) x (world s).
Definition set_world x s : st W := Build_st W (cfg s) (eventHandlers s)
  (hoverInDelayTimeout s) (hoverOutDelayTimeout s) (isHovered s) (longPressDelayTimeout s)
  (pressDelayTimeout s) (pressOutDelayTimeout s) (responderID s) (responderRegion s)
  (touchActivatePosition s) (touchActivateTime s) (touchState s) (timers s) (nextTimer s)
  (now s) (trace s) x.
End setters.

Section pressability.
Context {W : Type}.
Abbreviation S := (st W).
Context (call : nat -> event -> JS S unit) (ask : nat -> JS S bool).
Context (is_android hoverEnabled mouse : bool).

Definition log (e : trace_event) : JS S unit := modify (fun s => set_trace (trace s ++ [e]) s).
Definition set_timeout (f : timer_fn) : JS S nat :=
  let! id := gets nextTimer in
  do! modify (fun s => set_nextTimer (id + 1) (set_timers (<[id := f]> (timers s)) s));
  ret id.
Definition clear_timeout (id : nat) : JS S unit :=
  modify (fun s => set_timers (delete id (timers s)) s).

(** [const {h} = this._config; if (h != null) h(event)]. *)
Definition call_handler (h : handler) (f : nat) (e : event) : JS S unit :=
  do! log (Called h f e); call f e.
Definition call_optional (h : handler) (get : config -> option nat) (e : event) : JS S unit :=
  let! f := gets (fun s => get (cfg s)) in
  match f with Some f => call_handler h f e | None => ret tt end.

Definition new_Pressability (c : config) (now0 : Q) (w : W) : S :=
  Build_st W c false None None false None None None None None None None NOT_RESPONDER
    ∅ 0 now0 [] w.
Definition configure (c : config) : JS S unit := modify (set_cfg c).

Definition cancelHoverInDelayTimeout : JS S unit :=
  let! t := gets hoverInDelayTimeout in
  match t with None => ret tt | Some id => do! clear_timeout id; modify (set_hoverInDelayTimeout None) end.
Definition cancelHoverOutDelayTimeout : JS S unit :=
  let! t := gets hoverOutDelayTimeout in
  match t with None => ret tt | Some id => do! clear_timeout id; modify (set_hoverOutDelayTimeout None) end.
Definition cancelLongPressDelayTimeout : JS S unit :=
  let! t := gets longPressDelayTimeout in
  match t with None => ret tt | Some id => do! clear_timeout id; modify (set_longPressDelayTimeout None) end.
Definition cancelPressDelayTimeout : JS S unit :=
  let! t := gets pressDelayTimeout in
  match t with None => ret tt | Some id => do! clear_timeout id; modify (set_pressDelayTimeout None) end.
Definition cancelPressOutDelayTimeout : JS S unit :=
  let! t := gets pressOutDelayTimeout in
  match t with None => ret tt | Some id => do! clear_timeout id; modify (set_pressOutDelayTimeout None) end.

Definition reset : JS S unit :=
  do! cancelHoverInDelayTimeout;
  do! cancelHoverOutDelayTimeout;
  do! cancelLongPressDelayTimeout;
  do! cancelPressDelayTimeout;
  cancelPressOutDelayTimeout.

Definition getEventHandlers : JS S unit := modify (set_eventHandlers true).

Definition activate (e : event) : JS S unit :=
  do! modify (fun s => set_touchActivateTime (Some (now s))
        (set_touchActivatePosition (Some (getTouchFromPressEvent e)) s));
  call_optional HPressIn onPressIn e.

Definition deactivate (e : event) : JS S unit :=
  let! c := gets cfg in
  do! (match onPressOut c with
       | None => ret tt
       | Some f =>
           let! delay := gets (fun s =>
             let minDuration := normalizeDelay (minPressDuration c) 0 DEFAULT_MIN_PRESS_DURATION in
             let pressDuration := (now s - default 0 (touchActivateTime s))%Q in
             Qmaxb (minDuration - pressDuration)%Q (normalizeDelay (delayPressOut c) 0 0)) in
           if Qltb 0 delay then
             let! id := set_timeout (TPressOut f e) in
             modify (set_pressOutDelayTimeout (Some id))
           else call_handler HPressOut f e
       end);
  modify (set_touchActivateTime None).

Definition measureResponderRegion : JS S unit :=
  let! r := gets responderID in
  match r with None => ret tt | Some r => log (Measure r) end.

Definition Qzero (q : Q) : bool := Qeq_bool q 0.
Definition measureCallback (left top width height pX pY : Q) : JS S unit :=
  if Qzero left && Qzero top && Qzero width && Qzero height && Qzero pX && Qzero pY then ret tt
  else modify (set_responderRegion (Some (Build_region (pY + height) pX (pX + width) pY)%Q)).

(** The press rectangle: the measured region, widened by [hitSlop] and by
    [pressRectOffset] or its defaults (30 below, 20 on the other sides). *)
Definition press_rect (c : config) (g : region) : region :=
  let slop := normalizeRect (hitSlop c) in
  let off := normalizeRect (pressRectOffset c) in
  let sl (f : rect -> option Q) : Q := default 0%Q (slop ≫= f) in
  let os (f : rect -> option Q) (d : Q) : Q := default d (off ≫= f) in
  Build_region (g_bottom g + sl r_bottom + os r_bottom 30)%Q
               (g_left g - sl r_left - os r_left 20)%Q
               (g_right g + sl r_right + os r_right 20)%Q
               (g_top g - sl r_top - os r_top 20)%Q.
Definition isTouchWithinResponderRegion (c : config) (t : touch) (g : region) : bool :=
  let p := press_rect c g in
  Qltb (g_left p) (pageX t) && Qltb (pageX t) (g_right p) &&
  Qltb (g_top p) (pageY t) && Qltb (pageY t) (g_bottom p).

Definition shouldLongPressCancelPress : JS S bool :=
  let! f := gets (fun s => onLongPressShouldCancelPress (cfg s)) in
  match f with None => ret true | Some f => ask f end.

(** The release of a press inside the rectangle. *)
Definition press_on_release (prevState nextState : touch_state) (e : event) : JS S unit :=
  let! c := gets cfg in
  match onPress c with
  | None => ret tt
  | Some f =>
      let! canceled :=
        (if bool_decide (is_Some (onLongPress c)) &&
            bool_decide (prevState = RESPONDER_ACTIVE_LONG_PRESS_IN)
         then shouldLongPressCancelPress else ret false) in
      if canceled then ret tt
      else
        do! when (negb (isActiveSignal nextState) && negb (isActiveSignal prevState))
              (do! activate e; deactivate e);
        do! when (is_android && negb (default false (android_disableSound c))) (log PlayTouchSound);
        call_handler HPress f e
  end.

Definition performTransitionSideEffects (prevState nextState : touch_state)
    (signal : touch_signal) (e : event) : JS S unit :=
  do! when (isTerminalSignal signal)
        (do! modify (set_touchActivatePosition None); cancelLongPressDelayTimeout);
  let isInitialTransition :=
    bool_decide (prevState = NOT_RESPONDER) && bool_decide (nextState = RESPONDER_INACTIVE_PRESS_IN) in
  let isActivationTransition :=
    negb (isActivationSignal prevState) && isActivationSignal nextState in
  do! when (isInitialTransition || isActivationTransition) measureResponderRegion;
  do! when (isPressInSignal prevState && bool_decide (signal = LONG_PRESS_DETECTED))
        (call_optional HLongPress onLongPress e);
  let isPrevActive := isActiveSignal prevState in
  let isNextActive := isActiveSignal nextState in
  do! (if negb isPrevActive && isNextActive then activate e
       else if isPrevActive && negb isNextActive then deactivate e
       else ret tt);
  do! when (isPressInSignal prevState && bool_decide (signal = RESPONDER_RELEASE))
        (press_on_release prevState nextState e);
  cancelPressDelayTimeout.

Definition receiveSignal (signal : touch_signal) (e : event) : JS S unit :=
  let! prevState := gets touchState in
  let nextState := Transitions prevState signal in
  let! r := gets responderID in
  if bool_decide (r = None) && bool_decide (signal = RESPONDER_RELEASE) then ret tt
  else
    do! invariant (negb (bool_decide (nextState = ERROR)))
          "Pressability: Invalid signal `%s` for state `%s` on responder: %s";
    if bool_decide (prevState = nextState) then ret tt
    else
      do! performTransitionSideEffects prevState nextState signal e;
      modify (set_touchState nextState).

Definition handleLongPress (e : event) : JS S unit :=
  let! x := gets touchState in
  if bool_decide (x = RESPONDER_ACTIVE_PRESS_IN) || bool_decide (x = RESPONDER_ACTIVE_LONG_PRESS_IN)
  then receiveSignal LONG_PRESS_DETECTED e else ret tt.

(** The event handlers of [_createEventHandlers]. *)
Definition handle_onBlur (e : event) : JS S unit := call_optional HBlur onBlur e.
Definition handle_onFocus (e : event) : JS S unit := call_optional HFocus onFocus e.
Definition handle_onKeyDown (e : event) : JS S unit := call_optional HKeyDown onKeyDown e.
Definition handle_onKeyUp (e : event) : JS S unit := call_optional HKeyUp onKeyUp e.
Definition handle_onClick (e : event) : JS S unit := call_optional HPress onPress e.

Definition onStartShouldSetResponder : JS S bool :=
  let! c := gets cfg in
  match disabled c with
  | Some d => ret (negb d)
  | None => match onStartShouldSetResponder_D c with None => ret true | Some f => ask f end
  end.
Definition onResponderTerminationRequest : JS S bool :=
  let! c := gets cfg in
  match cancelable c with
  | Some b => ret b
  | None => match onResponderTerminationRequest_D c with None => ret true | Some f => ask f end
  end.

Definition onResponderGrant (e : event) : JS S unit :=
  do! cancelPressOutDelayTimeout;
  do! modify (fun s => set_touchState NOT_RESPONDER (set_responderID (Some (currentTarget e)) s));
  do! receiveSignal RESPONDER_GRANT e;
  let! delayIn := gets (fun s => normalizeDelay (delayPressIn (cfg s)) 0 0) in
  do! (if Qltb 0 delayIn then
         let! id := set_timeout (TPressDelay e) in modify (set_pressDelayTimeout (Some id))
       else receiveSignal DELAY e);
  let! id := set_timeout (TLongPress e) in
  modify (set_longPressDelayTimeout (Some id)).

(** [Math.hypot(dx, dy) > 10]. *)
Definition moved_far (a t : touch) : bool :=
  let dx := (pageX a - pageX t)%Q in
  let dy := (pageY a - pageY t)%Q in
  Qltb 100 (dx * dx + dy * dy)%Q.

(** The test [touch == null] of the source never holds: [getTouchFromPressEvent]
    falls back to [event.nativeEvent]. *)
Definition onResponderMove (e : event) : JS S unit :=
  do! call_optional HPressMove onPressMove e;
  let! g := gets responderRegion in
  match g with
  | None => ret tt
  | Some g =>
      let t := getTouchFromPressEvent e in
      let! a := gets touchActivatePosition in
      do! (match a with
           | Some a => when (moved_far a t) cancelLongPressDelayTimeout
           | None => ret tt end);
      let! c := gets cfg in
      if isTouchWithinResponderRegion c t g then receiveSignal ENTER_PRESS_RECT e
      else
        do! cancelLongPressDelayTimeout;
        receiveSignal LEAVE_PRESS_RECT e
  end.

Definition onResponderRelease (e : event) : JS S unit := receiveSignal RESPONDER_RELEASE e.
Definition onResponderTerminate (e : event) : JS S unit := receiveSignal RESPONDER_TERMINATED e.

(** Mouse handlers; [mouse] is false on iOS and Android, where they are absent. *)
Definition onMouseEnter (e : event) : JS S unit :=
  when (mouse && hoverEnabled) (
    do! modify (set_isHovered true);
    do! cancelHoverOutDelayTimeout;
    let! c := gets cfg in
    match onHoverIn c with
    | None => ret tt
    | Some f =>
        if Qltb 0 (normalizeDelay (delayHoverIn c) 0 0) then
          let! id := set_timeout (THoverIn f e) in modify (set_hoverInDelayTimeout (Some id))
        else call_handler HHoverIn f e
    end).

Definition onMouseLeave (e : event) : JS S unit :=
  let! h := gets isHovered in
  when (mouse && h) (
    do! modify (set_isHovered false);
    do! cancelHoverInDelayTimeout;
    let! c := gets cfg in
    match onHoverOut c with
    | None => ret tt
    | Some f =>
        if Qltb 0 (normalizeDelay (delayHoverOut c) 0 0) then
          let! id := set_timeout (THoverOut f e) in modify (set_hoverInDelayTimeout (Some id))
        else call_handler HHoverOut f e
    end).

(** The pending closure [id] runs. *)
Definition fire (id : nat) : JS S unit :=
  let! t := gets (fun s => timers s !! id) in
  match t with
  | None => ret tt
  | Some t =>
      do! clear_timeout id;
      match t with
      | TPressDelay e => receiveSignal DELAY e
      | TLongPress e => handleLongPress e
      | TPressOut f e => call_handler HPressOut f e
      | THoverIn f e => call_handler HHoverIn f e
      | THoverOut f e => call_handler HHoverOut f e
      end
  end.
End pressability.

(** ** The inputs of the recogniser and the steps it takes *)
Section machine.
Context {W : Type}.
Abbreviation S := (st W).
Context (call : nat -> event -> JS S unit) (ask : nat -> JS S bool).
Context (is_android hoverEnabled mouse : bool).
Implicit Types s : S.

Inductive input :=
  | Grant (e : event) | Move (e : event) | Release (e : event) | Terminate (e : event)
  | Fire (id : nat) | Measured (left top width height pX pY : Q)
  | MouseEnter (e : event) | MouseLeave (e : event) | Reset
  | Focus (e : event) | Blur (e : event) | KeyDown (e : event) | KeyUp (e : event)
  | Click (e : event) | Tick (t : Q).

Definition run_input (i : input) : JS S unit :=
  match i with
  | Grant e => onResponderGrant call ask is_android e
  | Move e => onResponderMove call ask is_android e
  | Release e => onResponderRelease call ask is_android e
  | Terminate e => onResponderTerminate call ask is_android e
  | Fire id => fire call ask is_android id
  | Measured l t w h x y => measureCallback l t w h x y
  | MouseEnter e => onMouseEnter call hoverEnabled mouse e
  | MouseLeave e => onMouseLeave call mouse e
  | Reset => reset
  | Focus e => handle_onFocus call e
  | Blur e => handle_onBlur call e
  | KeyDown e => handle_onKeyDown call e
  | KeyUp e => handle_onKeyUp call e
  | Click e => handle_onClick call e
  | Tick t => modify (set_now t)
  end.

(** The responder system delivers moves, releases and terminations only between a
    grant and the release or termination that ends it. *)
Definition enabled (i : input) (s : S) : Prop :=
  match i with
  | Move _ | Release _ | Terminate _ => touchState s <> NOT_RESPONDER
  | _ => True
  end.
Inductive step : S -> S -> Prop :=
  | step_input i s : enabled i s -> step s (final (run_input i) s).

(** Client code that returns and stays out of the recogniser. *)
Definition quiet : Prop :=
  (forall f e s, exists w, call f e s = (Ret tt, set_world w s)) /\
  (forall f s, exists b w, ask f s = (Ret b, set_world w s)).

(** ** Frame: everything but the touch state and the press-delay timer *)
Record framed (s s' : S) : Prop := {
  fr_state : touchState s' = touchState s;
  fr_responder : responderID s' = responderID s;
  fr_delay : pressDelayTimeout s' = pressDelayTimeout s;
  fr_timers : forall id e, timers s' !! id = Some (TPressDelay e) -> timers s !! id = Some (TPressDelay e);
  fr_fresh : (forall id, nextTimer s <= id -> timers s !! id = None) ->
    nextTimer s <= nextTimer s' /\ forall id, nextTimer s' <= id -> timers s' !! id = None
}.
#[local] Instance framed_preorder : PreOrder framed.
Proof.
  split.
  - intros s. split; auto.
  - intros a b c [A1 A2 A3 A4 A5] [B1 B2 B3 B4 B5]. split; try congruence; auto.
    intros H. destruct (A5 H) as [? H']. destruct (B5 H') as [? H'']. split; [lia|done].
Qed.
#[local] Hint Resolve framed_preorder : js.

Lemma framed_modify f :
  (forall s, touchState (f s) = touchState s /\ responderID (f s) = responderID s /\
     pressDelayTimeout (f s) = pressDelayTimeout s /\ timers (f s) = timers s /\
     nextTimer (f s) = nextTimer s) -> evolves framed (modify f).
Proof.
  intros H. apply evolves_modify. intros s. destruct (H s) as (?&?&?&E&E').
  split; rewrite ?E, ?E'; auto.
Qed.
#[local] Hint Extern 4 (evolves framed (modify _)) =>
  apply framed_modify; intros ?; repeat split; reflexivity : js.

Lemma framed_clear id : evolves framed (clear_timeout (W:=W) id).
Proof.
  apply evolves_modify. intros s. split; try done; cbn.
  - intros i e. rewrite lookup_delete_Some. by intros [? ?].
  - intros H. split; [lia|]. intros i Hi. apply lookup_delete_None. auto.
Qed.
Lemma framed_set_timeout f : (forall e, f <> TPressDelay e) -> evolves framed (set_timeout (W:=W) f).
Proof.
  intros Hf s. split; try done; cbn.
  - intros i e. rewrite lookup_insert. case_decide; [|done]. intros [= E]. by apply Hf in E.
  - intros H. split; [lia|]. intros i Hi. rewrite lookup_insert_ne by lia. apply H. lia.
Qed.
#[local] Hint Resolve framed_clear : js.
#[local] Hint Extern 4 (evolves framed (set_timeout _)) =>
  apply framed_set_timeout; intros ?; discriminate : js.

Lemma framed_log e : evolves framed (log (W:=W) e).
Proof. unfold log. js_auto. Qed.
#[local] Hint Resolve framed_log : js.

Section quiet.
Hypothesis Hquiet : quiet.

Lemma quiet_call (R : S -> S -> Prop) f e :
  (forall s w, R s (set_world w s)) -> evolves R (call f e).
Proof. intros H s. destruct Hquiet as [Hq _]. destruct (Hq f e s) as [w E]. unfold final. rewrite E. apply H. Qed.
Lemma quiet_ask (R : S -> S -> Prop) f :
  (forall s w, R s (set_world w s)) -> evolves R (ask f).
Proof. intros H s. destruct Hquiet as [_ Hq]. destruct (Hq f s) as (b&w&E). unfold final. rewrite E. apply H. Qed.
Lemma quiet_call_returns f e : returns (call f e).
Proof. intros s. destruct Hquiet as [Hq _]. destruct (Hq f e s) as [w E]. unfold outcome. rewrite E. eauto. Qed.
Lemma quiet_ask_returns f : returns (ask f).
Proof. intros s. destruct Hquiet as [_ Hq]. destruct (Hq f s) as (b&w&E). unfold outcome. rewrite E. eauto. Qed.
#[local] Hint Resolve quiet_call_returns quiet_ask_returns : js.

Lemma framed_call f e : evolves framed (call f e).
Proof. apply quiet_call. by split. Qed.
Lemma framed_ask f : evolves framed (ask f).
Proof. apply quiet_ask. by split. Qed.
#[local] Hint Resolve framed_call framed_ask : js.

Lemma framed_call_handler h f e : evolves framed (call_handler call h f e).
Proof. unfold call_handler. js_auto. Qed.
#[local] Hint Resolve framed_call_handler : js.
Lemma framed_call_optional h g e : evolves framed (call_optional call h g e).
Proof. unfold call_optional. js_auto. Qed.
Lemma framed_cancelLong : evolves framed (cancelLongPressDelayTimeout (W:=W)).
Proof. unfold cancelLongPressDelayTimeout. js_auto. Qed.
Lemma framed_cancelOut : evolves framed (cancelPressOutDelayTimeout (W:=W)).
Proof. unfold cancelPressOutDelayTimeout. js_auto. Qed.
Lemma framed_cancelHoverIn : evolves framed (cancelHoverInDelayTimeout (W:=W)).
Proof. unfold cancelHoverInDelayTimeout. js_auto. Qed.
Lemma framed_cancelHoverOut : evolves framed (cancelHoverOutDelayTimeout (W:=W)).
Proof. unfold cancelHoverOutDelayTimeout. js_auto. Qed.
#[local] Hint Resolve framed_call_optional framed_cancelLong framed_cancelOut
  framed_cancelHoverIn framed_cancelHoverOut : js.
Lemma framed_activate e : evolves framed (activate call e).
Proof. unfold activate. js_auto. Qed.
Lemma framed_deactivate e : evolves framed (deactivate call e).
Proof. unfold deactivate. js_auto. Qed.
#[local] Hint Resolve framed_activate framed_deactivate : js.
Lemma framed_press_on_release p n e : evolves framed (press_on_release call ask is_android p n e).
Proof. unfold press_on_release, shouldLongPressCancelPress. js_auto. Qed.
Lemma framed_measure : evolves framed (measureResponderRegion (W:=W)).
Proof. unfold measureResponderRegion. js_auto. Qed.
#[local] Hint Resolve framed_press_on_release framed_measure : js.

(** The side effects of a transition before the press-delay timer is cancelled. *)
Definition side_effects_body (prevState nextState : touch_state) (signal : touch_signal)
    (e : event) : JS S unit :=
  do! when (isTerminalSignal signal)
        (do! modify (set_touchActivatePosition None); cancelLongPressDelayTimeout);
  do! when (bool_decide (prevState = NOT_RESPONDER) &&
            bool_decide (nextState = RESPONDER_INACTIVE_PRESS_IN) ||
            negb (isActivationSignal prevState) && isActivationSignal nextState)
        measureResponderRegion;
  do! when (isPressInSignal prevState && bool_decide (signal = LONG_PRESS_DETECTED))
        (call_optional call HLongPress onLongPress e);
  do! (if negb (isActiveSignal prevState) && isActiveSignal nextState then activate call e
       else if isActiveSignal prevState && negb (isActiveSignal nextState) then deactivate call e
       else ret tt);
  when (isPressInSignal prevState && bool_decide (signal = RESPONDER_RELEASE))
    (press_on_release call ask is_android prevState nextState e).

Lemma side_effects_split p n sg e s :
  performTransitionSideEffects call ask is_android p n sg e s =
  (do! side_effects_body p n sg e; cancelPressDelayTimeout) s.
Proof.
  unfold performTransitionSideEffects, side_effects_body.
  repeat (rewrite bind_assoc; apply bind_ext; intros ? ?). done.
Qed.

Lemma framed_body p n sg e : evolves framed (side_effects_body p n sg e).
Proof. unfold side_effects_body. js_auto. Qed.

Lemma returns_call_handler h f e : returns (call_handler call h f e).
Proof. unfold call_handler, log. js_returns. Qed.
Lemma returns_body p n sg e : returns (side_effects_body p n sg e).
Proof.
  unfold side_effects_body, press_on_release, shouldLongPressCancelPress, activate, deactivate,
    call_optional, measureResponderRegion, cancelLongPressDelayTimeout, call_handler,
    set_timeout, clear_timeout, log.
  js_returns.
Qed.

(** ** The invariant of the protocol *)
Definition fresh_ok (s : S) : Prop := forall id, nextTimer s <= id -> timers s !! id = None.
Definition delay_known (s : S) : Prop :=
  forall id e, timers s !! id = Some (TPressDelay e) -> pressDelayTimeout s = Some id.
Definition no_delay (s : S) : Prop := forall id e, timers s !! id <> Some (TPressDelay e).

Record inv (s : S) : Prop := {
  inv_ok : touchState s <> ERROR;
  inv_fresh : fresh_ok s;
  inv_known : delay_known s;
  inv_delay : touchState s <> RESPONDER_INACTIVE_PRESS_IN -> no_delay s;
  inv_responder : touchState s <> NOT_RESPONDER -> responderID s <> None
}.

Lemma framed_known s s' : framed s s' -> delay_known s -> delay_known s'.
Proof. intros [? ? E Ht ?] H id e Hid. rewrite E. by eapply H, Ht. Qed.
Lemma framed_fresh s s' : framed s s' -> fresh_ok s -> fresh_ok s'.
Proof. intros [? ? ? ? H] Hf. exact (proj2 (H Hf)). Qed.
Lemma framed_no_delay s s' : framed s s' -> no_delay s -> no_delay s'.
Proof. intros [? ? ? Ht ?] H id e Hid. by eapply H, Ht. Qed.
Lemma framed_inv s s' : framed s s' -> inv s -> inv s'.
Proof.
  intros Hf [H1 H2 H3 H4 H5]. pose proof Hf as [E1 E2 _ _ _]. split; rewrite ?E1, ?E2; try done.
  - by eapply framed_fresh.
  - by eapply framed_known.
  - intros Hne. eapply framed_no_delay; eauto.
Qed.

Lemma cancelPress_spec s : delay_known s -> fresh_ok s ->
  exists s', cancelPressDelayTimeout s = (Ret tt, s') /\ no_delay s' /\ fresh_ok s' /\
    touchState s' = touchState s /\ responderID s' = responderID s.
Proof.
  intros Hk Hf. unfold cancelPressDelayTimeout. rewrite bind_gets.
  destruct (pressDelayTimeout s) as [i|] eqn:E; (eexists; split; [reflexivity|]); cbn.
  - split_and!; try done.
    + intros id e. cbn. rewrite lookup_delete_Some. intros [Hne Hid].
      apply Hk in Hid. congruence.
    + intros id Hid. cbn in *. apply lookup_delete_None. auto.
  - split_and!; try done. intros id e Hid. apply Hk in Hid. congruence.
Qed.

(** A signal whose transition is in the table is processed: the state follows the
    table, and a change of state leaves no press-delay timer pending. *)
Lemma receiveSignal_spec sg e s :
  delay_known s -> fresh_ok s -> responderID s <> None ->
  Transitions (touchState s) sg <> ERROR ->
  exists s', receiveSignal call ask is_android sg e s = (Ret tt, s') /\
    touchState s' = Transitions (touchState s) sg /\ responderID s' = responderID s /\
    fresh_ok s' /\
    (if decide (touchState s = Transitions (touchState s) sg) then s' = s else no_delay s').
Proof.
  intros Hk Hf Hr Hne. unfold receiveSignal. rewrite !bind_gets, bool_decide_false by done.
  cbn [andb]. rewrite bool_decide_false by done. cbn [negb invariant]. rewrite bind_ret.
  destruct (decide (touchState s = Transitions (touchState s) sg)) as [E|E].
  { rewrite bool_decide_true by done. by eexists. }
  rewrite bool_decide_false by done. set (nx := Transitions (touchState s) sg) in *.
  rewrite (bind_ext2 _ _ _ _ (side_effects_split (touchState s) nx sg e s)), bind_assoc.
  destruct (returns_run _ s (returns_body (touchState s) nx sg e)) as [[] E1].
  pose proof (framed_body (touchState s) nx sg e s) as Hfr.
  rewrite (bind_of _ _ _ _ _ E1). set (s1 := final _ s) in *.
  destruct (cancelPress_spec s1) as (s2 & E2 & Hnd & Hf2 & _ & Hr2);
    [by eapply framed_known|by eapply framed_fresh|].
  rewrite (bind_of _ _ _ _ _ E2). eexists. split; [reflexivity|]. cbn.
  pose proof (fr_responder _ _ Hfr). split_and!; try done; congruence.
Qed.

Lemma receiveSignal_inv sg e s :
  inv s -> touchState s <> NOT_RESPONDER -> Transitions (touchState s) sg <> ERROR ->
  exists s', receiveSignal call ask is_android sg e s = (Ret tt, s') /\ inv s' /\
    touchState s' = Transitions (touchState s) sg.
Proof.
  intros [H1 H2 H3 H4 H5] Hn Hne.
  destruct (receiveSignal_spec sg e s) as (s' & E & Es & Er & Hf & Hc); auto.
  exists s'. split_and!; [done| |done].
  case_decide as Hd; [by subst|]. split; rewrite ?Es, ?Er; auto.
  intros id x Hx. by apply Hc in Hx.
Qed.

Definition runs_ok (m : JS S unit) (s : S) : Prop := exists s', m s = (Ret tt, s') /\ inv s'.

Lemma runs_ok_framed m s : evolves framed m -> returns m -> inv s -> runs_ok m s.
Proof.
  intros Hf Hr Hi. destruct (returns_run m s Hr) as [[] E]. eexists. split; [exact E|].
  by eapply framed_inv; [apply Hf|].
Qed.
Lemma runs_ok_bind {A} (m : JS S A) (k : A -> JS S unit) s :
  evolves framed m -> returns m -> inv s ->
  (forall a s', inv s' -> touchState s' = touchState s -> runs_ok (k a) s') ->
  runs_ok (bind m k) s.
Proof.
  intros Hf Hr Hi Hk. destruct (returns_run m s Hr) as [a E]. unfold runs_ok.
  rewrite (bind_of _ _ _ _ _ E). apply Hk.
  - by eapply framed_inv; [apply Hf|].
  - by rewrite (fr_state _ _ (Hf s)).
Qed.

Lemma returns_call_optional h g e : returns (call_optional call h g e).
Proof. pose proof returns_call_handler. unfold call_optional. js_returns. Qed.
Lemma returns_cancels :
  returns (cancelLongPressDelayTimeout (W:=W)) /\ returns (cancelPressOutDelayTimeout (W:=W)) /\
  returns (cancelHoverInDelayTimeout (W:=W)) /\ returns (cancelHoverOutDelayTimeout (W:=W)).
Proof.
  unfold cancelLongPressDelayTimeout, cancelPressOutDelayTimeout, cancelHoverInDelayTimeout,
    cancelHoverOutDelayTimeout, clear_timeout. split_and!; js_returns.
Qed.

Lemma in_press_signal x : x <> NOT_RESPONDER -> x <> ERROR ->
  Transitions x ENTER_PRESS_RECT <> ERROR /\ Transitions x LEAVE_PRESS_RECT <> ERROR /\
  Transitions x RESPONDER_RELEASE <> ERROR /\ Transitions x RESPONDER_TERMINATED <> ERROR.
Proof. by destruct x. Qed.

Lemma signal_ok sg e s : inv s -> touchState s <> NOT_RESPONDER ->
  sg = ENTER_PRESS_RECT \/ sg = LEAVE_PRESS_RECT \/ sg = RESPONDER_RELEASE \/
  sg = RESPONDER_TERMINATED ->
  runs_ok (receiveSignal call ask is_android sg e) s.
Proof.
  intros Hi Hn Hsg. pose proof (in_press_signal _ Hn (inv_ok _ Hi)) as (?&?&?&?).
  destruct (receiveSignal_inv sg e s) as (s' & E & Hi' & _); [done..|naive_solver|].
  by exists s'.
Qed.

Lemma move_ok e s : inv s -> touchState s <> NOT_RESPONDER -> runs_ok (onResponderMove call ask is_android e) s.
Proof.
  destruct returns_cancels as (Hc & _). intros Hi Hn. unfold onResponderMove.
  apply runs_ok_bind; [apply framed_call_optional|apply returns_call_optional|done|].
  intros [] s1 Hi1 E1. apply runs_ok_bind; [js_auto|js_returns|done|]. intros [g|] s2 Hi2 E2.
  2: { by eexists. }
  apply runs_ok_bind; [js_auto|js_returns|done|]. intros a s3 Hi3 E3.
  apply runs_ok_bind; [js_auto|js_returns|done|]. intros [] s4 Hi4 E4.
  apply runs_ok_bind; [js_auto|js_returns|done|]. intros c s5 Hi5 E5.
  destruct (isTouchWithinResponderRegion c _ g).
  - apply signal_ok; [done|congruence|auto].
  - apply runs_ok_bind; [js_auto|js_returns|done|]. intros [] s6 Hi6 E6.
    apply signal_ok; [done|congruence|auto].
Qed.

Lemma grant_ok e s : inv s -> runs_ok (onResponderGrant call ask is_android e) s.
Proof.
  destruct returns_cancels as (_ & Hc & _). intros Hi. unfold onResponderGrant.
  apply runs_ok_bind; [js_auto|js_returns|done|]. intros [] s1 Hi1 _.
  unfold runs_ok. rewrite bind_modify. set (s2 := set_touchState _ _).
  destruct (receiveSignal_spec RESPONDER_GRANT e s2) as (s3 & E3 & Et & Er & Hf & Hnd);
    [apply Hi1|apply Hi1|done|done|].
  rewrite (bind_of _ _ _ _ _ E3), bind_gets. cbn in Et, Hnd.
  assert (Hi3 : inv s3).
  { split; rewrite ?Et, ?Er; try done. intros id x Hx. by apply Hnd in Hx. }
  assert (Htail : forall s, inv s -> runs_ok (let! id := set_timeout (TLongPress e) in
     modify (set_longPressDelayTimeout (Some id))) s).
  { intros x Hx. apply runs_ok_framed; [js_auto| |done]. unfold set_timeout. js_returns. }
  destruct (Qltb _ _).
  - set (s4 := set_pressDelayTimeout (Some (nextTimer s3)) (set_nextTimer (nextTimer s3 + 1)
      (set_timers (<[nextTimer s3 := TPressDelay e]> (timers s3)) s3))).
    rewrite (bind_of _ _ s3 tt s4) by reflexivity. apply Htail.
    pose proof Hi3 as [H1 H2 H3 H4 H5]. split; cbn; rewrite ?Et; try done.
    + intros id Hid. cbn in *. rewrite lookup_insert_ne by lia. apply H2. lia.
    + intros id x. cbn. rewrite lookup_insert.
      destruct (decide (nextTimer s3 = id)) as [->|]; [done|]. intros Hx. by apply Hnd in Hx.
    + by rewrite Er.
  - destruct (receiveSignal_inv DELAY e s3) as (s4 & E4 & Hi4 & _); [done|by rewrite Et..|].
    rewrite (bind_of _ _ _ _ _ E4). by apply Htail.
Qed.

Lemma fire_ok id s : inv s -> runs_ok (fire call ask is_android id) s.
Proof.
  pose proof (returns_call_handler) as Hch.
  intros Hi. unfold fire, runs_ok. rewrite bind_gets.
  destruct (timers s !! id) as [t|] eqn:Et; [|by eexists]. refine (_ : runs_ok (bind _ _) s).
  apply runs_ok_bind; [js_auto|unfold clear_timeout; js_returns|done|]. intros [] s1 Hi1 E1.
  destruct t; try (apply runs_ok_framed; [solve [js_auto]|solve [js_returns]|done]).
  - assert (Hst : touchState s = RESPONDER_INACTIVE_PRESS_IN).
    { destruct (decide (touchState s = RESPONDER_INACTIVE_PRESS_IN)); [done|].
      by eapply (inv_delay s Hi) in Et. }
    destruct (receiveSignal_inv DELAY e s1) as (s2 & E2 & Hi2 & _);
      [done|by rewrite E1, Hst..|]. by exists s2.
  - unfold handleLongPress, runs_ok. rewrite bind_gets.
    destruct (decide (touchState s1 = RESPONDER_ACTIVE_PRESS_IN)) as [E|E].
    + rewrite E. cbn.
      destruct (receiveSignal_inv LONG_PRESS_DETECTED e s1) as (s2 & E2 & Hi2 & _);
        [done|by rewrite E..|]. by exists s2.
    + destruct (decide (touchState s1 = RESPONDER_ACTIVE_LONG_PRESS_IN)) as [E'|E'].
      * rewrite E'. cbn.
        destruct (receiveSignal_inv LONG_PRESS_DETECTED e s1) as (s2 & E2 & Hi2 & _);
          [done|by rewrite E'..|]. by exists s2.
      * rewrite !bool_decide_false by done. by eexists.
Qed.

Lemma reset_ok s : inv s -> runs_ok reset s.
Proof.
  destruct returns_cancels as (H1 & H2 & H3 & H4). intros Hi. unfold reset.
  do 3 (apply runs_ok_bind; [js_auto|js_returns|done|]; clear Hi; intros [] ? Hi _).
  match type of Hi with inv ?x => destruct (cancelPress_spec x) as (s2 & E2 & Hnd & Hf & Et & Er); [apply Hi..|] end.
  unfold runs_ok. rewrite (bind_of _ _ _ _ _ E2).
  refine (_ : runs_ok _ s2). apply runs_ok_framed; [js_auto|js_returns|].
  destruct Hi as [A1 A2 A3 A4 A5]. split; rewrite ?Et, ?Er; try done.
  intros id x Hx. by apply Hnd in Hx.
Qed.

Lemma input_ok i s : inv s -> enabled i s -> runs_ok (run_input i) s.
Proof.
  destruct returns_cancels as (Hc1 & Hc2 & Hc3 & Hc4). pose proof returns_call_handler as Hch.
  intros Hi He. destruct i; cbn in *; auto using grant_ok, move_ok, fire_ok, reset_ok, signal_ok;
    try (apply runs_ok_framed; [apply framed_call_optional|apply returns_call_optional|done]).
  - apply signal_ok; auto.
  - apply signal_ok; auto.
  - unfold measureCallback. apply runs_ok_framed; [js_auto|js_returns|done].
  - unfold onMouseEnter. apply runs_ok_framed; [js_auto| |done]. unfold set_timeout. js_returns.
  - unfold onMouseLeave. apply runs_ok_framed; [js_auto| |done]. unfold set_timeout. js_returns.
  - apply runs_ok_framed; [js_auto|js_returns|done].
Qed.

Lemma step_inv s s' : step s s' -> inv s -> inv s'.
Proof.
  intros [i x He] Hi. destruct (input_ok i x Hi He) as (y & E & Hy). unfold final. by rewrite E.
Qed.

Lemma inv_initial c t w : inv (new_Pressability c t w).
Proof. by split. Qed.
Lemma reachable_inv s s' : rtc step s s' -> inv s -> inv s'.
Proof. induction 1; eauto using step_inv. Qed.

(** C12. Whatever the order in which events and timers arrive, as long as the
    responder system keeps its protocol, no handler ever throws the "Invalid signal"
    invariant and the machine is never in the error state; in particular a pending
    press delay always finds the press inactive and inside. *)
Theorem protocol_never_invalid c t w s i :
  rtc step (new_Pressability c t w) s -> enabled i s ->
  (exists s', run_input i s = (Ret tt, s')) /\ touchState s <> ERROR /\
  (forall id e, timers s !! id = Some (TPressDelay e) -> touchState s = RESPONDER_INACTIVE_PRESS_IN).
Proof.
  intros Hr He. pose proof (reachable_inv _ _ Hr (inv_initial c t w)) as Hi. split_and!.
  - destruct (input_ok i s Hi He) as (s' & E & _). by exists s'.
  - apply Hi.
  - intros id e Hid. destruct (decide (touchState s = RESPONDER_INACTIVE_PRESS_IN)); [done|].
    by eapply (inv_delay s Hi) in Hid.
Qed.
(** ** What a release calls *)

(** [emits l t m s]: [m] returns from [s], calls exactly the handlers [l], keeps the
    configuration and the clock, and leaves the activation time at [t]. *)
Definition emits (l : list trace_event) (t : option Q) (m : JS S unit) (s : S) : Prop :=
  exists s', m s = (Ret tt, s') /\ trace s' = trace s ++ l /\ cfg s' = cfg s /\
    now s' = now s /\ touchActivateTime s' = t.

Lemma emits_bind l1 l2 t1 t2 m k s :
  emits l1 t1 m s ->
  (forall s', cfg s' = cfg s -> now s' = now s -> touchActivateTime s' = t1 -> emits l2 t2 (k tt) s') ->
  emits (l1 ++ l2) t2 (bind m k) s.
Proof.
  intros (s1 & E1 & T1 & C1 & N1 & A1) Hk. destruct (Hk s1) as (s2 & E2 & T2 & C2 & N2 & A2); auto.
  exists s2. rewrite (bind_of _ _ _ _ _ E1), E2, T2, T1, app_assoc. split_and!; congruence.
Qed.
Lemma emits_nil m s s' : m s = (Ret tt, s') -> trace s' = trace s -> cfg s' = cfg s ->
  now s' = now s -> emits [] (touchActivateTime s') m s.
Proof. intros E T C N. exists s'. rewrite app_nil_r. auto. Qed.
Lemma emits_skip s : emits [] (touchActivateTime s) (ret tt) s.
Proof. by eapply emits_nil. Qed.
Lemma emits_handler h f e s :
  emits [Called h f e] (touchActivateTime s) (call_handler call h f e) s.
Proof.
  destruct Hquiet as [Hq _].
  destruct (Hq f e (set_trace (trace s ++ [Called h f e]) s)) as [w E].
  exists (set_world w (set_trace (trace s ++ [Called h f e]) s)). split_and!; try done.
Qed.
Lemma emits_cancelLong s : emits [] (touchActivateTime s) cancelLongPressDelayTimeout s.
Proof.
  unfold cancelLongPressDelayTimeout, emits. rewrite bind_gets.
  destruct (longPressDelayTimeout s); (eexists; split; [reflexivity|]); cbn; by rewrite app_nil_r.
Qed.
Lemma emits_cancelPress s : emits [] (touchActivateTime s) cancelPressDelayTimeout s.
Proof.
  unfold cancelPressDelayTimeout, emits. rewrite bind_gets.
  destruct (pressDelayTimeout s); (eexists; split; [reflexivity|]); cbn; by rewrite app_nil_r.
Qed.

(** The delay of [_deactivate] after a press of [duration] milliseconds. *)
Definition out_delay (c : config) (duration : Q) : Q :=
  Qmaxb (normalizeDelay (minPressDuration c) 0 DEFAULT_MIN_PRESS_DURATION - duration)%Q
        (normalizeDelay (delayPressOut c) 0 0).
Definition called (h : handler) (f : option nat) (e : event) : list trace_event :=
  match f with Some f => [Called h f e] | None => [] end.
Definition out_calls (c : config) (duration : Q) (e : event) : list trace_event :=
  if Qltb 0 (out_delay c duration) then [] else called HPressOut (onPressOut c) e.

Lemma emits_activate e s :
  emits (called HPressIn (onPressIn (cfg s)) e) (Some (now s)) (activate call e) s.
Proof.
  unfold activate, call_optional, emits. rewrite bind_modify, bind_gets. cbn.
  destruct (onPressIn (cfg s)) as [f|]; [|eexists; split; [reflexivity|]; by rewrite app_nil_r].
  set (s1 := set_touchActivateTime _ _). destruct (emits_handler HPressIn f e s1) as (s2&E&T&C&N&A).
  exists s2. by rewrite A.
Qed.
Lemma emits_deactivate e s :
  emits (out_calls (cfg s) (now s - default 0 (touchActivateTime s))%Q e) None (deactivate call e) s.
Proof.
  unfold deactivate, emits. rewrite bind_gets. unfold out_calls, out_delay, called.
  destruct (onPressOut (cfg s)) as [f|].
  2: { rewrite bind_ret. eexists. split; [reflexivity|]. cbn.
       destruct (Qltb _ _); by rewrite app_nil_r. }
  rewrite bind_assoc, bind_gets. destruct (Qltb _ _).
  - eexists. split; [reflexivity|]. cbn. by rewrite app_nil_r.
  - destruct (emits_handler HPressOut f e s) as (s2&E&T&C&N&A). rewrite (bind_of _ _ _ _ _ E).
    by eexists.
Qed.

(** The calls of a release of a press in state [p]. *)
Definition release_calls (p : touch_state) (duration : Q) (c : config) (e : event) : list trace_event :=
  (if isActiveSignal p then out_calls c duration e else []) ++
  match onPress c with
  | Some f =>
      if isPressInSignal p &&
         negb (bool_decide (is_Some (onLongPress c)) && bool_decide (p = RESPONDER_ACTIVE_LONG_PRESS_IN))
      then (if isActiveSignal p then [] else called HPressIn (onPressIn c) e ++ out_calls c 0 e) ++
           (if is_android && negb (default false (android_disableSound c)) then [PlayTouchSound] else []) ++
           [Called HPress f e]
      else []
  | None => []
  end.
#[local] Instance out_calls_proper c : Proper (Qeq ==> eq ==> eq) (out_calls c).
Proof. intros d d' Hd e e' ->. unfold out_calls, out_delay. by rewrite Hd. Qed.
Lemma out_calls_now c t e : out_calls c (t - t)%Q e = out_calls c 0 e.
Proof. apply out_calls_proper; [|done]. ring. Qed.

Lemma emits_press p e s : onLongPressShouldCancelPress (cfg s) = None ->
  exists t, emits
    (match onPress (cfg s) with
     | Some f =>
        if bool_decide (is_Some (onLongPress (cfg s))) && bool_decide (p = RESPONDER_ACTIVE_LONG_PRESS_IN)
        then [] else
          (if isActiveSignal p then [] else called HPressIn (onPressIn (cfg s)) e ++ out_calls (cfg s) 0 e) ++
          (if is_android && negb (default false (android_disableSound (cfg s))) then [PlayTouchSound] else []) ++
          [Called HPress f e]
     | None => [] end) t (press_on_release call ask is_android p NOT_RESPONDER e) s.
Proof.
  intros Hl. unfold press_on_release, shouldLongPressCancelPress. unfold emits at 1. rewrite bind_gets.
  destruct (onPress (cfg s)) as [f|]; [|eexists; apply emits_skip].
  assert (Hgo : exists t, emits ((if isActiveSignal p then []
        else called HPressIn (onPressIn (cfg s)) e ++ out_calls (cfg s) 0 e) ++
          (if is_android && negb (default false (android_disableSound (cfg s))) then [PlayTouchSound] else []) ++
          [Called HPress f e]) t
      (do! when (negb (isActiveSignal NOT_RESPONDER) && negb (isActiveSignal p))
             (do! activate call e; deactivate call e);
       do! when (is_android && negb (default false (android_disableSound (cfg s)))) (log PlayTouchSound);
       call_handler call HPress f e) s).
  { exists (if isActiveSignal p then touchActivateTime s else None). apply emits_bind with (if isActiveSignal p then touchActivateTime s else None).
    - destruct (isActiveSignal p); cbn; [apply emits_skip|].
      eapply emits_bind; [apply emits_activate|]. intros s1 C N A.
      rewrite <- C, <- (out_calls_now _ (now s1)).
      pose proof (emits_deactivate e s1) as H. rewrite A in H. by rewrite N in *.
    - intros s1 C N A. apply emits_bind with (touchActivateTime s1).
      + destruct (_ && _); cbn; [by eexists|apply emits_skip].
      + intros s2 C2 N2 A2. rewrite <- A, <- A2. apply emits_handler. }
  destruct (bool_decide (is_Some (onLongPress (cfg s)))), (bool_decide (p = RESPONDER_ACTIVE_LONG_PRESS_IN));
    cbn [andb]; try (rewrite bind_ret; exact Hgo).
  rewrite bind_assoc. eexists. exists s. rewrite bind_gets, Hl, app_nil_r. done.
Qed.
Lemma emits_body p e s : p <> NOT_RESPONDER -> p <> ERROR ->
  onLongPressShouldCancelPress (cfg s) = None ->
  exists t, emits (release_calls p (now s - default 0 (touchActivateTime s))%Q (cfg s) e) t
    (side_effects_body p NOT_RESPONDER RESPONDER_RELEASE e) s.
Proof.
  intros Hn He Hl. unfold side_effects_body.
  cbn [isTerminalSignal when bool_decide].
  rewrite (bool_decide_false (p = NOT_RESPONDER)), andb_false_l by done.
  replace (isActivationSignal NOT_RESPONDER) with false by done.
  replace (isActiveSignal NOT_RESPONDER) with false by done. rewrite !andb_false_r, andb_true_r. cbn [orb when].
  set (s0 := final (do! modify (set_touchActivatePosition None); cancelLongPressDelayTimeout) s).
  assert (E0 : (do! modify (set_touchActivatePosition None); cancelLongPressDelayTimeout) s = (Ret tt, s0)
    /\ trace s0 = trace s /\ cfg s0 = cfg s /\ now s0 = now s /\ touchActivateTime s0 = touchActivateTime s).
  { subst s0. unfold final. rewrite bind_modify.
    destruct (emits_cancelLong (set_touchActivatePosition None s)) as (x&E&T&C&N&A).
    rewrite E. rewrite app_nil_r in T. done. }
  destruct E0 as (E0 & T0 & C0 & N0 & A0).
  set (pr := if isPressInSignal p then press_on_release call ask is_android p NOT_RESPONDER e else ret tt).
  assert (Hgo : exists t, emits (release_calls p (now s - default 0 (touchActivateTime s))%Q (cfg s) e) t
     (do! if isActiveSignal p then deactivate call e else ret tt; pr) s0).
  { unfold release_calls. destruct (isActiveSignal p) eqn:Ea.
    - destruct (emits_deactivate e s0) as (s1&E1&T1&C1&N1&A1). rewrite C0, N0, A0 in T1.
      destruct (isPressInSignal p) eqn:Ep; [|by destruct p].
      destruct (emits_press p e s1) as (t & s2 & E2 & T2 & C2 & N2 & A2); [congruence|].
      exists t, s2. rewrite (bind_of _ _ _ _ _ E1). subst pr. split_and!; [done| |congruence..].
      rewrite T2, T1, C1, C0, Ea, <- app_assoc. do 2 f_equal.
      destruct (onPress (cfg s)); [|done]. by destruct (bool_decide (is_Some (onLongPress (cfg s))) && bool_decide (p = RESPONDER_ACTIVE_LONG_PRESS_IN)).
    - destruct (isPressInSignal p) eqn:Ep.
      + destruct (emits_press p e s0) as (t & s2 & E2 & T2 & C2 & N2 & A2); [congruence|].
        exists t, s2. rewrite bind_ret. subst pr. split_and!; [done| |congruence..].
        rewrite T2, C0, Ea. f_equal.
        destruct (onPress (cfg s)); [|done]. by destruct (bool_decide (is_Some (onLongPress (cfg s))) && bool_decide (p = RESPONDER_ACTIVE_LONG_PRESS_IN)).
      + exists (touchActivateTime s0), s0. rewrite bind_ret. split_and!; try done.
        destruct (onPress (cfg s)); by rewrite app_nil_r. }
  destruct Hgo as (t & s2 & E2 & T2 & C2 & N2 & A2). exists t, s2.
  change (isTerminalSignal RESPONDER_RELEASE) with true.
  change (bool_decide (RESPONDER_RELEASE = RESPONDER_RELEASE)) with true.
  rewrite andb_true_r. change (when true ?m) with m. rewrite (bind_of _ _ _ _ _ E0), !bind_ret.
  change (when (isPressInSignal p) _) with pr.
  rewrite E2. split_and!; congruence.
Qed.

(** Releasing a press calls exactly the handlers [release_calls] lists, in that
    order, and returns the machine to [NOT_RESPONDER]: [onPress] is called iff the
    touch was inside the press rectangle and was not a long press that [onLongPress]
    consumed, preceded by a synthesised [onPressIn]/[onPressOut] pair when the press
    had not yet been activated. *)
Theorem release_functional e s :
  inv s -> touchState s <> NOT_RESPONDER -> onLongPressShouldCancelPress (cfg s) = None ->
  exists s', onResponderRelease call ask is_android e s = (Ret tt, s') /\
    touchState s' = NOT_RESPONDER /\
    trace s' = trace s ++
      release_calls (touchState s) (now s - default 0 (touchActivateTime s))%Q (cfg s) e.
Proof.
  intros Hi Hn Hl. pose proof (inv_ok _ Hi) as He. unfold onResponderRelease, receiveSignal.
  rewrite !bind_gets, (bool_decide_false (responderID s = None)) by (by apply Hi). cbn [andb].
  replace (Transitions (touchState s) RESPONDER_RELEASE) with NOT_RESPONDER by (by destruct (touchState s)).
  cbn [negb invariant bool_decide]. rewrite bool_decide_false by done. cbn [negb invariant].
  rewrite bind_ret, bool_decide_false by done.
  destruct (emits_body (touchState s) e s) as (t & s1 & E1 & T1 & _); [done..|].
  destruct (emits_cancelPress s1) as (s2 & E2 & T2 & _). rewrite app_nil_r in T2.
  rewrite (bind_ext2 _ _ _ _ (side_effects_split _ _ _ e s)), bind_assoc, (bind_of _ _ _ _ _ E1), (bind_of _ _ _ _ _ E2).
  eexists. split; [reflexivity|]. cbn. by rewrite T2.
Qed.
(** The delay of [onHoverOut] is stored in the field of the hover-in timer, so
    that the pointer coming back does not cancel it: after a leave and a re-entry the
    hover-out timer is still pending although the pointer is over the view, and when
    it fires [onHoverOut] is called. *)
Theorem hover_out_survives e e' f s :
  mouse = true -> hoverEnabled = true -> isHovered s = true ->
  hoverOutDelayTimeout s = None -> onHoverOut (cfg s) = Some f ->
  Qltb 0 (normalizeDelay (delayHoverOut (cfg s)) 0 0) = true ->
  let s' := final (do! onMouseLeave call mouse e; onMouseEnter call hoverEnabled mouse e') s in
  isHovered s' = true /\ timers s' !! nextTimer s = Some (THoverOut f e) /\
  trace (final (fire call ask is_android (nextTimer s)) s') = trace s' ++ [Called HHoverOut f e].
Proof.
  intros Hm Hh Hs Ht Hf Hd. cbn zeta.
  assert (Hleave : exists s1, onMouseLeave call mouse e s = (Ret tt, s1) /\
    timers s1 !! nextTimer s = Some (THoverOut f e) /\ nextTimer s1 = nextTimer s + 1 /\
    hoverOutDelayTimeout s1 = None).
  { unfold onMouseLeave, cancelHoverInDelayTimeout. rewrite bind_gets, Hm, Hs. cbn [andb when].
    rewrite bind_modify, bind_assoc, bind_gets. cbn.
    destruct (hoverInDelayTimeout s); (rewrite bind_assoc || rewrite bind_ret);
      rewrite ?bind_modify; unfold bind, gets; cbn; rewrite Hf; unfold gets, bind in *; cbn;
      rewrite Hd; eexists; (split; [reflexivity|]); cbn; by rewrite lookup_insert_eq. }
  destruct Hleave as (s1 & E1 & T1 & N1 & H1).
  assert (Henter : exists s2, onMouseEnter call hoverEnabled mouse e' s1 = (Ret tt, s2) /\
    isHovered s2 = true /\ timers s2 !! nextTimer s = Some (THoverOut f e)).
  { unfold onMouseEnter, cancelHoverOutDelayTimeout. rewrite Hm, Hh. cbn [andb when].
    rewrite bind_modify, bind_assoc, bind_gets. cbn. rewrite H1, bind_ret, bind_gets. cbn.
    destruct (onHoverIn (cfg s1)) as [g|]; [|by eexists].
    destruct (Qltb 0 (normalizeDelay (delayHoverIn (cfg s1)) 0 0)).
    - eexists. split; [reflexivity|]. cbn. rewrite lookup_insert_ne by lia. done.
    - destruct Hquiet as [Hq _]. unfold call_handler, log. rewrite bind_modify.
      match goal with |- context [call g e' ?x] => destruct (Hq g e' x) as [w E] end.
      rewrite E. by eexists. }
  destruct Henter as (s2 & E2 & H2 & T2).
  assert (E : final (do! onMouseLeave call mouse e; onMouseEnter call hoverEnabled mouse e') s = s2)
    by (unfold final; by rewrite (bind_of _ _ _ _ _ E1), E2).
  rewrite E. split_and!; [done..|]. unfold fire, final. rewrite bind_gets, T2.
  unfold clear_timeout. rewrite bind_modify.
  destruct (emits_handler HHoverOut f e (set_timers (delete (nextTimer s) (timers s2)) s2)) as (s3 & E3 & T3 & _).
  by rewrite E3.
Qed.
End quiet.
End machine.

(** ** Concrete runs *)
Section examples.
Definition silent_call (f : nat) (e : event) : JS (st unit) unit := ret tt.
Definition silent_ask (f : nat) : JS (st unit) bool := ret true.
Lemma silent_quiet : quiet silent_call silent_ask.
Proof. split; [intros f e s; exists (world s) | intros f s; exists true, (world s)]; by destruct s. Qed.

(** [delayPressIn = 50], [delayHoverOut = 20]; handlers 1 to 5. *)
Definition example_config : config :=
  Build_config None None None None None None (Some 20%Q) None (Some 50%Q) None None
    None None None None (Some 4) (Some 5) (Some 6) (Some 1) (Some 2) None (Some 3) None None None.
Definition example_event : event := Build_event 0 None None (Build_touch 5 5) 7.
Definition example_start : st unit := new_Pressability example_config 0 tt.
Abbreviation example_step := (step silent_call silent_ask false true true).
Abbreviation example_run i := (final (run_input silent_call silent_ask false true true i)).

Lemma protocol_never_invalid_witness :
  let s := example_run (Grant example_event) example_start in
  example_step example_start s /\
  exists s', run_input silent_call silent_ask false true true (Move example_event) s = (Ret tt, s').
Proof.
  intros s.
  assert (H : example_step example_start s) by (apply (step_input _ _ _ _ _ (Grant example_event)); exact I).
  split; [exact H|].
  assert (Hr : rtc example_step (new_Pressability example_config 0 tt) s) by (apply rtc_once; exact H).
  assert (He : enabled (Move example_event) s) by (vm_compute; discriminate).
  destruct (protocol_never_invalid silent_call silent_ask false true true silent_quiet
    example_config 0 tt s (Move example_event) Hr He) as [H0 _].
  exact H0.
Defined.

(** A quick tap: released before the press delay. *)
Lemma release_functional_witness :
  let s := example_run (Grant example_event) example_start in
  touchState s = RESPONDER_INACTIVE_PRESS_IN /\
  exists s', onResponderRelease silent_call silent_ask false example_event s = (Ret tt, s') /\
    trace s' = trace s ++ [Called HPressIn 2 example_event; Called HPress 1 example_event].
Proof.
  intros s. split; [vm_compute; reflexivity|].
  assert (Hi : inv s).
  { apply (step_inv silent_call silent_ask false true true silent_quiet example_start).
    - apply (step_input _ _ _ _ _ (Grant example_event)); exact I.
    - apply inv_initial. }
  assert (Hn : touchState s <> NOT_RESPONDER) by (vm_compute; discriminate).
  destruct (release_functional silent_call silent_ask false silent_quiet example_event s Hi Hn eq_refl)
    as (s' & E & _ & T).
  exists s'. split; [exact E|]. rewrite T. reflexivity.
Defined.

Lemma hover_out_survives_witness :
  let s := example_run (MouseEnter example_event) example_start in
  let s' := final (do! onMouseLeave silent_call true example_event;
                   onMouseEnter silent_call true true example_event) s in
  isHovered s' = true /\ timers s' !! 0 = Some (THoverOut 5 example_event).
Proof.
  intros s s'.
  destruct (hover_out_survives silent_call silent_ask false true true silent_quiet
    example_event example_event 5 s eq_refl eq_refl eq_refl eq_refl eq_refl eq_refl) as (H1 & H2 & _).
  split; [exact H1 | exact H2].
Defined.
End examples.
