(* ===== verification/VirtualizeUtils.v ===== *)
(** * VirtualizeUtils

    Libraries/Lists/VirtualizeUtils.js: which cells a virtualized list renders.  Item
    indices are integers, scroll metrics and layout offsets are rationals (the
    arithmetic of the source has no rounding in this model).  [getFrameMetrics] is a
    parameter: the layout of the cells. *)
From S2P Require Import Prelude Rationals.
From stdpp Require Import base numbers list strings gmap fin_maps.
From Stdlib Require Import QArith Lqa Sorting.Sorted.
Open Scope Z_scope.

Record frame := { f_length : Q; f_offset : Q }.
Record range := { first : Z; last : Z }.
Record scroll_metrics := {
  sm_dt : Q; sm_offset : Q; sm_velocity : Q; sm_visibleLength : Q
}.


(** ** The indices at which the cells reach given offsets *)
Section overlap.
Context (getFrameMetrics : Z -> frame).

Definition trailingOffset (ii : Z) : Q :=
  (f_offset (getFrameMetrics ii) + f_length (getFrameMetrics ii))%Q.

(** The inner loop: the slots [out[kk]] that item [ii] fills, the new [outLength] and
    whether the last slot was filled, where the source returns.  [out] has one slot
    per offset; a slot never written is [None]. *)
Fixpoint fill_slots (ii : Z) (trailing : Q) (offsets : list Q) (out : list (option Z))
    (outLength : nat) : list (option Z) * nat * bool :=
  match offsets, out with
  | o :: offsets', x :: out' =>
      match x with
      | None =>
          if Qle_bool o trailing then
            match offsets' with
            | [] => ([Some ii], S outLength, true)
            | _ => let '(r, n, d) := fill_slots ii trailing offsets' out' (S outLength) in
                   (Some ii :: r, n, d)
            end
          else let '(r, n, d) := fill_slots ii trailing offsets' out' outLength in (None :: r, n, d)
      | Some _ => let '(r, n, d) := fill_slots ii trailing offsets' out' outLength in (x :: r, n, d)
      end
  | _, _ => ([], outLength, false)
  end.

Fixpoint scan_items (items : list Z) (offsets : list Q) (out : list (option Z)) (outLength : nat)
    : result (list (option Z)) :=
  match items with
  | [] => Ret out
  | ii :: items' =>
      let '(out', n, returned) := fill_slots ii (trailingOffset ii) offsets out outLength in
      if returned then
        if (n =? length offsets)%nat then Ret out'
        else Throw (InvariantViolation "bad offsets input, should be in increasing order: %s")
      else scan_items items' offsets out' n
  end.

Definition elementsThatOverlapOffsets (offsets : list Q) (itemCount : Z)
    : result (list (option Z)) :=
  scan_items (seqZ 0 itemCount) offsets (replicate (length offsets) None) 0.

(** ** What it computes *)

(** The first of [items] whose trailing edge reaches [o]. *)
Definition first_reaching (items : list Z) (o : Q) : option Z :=
  head (filter (fun ii => Qle_bool o (trailingOffset ii) = true) items).

Lemma first_reaching_snoc p ii o :
  first_reaching (p ++ [ii]) o =
    match first_reaching p o with
    | Some x => Some x
    | None => if Qle_bool o (trailingOffset ii) then Some ii else None
    end.
Proof.
  unfold first_reaching. rewrite filter_app. destruct (filter _ p) as [|x l]; [|done].
  simpl. rewrite filter_cons, filter_nil. case_decide as H; [by rewrite H|].
  by destruct (Qle_bool o (trailingOffset ii)).
Qed.
Lemma first_reaching_app p l o x :
  first_reaching p o = Some x -> first_reaching (p ++ l) o = Some x.
Proof. unfold first_reaching. rewrite filter_app. by destruct (filter _ p). Qed.

Definition filled (out : list (option Z)) : nat := length (omap id out).

Lemma filled_cons x out : filled (x :: out) = ((if x is Some _ then 1 else 0) + filled out)%nat.
Proof. by destruct x. Qed.
Lemma last_cons_ne {A} (x : A) l y : list.last l = Some y -> list.last (x :: l) = Some y.
Proof. by destruct l. Qed.

(** The state of [fill_slots] after item [ii], given that the items [p] came before. *)
Record slots_after (p : list Z) (ii : Z) (offsets : list Q) (n : nat)
    (r : list (option Z)) (n' : nat) (d : bool) : Prop := {
  sa_out : r = first_reaching (p ++ [ii]) <$> offsets;
  sa_count : (n' + filled (first_reaching p <$> offsets) = n + filled r)%nat;
  sa_done : d = true ->
    exists o, list.last offsets = Some o /\ Qle_bool o (trailingOffset ii) = true;
  sa_more : d = false -> forall o, list.last offsets = Some o -> first_reaching p o = None ->
    first_reaching (p ++ [ii]) o = None
}.

Lemma slots_after_cons p ii o offsets n n1 r n' d k :
  slots_after p ii offsets n1 r n' d ->
  (if first_reaching p o is Some _ then k = 0 else k = if Qle_bool o (trailingOffset ii) then 1 else 0)%nat ->
  n1 = (n + k)%nat ->
  (offsets = [] -> Qle_bool o (trailingOffset ii) = false \/ first_reaching p o <> None) ->
  slots_after p ii (o :: offsets) n (first_reaching (p ++ [ii]) o :: r) n' d.
Proof.
  intros [-> Hn Hd Hd'] Hk -> Hl. pose proof (first_reaching_snoc p ii o) as Hs. split.
  - done.
  - rewrite fmap_cons, !filled_cons. rewrite Hs in *.
    destruct (first_reaching p o), (Qle_bool o (trailingOffset ii)); lia.
  - intros ->. destruct Hd as (o' & Ho & Hx); [done|]. exists o'. eauto using last_cons_ne.
  - intros -> o' Ho Hp. destruct offsets as [|o2 offsets]; [|by apply Hd'].
    injection Ho as <-. rewrite Hs, Hp. destruct (Hl eq_refl) as [->|]; done.
Qed.

Lemma fill_slots_spec p ii offsets n :
  let '(r, n', d) := fill_slots ii (trailingOffset ii) offsets (first_reaching p <$> offsets) n in
  slots_after p ii offsets n r n' d.
Proof.
  revert n. induction offsets as [|o offsets IH]; intros n; [by split|].
  rewrite fmap_cons. cbn [fill_slots]. pose proof (first_reaching_snoc p ii o) as Hs.
  destruct (first_reaching p o) as [x|] eqn:Ep.
  { specialize (IH n). destruct (fill_slots _ _ _ _ _) as [[r n'] d]. rewrite <- Hs.
    eapply slots_after_cons; [exact IH|by rewrite Ep|lia|]. intros _. right. by rewrite Ep. }
  destruct (Qle_bool o (trailingOffset ii)) eqn:Eo.
  - destruct offsets as [|o2 offsets].
    + split; [by cbn; rewrite Hs|unfold filled; simpl; rewrite Ep; simpl; lia|by exists o|done].
    + specialize (IH (S n)). destruct (fill_slots _ _ _ _ _) as [[r n'] d]. rewrite <- Hs.
      eapply slots_after_cons; [exact IH|by rewrite Ep, Eo|lia|done].
  - specialize (IH n). destruct (fill_slots _ _ _ _ _) as [[r n'] d]. rewrite <- Hs.
    eapply slots_after_cons; [exact IH|by rewrite Ep, Eo|lia|by left].
Qed.

Lemma filled_le out : (filled out <= length out)%nat.
Proof. induction out as [|x out IH]; [done|]. rewrite filled_cons. simpl. destruct x; lia. Qed.
Lemma filled_all out : filled out = length out <-> Forall (fun x => x <> None) out.
Proof.
  induction out as [|x out IH]; [by split|]. rewrite filled_cons. pose proof (filled_le out).
  rewrite Forall_cons, <- IH. simpl. destruct x; split; intros; split_and?; try done; try lia.
  by destruct H0.
Qed.

(** With increasing offsets, an item that reaches the last one reaches them all. *)
Lemma sorted_last_reaches p ii offsets o :
  StronglySorted Qle offsets -> list.last offsets = Some o ->
  Qle_bool o (trailingOffset ii) = true ->
  Forall (fun o => first_reaching (p ++ [ii]) o <> None) offsets.
Proof.
  intros Hs Hl Ho. apply Qle_bool_iff in Ho.
  assert (Hall : Forall (fun x => x <= o)%Q offsets).
  { revert Hl. induction Hs as [|x l Hs IH Hx]; intros Hl; [done|]. constructor.
    - destruct l as [|y l]; [injection Hl as <-; apply Qle_refl|].
      rewrite Forall_forall in Hx. apply Hx. by apply list.last_Some_elem_of.
    - destruct l as [|y l]; [done|]. by apply IH. }
  eapply Forall_impl; [exact Hall|]. intros x Hx.
  assert (Qle_bool x (trailingOffset ii) = true) as E
    by (apply Qle_bool_iff; apply (Qle_trans _ o); [exact Hx|exact Ho]).
  rewrite first_reaching_snoc, E. by destruct (first_reaching p x).
Qed.

Lemma fmap_stable p l offsets :
  Forall (fun o => first_reaching p o <> None) offsets ->
  first_reaching (p ++ l) <$> offsets = first_reaching p <$> offsets.
Proof.
  intros H. apply list_fmap_ext. intros i o Hi. rewrite Forall_lookup in H. specialize (H _ _ Hi).
  destruct (first_reaching p o) eqn:E; [|done]. by apply first_reaching_app.
Qed.

Lemma scan_items_spec items p offsets :
  StronglySorted Qle offsets ->
  (forall o, list.last offsets = Some o -> first_reaching p o = None) ->
  scan_items items offsets (first_reaching p <$> offsets) (filled (first_reaching p <$> offsets)) =
    Ret (first_reaching (p ++ items) <$> offsets).
Proof.
  intros Hs. revert p. induction items as [|ii items IH]; intros p Hp; cbn [scan_items];
    [by rewrite app_nil_r|].
  pose proof (fill_slots_spec p ii offsets (filled (first_reaching p <$> offsets))) as H.
  destruct (fill_slots _ _ _ _ _) as [[r n'] d]. destruct H as [-> Hn Hd Hd'].
  rewrite (cons_middle ii p items), app_assoc. destruct d.
  - destruct Hd as (o & Hl & Ho); [done|].
    pose proof (sorted_last_reaches p _ _ _ Hs Hl Ho) as Hall.
    rewrite (fmap_stable (p ++ [ii]) items) by done.
    assert (filled (first_reaching (p ++ [ii]) <$> offsets) = length offsets) as E.
    { rewrite <- (length_fmap (first_reaching (p ++ [ii])) offsets). apply filled_all.
      by apply Forall_fmap. }
    assert (n' = length offsets) as -> by lia. by rewrite Nat.eqb_refl.
  - assert (n' = filled (first_reaching (p ++ [ii]) <$> offsets)) as -> by lia.
    apply IH. intros o Ho. apply Hd'; auto.
Qed.

(** The first item that reaches an offset, among the items [0 .. n-1]. *)
Lemma first_reaching_Some (n : nat) o a : first_reaching (seqZ 0 (Z.of_nat n)) o = Some a ->
  0 <= a < Z.of_nat n /\ Qle_bool o (trailingOffset a) = true /\
  forall j, 0 <= j < a -> Qle_bool o (trailingOffset j) = false.
Proof.
  revert a. induction n as [|n IH]; intros a; [done|].
  rewrite Nat2Z.inj_succ, <- Z.add_1_r, seqZ_app by lia. change (seqZ (0 + Z.of_nat n) 1) with [0 + Z.of_nat n].
  rewrite first_reaching_snoc. destruct (first_reaching _ o) as [x|] eqn:E.
  - intros [= <-]. destruct (IH x eq_refl) as (? & ? & ?). split_and!; try done; lia.
  - destruct (Qle_bool o _) eqn:Eo; [|done]. intros [= <-]. split_and!; try done; try lia.
    intros j Hj. apply not_true_is_false. intros Hr.
    assert (Hin : j ∈ filter (fun ii => Qle_bool o (trailingOffset ii) = true) (seqZ 0 (Z.of_nat n))).
    { apply list_elem_of_filter. split; [done|]. apply elem_of_seqZ. lia. }
    unfold first_reaching in E. destruct (filter _ _); [by apply elem_of_nil in Hin|done].
Qed.
Lemma first_reaching_None (n : nat) o j : first_reaching (seqZ 0 (Z.of_nat n)) o = None -> 0 <= j < Z.of_nat n ->
  Qle_bool o (trailingOffset j) = false.
Proof.
  intros E Hj. apply not_true_is_false. intros Hr.
  assert (Hin : j ∈ filter (fun ii => Qle_bool o (trailingOffset ii) = true) (seqZ 0 (Z.of_nat n))).
  { apply list_elem_of_filter. split; [done|]. apply elem_of_seqZ. lia. }
  unfold first_reaching in E. destruct (filter _ _); [by apply elem_of_nil in Hin|done].
Qed.
Lemma first_reaching_mono (n : nat) o1 o2 b : (o1 <= o2)%Q ->
  first_reaching (seqZ 0 (Z.of_nat n)) o2 = Some b ->
  exists a, first_reaching (seqZ 0 (Z.of_nat n)) o1 = Some a /\ a <= b.
Proof.
  intros Ho Hb. apply first_reaching_Some in Hb as (Hb & Hr & _).
  assert (Qle_bool o1 (trailingOffset b) = true) as Hr1
    by (apply Qle_bool_iff; apply Qle_bool_iff in Hr; by apply (Qle_trans _ o2)).
  destruct (first_reaching (seqZ 0 (Z.of_nat n)) o1) as [a|] eqn:E.
  - exists a. split; [done|]. apply first_reaching_Some in E as (Ha & _ & Hmin).
    destruct (decide (a <= b)); [done|]. rewrite Hmin in Hr1 by lia. done.
  - by rewrite (first_reaching_None n o1 b E Hb) in Hr1.
Qed.

Lemma overlap_first_reaching offsets itemCount :
  StronglySorted Qle offsets ->
  elementsThatOverlapOffsets offsets itemCount =
    Ret (first_reaching (seqZ 0 itemCount) <$> offsets).
Proof.
  intros Hs. unfold elementsThatOverlapOffsets.
  replace (replicate (length offsets) None) with (first_reaching [] <$> offsets).
  2: { clear. induction offsets; simpl; by f_equal. }
  pose proof (scan_items_spec (seqZ 0 itemCount) [] offsets Hs (fun _ _ => eq_refl)) as H.
  rewrite app_nil_l in H. rewrite <- H. f_equal.
  clear. induction offsets; [done|]. by rewrite fmap_cons, filled_cons.
Qed.

(** For offsets in increasing order the scan finds, for every offset, the first
    item whose trailing edge reaches it, and leaves the slot empty exactly when no
    item does, although it stops at the item that fills the last slot; the invariant
    on the order of the offsets never fails. *)
Theorem overlap_finds_first offsets itemCount :
  StronglySorted Qle offsets ->
  exists out, elementsThatOverlapOffsets offsets (Z.of_nat itemCount) = Ret out /\
    length out = length offsets /\
    forall k o, offsets !! k = Some o -> exists slot, out !! k = Some slot /\
      match slot with
      | Some a => 0 <= a < Z.of_nat itemCount /\ (o <= trailingOffset a)%Q /\
                  forall j, 0 <= j < a -> (trailingOffset j < o)%Q
      | None => forall j, 0 <= j < Z.of_nat itemCount -> (trailingOffset j < o)%Q
      end.
Proof.
  intros Hs. eexists. split; [by apply overlap_first_reaching|]. split; [apply length_fmap|].
  assert (Hlt : forall o j, Qle_bool o (trailingOffset j) = false -> (trailingOffset j < o)%Q).
  { intros o j E. apply Qnot_le_lt. rewrite <- Qle_bool_iff. by rewrite E. }
  intros k o Hk. eexists. rewrite list_lookup_fmap, Hk. split; [done|].
  destruct (first_reaching (seqZ 0 (Z.of_nat itemCount)) o) as [a|] eqn:E.
  - apply first_reaching_Some in E as (Ha & Hr & Hmin).
    split_and!; [lia|lia|by apply Qle_bool_iff|]. auto.
  - intros j Hj. by eapply Hlt, first_reaching_None.
Qed.
End overlap.

(** ** The window of rendered cells *)

Definition newRangeCount (prev next : range) : Z :=
  last next - first next + 1 -
  Z.max 0 (1 + Z.min (last next) (last prev) - Z.max (first next) (first prev)).

Inductive fill_preference := After | Before | NoPreference.
#[export] Instance fill_preference_eq_dec : EqDecision fill_preference.
Proof. solve_decision. Defined.

Section window.
Context (getFrameMetricsApprox : Z -> frame).
Context (maxToRenderPerBatch : Z) (windowSize : Q) (prev : range).

(** The variables of the loop that grows the window. *)
Record window := { w_first : Z; w_last : Z; newCellCount : Z }.

Section grow.
Context (fillPreference : fill_preference) (overscanFirst overscanLast : Z).

(** One iteration; [None] is a [break]. *)
Definition grow_step (w : window) : option window :=
  let first_ := w_first w in
  let last_ := w_last w in
  if (first_ <=? overscanFirst) && (overscanLast <=? last_) then None
  else
    let maxNewCells := maxToRenderPerBatch <=? newCellCount w in
    let firstWillAddMore := (first_ <=? first prev) || (last prev <? first_) in
    let firstShouldIncrement := (overscanFirst <? first_) && (negb maxNewCells || negb firstWillAddMore) in
    let lastWillAddMore := (last prev <=? last_) || (last_ <? first prev) in
    let lastShouldIncrement := (last_ <? overscanLast) && (negb maxNewCells || negb lastWillAddMore) in
    if maxNewCells && negb firstShouldIncrement && negb lastShouldIncrement then None
    else
      let growFirst := firstShouldIncrement &&
        negb (bool_decide (fillPreference = After) && lastShouldIncrement && lastWillAddMore) in
      let growLast := lastShouldIncrement &&
        negb (bool_decide (fillPreference = Before) && firstShouldIncrement && firstWillAddMore) in
      let n1 := if growFirst && firstWillAddMore then newCellCount w + 1 else newCellCount w in
      let n2 := if growLast && lastWillAddMore then n1 + 1 else n1 in
      Some (Build_window (if growFirst then first_ - 1 else first_)
              (if growLast then last_ + 1 else last_) n2).

(** [while (true)], with at most [fuel] iterations. *)
Fixpoint grow (fuel : nat) (w : window) : option window :=
  match fuel with
  | O => None
  | S fuel' => match grow_step w with None => Some w | Some w' => grow fuel' w' end
  end.
End grow.

(** The four offsets the window is computed from. *)
Definition visibleBegin (m : scroll_metrics) : Q := Qmaxb 0 (sm_offset m).
Definition visibleEnd (m : scroll_metrics) : Q := (visibleBegin m + sm_visibleLength m)%Q.
Definition overscanLength (m : scroll_metrics) : Q := ((windowSize - 1) * sm_visibleLength m)%Q.
Definition leadFactor : Q := (1 # 2)%Q.
Definition overscanBegin (m : scroll_metrics) : Q :=
  Qmaxb 0 (visibleBegin m - (1 - leadFactor) * overscanLength m).
Definition overscanEnd (m : scroll_metrics) : Q :=
  Qmaxb 0 (visibleEnd m + leadFactor * overscanLength m).
Definition fillPreference (m : scroll_metrics) : fill_preference :=
  if Qltb 1 (sm_velocity m) then After else if Qltb (sm_velocity m) (-1) then Before else NoPreference.

(** The render boundaries, with the defaults for the slots that were not filled:
    overscan range and visible range. *)
Definition boundaries (itemCount : Z) (slots : list (option Z)) : range * range :=
  let slot i := default None (slots !! i) in
  let overscanFirst := default 0 (slot 0%nat) in
  let first_ := default (Z.max 0 overscanFirst) (slot 1%nat) in
  let overscanLast := default (itemCount - 1) (slot 3%nat) in
  let last_ := default (Z.min overscanLast (first_ + maxToRenderPerBatch - 1)) (slot 2%nat) in
  (Build_range overscanFirst overscanLast, Build_range first_ last_).

(** Enough iterations for the loop to reach the overscan range on both sides. *)
Definition loop_fuel (overscan visible : range) : nat :=
  S (Z.to_nat (first visible - first overscan) + Z.to_nat (last overscan - last visible)).

Definition window_ok (itemCount : Z) (overscan visible w : range) : bool :=
  (first w <=? last w) && (0 <=? first w) && (last w <? itemCount) &&
  (first overscan <=? first w) && (last w <=? last overscan) &&
  (first w <=? first visible) && (last visible <=? last w).

Definition computeWindowedRenderLimits (itemCount : Z) (m : scroll_metrics) : result range :=
  if itemCount =? 0 then Ret prev
  else if Qltb (f_offset (getFrameMetricsApprox (itemCount - 1))) (overscanBegin m) then
    Ret (Build_range (Z.max 0 (itemCount - 1 - maxToRenderPerBatch)) (itemCount - 1))
  else
    match elementsThatOverlapOffsets getFrameMetricsApprox
            [overscanBegin m; visibleBegin m; visibleEnd m; overscanEnd m] itemCount with
    | Ret slots =>
        let '(overscan, visible) := boundaries itemCount slots in
        match grow (fillPreference m) (first overscan) (last overscan) (loop_fuel overscan visible)
                (Build_window (first visible) (last visible) (newRangeCount prev visible)) with
        | Some w =>
            let r := Build_range (w_first w) (w_last w) in
            if window_ok itemCount overscan visible r then Ret r
            else Throw (JSError "Bad window calculation")
        | None => OutOfFuel
        end
    | Throw e => Throw e
    | OutOfFuel => OutOfFuel
    end.

(** ** The loop *)

(** What every iteration keeps: the window stays inside the overscan range, contains
    the visible range, and [newCellCount] never undercounts the new cells. *)
Record window_inv (overscan visible : range) (n0 : Z) (w : window) : Prop := {
  wi_first : first overscan <= w_first w <= first visible;
  wi_last : last visible <= w_last w <= last overscan;
  wi_order : first visible <= last visible;
  wi_count : newRangeCount prev (Build_range (w_first w) (w_last w)) <= newCellCount w;
  wi_bound : newCellCount w <= Z.max n0 (maxToRenderPerBatch + 1)
}.

Definition window_measure (overscan : range) (w : window) : nat :=
  Z.to_nat (w_first w - first overscan) + Z.to_nat (last overscan - w_last w).

Ltac window_cases :=
  repeat match goal with
  | |- context [?a <=? ?b] => destruct (Z.leb_spec a b)
  | |- context [?a <? ?b] => destruct (Z.ltb_spec a b)
  end.

Lemma newRangeCount_first a b :
  a <= b ->
  newRangeCount prev (Build_range (a - 1) b) <=
  newRangeCount prev (Build_range a b) + (if (a <=? first prev) || (last prev <? a) then 1 else 0).
Proof. intros Hab. unfold newRangeCount. cbn. window_cases; cbn; lia. Qed.
Lemma newRangeCount_last a b :
  a <= b ->
  newRangeCount prev (Build_range a (b + 1)) <=
  newRangeCount prev (Build_range a b) + (if (last prev <=? b) || (b <? first prev) then 1 else 0).
Proof. intros Hab. unfold newRangeCount. cbn. window_cases; cbn; lia. Qed.

Lemma grow_step_progress fp overscan visible n0 w w' :
  window_inv overscan visible n0 w ->
  grow_step fp (first overscan) (last overscan) w = Some w' ->
  window_inv overscan visible n0 w' /\ (window_measure overscan w' < window_measure overscan w)%nat.
Proof.
  intros [H1 H2 H3 H4 H5] E. unfold grow_step in E.
  destruct ((w_first w <=? first overscan) && (last overscan <=? w_last w)) eqn:Edone; [done|].
  pose proof (newRangeCount_first (w_first w) (w_last w)) as Hf.
  pose proof (newRangeCount_last (w_first w) (w_last w)) as Hl.
  pose proof (newRangeCount_last (w_first w - 1) (w_last w)) as Hl'.
  set (fw := (w_first w <=? first prev) || (last prev <? w_first w)) in *.
  set (lw := (last prev <=? w_last w) || (w_last w <? first prev)) in *.
  set (maxed := maxToRenderPerBatch <=? newCellCount w) in *.
  assert (Hm : maxed = false -> newCellCount w < maxToRenderPerBatch)
    by (intros Hx; by apply Z.leb_gt).
  clearbody fw lw maxed.
  destruct (Z.ltb_spec (first overscan) (w_first w)), (Z.ltb_spec (w_last w) (last overscan));
    cbn [andb] in E; try lia;
  destruct maxed, fw, lw, fp; cbn in E; try discriminate E; injection E as <-;
    specialize (Hf ltac:(lia)); specialize (Hl ltac:(lia)); specialize (Hl' ltac:(lia));
    try specialize (Hm eq_refl); (split; [split|]); unfold window_measure; cbn; lia.
Qed.

Lemma grow_terminates fp overscan visible n0 fuel w :
  window_inv overscan visible n0 w -> (window_measure overscan w < fuel)%nat ->
  exists w', grow fp (first overscan) (last overscan) fuel w = Some w' /\
    window_inv overscan visible n0 w' /\
    grow_step fp (first overscan) (last overscan) w' = None.
Proof.
  revert w. induction fuel as [|fuel IH]; intros w Hi Hm; [lia|]. cbn [grow].
  destruct (grow_step _ _ _ w) as [w1|] eqn:E.
  - destruct (grow_step_progress _ _ _ _ _ _ Hi E) as [Hi1 Hm1]. apply IH; [done|lia].
  - by exists w.
Qed.

(** *** Progress

    When the cells rendered before contain the visible ones, [newCellCount] is exact,
    the loop keeps every such cell of the overscan range, and it stops only when the
    range is complete or a batch of cells has been added. *)
Definition beyond (w : window) : Z := Z.max 0 (first prev - w_first w) + Z.max 0 (w_last w - last prev).
(** How many cells of the overscan range are not rendered. *)
Definition missing (overscan r : range) : Z :=
  Z.max 0 (first r - first overscan) + Z.max 0 (last overscan - last r).

Record exact_inv (overscan visible : range) (w : window) : Prop := {
  ei_first : first overscan <= w_first w <= first visible;
  ei_last : last visible <= w_last w <= last overscan;
  ei_count : newCellCount w = beyond w
}.

Lemma grow_step_exact fp overscan visible w w' :
  first prev <= first visible -> last visible <= last prev -> first visible <= last visible ->
  exact_inv overscan visible w ->
  grow_step fp (first overscan) (last overscan) w = Some w' -> exact_inv overscan visible w'.
Proof.
  intros Hf Hl Hv [H1 H2 H3] E. unfold grow_step in E. unfold beyond in H3.
  destruct ((w_first w <=? first overscan) && (last overscan <=? w_last w)) eqn:Edone; [done|].
  assert (last prev <? w_first w = false) as Ea by lia. assert (w_last w <? first prev = false) as Eb by lia.
  rewrite Ea, Eb, !orb_false_r in E.
  destruct (Z.leb_spec (w_first w) (first prev)), (Z.leb_spec (last prev) (w_last w)),
    (Z.ltb_spec (first overscan) (w_first w)), (Z.ltb_spec (w_last w) (last overscan)),
    (maxToRenderPerBatch <=? newCellCount w), fp; cbn in E; try discriminate E; injection E as <-;
    split; unfold beyond; cbn; lia.
Qed.

Lemma grow_stop_exact fp overscan visible w :
  first prev <= first visible -> last visible <= last prev -> first visible <= last visible ->
  exact_inv overscan visible w -> grow_step fp (first overscan) (last overscan) w = None ->
  let r := Build_range (w_first w) (w_last w) in
  missing overscan r = 0 \/ missing overscan r <= missing overscan prev - maxToRenderPerBatch.
Proof.
  intros Hf Hl Hv [H1 H2 H3] E. unfold grow_step in E. unfold beyond, missing in *. cbn.
  destruct ((w_first w <=? first overscan) && (last overscan <=? w_last w)) eqn:Edone; [lia|right].
  assert (last prev <? w_first w = false) as Ea by lia. assert (w_last w <? first prev = false) as Eb by lia.
  rewrite Ea, Eb, !orb_false_r in E.
  destruct (Z.leb_spec maxToRenderPerBatch (newCellCount w)); [|cbn in E; by destruct (_ && _) in E].
  destruct (Z.leb_spec (w_first w) (first prev)), (Z.leb_spec (last prev) (w_last w)),
    (Z.ltb_spec (first overscan) (w_first w)), (Z.ltb_spec (w_last w) (last overscan));
    cbn in E; try discriminate E; lia.
Qed.

Lemma grow_exact fp overscan visible fuel w w' :
  first prev <= first visible -> last visible <= last prev -> first visible <= last visible ->
  exact_inv overscan visible w -> grow fp (first overscan) (last overscan) fuel w = Some w' ->
  exact_inv overscan visible w' /\ grow_step fp (first overscan) (last overscan) w' = None.
Proof.
  intros Hf Hl Hv. revert w. induction fuel as [|fuel IH]; intros w Hi E; [done|]. cbn [grow] in E.
  destruct (grow_step _ _ _ w) as [w1|] eqn:Es; [|by injection E as <-].
  apply (IH w1); [by eapply grow_step_exact|done].
Qed.

(** ** The whole computation *)
Context (itemCount : nat) (m : scroll_metrics).
Hypothesis Hbatch : 1 <= maxToRenderPerBatch.
Hypothesis Hsize : (1 <= windowSize)%Q.
Hypothesis Hvisible : (0 <= sm_visibleLength m)%Q.

Lemma overscanLength_nonneg : (0 <= overscanLength m)%Q.
Proof. unfold overscanLength. apply Qmult_le_0_compat; lra. Qed.
Lemma offsets_sorted :
  (overscanBegin m <= visibleBegin m)%Q /\ (visibleBegin m <= visibleEnd m)%Q /\
  (visibleEnd m <= overscanEnd m)%Q.
Proof.
  pose proof overscanLength_nonneg as Ho.
  destruct (Qmaxb_spec 0 (sm_offset m)) as (Hv & _).
  destruct (Qmaxb_spec 0 (visibleBegin m - (1 - leadFactor) * overscanLength m)%Q) as (_ & _ & Hb).
  destruct (Qmaxb_spec 0 (visibleEnd m + leadFactor * overscanLength m)%Q) as (_ & He & _).
  fold (visibleBegin m) in Hv. fold (overscanBegin m) in Hb. fold (overscanEnd m) in He.
  unfold leadFactor in *. split_and!; [|unfold visibleEnd; lra|lra].
  destruct Hb as [Hb|Hb]; rewrite Hb; lra.
Qed.

Abbreviation reach o := (first_reaching getFrameMetricsApprox (seqZ 0 (Z.of_nat itemCount)) o).
Abbreviation slots := [reach (overscanBegin m); reach (visibleBegin m);
  reach (visibleEnd m); reach (overscanEnd m)].

Lemma overlap_slots :
  elementsThatOverlapOffsets getFrameMetricsApprox
    [overscanBegin m; visibleBegin m; visibleEnd m; overscanEnd m] (Z.of_nat itemCount) = Ret slots.
Proof.
  destruct offsets_sorted as (H1 & H2 & H3).
  apply overlap_first_reaching.
  repeat constructor; eauto using Qle_trans.
Qed.

Abbreviation overscan := (fst (boundaries (Z.of_nat itemCount) slots)).
Abbreviation visible := (snd (boundaries (Z.of_nat itemCount) slots)).

(** Any later boundary that exists makes the earlier ones exist, in order. *)
Lemma boundaries_ordered : (0 < itemCount)%nat ->
  0 <= first overscan <= first visible /\ first visible <= last visible <= last overscan /\
  last overscan < Z.of_nat itemCount.
Proof.
  intros Hn. destruct offsets_sorted as (H1 & H2 & H3).
  pose proof (first_reaching_mono getFrameMetricsApprox itemCount) as Hmono.
  pose proof (first_reaching_Some getFrameMetricsApprox itemCount) as Hrange.
  cbn. destruct (reach (overscanBegin m)) as [a|] eqn:Ea; cbn.
  - apply Hrange in Ea as Ra. destruct (reach (visibleBegin m)) as [b|] eqn:Eb; cbn.
    + apply Hrange in Eb as Rb. destruct (Hmono _ _ _ H1 Eb) as (a' & Ea' & Hab).
      assert (a' = a) as -> by congruence.
      destruct (reach (visibleEnd m)) as [c|] eqn:Ec; cbn.
      * apply Hrange in Ec as Rc. destruct (Hmono _ _ _ H2 Ec) as (b' & Eb' & Hbc).
        assert (b' = b) as -> by congruence.
        destruct (reach (overscanEnd m)) as [d|] eqn:Ed; cbn; [|lia].
        apply Hrange in Ed as Rd. destruct (Hmono _ _ _ H3 Ed) as (c' & Ec' & Hcd).
        assert (c' = c) as -> by congruence. lia.
      * destruct (reach (overscanEnd m)) as [d|] eqn:Ed; cbn; [|lia].
        destruct (Hmono _ _ _ H3 Ed) as (c' & Ec' & Hcd). congruence.
    + destruct (reach (visibleEnd m)) as [c|] eqn:Ec.
      { destruct (Hmono _ _ _ H2 Ec) as (b' & Eb' & _). congruence. }
      destruct (reach (overscanEnd m)) as [d|] eqn:Ed; cbn; [|lia].
      destruct (Hmono _ _ _ H3 Ed) as (c' & Ec' & _). congruence.
  - assert (Hnone : forall o, (overscanBegin m <= o)%Q -> reach o = None).
    { intros o Ho. destruct (reach o) as [x|] eqn:Ex; [|done].
      destruct (Hmono _ _ _ Ho Ex) as (? & ? & _). congruence. }
    rewrite !Hnone; [cbn; lia|..]; eauto using Qle_trans.
Qed.

Abbreviation near := (Qltb (f_offset (getFrameMetricsApprox (Z.of_nat itemCount - 1))) (overscanBegin m) = false).

Lemma limits_spec : (0 < itemCount)%nat -> near ->
  exists r, computeWindowedRenderLimits (Z.of_nat itemCount) m = Ret r /\
    first overscan <= first r <= first visible /\ last visible <= last r <= last overscan /\
    newRangeCount prev r <= Z.max (newRangeCount prev visible) (maxToRenderPerBatch + 1).
Proof.
  intros Hn Hnear. destruct (boundaries_ordered Hn) as (B1 & B2 & B3).
  unfold computeWindowedRenderLimits. rewrite (proj2 (Z.eqb_neq _ _)) by lia.
  rewrite Hnear, overlap_slots.
  set (ov := overscan) in *. set (vi := visible) in *.
  assert (boundaries (Z.of_nat itemCount) slots = (ov, vi)) as -> by done.
  clearbody ov vi.
  set (w0 := Build_window (first vi) (last vi) (newRangeCount prev vi)).
  destruct (grow_terminates (fillPreference m) ov vi (newRangeCount prev vi) (loop_fuel ov vi) w0)
    as (w & E & [H1 H2 H3 H4 H5] & _).
  - subst w0. destruct vi. by split; cbn in *; try lia.
  - unfold window_measure, loop_fuel, w0. cbn. lia.
  - rewrite E. assert (window_ok (Z.of_nat itemCount) ov vi (Build_range (w_first w) (w_last w)) = true) as ->.
    { unfold window_ok. cbn. lia. }
    eexists. split; [done|]. cbn. split_and!; lia.
Qed.

(** With the visible cells already rendered, one update completes the overscan range
    or adds a whole batch to it. *)
Lemma limits_progress r : (0 < itemCount)%nat -> near ->
  first prev <= first visible -> last visible <= last prev ->
  computeWindowedRenderLimits (Z.of_nat itemCount) m = Ret r ->
  missing overscan r = 0 \/ missing overscan r <= missing overscan prev - maxToRenderPerBatch.
Proof.
  intros Hn Hnear Hpf Hpl. destruct (boundaries_ordered Hn) as (B1 & B2 & B3).
  unfold computeWindowedRenderLimits. rewrite (proj2 (Z.eqb_neq _ _)) by lia. rewrite Hnear, overlap_slots.
  set (ov := overscan) in *. set (vi := visible) in *.
  assert (boundaries (Z.of_nat itemCount) slots = (ov, vi)) as -> by done. clearbody ov vi.
  destruct (grow _ _ _ _ _) as [w|] eqn:E; [|done].
  assert (H : exact_inv ov vi w /\ grow_step (fillPreference m) (first ov) (last ov) w = None).
  { eapply grow_exact; [..|exact E]; try lia. split; cbn; [lia..|]. unfold newRangeCount, beyond. cbn. lia. }
  destruct H as [Hi Hs]. destruct (window_ok _ _ _ _); [|done]. intros [= <-].
  apply (grow_stop_exact (fillPreference m) ov vi w); try done. lia.
Qed.


(** The window grows by at most one cell more than [maxToRenderPerBatch]: the
    number of cells of the result that were not rendered before is bounded by
    [maxToRenderPerBatch + 1], or by the number of new visible cells when that is
    larger. *)
Theorem limits_batch_bound r :
  (0 < itemCount)%nat -> near -> computeWindowedRenderLimits (Z.of_nat itemCount) m = Ret r ->
  newRangeCount prev r <= Z.max (newRangeCount prev visible) (maxToRenderPerBatch + 1).
Proof.
  intros Hn Hnear E. destruct (limits_spec Hn Hnear) as (r' & E' & _ & _ & H). congruence.
Qed.
End window.

(** ** Concrete lists: 100 cells of height 10 *)
Section examples.
Definition rows (i : Z) : frame := Build_frame 10 (inject_Z (10 * i)).
Definition scrolled (o v : Q) : scroll_metrics := Build_scroll_metrics 10 o v 50.

Lemma overlap_finds_first_witness :
  StronglySorted Qle [0; 55]%Q /\
  exists out, elementsThatOverlapOffsets rows [0; 55]%Q 100 = Ret out /\ length out = 2%nat.
Proof.
  assert (H : StronglySorted Qle [0; 55]%Q) by (repeat constructor; vm_compute; discriminate).
  split; [exact H|]. destruct (overlap_finds_first rows [0; 55]%Q 100 H) as (out & E & L & _).
  exists out. split; [exact E|exact L].
Defined.


(** The bound is reached: with [maxToRenderPerBatch = 10] and cells 25 to 30 already
    rendered and visible, 11 new cells are rendered. *)
Lemma limits_batch_bound_witness :
  let r := Build_range 20 35 in
  computeWindowedRenderLimits rows 10 21 (Build_range 25 29) 100 (scrolled 255 0) = Ret r /\
  newRangeCount (Build_range 25 29) r = 11 /\
  newRangeCount (Build_range 25 29) r <= 11.
Proof.
  intros r.
  assert (Hb : 1 <= 10) by lia.
  assert (Hs : (1 <= 21)%Q) by (vm_compute; discriminate).
  assert (Hv : (0 <= sm_visibleLength (scrolled 255 0))%Q) by (vm_compute; discriminate).
  assert (E : computeWindowedRenderLimits rows 10 21 (Build_range 25 29) 100 (scrolled 255 0) = Ret r)
    by (vm_compute; reflexivity).
  assert (Hn : (0 < 100)%nat) by lia.
  pose proof (limits_batch_bound rows 10 21 (Build_range 25 29) 100 (scrolled 255 0) Hb Hs Hv r
    Hn eq_refl E) as H.
  split_and!; [exact E|reflexivity|]. vm_compute in H. exact H.
Defined.
End examples.
