(* ===== verification/Viewability.v ===== *)
(** * Viewability

    Libraries/Lists/ViewabilityHelper.js: which items of a list are viewable and the
    notifications a list sends about them.  Metrics are rationals, the layout of the
    items ([getFrameMetrics]) and the tokens ([createViewToken]) are parameters.  A
    JavaScript [Map] is an association list in insertion order.

    Each call of [onUpdate] passes its own closures; a deferred update keeps them in
    its timer.  The model keeps them fixed, as a list does between two renders:
    they are parameters of a section. *)
From S2P Require Import Prelude Rationals.
From stdpp Require Import base numbers list strings gmap fin_maps.
From Stdlib Require Import QArith Lqa.
Open Scope Z_scope.

Record metrics := { m_length : Q; m_offset : Q }.
Record ViewabilityConfig := {
  minimumViewTime : option Q;
  viewAreaCoveragePercentThreshold : option Q;
  itemVisiblePercentThreshold : option Q;
  waitForInteraction : option bool
}.

Definition isEntirelyVisible (top bottom viewportHeight : Q) : bool :=
  Qle_bool 0 top && Qle_bool bottom viewportHeight && Qltb top bottom.
Definition getPixelsVisible (top bottom viewportHeight : Q) : Q :=
  Qmaxb 0 (Qminb bottom viewportHeight - Qmaxb top 0)%Q.
(** The comparison [100 * (pixels / total) >= threshold].  With [total = 0] the
    quotient is NaN or infinite: NaN (no visible pixel) fails the comparison. *)
Definition percent_at_least (pixels total threshold : Q) : bool :=
  if Qeq_bool total 0 then Qltb 0 pixels
  else Qle_bool threshold (100 * (pixels / total))%Q.
Definition isViewable (viewAreaMode : bool) (threshold top bottom viewportHeight itemLength : Q) : bool :=
  if isEntirelyVisible top bottom viewportHeight then true
  else percent_at_least (getPixelsVisible top bottom viewportHeight)
         (if viewAreaMode then viewportHeight else itemLength) threshold.

(** ** The scan for viewable items *)
Section scan.
Context (getFrameMetrics : Z -> option metrics).
Context (viewAreaMode : bool) (threshold scrollOffset viewportHeight : Q).

Definition top_of (mt : metrics) : Q := (m_offset mt - scrollOffset)%Q.
Definition bottom_of (mt : metrics) : Q := (top_of mt + m_length mt)%Q.
Definition in_viewport (mt : metrics) : bool :=
  Qltb (top_of mt) viewportHeight && Qltb 0 (bottom_of mt).
Definition viewable (mt : metrics) : bool :=
  isViewable viewAreaMode threshold (top_of mt) (bottom_of mt) viewportHeight (m_length mt).

(** The loop over the render range; [firstVisible] is -1 or an index. *)
Fixpoint scan (items : list Z) (firstVisible : Z) (viewableIndices : list Z) : list Z :=
  match items with
  | [] => viewableIndices
  | idx :: items' =>
      match getFrameMetrics idx with
      | None => scan items' firstVisible viewableIndices
      | Some mt =>
          if in_viewport mt then
            scan items' idx (if viewable mt then viewableIndices ++ [idx] else viewableIndices)
          else if 0 <=? firstVisible then viewableIndices
          else scan items' firstVisible viewableIndices
      end
  end.

(** The items a scan of the whole range would report. *)
Definition is_viewable (idx : Z) : bool :=
  match getFrameMetrics idx with
  | Some mt => in_viewport mt && viewable mt
  | None => false
  end.

(** Items are laid out in order: neither edge ever moves backwards. *)
Definition laid_out : Prop := forall i j a b, i < j ->
  getFrameMetrics i = Some a -> getFrameMetrics j = Some b ->
  (m_offset a <= m_offset b)%Q /\ (m_offset a + m_length a <= m_offset b + m_length b)%Q.
End scan.

Record scan_range := { sr_first : Z; sr_last : Z }.

Definition computeViewableItems (getFrameMetrics : Z -> option metrics) (c : ViewabilityConfig)
    (itemCount : Z) (scrollOffset viewportHeight : Q) (renderRange : option scan_range)
    : result (list Z) :=
  let viewAreaMode := bool_decide (is_Some (viewAreaCoveragePercentThreshold c)) in
  let itemMode := bool_decide (is_Some (itemVisiblePercentThreshold c)) in
  match (if viewAreaMode then viewAreaCoveragePercentThreshold c else itemVisiblePercentThreshold c) with
  | Some threshold =>
      if negb (eqb itemMode viewAreaMode) then
        if itemCount =? 0 then Ret []
        else
          let r := default (Build_scan_range 0 (itemCount - 1)) renderRange in
          if itemCount <=? sr_last r then Ret [] (* and a warning *)
          else Ret (scan getFrameMetrics viewAreaMode threshold scrollOffset viewportHeight
                      (seqZ (sr_first r) (sr_last r - sr_first r + 1)) (-1) [])
      else Throw (InvariantViolation "Must set exactly one of itemVisiblePercentThreshold or viewAreaCoveragePercentThreshold")
  | None => Throw (InvariantViolation "Must set exactly one of itemVisiblePercentThreshold or viewAreaCoveragePercentThreshold")
  end.

Section scan_spec.
Context (getFrameMetrics : Z -> option metrics).
Context (viewAreaMode : bool) (threshold scrollOffset viewportHeight : Q).
Hypothesis Hlaid : laid_out getFrameMetrics.
Abbreviation in_view := (in_viewport scrollOffset viewportHeight).
Abbreviation reported := (is_viewable getFrameMetrics viewAreaMode threshold scrollOffset viewportHeight).
Abbreviation run := (scan getFrameMetrics viewAreaMode threshold scrollOffset viewportHeight).

(** Past the viewport nothing is in the viewport any more. *)
Lemma past_viewport i j k a b c : i < j -> j < k ->
  getFrameMetrics i = Some a -> getFrameMetrics j = Some b -> getFrameMetrics k = Some c ->
  in_view a = true -> in_view b = false -> in_view c = false.
Proof.
  intros Hij Hjk Ha Hb Hc Ia Ib. destruct (Hlaid i j a b Hij Ha Hb) as [H1 H2].
  destruct (Hlaid j k b c Hjk Hb Hc) as [H3 H4]. unfold in_viewport in *.
  apply andb_true_iff in Ia as [I1 I2]. rewrite Qltb_true in I1, I2.
  apply andb_false_iff in Ib as [Ib|Ib]; apply not_true_iff_false in Ib; rewrite Qltb_true in Ib;
    apply andb_false_iff; rewrite <- !not_true_iff_false, !Qltb_true; unfold bottom_of, top_of in *;
    [left|]; lra.
Qed.

Lemma scan_stops n i j a b : i < j -> getFrameMetrics i = Some a -> getFrameMetrics j = Some b ->
  in_view a = true -> in_view b = false ->
  filter (fun idx => reported idx = true) (seqZ (j + 1) n) = [].
Proof.
  intros Hij Ha Hb Ia Ib. apply filter_none. intros k [? ?]%elem_of_seqZ. unfold is_viewable.
  destruct (getFrameMetrics k) as [c|] eqn:Hc; [|done].
  by rewrite (past_viewport i j k a b c) by (done || lia).
Qed.

Lemma scan_filter (n : nat) start fv acc :
  (fv = -1 \/ 0 <= fv < start /\ exists a, getFrameMetrics fv = Some a /\ in_view a = true) ->
  0 <= start ->
  run (seqZ start (Z.of_nat n)) fv acc =
    acc ++ filter (fun idx => reported idx = true) (seqZ start (Z.of_nat n)).
Proof.
  revert start fv acc. induction n as [|n IH]; intros start fv acc Hfv Hs; [by rewrite app_nil_r|].
  rewrite Nat2Z.inj_succ, seqZ_cons by lia. cbn [scan]. rewrite filter_bool_cons.
  replace (Z.pred (Z.succ (Z.of_nat n))) with (Z.of_nat n) by lia. unfold is_viewable at 1.
  destruct (getFrameMetrics start) as [mt|] eqn:E.
  2: { rewrite IH; [done| |lia]. destruct Hfv as [|[? ?]]; [by left|right; split; [lia|done]]. }
  destruct (in_view mt) eqn:Ei; cbn [andb].
  - rewrite IH; [|right; split; [lia|by exists mt]|lia].
    destruct (viewable _ _ _ _ mt); by rewrite <- ?app_assoc.
  - destruct Hfv as [->|[Hfv (a & Ha & Ia)]].
    + rewrite IH; [done|by left|lia].
    + rewrite (proj2 (Z.leb_le 0 fv)) by lia.
      rewrite <- Z.add_1_r, (scan_stops _ fv start a mt) by (done || lia). by rewrite app_nil_r.
Qed.
End scan_spec.

(** Over items laid out in order the scan reports exactly the viewable items of the
    render range, in order, although it stops at the first item past the viewport;
    an invalid range reports none and a configuration without exactly one threshold
    throws. *)
Theorem computeViewableItems_spec getFrameMetrics c itemCount scrollOffset viewportHeight renderRange :
  laid_out getFrameMetrics ->
  let r := default (Build_scan_range 0 (itemCount - 1)) renderRange in
  0 <= sr_first r ->
  match viewAreaCoveragePercentThreshold c, itemVisiblePercentThreshold c with
  | Some t, None | None, Some t =>
      computeViewableItems getFrameMetrics c itemCount scrollOffset viewportHeight renderRange =
      Ret (if (itemCount =? 0) || (itemCount <=? sr_last r) then [] else
        filter (fun idx => is_viewable getFrameMetrics
          (bool_decide (is_Some (viewAreaCoveragePercentThreshold c))) t scrollOffset viewportHeight idx = true)
          (seqZ (sr_first r) (sr_last r - sr_first r + 1)))
  | _, _ => exists msg,
      computeViewableItems getFrameMetrics c itemCount scrollOffset viewportHeight renderRange =
      Throw (InvariantViolation msg)
  end.
Proof.
  intros Hl r Hr. unfold computeViewableItems. fold r.
  assert (Hscan : forall mode t, scan getFrameMetrics mode t scrollOffset viewportHeight
      (seqZ (sr_first r) (sr_last r - sr_first r + 1)) (-1) [] =
      filter (fun idx => is_viewable getFrameMetrics mode t scrollOffset viewportHeight idx = true)
        (seqZ (sr_first r) (sr_last r - sr_first r + 1))).
  { intros mode t. destruct (decide (0 <= sr_last r - sr_first r + 1)) as [H|H].
    - rewrite <- (Z2Nat.id (_ - _ + 1)) by done. rewrite scan_filter by auto. done.
    - rewrite seqZ_nil by lia. done. }
  destruct (viewAreaCoveragePercentThreshold c) as [v|], (itemVisiblePercentThreshold c) as [i|];
    cbn; rewrite ?Hscan; eauto; by repeat case_match.
Qed.

(** ** The helper *)

Record ViewToken := { key : string; index : Z; tok_isViewable : bool }.
Record notification := { n_viewableItems : list ViewToken; n_changed : list ViewToken }.

Record st := {
  hasInteracted : bool;
  timers : gset nat;
  viewableIndices : list Z;
  viewableItems : list (string * ViewToken);
  pending : gmap nat (list Z);   (* the deferred updates, by timer handle *)
  nextHandle : nat;
  notified : list notification   (* the calls of onViewableItemsChanged *)
}.
Definition new_ViewabilityHelper : st := Build_st false ∅ [] [] ∅ 1 [].

Section helper.
Context (config : ViewabilityConfig) (getFrameMetrics : Z -> option metrics).
Context (createViewToken : Z -> bool -> ViewToken).

Definition resetViewableIndices : JS st unit := modify (fun s =>
  Build_st (hasInteracted s) (timers s) [] (viewableItems s) (pending s) (nextHandle s) (notified s)).
Definition recordInteraction : JS st unit := modify (fun s =>
  Build_st true (timers s) (viewableIndices s) (viewableItems s) (pending s) (nextHandle s) (notified s)).

(** [this._timers.forEach(clearTimeout)]. *)
Definition dispose : JS st unit := modify (fun s =>
  Build_st (hasInteracted s) (timers s) (viewableIndices s) (viewableItems s)
    (filter (fun e => e.1 ∉ timers s) (pending s)) (nextHandle s) (notified s)).

Definition next_items (indices : list Z) : list (string * ViewToken) :=
  map_of ((fun ii => let viewable := createViewToken ii true in (key viewable, viewable)) <$> indices).
Definition not_viewable (t : ViewToken) : ViewToken := Build_ViewToken (key t) (index t) false.
Definition changes (prevItems nextItems : list (string * ViewToken)) : list ViewToken :=
  (filter (fun e => map_has e.1 prevItems = false) nextItems).*2 ++
  (not_viewable <$> (filter (fun e => map_has e.1 nextItems = false) prevItems).*2).

Definition onUpdateSync (viewableIndicesToCheck : list Z) : JS st unit := modify (fun s =>
  let nextItems := next_items (filter (fun ii => ii ∈ viewableIndices s) viewableIndicesToCheck) in
  let changed := changes (viewableItems s) nextItems in
  match changed with
  | [] => s
  | _ => Build_st (hasInteracted s) (timers s) (viewableIndices s) nextItems (pending s)
           (nextHandle s) (notified s ++ [Build_notification nextItems.*2 changed])
  end).

Definition truthy (q : option Q) : bool := match q with Some q => negb (Qeq_bool q 0) | None => false end.

Definition onUpdate (itemCount : Z) (scrollOffset viewportHeight : Q)
    (renderRange : option scan_range) : JS st unit :=
  let! interacted := gets hasInteracted in
  if (default false (waitForInteraction config) && negb interacted) || (itemCount =? 0) ||
     bool_decide (getFrameMetrics 0 = None)
  then ret tt
  else
    let! indices := (fun s =>
      (computeViewableItems getFrameMetrics config itemCount scrollOffset viewportHeight renderRange, s)) in
    let! old := gets viewableIndices in
    if bool_decide (old = indices) then ret tt
    else
      do! modify (fun s => Build_st (hasInteracted s) (timers s) indices (viewableItems s)
            (pending s) (nextHandle s) (notified s));
      if truthy (minimumViewTime config) then
        modify (fun s => Build_st (hasInteracted s) ({[nextHandle s]} ∪ timers s) (viewableIndices s)
          (viewableItems s) (<[nextHandle s := indices]> (pending s)) (S (nextHandle s)) (notified s))
      else onUpdateSync indices.

(** A deferred update runs. *)
Definition fire (handle : nat) : JS st unit :=
  let! p := gets (fun s => pending s !! handle) in
  match p with
  | None => ret tt
  | Some indices =>
      do! modify (fun s => Build_st (hasInteracted s) (timers s ∖ {[handle]}) (viewableIndices s)
            (viewableItems s) (delete handle (pending s)) (nextHandle s) (notified s));
      onUpdateSync indices
  end.

Inductive op :=
  | Update (itemCount : Z) (scrollOffset viewportHeight : Q) (renderRange : option scan_range)
  | Fire (handle : nat) | ResetIndices | RecordInteraction | Dispose.
Definition run_op (o : op) : JS st unit :=
  match o with
  | Update n o v r => onUpdate n o v r
  | Fire h => fire h
  | ResetIndices => resetViewableIndices
  | RecordInteraction => recordInteraction
  | Dispose => dispose
  end.
Definition run_ops (l : list op) (s : st) : st := foldl (fun s o => final (run_op o) s) s l.

(** ** An observer of the notifications *)

(** What a client that applies each [changed] list believes to be viewable. *)
Definition observe_token (k : gset string) (t : ViewToken) : gset string :=
  if tok_isViewable t then {[key t]} ∪ k else k ∖ {[key t]}.
Definition observe (l : list notification) : gset string :=
  foldl (fun k n => foldl observe_token k (n_changed n)) ∅ l.

Hypothesis Htoken : forall i b, tok_isViewable (createViewToken i b) = b.

Definition tokens_ok (m : list (string * ViewToken)) : Prop :=
  NoDup m.*1 /\ Forall (fun e => key e.2 = e.1 /\ tok_isViewable e.2 = true) m.
Record synced (s : st) : Prop := {
  sy_tokens : tokens_ok (viewableItems s);
  sy_observer : observe (notified s) = list_to_set (viewableItems s).*1;
  sy_last : forall n, list.last (notified s) = Some n -> n_viewableItems n = (viewableItems s).*2
}.

Lemma next_items_ok l : tokens_ok (next_items l).
Proof.
  split; [apply map_of_NoDup|]. apply map_of_Forall, Forall_fmap, Forall_forall.
  intros i _. cbn. by rewrite Htoken.
Qed.

Lemma observe_viewable k l : Forall (fun t => tok_isViewable t = true) l ->
  foldl observe_token k l = k ∪ list_to_set (key <$> l).
Proof.
  intros H. revert k. induction H as [|t l Ht _ IH]; intros k; cbn; [set_solver|].
  rewrite IH. unfold observe_token. rewrite Ht. set_solver.
Qed.
Lemma observe_not_viewable k l :
  foldl observe_token k (not_viewable <$> l) = k ∖ list_to_set (key <$> l).
Proof.
  revert k. induction l as [|t l IH]; intros k; cbn; [set_solver|].
  rewrite IH. unfold observe_token. cbn. set_solver.
Qed.
Lemma tokens_ok_keys m : tokens_ok m -> key <$> m.*2 = m.*1.
Proof.
  intros [_ H]. induction H as [|[k t] m [Hk _] _ IH]; [done|]. cbn in *. by f_equal.
Qed.
Lemma tokens_ok_filter (f : string -> bool) b m :
  Forall (fun e => key e.2 = e.1 /\ tok_isViewable e.2 = true) m ->
  Forall (fun e => key e.2 = e.1 /\ tok_isViewable e.2 = true) (filter (fun e => f e.1 = b) m).
Proof.
  rewrite !Forall_forall. intros H e [_ He]%list_elem_of_filter. by apply H.
Qed.
Lemma filter_keys (f : string -> bool) b m : tokens_ok m ->
  key <$> (filter (fun e => f e.1 = b) m).*2 = (filter (fun e => f e.1 = b) m).*1.
Proof.
  intros [_ H]. pose proof (tokens_ok_filter f b m H) as H'.
  induction H' as [|[k t] l [Hk _] _ IH]; [done|]. cbn in *. by f_equal.
Qed.

(** Applying the changes to the old key set gives the new one. *)
Lemma observe_changes prev next : tokens_ok prev -> tokens_ok next ->
  foldl observe_token (list_to_set prev.*1) (changes prev next) = list_to_set next.*1.
Proof.
  intros Hp Hn. unfold changes. rewrite foldl_app, observe_not_viewable, observe_viewable.
  2: { apply Forall_fmap. eapply Forall_impl; [by apply (tokens_ok_filter (fun k => map_has k prev)), Hn|]. by intros ? [_ ?]. }
  rewrite (filter_keys (fun k => map_has k prev)), (filter_keys (fun k => map_has k next)) by done.
  apply set_eq. intros x.
  rewrite elem_of_difference, elem_of_union, !elem_of_list_to_set, (elem_of_filter_keys (fun k => map_has k prev)),
    (elem_of_filter_keys (fun k => map_has k next)),
    <- !not_true_iff_false, !map_has_spec.
  destruct (decide (x ∈ next.*1)), (decide (x ∈ prev.*1)); naive_solver.
Qed.

Lemma synced_new : synced new_ViewabilityHelper.
Proof. split; cbn; [|done..]. split; constructor. Qed.

(** Only [onUpdateSync] touches the tokens and the notifications. *)
Lemma synced_frame s s' :
  viewableItems s' = viewableItems s -> notified s' = notified s -> synced s -> synced s'.
Proof. intros E1 E2 [H1 H2 H3]. split; rewrite ?E1, ?E2; done. Qed.
#[local] Hint Extern 4 (evolves (keeps synced) (modify _)) =>
  apply evolves_modify; intros ?; unfold keeps; apply synced_frame; reflexivity : js.

Lemma onUpdateSync_synced l : preserves synced (onUpdateSync l).
Proof.
  apply evolves_modify. intros s [H1 H2 H3].
  pose proof (next_items_ok (filter (fun ii => ii ∈ viewableIndices s) l)) as Hn.
  pose proof (observe_changes _ _ H1 Hn) as Ho. cbn zeta.
  destruct (changes _ _) as [|t ts] eqn:E; [by split|]. split; cbn; [done| |].
  - unfold observe in *. by rewrite foldl_app, H2.
  - intros n. rewrite last_snoc. by intros [= <-].
Qed.
#[local] Hint Resolve onUpdateSync_synced : js.

Lemma run_op_synced o : preserves synced (run_op o).
Proof.
  destruct o; cbn; unfold onUpdate, fire, resetViewableIndices, recordInteraction, dispose; js_auto.
  by intros s Hs.
Qed.

(** C40. Whatever the sequence of updates, timers and resets, a client that applies the
    [changed] tokens of each notification (adding the viewable ones, removing the
    others) knows exactly the keys the helper considers viewable, and the
    [viewableItems] of the last notification are the helper's current ones. *)
Theorem observer_in_sync l :
  let s := run_ops l new_ViewabilityHelper in
  observe (notified s) = list_to_set (viewableItems s).*1 /\
  forall n, list.last (notified s) = Some n -> n_viewableItems n = (viewableItems s).*2.
Proof.
  intros s. assert (H : synced s)
    by exact (keeps_foldl synced run_op l _ run_op_synced synced_new).
  split; apply H.
Qed.

(** ** When nothing is notified *)

(** [timers] holds the handle of every deferred update. *)
Definition timers_ok (s : st) : Prop := forall h, is_Some (pending s !! h) -> h ∈ timers s.
Lemma timers_frame s s' : timers s' = timers s -> pending s' = pending s -> timers_ok s -> timers_ok s'.
Proof. unfold timers_ok. by intros -> ->. Qed.
#[local] Hint Extern 4 (evolves (keeps timers_ok) (modify _)) =>
  apply evolves_modify; intros ?; unfold keeps; apply timers_frame; reflexivity : js.
Lemma onUpdateSync_timers l : preserves timers_ok (onUpdateSync l).
Proof. apply evolves_modify. intros s Hs. cbn zeta. by destruct (changes _ _). Qed.
#[local] Hint Resolve onUpdateSync_timers : js.
Lemma run_op_timers o : preserves timers_ok (run_op o).
Proof.
  clear Htoken.
  destruct o; cbn; unfold onUpdate, fire, resetViewableIndices, recordInteraction; js_auto.
  - by intros s Hs.
  - apply evolves_modify. intros s Hs h. cbn. rewrite lookup_insert. destruct (decide _) as [->|]; [set_solver|].
    intros Hh. apply Hs in Hh. set_solver.
  - apply evolves_modify. intros s Hs x. cbn. rewrite lookup_delete. destruct (decide _) as [->|]; [by intros []|].
    intros Hh. apply Hs in Hh. set_solver.
  - apply evolves_modify. intros s Hs h. cbn. intros [x [Hx _]%map_lookup_filter_Some]. apply Hs. by exists x.
Qed.

Definition asleep (n : list notification) (s : st) : Prop := pending s = ∅ /\ notified s = n.
Lemma run_op_asleep n o : (forall a b c d, o <> Update a b c d) -> preserves (asleep n) (run_op o).
Proof.
  destruct o; intros Ho s [H1 H2]; [by edestruct Ho|..]; cbn; try done.
  - unfold fire, final. rewrite bind_gets, H1, lookup_empty. done.
  - split; [|done]. cbn. rewrite H1. apply map_filter_empty.
Qed.

Definition waiting (s : st) : Prop := hasInteracted s = false /\ pending s = ∅ /\ notified s = [].
Lemma run_op_waiting o : waitForInteraction config = Some true -> o <> RecordInteraction ->
  preserves waiting (run_op o).
Proof.
  intros Hw Ho s (H1 & H2 & H3). destruct o; cbn; try done.
  - unfold onUpdate, final. rewrite bind_gets, Hw, H1. done.
  - unfold fire, final. rewrite bind_gets, H2, lookup_empty. done.
  - split_and!; try done. cbn. rewrite H2. apply map_filter_empty.
Qed.

(** Nothing is notified while the helper waits for an interaction, and nothing is
    notified after [dispose] until the next update, whatever timers were pending.
    With a minimum view time an update itself never notifies, and a deferred update
    that runs notifies only items that were viewable when it was scheduled and are
    still viewable when it runs. *)
Theorem notifications_are_justified l :
  let s := run_ops l new_ViewabilityHelper in
  (waitForInteraction config = Some true -> RecordInteraction ∉ l -> notified s = []) /\
  (forall l', (forall a b c d, Update a b c d ∉ l') -> notified (run_ops l' (final dispose s)) = notified s) /\
  (truthy (minimumViewTime config) = true ->
     forall a b c d, notified (final (onUpdate a b c d) s) = notified s) /\
  (forall h indices n, pending s !! h = Some indices ->
     notified (final (fire h) s) = notified s ++ [n] ->
     forall t, t ∈ n_viewableItems n ->
       exists i, t = createViewToken i true /\ i ∈ indices /\ i ∈ viewableIndices s).
Proof.
  intros s.
  assert (Ht : timers_ok s).
  { apply (keeps_foldl timers_ok run_op l _ run_op_timers). intros h. cbn. rewrite lookup_empty. by intros []. }
  split_and!.
  - clear Ht. intros Hw Hl. assert (waiting s) as (_ & _ & H); [|done].
    subst s. unfold run_ops. assert (H0 : waiting new_ViewabilityHelper) by done. revert H0.
    generalize new_ViewabilityHelper as x. induction l as [|o l' IH]; intros x Hx; [done|]. cbn.
    apply not_elem_of_cons in Hl as [Ho Hl]. apply IH; [done|].
    apply run_op_waiting; congruence || done.
  - intros l' Hl'. assert (asleep (notified s) (run_ops l' (final dispose s))) as [_ H]; [|done].
    assert (H0 : asleep (notified s) (final dispose s)).
    { split; [|done]. cbn. apply map_empty. intros h. apply map_lookup_filter_None. right.
      intros x Hx. cbn. intros Hn. apply Hn, Ht. by exists x. }
    clear Ht. revert H0. generalize (final dispose s) as x. induction l' as [|o l' IH]; intros x Hx; [done|]. cbn.
    apply IH; [intros a b c d H; by eapply Hl', list_elem_of_further|].
    apply run_op_asleep; [|done]. intros a b c d ->. eapply Hl', list_elem_of_here.
  - intros Hm a b c d. unfold onUpdate, final. rewrite bind_gets.
    destruct (_ || _ || _); [done|]. unfold bind at 1.
    destruct (computeViewableItems _ _ _ _ _ _); [|done..]. rewrite bind_gets.
    case_bool_decide; [done|]. by rewrite bind_modify, Hm.
  - intros h indices n Hp Hn t Hin. unfold fire, final in Hn. rewrite bind_gets, Hp, bind_modify in Hn.
    unfold onUpdateSync, modify in Hn. cbn in Hn. destruct (changes _ _); cbn in Hn.
    { apply (f_equal length) in Hn. rewrite length_app in Hn. cbn in Hn. lia. }
    apply app_inv_head in Hn. injection Hn as <-. cbn in Hin.
    apply list_elem_of_fmap in Hin as ([k t'] & -> & Hin). cbn.
    assert (Hall : Forall (fun e : string * ViewToken => exists i, e.2 = createViewToken i true /\
      i ∈ indices /\ i ∈ viewableIndices s) (next_items (filter (fun ii => ii ∈ viewableIndices s) indices))).
    { apply map_of_Forall, Forall_fmap, Forall_forall. intros i [Hv Hi]%list_elem_of_filter. by exists i. }
    rewrite Forall_forall in Hall. apply (Hall _ Hin).
Qed.
End helper.

(** ** A list of three items *)
Section examples.
Definition three (i : Z) : option metrics :=
  if (0 <=? i) && (i <? 3) then Some (Build_metrics 10 (inject_Z (10 * i))) else None.
Definition half : ViewabilityConfig := Build_ViewabilityConfig (Some 100%Q) (Some 50%Q) None (Some true).
Definition token (i : Z) (b : bool) : ViewToken :=
  Build_ViewToken (if i =? 0 then "a" else if i =? 1 then "b" else "c") i b.

Lemma three_laid_out : laid_out three.
Proof.
  intros i j a b Hij. unfold three.
  destruct ((0 <=? i) && (i <? 3)), ((0 <=? j) && (j <? 3)); try done.
  intros [= <-] [= <-]. cbn. assert (H : (inject_Z (10 * i) <= inject_Z (10 * j))%Q) by (rewrite <- Zle_Qle; lia).
  split; lra.
Qed.

Lemma computeViewableItems_spec_witness :
  computeViewableItems three half 3 5 10 None = Ret [0; 1].
Proof.
  pose proof (computeViewableItems_spec three half 3 5 10 None three_laid_out) as H. cbn zeta in H.
  assert (H0 : 0 <= 0) by lia. specialize (H H0).
  refine (eq_trans H _). vm_compute. reflexivity.
Defined.

Definition scroll_ops : list op :=
  [RecordInteraction; Update 3 0 10 None; Update 3 10 20 None; Fire 1; Fire 2].
Lemma observer_in_sync_witness :
  observe (notified (run_ops half three token scroll_ops new_ViewabilityHelper)) = {["b"; "c"]}.
Proof.
  destruct (observer_in_sync half three token (fun _ _ => eq_refl) scroll_ops) as [H _].
  rewrite H. vm_compute. reflexivity.
Defined.

Lemma notifications_are_justified_witness :
  let l := [Update 3 0 10 None; Fire 1] in
  notified (run_ops half three token l new_ViewabilityHelper) = [].
Proof.
  intros l.
  destruct (notifications_are_justified half three token l) as (H & _). apply H; [reflexivity|].
  unfold l. rewrite !not_elem_of_cons. split_and!; [discriminate|discriminate|apply not_elem_of_nil].
Defined.
End examples.
