(* ===== verification/TaskQueue.v ===== *)
(** * TaskQueue

    Libraries/Interaction/TaskQueue.js: a stack of queues of tasks.  The queue lives in
    a larger state: the class [HasTaskQueue] says how, and InteractionManager.v gives
    the instance.  What tasks do is client code over that larger state, so a task may
    re-enter the queue.

    A promise returned by a [gen] task is an entry of [promises]: the closure given to
    its [then], which remembers the index of the queue the task pushed.  [resolve] and
    [reject] are the steps of the environment that settle it. *)
From S2P Require Import Prelude.
From stdpp Require Import base numbers list strings gmap fin_maps.

(** [SimpleTask], [PromiseTask], a function, or anything else; [t_id] is the identity
    of the task object. *)
Inductive task_kind (F : Type) := Run (f : F) | Gen (f : F) | Fn (f : F) | NotATask.
Arguments Run {F}. Arguments Gen {F}. Arguments Fn {F}. Arguments NotATask {F}.
Record task (F : Type) := { t_id : nat; t_name : option string; t_kind : task_kind F }.
Arguments t_id {F}. Arguments t_name {F}. Arguments t_kind {F}.

Record queue (F : Type) := { tasks : list (task F); popable : bool }.
Arguments Build_queue {F}. Arguments tasks {F}. Arguments popable {F}.

Record tq (F : Type) := {
  queueStack : list (queue F);
  promises : gmap nat nat;
  nextPromise : nat
}.
Arguments Build_tq {F}. Arguments queueStack {F}. Arguments promises {F}. Arguments nextPromise {F}.

Definition new_TaskQueue {F} : tq F := Build_tq [Build_queue [] false] ∅ 0.

(** [_getCurrentQueue]: pops the finished queues from the top; the stack is given top
    first. *)
Fixpoint pop_queues {F} (l : list (queue F)) : list (queue F) :=
  match l with
  | [] => []
  | q :: rest =>
      if popable q && (length (tasks q) =? 0) && (0 <? length rest) then pop_queues rest else l
  end.
Definition pop_stack {F} (q : tq F) : tq F :=
  Build_tq (reverse (pop_queues (reverse (queueStack q)))) (promises q) (nextPromise q).
Definition current_tasks {F} (q : tq F) : list (task F) :=
  match list.last (queueStack q) with Some x => tasks x | None => [] end.
(** Replaces the tasks of the queue on top. *)
Definition set_current {F} (l : list (task F)) (q : tq F) : tq F :=
  let n := length (queueStack q) - 1 in
  Build_tq (alter (fun x => Build_queue l (popable x)) n (queueStack q)) (promises q) (nextPromise q).

(** A state that contains a task queue. *)
Class HasTaskQueue (Σ F : Type) := {
  tq_get : Σ -> tq F;
  tq_set : tq F -> Σ -> Σ;
  tq_get_set : forall q s, tq_get (tq_set q s) = q;
  tq_set_set : forall q q' s, tq_set q (tq_set q' s) = tq_set q s;
  tq_set_get : forall s, tq_set (tq_get s) s = s
}.

Section taskqueue.
Context {Σ F : Type} `{!HasTaskQueue Σ F}.
Context (run gen : F -> JS Σ unit) (onMoreTasks : JS Σ unit).

Definition upd (f : tq F -> tq F) : JS Σ unit := modify (fun s => tq_set (f (tq_get s)) s).

Definition getCurrentQueue : JS Σ (list (task F)) :=
  do! upd pop_stack;
  gets (fun s => current_tasks (tq_get s)).

Definition enqueue (t : task F) : JS Σ unit :=
  let! l := getCurrentQueue in
  upd (set_current (l ++ [t])).
Definition enqueueTasks (l : list (task F)) : JS Σ unit := for_each l enqueue.

Definition cancel_in (tasksToCancel : list (task F)) (q : queue F) : queue F :=
  Build_queue (filter (fun t => t_id t ∉ (t_id <$> tasksToCancel)) (tasks q)) (popable q).
Definition cancel_stack (tasksToCancel : list (task F)) (l : list (queue F)) : list (queue F) :=
  match cancel_in tasksToCancel <$> l with
  | [] => []
  | q :: rest => q :: filter (fun q => 0 < length (tasks q)) rest
  end.
Definition cancelTasks (tasksToCancel : list (task F)) : JS Σ unit :=
  upd (fun q => Build_tq (cancel_stack tasksToCancel (queueStack q)) (promises q) (nextPromise q)).

Definition hasTasksToProcess : JS Σ bool :=
  let! l := getCurrentQueue in ret (0 <? length l).

(** [_genPromise]: the [then] closure is registered when [gen] has returned. *)
Definition genPromise (f : F) : JS Σ unit :=
  do! upd (fun q => Build_tq (queueStack q ++ [Build_queue [] false]) (promises q) (nextPromise q));
  let! stackIdx := gets (fun s => length (queueStack (tq_get s)) - 1) in
  do! gen f;
  upd (fun q => Build_tq (queueStack q) (<[nextPromise q := stackIdx]> (promises q)) (S (nextPromise q))).

Definition prefixed (name : option string) (msg : string) : string :=
  ("TaskQueue: Error with task " +:+ default "" name +:+ ": " +:+ msg)%string.
Definition with_prefix (name : option string) (e : exn) : exn :=
  match e with
  | InvariantViolation msg => InvariantViolation (prefixed name msg)
  | JSError msg => JSError (prefixed name msg)
  | UserError t => UserError t
  end.

Definition run_task (t : task F) : JS Σ unit :=
  match t_kind t with
  | Gen f => genPromise f
  | Run f | Fn f => run f
  | NotATask => throw (InvariantViolation "Expected Function, SimpleTask, or PromiseTask, but got:\n")
  end.
Definition processNext : JS Σ unit :=
  let! l := getCurrentQueue in
  match l with
  | [] => ret tt
  | t :: rest =>
      do! upd (set_current rest);
      try_catch (run_task t) (fun e => throw (with_prefix (t_name t) e))
  end.

(** The [then] closure of promise [p]. *)
Definition resolve (p : nat) : JS Σ unit :=
  let! i := gets (fun s => promises (tq_get s) !! p) in
  match i with
  | None => ret tt
  | Some stackIdx =>
      do! upd (fun q => Build_tq (queueStack q) (delete p (promises q)) (nextPromise q));
      let! x := gets (fun s => queueStack (tq_get s) !! stackIdx) in
      match x with
      | None => throw (JSError "TypeError: undefined is not an object (setting popable)")
      | Some x =>
          do! upd (fun q => Build_tq (<[stackIdx := Build_queue (tasks x) true]> (queueStack q))
                               (promises q) (nextPromise q));
          let! b := hasTasksToProcess in
          when b onMoreTasks
      end
  end.
(** Its [catch] closure: the error is thrown again. *)
Definition reject (p : nat) (e : exn) : JS Σ unit :=
  let! i := gets (fun s => promises (tq_get s) !! p) in
  match i with
  | None => ret tt
  | Some _ =>
      do! upd (fun q => Build_tq (queueStack q) (delete p (promises q)) (nextPromise q));
      throw e
  end.

(** ** The stack of queues *)

(** [l'] is [l] with finished queues popped from the top. *)
Lemma pop_queues_suffix (l : list (queue F)) : exists k, l = k ++ pop_queues l /\
  Forall (fun q => popable q = true /\ tasks q = []) k /\ (l <> [] -> pop_queues l <> []).
Proof.
  induction l as [|q l (k & E & Hk & Hne)]; [by exists []|]. cbn [pop_queues].
  destruct (popable q && (length (tasks q) =? 0) && (0 <? length l)) eqn:Ec.
  - exists (q :: k). apply andb_prop in Ec as [[Ep Et]%andb_prop Hl].
    split_and!; [by rewrite <- app_comm_cons, <- E|constructor; [split; [done|]|done]|].
    + by apply nil_length_inv, Nat.eqb_eq.
    + intros _. apply Hne. intros ->. done.
  - by exists [].
Qed.

(** The invariant of the stack while nobody cancels: it is never empty, and an
    unsettled promise owns a queue above the bottom one, which cannot be popped. *)
Record stack_inv (q : tq F) : Prop := {
  si_nonempty : queueStack q <> [];
  si_promise : forall p i, promises q !! p = Some i ->
    1 <= i /\ exists x, queueStack q !! i = Some x /\ popable x = false;
  si_injective : forall p p' i, promises q !! p = Some i -> promises q !! p' = Some i -> p = p';
  si_fresh : forall p i, promises q !! p = Some i -> p < nextPromise q
}.

(** A queue above the bottom that cannot be popped and that no promise owns: its [gen]
    function is still running, or has thrown, or its promise was rejected. *)
Definition reserved (q : tq F) (i : nat) : Prop :=
  1 <= i /\ (exists x, queueStack q !! i = Some x /\ popable x = false) /\
  forall p, promises q !! p <> Some i.

(** The tasks of the queues below index [i]. *)
Definition below (i : nat) (q : tq F) : list (list (task F)) := tasks <$> take i (queueStack q).

(** What an operation does to the queues below the one a promise [p] waits in, or
    below a reserved one: nothing, as long as [p] is unsettled. *)
Record touched (p : nat) (q q' : tq F) : Prop := {
  to_inv : stack_inv q';
  to_next : nextPromise q <= nextPromise q';
  to_settled : p < nextPromise q -> promises q !! p = None -> promises q' !! p = None;
  to_waiting : forall i, promises q !! p = Some i -> promises q' !! p = None \/
    (promises q' !! p = Some i /\ below i q' = below i q);
  to_reserved : forall i, reserved q i ->
    reserved q' i /\ below i q' = below i q
}.
Definition untouched (p : nat) (q q' : tq F) : Prop := stack_inv q -> touched p q q'.

#[local] Instance untouched_preorder p : PreOrder (untouched p).
Proof.
  split.
  - intros q Hi. split; auto.
  - intros a b c Hab Hbc Ha. destruct (Hab Ha) as [Hb N1 P1 T1 R1].
    destruct (Hbc Hb) as [Hc N2 P2 T2 R2]. split; [done|lia|..].
    + intros Hp Hn. apply P2; [lia|]. by apply P1.
    + intros i Hi. destruct (T1 i Hi) as [Hn|[Hi' E]].
      * left. apply P2; [|done]. pose proof (si_fresh _ Ha p i Hi). lia.
      * destruct (T2 i Hi') as [|[? E']]; [by left|]. right. split; [done|congruence].
    + intros i Hi. destruct (R1 i Hi) as [Hi' E]. destruct (R2 i Hi') as [? E'].
      split; [done|congruence].
Qed.
Definition untouched_in (p : nat) (s s' : Σ) : Prop := untouched p (tq_get s) (tq_get s').
#[local] Instance untouched_in_preorder p : PreOrder (untouched_in p).
Proof.
  split; [intros s; unfold untouched_in; reflexivity|].
  intros a b c. unfold untouched_in. apply transitivity.
Qed.

Lemma untouched_of_inv p (q q' : tq F) : (stack_inv q -> untouched p q q') -> untouched p q q'.
Proof. intros H Hi. by apply H. Qed.
Lemma untouched_upd p f : (forall q, untouched p q (f q)) -> evolves (untouched_in p) (upd f).
Proof. intros H. apply evolves_modify. intros s. unfold untouched_in. rewrite tq_get_set. apply H. Qed.

(** An update that keeps the promises and every queue below the top, and whose stack
    is a prefix of the old one that lost only finished queues. *)
Lemma untouched_stack p (q : tq F) stack' :
  stack' <> [] ->
  (forall i x, queueStack q !! i = Some x -> popable x = false ->
     exists x', stack' !! i = Some x' /\ popable x' = false) ->
  (forall i x, 1 <= i -> queueStack q !! i = Some x -> popable x = false ->
     take i stack' = take i (queueStack q)) ->
  untouched p q (Build_tq stack' (promises q) (nextPromise q)).
Proof.
  intros Hne Hk Ht Hi. pose proof Hi as [H1 H2 H3 H4]. split; cbn; [|done|done|..].
  - split; cbn; try done. intros p' i Hp'. destruct (H2 p' i Hp') as (? & x & Hx & Hp).
    split; [done|]. eauto.
  - intros i Hp. right. split; [done|]. destruct (H2 p i Hp) as (? & x & Hx & Hpx).
    unfold below. cbn. f_equal. eauto.
  - intros i (Hi1 & (x & Hx & Hpx) & Hf). split; [|unfold below; cbn; f_equal; by eapply Ht].
    split_and!; eauto.
Qed.

Lemma pop_stack_untouched p q : untouched p q (pop_stack q).
Proof.
  destruct (pop_queues_suffix (reverse (queueStack q))) as (k & E & Hk & Hne).
  unfold pop_stack. set (l := pop_queues (reverse (queueStack q))) in *.
  assert (E' : queueStack q = reverse l ++ reverse k).
  { rewrite <- reverse_app, <- E. by rewrite reverse_involutive. }
  assert (Hlt : forall i x, queueStack q !! i = Some x -> popable x = false -> i < length (reverse l)).
  { intros i x Hx Hp. destruct (decide (i < length (reverse l))) as [|Hge]; [done|].
    rewrite E', lookup_app_r in Hx by lia. apply list_elem_of_lookup_2 in Hx. rewrite elem_of_reverse in Hx.
    rewrite Forall_forall in Hk. destruct (Hk _ Hx). congruence. }
  apply untouched_of_inv. intros Hi. apply untouched_stack.
  - intros Hnil. apply (f_equal reverse) in Hnil. rewrite reverse_involutive in Hnil. apply Hne in Hnil; [done|].
    intros Hr. apply (f_equal reverse) in Hr. rewrite reverse_involutive in Hr. by apply (si_nonempty _ Hi).
  - intros i x Hx Hp. exists x. split; [|done]. pose proof (Hlt i x Hx Hp).
    rewrite E', lookup_app_l in Hx by done. done.
  - intros i x _ Hx Hp. pose proof (Hlt i x Hx Hp). rewrite E'. by rewrite take_app_le by lia.
Qed.
#[local] Hint Resolve untouched_in_preorder : js.

(** Replacing the tasks of the top queue touches no queue a promise waits below. *)
Lemma set_current_untouched p l q : untouched p q (set_current l q).
Proof.
  apply untouched_of_inv. intros Hi. apply untouched_stack.
  - intros Hnil. apply (f_equal length) in Hnil. rewrite length_alter in Hnil.
    apply nil_length_inv in Hnil. by apply (si_nonempty _ Hi).
  - intros i x Hx Hp. destruct (decide (length (queueStack q) - 1 = i)) as [<-|].
    + rewrite list_lookup_alter_eq, Hx. by eexists.
    + rewrite list_lookup_alter_ne by done. by exists x.
  - intros i x _ Hx Hp. apply lookup_lt_Some in Hx. by rewrite take_alter, decide_False by lia.
Qed.

Lemma push_untouched p q :
  untouched p q (Build_tq (queueStack q ++ [Build_queue [] false]) (promises q) (nextPromise q)).
Proof.
  apply untouched_of_inv. intros Hi. apply untouched_stack.
  - by destruct (queueStack q).
  - intros i x Hx Hp. exists x. split; [by apply lookup_app_l_Some|done].
  - intros i x _ Hx _. apply lookup_lt_Some in Hx. apply take_app_le. lia.
Qed.

Lemma getCurrentQueue_untouched p : evolves (untouched_in p) getCurrentQueue.
Proof. unfold getCurrentQueue. js_auto. apply untouched_upd, pop_stack_untouched. Qed.
#[local] Hint Resolve getCurrentQueue_untouched : js.
Lemma enqueue_untouched p t : evolves (untouched_in p) (enqueue t).
Proof. unfold enqueue. js_auto. apply untouched_upd, set_current_untouched. Qed.
#[local] Hint Resolve enqueue_untouched : js.
Lemma enqueueTasks_untouched p l : evolves (untouched_in p) (enqueueTasks l).
Proof. unfold enqueueTasks. js_auto. Qed.
Lemma hasTasks_untouched p : evolves (untouched_in p) hasTasksToProcess.
Proof. unfold hasTasksToProcess. js_auto. Qed.
#[local] Hint Resolve hasTasks_untouched : js.

(** A settled promise is forgotten; its queue may become popable. *)
Lemma settle_untouched p p' i q b : promises q !! p' = Some i ->
  untouched p q (Build_tq (alter (fun x => Build_queue (tasks x) (b || popable x)) i (queueStack q))
                   (delete p' (promises q)) (nextPromise q)).
Proof.
  intros Hp' Hi. pose proof Hi as [H1 H2 H3 H4].
  set (f := fun x : queue F => Build_queue (tasks x) (b || popable x)).
  assert (Hkeep : forall j, j <> i -> (exists x, queueStack q !! j = Some x /\ popable x = false) ->
    exists x, alter f i (queueStack q) !! j = Some x /\ popable x = false).
  { intros j Hj (x & Hx & Hp). exists x. by rewrite list_lookup_alter_ne. }
  assert (Hbelow : forall j, tasks <$> take j (alter f i (queueStack q)) = tasks <$> take j (queueStack q)).
  { intros j. apply list_eq. intros k. rewrite !list_lookup_fmap. destruct (decide (k < j)).
    - rewrite !lookup_take_lt by done. destruct (decide (i = k)) as [->|].
      + rewrite list_lookup_alter_eq. by destruct (queueStack q !! k).
      + by rewrite list_lookup_alter_ne.
    - by rewrite !lookup_take_ge by lia. }
  split; cbn; [split; cbn|lia|..].
  - intros Hnil. apply (f_equal length) in Hnil. rewrite length_alter in Hnil.
    by apply nil_length_inv in Hnil.
  - intros x j [Hne Hx]%lookup_delete_Some. destruct (H2 x j Hx) as [? Hy].
    split; [done|]. apply Hkeep; [|done]. intros ->. by apply Hne, (H3 _ _ i).
  - intros x y j [_ Hx]%lookup_delete_Some [_ Hy]%lookup_delete_Some. by eapply H3.
  - intros x j [_ Hx]%lookup_delete_Some. by eapply H4.
  - intros _ Hn. by apply lookup_delete_None; right.
  - intros j Hp. destruct (decide (p' = p)) as [->|]; [left; apply lookup_delete_eq|right].
    rewrite lookup_delete_ne by done. split; [done|]. apply Hbelow.
  - intros j (Hj & Hx & Hf). split; [|apply Hbelow]. split_and!; [done| |].
    + apply Hkeep; [|done]. intros ->. by eapply Hf.
    + intros x Hd. cbn in Hd. apply lookup_delete_Some in Hd as [_ Hd]. by eapply Hf.
Qed.

Lemma alter_self {A} (f : A -> A) i (l : list A) : (forall x, f x = x) -> alter f i l = l.
Proof.
  intros H. apply list_eq. intros k. destruct (decide (i = k)) as [->|].
  - rewrite list_lookup_alter_eq. destruct (l !! k); cbn; by rewrite ?H.
  - by rewrite list_lookup_alter_ne.
Qed.
Lemma alter_insert {A} (f : A -> A) i (l : list A) x : l !! i = Some x -> alter f i l = <[i := f x]> l.
Proof.
  intros H. apply list_eq. intros k. destruct (decide (i = k)) as [->|].
  - by rewrite list_lookup_alter_eq, H, list_lookup_insert_eq by (by eapply lookup_lt_Some).
  - by rewrite list_lookup_alter_ne, list_lookup_insert_ne.
Qed.

Lemma reject_untouched p p' e : evolves (untouched_in p) (reject p' e).
Proof.
  intros s. unfold reject, final. rewrite bind_gets.
  destruct (promises (tq_get s) !! p') as [i|] eqn:E; [|reflexivity]. unfold upd. rewrite bind_modify.
  unfold untouched_in. cbn. rewrite tq_get_set.
  pose proof (settle_untouched p p' i (tq_get s) false E) as H.
  rewrite alter_self in H; [done|]. by intros [].
Qed.

Section clients.
Hypothesis Hrun : forall p f, evolves (untouched_in p) (run f).
Hypothesis Hgen : forall p f, evolves (untouched_in p) (gen f).
Hypothesis Hmore : forall p, evolves (untouched_in p) onMoreTasks.

(** A pending promise always finds its queue: the assignment of [popable] cannot fail. *)
Lemma resolve_step p s i : stack_inv (tq_get s) -> promises (tq_get s) !! p = Some i ->
  exists s', resolve p s = (let! b := hasTasksToProcess in when b onMoreTasks) s' /\
    tq_get s' = Build_tq (alter (fun x => Build_queue (tasks x) true) i (queueStack (tq_get s)))
                  (delete p (promises (tq_get s))) (nextPromise (tq_get s)).
Proof.
  intros Hi Hp. destruct (si_promise _ Hi p i Hp) as (_ & x & Hx & _).
  unfold resolve. rewrite bind_gets, Hp. unfold upd. rewrite bind_modify, bind_gets, tq_get_set. cbn.
  rewrite Hx, bind_modify. eexists. split; [reflexivity|]. rewrite !tq_get_set. cbn.
  by rewrite (alter_insert _ _ _ x).
Qed.

Lemma resolve_untouched p p' : evolves (untouched_in p) (resolve p').
Proof.
  intros s. unfold untouched_in. apply untouched_of_inv. intros Hi.
  destruct (promises (tq_get s) !! p') as [i|] eqn:E.
  2: { unfold resolve, final. rewrite bind_gets, E. cbn. reflexivity. }
  destruct (resolve_step p' s i Hi E) as (s' & Es & Et). unfold final. rewrite Es.
  transitivity (tq_get s').
  - rewrite Et. apply (settle_untouched p p' i (tq_get s) true E).
  - assert (H : evolves (untouched_in p) (let! b := hasTasksToProcess in when b onMoreTasks)) by js_auto.
    apply H.
Qed.

Lemma genPromise_untouched p f : evolves (untouched_in p) (genPromise f).
Proof.
  intros s. unfold untouched_in. apply untouched_of_inv. intros Hi.
  unfold genPromise, final, upd. rewrite bind_modify. set (s1 := tq_set _ s). rewrite bind_gets.
  pose proof (push_untouched p (tq_get s)) as U1.
  assert (E1 : tq_get s1 = Build_tq (queueStack (tq_get s) ++ [Build_queue [] false])
    (promises (tq_get s)) (nextPromise (tq_get s))) by (unfold s1; by rewrite tq_get_set).
  rewrite <- E1 in U1. set (n := length (queueStack (tq_get s1)) - 1).
  assert (En : n = length (queueStack (tq_get s))) by (unfold n; rewrite E1; cbn; rewrite length_app; cbn; lia).
  assert (Hr : reserved (tq_get s1) n).
  { rewrite En, E1. split_and!; cbn.
    - destruct (queueStack (tq_get s)) eqn:Eq; [by apply si_nonempty in Hi|cbn; lia].
    - exists (Build_queue [] false). split; [|done]. by apply list_lookup_middle.
    - intros x Hx. destruct (si_promise _ Hi x _ Hx) as (_ & y & Hy & _). apply lookup_lt_Some in Hy. lia. }
  pose proof (Hgen p f s1) as U2. unfold untouched_in, final, bind in *.
  destruct (gen f s1) as [[[]|e|] s2]; cbn in U2 |- *; try (by transitivity (tq_get s1)).
  rewrite tq_get_set. specialize (U1 Hi). pose proof (U2 (to_inv _ _ _ U1)) as T2.
  destruct (to_reserved _ _ _ T2 n Hr) as [(Hn & Hx & Hfree) _].
  assert (T : touched p (tq_get s) (tq_get s2)) by (apply (transitivity (R:=untouched p) (y:=tq_get s1)); auto; by intros _).
  clear U1 U2 T2 Hr. destruct T as [[I1 I2 I3 I4] N P W R]. intros _.
  assert (Hfresh : forall x i, promises (tq_get s2) !! x = Some i -> x <> nextPromise (tq_get s2)).
  { intros x i Hxi ->. apply I4 in Hxi. lia. }
  split; cbn; [split; cbn|lia|..].
  - done.
  - intros x i. rewrite lookup_insert. case_decide; [|apply I2]. intros [= <-]. done.
  - intros x y i. rewrite !lookup_insert. repeat case_decide; subst; intros Hx' Hy'; try congruence.
      first [by injection Hx' as <-; apply Hfree in Hy' | by injection Hy' as <-; apply Hfree in Hx'
            | by eapply I3].
  - intros x i. rewrite lookup_insert. case_decide; [lia|]. intros Hxi. apply I4 in Hxi. lia.
  - intros Hp Hno. rewrite lookup_insert_ne by lia. auto.
  - intros i Hpi. destruct (W i Hpi) as [Hno|[Hyes E]].
    + left. rewrite lookup_insert_ne; [done|]. intros Heq. apply (si_fresh _ Hi) in Hpi. lia.
    + right. rewrite lookup_insert_ne by (by apply not_eq_sym; eapply Hfresh). done.
  - intros i Hri. destruct (R i Hri) as [(R1 & R2 & R3) E]. split; [|done]. split_and!; [done|done|].
    intros x. cbn. rewrite lookup_insert. case_decide; [|apply R3]. intros [= ->].
    destruct Hri as (_ & (y & Hy & _) & _). apply lookup_lt_Some in Hy. lia.
Qed.

(** ** Sequences of operations *)
Inductive op :=
  | Enqueue (t : task F) | EnqueueTasks (l : list (task F)) | HasTasks | ProcessNext
  | Resolve (p : nat) | Reject (p : nat) (e : exn).
Definition run_op (o : op) : JS Σ unit :=
  match o with
  | Enqueue t => enqueue t
  | EnqueueTasks l => enqueueTasks l
  | HasTasks => do! hasTasksToProcess; ret tt
  | ProcessNext => processNext
  | Resolve p => resolve p
  | Reject p e => reject p e
  end.
Definition run_ops (l : list op) (s : Σ) : Σ := foldl (fun s o => final (run_op o) s) s l.

Lemma processNext_untouched p : evolves (untouched_in p) processNext.
Proof.
  pose proof (genPromise_untouched p). unfold processNext, run_task. js_auto.
  apply untouched_upd, set_current_untouched.
Qed.
Lemma run_op_untouched p o : evolves (untouched_in p) (run_op o).
Proof.
  destruct o; cbn; auto using enqueue_untouched, enqueueTasks_untouched, processNext_untouched,
    resolve_untouched, reject_untouched. js_auto.
Qed.
Lemma run_ops_untouched p l s : untouched_in p s (run_ops l s).
Proof.
  revert s. induction l as [|o l IH]; intros s; [reflexivity|]. cbn.
  transitivity (final (run_op o) s); [apply run_op_untouched|apply IH].
Qed.

(** C23. As long as nobody cancels tasks, a pending promise blocks everything queued
    before it: whatever is enqueued, processed, resolved or rejected meanwhile, the
    queues below it keep exactly their tasks until it is settled.  Settling it by
    [resolve] never fails, whatever happened before. *)
Theorem pending_promise_blocks l s p i :
  returns onMoreTasks -> stack_inv (tq_get s) -> promises (tq_get s) !! p = Some i ->
  let s' := run_ops l s in
  (promises (tq_get s') !! p = None \/
   promises (tq_get s') !! p = Some i /\ below i (tq_get s') = below i (tq_get s)) /\
  forall p', outcome (resolve p') s' = Ret tt.
Proof.
  intros Hm Hi Hp s'. pose proof (run_ops_untouched p l s Hi) as T. split; [by apply (to_waiting _ _ _ T)|].
  intros p'. destruct (promises (tq_get s') !! p') as [j|] eqn:E.
  - destruct (resolve_step p' s' j (to_inv _ _ _ T) E) as (s2 & Es & _). unfold outcome. rewrite Es.
    assert (Hr : returns (let! b := hasTasksToProcess in when b onMoreTasks)).
    { unfold hasTasksToProcess, getCurrentQueue, upd. js_returns. }
    destruct (Hr s2) as [[] H]. exact H.
  - unfold resolve, outcome. by rewrite bind_gets, E.
Qed.

(** A task whose promise is rejected, or whose [gen] throws, blocks the tasks
    queued before it forever: its queue is never popped, and no later operation runs
    any of them. *)
Theorem failed_gen_blocks_forever l s :
  stack_inv (tq_get s) ->
  (forall p i e, promises (tq_get s) !! p = Some i ->
     below i (tq_get (run_ops l (final (reject p e) s))) = below i (tq_get s)) /\
  (forall f e s', genPromise f s = (Throw e, s') ->
     let n := length (queueStack (tq_get s)) in
     below n (tq_get (run_ops l s')) = tasks <$> queueStack (tq_get s)).
Proof.
  intros Hi. split.
  - intros p i e Hp. set (s1 := final (reject p e) s).
    assert (E1 : tq_get s1 = Build_tq (queueStack (tq_get s)) (delete p (promises (tq_get s)))
      (nextPromise (tq_get s))).
    { unfold s1, reject, final. rewrite bind_gets, Hp. unfold upd. rewrite bind_modify. cbn. by rewrite tq_get_set. }
    pose proof (reject_untouched p p e s) as U. fold s1 in U. unfold untouched_in in U.
    pose proof (to_inv _ _ _ (U Hi)) as Hi1.
    assert (Hr : reserved (tq_get s1) i).
    { destruct (si_promise _ Hi p i Hp) as [? Hx]. rewrite E1. split_and!; [done|done|].
      intros x Hx'. cbn in Hx'. apply lookup_delete_Some in Hx' as [Hne Hx'].
      by apply Hne, (si_injective _ Hi _ _ i). }
    pose proof (run_ops_untouched p l s1 Hi1) as T. destruct (to_reserved _ _ _ T i Hr) as [_ ->].
    by rewrite E1.
  - intros f e s' Eg n.
    pose proof (push_untouched 0 (tq_get s) Hi) as T0.
    unfold genPromise, upd in Eg. rewrite bind_modify in Eg. set (s1 := tq_set _ s) in Eg.
    rewrite bind_gets in Eg. set (q1 := Build_tq _ _ _) in T0.
    assert (E1 : tq_get s1 = q1) by (unfold s1; by rewrite tq_get_set).
    unfold bind in Eg. destruct (gen f s1) as [[[]|e'|] s2] eqn:E2; try done. injection Eg as -> ->.
    pose proof (Hgen 0 f s1) as U. unfold untouched_in, final in U. rewrite E2, E1 in U. cbn in U.
    specialize (U (to_inv _ _ _ T0)).
    assert (Hr : reserved q1 n).
    { split_and!; cbn.
      - unfold n. destruct (queueStack (tq_get s)) eqn:Eq; [by apply si_nonempty in Hi|cbn; lia].
      - exists (Build_queue [] false). split; [by apply list_lookup_middle|done].
      - intros x Hx. destruct (si_promise _ Hi x _ Hx) as (_ & y & Hy & _). apply lookup_lt_Some in Hy. lia. }
    destruct (to_reserved _ _ _ U n Hr) as [Hr2 B2].
    pose proof (run_ops_untouched 0 l s' (to_inv _ _ _ U)) as T3.
    destruct (to_reserved _ _ _ T3 n Hr2) as [_ ->]. rewrite B2. unfold below, n. cbn. by rewrite take_app_length.
Qed.
End clients.

(** Cancelling tasks while a promise is pending and its queue is empty (its task
    queued nothing) removes that queue, whatever the list of cancelled tasks: the
    tasks queued before the promise are no longer blocked, and when the promise
    resolves the assignment of [popable] throws a [TypeError]. *)
Theorem cancel_loses_pending_queue base q0 p l s :
  queueStack (tq_get s) = q0 :: base ++ [Build_queue [] false] ->
  promises (tq_get s) !! p = Some (S (length base)) ->
  let s' := final (cancelTasks l) s in
  length (queueStack (tq_get s')) <= S (length base) /\
  current_tasks (tq_get s') = current_tasks (Build_tq (cancel_stack l (q0 :: base)) ∅ 0) /\
  outcome (resolve p) s' = Throw (JSError "TypeError: undefined is not an object (setting popable)").
Proof.
  intros Hq Hp s'.
  assert (Hs : queueStack (tq_get s') = cancel_stack l (q0 :: base)).
  { unfold s', cancelTasks, upd, final. cbn. rewrite tq_get_set. cbn. rewrite Hq. cbn. f_equal.
    rewrite fmap_app, filter_app. cbn. rewrite decide_False by lia.
    by rewrite app_nil_r. }
  assert (Hl : length (cancel_stack l (q0 :: base)) <= S (length base)).
  { cbn. rewrite <- (length_fmap (cancel_in l) base). apply le_n_S, length_filter. }
  split_and!; [by rewrite Hs|unfold current_tasks; by rewrite Hs|].
  unfold resolve, outcome. rewrite bind_gets.
  assert (Hp' : promises (tq_get s') !! p = Some (S (length base))).
  { unfold s', cancelTasks, upd, final. cbn. by rewrite tq_get_set. }
  clearbody s'. rewrite Hp'. unfold upd. rewrite bind_modify, bind_gets, tq_get_set. cbn [queueStack].
  rewrite Hs, lookup_ge_None_2 by lia. done.
Qed.
End taskqueue.

(** ** A bare queue whose tasks do nothing *)
Section examples.
#[local] Instance bare_queue : HasTaskQueue (tq nat) nat := {
  tq_get := id; tq_set := fun q _ => q;
  tq_get_set := fun _ _ => eq_refl; tq_set_set := fun _ _ _ => eq_refl; tq_set_get := fun _ => eq_refl
}.
Definition nothing (f : nat) : JS (tq nat) unit := ret tt.
Definition failing (f : nat) : JS (tq nat) unit := throw (UserError 0).
Definition no_more : JS (tq nat) unit := ret tt.
Definition simple (n : nat) : task nat := Build_task nat n None (Run n).
Definition promising (n : nat) : task nat := Build_task nat n None (Gen n).

(** Task 1 is a promise task, task 2 is queued behind it. *)
Definition two_tasks : tq nat :=
  final (do! enqueueTasks [promising 1; simple 2]; processNext nothing nothing) new_TaskQueue.
Lemma new_TaskQueue_inv : stack_inv (tq_get (new_TaskQueue : tq nat)).
Proof. split; cbn; [done|intros ??|intros ???|intros ??]; by rewrite lookup_empty. Qed.
Lemma nothing_untouched p : evolves (untouched_in p) (ret tt : JS (tq nat) unit).
Proof. intros s Hs. split; cbn; auto. Qed.
Lemma two_tasks_inv : stack_inv (tq_get two_tasks).
Proof.
  assert (Hn := nothing_untouched).
  apply (to_inv 0 (tq_get new_TaskQueue)).
  apply (run_ops_untouched nothing nothing no_more (fun p _ => Hn p) (fun p _ => Hn p) Hn 0
    [EnqueueTasks [promising 1; simple 2]; ProcessNext] new_TaskQueue), new_TaskQueue_inv.
Qed.

Lemma pending_promise_blocks_witness :
  let s' := run_ops nothing nothing no_more [HasTasks; ProcessNext; Enqueue (simple 3); ProcessNext] two_tasks in
  promises s' !! 0 = Some 1 /\ below 1 s' = [[simple 2]].
Proof.
  intros s'. assert (Hn := nothing_untouched).
  assert (Hr : returns no_more) by (intros x; exists tt; reflexivity).
  destruct (pending_promise_blocks nothing nothing no_more (fun p _ => Hn p) (fun p _ => Hn p) Hn
    [HasTasks; ProcessNext; Enqueue (simple 3); ProcessNext] two_tasks 0 1 Hr two_tasks_inv eq_refl)
    as [[H|[H1 H2]] _].
  - vm_compute in H. discriminate H.
  - split; [exact H1|]. refine (eq_trans H2 _). reflexivity.
Defined.

Lemma failed_gen_blocks_forever_witness :
  let s' := run_ops nothing nothing no_more [ProcessNext; ProcessNext] (final (reject 0 (UserError 1)) two_tasks) in
  below 1 s' = [[simple 2]] /\ current_tasks s' = [].
Proof.
  intros s'. assert (Hn := nothing_untouched).
  destruct (failed_gen_blocks_forever nothing nothing no_more (fun p _ => Hn p) (fun p _ => Hn p) Hn
    [ProcessNext; ProcessNext] two_tasks two_tasks_inv) as [H _].
  split; [|reflexivity]. refine (eq_trans (H 0 1 (UserError 1) eq_refl) _). reflexivity.
Defined.

Lemma cancel_loses_pending_queue_witness :
  let s' := final (cancelTasks []) two_tasks in
  current_tasks s' = [simple 2] /\ promises s' !! 0 = Some 1 /\
  outcome (resolve no_more 0) s' = Throw (JSError "TypeError: undefined is not an object (setting popable)").
Proof.
  intros s'.
  assert (Hq : queueStack (tq_get two_tasks) =
    Build_queue [simple 2] false :: [] ++ [Build_queue [] false]) by (vm_compute; reflexivity).
  assert (Hp : promises (tq_get two_tasks) !! 0 = Some 1) by (vm_compute; reflexivity).
  destruct (cancel_loses_pending_queue no_more [] (Build_queue [simple 2] false) 0 [] two_tasks Hq Hp)
    as (_ & H1 & H2).
  split; [exact H1|]. split; [reflexivity|exact H2].
Defined.
End examples.
