(* ===== verification/InteractionManager.v ===== *)
(** * InteractionManager

    Libraries/Interaction/InteractionManager.js on top of TaskQueue.v.  The module's
    variables are the record [st]; [scheduled] holds the [_processUpdate] callbacks
    that [setTimeout] or [setImmediate] keep, by handle, and [runningTime] what
    [BatchedBridge.getEventLoopRunningTime()] returns.  Tasks and listeners are
    client code, the parameters [client] and [listener]; [trace] records the events
    emitted and the tasks run, in order.

    [runAfterInteractions] makes a promise [h]; its [resolve] function is the task
    [ResolveHandle h]. *)
From S2P Require Import Prelude TaskQueue.
From stdpp Require Import base numbers list strings gmap fin_maps.
Open Scope nat_scope.

Inductive interaction_event := interactionStart | interactionComplete.
#[export] Instance interaction_event_eq_dec : EqDecision interaction_event.
Proof. solve_decision. Defined.
Inductive task_fn := Client (f : nat) | ResolveHandle (h : nat).
Inductive update_kind := ViaTimeout | ViaImmediate.
Inductive trace_event := Emit (e : interaction_event) | Ran (f : task_fn).

Record st (W : Type) := {
  interactionSet : gset nat;
  addInteractionSet : gset nat;
  deleteInteractionSet : gset nat;
  taskQueue : tq task_fn;
  nextUpdateHandle : nat;
  inc : nat;
  deadline : Z;
  scheduled : gmap nat update_kind;
  timerIds : nat;
  nextPromiseHandle : nat;
  resolved : gset nat;
  runningTime : Z;
  trace : list trace_event;
  world : W
}.
Arguments interactionSet {W}. Arguments addInteractionSet {W}. Arguments
deleteInteractionSet {W}. Arguments taskQueue {W}. Arguments nextUpdateHandle {W}.
Arguments inc {W}. Arguments deadline {W}. Arguments scheduled {W}. Arguments timerIds {W}.
Arguments nextPromiseHandle {W}. Arguments resolved {W}. Arguments runningTime {W}.
Arguments trace {W}. Arguments world {W}.

Section setters.
Context {W : Type}.
Definition set_interactionSet x (s : st W) : st W := Build_st W x (addInteractionSet s)
  (deleteInteractionSet s) (taskQueue s) (nextUpdateHandle s) (inc s) (deadline s)
  (scheduled s) (timerIds s) (nextPromiseHandle s) (resolved s) (runningTime s) (trace s)
  (world s).
Definition set_addInteractionSet x (s : st W) : st W := Build_st W (interactionSet s) x
  (deleteInteractionSet s) (taskQueue s) (nextUpdateHandle s) (inc s) (deadline s)
  (scheduled s) (timerIds s) (nextPromiseHandle s) (resolved s) (runningTime s) (trace s)
  (world s).
Definition set_deleteInteractionSet x (s : st W) : st W := Build_st W (interactionSet s)
  (addInteractionSet s) x (taskQueue s) (nextUpdateHandle s) (inc s) (deadline s) (scheduled
  s) (timerIds s) (nextPromiseHandle s) (resolved s) (runningTime s) (trace s) (world s).
Definition set_taskQueue x (s : st W) : st W := Build_st W (interactionSet s)
  (addInteractionSet s) (deleteInteractionSet s) x (nextUpdateHandle s) (inc s) (deadline s)
  (scheduled s) (timerIds s) (nextPromiseHandle s) (resolved s) (runningTime s) (trace s)
  (world s).
Definition set_nextUpdateHandle x (s : st W) : st W := Build_st W (interactionSet s)
  (addInteractionSet s) (deleteInteractionSet s) (taskQueue s) x (inc s) (deadline s)
  (scheduled s) (timerIds s) (nextPromiseHandle s) (resolved s) (runningTime s) (trace s)
  (world s).
Definition set_inc x (s : st W) : st W := Build_st W (interactionSet s) (addInteractionSet
  s) (deleteInteractionSet s) (taskQueue s) (nextUpdateHandle s) x (deadline s) (scheduled
  s) (timerIds s) (nextPromiseHandle s) (resolved s) (runningTime s) (trace s) (world s).
Definition set_deadline x (s : st W) : st W := Build_st W (interactionSet s)
  (addInteractionSet s) (deleteInteractionSet s) (taskQueue s) (nextUpdateHandle s) (inc s)
  x (scheduled s) (timerIds s) (nextPromiseHandle s) (resolved s) (runningTime s) (trace s)
  (world s).
Definition set_scheduled x (s : st W) : st W := Build_st W (interactionSet s)
  (addInteractionSet s) (deleteInteractionSet s) (taskQueue s) (nextUpdateHandle s) (inc s)
  (deadline s) x (timerIds s) (nextPromiseHandle s) (resolved s) (runningTime s) (trace s)
  (world s).
Definition set_timerIds x (s : st W) : st W := Build_st W (interactionSet s)
  (addInteractionSet s) (deleteInteractionSet s) (taskQueue s) (nextUpdateHandle s) (inc s)
  (deadline s) (scheduled s) x (nextPromiseHandle s) (resolved s) (runningTime s) (trace s)
  (world s).
Definition set_nextPromiseHandle x (s : st W) : st W := Build_st W (interactionSet s)
  (addInteractionSet s) (deleteInteractionSet s) (taskQueue s) (nextUpdateHandle s) (inc s)
  (deadline s) (scheduled s) (timerIds s) x (resolved s) (runningTime s) (trace s) (world
  s).
Definition set_resolved x (s : st W) : st W := Build_st W (interactionSet s)
  (addInteractionSet s) (deleteInteractionSet s) (taskQueue s) (nextUpdateHandle s) (inc s)
  (deadline s) (scheduled s) (timerIds s) (nextPromiseHandle s) x (runningTime s) (trace s)
  (world s).
Definition set_runningTime x (s : st W) : st W := Build_st W (interactionSet s)
  (addInteractionSet s) (deleteInteractionSet s) (taskQueue s) (nextUpdateHandle s) (inc s)
  (deadline s) (scheduled s) (timerIds s) (nextPromiseHandle s) (resolved s) x (trace s)
  (world s).
Definition set_trace x (s : st W) : st W := Build_st W (interactionSet s) (addInteractionSet
  s) (deleteInteractionSet s) (taskQueue s) (nextUpdateHandle s) (inc s) (deadline s)
  (scheduled s) (timerIds s) (nextPromiseHandle s) (resolved s) (runningTime s) x (world s).
Definition set_world x (s : st W) : st W := Build_st W (interactionSet s) (addInteractionSet
  s) (deleteInteractionSet s) (taskQueue s) (nextUpdateHandle s) (inc s) (deadline s)
  (scheduled s) (timerIds s) (nextPromiseHandle s) (resolved s) (runningTime s) (trace s) x.
End setters.

#[export] Instance im_queue {W} : HasTaskQueue (st W) task_fn.
Proof. refine {| tq_get := taskQueue; tq_set := set_taskQueue |}; by intros; destruct s || intros. Defined.

Section interaction.
Context {W : Type}.
Abbreviation S := (st W).
Context (client : nat -> JS S unit) (listener : interaction_event -> JS S unit).

Definition init (w : W) : S :=
  Build_st W ∅ ∅ ∅ new_TaskQueue 0 0 (-1) ∅ 0 0 ∅ 0 [] w.

Definition log (e : trace_event) : JS S unit := modify (fun s => set_trace (trace s ++ [e]) s).
Definition emit (e : interaction_event) : JS S unit := do! log (Emit e); listener e.

(** [setTimeout] and [setImmediate]: handles are positive. *)
Definition host_schedule (k : update_kind) : JS S nat :=
  let! id := gets (fun s => timerIds s + 1) in
  do! modify (fun s => set_timerIds id (set_scheduled (<[id := k]> (scheduled s)) s));
  ret id.
Definition scheduleUpdate : JS S unit :=
  let! h := gets nextUpdateHandle in
  if h =? 0 then
    let! d := gets deadline in
    let! id := host_schedule (if (0 <? d)%Z then ViaTimeout else ViaImmediate) in
    modify (set_nextUpdateHandle id)
  else ret tt.

Definition run_fn (f : task_fn) : JS S unit :=
  do! log (Ran f);
  match f with
  | Client f => client f
  | ResolveHandle h => modify (fun s => set_resolved ({[h]} ∪ resolved s) s)
  end.

(** A task a client passes: the identity of the object, its name and its kind. *)
Definition client_task (k : nat) (name : option string) (kind : task_kind nat) : task task_fn :=
  Build_task task_fn (2 * k) name
    match kind with
    | Run f => Run (Client f) | Gen f => Gen (Client f) | Fn f => Fn (Client f) | NotATask => NotATask
    end.
Definition resolve_task (h : nat) (t : option (task task_fn)) : task task_fn :=
  Build_task task_fn (2 * h + 1) (Some ("resolve " +:+ default "?" (t ≫= t_name)))%string (Run (ResolveHandle h)).

(** Returns the tasks, which the [cancel] method of the result closes over. *)
Definition runAfterInteractions (t : option (task task_fn)) : JS S (list (task task_fn)) :=
  let! h := gets nextPromiseHandle in
  do! modify (set_nextPromiseHandle (h + 1));
  do! scheduleUpdate;
  let tasks := match t with Some t => [t] | None => [] end ++ [resolve_task h t] in
  do! enqueueTasks tasks;
  ret tasks.
Definition cancel (l : list (task task_fn)) : JS S unit := cancelTasks l.

Definition createInteractionHandle : JS S nat :=
  do! scheduleUpdate;
  let! handle := gets (fun s => inc s + 1) in
  do! modify (set_inc handle);
  do! modify (fun s => set_addInteractionSet ({[handle]} ∪ addInteractionSet s) s);
  ret handle.
Definition clearInteractionHandle (handle : nat) : JS S unit :=
  do! invariant (negb (handle =? 0)) "InteractionManager: Must provide a handle to clear.";
  do! scheduleUpdate;
  do! modify (fun s => set_addInteractionSet (addInteractionSet s ∖ {[handle]}) s);
  modify (fun s => set_deleteInteractionSet ({[handle]} ∪ deleteInteractionSet s) s).
Definition setDeadline (d : Z) : JS S unit := modify (set_deadline d).

(** One turn of the loop over the tasks; [false] leaves it. *)
Definition process_tasks : JS S bool :=
  let! b := hasTasksToProcess in
  if b then
    do! processNext run_fn run_fn;
    let! late := gets (fun s => (0 <? deadline s)%Z && (deadline s <=? runningTime s)%Z) in
    if late then do! scheduleUpdate; ret false else ret true
  else ret false.

Definition processUpdate (fuel : nat) : JS S unit :=
  do! modify (set_nextUpdateHandle 0);
  let! interactionCount := gets (fun s => size (interactionSet s)) in
  do! modify (fun s => set_interactionSet (interactionSet s ∪ addInteractionSet s) s);
  do! modify (fun s => set_interactionSet (interactionSet s ∖ deleteInteractionSet s) s);
  let! nextInteractionCount := gets (fun s => size (interactionSet s)) in
  do! (if negb (interactionCount =? 0) && (nextInteractionCount =? 0) then emit interactionComplete
       else if (interactionCount =? 0) && negb (nextInteractionCount =? 0) then emit interactionStart
       else ret tt);
  do! when (nextInteractionCount =? 0) (while_true fuel process_tasks);
  do! modify (set_addInteractionSet ∅);
  modify (set_deleteInteractionSet ∅).

(** ** Operations of the module, and the steps of its environment *)
Inductive op :=
  | RunAfter (t : option (task task_fn)) | Cancel (l : list (task task_fn))
  | CreateHandle | ClearHandle (h : nat) | SetDeadline (d : Z)
  | RunUpdate (id fuel : nat) | SettlePromise (p : nat) | RejectPromise (p : nat) (e : exn).
(** A scheduled callback runs. *)
Definition run_update (id fuel : nat) : JS S unit :=
  let! k := gets (fun s => scheduled s !! id) in
  match k with
  | None => ret tt
  | Some _ => do! modify (fun s => set_scheduled (delete id (scheduled s)) s); processUpdate fuel
  end.
Definition run_op (o : op) : JS S unit :=
  match o with
  | RunAfter t => do! runAfterInteractions t; ret tt
  | Cancel l => cancel l
  | CreateHandle => do! createInteractionHandle; ret tt
  | ClearHandle h => clearInteractionHandle h
  | SetDeadline d => setDeadline d
  | RunUpdate id fuel => run_update id fuel
  | SettlePromise p => TaskQueue.resolve scheduleUpdate p
  | RejectPromise p e => reject p e
  end.

(** ** The events *)
Definition events (l : list trace_event) : list interaction_event :=
  omap (fun e => match e with Emit e => Some e | Ran _ => None end) l.
(** Reads a list of events from a state with ([on]) or without interactions: [None]
    when a start or a completion comes twice in a row. *)
Fixpoint reads (on : bool) (l : list interaction_event) : option bool :=
  match l with
  | [] => Some on
  | interactionStart :: l' => if on then None else reads true l'
  | interactionComplete :: l' => if on then reads false l' else None
  end.
Lemma reads_app on l l' : reads on (l ++ l') = reads on l ≫= fun on' => reads on' l'.
Proof. revert on. induction l as [|[] l IH]; intros []; cbn; auto. Qed.

(** What client code may change: anything but the set of running interactions and the
    events.  Every operation above is such a change, so clients may call them. *)
Record frame (s s' : S) : Prop := {
  fr_set : interactionSet s' = interactionSet s;
  fr_events : events (trace s') = events (trace s)
}.
#[local] Instance frame_preorder : PreOrder frame.
Proof. split; [by split|]. intros a b c [A1 A2] [B1 B2]. split; congruence. Qed.
#[local] Hint Resolve frame_preorder : js.
Lemma frame_modify f :
  (forall s, interactionSet (f s) = interactionSet s /\ trace (f s) = trace s) ->
  evolves frame (modify f).
Proof. intros H. apply evolves_modify. intros s. destruct (H s) as [? E]. split; [done|by rewrite E]. Qed.
#[local] Hint Extern 4 (evolves frame (modify _)) =>
  apply frame_modify; intros ?; split; reflexivity : js.
Lemma frame_upd f : evolves frame (upd f).
Proof. apply frame_modify. by split. Qed.
#[local] Hint Resolve frame_upd : js.
Lemma frame_schedule : evolves frame scheduleUpdate.
Proof. unfold scheduleUpdate, host_schedule. js_auto. Qed.
#[local] Hint Resolve frame_schedule : js.
Lemma frame_enqueue t : evolves frame (enqueue t).
Proof. unfold enqueue, getCurrentQueue. js_auto. Qed.
#[local] Hint Resolve frame_enqueue : js.
Lemma frame_api :
  (forall t, evolves frame (runAfterInteractions t)) /\ (forall l, evolves frame (cancel l)) /\
  evolves frame createInteractionHandle /\ (forall h, evolves frame (clearInteractionHandle h)) /\
  (forall d, evolves frame (setDeadline d)).
Proof.
  unfold runAfterInteractions, cancel, cancelTasks, enqueueTasks, createInteractionHandle,
    clearInteractionHandle, setDeadline.
  split_and!; intros; js_auto.
Qed.

Section clients.
Hypothesis Hclient : forall f, evolves frame (client f).
Hypothesis Hlistener : forall e, evolves frame (listener e).

Lemma frame_run_fn f : evolves frame (run_fn f).
Proof.
  unfold run_fn, log. apply evolves_bind; [apply _| |intros _; js_auto].
  apply evolves_modify. intros s. split; [done|]. cbn. unfold events. rewrite omap_app. cbn.
  by rewrite app_nil_r.
Qed.
#[local] Hint Resolve frame_run_fn : js.
Lemma frame_process_tasks : evolves frame process_tasks.
Proof.
  unfold process_tasks, hasTasksToProcess, processNext, run_task, genPromise, getCurrentQueue. js_auto.
Qed.
#[local] Hint Resolve frame_process_tasks : js.
Lemma frame_settle p : evolves frame (TaskQueue.resolve scheduleUpdate p).
Proof. unfold TaskQueue.resolve, hasTasksToProcess, getCurrentQueue. js_auto. Qed.
Lemma frame_reject p e : evolves frame (reject p e).
Proof. unfold reject. js_auto. Qed.

Definition events_inv (s : S) : Prop :=
  reads false (events (trace s)) = Some (bool_decide (interactionSet s <> ∅)).
Lemma events_inv_frame s s' : frame s s' -> events_inv s -> events_inv s'.
Proof. intros [E1 E2]. unfold events_inv. by rewrite E1, E2. Qed.
Lemma frame_keeps {A} (m : JS S A) : evolves frame m -> preserves events_inv m.
Proof. intros H s. exact (events_inv_frame _ _ (H s)). Qed.
Lemma final_bind_frame {A} (m : JS S A) (k : A -> JS S unit) s :
  events_inv (final m s) -> (forall a, evolves frame (k a)) -> events_inv (final (bind m k) s).
Proof.
  intros Hm Hk. unfold final, bind in *. destruct (m s) as [[a|e|] s']; cbn in *; [|done..].
  eapply events_inv_frame; [apply Hk|done].
Qed.
Lemma size_zero (X : gset nat) : (size X =? 0) = bool_decide (X = ∅).
Proof.
  destruct (Nat.eqb_spec (size X) 0) as [E|E]; symmetry.
  - apply bool_decide_true. by apply leibniz_equiv, size_empty_iff.
  - apply bool_decide_false. intros ->. by rewrite size_empty in E.
Qed.

(** The interaction set after an update. *)
Definition next_interactions (s : S) : gset nat :=
  (interactionSet s ∪ addInteractionSet s) ∖ deleteInteractionSet s.

Lemma processUpdate_events fuel : preserves events_inv (processUpdate fuel).
Proof.
  intros s Hs. unfold processUpdate, final. rewrite bind_modify, bind_gets, !bind_modify, bind_gets. cbn.
  rewrite !size_zero. set (s1 := set_interactionSet _ _). apply final_bind_frame; [|intros _; js_auto].
  unfold events_inv in Hs. fold (next_interactions s) in s1 |- *.
  assert (Hemit : forall e, reads (bool_decide (interactionSet s <> ∅)) [e] =
      Some (bool_decide (next_interactions s <> ∅)) -> events_inv (final (emit e) s1)).
  { intros e He. unfold emit, log, final. rewrite bind_modify.
    eapply events_inv_frame; [apply Hlistener|]. unfold events_inv. cbn.
    unfold events in *. rewrite omap_app, reads_app, Hs. exact He. }
  assert (Hskip : bool_decide (next_interactions s <> ∅) = bool_decide (interactionSet s <> ∅) ->
    events_inv s1).
  { intros E. unfold events_inv. change (interactionSet s1) with (next_interactions s).
    change (trace s1) with (trace s). by rewrite Hs, E. }
  rewrite !bool_decide_not in *.
  destruct (bool_decide (interactionSet s = ∅)), (bool_decide (next_interactions s = ∅)); cbn in *; auto.
Qed.

Lemma run_op_events o : preserves events_inv (run_op o).
Proof.
  destruct frame_api as (H1 & H2 & H3 & H4 & H5).
  destruct o; cbn; try solve [apply frame_keeps; auto using frame_settle, frame_reject; js_auto].
  unfold run_update. apply evolves_bind; [apply _|apply frame_keeps; js_auto|].
  intros [k|]; [|apply frame_keeps; js_auto].
  apply evolves_bind; [apply _|apply frame_keeps; js_auto|]. intros _. apply processUpdate_events.
Qed.

(** C25. Whatever clients do, [interactionStart] and [interactionComplete] alternate,
    beginning with a start, and interactions are running exactly when the last event
    was a start. *)
Theorem events_alternate l w :
  let s := foldl (fun s o => final (run_op o) s) (init w) l in
  reads false (events (trace s)) = Some (bool_decide (interactionSet s <> ∅)).
Proof. apply (keeps_foldl events_inv run_op l _ run_op_events). by vm_compute. Qed.

Definition same_set (s s' : S) : Prop := interactionSet s' = interactionSet s.
#[local] Instance same_set_preorder : PreOrder same_set.
Proof. split; [done|]. intros a b c. unfold same_set. congruence. Qed.
Lemma same_set_emit e : evolves same_set (emit e).
Proof.
  unfold emit, log. apply evolves_bind; [apply _|by apply evolves_modify|]. intros _.
  eapply evolves_impl; [|apply Hlistener]. by intros ?? [? _].
Qed.

(** An update that returns applies exactly the handles that were created and
    cleared before it began, and then forgets all others: a handle created by a
    listener or by a task while the update runs is in no set afterwards (the
    interaction is lost), and one cleared meanwhile stays in the set. *)
Theorem update_forgets_handles fuel s s' :
  processUpdate fuel s = (Ret tt, s') ->
  interactionSet s' = next_interactions s /\ addInteractionSet s' = ∅ /\
  deleteInteractionSet s' = ∅ /\
  forall h, h ∉ interactionSet s ∪ addInteractionSet s ->
    h ∉ interactionSet s' ∪ addInteractionSet s'.
Proof.
  intros E. unfold processUpdate in E. rewrite bind_modify, bind_gets, !bind_modify, bind_gets in E. cbn in E.
  apply bind_Ret_inv in E as ([] & s2 & E1 & E). apply bind_Ret_inv in E as ([] & s3 & E2 & E).
  injection E as <-. cbn.
  assert (H1 : interactionSet s2 = next_interactions s).
  { pose proof (same_set_emit) as He. eapply (evolves_of same_set) in E1; [exact E1|].
    repeat case_match; auto. by intros x. }
  assert (Hw : evolves frame (when (size ((interactionSet s ∪ addInteractionSet s) ∖ deleteInteractionSet s) =? 0)
    (while_true fuel process_tasks))) by js_auto.
  pose proof (evolves_of _ _ _ _ _ Hw E2) as [H2 _].
  split_and!; [congruence|done|done|]. intros h Hh. rewrite H2, H1.
  unfold next_interactions. clear -Hh. set_solver.
Qed.
End clients.

(** ** Running the queue *)

Definition simple_fn (t : task task_fn) : option task_fn :=
  match t_kind t with Run f | Fn f => Some f | _ => None end.
Definition one_queue (ts : list (task task_fn)) (q : tq task_fn) : tq task_fn :=
  Build_tq [Build_queue ts false] (promises q) (nextPromise q).

Lemma getCurrentQueue_run (s : S) :
  getCurrentQueue s = (Ret (current_tasks (pop_stack (taskQueue s))), set_taskQueue (pop_stack (taskQueue s)) s).
Proof. done. Qed.
Lemma pop_one_queue ts (s : S) : taskQueue s = one_queue ts (taskQueue s) -> pop_stack (taskQueue s) = taskQueue s.
Proof. by intros ->. Qed.
Lemma hasTasks_run ts (s : S) : taskQueue s = one_queue ts (taskQueue s) ->
  hasTasksToProcess s = (Ret (0 <? length ts), set_taskQueue (taskQueue s) s).
Proof.
  intros Hq. unfold hasTasksToProcess. rewrite (bind_of _ _ _ _ _ (getCurrentQueue_run s)), (pop_one_queue ts s Hq).
  by rewrite Hq.
Qed.

(** One turn of the loop on a single queue whose next task is [t]. *)
Definition process_rest (t : task task_fn) : JS S bool :=
  do! try_catch (run_task run_fn run_fn t) (fun e => throw (with_prefix (t_name t) e));
  let! late := gets (fun s => (0 <? deadline s)%Z && (deadline s <=? runningTime s)%Z) in
  if late then do! scheduleUpdate; ret false else ret true.
Definition popped (ts : list (task task_fn)) (s : S) : S :=
  set_taskQueue (one_queue ts (taskQueue s)) (set_taskQueue (taskQueue s) s).
Lemma process_turn t ts (s : S) : taskQueue s = one_queue (t :: ts) (taskQueue s) ->
  process_tasks s = process_rest t (popped ts s).
Proof.
  intros Hq. unfold process_tasks. rewrite (bind_of _ _ _ _ _ (hasTasks_run _ s Hq)). cbn [length Nat.ltb Nat.leb].
  set (s0 := set_taskQueue (taskQueue s) s).
  assert (Hq0 : taskQueue s0 = one_queue (t :: ts) (taskQueue s0)) by exact Hq.
  assert (E : processNext run_fn run_fn s0 =
    try_catch (run_task run_fn run_fn t) (fun e => throw (with_prefix (t_name t) e)) (popped ts s)).
  { unfold processNext. rewrite (bind_of _ _ _ _ _ (getCurrentQueue_run s0)), (pop_one_queue _ s0 Hq0).
    change (taskQueue s0) with (taskQueue s). rewrite Hq. cbn [current_tasks one_queue queueStack list.last tasks].
    unfold upd. rewrite bind_modify. unfold popped. cbn. by rewrite Hq. }
  unfold process_rest, bind at 1 3. by rewrite E.
Qed.

Section quiet.
Hypothesis Hclient : forall f s, exists w, client f s = (Ret tt, set_world w s).
Hypothesis Hlistener : forall e s, exists w, listener e s = (Ret tt, set_world w s).

(** What running a list of simple tasks leaves. *)
Record ran_all (fs : list task_fn) (s s' : S) : Prop := {
  ra_trace : trace s' = trace s ++ (Ran <$> fs);
  ra_queue : taskQueue s' = one_queue [] (taskQueue s);
  ra_set : interactionSet s' = interactionSet s
}.

Lemma run_fn_quiet f s : exists s', run_fn f s = (Ret tt, s') /\ trace s' = trace s ++ [Ran f] /\
  taskQueue s' = taskQueue s /\ interactionSet s' = interactionSet s /\ deadline s' = deadline s.
Proof.
  unfold run_fn, log. rewrite bind_modify. destruct f as [f|h]; [|by eexists].
  destruct (Hclient f (set_trace (trace s ++ [Ran (Client f)]) s)) as [w ->]. by eexists.
Qed.

Lemma process_one t ts f (s : S) : taskQueue s = one_queue (t :: ts) (taskQueue s) ->
  simple_fn t = Some f -> (deadline s <= 0)%Z ->
  exists s', process_tasks s = (Ret true, s') /\ trace s' = trace s ++ [Ran f] /\
    taskQueue s' = one_queue ts (taskQueue s) /\ interactionSet s' = interactionSet s /\
    deadline s' = deadline s.
Proof.
  intros Hq Ht Hd. rewrite (process_turn _ _ s Hq). unfold process_rest. set (s1 := popped ts s).
  assert (Hr : exists s2, try_catch (run_task run_fn run_fn t) (fun e => throw (with_prefix (t_name t) e)) s1 = (Ret tt, s2) /\
    trace s2 = trace s ++ [Ran f] /\ taskQueue s2 = taskQueue s1 /\
    interactionSet s2 = interactionSet s /\ deadline s2 = deadline s).
  { unfold run_task, simple_fn, try_catch in *.
    destruct (run_fn_quiet f s1) as (s2 & E & T & Q & I & D).
    destruct (t_kind t); try discriminate Ht; injection Ht as ->; rewrite E; by exists s2. }
  destruct Hr as (s2 & E & T & Q & I & D). rewrite (bind_of _ _ _ _ _ E), bind_gets.
  rewrite (proj2 (Z.ltb_ge 0 (deadline s2))) by lia. cbn [andb]. by exists s2.
Qed.

Lemma process_none (s : S) : taskQueue s = one_queue [] (taskQueue s) ->
  process_tasks s = (Ret false, set_taskQueue (taskQueue s) s).
Proof. intros Hq. unfold process_tasks. by rewrite (bind_of _ _ _ _ _ (hasTasks_run _ s Hq)). Qed.

Lemma process_all ts fs (s : S) : taskQueue s = one_queue ts (taskQueue s) ->
  simple_fn <$> ts = Some <$> fs -> (deadline s <= 0)%Z ->
  exists s', while_true (Datatypes.S (length ts)) process_tasks s = (Ret tt, s') /\ ran_all fs s s'.
Proof.
  revert fs s. induction ts as [|t ts IH]; intros fs s Hq Hf Hd.
  - destruct fs; [|done]. cbn. rewrite (bind_of _ _ _ _ _ (process_none s Hq)). eexists. split; [done|].
    split; cbn; by rewrite ?app_nil_r.
  - destruct fs as [|f fs]; [done|]. rewrite !fmap_cons in Hf. injection Hf as Hf Hfs.
    destruct (process_one t ts f s Hq Hf Hd) as (s1 & E & T & Q & I & D). cbn [length while_true].
    rewrite (bind_of _ _ _ _ _ E).
    destruct (IH fs s1) as (s2 & E2 & [T2 Q2 I2]); [by rewrite Q|done|lia|].
    exists s2. split; [exact E2|]. split; [|by rewrite Q2, Q|congruence].
    rewrite T2, T, <- app_assoc. done.
Qed.

(** An update that leaves no interaction running runs all queued simple tasks, in
    the order they were queued, after the [interactionComplete] event, and empties the
    queue; an update that leaves one running runs none. *)
Theorem update_runs_queue ts fs (s : S) :
  taskQueue s = one_queue ts (taskQueue s) -> simple_fn <$> ts = Some <$> fs -> (deadline s <= 0)%Z ->
  exists s', processUpdate (Datatypes.S (length ts)) s = (Ret tt, s') /\
    interactionSet s' = next_interactions s /\
    if bool_decide (next_interactions s = ∅) then
      trace s' = trace s ++ (if bool_decide (interactionSet s = ∅) then [] else [Emit interactionComplete])
                 ++ (Ran <$> fs) /\
      taskQueue s' = one_queue [] (taskQueue s)
    else
      trace s' = trace s ++ (if bool_decide (interactionSet s = ∅) then [Emit interactionStart] else []) /\
      taskQueue s' = taskQueue s.
Proof.
  intros Hq Hf Hd. unfold processUpdate. rewrite bind_modify, bind_gets, !bind_modify, bind_gets. cbn.
  rewrite !size_zero. fold (next_interactions s). set (s1 := set_interactionSet _ _).
  assert (He : forall e, exists s2, emit e s1 = (Ret tt, s2) /\ trace s2 = trace s ++ [Emit e] /\
    taskQueue s2 = taskQueue s /\ interactionSet s2 = next_interactions s /\ deadline s2 = deadline s).
  { intros e. unfold emit, log. rewrite bind_modify.
    destruct (Hlistener e (set_trace (trace s1 ++ [Emit e]) s1)) as [w ->]. by eexists. }
  assert (Hcont : forall s2 l, taskQueue s2 = taskQueue s -> interactionSet s2 = next_interactions s ->
    deadline s2 = deadline s -> trace s2 = trace s ++ l ->
    exists s', (do! while_true (Datatypes.S (length ts)) process_tasks;
                do! modify (set_addInteractionSet ∅); modify (set_deleteInteractionSet ∅)) s2 = (Ret tt, s') /\
      interactionSet s' = next_interactions s /\ trace s' = trace s ++ l ++ (Ran <$> fs) /\
      taskQueue s' = one_queue [] (taskQueue s)).
  { intros s2 l Q I D T. destruct (process_all ts fs s2) as (s3 & E & [T3 Q3 I3]); [by rewrite Q|done|lia|].
    rewrite (bind_of _ _ _ _ _ E). eexists. split; [reflexivity|]. cbn.
    split_and!; [congruence|by rewrite T3, T, app_assoc|by rewrite Q3, Q]. }
  case_bool_decide as Hn; case_bool_decide as Hi; cbn [andb negb when].
  - rewrite bind_ret. destruct (Hcont s1 []) as (s' & E & I & T & Q); [done..|by rewrite app_nil_r|].
    exists s'. split_and!; try done.
  - destruct (He interactionStart) as (s2 & E & T & Q & I & D). rewrite (bind_of _ _ _ _ _ E), bind_ret.
    eexists. split; [reflexivity|]. done.
  - destruct (He interactionComplete) as (s2 & E & T & Q & I & D). rewrite (bind_of _ _ _ _ _ E).
    destruct (Hcont s2 [Emit interactionComplete]) as (s' & E' & I' & T' & Q'); [done..|].
    exists s'. split_and!; try done.
  - rewrite !bind_ret. eexists. split; [reflexivity|]. cbn. by rewrite app_nil_r.
Qed.
End quiet.

(** When a task throws, the error (with the task's name) leaves the update: the
    tasks behind it stay queued but no update is scheduled to run them, and the
    handles the update applied are kept and will be applied again. *)
Theorem failed_task_stalls t ts f e fuel (s : S) :
  taskQueue s = one_queue (t :: ts) (taskQueue s) -> simple_fn t = Some (Client f) ->
  (forall x, exists w, client f x = (Throw e, set_world w x)) ->
  interactionSet s = ∅ -> next_interactions s = ∅ ->
  exists s', processUpdate (Datatypes.S fuel) s = (Throw (with_prefix (t_name t) e), s') /\
    taskQueue s' = one_queue ts (taskQueue s) /\ nextUpdateHandle s' = 0 /\
    scheduled s' = scheduled s /\ addInteractionSet s' = addInteractionSet s /\
    trace s' = trace s ++ [Ran (Client f)].
Proof.
  intros Hq Ht Hc Hi Hn. unfold processUpdate. rewrite bind_modify, bind_gets, !bind_modify, bind_gets.
  cbn [interactionSet set_interactionSet set_nextUpdateHandle addInteractionSet deleteInteractionSet].
  rewrite !size_zero. fold (next_interactions s). rewrite Hn, Hi.
  set (s1 := set_interactionSet _ _). cbn [bool_decide andb negb when].
  rewrite !bool_decide_true by done. cbn [andb negb when]. rewrite bind_ret. cbn [while_true]. rewrite bind_assoc.
  assert (E : process_tasks s1 = process_rest t (popped ts s1)) by (apply process_turn; exact Hq).
  destruct (Hc (set_trace (trace s ++ [Ran (Client f)]) (popped ts s1))) as [w Ew].
  assert (Er : process_rest t (popped ts s1) = (Throw (with_prefix (t_name t) e),
    set_world w (set_trace (trace s ++ [Ran (Client f)]) (popped ts s1)))).
  { unfold simple_fn in Ht. unfold process_rest, run_task, try_catch. unfold bind at 1.
    assert (Hr : run_fn (Client f) (popped ts s1) = (Throw e,
      set_world w (set_trace (trace s ++ [Ran (Client f)]) (popped ts s1)))).
    { unfold run_fn, log. rewrite bind_modify. exact Ew. }
    destruct (t_kind t); try discriminate Ht; injection Ht as ->; by rewrite Hr. }
  eexists. split; [by rewrite (bind_throws _ _ _ _ _ (eq_trans E Er))|]. done.
Qed.
End interaction.

(** ** Concrete runs *)
Section examples.
(** Client function 7 starts an interaction, 8 throws, the others do nothing. *)
Definition demo_client (f : nat) : JS (st unit) unit :=
  if f =? 7 then do! createInteractionHandle; ret tt
  else if f =? 8 then throw (JSError "boom") else ret tt.
Definition demo_listener (e : interaction_event) : JS (st unit) unit := ret tt.
Lemma demo_client_frame f : evolves frame (demo_client f).
Proof.
  destruct (frame_api (W:=unit)) as (_ & _ & H & _). pose proof (frame_preorder (W:=unit)).
  unfold demo_client. js_auto.
Qed.
Lemma demo_listener_frame e : evolves frame (demo_listener e).
Proof. intros s. by split. Qed.
Definition after (l : list op) : st unit :=
  foldl (fun s o => final (run_op demo_client demo_listener o) s) (init tt) l.
Definition plain (f : nat) : task task_fn := client_task f None (Run f).

Lemma events_alternate_witness :
  let s := after [CreateHandle; RunUpdate 1 5; ClearHandle 1; RunUpdate 2 5] in
  events (trace s) = [interactionStart; interactionComplete] /\
  reads false (events (trace s)) = Some (bool_decide (interactionSet s <> ∅)).
Proof.
  intros s. split; [reflexivity|].
  apply (events_alternate demo_client demo_listener demo_client_frame demo_listener_frame
    [CreateHandle; RunUpdate 1 5; ClearHandle 1; RunUpdate 2 5] tt).
Defined.

(** The handle a task creates is lost: the counter moved, but no set contains 1. *)
Lemma update_forgets_handles_witness :
  let s := after [RunAfter (Some (plain 7))] in
  exists s', processUpdate demo_client demo_listener 5 s = (Ret tt, s') /\ inc s' = 1 /\
    1 ∉ interactionSet s' ∪ addInteractionSet s'.
Proof.
  intros s. set (s' := final (processUpdate demo_client demo_listener 5) s). exists s'.
  assert (E : processUpdate demo_client demo_listener 5 s = (Ret tt, s')) by (vm_compute; reflexivity).
  split; [exact E|]. split; [vm_compute; reflexivity|].
  destruct (update_forgets_handles demo_client demo_listener demo_client_frame demo_listener_frame
    5 s s' E) as (_ & _ & _ & H).
  apply H. vm_compute. discriminate.
Defined.

Lemma update_runs_queue_witness :
  exists s', processUpdate demo_client demo_listener 3 (after [RunAfter (Some (plain 2))]) = (Ret tt, s') /\
    trace s' = [Ran (Client 2); Ran (ResolveHandle 0)].
Proof.
  set (c := fun f : nat => ret tt : JS (st unit) unit).
  assert (Hc : forall (f : nat) (s : st unit), exists w, c f s = (Ret tt, set_world w s))
    by (intros f s; exists (world s); by destruct s).
  assert (Hl : forall e s, exists w, demo_listener e s = (Ret tt, set_world w s))
    by (intros e s; exists (world s); by destruct s).
  set (s := after [RunAfter (Some (plain 2))]).
  assert (Hd : (deadline s <= 0)%Z) by (vm_compute; discriminate).
  assert (Hq : taskQueue s = one_queue [plain 2; resolve_task 0 (Some (plain 2))] (taskQueue s))
    by (vm_compute; reflexivity).
  destruct (update_runs_queue c demo_listener Hc Hl [plain 2; resolve_task 0 (Some (plain 2))]
    [Client 2; ResolveHandle 0] s Hq eq_refl Hd) as (s' & E & _ & H).
  exists s'. split; [refine (eq_trans _ E); vm_compute; reflexivity|].
  vm_compute in H. exact (proj1 H).
Defined.

Lemma failed_task_stalls_witness :
  let s := after [RunAfter (Some (plain 8))] in
  exists s', processUpdate demo_client demo_listener 5 s =
      (Throw (JSError "TaskQueue: Error with task : boom"), s') /\
    current_tasks (taskQueue s') = [resolve_task 0 (Some (plain 8))] /\ nextUpdateHandle s' = 0.
Proof.
  intros s.
  assert (Hc : forall x : st unit, exists w, demo_client 8 x = (Throw (JSError "boom"), set_world w x))
    by (intros x; exists (world x); by destruct x).
  assert (Hq : taskQueue s = one_queue [plain 8; resolve_task 0 (Some (plain 8))] (taskQueue s))
    by (vm_compute; reflexivity).
  destruct (failed_task_stalls demo_client demo_listener (plain 8) [resolve_task 0 (Some (plain 8))] 8
    (JSError "boom") 4 s Hq eq_refl Hc eq_refl eq_refl) as (s' & E & Q & N & _).
  exists s'. split; [exact E|]. split; [rewrite Q; reflexivity|exact N].
Defined.
End examples.
