(* ===== verification/XMLHttpRequest.v ===== *)
(** * XMLHttpRequest

    Libraries/Network/XMLHttpRequest.js.  The fields of the class are the record [st].
    The native networking module and the listeners are its environment: calls to
    native, events dispatched and interceptor calls are recorded in [trace], messages
    from native are the operations [deliver] and [didCreateRequest], and listeners are
    client code that may re-enter the object.

    [base64.toByteArray], [BlobManager] and [JSON.parse] are parameters, as is the
    type [V] of decoded responses.  Header names and the method are ASCII. *)
From S2P Require Import Prelude.
From stdpp Require Import base numbers list strings gmap fin_maps.
From Stdlib Require Import Ascii.
Open Scope nat_scope.

Inductive ready_state := UNSENT | OPENED | HEADERS_RECEIVED | LOADING | DONE.
#[export] Instance ready_state_eq_dec : EqDecision ready_state.
Proof. solve_decision. Defined.
Definition state_number (x : ready_state) : nat :=
  match x with UNSENT => 0 | OPENED => 1 | HEADERS_RECEIVED => 2 | LOADING => 3 | DONE => 4 end.

(** [ResponseType]; any other string a client assigns is [OtherType]. *)
Inductive response_type := RT_default | RT_arraybuffer | RT_blob | RT_document | RT_json | RT_text
  | OtherType (s : string).
#[export] Instance response_type_eq_dec : EqDecision response_type.
Proof. solve_decision. Defined.
Inductive native_type := Native_base64 | Native_blob | Native_text.

(** [_response]: a string, or the options object of a blob. *)
Inductive body := Text (s : string) | BlobOptions (b : nat).
Definition body_empty (b : body) : bool := match b with Text EmptyString => true | _ => false end.
(** [_response += text]; an object is converted to a string. *)
Definition body_append (b : body) (text : string) : body :=
  match b with
  | Text s => Text (s +:+ text)
  | BlobOptions _ => Text ("[object Object]" +:+ text)
  end.

Inductive event :=
  | Readystatechange | Abort | Error | Load | Loadend | TimeoutEv
  | Progress (lengthComputable : bool) (loaded total : Z)
  | UploadProgress (loaded total : Z).
#[export] Instance event_eq_dec : EqDecision event.
Proof. solve_decision. Defined.

(** The listeners registered with the native module by [send]. *)
Inductive subscription := SubUpload | SubResponse | SubData | SubIncremental | SubProgress | SubComplete.
#[export] Instance subscription_eq_dec : EqDecision subscription.
Proof. solve_decision. Defined.

Abbreviation header_map := (list (string * string)).

Inductive trace_event :=
  | Dispatch (e : event) (at_state : ready_state)
  | SendRequest (method trackingName url : string) (headers : header_map) (t : native_type)
      (data : nat) (incremental : bool) (timeout : Z) (withCredentials : bool)
  | AbortRequest (id : nat)
  | StartTimespan (key : string) | StopTimespan (key : string)
  | RequestSent (id : nat) (url method : string) (headers : header_map)
  | ResponseReceived (id : nat) (url : string) (status : Z) (headers : header_map)
  | DataReceived (id : nat) (b : body)
  | LoadingFinished (id : nat) (length : option nat)
  | LoadingFailed (id : nat) (error : string).

(** Decoded responses: [null], or a value of [V]. *)
Inductive decoded (V : Type) := Null | Value (v : V).
Arguments Null {V}. Arguments Value {V}.

Record st (V W : Type) := {
  readyState : ready_state;
  responseHeaders : option header_map;
  status : Z;
  timeout : Z;
  responseURL : option string;
  withCredentials : bool;
  requestId : option nat;
  subscriptions : list subscription;
  aborted : bool;
  cachedResponse : option (decoded V);
  hasError : bool;
  headers : header_map;
  lowerCaseResponseHeaders : header_map;
  method : option string;
  perfKey : option string;
  responseType : response_type;
  sent : bool;
  url : option string;
  timedOut : bool;
  trackingName : string;
  incrementalEvents : bool;
  response : body;
  onreadystatechange : bool;   (* whether the attribute holds a function *)
  onprogress : bool;
  trace : list trace_event;
  world : W
}.
Arguments readyState {V W}. Arguments responseHeaders {V W}. Arguments status {V W}.
Arguments timeout {V W}. Arguments responseURL {V W}. Arguments withCredentials {V W}.
Arguments requestId {V W}. Arguments subscriptions {V W}. Arguments aborted {V W}. Arguments
cachedResponse {V W}. Arguments hasError {V W}. Arguments headers {V W}. Arguments
lowerCaseResponseHeaders {V W}. Arguments method {V W}. Arguments perfKey {V W}. Arguments
responseType {V W}. Arguments sent {V W}. Arguments url {V W}. Arguments timedOut {V W}.
Arguments trackingName {V W}. Arguments incrementalEvents {V W}. Arguments response {V W}.
Arguments onreadystatechange {V W}. Arguments onprogress {V W}. Arguments trace {V W}.
Arguments world {V W}.
Section setters.
Context {V W : Type}.
Definition set_readyState x (s : st V W) : st V W := Build_st V W x (responseHeaders s)
  (status s) (timeout s) (responseURL s) (withCredentials s) (requestId s) (subscriptions s)
  (aborted s) (cachedResponse s) (hasError s) (headers s) (lowerCaseResponseHeaders s)
  (method s) (perfKey s) (responseType s) (sent s) (url s) (timedOut s) (trackingName s)
  (incrementalEvents s) (response s) (onreadystatechange s) (onprogress s) (trace s) (world
  s).
Definition set_responseHeaders x (s : st V W) : st V W := Build_st V W (readyState s) x
  (status s) (timeout s) (responseURL s) (withCredentials s) (requestId s) (subscriptions s)
  (aborted s) (cachedResponse s) (hasError s) (headers s) (lowerCaseResponseHeaders s)
  (method s) (perfKey s) (responseType s) (sent s) (url s) (timedOut s) (trackingName s)
  (incrementalEvents s) (response s) (onreadystatechange s) (onprogress s) (trace s) (world
  s).
Definition set_status x (s : st V W) : st V W := Build_st V W (readyState s)
  (responseHeaders s) x (timeout s) (responseURL s) (withCredentials s) (requestId s)
  (subscriptions s) (aborted s) (cachedResponse s) (hasError s) (headers s)
  (lowerCaseResponseHeaders s) (method s) (perfKey s) (responseType s) (sent s) (url s)
  (timedOut s) (trackingName s) (incrementalEvents s) (response s) (onreadystatechange s)
  (onprogress s) (trace s) (world s).
Definition set_timeout x (s : st V W) : st V W := Build_st V W (readyState s)
  (responseHeaders s) (status s) x (responseURL s) (withCredentials s) (requestId s)
  (subscriptions s) (aborted s) (cachedResponse s) (hasError s) (headers s)
  (lowerCaseResponseHeaders s) (method s) (perfKey s) (responseType s) (sent s) (url s)
  (timedOut s) (trackingName s) (incrementalEvents s) (response s) (onreadystatechange s)
  (onprogress s) (trace s) (world s).
Definition set_responseURL x (s : st V W) : st V W := Build_st V W (readyState s)
  (responseHeaders s) (status s) (timeout s) x (withCredentials s) (requestId s)
  (subscriptions s) (aborted s) (cachedResponse s) (hasError s) (headers s)
  (lowerCaseResponseHeaders s) (method s) (perfKey s) (responseType s) (sent s) (url s)
  (timedOut s) (trackingName s) (incrementalEvents s) (response s) (onreadystatechange s)
  (onprogress s) (trace s) (world s).
Definition set_withCredentials x (s : st V W) : st V W := Build_st V W (readyState s)
  (responseHeaders s) (status s) (timeout s) (responseURL s) x (requestId s) (subscriptions
  s) (aborted s) (cachedResponse s) (hasError s) (headers s) (lowerCaseResponseHeaders s)
  (method s) (perfKey s) (responseType s) (sent s) (url s) (timedOut s) (trackingName s)
  (incrementalEvents s) (response s) (onreadystatechange s) (onprogress s) (trace s) (world
  s).
Definition set_requestId x (s : st V W) : st V W := Build_st V W (readyState s)
  (responseHeaders s) (status s) (timeout s) (responseURL s) (withCredentials s) x
  (subscriptions s) (aborted s) (cachedResponse s) (hasError s) (headers s)
  (lowerCaseResponseHeaders s) (method s) (perfKey s) (responseType s) (sent s) (url s)
  (timedOut s) (trackingName s) (incrementalEvents s) (response s) (onreadystatechange s)
  (onprogress s) (trace s) (world s).
Definition set_subscriptions x (s : st V W) : st V W := Build_st V W (readyState s)
  (responseHeaders s) (status s) (timeout s) (responseURL s) (withCredentials s) (requestId
  s) x (aborted s) (cachedResponse s) (hasError s) (headers s) (lowerCaseResponseHeaders s)
  (method s) (perfKey s) (responseType s) (sent s) (url s) (timedOut s) (trackingName s)
  (incrementalEvents s) (response s) (onreadystatechange s) (onprogress s) (trace s) (world
  s).
Definition set_aborted x (s : st V W) : st V W := Build_st V W (readyState s)
  (responseHeaders s) (status s) (timeout s) (responseURL s) (withCredentials s) (requestId
  s) (subscriptions s) x (cachedResponse s) (hasError s) (headers s)
  (lowerCaseResponseHeaders s) (method s) (perfKey s) (responseType s) (sent s) (url s)
  (timedOut s) (trackingName s) (incrementalEvents s) (response s) (onreadystatechange s)
  (onprogress s) (trace s) (world s).
Definition set_cachedResponse x (s : st V W) : st V W := Build_st V W (readyState s)
  (responseHeaders s) (status s) (timeout s) (responseURL s) (withCredentials s) (requestId
  s) (subscriptions s) (aborted s) x (hasError s) (headers s) (lowerCaseResponseHeaders s)
  (method s) (perfKey s) (responseType s) (sent s) (url s) (timedOut s) (trackingName s)
  (incrementalEvents s) (response s) (onreadystatechange s) (onprogress s) (trace s) (world
  s).
Definition set_hasError x (s : st V W) : st V W := Build_st V W (readyState s)
  (responseHeaders s) (status s) (timeout s) (responseURL s) (withCredentials s) (requestId
  s) (subscriptions s) (aborted s) (cachedResponse s) x (headers s)
  (lowerCaseResponseHeaders s) (method s) (perfKey s) (responseType s) (sent s) (url s)
  (timedOut s) (trackingName s) (incrementalEvents s) (response s) (onreadystatechange s)
  (onprogress s) (trace s) (world s).
Definition set_headers x (s : st V W) : st V W := Build_st V W (readyState s)
  (responseHeaders s) (status s) (timeout s) (responseURL s) (withCredentials s) (requestId
  s) (subscriptions s) (aborted s) (cachedResponse s) (hasError s) x
  (lowerCaseResponseHeaders s) (method s) (perfKey s) (responseType s) (sent s) (url s)
  (timedOut s) (trackingName s) (incrementalEvents s) (response s) (onreadystatechange s)
  (onprogress s) (trace s) (world s).
Definition set_lowerCaseResponseHeaders x (s : st V W) : st V W := Build_st V W (readyState
  s) (responseHeaders s) (status s) (timeout s) (responseURL s) (withCredentials s)
  (requestId s) (subscriptions s) (aborted s) (cachedResponse s) (hasError s) (headers s) x
  (method s) (perfKey s) (responseType s) (sent s) (url s) (timedOut s) (trackingName s)
  (incrementalEvents s) (response s) (onreadystatechange s) (onprogress s) (trace s) (world
  s).
Definition set_method x (s : st V W) : st V W := Build_st V W (readyState s)
  (responseHeaders s) (status s) (timeout s) (responseURL s) (withCredentials s) (requestId
  s) (subscriptions s) (aborted s) (cachedResponse s) (hasError s) (headers s)
  (lowerCaseResponseHeaders s) x (perfKey s) (responseType s) (sent s) (url s) (timedOut s)
  (trackingName s) (incrementalEvents s) (response s) (onreadystatechange s) (onprogress s)
  (trace s) (world s).
Definition set_perfKey x (s : st V W) : st V W := Build_st V W (readyState s)
  (responseHeaders s) (status s) (timeout s) (responseURL s) (withCredentials s) (requestId
  s) (subscriptions s) (aborted s) (cachedResponse s) (hasError s) (headers s)
  (lowerCaseResponseHeaders s) (method s) x (responseType s) (sent s) (url s) (timedOut s)
  (trackingName s) (incrementalEvents s) (response s) (onreadystatechange s) (onprogress s)
  (trace s) (world s).
Definition set_responseType x (s : st V W) : st V W := Build_st V W (readyState s)
  (responseHeaders s) (status s) (timeout s) (responseURL s) (withCredentials s) (requestId
  s) (subscriptions s) (aborted s) (cachedResponse s) (hasError s) (headers s)
  (lowerCaseResponseHeaders s) (method s) (perfKey s) x (sent s) (url s) (timedOut s)
  (trackingName s) (incrementalEvents s) (response s) (onreadystatechange s) (onprogress s)
  (trace s) (world s).
Definition set_sent x (s : st V W) : st V W := Build_st V W (readyState s) (responseHeaders
  s) (status s) (timeout s) (responseURL s) (withCredentials s) (requestId s) (subscriptions
  s) (aborted s) (cachedResponse s) (hasError s) (headers s) (lowerCaseResponseHeaders s)
  (method s) (perfKey s) (responseType s) x (url s) (timedOut s) (trackingName s)
  (incrementalEvents s) (response s) (onreadystatechange s) (onprogress s) (trace s) (world
  s).
Definition set_url x (s : st V W) : st V W := Build_st V W (readyState s) (responseHeaders
  s) (status s) (timeout s) (responseURL s) (withCredentials s) (requestId s) (subscriptions
  s) (aborted s) (cachedResponse s) (hasError s) (headers s) (lowerCaseResponseHeaders s)
  (method s) (perfKey s) (responseType s) (sent s) x (timedOut s) (trackingName s)
  (incrementalEvents s) (response s) (onreadystatechange s) (onprogress s) (trace s) (world
  s).
Definition set_timedOut x (s : st V W) : st V W := Build_st V W (readyState s)
  (responseHeaders s) (status s) (timeout s) (responseURL s) (withCredentials s) (requestId
  s) (subscriptions s) (aborted s) (cachedResponse s) (hasError s) (headers s)
  (lowerCaseResponseHeaders s) (method s) (perfKey s) (responseType s) (sent s) (url s) x
  (trackingName s) (incrementalEvents s) (response s) (onreadystatechange s) (onprogress s)
  (trace s) (world s).
Definition set_trackingName x (s : st V W) : st V W := Build_st V W (readyState s)
  (responseHeaders s) (status s) (timeout s) (responseURL s) (withCredentials s) (requestId
  s) (subscriptions s) (aborted s) (cachedResponse s) (hasError s) (headers s)
  (lowerCaseResponseHeaders s) (method s) (perfKey s) (responseType s) (sent s) (url s)
  (timedOut s) x (incrementalEvents s) (response s) (onreadystatechange s) (onprogress s)
  (trace s) (world s).
Definition set_incrementalEvents x (s : st V W) : st V W := Build_st V W (readyState s)
  (responseHeaders s) (status s) (timeout s) (responseURL s) (withCredentials s) (requestId
  s) (subscriptions s) (aborted s) (cachedResponse s) (hasError s) (headers s)
  (lowerCaseResponseHeaders s) (method s) (perfKey s) (responseType s) (sent s) (url s)
  (timedOut s) (trackingName s) x (response s) (onreadystatechange s) (onprogress s) (trace
  s) (world s).
Definition set_response x (s : st V W) : st V W := Build_st V W (readyState s)
  (responseHeaders s) (status s) (timeout s) (responseURL s) (withCredentials s) (requestId
  s) (subscriptions s) (aborted s) (cachedResponse s) (hasError s) (headers s)
  (lowerCaseResponseHeaders s) (method s) (perfKey s) (responseType s) (sent s) (url s)
  (timedOut s) (trackingName s) (incrementalEvents s) x (onreadystatechange s) (onprogress
  s) (trace s) (world s).
Definition set_onreadystatechange x (s : st V W) : st V W := Build_st V W (readyState s)
  (responseHeaders s) (status s) (timeout s) (responseURL s) (withCredentials s) (requestId
  s) (subscriptions s) (aborted s) (cachedResponse s) (hasError s) (headers s)
  (lowerCaseResponseHeaders s) (method s) (perfKey s) (responseType s) (sent s) (url s)
  (timedOut s) (trackingName s) (incrementalEvents s) (response s) x (onprogress s) (trace
  s) (world s).
Definition set_onprogress x (s : st V W) : st V W := Build_st V W (readyState s)
  (responseHeaders s) (status s) (timeout s) (responseURL s) (withCredentials s) (requestId
  s) (subscriptions s) (aborted s) (cachedResponse s) (hasError s) (headers s)
  (lowerCaseResponseHeaders s) (method s) (perfKey s) (responseType s) (sent s) (url s)
  (timedOut s) (trackingName s) (incrementalEvents s) (response s) (onreadystatechange s) x
  (trace s) (world s).
Definition set_trace x (s : st V W) : st V W := Build_st V W (readyState s) (responseHeaders
  s) (status s) (timeout s) (responseURL s) (withCredentials s) (requestId s) (subscriptions
  s) (aborted s) (cachedResponse s) (hasError s) (headers s) (lowerCaseResponseHeaders s)
  (method s) (perfKey s) (responseType s) (sent s) (url s) (timedOut s) (trackingName s)
  (incrementalEvents s) (response s) (onreadystatechange s) (onprogress s) x (world s).
Definition set_world x (s : st V W) : st V W := Build_st V W (readyState s) (responseHeaders
  s) (status s) (timeout s) (responseURL s) (withCredentials s) (requestId s) (subscriptions
  s) (aborted s) (cachedResponse s) (hasError s) (headers s) (lowerCaseResponseHeaders s)
  (method s) (perfKey s) (responseType s) (sent s) (url s) (timedOut s) (trackingName s)
  (incrementalEvents s) (response s) (onreadystatechange s) (onprogress s) (trace s) x.
End setters.

Definition ascii_lower (c : ascii) : ascii :=
  let n := nat_of_ascii c in if (65 <=? n) && (n <=? 90) then ascii_of_nat (n + 32) else c.
Definition ascii_upper (c : ascii) : ascii :=
  let n := nat_of_ascii c in if (97 <=? n) && (n <=? 122) then ascii_of_nat (n - 32) else c.
Fixpoint string_map (f : ascii -> ascii) (s : string) : string :=
  match s with EmptyString => EmptyString | String c s' => String (f c) (string_map f s') end.
Definition toLowerCase : string -> string := string_map ascii_lower.
Definition toUpperCase : string -> string := string_map ascii_upper.

Section xhr.
Context {V W : Type}.
Abbreviation S := (st V W).
(** Client code and the libraries the class calls. *)
Context (listener : event -> JS S unit).
Context (interceptor blobAvailable blobTypeAvailable arrayBufferAvailable : bool).

Definition log (e : trace_event) : JS S unit := modify (fun s => set_trace (trace s ++ [e]) s).
Definition intercept (e : trace_event) : JS S unit := when interceptor (log e).
Definition dispatchEvent (e : event) : JS S unit :=
  let! r := gets readyState in
  do! log (Dispatch e r);
  listener e.

Definition clearSubscriptions : JS S unit := modify (set_subscriptions []).

Definition reset_fields (s : S) : S :=
  set_lowerCaseResponseHeaders [] (set_sent false (set_responseType RT_default
    (set_response (Text "") (set_headers [] (set_hasError false (set_cachedResponse None
      (set_requestId None (set_responseURL None (set_status 0%Z (set_responseHeaders None
        (set_readyState UNSENT s))))))))))).
Definition reset : JS S unit :=
  do! modify reset_fields;
  do! clearSubscriptions;
  modify (set_timedOut false).

Definition new_XMLHttpRequest (w : W) : S :=
  Build_st V W UNSENT None 0 0 None true None [] false None false [] [] None None RT_default false
    None false "unknown" false (Text "") false false [] w.

Definition setReadyState (newState : ready_state) : JS S unit :=
  do! modify (set_readyState newState);
  do! dispatchEvent Readystatechange;
  when (bool_decide (newState = DONE)) (
    let! a := gets aborted in
    let! e := gets hasError in
    let! t := gets timedOut in
    do! (if a then dispatchEvent Abort
         else if e then (if t then dispatchEvent TimeoutEv else dispatchEvent Error)
         else dispatchEvent Load);
    dispatchEvent Loadend).

Definition supported (t : response_type) : bool :=
  match t with
  | RT_arraybuffer => arrayBufferAvailable
  | RT_blob => blobTypeAvailable
  | RT_document => false
  | _ => true
  end.
Definition set_response_type (t : response_type) : JS S unit :=
  let! b := gets sent in
  if b then throw (JSError "Failed to set the 'responseType' property on 'XMLHttpRequest': The response type cannot be set after the request has been sent.")
  else
    match t with
    | OtherType _ => ret tt (* and a warning *)
    | _ =>
        do! invariant (supported t || bool_decide (t = RT_document)) "The provided value is unsupported in this environment.";
        do! invariant (negb (bool_decide (t = RT_blob)) || blobAvailable) "Native module BlobModule is required for blob support";
        modify (set_responseType t)
    end.

Definition is_text (t : response_type) : bool := bool_decide (t = RT_default) || bool_decide (t = RT_text).
Definition responseText : JS S body :=
  let! t := gets responseType in
  if negb (is_text t) then throw (JSError "The 'responseText' property is only available if 'responseType' is set to '' or 'text'")
  else
    let! r := gets readyState in
    if state_number r <? state_number LOADING then ret (Text "") else gets response.

Section decode.
Context (toByteArray : string -> V + exn) (createFromOptions : nat -> V) (emptyBlob : V).
Context (json_parse : string -> option (decoded V)).

(** The getter [response]: text, [null] or the decoded value. *)
Inductive response_value := AsText (b : body) | AsDecoded (d : decoded V).
Definition decode (t : response_type) (b : body) : decoded V + exn :=
  match t, b with
  | RT_arraybuffer, Text s => match toByteArray s with inl v => inl (Value v) | inr e => inr e end
  | RT_arraybuffer, BlobOptions _ => inr (JSError "TypeError")
  | RT_blob, BlobOptions o => inl (Value (createFromOptions o))
  | RT_blob, Text EmptyString => inl (Value emptyBlob)
  | RT_blob, Text s => inr (JSError ("Invalid response for blob: " +:+ s))
  | RT_json, Text s => inl (default Null (json_parse s))
  | _, _ => inl Null
  end.
Definition get_response : JS S response_value :=
  let! t := gets responseType in
  let! r := gets readyState in
  let! err := gets hasError in
  if is_text t then
    if (state_number r <? state_number LOADING) || err then ret (AsText (Text ""))
    else let! b := gets response in ret (AsText b)
  else if negb (bool_decide (r = DONE)) then ret (AsDecoded Null)
  else
    let! c := gets cachedResponse in
    match c with
    | Some d => ret (AsDecoded d)
    | None =>
        let! b := gets response in
        match decode t b with
        | inl d => do! modify (set_cachedResponse (Some d)); ret (AsDecoded d)
        | inr e => throw e
        end
    end.
End decode.

(** ** Messages from native *)

(** [x || y] on strings. *)
Definition or_string (x y : string) : string := if x is EmptyString then y else x.
Definition is_mine (id : nat) (s : S) : bool := bool_decide (requestId s = Some id).

Definition didCreateRequest (id : nat) : JS S unit :=
  do! modify (set_requestId (Some id));
  let! e := gets (fun s => RequestSent id (default "" (url s)) (or_string (default "" (method s)) "GET") (headers s)) in
  intercept e.

Definition didUploadProgress (id : nat) (progress total : Z) : JS S unit :=
  let! mine := gets (is_mine id) in
  when mine (dispatchEvent (UploadProgress progress total)).

Definition lower_keys (h : header_map) : header_map :=
  foldl (fun m e => map_set (toLowerCase e.1) e.2 m) [] h.
Definition setResponseHeaders (h : option header_map) : JS S unit :=
  do! modify (set_responseHeaders h);
  modify (set_lowerCaseResponseHeaders (lower_keys (default [] h))).

Definition didReceiveResponse (id : nat) (code : Z) (h : option header_map) (rurl : option string) : JS S unit :=
  let! mine := gets (is_mine id) in
  when mine (
    let! k := gets perfKey in
    do! (match k with Some k => log (StopTimespan k) | None => ret tt end);
    do! modify (set_status code);
    do! setResponseHeaders h;
    do! setReadyState HEADERS_RECEIVED;
    do! modify (set_responseURL rurl);
    let! u := gets url in
    intercept (ResponseReceived id (or_string (default "" rurl) (default "" u)) code (default [] h))).

Definition didReceiveData (id : nat) (b : body) : JS S unit :=
  let! mine := gets (is_mine id) in
  when mine (
    do! modify (set_response b);
    do! modify (set_cachedResponse None);
    do! setReadyState LOADING;
    intercept (DataReceived id b)).

Definition didReceiveDataProgress (id : nat) (loaded total : Z) : JS S unit :=
  let! mine := gets (is_mine id) in
  when mine (dispatchEvent (Progress (0 <=? total)%Z loaded total)).

Definition didReceiveIncrementalData (id : nat) (text : string) (progress total : Z) : JS S unit :=
  let! mine := gets (is_mine id) in
  when mine (
    do! modify (fun s => set_response
      (if body_empty (response s) then Text text else body_append (response s) text) s);
    do! intercept (DataReceived id (Text text));
    do! setReadyState LOADING;
    didReceiveDataProgress id progress total).

Definition didCompleteResponse (id : nat) (error : string) (timeOutError : bool) : JS S unit :=
  let! mine := gets (is_mine id) in
  let failed := negb (bool_decide (error = "")) in
  when mine (
    do! when failed (
      let! t := gets responseType in
      do! when (is_text t) (modify (set_response (Text error)));
      do! modify (set_hasError true);
      when timeOutError (modify (set_timedOut true)));
    do! clearSubscriptions;
    do! modify (set_requestId None);
    do! setReadyState DONE;
    if failed then intercept (LoadingFailed id error)
    else
      let! b := gets response in
      intercept (LoadingFinished id (if b is Text t then Some (String.length t) else None))).

(** ** The methods *)

Definition getAllResponseHeaders : JS S (option string) :=
  let! h := gets responseHeaders in
  ret (match h with
       | None => None
       | Some h => Some (String.concat (String (ascii_of_nat 13) (String (ascii_of_nat 10) EmptyString))
                           ((fun e => e.1 +:+ ": " +:+ e.2) <$> h))
       end).
Definition getResponseHeader (header : string) : JS S (option string) :=
  gets (fun s => map_get (toLowerCase header) (lowerCaseResponseHeaders s)).
Definition setRequestHeader (header value : string) : JS S unit :=
  let! r := gets readyState in
  if bool_decide (r = OPENED) then
    modify (fun s => set_headers (map_set (toLowerCase header) value (headers s)) s)
  else throw (JSError "Request has not been opened").
Definition setTrackingName (n : string) : JS S unit := modify (set_trackingName n).

(** [async] is [None] for [undefined]. *)
Definition open (m u : string) (async : option bool) : JS S unit :=
  let! r := gets readyState in
  if negb (bool_decide (r = UNSENT)) then throw (JSError "Cannot open, already sending")
  else if negb (default true async) then throw (JSError "Synchronous http requests are not supported")
  else if bool_decide (u = "") then throw (JSError "Cannot load an empty url")
  else
    do! modify (set_method (Some (toUpperCase m)));
    do! modify (set_url (Some u));
    do! modify (set_aborted false);
    setReadyState OPENED.

Definition all_subscriptions : list subscription :=
  [SubUpload; SubResponse; SubData; SubIncremental; SubProgress; SubComplete].
Definition doSend (data : nat) (t : native_type) (incremental : bool) : JS S unit :=
  let! tn := gets trackingName in
  let! u := gets url in
  let! m := gets method in
  let key := "network_XMLHttpRequest_" +:+
    (if bool_decide (tn = "unknown") then default "null" u else tn) in
  do! modify (set_perfKey (Some key));
  do! log (StartTimespan key);
  do! invariant (bool_decide (is_Some m) && negb (bool_decide (m = Some ""))) "XMLHttpRequest method needs to be defined (%s).";
  do! invariant (bool_decide (is_Some u) && negb (bool_decide (u = Some ""))) "XMLHttpRequest URL needs to be defined (%s).";
  let! e := gets (fun s => SendRequest (default "" m) tn (default "" u) (headers s) t data incremental (timeout s) (withCredentials s)) in
  log e.
Definition send (data : nat) : JS S unit :=
  let! r := gets readyState in
  let! b := gets sent in
  if negb (bool_decide (r = OPENED)) then throw (JSError "Request has not been opened")
  else if b then throw (JSError "Request has already been sent")
  else
    do! modify (set_sent true);
    let! inc := gets (fun s => incrementalEvents s || onreadystatechange s || onprogress s) in
    do! modify (fun s => set_subscriptions (subscriptions s ++ all_subscriptions) s);
    let! t := gets responseType in
    doSend data (if bool_decide (t = RT_blob) then Native_blob
            else if bool_decide (t = RT_arraybuffer) then Native_base64 else Native_text) inc.

(** A request id of 0 is falsy. *)
Definition abort : JS S unit :=
  do! modify (set_aborted true);
  let! id := gets requestId in
  do! (match id with Some (Datatypes.S n) => log (AbortRequest (Datatypes.S n)) | _ => ret tt end);
  let! r := gets readyState in
  let! b := gets sent in
  do! when (negb (bool_decide (r = UNSENT) || (bool_decide (r = OPENED) && negb b) || bool_decide (r = DONE)))
        (do! reset; setReadyState DONE);
  reset.

Definition addEventListener (incremental_type : bool) : JS S unit :=
  when incremental_type (modify (set_incrementalEvents true)).

(** ** What native may deliver to the object *)
Inductive message :=
  | MUpload (id : nat) (progress total : Z)
  | MResponse (id : nat) (code : Z) (h : option header_map) (rurl : option string)
  | MData (id : nat) (b : body)
  | MIncremental (id : nat) (text : string) (progress total : Z)
  | MProgress (id : nat) (loaded total : Z)
  | MComplete (id : nat) (error : string) (timeOutError : bool).
Definition message_subscription (m : message) : subscription :=
  match m with
  | MUpload _ _ _ => SubUpload | MResponse _ _ _ _ => SubResponse | MData _ _ => SubData
  | MIncremental _ _ _ _ => SubIncremental | MProgress _ _ _ => SubProgress | MComplete _ _ _ => SubComplete
  end.
Definition handle (m : message) : JS S unit :=
  match m with
  | MUpload id p t => didUploadProgress id p t
  | MResponse id c h u => didReceiveResponse id c h u
  | MData id b => didReceiveData id b
  | MIncremental id x p t => didReceiveIncrementalData id x p t
  | MProgress id l t => didReceiveDataProgress id l t
  | MComplete id e t => didCompleteResponse id e t
  end.
(** The networking module calls the listener of the object, if it has one. *)
Definition deliver (m : message) : JS S unit :=
  let! l := gets subscriptions in
  when (bool_decide (message_subscription m ∈ l)) (handle m).

(** ** What listeners observe, when they do not call back into the object *)
Section quiet.
Hypothesis Hlistener : forall e s, exists w, listener e s = (Ret tt, set_world w s).

(** The events dispatched so far, with the state they were dispatched in. *)
Definition dispatched (s : S) : list (event * ready_state) :=
  omap (fun e => match e with Dispatch e r => Some (e, r) | _ => None end) (trace s).

(** Equality up to the trace and the listeners' world. *)
Definition relabel (t : list trace_event) (w : W) (s : S) : S := set_world w (set_trace t s).
Definition local (f : S -> S) : Prop := forall t w s, f (relabel t w s) = relabel t w (f s).

(** [does ds f m s]: [m] returns from [s], dispatches [ds], and leaves the state [f s]
    up to the trace and the world. *)
Definition does (ds : list (event * ready_state)) (f : S -> S) (m : JS S unit) (s : S) : Prop :=
  exists t w, m s = (Ret tt, relabel t w (f s)) /\
    dispatched (relabel t w (f s)) = dispatched s ++ ds.

Lemma does_ext ds f m m' s : m s = m' s -> does ds f m' s -> does ds f m s.
Proof. unfold does. by intros ->. Qed.
Lemma does_fun f ds g m s : f s = g s -> does ds f m s -> does ds g m s.
Proof. unfold does. by intros ->. Qed.
Lemma does_bind ds1 ds2 f g m (k : unit -> JS S unit) s : local g ->
  does ds1 f m s -> (forall t w, does ds2 g (k tt) (relabel t w (f s))) ->
  does (ds1 ++ ds2) (fun s => g (f s)) (bind m k) s.
Proof.
  intros Hg (t1 & w1 & E1 & D1) Hk. destruct (Hk t1 w1) as (t2 & w2 & E2 & D2).
  exists t2, w2. rewrite (bind_of _ _ _ _ _ E1), E2, Hg in *.
  split; [done|]. rewrite D1 in D2. by rewrite app_assoc.
Qed.
Lemma does_gets {A} ds f (p : S -> A) k s : does ds f (k (p s)) s -> does ds f (bind (gets p) k) s.
Proof. done. Qed.
Lemma does_modify f s : trace (f s) = trace s -> does [] f (modify f) s.
Proof.
  intros H. exists (trace (f s)), (world (f s)). split; [unfold modify; by destruct (f s)|].
  rewrite app_nil_r. unfold dispatched. cbn. by rewrite H.
Qed.
Lemma does_ret s : does [] id (ret tt) s.
Proof. exists (trace s), (world s). rewrite app_nil_r. by destruct s. Qed.
Lemma does_log e s : (forall x r, e <> Dispatch x r) -> does [] id (log e) s.
Proof.
  intros He. exists (trace s ++ [e]), (world s). split; [by destruct s|].
  unfold dispatched. cbn. rewrite omap_app. f_equal. destruct e; try done. by edestruct He.
Qed.
Lemma does_intercept e s : (forall x r, e <> Dispatch x r) -> does [] id (intercept e) s.
Proof. unfold intercept. destruct interceptor; [apply does_log|intros; apply does_ret]. Qed.
Lemma does_when ds f b m s : b = true -> does ds f m s -> does ds f (when b m) s.
Proof. by intros ->. Qed.
Lemma does_dispatch e s : does [(e, readyState s)] id (dispatchEvent e) s.
Proof.
  apply does_gets. unfold log. set (s1 := set_trace (trace s ++ [Dispatch e (readyState s)]) s).
  destruct (Hlistener e s1) as [w E]. exists (trace s1), w.
  split; [rewrite bind_modify; exact E|]. unfold dispatched. cbn. by rewrite omap_app.
Qed.

(** The events of a completed request. *)
Definition completion (s : S) : event :=
  if aborted s then Abort else if hasError s then (if timedOut s then TimeoutEv else Error) else Load.
Definition state_events (r : ready_state) (s : S) : list (event * ready_state) :=
  (Readystatechange, r) :: if bool_decide (r = DONE) then [(completion s, DONE); (Loadend, DONE)] else [].

Lemma does_setReadyState r s : does (state_events r s) (set_readyState r) (setReadyState r) s.
Proof.
  unfold setReadyState. apply (does_bind [] _ (set_readyState r) id); [done|by apply does_modify|].
  intros t w. apply (does_bind [_] _ id id); [done|apply does_dispatch|]. intros t' w'.
  case_bool_decide as Hr; [|apply does_ret]. subst r. cbn [when].
  do 3 apply does_gets. unfold completion. cbn.
  apply (does_bind [_] [_] id id); [done| |intros t2 w2; apply does_dispatch].
  destruct (aborted s); [apply does_dispatch|]. destruct (hasError s); [|apply does_dispatch].
  destruct (timedOut s); apply does_dispatch.
Qed.

Lemma does_clear s : does [] (set_subscriptions []) clearSubscriptions s.
Proof. by apply does_modify. Qed.
Definition reset_all (s : S) : S := set_timedOut false (set_subscriptions [] (reset_fields s)).
Lemma does_reset s : does [] reset_all reset s.
Proof.
  unfold reset. apply (does_bind [] [] reset_fields (fun s => set_timedOut false (set_subscriptions [] s)));
    [done|by apply does_modify|]. intros t w.
  apply (does_bind [] [] (set_subscriptions []) (set_timedOut false)); [done|apply does_clear|].
  intros t' w'. by apply does_modify.
Qed.

(** ** The effect of each message on a request it is meant for *)
Definition respond (code : Z) (h : option header_map) (s : S) : S :=
  set_lowerCaseResponseHeaders (lower_keys (default [] h)) (set_responseHeaders h (set_status code s)).
Lemma does_response rid code h u s : is_mine rid s = true ->
  does [(Readystatechange, HEADERS_RECEIVED)]
    (fun s => set_responseURL u (set_readyState HEADERS_RECEIVED (respond code h s)))
    (didReceiveResponse rid code h u) s.
Proof.
  intros Hm. apply does_gets, does_when; [done|]. apply does_gets.
  apply (does_bind [] _ id (fun s => set_responseURL u (set_readyState HEADERS_RECEIVED (respond code h s)))).
  { done. } { destruct (perfKey s); [by apply does_log|apply does_ret]. }
  intros t w. apply (does_bind [] _ (set_status code) (fun s => set_responseURL u (set_readyState HEADERS_RECEIVED
    (set_lowerCaseResponseHeaders (lower_keys (default [] h)) (set_responseHeaders h s))))); [done|by apply does_modify|].
  intros t1 w1. unfold setResponseHeaders.
  apply (does_bind [] _ (fun s => set_lowerCaseResponseHeaders (lower_keys (default [] h)) (set_responseHeaders h s))
    (fun s => set_responseURL u (set_readyState HEADERS_RECEIVED s))); [done| |].
  { apply (does_bind [] [] (set_responseHeaders h) (set_lowerCaseResponseHeaders (lower_keys (default [] h))));
      [done|by apply does_modify|intros ??; by apply does_modify]. }
  intros t2 w2. apply (does_bind [(Readystatechange, HEADERS_RECEIVED)] [] (set_readyState HEADERS_RECEIVED) (set_responseURL u));
    [done|exact (does_setReadyState HEADERS_RECEIVED _)|].
  intros t3 w3. apply (does_bind [] [] (set_responseURL u) id); [done|by apply does_modify|].
  intros t4 w4. apply does_gets. by apply does_intercept.
Qed.

Definition append_body (text : string) (s : S) : S :=
  set_response (if body_empty (response s) then Text text else body_append (response s) text) s.
Lemma does_incremental rid text p total s : is_mine rid s = true ->
  does [(Readystatechange, LOADING); (Progress (0 <=? total)%Z p total, LOADING)]
    (fun s => set_readyState LOADING (append_body text s)) (didReceiveIncrementalData rid text p total) s.
Proof.
  intros Hm. apply does_gets, does_when; [done|].
  apply (does_bind [] _ (append_body text) (set_readyState LOADING)); [done|by apply does_modify|].
  intros t w. apply (does_bind [] _ id (set_readyState LOADING)); [done|by apply does_intercept|].
  intros t1 w1. apply (does_bind [(Readystatechange, LOADING)] [_] (set_readyState LOADING) id);
    [done|exact (does_setReadyState LOADING _)|].
  intros t2 w2. unfold didReceiveDataProgress. apply does_gets, does_when; [exact Hm|].
  apply (does_dispatch (Progress _ _ _)).
Qed.

Definition fail_request (error : string) (timeOutError : bool) (s : S) : S :=
  if bool_decide (error = "") then s
  else
    let s1 := if is_text (responseType s) then set_response (Text error) s else s in
    let s2 := set_hasError true s1 in
    if timeOutError then set_timedOut true s2 else s2.
Definition settle (s : S) : S := set_requestId None (set_subscriptions [] s).
Lemma fail_local error b : local (fail_request error b).
Proof.
  intros t w s. unfold fail_request. cbn. destruct (bool_decide (error = "")); [done|].
  by destruct (is_text (responseType s)), b.
Qed.
Lemma does_complete rid error b s : is_mine rid s = true ->
  does (state_events DONE (fail_request error b s))
    (fun s => set_readyState DONE (settle (fail_request error b s))) (didCompleteResponse rid error b) s.
Proof.
  intros Hm. apply does_gets, does_when; [done|].
  assert (Hfail : does [] (fail_request error b)
    (when (negb (bool_decide (error = ""))) (let! t := gets responseType in
      do! when (is_text t) (modify (set_response (Text error)));
      do! modify (set_hasError true); when b (modify (set_timedOut true)))) s).
  { unfold fail_request. destruct (bool_decide (error = "")); [apply does_ret|]. apply does_gets. cbn [when negb].
    exists (trace s), (world s). rewrite app_nil_r.
    destruct (is_text (responseType s)), b; (split; [destruct s|]; reflexivity). }
  apply (does_bind [] _ (fail_request error b) (fun s => set_readyState DONE (settle s))); [done|exact Hfail|].
  intros t w. apply (does_bind [] _ (set_subscriptions []) (fun s => set_readyState DONE (set_requestId None s)));
    [done|apply does_clear|].
  intros t1 w1. apply (does_bind [] _ (set_requestId None) (set_readyState DONE)); [done|by apply does_modify|].
  intros t2 w2. change ((Readystatechange, DONE) :: _) with (state_events DONE (fail_request error b s)).
  rewrite <- (app_nil_r (state_events _ _)).
  eapply (does_bind _ [] (set_readyState DONE) id); [done|exact (does_setReadyState DONE _)|].
  intros t3 w3. destruct (negb _); [by apply does_intercept|]. apply does_gets. by apply does_intercept.
Qed.

(** Without listeners at the networking module the object is deaf. *)
Lemma deliver_deaf ms (s : S) : subscriptions s = [] -> for_each ms deliver s = (Ret tt, s).
Proof.
  intros Hs. induction ms as [|m ms IH]; [done|]. cbn [for_each].
  assert (E : deliver m s = (Ret tt, s)).
  { unfold deliver. rewrite bind_gets, Hs, bool_decide_false by (apply not_elem_of_nil). done. }
  by rewrite (bind_of _ _ _ _ _ E).
Qed.
Lemma deliver_subscribed m (s : S) :
  message_subscription m ∈ subscriptions s -> deliver m s = handle m s.
Proof. intros H. unfold deliver. by rewrite bind_gets, bool_decide_true. Qed.

(** C30. Completing the current request dispatches exactly [readystatechange], one of
    [abort], [timeout], [error] and [load], and [loadend], all in state DONE; and
    whatever native sends afterwards dispatches nothing and changes nothing. *)
Theorem completes_exactly_once id error b ms (s : S) :
  is_mine id s = true -> SubComplete ∈ subscriptions s ->
  exists s', for_each (MComplete id error b :: ms) deliver s = (Ret tt, s') /\
    readyState s' = DONE /\ requestId s' = None /\
    dispatched s' = dispatched s ++
      [(Readystatechange, DONE);
       (if aborted s then Abort
        else if hasError s || negb (bool_decide (error = "")) then
          if timedOut s || (b && negb (bool_decide (error = ""))) then TimeoutEv else Error
        else Load, DONE);
       (Loadend, DONE)].
Proof.
  intros Hm Hsub. destruct (does_complete id error b s Hm) as (t & w & E & D).
  set (s' := relabel t w _) in *. exists s'. cbn [for_each].
  rewrite (bind_of _ _ _ tt s'); [|by rewrite deliver_subscribed].
  split; [by apply deliver_deaf|]. split; [done|]. split; [done|]. rewrite D. do 2 f_equal.
  unfold state_events, completion, fail_request. cbn [bool_decide].
  rewrite bool_decide_true by done. destruct (bool_decide (error = "")); cbn.
  - by rewrite !orb_false_r, andb_false_r, orb_false_r.
  - rewrite !orb_true_r, andb_true_r. destruct (is_text (responseType s)), b; cbn; by rewrite ?orb_true_r, ?orb_false_r.
Qed.

(** ** A whole request *)
Definition live (rid : nat) (s : S) : Prop :=
  is_mine rid s = true /\ subscriptions s = all_subscriptions.
Lemma does_deliver ds f m rid s : live rid s -> does ds f (handle m) s -> does ds f (deliver m) s.
Proof.
  intros [_ Hs]. apply does_ext, deliver_subscribed. rewrite Hs. unfold all_subscriptions.
  destruct m; cbn; set_solver.
Qed.

Definition chunk : Type := string * Z * Z.
Definition incremental (rid : nat) (c : chunk) : message := MIncremental rid c.1.1 c.1.2 c.2.
Definition chunk_events (c : chunk) : list (event * ready_state) :=
  [(Readystatechange, LOADING); (Progress (0 <=? c.2)%Z c.1.2 c.2, LOADING)].
Definition texts (l : list chunk) : string := foldr (fun c r => c.1.1 +:+ r) "" l.
Definition receive_chunks (l : list chunk) (s : S) : S :=
  foldl (fun s c => set_readyState LOADING (append_body c.1.1 s)) s l.
Lemma receive_chunks_local l : local (receive_chunks l).
Proof.
  intros t w. induction l as [|c l IH]; intros s; [done|]. cbn.
  change (set_readyState LOADING (append_body c.1.1 (relabel t w s))) with
    (relabel t w (set_readyState LOADING (append_body c.1.1 s))). apply IH.
Qed.
Lemma receive_chunks_fields l s :
  requestId (receive_chunks l s) = requestId s /\ subscriptions (receive_chunks l s) = subscriptions s /\
  aborted (receive_chunks l s) = aborted s /\ hasError (receive_chunks l s) = hasError s /\
  status (receive_chunks l s) = status s /\ responseURL (receive_chunks l s) = responseURL s /\
  responseType (receive_chunks l s) = responseType s /\
  forall x, response s = Text x ->
    response (receive_chunks l s) = Text (x +:+ texts l).
Proof.
  revert s. induction l as [|c l IH]; intros s.
  - split_and!; try done. intros x Hx. cbn. rewrite Hx. by rewrite string_app_nil_r.
  - cbn [receive_chunks foldl].
    destruct (IH (set_readyState LOADING (append_body c.1.1 s))) as (H1&H2&H3&H4&H5&H6&H7&H8).
    split_and!; try done. intros x Hx. change (foldl _ _ l) with (receive_chunks l (set_readyState LOADING (append_body c.1.1 s))).
    rewrite (H8 (x +:+ c.1.1)).
    + f_equal. symmetry. apply string_app_assoc.
    + cbn. rewrite Hx. by destruct x.
Qed.
Lemma does_chunks rid l s : live rid s ->
  does (flat_map chunk_events l) (receive_chunks l) (for_each (incremental rid <$> l) deliver) s.
Proof.
  revert s. induction l as [|c l IH]; intros s Hl; [apply does_ret|]. cbn [for_each fmap list_fmap flat_map].
  apply (does_bind (chunk_events c) (flat_map chunk_events l)
    (fun s => set_readyState LOADING (append_body c.1.1 s)) (receive_chunks l)); [apply receive_chunks_local| |].
  - apply (does_deliver _ _ _ rid); [done|]. by apply does_incremental, Hl.
  - intros t w. by apply IH.
Qed.

Definition opened (m u : string) (s : S) : S :=
  set_readyState OPENED (set_aborted false (set_url (Some u) (set_method (Some (toUpperCase m)) s))).
Lemma does_open m u s : readyState s = UNSENT -> u <> "" ->
  does [(Readystatechange, OPENED)] (opened m u) (open m u None) s.
Proof.
  intros Hr Hu. unfold open. apply does_gets. rewrite Hr. cbn [negb bool_decide].
  rewrite bool_decide_true by done. rewrite bool_decide_false by done. cbn [negb default].
  apply (does_bind [] _ (set_method (Some (toUpperCase m))) (fun s => set_readyState OPENED (set_aborted false (set_url (Some u) s))));
    [done|by apply does_modify|].
  intros t w. apply (does_bind [] _ (set_url (Some u)) (fun s => set_readyState OPENED (set_aborted false s)));
    [done|by apply does_modify|].
  intros t1 w1. apply (does_bind [] _ (set_aborted false) (set_readyState OPENED)); [done|by apply does_modify|].
  intros t2 w2. exact (does_setReadyState OPENED _).
Qed.

Definition span_key (s : S) : string :=
  "network_XMLHttpRequest_" +:+ (if bool_decide (trackingName s = "unknown") then default "null" (url s) else trackingName s).
Definition sending (s : S) : S :=
  set_perfKey (Some (span_key s)) (set_subscriptions (subscriptions s ++ all_subscriptions) (set_sent true s)).
Lemma does_send d m u s : readyState s = OPENED -> sent s = false ->
  method s = Some m -> m <> "" -> url s = Some u -> u <> "" ->
  does [] sending (send d) s.
Proof.
  intros Hr Hs Hm Hm' Hu Hu'. unfold send. do 2 apply does_gets. rewrite Hr, Hs. rewrite bool_decide_true by done.
  cbn [negb]. apply (does_bind [] [] (set_sent true)
    (fun s => set_perfKey (Some (span_key s)) (set_subscriptions (subscriptions s ++ all_subscriptions) s)));
    [done|by apply does_modify|].
  intros t w. apply does_gets.
  apply (does_bind [] [] (fun s => set_subscriptions (subscriptions s ++ all_subscriptions) s)
    (fun s => set_perfKey (Some (span_key s)) s)); [done|by apply does_modify|].
  intros t1 w1. apply does_gets. unfold doSend. do 3 apply does_gets. cbn [relabel trackingName url method set_world set_trace set_subscriptions set_sent].
  rewrite Hm, Hu. apply (does_bind [] [] (fun s => set_perfKey (Some (span_key s)) s) id); [done| |].
  { eapply does_fun; [|by apply does_modify]. unfold span_key. cbn. by rewrite Hu. }
  intros t2 w2. apply (does_bind [] [] id id); [done|by apply does_log|]. intros t3 w3.
  rewrite (bool_decide_true (is_Some (Some m))), (bool_decide_true (is_Some (Some u))) by (by eexists).
  rewrite !bool_decide_false by congruence. cbn [andb negb invariant].
  apply (does_bind [] [] id id); [done|apply does_ret|]. intros t4 w4.
  apply (does_bind [] [] id id); [done|apply does_ret|]. intros t5 w5. apply does_gets. by apply does_log.
Qed.

Definition messages (rid : nat) (code : Z) (h : option header_map) (ru : option string) (l : list chunk)
    : list message :=
  MResponse rid code h ru :: (incremental rid <$> l) ++ [MComplete rid "" false].

(** C29. A request that is opened, sent and answered by native with a response, any
    number of incremental chunks and a completion ends in state DONE with the status,
    the URL and the concatenation of the chunks as its response, having dispatched
    exactly the events of the states OPENED, HEADERS_RECEIVED, LOADING (with a
    [progress] event per chunk) and DONE in this order, and then [load] and
    [loadend]. *)
Theorem request_roundtrip m u d rid code h ru l w :
  m <> "" -> u <> "" ->
  exists s', (do! open m u None; do! send d; do! didCreateRequest rid;
              for_each (messages rid code h ru l) deliver) (new_XMLHttpRequest w) = (Ret tt, s') /\
    readyState s' = DONE /\ status s' = code /\ responseURL s' = ru /\ response s' = Text (texts l) /\
    requestId s' = None /\ subscriptions s' = [] /\
    dispatched s' = [(Readystatechange, OPENED); (Readystatechange, HEADERS_RECEIVED)] ++
      flat_map chunk_events l ++ [(Readystatechange, DONE); (Load, DONE); (Loadend, DONE)].
Proof.
  intros Hm Hu. set (s0 := new_XMLHttpRequest w).
  destruct (does_open m u s0 eq_refl Hu) as (t1 & w1 & E1 & D1). rewrite (bind_of _ _ _ _ _ E1).
  set (s1 := relabel t1 w1 _) in *.
  destruct (does_send d (toUpperCase m) u s1) as (t2 & w2 & E2 & D2); [done|done|done|by destruct m|done|done|].
  rewrite (bind_of _ _ _ _ _ E2). set (s2 := relabel t2 w2 _) in *.
  assert (H3 : does [] (set_requestId (Some rid)) (didCreateRequest rid) s2).
  { apply (does_bind [] [] (set_requestId (Some rid)) id); [done|by apply does_modify|].
    intros t v. apply does_gets. by apply does_intercept. }
  destruct H3 as (t3 & w3 & E3 & D3). rewrite (bind_of _ _ _ _ _ E3). set (s3 := relabel t3 w3 _) in *.
  assert (L3 : live rid s3) by (split; [by apply bool_decide_true|done]). unfold messages. cbn [for_each].
  destruct (does_deliver _ _ (MResponse rid code h ru) rid s3 L3 (does_response rid code h ru s3 (proj1 L3)))
    as (t4 & w4 & E4 & D4).
  rewrite (bind_of _ _ _ _ _ E4). set (s4 := relabel t4 w4 _) in *.
  assert (L4 : live rid s4) by (split; [by apply bool_decide_true|done]). rewrite for_each_app.
  destruct (does_chunks rid l s4 L4) as (t5 & w5 & E5 & D5). rewrite (bind_of _ _ _ _ _ E5).
  set (s5 := relabel t5 w5 _) in *.
  destruct (receive_chunks_fields l s4) as (F1 & F2 & F3 & F4 & F5 & F6 & F7 & F8).
  assert (L5 : live rid s5).
  { split; [apply bool_decide_true; by rewrite <- (proj1 (bool_decide_eq_true _) (proj1 L4))|].
    transitivity (subscriptions s4); [exact F2|apply L4]. }
  destruct (does_deliver _ _ (MComplete rid "" false) rid s5 L5 (does_complete rid "" false s5 (proj1 L5)))
    as (t6 & w6 & E6 & D6).
  cbn [for_each]. rewrite (bind_of _ _ _ _ _ E6). eexists. split; [reflexivity|].
  split; [done|]. split; [exact F5|]. split; [exact F6|]. split; [exact (F8 "" eq_refl)|]. split; [done|]. split; [done|].
  rewrite D6, D5, D4, D3, D2, D1. unfold state_events, completion, fail_request.
  rewrite !bool_decide_true by done. change (aborted s5) with (aborted (receive_chunks l s4)).
  change (hasError s5) with (hasError (receive_chunks l s4)). rewrite F3, F4.
  cbn. by rewrite ?app_assoc, ?app_nil_r.
Qed.

(** A request is in flight: sent, or with a response on its way. *)
Definition in_flight (s : S) : bool :=
  negb (bool_decide (readyState s = UNSENT) ||
        (bool_decide (readyState s = OPENED) && negb (sent s)) || bool_decide (readyState s = DONE)).

Definition aborted_state (s : S) : S :=
  reset_all (if in_flight s then set_readyState DONE (reset_all (set_aborted true s)) else set_aborted true s).
Definition abort_events (s : S) : list (event * ready_state) :=
  if in_flight s then [(Readystatechange, DONE); (Abort, DONE); (Loadend, DONE)] else [].
Lemma does_abort s : does (abort_events s) aborted_state abort s.
Proof.
  unfold abort, abort_events. set (g := fun x : S => if in_flight s then set_readyState DONE (reset_all x) else x).
  assert (Hg : local g) by (intros t w x; unfold g; by destruct (in_flight s)).
  assert (Hrg : local (fun x => reset_all (g x))) by (intros t w x; unfold g; by destruct (in_flight s)).
  apply (does_bind [] _ (set_aborted true) (fun x => reset_all (g x))); [done|by apply does_modify|].
  intros t w. apply does_gets. set (s1 := relabel t w (set_aborted true s)).
  apply (does_bind [] _ id (fun x => reset_all (g x))); [done| |].
  { destruct (requestId s1) as [[|n]|]; [apply does_ret|by apply does_log|apply does_ret]. }
  intros t2 w2. do 2 apply does_gets.
  match goal with |- context [when ?b _] => change b with (in_flight s) end.
  rewrite <- (app_nil_r (if in_flight s then _ else _)).
  apply (does_bind (if in_flight s then _ else _) [] g reset_all); [done| |intros t3 w3; apply does_reset].
  unfold g. destruct (in_flight s); cbn [when]; [|apply does_ret].
  apply (does_bind [] [(Readystatechange, DONE); (Abort, DONE); (Loadend, DONE)] reset_all (set_readyState DONE));
    [done|apply does_reset|].
  intros t3 w3. exact (does_setReadyState DONE _).
Qed.

(** [abort] returns the object to its initial state whatever its state was.  With a
    request in flight it dispatches exactly [readystatechange] in DONE, [abort] and
    [loadend]; otherwise nothing.  After it the object ignores native, whatever the
    messages. *)
Theorem abort_resets ms s :
  exists s', (do! abort; for_each ms deliver) s = (Ret tt, s') /\
    readyState s' = UNSENT /\ sent s' = false /\ requestId s' = None /\ subscriptions s' = [] /\
    response s' = Text "" /\ responseHeaders s' = None /\ hasError s' = false /\ headers s' = [] /\
    dispatched s' = dispatched s ++
      (if in_flight s then [(Readystatechange, DONE); (Abort, DONE); (Loadend, DONE)] else []).
Proof.
  destruct (does_abort s) as (t & w & E & D). set (s' := relabel t w (aborted_state s)) in *. exists s'.
  rewrite (bind_of _ _ _ _ _ E). split; [by apply deliver_deaf|].
  split_and!; try exact D; unfold s', aborted_state; by destruct (in_flight s).
Qed.

Lemma does_data rid b s : is_mine rid s = true ->
  does [(Readystatechange, LOADING)] (fun s => set_readyState LOADING (set_cachedResponse None (set_response b s)))
    (didReceiveData rid b) s.
Proof.
  intros Hm. apply does_gets, does_when; [done|].
  apply (does_bind [] _ (set_response b) (fun s => set_readyState LOADING (set_cachedResponse None s)));
    [done|by apply does_modify|].
  intros t w. apply (does_bind [] _ (set_cachedResponse None) (set_readyState LOADING)); [done|by apply does_modify|].
  intros t1 w1. apply (does_bind [(Readystatechange, LOADING)] [] (set_readyState LOADING) id);
    [done|exact (does_setReadyState LOADING _)|].
  intros t2 w2. by apply does_intercept.
Qed.

(** The callback that reports the id of a request is not tied to the request: when
    a request is aborted before native has answered with its id and the object is used
    again, the late callback makes the new request take the old one's id, and the
    response of the aborted request completes the new one.  The aborted request is
    never cancelled at the native side either. *)
Theorem late_id_hijacks m u1 u2 d rid code body s :
  readyState s = UNSENT -> sent s = false -> requestId s = None -> subscriptions s = [] ->
  m <> "" -> u1 <> "" -> u2 <> "" ->
  exists s1 s2, (do! open m u1 None; do! send d; do! abort; do! open m u2 None; send d) s = (Ret tt, s1) /\
    requestId s1 = None /\ url s1 = Some u2 /\
    (do! didCreateRequest rid; for_each [MResponse rid code None None; MData rid body; MComplete rid "" false] deliver) s1
      = (Ret tt, s2) /\
    url s2 = Some u2 /\ readyState s2 = DONE /\ status s2 = code /\ response s2 = body.
Proof.
  intros Hr Hs Hi Hsub Hm H1 H2.
  assert (Hup : toUpperCase m <> "") by (by destruct m).
  destruct (does_open m u1 s Hr H1) as (t1 & w1 & E1 & _).
  set (s1 := relabel t1 w1 (opened m u1 s)) in *.
  destruct (does_send d (toUpperCase m) u1 s1 eq_refl Hs eq_refl Hup eq_refl H1) as (t2 & w2 & E2 & _).
  set (s2 := relabel t2 w2 (sending s1)) in *.
  destruct (does_abort s2) as (t3 & w3 & E3 & _). set (s3 := relabel t3 w3 (aborted_state s2)) in *.
  destruct (does_open m u2 s3 eq_refl H2) as (t4 & w4 & E4 & _).
  set (s4 := relabel t4 w4 (opened m u2 s3)) in *.
  destruct (does_send d (toUpperCase m) u2 s4 eq_refl eq_refl eq_refl Hup eq_refl H2) as (t5 & w5 & E5 & _).
  set (s5 := relabel t5 w5 (sending s4)) in *.
  assert (H6 : does [] (set_requestId (Some rid)) (didCreateRequest rid) s5).
  { apply (does_bind [] [] (set_requestId (Some rid)) id); [done|by apply does_modify|].
    intros t v. apply does_gets. by apply does_intercept. }
  destruct H6 as (t6 & w6 & E6 & _). set (s6 := relabel t6 w6 _) in *.
  assert (Hmine : forall x : S, requestId x = Some rid -> is_mine rid x = true) by (intros x Hx; by apply bool_decide_true).
  assert (L6 : live rid s6) by (split; [by apply Hmine|done]).
  destruct (does_deliver _ _ (MResponse rid code None None) rid s6 L6 (does_response rid code None None s6 (proj1 L6)))
    as (t7 & w7 & E7 & _). set (s7 := relabel t7 w7 _) in *.
  assert (L7 : live rid s7) by (split; [by apply Hmine|done]).
  destruct (does_deliver _ _ (MData rid body) rid s7 L7 (does_data rid body s7 (proj1 L7))) as (t8 & w8 & E8 & _).
  set (s8 := relabel t8 w8 _) in *.
  assert (L8 : live rid s8) by (split; [by apply Hmine|done]).
  destruct (does_deliver _ _ (MComplete rid "" false) rid s8 L8 (does_complete rid "" false s8 (proj1 L8)))
    as (t9 & w9 & E9 & _). set (s9 := relabel t9 w9 _) in *.
  exists s5, s9. split; [|split; [done|split; [done|split; [|done]]]].
  - by rewrite (bind_of _ _ _ _ _ E1), (bind_of _ _ _ _ _ E2), (bind_of _ _ _ _ _ E3), (bind_of _ _ _ _ _ E4).
  - cbn [for_each].
    by rewrite (bind_of _ _ _ _ _ E6), (bind_of _ _ _ _ _ E7), (bind_of _ _ _ _ _ E8), (bind_of _ _ _ _ _ E9).
Qed.
End quiet.
End xhr.

(** ** Concrete requests *)
Section examples.
Abbreviation S0 := (st unit unit).
Definition no_listener (e : event) : JS S0 unit := ret tt.
Lemma no_listener_quiet e s : exists w, no_listener e s = (Ret tt, set_world w s).
Proof. exists (world s). by destruct s. Qed.
Definition fresh : S0 := new_XMLHttpRequest tt.

Lemma request_roundtrip_witness :
  exists s', (do! open no_listener "get" "http://x" None; do! send 0; do! didCreateRequest false 1;
              for_each (messages 1 200 None None [("ab", 2, 5)%Z; ("cde", 5, 5)%Z])
                (deliver no_listener false)) fresh = (Ret tt, s') /\
    response s' = Text "abcde" /\ readyState s' = DONE.
Proof.
  destruct (request_roundtrip no_listener false no_listener_quiet "get" "http://x" 0 1 200 None None
    [("ab", 2, 5)%Z; ("cde", 5, 5)%Z] tt) as (s' & E & R & _ & _ & B & _); [discriminate|discriminate|].
  exists s'. split; [exact E|]. split; [exact B|exact R].
Defined.

Definition sent_request : S0 :=
  final (do! open no_listener "get" "http://x" None; do! send 0; didCreateRequest false 1) fresh.

Lemma completes_exactly_once_witness :
  exists s', for_each [MComplete 1 "The request timed out." true; MData 1 (Text "late")]
      (deliver no_listener false) sent_request = (Ret tt, s') /\
    dispatched s' = [(Readystatechange, OPENED); (Readystatechange, DONE); (TimeoutEv, DONE); (Loadend, DONE)].
Proof.
  assert (Hm : is_mine 1 sent_request = true) by (vm_compute; reflexivity).
  assert (Hs : SubComplete ∈ subscriptions sent_request) by (apply (bool_decide_unpack _); vm_compute; exact I).
  destruct (completes_exactly_once no_listener false no_listener_quiet 1 "The request timed out." true
    [MData 1 (Text "late")] sent_request Hm Hs) as (s' & E & _ & _ & D).
  exists s'. split; [exact E|]. rewrite D. reflexivity.
Defined.

Lemma abort_resets_witness :
  exists s', (do! abort no_listener; for_each [MComplete 1 "" false] (deliver no_listener false)) sent_request
      = (Ret tt, s') /\ readyState s' = UNSENT /\
    dispatched s' = [(Readystatechange, OPENED); (Readystatechange, DONE); (Abort, DONE); (Loadend, DONE)].
Proof.
  destruct (abort_resets no_listener false no_listener_quiet [MComplete 1 "" false] sent_request)
    as (s' & E & R & _ & _ & _ & _ & _ & _ & _ & D).
  exists s'. split; [exact E|]. split; [exact R|]. rewrite D. reflexivity.
Defined.

Lemma late_id_hijacks_witness :
  exists s1 s2, url s1 = Some "http://new" /\
    (do! didCreateRequest false 7; for_each [MResponse 7 200 None None; MData 7 (Text "old"); MComplete 7 "" false]
       (deliver no_listener false)) (s1 : S0) = (Ret tt, s2) /\
    url s2 = Some "http://new" /\ response s2 = Text "old" /\ readyState s2 = DONE.
Proof.
  destruct (late_id_hijacks no_listener false no_listener_quiet "get" "http://old" "http://new" 0 7 200 (Text "old")
    fresh eq_refl eq_refl eq_refl eq_refl) as (s1 & s2 & _ & _ & U & E & U2 & R & _ & B); [discriminate..|].
  exists s1, s2. split; [exact U|]. split; [exact E|]. split; [exact U2|]. split; [exact B|exact R].
Defined.
End examples.
