(* ===== verification/Color.v ===== *)
(** * Colors

    Libraries/StyleSheet/normalizeColor.js, processColor.js and
    setNormalizedColorAlpha.js.  The regular expressions of the source are lists of
    [atom]s run by a backtracking matcher ([exec_at], [search]); their sources only use
    character classes, [?], [*], [+], groups and anchors.  Strings are ASCII.

    Numbers that hold integers are integers, the others rationals: the rounding of
    floating-point arithmetic in the HSL conversion is not modelled.  The bit operators
    are those of the Prelude.  Platform color objects are identifiers; what the platform
    does with them is a parameter. *)
From S2P Require Import Prelude Rationals.
From stdpp Require Import base numbers list strings gmap fin_maps.
From Stdlib Require Import QArith Qround Lqa Ascii.
Open Scope Z_scope.

(** ** Regular expressions *)
Inductive atom :=
  | One (f : ascii -> bool) | Opt (f : ascii -> bool) | Star (f : ascii -> bool)
  | Plus (f : ascii -> bool) | Open | Close | AtEnd.

(** Greedy repetition of a class before the continuation [k]: the longest match first. *)
Fixpoint greedy {R} (f : ascii -> bool) (k : list ascii -> option R) (s : list ascii) : option R :=
  match s with
  | c :: s' =>
      if f c then match greedy f k s' with Some x => Some x | None => k s end else k s
  | [] => k s
  end.

(** Matches [r] at the beginning of [s]; [opened] is the text from the last [Open] on. *)
Fixpoint exec_at (r : list atom) (s opened : list ascii) (captures : list (list ascii))
    : option (list (list ascii)) :=
  match r with
  | [] => Some captures
  | One f :: r' =>
      match s with c :: s' => if f c then exec_at r' s' opened captures else None | [] => None end
  | Opt f :: r' =>
      match s with
      | c :: s' =>
          if f c then
            match exec_at r' s' opened captures with
            | Some x => Some x
            | None => exec_at r' s opened captures
            end
          else exec_at r' s opened captures
      | [] => exec_at r' s opened captures
      end
  | Star f :: r' => greedy f (fun s => exec_at r' s opened captures) s
  | Plus f :: r' =>
      match s with
      | c :: s' => if f c then greedy f (fun s => exec_at r' s opened captures) s' else None
      | [] => None
      end
  | Open :: r' => exec_at r' s s captures
  | Close :: r' => exec_at r' s s (captures ++ [take (length opened - length s) opened])
  | AtEnd :: r' => match s with [] => exec_at r' s opened captures | _ => None end
  end.

(** An expression without [^] matches anywhere. *)
Fixpoint search (r : list atom) (s : list ascii) : option (list (list ascii)) :=
  match exec_at r s s [] with
  | Some x => Some x
  | None => match s with [] => None | _ :: s' => search r s' end
  end.
Definition anchored (r : list atom) (s : list ascii) : option (list (list ascii)) := exec_at r s s [].

Definition between (a b c : ascii) : bool :=
  ((nat_of_ascii a <=? nat_of_ascii c) && (nat_of_ascii c <=? nat_of_ascii b))%nat.
Definition char (c : ascii) : atom := One (Ascii.eqb c).
Definition is_digit (c : ascii) : bool := between "0" "9" c.
Definition is_hex (c : ascii) : bool := is_digit c || between "a" "f" c || between "A" "F" c.
Definition is_space (c : ascii) : bool := (between "009" "013" c || Ascii.eqb " " c)%char.
Definition is_sign (c : ascii) : bool := Ascii.eqb "+" c || Ascii.eqb "-" c.

Definition NUMBER : list atom := [Opt is_sign; Star is_digit; Opt (Ascii.eqb "."); Plus is_digit].
Definition PERCENTAGE : list atom := NUMBER ++ [char "%"].
Fixpoint join (args : list (list atom)) : list atom :=
  match args with
  | [] => []
  | [a] => a
  | a :: args' => a ++ [Close; Star is_space; char ","; Star is_space; Open] ++ join args'
  end.
Definition call (args : list (list atom)) : list atom :=
  [char "("; Star is_space; Open] ++ join args ++ [Close; Star is_space; char ")"].

Definition lit (s : string) : list atom := char <$> String.list_ascii_of_string s.
Definition hex_group (n : nat) : list atom := [Open] ++ replicate n (One is_hex) ++ [Close].
Definition re_rgb := lit "rgb" ++ call [NUMBER; NUMBER; NUMBER].
Definition re_rgba := lit "rgba" ++ call [NUMBER; NUMBER; NUMBER; NUMBER].
Definition re_hsl := lit "hsl" ++ call [NUMBER; PERCENTAGE; PERCENTAGE].
Definition re_hsla := lit "hsla" ++ call [NUMBER; PERCENTAGE; PERCENTAGE; NUMBER].
Definition re_hex3 := [char "#"] ++ hex_group 1 ++ hex_group 1 ++ hex_group 1 ++ [AtEnd].
Definition re_hex4 := [char "#"] ++ hex_group 1 ++ hex_group 1 ++ hex_group 1 ++ hex_group 1 ++ [AtEnd].
Definition re_hex6 := [char "#"] ++ hex_group 6 ++ [AtEnd].
Definition re_hex8 := [char "#"] ++ hex_group 8 ++ [AtEnd].

(** ** Numbers in strings *)
Definition hex_value (c : ascii) : Z :=
  let n := Z.of_nat (nat_of_ascii c) in
  if is_digit c then n - 48 else if between "a" "f" c then n - 87 else n - 55.
(** [parseInt(s, 16)] on a string of hexadecimal digits. *)
Definition parseInt16 (s : list ascii) : Z := foldl (fun a c => 16 * a + hex_value c) 0 s.

Definition decimal (s : list ascii) : Z := foldl (fun a c => 10 * a + hex_value c) 0 s.
Fixpoint span_digits (s : list ascii) : list ascii * list ascii :=
  match s with
  | c :: s' => if is_digit c then let '(a, b) := span_digits s' in (c :: a, b) else ([], s)
  | [] => ([], [])
  end.
Definition split_sign (s : list ascii) : bool * list ascii :=
  match s with
  | c :: s' => if is_sign c then (Ascii.eqb "-" c, s') else (false, s)
  | [] => (false, [])
  end.
(** [parseInt(s, 10)]: [None] is NaN. *)
Definition parseInt10 (s : list ascii) : option Z :=
  let '(neg, s') := split_sign s in
  match span_digits s' with
  | ([], _) => None
  | (d, _) => Some (if neg then - decimal d else decimal d)
  end.
(** [parseFloat(s)] on a match of [NUMBER] or [PERCENTAGE]. *)
Definition parseFloat (s : list ascii) : Q :=
  let '(neg, s') := split_sign s in
  let '(d, rest) := span_digits s' in
  let f := match rest with
           | c :: r => if Ascii.eqb "." c then fst (span_digits r) else []
           | [] => []
           end in
  let q := (inject_Z (decimal d) + inject_Z (decimal f) / inject_Z (10 ^ Z.of_nat (length f)))%Q in
  if neg then (- q)%Q else q.

Definition Math_round (q : Q) : Z := Qfloor (q + (1 # 2))%Q.
(** [x % m]: the sign of the dividend. *)
Definition Qtrunc (q : Q) : Z := if Qltb q 0 then - Qfloor (- q) else Qfloor q.
Definition Qrem (x m : Q) : Q := (x - m * inject_Z (Qtrunc (x / m)))%Q.

Definition parse255 (s : list ascii) : option Z :=
  match parseInt10 s with
  | None => None
  | Some int => Some (if int <? 0 then 0 else if 255 <? int then 255 else int)
  end.
Definition parse360 (s : list ascii) : Q :=
  let int := parseFloat s in (Qrem (Qrem int 360 + 360) 360 / 360)%Q.
Definition parse1 (s : list ascii) : Z :=
  let num := parseFloat s in
  if Qltb num 0 then 0 else if Qltb 1 num then 255 else Math_round (num * 255).
Definition parsePercentage (s : list ascii) : Q :=
  let int := parseFloat s in
  if Qltb int 0 then 0%Q else if Qltb 100 int then 1%Q else (int / 100)%Q.

(** NaN is 0 for the bit operators. *)
Definition bits (x : option Z) : Z := default 0 x.

Definition hue2rgb (p q t : Q) : Q :=
  let t := if Qltb t 0 then (t + 1)%Q else t in
  let t := if Qltb 1 t then (t - 1)%Q else t in
  if Qltb t (1 # 6) then (p + (q - p) * 6 * t)%Q
  else if Qltb t (1 # 2) then q
  else if Qltb t (2 # 3) then (p + (q - p) * ((2 # 3) - t) * 6)%Q
  else p.
Definition hslToRgb (h s l : Q) : Z :=
  let q := if Qltb l (1 # 2) then (l * (1 + s))%Q else (l + s - l * s)%Q in
  let p := (2 * l - q)%Q in
  let r := hue2rgb p q (h + (1 # 3)) in
  let g := hue2rgb p q h in
  let b := hue2rgb p q (h - (1 # 3)) in
  or32 (or32 (shl32 (Math_round (r * 255)) 24) (shl32 (Math_round (g * 255)) 16))
       (shl32 (Math_round (b * 255)) 8).

Definition names : list (string * Z) := [
  ("transparent", 0x00000000); ("aliceblue", 0xf0f8ffff); ("antiquewhite", 0xfaebd7ff);
  ("aqua", 0x00ffffff); ("aquamarine", 0x7fffd4ff); ("azure", 0xf0ffffff);
  ("beige", 0xf5f5dcff); ("bisque", 0xffe4c4ff); ("black", 0x000000ff);
  ("blanchedalmond", 0xffebcdff); ("blue", 0x0000ffff); ("blueviolet", 0x8a2be2ff);
  ("brown", 0xa52a2aff); ("burlywood", 0xdeb887ff); ("burntsienna", 0xea7e5dff);
  ("cadetblue", 0x5f9ea0ff); ("chartreuse", 0x7fff00ff); ("chocolate", 0xd2691eff);
  ("coral", 0xff7f50ff); ("cornflowerblue", 0x6495edff); ("cornsilk", 0xfff8dcff);
  ("crimson", 0xdc143cff); ("cyan", 0x00ffffff); ("darkblue", 0x00008bff);
  ("darkcyan", 0x008b8bff); ("darkgoldenrod", 0xb8860bff); ("darkgray", 0xa9a9a9ff);
  ("darkgreen", 0x006400ff); ("darkgrey", 0xa9a9a9ff); ("darkkhaki", 0xbdb76bff);
  ("darkmagenta", 0x8b008bff); ("darkolivegreen", 0x556b2fff); ("darkorange", 0xff8c00ff);
  ("darkorchid", 0x9932ccff); ("darkred", 0x8b0000ff); ("darksalmon", 0xe9967aff);
  ("darkseagreen", 0x8fbc8fff); ("darkslateblue", 0x483d8bff); ("darkslategray", 0x2f4f4fff);
  ("darkslategrey", 0x2f4f4fff); ("darkturquoise", 0x00ced1ff); ("darkviolet", 0x9400d3ff);
  ("deeppink", 0xff1493ff); ("deepskyblue", 0x00bfffff); ("dimgray", 0x696969ff);
  ("dimgrey", 0x696969ff); ("dodgerblue", 0x1e90ffff); ("firebrick", 0xb22222ff);
  ("floralwhite", 0xfffaf0ff); ("forestgreen", 0x228b22ff); ("fuchsia", 0xff00ffff);
  ("gainsboro", 0xdcdcdcff); ("ghostwhite", 0xf8f8ffff); ("gold", 0xffd700ff);
  ("goldenrod", 0xdaa520ff); ("gray", 0x808080ff); ("green", 0x008000ff);
  ("greenyellow", 0xadff2fff); ("grey", 0x808080ff); ("honeydew", 0xf0fff0ff);
  ("hotpink", 0xff69b4ff); ("indianred", 0xcd5c5cff); ("indigo", 0x4b0082ff);
  ("ivory", 0xfffff0ff); ("khaki", 0xf0e68cff); ("lavender", 0xe6e6faff);
  ("lavenderblush", 0xfff0f5ff); ("lawngreen", 0x7cfc00ff); ("lemonchiffon", 0xfffacdff);
  ("lightblue", 0xadd8e6ff); ("lightcoral", 0xf08080ff); ("lightcyan", 0xe0ffffff);
  ("lightgoldenrodyellow", 0xfafad2ff); ("lightgray", 0xd3d3d3ff); ("lightgreen", 0x90ee90ff);
  ("lightgrey", 0xd3d3d3ff); ("lightpink", 0xffb6c1ff); ("lightsalmon", 0xffa07aff);
  ("lightseagreen", 0x20b2aaff); ("lightskyblue", 0x87cefaff); ("lightslategray", 0x778899ff);
  ("lightslategrey", 0x778899ff); ("lightsteelblue", 0xb0c4deff); ("lightyellow", 0xffffe0ff);
  ("lime", 0x00ff00ff); ("limegreen", 0x32cd32ff); ("linen", 0xfaf0e6ff);
  ("magenta", 0xff00ffff); ("maroon", 0x800000ff); ("mediumaquamarine", 0x66cdaaff);
  ("mediumblue", 0x0000cdff); ("mediumorchid", 0xba55d3ff); ("mediumpurple", 0x9370dbff);
  ("mediumseagreen", 0x3cb371ff); ("mediumslateblue", 0x7b68eeff); ("mediumspringgreen", 0x00fa9aff);
  ("mediumturquoise", 0x48d1ccff); ("mediumvioletred", 0xc71585ff); ("midnightblue", 0x191970ff);
  ("mintcream", 0xf5fffaff); ("mistyrose", 0xffe4e1ff); ("moccasin", 0xffe4b5ff);
  ("navajowhite", 0xffdeadff); ("navy", 0x000080ff); ("oldlace", 0xfdf5e6ff);
  ("olive", 0x808000ff); ("olivedrab", 0x6b8e23ff); ("orange", 0xffa500ff);
  ("orangered", 0xff4500ff); ("orchid", 0xda70d6ff); ("palegoldenrod", 0xeee8aaff);
  ("palegreen", 0x98fb98ff); ("paleturquoise", 0xafeeeeff); ("palevioletred", 0xdb7093ff);
  ("papayawhip", 0xffefd5ff); ("peachpuff", 0xffdab9ff); ("peru", 0xcd853fff);
  ("pink", 0xffc0cbff); ("plum", 0xdda0ddff); ("powderblue", 0xb0e0e6ff);
  ("purple", 0x800080ff); ("rebeccapurple", 0x663399ff); ("red", 0xff0000ff);
  ("rosybrown", 0xbc8f8fff); ("royalblue", 0x4169e1ff); ("saddlebrown", 0x8b4513ff);
  ("salmon", 0xfa8072ff); ("sandybrown", 0xf4a460ff); ("seagreen", 0x2e8b57ff);
  ("seashell", 0xfff5eeff); ("sienna", 0xa0522dff); ("silver", 0xc0c0c0ff);
  ("skyblue", 0x87ceebff); ("slateblue", 0x6a5acdff); ("slategray", 0x708090ff);
  ("slategrey", 0x708090ff); ("snow", 0xfffafaff); ("springgreen", 0x00ff7fff);
  ("steelblue", 0x4682b4ff); ("tan", 0xd2b48cff); ("teal", 0x008080ff);
  ("thistle", 0xd8bfd8ff); ("tomato", 0xff6347ff); ("turquoise", 0x40e0d0ff);
  ("violet", 0xee82eeff); ("wheat", 0xf5deb3ff); ("white", 0xffffffff);
  ("whitesmoke", 0xf5f5f5ff); ("yellow", 0xffff00ff); ("yellowgreen", 0x9acd32ff)
].

(** ** normalizeColor *)
Inductive color := CNumber (q : Q) | CObject (o : nat) | CString (s : string) | CNullish.
Inductive processed := PNumber (n : Z) | PObject (o : nat).

Definition rgb_word (r g b a : Z) : Z :=
  to_uint32 (or32 (or32 (or32 (shl32 r 24) (shl32 g 16)) (shl32 b 8)) a).
Definition double (l : list (list ascii)) : list ascii := concat ((fun m => m ++ m) <$> l).
Definition ff : list ascii := ["f"; "f"]%char.

(** The groups of a match. *)
Definition group1 (m : option (list (list ascii))) : option (list ascii) := m ≫= head.
Definition group3 (m : option (list (list ascii))) : option (list ascii * list ascii * list ascii) :=
  match m with Some (a :: b :: c :: _) => Some (a, b, c) | _ => None end.
Definition group4 (m : option (list (list ascii)))
    : option (list ascii * list ascii * list ascii * list ascii) :=
  match m with Some (a :: b :: c :: d :: _) => Some (a, b, c, d) | _ => None end.

(** The matchers in the order of the source; each case uses the groups of its match. *)
Definition normalize_string (color : list ascii) : option Z :=
  match group1 (anchored re_hex6 color) with
  | Some m => Some (to_uint32 (parseInt16 (m ++ ff)))
  | None =>
  match map_get (String.string_of_list_ascii color) names with
  | Some v => Some v
  | None =>
  match group3 (search re_rgb color) with
  | Some (r, g, b) => Some (rgb_word (bits (parse255 r)) (bits (parse255 g)) (bits (parse255 b)) 255)
  | None =>
  match group4 (search re_rgba color) with
  | Some (r, g, b, a) =>
      Some (rgb_word (bits (parse255 r)) (bits (parse255 g)) (bits (parse255 b)) (parse1 a))
  | None =>
  match anchored re_hex3 color with
  | Some l => Some (to_uint32 (parseInt16 (double l ++ ff)))
  | None =>
  match group1 (anchored re_hex8 color) with
  | Some m => Some (to_uint32 (parseInt16 m))
  | None =>
  match anchored re_hex4 color with
  | Some l => Some (to_uint32 (parseInt16 (double l)))
  | None =>
  match group3 (search re_hsl color) with
  | Some (h, s, l) =>
      Some (to_uint32 (or32 (hslToRgb (parse360 h) (parsePercentage s) (parsePercentage l)) 255))
  | None =>
  match group4 (search re_hsla color) with
  | Some (h, s, l, a) =>
      Some (to_uint32 (or32 (hslToRgb (parse360 h) (parsePercentage s) (parsePercentage l)) (parse1 a)))
  | None => None
  end end end end end end end end end.

Section platform.
Context (normalizeColorObject processColorObject : nat -> option nat) (is_android : bool).

Definition normalizeColor (c : color) : option processed :=
  match c with
  | CNumber q =>
      if Qeq_bool q (inject_Z (to_uint32 (Qtrunc q))) then Some (PNumber (Qtrunc q)) else None
  | CObject o => match normalizeColorObject o with Some _ => Some (PObject o) | None => None end
  | CString s => PNumber <$> normalize_string (String.list_ascii_of_string s)
  | CNullish => None
  end.

(** The result [null]/[undefined] is [None]. *)
Definition processColor (c : color) : option processed :=
  match c with
  | CNullish => None
  | _ =>
      match normalizeColor c with
      | None => None
      | Some (PObject o) => PObject <$> processColorObject o
      | Some (PNumber n) =>
          let argb := to_uint32 (or32 (shl32 n 24) (shru32 n 8)) in
          Some (PNumber (if is_android then or32 argb 0 else argb))
      end
  end.

Definition setNormalizedColorAlpha (input : Z) (alpha : Q) : Z :=
  let alpha := if Qltb alpha 0 then 0%Q else if Qltb 1 alpha then 1%Q else alpha in
  to_uint32 (or32 (and32 input 0xffffff00) (Math_round (alpha * 255))).
End platform.

(** The cases of __tests__/normalizeColor-test.js. *)
Definition normalized (s : string) : option Z := normalize_string (String.list_ascii_of_string s).
Example test_accepts :
  Forall (fun s => normalized s <> None)
    ["#abc"; "#abcd"; "#abcdef"; "#abcdef01"; "rgb(1,2,3)"; "rgb(1, 2, 3)"; "rgb(   1   , 2   , 3   )";
     "rgb(-1, -2, -3)"; "rgba(0, 0, 0, 1)"].
Proof. repeat constructor; vm_compute; discriminate. Qed.
Example test_refuses :
  Forall (fun s => normalized s = None)
    ["#00gg00"; "rgb(1, 2, 3,)"; "rgb(1, 2, 3"; "abc"; " #abc "; "##abc"; "rgb 255 0 0"; "RGBA(0, 1, 2)";
     "rgb (0, 1, 2)"; "hsv(0, 1, 2)"; "hsl(1%, 2, 3)"; "rgb(1%, 2%, 3%)"].
Proof. repeat constructor; vm_compute; reflexivity. Qed.
Example test_values :
  Forall (fun e => normalized e.1 = Some e.2)
    [("rgb(1.1, 2.1, 3.1)", 0x010203ff); ("rgba(1.1, 2.1, 3.1, 1.0)", 0x010203ff);
     ("#000000", 0x000000ff); ("#ff00ff", 0xff00ffff); ("#abcdef", 0xabcdefff); ("#012345", 0x012345ff);
     ("#000", 0x000000ff); ("#fff", 0xffffffff); ("#f0f", 0xff00ffff);
     ("#00000000", 0); ("#ffffffff", 0xffffffff); ("#abcdef01", 0xabcdef01);
     ("rgb(-1, -2, -3)", 0x000000ff); ("rgb(100, 15, 69)", 0x640f45ff); ("rgb(256, 256, 256)", 0xffffffff);
     ("rgba(0, 0, 0, -0.5)", 0); ("rgba(0, 0, 0, 1.5)", 0x000000ff); ("rgba(100, 15, 69, 0.5)", 0x640f4580);
     ("hsl(0, 0%, 0%)", 0x000000ff); ("hsl(360, 100%, 100%)", 0xffffffff); ("hsl(180, 50%, 50%)", 0x40bfbfff);
     ("hsl(540, 50%, 50%)", 0x40bfbfff); ("hsl(70, 25%, 75%)", 0xcacfafff); ("hsl(70, 100%, 75%)", 0xeaff80ff);
     ("hsl(70, 110%, 75%)", 0xeaff80ff); ("hsl(70, 0%, 75%)", 0xbfbfbfff); ("hsl(70, -10%, 75%)", 0xbfbfbfff);
     ("hsla(0, 0%, 0%, 0)", 0); ("hsla(360, 100%, 100%, 0)", 0xffffff00); ("hsla(180, 50%, 50%, 0.2)", 0x40bfbf33);
     ("red", 0xff0000ff); ("transparent", 0); ("peachpuff", 0xffdab9ff)].
Proof. repeat constructor; vm_compute; reflexivity. Qed.

(** ** Every result is a 32-bit word *)
Definition word (n : Z) : Prop := 0 <= n < 2 ^ 32.

Lemma names_words : Forall (fun e => word e.2) names.
Proof.
  apply (Forall_impl (fun e => (0 <=? e.2) && (e.2 <? 2 ^ 32) = true)).
  - repeat constructor.
  - intros [k n] H. unfold word. cbn in *. lia.
Qed.
Lemma map_get_Forall {V} (P : V -> Prop) (m : list (string * V)) k v :
  Forall (fun e => P e.2) m -> map_get k m = Some v -> P v.
Proof.
  induction 1 as [|[k' v'] m Hv Hm IH]; cbn; [done|]. case_decide; [by intros [= <-]|done].
Qed.

Lemma normalize_string_word l n : normalize_string l = Some n -> word n.
Proof.
  unfold normalize_string. pose proof to_uint32_range as Hr. unfold rgb_word.
  pose proof (map_get_Forall word names (String.string_of_list_ascii l)) as Hn. revert Hn.
  generalize (map_get (String.string_of_list_ascii l) names) (group1 (anchored re_hex6 l))
    (group3 (search re_rgb l)) (group4 (search re_rgba l)) (anchored re_hex3 l) (group1 (anchored re_hex8 l))
    (anchored re_hex4 l) (group3 (search re_hsl l)) (group4 (search re_hsla l)).
  intros o0 o1 o2 o3 o4 o5 o6 o7 o8 Hn.
  repeat case_match; intros E; try discriminate E; injection E as <-; try apply Hr.
  apply Hn; [apply names_words|done].
Qed.

Lemma Qtrunc_Z n : Qtrunc (inject_Z n) = n.
Proof.
  unfold Qtrunc, Qltb. rewrite <- inject_Z_opp, !Qfloor_Z. destruct (negb _); lia.
Qed.
Lemma normalize_number np n : word n -> normalizeColor np (CNumber (inject_Z n)) = Some (PNumber n).
Proof.
  intros Hn. cbn. rewrite Qtrunc_Z, to_uint32_small by exact Hn.
  by rewrite (proj2 (Qeq_bool_iff _ _)) by reflexivity.
Qed.

(** Whatever the input, a numeric result is an unsigned 32-bit integer, and
    normalizing a normalized color again gives the same color: the result is accepted
    as a number and left alone. *)
Theorem normalizeColor_word np c n :
  normalizeColor np c = Some (PNumber n) ->
  word n /\ normalizeColor np (CNumber (inject_Z n)) = Some (PNumber n).
Proof.
  intros E. assert (Hw : word n); [|split; [done|by apply normalize_number]].
  destruct c as [q|o|s|]; cbn in E.
  - destruct (Qeq_bool _ _) eqn:Eq; [|done]. injection E as <-. apply Qeq_bool_iff in Eq.
    assert (Hq : Qtrunc q = to_uint32 (Qtrunc q)).
    { set (u := to_uint32 (Qtrunc q)) in *. unfold Qtrunc, Qltb.
      assert (Hu : 0 <= u) by apply to_uint32_range.
      assert (H0 : Qle_bool 0 q = true).
      { apply Qle_bool_iff. rewrite Eq. unfold Qle. cbn. lia. }
      rewrite H0. cbn. by rewrite Eq, Qfloor_Z. }
    rewrite Hq. apply to_uint32_range.
  - by destruct (np o).
  - destruct (normalize_string _) as [v|] eqn:Es; [|done]. injection E as ->. by eapply normalize_string_word.
  - done.
Qed.

(** ** Hexadecimal notation *)
Lemma exec_hex_group n r s opened caps : Forall (fun c => is_hex c = true) s ->
  exec_at (replicate n (One is_hex) ++ r) s opened caps =
    if decide (n <= length s)%nat then exec_at r (drop n s) opened caps else None.
Proof.
  revert s. induction n as [|n IH]; intros s Hs; [done|]. cbn.
  destruct Hs as [|c s Hc Hs]; [done|]. rewrite Hc, IH by done. cbn. repeat case_decide; auto with lia; lia.
Qed.
Lemma exec_group n r s opened caps : Forall (fun c => is_hex c = true) s ->
  exec_at (hex_group n ++ r) s opened caps =
    if decide (n <= length s)%nat then exec_at r (drop n s) (drop n s) (caps ++ [take n s]) else None.
Proof.
  intros Hs. unfold hex_group. rewrite <- !app_assoc. cbn [app exec_at].
  rewrite exec_hex_group by done. case_decide as Hn; [|done]. cbn.
  rewrite length_drop. by replace (length s - (length s - n))%nat with n by lia.
Qed.

Lemma hex_not_letter c : is_hex c = true ->
  Ascii.eqb "r" c = false /\ Ascii.eqb "h" c = false /\ Ascii.eqb "#" c = false.
Proof. destruct c as [[] [] [] [] [] [] [] []]; vm_compute; intuition discriminate. Qed.

Lemma search_none a r s : Forall (fun c => Ascii.eqb a c = false) s -> search (char a :: r) s = None.
Proof. induction 1 as [|c s Hc Hs IH]; [done|]. cbn. by rewrite Hc. Qed.

Lemma names_no_hash s : map_get (String "#" s) names = None.
Proof.
  assert (H : Forall (fun e : string * Z => forall s, e.1 <> String "#" s) names).
  { apply (Forall_impl (fun e : string * Z => if e.1 is String c _ then negb (Ascii.eqb "#" c) = true else True)).
    - repeat constructor.
    - intros [[|c k] v] Hk t; cbn in *; [done|]. by intros [= -> _]. }
  apply map_get_None. intros ([k v] & E & Hin)%list_elem_of_fmap. cbn in E.
  rewrite Forall_forall in H. eapply (H _ Hin). by symmetry.
Qed.

(** The value of a string of hexadecimal digits after [#]. *)
Definition hex_color (l : list ascii) : option Z :=
  match l with
  | [_; _; _] | [_; _; _; _] | [_; _; _; _; _; _] | [_; _; _; _; _; _; _; _] =>
      Some (to_uint32 (parseInt16
        (match length l with
         | 3%nat => concat ((fun c => [c; c]) <$> l) ++ ff
         | 4%nat => concat ((fun c => [c; c]) <$> l)
         | 6%nat => l ++ ff
         | _ => l
         end)))
  | _ => None
  end.

Lemma hex_string l : Forall (fun c => is_hex c = true) l ->
  normalize_string ("#"%char :: l) = hex_color l.
Proof.
  intros Hl. unfold normalize_string, anchored, re_hex6, re_hex3, re_hex8, re_hex4.
  cbn [app exec_at char]. rewrite Ascii.eqb_refl.
  assert (Hs : forall a r, (Ascii.eqb a "#" = false) ->
    Forall (fun c => Ascii.eqb a c = false) l -> search (char a :: r) ("#"%char :: l) = None).
  { intros a r Ha Hf. apply search_none. by constructor. }
  assert (Hr : Forall (fun c => Ascii.eqb "r" c = false) l)
    by (eapply Forall_impl; [exact Hl|]; intros c Hc; apply (hex_not_letter c Hc)).
  assert (Hh : Forall (fun c => Ascii.eqb "h" c = false) l)
    by (eapply Forall_impl; [exact Hl|]; intros c Hc; apply (hex_not_letter c Hc)).
  unfold re_rgb, re_rgba, re_hsl, re_hsla, lit. cbn [String.list_ascii_of_string fmap list_fmap app].
  rewrite !Hs by done. cbn [String.string_of_list_ascii]. rewrite names_no_hash.
  clear Hs Hr Hh.
  do 9 (destruct l as [|? l]; [repeat (apply Forall_cons in Hl as [? Hl]); cbn -[is_hex hex_value];
    repeat match goal with H : is_hex _ = true |- _ => rewrite ?H; clear H end; reflexivity|]).
  repeat (apply Forall_cons in Hl as [? Hl]). cbn -[is_hex hex_value].
  repeat match goal with H : is_hex _ = true |- _ => rewrite ?H; clear H end. reflexivity.
Qed.

(** Printing a word in lower-case hexadecimal. *)
Definition hex_digit (d : Z) : ascii := ascii_of_nat (Z.to_nat (if d <? 10 then 48 + d else 87 + d)).
Fixpoint print_hex (k : nat) (n : Z) : list ascii :=
  match k with O => [] | S k' => print_hex k' (n / 16) ++ [hex_digit (n mod 16)] end.

Lemma hex_digit_spec d : 0 <= d < 16 -> is_hex (hex_digit d) = true /\ hex_value (hex_digit d) = d.
Proof.
  intros Hd. assert (H : forallb (fun d => is_hex (hex_digit d) && (hex_value (hex_digit d) =? d)) (seqZ 0 16) = true)
    by (vm_compute; reflexivity).
  rewrite forallb_forall in H. specialize (H d). rewrite <- list_elem_of_In, elem_of_seqZ in H.
  specialize (H ltac:(lia)). apply andb_prop in H as [H1 H2]. split; [done|lia].
Qed.
Lemma print_hex_digits k n : Forall (fun c => is_hex c = true) (print_hex k n) /\ length (print_hex k n) = k.
Proof.
  revert n. induction k as [|k IH]; intros n; [done|]. cbn. destruct (IH (n / 16)) as [H1 H2]. split.
  - apply Forall_app. split; [done|]. constructor; [|done]. apply hex_digit_spec, Z.mod_pos_bound. lia.
  - rewrite length_app, H2. cbn. lia.
Qed.
Lemma print_hex_value k n : 0 <= n < 16 ^ Z.of_nat k -> parseInt16 (print_hex k n) = n.
Proof.
  revert n. induction k as [|k IH]; intros n Hn; [cbn in *; lia|]. cbn. unfold parseInt16 in *.
  rewrite foldl_app, IH; cbn.
  - rewrite (proj2 (hex_digit_spec (n mod 16) (Z.mod_pos_bound n 16 ltac:(lia)))).
    pose proof (Z.div_mod n 16). lia.
  - rewrite Nat2Z.inj_succ, Z.pow_succ_r in Hn by lia. split; [apply Z.div_pos; lia|].
    apply Z.div_lt_upper_bound; lia.
Qed.

(** [#] followed by hexadecimal digits is a color exactly when there are 3, 4, 6 or
    8 of them, with the value the digits spell (each digit doubled in the short forms,
    opaque when the alpha channel is missing).  In particular writing any word in 8
    hexadecimal digits and normalizing it gives the word back. *)
Theorem hex_notation :
  (forall l, Forall (fun c => is_hex c = true) l -> normalize_string ("#"%char :: l) = hex_color l) /\
  (forall n, word n -> normalize_string ("#"%char :: print_hex 8 n) = Some n) /\
  (forall n, 0 <= n < 2 ^ 24 -> normalize_string ("#"%char :: print_hex 6 n) = Some (n * 256 + 255)).
Proof.
  split_and!; [apply hex_string|..]; intros n Hn.
  - destruct (print_hex_digits 8 n) as [Hd Hl]. rewrite hex_string by done.
    pose proof (print_hex_value 8 n) as Hv. unfold word in Hn. specialize (Hv ltac:(cbn; lia)).
    unfold hex_color. rewrite Hl. destruct (print_hex 8 n) as [|?[|?[|?[|?[|?[|?[|?[|?[|??]]]]]]]]]; try discriminate Hl.
    rewrite Hv. by rewrite to_uint32_small.
  - destruct (print_hex_digits 6 n) as [Hd Hl]. rewrite hex_string by done.
    pose proof (print_hex_value 6 n) as Hv. specialize (Hv ltac:(cbn; lia)).
    assert (Hff : parseInt16 (print_hex 6 n ++ ff) = n * 256 + 255).
    { unfold parseInt16 in *. rewrite foldl_app, Hv. cbn. change (hex_value "f") with 15. lia. }
    unfold hex_color. rewrite Hl. destruct (print_hex 6 n) as [|?[|?[|?[|?[|?[|?[|??]]]]]]]; try discriminate Hl.
    rewrite Hff. by rewrite to_uint32_small by lia.
Qed.

(** ** Channels *)
Definition byte (n : Z) : Prop := 0 <= n < 256.

Lemma rgb_word_channels r g b a : byte r -> byte g -> byte b -> byte a ->
  rgb_word r g b a = r * 2 ^ 24 + g * 2 ^ 16 + b * 2 ^ 8 + a.
Proof.
  unfold byte, rgb_word. intros Hr Hg Hb Ha. rewrite !to_uint32_or32, !to_uint32_shl32 by lia.
  rewrite (to_uint32_small a), !Z.mod_small by lia.
  rewrite (lor_disjoint r (g * 2 ^ 16) 24) by lia.
  replace (r * 2 ^ 24 + g * 2 ^ 16) with ((r * 2 ^ 8 + g) * 2 ^ 16) by lia.
  rewrite (lor_disjoint _ (b * 2 ^ 8) 16) by lia.
  replace ((r * 2 ^ 8 + g) * 2 ^ 16 + b * 2 ^ 8) with (((r * 2 ^ 8 + g) * 2 ^ 8 + b) * 2 ^ 8) by lia.
  rewrite (lor_disjoint _ a 8) by lia. lia.
Qed.

Lemma parse255_byte s : byte (bits (parse255 s)).
Proof.
  unfold parse255, byte. destruct (parseInt10 s) as [n|]; cbn; [|lia].
  destruct (Z.ltb_spec n 0), (Z.ltb_spec 255 n); lia.
Qed.
Lemma round_byte q : (0 <= q <= 1)%Q -> byte (Math_round (q * 255)).
Proof.
  intros [H0 H1]. unfold Math_round, byte. split.
  - rewrite <- (Qfloor_Z 0). apply Qfloor_resp_le. unfold inject_Z. lra.
  - assert (H : Qfloor (q * 255 + (1 # 2)) <= Qfloor (255 + (1 # 2))) by (apply Qfloor_resp_le; lra).
    change (Qfloor (255 + (1 # 2))) with 255 in H. lia.
Qed.
Lemma parse1_byte s : byte (parse1 s).
Proof.
  unfold parse1. destruct (Qltb (parseFloat s) 0) eqn:E0; [done|].
  destruct (Qltb 1 (parseFloat s)) eqn:E1; [done|]. rewrite Qltb_false in E0, E1. by apply round_byte.
Qed.

(** The words the bit operators build are the intended ones, without overflow into
    the sign bit: [rgba(...)] puts the four clamped channels at bytes 3 to 0;
    [processColor] moves the alpha byte to the top (on Android as a signed integer, with
    the same 32 bits); and [setNormalizedColorAlpha] replaces only the alpha byte. *)
Theorem color_words :
  (forall r g b a, exists r' g' b' a', byte r' /\ byte g' /\ byte b' /\ byte a' /\
     rgb_word (bits (parse255 r)) (bits (parse255 g)) (bits (parse255 b)) (parse1 a) =
       r' * 2 ^ 24 + g' * 2 ^ 16 + b' * 2 ^ 8 + a' /\
     (forall n, parseInt10 r = Some n -> r' = Z.max 0 (Z.min 255 n))) /\
  (forall np po n, word n ->
     processColor np po false (CNumber (inject_Z n)) = Some (PNumber (n mod 256 * 2 ^ 24 + n / 256)) /\
     exists m, processColor np po true (CNumber (inject_Z n)) = Some (PNumber m) /\
       - 2 ^ 31 <= m < 2 ^ 31 /\ to_uint32 m = n mod 256 * 2 ^ 24 + n / 256) /\
  (forall n alpha, word n -> exists a, byte a /\ setNormalizedColorAlpha n alpha = n / 256 * 256 + a).
Proof.
  split_and!.
  - intros r g b a. exists (bits (parse255 r)), (bits (parse255 g)), (bits (parse255 b)), (parse1 a).
    pose proof (parse255_byte r). pose proof (parse255_byte g). pose proof (parse255_byte b).
    pose proof (parse1_byte a). split_and!; try done; [by apply rgb_word_channels|].
    intros n Hn. unfold parse255. rewrite Hn. cbn. destruct (Z.ltb_spec n 0), (Z.ltb_spec 255 n); lia.
  - intros np po n Hn. assert (Hargb : to_uint32 (or32 (shl32 n 24) (shru32 n 8)) = n mod 256 * 2 ^ 24 + n / 256).
    { unfold word in Hn. rewrite to_uint32_or32, to_uint32_shl32 by lia.
      unfold shru32. change (8 mod 32) with 8. rewrite (to_uint32_small n) by done. rewrite Z.shiftr_div_pow2 by lia.
      change (2 ^ 8) with 256. assert (H8 : 0 <= n / 256 < 2 ^ 24).
      { split; [apply Z.div_pos; lia|]. apply Z.div_lt_upper_bound; lia. }
      rewrite (to_uint32_small (n / 256)) by lia.
      replace ((n * 2 ^ 24) mod 2 ^ 32) with (n mod 256 * 2 ^ 24).
      - apply lor_disjoint; [lia|apply Z.mod_pos_bound; lia|done].
      - change (2 ^ 32) with (256 * 2 ^ 24). by rewrite Z.mul_mod_distr_r by lia. }
    unfold processColor. rewrite normalize_number, Hargb by done. split; [done|]. eexists. split; [done|].
    split; [apply to_int32_range|]. rewrite to_uint32_or32.
    change (to_uint32 0) with 0. rewrite Z.lor_0_r. rewrite <- Hargb. apply to_uint32_small, to_uint32_range.
  - intros n alpha Hn. unfold setNormalizedColorAlpha.
    set (al := if Qltb alpha 0 then _ else _).
    assert (Hal : (0 <= al <= 1)%Q).
    { unfold al. destruct (Qltb alpha 0) eqn:E0; [lra|]. destruct (Qltb 1 alpha) eqn:E1; [lra|].
      rewrite Qltb_false in E0, E1. lra. }
    exists (Math_round (al * 255)). pose proof (round_byte al Hal) as Hb. split; [done|].
    unfold byte, word in *. rewrite to_uint32_or32, (to_uint32_small (Math_round _)) by lia.
    unfold and32. rewrite to_uint32_int32, (to_uint32_small n) by done.
    change (to_uint32 0xffffff00) with (Z.ones 24 * 2 ^ 8).
    assert (E : Z.land n (Z.ones 24 * 2 ^ 8) = n / 256 * 2 ^ 8).
    { rewrite <- Z.shiftl_mul_pow2 by lia. change 256 with (2 ^ 8). rewrite <- Z.shiftr_div_pow2 by lia.
      rewrite <- Z.shiftl_mul_pow2 by lia. apply Z.bits_inj'. intros i Hi.
      rewrite Z.land_spec. destruct (Z.ltb_spec i 8).
      - rewrite !Z.shiftl_spec_low by lia. apply andb_false_r.
      - rewrite !Z.shiftl_spec, Z.shiftr_spec by lia. replace (i - 8 + 8) with i by lia.
        destruct (Z.ltb_spec (i - 8) 24).
        + rewrite Z.ones_spec_low by lia. apply andb_true_r.
        + rewrite Z.ones_spec_high by lia. rewrite andb_false_r. symmetry.
          destruct (Z.eq_dec n 0) as [->|]; [apply Z.bits_0|]. apply Z.bits_above_log2; [lia|].
          assert (Z.log2 n < 32) by (apply Z.log2_lt_pow2; lia). lia. }
    rewrite E. assert (Hd : 0 <= n / 256 < 2 ^ 24).
    { split; [apply Z.div_pos; lia|]. apply Z.div_lt_upper_bound; lia. }
    rewrite to_uint32_small by lia. by rewrite lor_disjoint by lia.
Qed.

Lemma normalizeColor_word_witness :
  normalizeColor (fun _ => None) (CString "red") = Some (PNumber 0xff0000ff) /\
  normalizeColor (fun _ => None) (CNumber (inject_Z 0xff0000ff)) = Some (PNumber 0xff0000ff).
Proof.
  assert (E : normalizeColor (fun _ => None) (CString "red") = Some (PNumber 0xff0000ff)) by (vm_compute; reflexivity).
  split; [exact E|]. destruct (normalizeColor_word (fun _ => None) (CString "red") 0xff0000ff E) as [_ H].
  exact H.
Defined.

Lemma hex_notation_witness :
  word 0x12ab34cd /\ normalize_string ("#"%char :: print_hex 8 0x12ab34cd) = Some 0x12ab34cd.
Proof.
  assert (H : word 0x12ab34cd) by (unfold word; lia). split; [exact H|].
  destruct hex_notation as (_ & H8 & _). exact (H8 _ H).
Defined.

Lemma color_words_witness :
  processColor (fun _ => None) (fun _ => None) false (CNumber (inject_Z 0xff000080)) = Some (PNumber 0x80ff0000).
Proof.
  assert (H : word 0xff000080) by (unfold word; lia).
  destruct color_words as (_ & Hp & _). destruct (Hp (fun _ => None) (fun _ => None) _ H) as [E _].
  exact E.
Defined.
