(* ===== verification/Batchinator.v ===== *)
(** * Batchinator

    Libraries/Interaction/Batchinator.js: batching the invocations of a low-priority
    callback.  The object lives in a larger state ([HasBatchinator]); its callback is
    code over that state, so it may re-enter the object.  What the object asks of the
    host is kept next to its only field: [timeouts] are the armed timers (a cleared
    timer never fires, [Timers.cleared_timer_never_fires]) and [interactionTasks] the
    tasks that wait in the queue of the InteractionManager.  The steps of the host are
    [timeout_fires] and [task_runs]. *)
From S2P Require Import Prelude.
From stdpp Require Import base numbers list gmap fin_sets.

(** [_taskHandle]: the object made by [schedule], or the result of
    [runAfterInteractions]. *)
Inductive task_handle := TimeoutHandle (t : nat) | InteractionHandle (k : nat).
Record bt := {
  taskHandle : option task_handle;
  timeouts : gset nat;
  interactionTasks : gset nat;
  nextHostId : nat
}.
Definition new_Batchinator : bt := Build_bt None ∅ ∅ 0.

Class HasBatchinator (Σ : Type) := {
  bt_get : Σ -> bt;
  bt_set : bt -> Σ -> Σ;
  bt_get_set : forall b s, bt_get (bt_set b s) = b;
  bt_set_set : forall b b' s, bt_set b (bt_set b' s) = bt_set b s;
  bt_set_get : forall s, bt_set (bt_get s) s = s
}.

Section batchinator.
Context {Σ : Type} `{!HasBatchinator Σ}.
Context (callback : JS Σ unit).

Definition upd (f : bt -> bt) : JS Σ unit := modify (fun s => bt_set (f (bt_get s)) s).

Definition set_taskHandle (h : option task_handle) (b : bt) : bt :=
  Build_bt h (timeouts b) (interactionTasks b) (nextHostId b).
Definition cancel_handle (h : task_handle) (b : bt) : bt :=
  match h with
  | TimeoutHandle t => Build_bt (taskHandle b) (timeouts b ∖ {[t]}) (interactionTasks b) (nextHostId b)
  | InteractionHandle k => Build_bt (taskHandle b) (timeouts b) (interactionTasks b ∖ {[k]}) (nextHostId b)
  end.

Definition dispose (abort : bool) : JS Σ unit :=
  let! h := gets (fun s => taskHandle (bt_get s)) in
  match h with
  | None => ret tt
  | Some h =>
      do! upd (cancel_handle h);
      do! when (negb abort) callback;
      upd (set_taskHandle None)
  end.

Definition arm (b : bt) : bt :=
  let t := nextHostId b in
  Build_bt (Some (TimeoutHandle t)) (timeouts b ∪ {[t]}) (interactionTasks b) (S t).
Definition schedule : JS Σ unit :=
  let! h := gets (fun s => taskHandle (bt_get s)) in
  match h with
  | Some _ => ret tt
  | None => upd arm
  end.

(** The timer fires: its function asks to run after the interactions. *)
Definition start_task (t : nat) (b : bt) : bt :=
  let k := nextHostId b in
  Build_bt (Some (InteractionHandle k)) (timeouts b ∖ {[t]}) (interactionTasks b ∪ {[k]}) (S k).
Definition timeout_fires (t : nat) : JS Σ unit :=
  let! armed := gets (fun s => bool_decide (t ∈ timeouts (bt_get s))) in
  when armed (upd (start_task t)).

(** The InteractionManager runs the task. *)
Definition finish_task (k : nat) (b : bt) : bt :=
  Build_bt None (timeouts b) (interactionTasks b ∖ {[k]}) (nextHostId b).
Definition task_runs (k : nat) : JS Σ unit :=
  let! waiting := gets (fun s => bool_decide (k ∈ interactionTasks (bt_get s))) in
  when waiting (do! upd (finish_task k); callback).

(** ** At most one invocation is pending, and it is the one of the handle *)
Definition pending (s : Σ) : bool := bool_decide (is_Some (taskHandle (bt_get s))).
Definition wf_bt (b : bt) : Prop :=
  match taskHandle b with
  | None => timeouts b = ∅ /\ interactionTasks b = ∅
  | Some (TimeoutHandle t) => timeouts b = {[t]} /\ interactionTasks b = ∅
  | Some (InteractionHandle k) => timeouts b = ∅ /\ interactionTasks b = {[k]}
  end.
Definition wf (s : Σ) : Prop := wf_bt (bt_get s).

Lemma run_upd f s : upd f s = (Ret tt, bt_set (f (bt_get s)) s).
Proof. done. Qed.

Lemma wf_upd f : (forall b, wf_bt b -> wf_bt (f b)) -> preserves wf (upd f).
Proof. intros H. apply evolves_modify. intros s Hs. unfold wf in *. rewrite bt_get_set. auto. Qed.

Lemma schedule_run s : schedule s =
  (Ret tt, if pending s then s else bt_set (arm (bt_get s)) s).
Proof.
  unfold schedule, pending. rewrite bind_gets. destruct (taskHandle (bt_get s)); [done|].
  by rewrite run_upd.
Qed.
Lemma wf_schedule : preserves wf schedule.
Proof.
  intros s Hs. unfold final. rewrite schedule_run. unfold pending. unfold wf, wf_bt in *. cbn.
  destruct (taskHandle (bt_get s)) as [h|] eqn:E; cbn; [by rewrite E|].
  rewrite bt_get_set. cbn. destruct Hs as [-> ->]. split; [set_solver|done].
Qed.
Lemma pending_schedule s : pending (final schedule s) = true.
Proof.
  unfold final. rewrite schedule_run. destruct (pending s) eqn:E; [done|].
  unfold pending. cbn. by rewrite bt_get_set.
Qed.

(** Cancelling the handle empties the host. *)
Lemma cancelled b h : wf_bt b -> taskHandle b = Some h ->
  timeouts (cancel_handle h b) = ∅ /\ interactionTasks (cancel_handle h b) = ∅.
Proof.
  unfold wf_bt. intros H E. rewrite E in H. destruct h; cbn; destruct H as [-> ->]; split; set_solver.
Qed.

Lemma dispose_abort s : wf s ->
  exists b, dispose true s = (Ret tt, bt_set b s) /\ taskHandle b = None /\ timeouts b = ∅ /\
    interactionTasks b = ∅.
Proof.
  intros Hs. unfold dispose. rewrite bind_gets. destruct (taskHandle (bt_get s)) as [h|] eqn:E.
  - rewrite (bind_of _ _ _ _ _ (run_upd _ _)). cbn [negb when]. rewrite bind_ret, run_upd, bt_set_set, bt_get_set.
    destruct (cancelled _ h Hs E) as [H1 H2]. eexists. by split_and!.
  - exists (bt_get s). rewrite bt_set_get. unfold wf, wf_bt in Hs. rewrite E in Hs. destruct Hs. by split_and!.
Qed.

Lemma wf_timeout_fires t : preserves wf (timeout_fires t).
Proof.
  unfold timeout_fires. intros s Hs. unfold final. rewrite bind_gets. case_bool_decide as Ht; [|done].
  cbn. unfold wf, wf_bt in *. rewrite bt_get_set. cbn.
  destruct (taskHandle (bt_get s)) as [[t'|k]|]; destruct Hs as [Hs1 Hs2]; rewrite Hs1 in Ht; [|set_solver..].
  rewrite Hs1, Hs2. assert (t = t') as -> by set_solver. split; set_solver.
Qed.
Lemma wf_finish k s : wf s -> k ∈ interactionTasks (bt_get s) -> wf (bt_set (finish_task k (bt_get s)) s).
Proof.
  intros Hs Hk. unfold wf, wf_bt in *. rewrite bt_get_set. cbn.
  destruct (taskHandle (bt_get s)) as [[t'|k']|]; destruct Hs as [Hs1 Hs2]; rewrite Hs2 in Hk; [set_solver| |set_solver].
  rewrite Hs1, Hs2. assert (k = k') as -> by set_solver. split; set_solver.
Qed.
(** ** With a callback that keeps the object well formed *)
Section reentrant.
Hypothesis Hcallback : preserves wf callback.

Lemma wf_task_runs k : preserves wf (task_runs k).
Proof.
  unfold task_runs. intros s Hs. unfold final. rewrite bind_gets. case_bool_decide as Hk; [|done].
  cbn [when]. rewrite (bind_of _ _ _ _ _ (run_upd _ _)). by apply (Hcallback _), wf_finish.
Qed.
End reentrant.

(** An idle object has nothing at the host. *)
Lemma idle_steps s n : wf s -> pending s = false ->
  timeout_fires n s = (Ret tt, s) /\ task_runs n s = (Ret tt, s).
Proof.
  unfold wf, wf_bt, pending. intros Hs Hp. destruct (taskHandle (bt_get s)); [done|]. destruct Hs as [H1 H2].
  unfold timeout_fires, task_runs. rewrite !bind_gets, H1, H2. by rewrite !bool_decide_false by set_solver.
Qed.

(** However often it is scheduled, the callback is invoked once: scheduling a
    pending object changes nothing, and from an idle one it arms a timer and then a
    task of the InteractionManager, and no other step of the host has any effect; when
    the task runs, the callback finds the object idle, so it can schedule again.
    Disposing with [abort] drops the invocation for good. *)
Theorem one_invocation s : wf s -> pending s = false ->
  exists t k s1 s2,
    schedule s = (Ret tt, s1) /\ schedule s1 = (Ret tt, s1) /\
    (forall n, n <> t -> timeout_fires n s1 = (Ret tt, s1)) /\ (forall n, task_runs n s1 = (Ret tt, s1)) /\
    timeout_fires t s1 = (Ret tt, s2) /\ schedule s2 = (Ret tt, s2) /\
    (forall n, timeout_fires n s2 = (Ret tt, s2)) /\ (forall n, n <> k -> task_runs n s2 = (Ret tt, s2)) /\
    (exists s3, task_runs k s2 = callback s3 /\ wf s3 /\ pending s3 = false) /\
    (forall x, x = s1 \/ x = s2 -> exists y, dispose true x = (Ret tt, y) /\
       forall n, timeout_fires n y = (Ret tt, y) /\ task_runs n y = (Ret tt, y)).
Proof.
  intros Hs Hp. destruct (taskHandle (bt_get s)) as [h|] eqn:E; [by unfold pending in Hp; rewrite E in Hp|].
  pose proof Hs as Hb. unfold wf, wf_bt in Hb. rewrite E in Hb. destruct Hb as [H1 H2].
  set (t := nextHostId (bt_get s)). set (k := S t).
  set (s1 := bt_set (arm (bt_get s)) s). set (s2 := bt_set (start_task t (arm (bt_get s))) s).
  assert (G1 : bt_get s1 = arm (bt_get s)) by apply bt_get_set.
  assert (G2 : bt_get s2 = start_task t (arm (bt_get s))) by apply bt_get_set.
  assert (W1 : wf s1) by (unfold wf, wf_bt; rewrite G1; cbn; rewrite H1, H2; set_solver).
  assert (W2 : wf s2) by (unfold wf, wf_bt; rewrite G2; cbn; rewrite H1, H2; set_solver).
  assert (P : pending s1 = true /\ pending s2 = true) by (unfold pending; by rewrite G1, G2).
  assert (D : forall x, wf x -> exists y, dispose true x = (Ret tt, y) /\
       forall n, timeout_fires n y = (Ret tt, y) /\ task_runs n y = (Ret tt, y)).
  { intros x Hx. destruct (dispose_abort x Hx) as (b & Ed & Hn & Ht & Hk). exists (bt_set b x).
    split; [done|]. intros n. apply idle_steps; [unfold wf, wf_bt; by rewrite bt_get_set, Hn|].
    unfold pending. by rewrite bt_get_set, Hn. }
  exists t, k, s1, s2. split_and!.
  - rewrite schedule_run, Hp. done.
  - by rewrite schedule_run, (proj1 P).
  - intros n Hn. unfold timeout_fires. rewrite bind_gets, G1. cbn. by rewrite bool_decide_false by set_solver.
  - intros n. unfold task_runs. rewrite bind_gets, G1. cbn. by rewrite bool_decide_false by set_solver.
  - unfold timeout_fires. rewrite bind_gets, G1. cbn [arm timeouts]. rewrite bool_decide_true by set_solver.
    cbn [when]. rewrite run_upd, G1. unfold s1. by rewrite bt_set_set.
  - by rewrite schedule_run, (proj2 P).
  - intros n. unfold timeout_fires. rewrite bind_gets, G2. cbn. by rewrite bool_decide_false by set_solver.
  - intros n Hn. unfold task_runs. rewrite bind_gets, G2. cbn. by rewrite bool_decide_false by set_solver.
  - assert (Hk : k ∈ interactionTasks (bt_get s2)) by (rewrite G2; cbn; set_solver).
    exists (bt_set (finish_task k (bt_get s2)) s2). split_and!.
    + unfold task_runs. rewrite bind_gets, bool_decide_true by done. cbn [when].
      by rewrite (bind_of _ _ _ _ _ (run_upd _ _)).
    + by apply wf_finish.
    + unfold pending. by rewrite bt_get_set.
  - intros x [-> | ->]; by apply D.
Qed.
End batchinator.

(** ** Instances *)
Section instances.
#[export] Instance bt_self : HasBatchinator (bt * Z).
Proof. refine {| bt_get := fst; bt_set b s := (b, snd s) |}; by intros; destruct s || intros. Defined.
Definition counted : JS (bt * Z) unit := modify (fun s => (fst s, (snd s + 1)%Z)).

Lemma one_invocation_witness :
  exists t k s1 s2, schedule (Σ:=bt * Z) (new_Batchinator, 0%Z) = (Ret tt, s1) /\ timeout_fires t s1 = (Ret tt, s2) /\ exists s3, task_runs counted k s2 = counted s3.
Proof.
  destruct (one_invocation counted (new_Batchinator, 0%Z)) as
    (t & k & s1 & s2 & H1 & _ & _ & _ & H2 & _ & _ & _ & (s3 & H3 & _) & _).
  - split; reflexivity.
  - reflexivity.
  - exists t, k, s1, s2. split; [exact H1|]. split; [exact H2|]. exists s3. exact H3.
Defined.
End instances.
