(* ===== verification/VirtualizedList.v ===== *)
(** * VirtualizedList

    Libraries/Lists/VirtualizedList.js: the list component behind FlatList and
    SectionList.  The instance fields and the React state are the record [vl]; the
    methods are definitions over it, on top of the window computation of
    VirtualizeUtils.v and the batcher of Batchinator.v.

    React: [setState] puts an updater into [updates]; [commit] is a pass of React that
    runs the updaters and [getDerivedStateFromProps], and when the state (or the
    props) changed renders and calls [componentDidUpdate]; [flush] commits until no
    updater is left.  An item is known by its key ([keyExtractor]); [data] is the list
    of the keys.  Other components (child lists, viewability and fill-rate helpers,
    the scroll view) and the callbacks of the props are events of [trace]; whether a
    child list has more to render is the parameter [childHasMore].  The layout
    [getItemLayout] returns is taken to carry the index asked for.  A nested list that
    restores the state saved by its parent is not modelled. *)
From stdpp Require Import base numbers list strings gmap fin_maps pretty.
From Stdlib Require Import QArith Lqa.
From S2P Require Import Prelude Rationals VirtualizeUtils Batchinator.
Open Scope Z_scope.

Record rect := { r_x : Q; r_y : Q; r_width : Q; r_height : Q }.
(** An entry of [_frames]. *)
Record cell_frame := { cf_offset : Q; cf_length : Q; cf_index : Z; cf_inLayout : bool }.

Record list_props := {
  data : option (list string);
  getItemLayout : option (Z -> frame);
  horizontal : bool;
  nested : bool; (** [_isNestedWithSameOrientation()] *)
  windowSize : Q;
  maxToRenderPerBatch : Z;
  initialNumToRender : Z;
  initialScrollIndex : option Z;
  onEndReached : bool;
  onEndReachedThreshold : Q;
  onScrollToIndexFailed : bool;
  disableVirtualization : bool;
  listHeader : bool;
  listFooter : bool;
  listEmpty : bool;
  stickyHeaderIndices : list Z
}.

Record list_metrics := {
  contentLength : Q; dOffset : Q; dt : Q; offset : Q; timestamp : Q; velocity : Q; visibleLength : Q
}.
Definition initial_metrics : list_metrics := Build_list_metrics 0 0 10 0 0 0 0.

(** A child list in a cell: its component, unless it is unmounted, and its saved state. *)
Record child_state := { cs_first : Z; cs_last : Z; cs_frames : gmap string cell_frame }.
Record child_entry := { ce_ref : option nat; ce_state : option child_state }.

(** The functions given to [setState]: the one of [_updateCellsToRender] with the
    values it closes over, and the ones that move the selection. *)
Inductive updater :=
  | UpdateCells (virtualizationDisabled : bool) (threshold : Q) (itemCount : Z)
  | SelectRow (row : Z).

Inductive event :=
  | EndReached (distanceFromEnd : Q)
  | ScrollTo (offset : Q) (animated : bool)
  | ScrollToIndexFailed (averageItemLength : Q) (highestMeasured index : Z)
  | UpdateViewable (itemCount : Z)
  | ResetViewable
  | DisposeViewable
  | RecordInteraction
  | ComputeBlankness
  | ActivateFillRate
  | DeactivateFillRate
  | Remeasure (child : nat)
  | ChildScroll (child : nat)
  | ChildScrollBeginDrag (child : nat)
  | ChildRecordInteraction (child : nat)
  | DuplicateChildKey (key : string)
  | SlowListWarning
  | SelectionChanged (previous next : Z)
  | SelectionEntered (row : Z)
  | PropCallback (name : string).

Record vl := {
  vfirst : Z;
  vlast : Z;
  selectedRowIndex : Z;
  vprops : list_props;
  frames : gmap string cell_frame;
  averageCellLength : Q;
  totalCellLength : Q;
  totalCellsMeasured : Z;
  highestMeasuredFrameIndex : Z;
  indicesToKeys : gmap Z string;
  cellKeysToChildListKeys : gmap string (list string);
  nestedChildLists : gmap string child_entry;
  metrics : list_metrics;
  offsetFromParent : Q;
  headerLength : Q;
  footerLength : Q;
  hasMore : bool;
  hasInteracted : bool;
  hiPriInProgress : bool;
  hasDoneInitialScroll : bool;
  sentEndForContentLength : Q;
  warnedPerf : bool;
  hasScrollRef : bool;
  batcher : bt;
  updates : list updater;
  trace : list event
}.

Definition set_vfirst x (s : vl) : vl := Build_vl x (vlast s) (selectedRowIndex s) (vprops
  s) (frames s) (averageCellLength s) (totalCellLength s) (totalCellsMeasured s)
  (highestMeasuredFrameIndex s) (indicesToKeys s) (cellKeysToChildListKeys s)
  (nestedChildLists s) (metrics s) (offsetFromParent s) (headerLength s) (footerLength s)
  (hasMore s) (hasInteracted s) (hiPriInProgress s) (hasDoneInitialScroll s)
  (sentEndForContentLength s) (warnedPerf s) (hasScrollRef s) (batcher s) (updates s) (trace
  s).
Definition set_vlast x (s : vl) : vl := Build_vl (vfirst s) x (selectedRowIndex s) (vprops
  s) (frames s) (averageCellLength s) (totalCellLength s) (totalCellsMeasured s)
  (highestMeasuredFrameIndex s) (indicesToKeys s) (cellKeysToChildListKeys s)
  (nestedChildLists s) (metrics s) (offsetFromParent s) (headerLength s) (footerLength s)
  (hasMore s) (hasInteracted s) (hiPriInProgress s) (hasDoneInitialScroll s)
  (sentEndForContentLength s) (warnedPerf s) (hasScrollRef s) (batcher s) (updates s) (trace
  s).
Definition set_selectedRowIndex x (s : vl) : vl := Build_vl (vfirst s) (vlast s) x (vprops
  s) (frames s) (averageCellLength s) (totalCellLength s) (totalCellsMeasured s)
  (highestMeasuredFrameIndex s) (indicesToKeys s) (cellKeysToChildListKeys s)
  (nestedChildLists s) (metrics s) (offsetFromParent s) (headerLength s) (footerLength s)
  (hasMore s) (hasInteracted s) (hiPriInProgress s) (hasDoneInitialScroll s)
  (sentEndForContentLength s) (warnedPerf s) (hasScrollRef s) (batcher s) (updates s) (trace
  s).
Definition set_vprops x (s : vl) : vl := Build_vl (vfirst s) (vlast s) (selectedRowIndex s)
  x (frames s) (averageCellLength s) (totalCellLength s) (totalCellsMeasured s)
  (highestMeasuredFrameIndex s) (indicesToKeys s) (cellKeysToChildListKeys s)
  (nestedChildLists s) (metrics s) (offsetFromParent s) (headerLength s) (footerLength s)
  (hasMore s) (hasInteracted s) (hiPriInProgress s) (hasDoneInitialScroll s)
  (sentEndForContentLength s) (warnedPerf s) (hasScrollRef s) (batcher s) (updates s) (trace
  s).
Definition set_frames x (s : vl) : vl := Build_vl (vfirst s) (vlast s) (selectedRowIndex s)
  (vprops s) x (averageCellLength s) (totalCellLength s) (totalCellsMeasured s)
  (highestMeasuredFrameIndex s) (indicesToKeys s) (cellKeysToChildListKeys s)
  (nestedChildLists s) (metrics s) (offsetFromParent s) (headerLength s) (footerLength s)
  (hasMore s) (hasInteracted s) (hiPriInProgress s) (hasDoneInitialScroll s)
  (sentEndForContentLength s) (warnedPerf s) (hasScrollRef s) (batcher s) (updates s) (trace
  s).
Definition set_averageCellLength x (s : vl) : vl := Build_vl (vfirst s) (vlast s)
  (selectedRowIndex s) (vprops s) (frames s) x (totalCellLength s) (totalCellsMeasured s)
  (highestMeasuredFrameIndex s) (indicesToKeys s) (cellKeysToChildListKeys s)
  (nestedChildLists s) (metrics s) (offsetFromParent s) (headerLength s) (footerLength s)
  (hasMore s) (hasInteracted s) (hiPriInProgress s) (hasDoneInitialScroll s)
  (sentEndForContentLength s) (warnedPerf s) (hasScrollRef s) (batcher s) (updates s) (trace
  s).
Definition set_totalCellLength x (s : vl) : vl := Build_vl (vfirst s) (vlast s)
  (selectedRowIndex s) (vprops s) (frames s) (averageCellLength s) x (totalCellsMeasured s)
  (highestMeasuredFrameIndex s) (indicesToKeys s) (cellKeysToChildListKeys s)
  (nestedChildLists s) (metrics s) (offsetFromParent s) (headerLength s) (footerLength s)
  (hasMore s) (hasInteracted s) (hiPriInProgress s) (hasDoneInitialScroll s)
  (sentEndForContentLength s) (warnedPerf s) (hasScrollRef s) (batcher s) (updates s) (trace
  s).
Definition set_totalCellsMeasured x (s : vl) : vl := Build_vl (vfirst s) (vlast s)
  (selectedRowIndex s) (vprops s) (frames s) (averageCellLength s) (totalCellLength s) x
  (highestMeasuredFrameIndex s) (indicesToKeys s) (cellKeysToChildListKeys s)
  (nestedChildLists s) (metrics s) (offsetFromParent s) (headerLength s) (footerLength s)
  (hasMore s) (hasInteracted s) (hiPriInProgress s) (hasDoneInitialScroll s)
  (sentEndForContentLength s) (warnedPerf s) (hasScrollRef s) (batcher s) (updates s) (trace
  s).
Definition set_highestMeasuredFrameIndex x (s : vl) : vl := Build_vl (vfirst s) (vlast s)
  (selectedRowIndex s) (vprops s) (frames s) (averageCellLength s) (totalCellLength s)
  (totalCellsMeasured s) x (indicesToKeys s) (cellKeysToChildListKeys s) (nestedChildLists
  s) (metrics s) (offsetFromParent s) (headerLength s) (footerLength s) (hasMore s)
  (hasInteracted s) (hiPriInProgress s) (hasDoneInitialScroll s) (sentEndForContentLength s)
  (warnedPerf s) (hasScrollRef s) (batcher s) (updates s) (trace s).
Definition set_indicesToKeys x (s : vl) : vl := Build_vl (vfirst s) (vlast s)
  (selectedRowIndex s) (vprops s) (frames s) (averageCellLength s) (totalCellLength s)
  (totalCellsMeasured s) (highestMeasuredFrameIndex s) x (cellKeysToChildListKeys s)
  (nestedChildLists s) (metrics s) (offsetFromParent s) (headerLength s) (footerLength s)
  (hasMore s) (hasInteracted s) (hiPriInProgress s) (hasDoneInitialScroll s)
  (sentEndForContentLength s) (warnedPerf s) (hasScrollRef s) (batcher s) (updates s) (trace
  s).
Definition set_cellKeysToChildListKeys x (s : vl) : vl := Build_vl (vfirst s) (vlast s)
  (selectedRowIndex s) (vprops s) (frames s) (averageCellLength s) (totalCellLength s)
  (totalCellsMeasured s) (highestMeasuredFrameIndex s) (indicesToKeys s) x (nestedChildLists
  s) (metrics s) (offsetFromParent s) (headerLength s) (footerLength s) (hasMore s)
  (hasInteracted s) (hiPriInProgress s) (hasDoneInitialScroll s) (sentEndForContentLength s)
  (warnedPerf s) (hasScrollRef s) (batcher s) (updates s) (trace s).
Definition set_nestedChildLists x (s : vl) : vl := Build_vl (vfirst s) (vlast s)
  (selectedRowIndex s) (vprops s) (frames s) (averageCellLength s) (totalCellLength s)
  (totalCellsMeasured s) (highestMeasuredFrameIndex s) (indicesToKeys s)
  (cellKeysToChildListKeys s) x (metrics s) (offsetFromParent s) (headerLength s)
  (footerLength s) (hasMore s) (hasInteracted s) (hiPriInProgress s) (hasDoneInitialScroll
  s) (sentEndForContentLength s) (warnedPerf s) (hasScrollRef s) (batcher s) (updates s)
  (trace s).
Definition set_metrics x (s : vl) : vl := Build_vl (vfirst s) (vlast s) (selectedRowIndex s)
  (vprops s) (frames s) (averageCellLength s) (totalCellLength s) (totalCellsMeasured s)
  (highestMeasuredFrameIndex s) (indicesToKeys s) (cellKeysToChildListKeys s)
  (nestedChildLists s) x (offsetFromParent s) (headerLength s) (footerLength s) (hasMore s)
  (hasInteracted s) (hiPriInProgress s) (hasDoneInitialScroll s) (sentEndForContentLength s)
  (warnedPerf s) (hasScrollRef s) (batcher s) (updates s) (trace s).
Definition set_offsetFromParent x (s : vl) : vl := Build_vl (vfirst s) (vlast s)
  (selectedRowIndex s) (vprops s) (frames s) (averageCellLength s) (totalCellLength s)
  (totalCellsMeasured s) (highestMeasuredFrameIndex s) (indicesToKeys s)
  (cellKeysToChildListKeys s) (nestedChildLists s) (metrics s) x (headerLength s)
  (footerLength s) (hasMore s) (hasInteracted s) (hiPriInProgress s) (hasDoneInitialScroll
  s) (sentEndForContentLength s) (warnedPerf s) (hasScrollRef s) (batcher s) (updates s)
  (trace s).
Definition set_headerLength x (s : vl) : vl := Build_vl (vfirst s) (vlast s)
  (selectedRowIndex s) (vprops s) (frames s) (averageCellLength s) (totalCellLength s)
  (totalCellsMeasured s) (highestMeasuredFrameIndex s) (indicesToKeys s)
  (cellKeysToChildListKeys s) (nestedChildLists s) (metrics s) (offsetFromParent s) x
  (footerLength s) (hasMore s) (hasInteracted s) (hiPriInProgress s) (hasDoneInitialScroll
  s) (sentEndForContentLength s) (warnedPerf s) (hasScrollRef s) (batcher s) (updates s)
  (trace s).
Definition set_footerLength x (s : vl) : vl := Build_vl (vfirst s) (vlast s)
  (selectedRowIndex s) (vprops s) (frames s) (averageCellLength s) (totalCellLength s)
  (totalCellsMeasured s) (highestMeasuredFrameIndex s) (indicesToKeys s)
  (cellKeysToChildListKeys s) (nestedChildLists s) (metrics s) (offsetFromParent s)
  (headerLength s) x (hasMore s) (hasInteracted s) (hiPriInProgress s) (hasDoneInitialScroll
  s) (sentEndForContentLength s) (warnedPerf s) (hasScrollRef s) (batcher s) (updates s)
  (trace s).
Definition set_hasMore x (s : vl) : vl := Build_vl (vfirst s) (vlast s) (selectedRowIndex s)
  (vprops s) (frames s) (averageCellLength s) (totalCellLength s) (totalCellsMeasured s)
  (highestMeasuredFrameIndex s) (indicesToKeys s) (cellKeysToChildListKeys s)
  (nestedChildLists s) (metrics s) (offsetFromParent s) (headerLength s) (footerLength s) x
  (hasInteracted s) (hiPriInProgress s) (hasDoneInitialScroll s) (sentEndForContentLength s)
  (warnedPerf s) (hasScrollRef s) (batcher s) (updates s) (trace s).
Definition set_hasInteracted x (s : vl) : vl := Build_vl (vfirst s) (vlast s)
  (selectedRowIndex s) (vprops s) (frames s) (averageCellLength s) (totalCellLength s)
  (totalCellsMeasured s) (highestMeasuredFrameIndex s) (indicesToKeys s)
  (cellKeysToChildListKeys s) (nestedChildLists s) (metrics s) (offsetFromParent s)
  (headerLength s) (footerLength s) (hasMore s) x (hiPriInProgress s) (hasDoneInitialScroll
  s) (sentEndForContentLength s) (warnedPerf s) (hasScrollRef s) (batcher s) (updates s)
  (trace s).
Definition set_hiPriInProgress x (s : vl) : vl := Build_vl (vfirst s) (vlast s)
  (selectedRowIndex s) (vprops s) (frames s) (averageCellLength s) (totalCellLength s)
  (totalCellsMeasured s) (highestMeasuredFrameIndex s) (indicesToKeys s)
  (cellKeysToChildListKeys s) (nestedChildLists s) (metrics s) (offsetFromParent s)
  (headerLength s) (footerLength s) (hasMore s) (hasInteracted s) x (hasDoneInitialScroll s)
  (sentEndForContentLength s) (warnedPerf s) (hasScrollRef s) (batcher s) (updates s) (trace
  s).
Definition set_hasDoneInitialScroll x (s : vl) : vl := Build_vl (vfirst s) (vlast s)
  (selectedRowIndex s) (vprops s) (frames s) (averageCellLength s) (totalCellLength s)
  (totalCellsMeasured s) (highestMeasuredFrameIndex s) (indicesToKeys s)
  (cellKeysToChildListKeys s) (nestedChildLists s) (metrics s) (offsetFromParent s)
  (headerLength s) (footerLength s) (hasMore s) (hasInteracted s) (hiPriInProgress s) x
  (sentEndForContentLength s) (warnedPerf s) (hasScrollRef s) (batcher s) (updates s) (trace
  s).
Definition set_sentEndForContentLength x (s : vl) : vl := Build_vl (vfirst s) (vlast s)
  (selectedRowIndex s) (vprops s) (frames s) (averageCellLength s) (totalCellLength s)
  (totalCellsMeasured s) (highestMeasuredFrameIndex s) (indicesToKeys s)
  (cellKeysToChildListKeys s) (nestedChildLists s) (metrics s) (offsetFromParent s)
  (headerLength s) (footerLength s) (hasMore s) (hasInteracted s) (hiPriInProgress s)
  (hasDoneInitialScroll s) x (warnedPerf s) (hasScrollRef s) (batcher s) (updates s) (trace
  s).
Definition set_warnedPerf x (s : vl) : vl := Build_vl (vfirst s) (vlast s) (selectedRowIndex
  s) (vprops s) (frames s) (averageCellLength s) (totalCellLength s) (totalCellsMeasured s)
  (highestMeasuredFrameIndex s) (indicesToKeys s) (cellKeysToChildListKeys s)
  (nestedChildLists s) (metrics s) (offsetFromParent s) (headerLength s) (footerLength s)
  (hasMore s) (hasInteracted s) (hiPriInProgress s) (hasDoneInitialScroll s)
  (sentEndForContentLength s) x (hasScrollRef s) (batcher s) (updates s) (trace s).
Definition set_hasScrollRef x (s : vl) : vl := Build_vl (vfirst s) (vlast s)
  (selectedRowIndex s) (vprops s) (frames s) (averageCellLength s) (totalCellLength s)
  (totalCellsMeasured s) (highestMeasuredFrameIndex s) (indicesToKeys s)
  (cellKeysToChildListKeys s) (nestedChildLists s) (metrics s) (offsetFromParent s)
  (headerLength s) (footerLength s) (hasMore s) (hasInteracted s) (hiPriInProgress s)
  (hasDoneInitialScroll s) (sentEndForContentLength s) (warnedPerf s) x (batcher s) (updates
  s) (trace s).
Definition set_batcher x (s : vl) : vl := Build_vl (vfirst s) (vlast s) (selectedRowIndex s)
  (vprops s) (frames s) (averageCellLength s) (totalCellLength s) (totalCellsMeasured s)
  (highestMeasuredFrameIndex s) (indicesToKeys s) (cellKeysToChildListKeys s)
  (nestedChildLists s) (metrics s) (offsetFromParent s) (headerLength s) (footerLength s)
  (hasMore s) (hasInteracted s) (hiPriInProgress s) (hasDoneInitialScroll s)
  (sentEndForContentLength s) (warnedPerf s) (hasScrollRef s) x (updates s) (trace s).
Definition set_updates x (s : vl) : vl := Build_vl (vfirst s) (vlast s) (selectedRowIndex s)
  (vprops s) (frames s) (averageCellLength s) (totalCellLength s) (totalCellsMeasured s)
  (highestMeasuredFrameIndex s) (indicesToKeys s) (cellKeysToChildListKeys s)
  (nestedChildLists s) (metrics s) (offsetFromParent s) (headerLength s) (footerLength s)
  (hasMore s) (hasInteracted s) (hiPriInProgress s) (hasDoneInitialScroll s)
  (sentEndForContentLength s) (warnedPerf s) (hasScrollRef s) (batcher s) x (trace s).
Definition set_trace x (s : vl) : vl := Build_vl (vfirst s) (vlast s) (selectedRowIndex s)
  (vprops s) (frames s) (averageCellLength s) (totalCellLength s) (totalCellsMeasured s)
  (highestMeasuredFrameIndex s) (indicesToKeys s) (cellKeysToChildListKeys s)
  (nestedChildLists s) (metrics s) (offsetFromParent s) (headerLength s) (footerLength s)
  (hasMore s) (hasInteracted s) (hiPriInProgress s) (hasDoneInitialScroll s)
  (sentEndForContentLength s) (warnedPerf s) (hasScrollRef s) (batcher s) (updates s) x.

#[export] Instance vl_batcher : HasBatchinator vl.
Proof. refine {| bt_get := batcher; bt_set := set_batcher |}; by intros; destruct s || intros. Defined.

Section virtualized_list.
Context (childHasMore : nat -> bool).
Abbreviation S := vl.

Definition log (e : event) : JS S unit := modify (fun s => set_trace (trace s ++ [e]) s).

Definition itemCount (s : S) : Z := Z.of_nat (length (default [] (data (vprops s)))).
(** [keyExtractor(getItem(data, index), index)], [None] where there is no item. *)
Definition item_key (index : Z) (s : S) : option string :=
  if index <? 0 then None else default [] (data (vprops s)) !! Z.to_nat index.

Definition selectLength (r : rect) (s : S) : Q := if horizontal (vprops s) then r_width r else r_height r.
Definition selectOffset (r : rect) (s : S) : Q := if horizontal (vprops s) then r_x r else r_y r.

(** ** Frames *)

Definition frameMetrics (index : Z) (s : S) : option cell_frame :=
  let frame := item_key index s ≫= fun key => frames s !! key in
  match frame with
  | Some f =>
      if cf_index f =? index then Some f
      else match getItemLayout (vprops s) with
           | Some layout => Some (Build_cell_frame (f_offset (layout index)) (f_length (layout index)) index false)
           | None => Some f
           end
  | None =>
      match getItemLayout (vprops s) with
      | Some layout => Some (Build_cell_frame (f_offset (layout index)) (f_length (layout index)) index false)
      | None => None
      end
  end.
Definition getFrameMetrics (index : Z) : JS S (option cell_frame) :=
  let! n := gets itemCount in
  do! invariant (index <? n) "Tried to get frame for out of range index ";
  gets (frameMetrics index).

(** What [_getFrameMetricsApprox] returns for an index in range. *)
Definition frameMetricsApprox (s : S) (index : Z) : frame :=
  match frameMetrics index s with
  | Some f => if cf_index f =? index then Build_frame (cf_length f) (cf_offset f)
              else Build_frame (averageCellLength s) (averageCellLength s * inject_Z index)
  | None => Build_frame (averageCellLength s) (averageCellLength s * inject_Z index)
  end.
Definition getFrameMetricsApprox (index : Z) : JS S frame :=
  let! f := getFrameMetrics index in
  let! avg := gets averageCellLength in
  let! p := gets vprops in
  let estimate :=
    do! invariant (negb (bool_decide (is_Some (getItemLayout p))))
      "Should not have to estimate frames when a measurement metrics function is provided";
    ret (Build_frame avg (avg * inject_Z index)) in
  match f with
  | Some f => if cf_index f =? index then ret (Build_frame (cf_length f) (cf_offset f)) else estimate
  | None => estimate
  end.

Definition updateViewableItems (count : Z) : JS S unit := log (UpdateViewable count).
Definition computeBlankness : JS S unit := log ComputeBlankness.

(** ** The render window *)

Definition updateCellsToRender : JS S unit :=
  let! n := gets itemCount in
  do! updateViewableItems n;
  let! p := gets vprops in
  match data p with
  | None => ret tt
  | Some _ =>
      modify (fun s => set_updates
        (updates s ++ [UpdateCells (disableVirtualization p) (onEndReachedThreshold p) n]) s)
  end.

(** [props.initialScrollIndex] is given and not 0. *)
Definition scrolls_initially (p : list_props) : bool :=
  negb (bool_decide (default 0 (initialScrollIndex p) = 0)).

Definition near_start (f : frame) (threshold : Q) (m : list_metrics) : bool :=
  let distTop := (offset m - f_offset f)%Q in
  Qltb distTop 0 || (Qltb (velocity m) (-2) && Qltb distTop threshold).
Definition near_end (f : frame) (threshold : Q) (m : list_metrics) : bool :=
  let distBottom := (f_offset f - (offset m + visibleLength m))%Q in
  Qltb distBottom 0 || (Qltb 2 (velocity m) && Qltb distBottom threshold).

Definition scheduleCellsToRenderUpdate : JS S unit :=
  let! f := gets vfirst in
  let! l := gets vlast in
  let! m := gets metrics in
  let! n := gets itemCount in
  let! p := gets vprops in
  let threshold := (onEndReachedThreshold p * visibleLength m / 2)%Q in
  let! hi1 := (if 0 <? f then let! fr := getFrameMetricsApprox f in ret (near_start fr threshold m)
               else ret false) in
  let! hiPri := (if l <? n - 1 then
                   let! fr := getFrameMetricsApprox l in ret (hi1 || near_end fr threshold m)
                 else ret hi1) in
  let! avg := gets averageCellLength in
  let! inProgress := gets hiPriInProgress in
  if hiPri && (negb (Qeq_bool avg 0) || bool_decide (is_Some (getItemLayout p))) && negb inProgress then
    do! modify (set_hiPriInProgress true);
    do! dispose updateCellsToRender true;
    updateCellsToRender
  else schedule.

(** The metrics the window computation reads. *)
Definition window_metrics (m : list_metrics) : scroll_metrics :=
  Build_scroll_metrics (dt m) (offset m) (velocity m) (visibleLength m).

Definition child_has_more (s : S) (key : string) : bool :=
  match nestedChildLists s !! key with
  | Some e => match ce_ref e with Some c => childHasMore c | None => false end
  | None => false
  end.
(** Some child list in the cell at [ii] has more to render. *)
Definition cell_has_more (s : S) (ii : Z) : bool :=
  match indicesToKeys s !! ii with
  | Some key =>
      if bool_decide (key = ""%string) then false
      else match cellKeysToChildListKeys s !! key with
           | Some keys => existsb (child_has_more s) keys
           | None => false
           end
  | None => false
  end.
Definition limit_to_children (s : S) (r : range) : range :=
  if (0 <? size (nestedChildLists s))%nat then
    match head (filter (fun ii => cell_has_more s ii = true) (seqZ (first r) (last r - first r + 1))) with
    | Some ii => Build_range (first r) ii
    | None => r
    end
  else r.

(** The updater of [_updateCellsToRender]; [None] keeps the state. *)
Definition next_window (s : S) (disabled : bool) (threshold : Q) (count : Z) : result (option range) :=
  let m := metrics s in
  let p := vprops s in
  let state := Build_range (vfirst s) (vlast s) in
  let finish (newState : option range) :=
    match limit_to_children s <$> newState with
    | Some r => if (first r =? vfirst s) && (last r =? vlast s) then None else Some r
    | None => None
    end in
  if disabled then
    let distanceFromEnd := (contentLength m - visibleLength m - offset m)%Q in
    let renderAhead := if Qltb distanceFromEnd (threshold * visibleLength m) then maxToRenderPerBatch p else 0 in
    Ret (finish (Some (Build_range 0 (Z.min (vlast s + renderAhead) (count - 1)))))
  else if Qltb 0 (visibleLength m) && Qltb 0 (contentLength m) &&
          (negb (scrolls_initially p) || negb (Qeq_bool (offset m) 0)) then
    match computeWindowedRenderLimits (frameMetricsApprox s) (maxToRenderPerBatch p) (windowSize p)
            state (itemCount s) (window_metrics m) with
    | Ret r => Ret (finish (Some r))
    | Throw e => Throw e
    | OutOfFuel => OutOfFuel
    end
  else Ret (finish None).

Definition run_updater (u : updater) : JS S unit :=
  match u with
  | UpdateCells disabled threshold count =>
      let! r := gets (fun s => next_window s disabled threshold count) in
      match r with
      | Ret None => ret tt
      | Ret (Some r) => modify (fun s => set_vfirst (first r) (set_vlast (last r) s))
      | Throw e => throw e
      | OutOfFuel => out_of_fuel
      end
  | SelectRow row => modify (set_selectedRowIndex row)
  end.

Definition getDerivedStateFromProps (s : S) : S :=
  let n := itemCount s in
  set_vfirst (Z.max 0 (Z.min (vfirst s) (n - 1 - maxToRenderPerBatch (vprops s))))
    (set_vlast (Z.max 0 (Z.min (vlast s) (n - 1)))
       (set_selectedRowIndex (Z.max 0 (Z.min (selectedRowIndex s) n)) s)).

(** ** Rendering *)

(** The children of the scroll view, in order. *)
Inductive cell :=
  | Header
  | Cell (index : Z)
  | StickyLead (length : Q)
  | StickyTrail (length : Q)
  | LeadSpacer (length : Q)
  | TailSpacer (length : Q)
  | Empty
  | Footer.

Definition indices (a b : Z) : list Z := seqZ a (b - a + 1).
Definition register_key (ii : Z) (s : S) : S :=
  match item_key ii s with
  | Some key => set_indicesToKeys (<[ii := key]> (indicesToKeys s)) s
  | None => s
  end.
(** [_pushCells]: [last] is cut to the last item. *)
Definition pushCells (a b : Z) : JS S (list cell) :=
  let! n := gets itemCount in
  let l := indices a (Z.min (n - 1) b) in
  do! for_each l (fun ii => modify (register_key ii));
  ret (Cell <$> l).

Definition lastInitialIndex (p : list_props) : Z :=
  if scrolls_initially p then -1 else initialNumToRender p - 1.

Definition frame_end (f : frame) : Q := (f_offset f + f_length f)%Q.

(** The spacers between the initial cells and the window, with the closest sticky
    header of the skipped region in between. *)
Definition lead_cells : JS S (list cell) :=
  let! p := gets vprops in
  let! f := gets vfirst in
  let li := lastInitialIndex p in
  let stickyOffset := if listHeader p then 1 else 0 in
  if negb (disableVirtualization p) && (li + 1 <? f) then
    let sticky := head (filter (fun ii => ii + stickyOffset ∈ stickyHeaderIndices p)
                    (reverse (seqZ (li + 1) (Z.max (li + 1) f - (li + 1))))) in
    match sticky with
    | Some ii =>
        let! initBlock := getFrameMetricsApprox li in
        let! stickyBlock := getFrameMetricsApprox ii in
        let leadSpace := (f_offset stickyBlock - f_offset initBlock -
          (if scrolls_initially p then 0 else f_length initBlock))%Q in
        let! c := pushCells ii ii in
        let! fb := getFrameMetricsApprox f in
        ret (StickyLead leadSpace :: c ++ [StickyTrail (f_offset fb - frame_end stickyBlock)%Q])
    | None =>
        let! initBlock := getFrameMetricsApprox li in
        let! fb := getFrameMetricsApprox f in
        ret [LeadSpacer (f_offset fb - frame_end initBlock)%Q]
    end
  else ret [].

Definition tail_cells : JS S (list cell) :=
  let! p := gets vprops in
  let! l := gets vlast in
  let! n := gets itemCount in
  if negb (disableVirtualization p) && (l <? n - 1) then
    let! lastFrame := getFrameMetricsApprox l in
    let! hi := gets highestMeasuredFrameIndex in
    let end_ := if bool_decide (is_Some (getItemLayout p)) then n - 1 else Z.min (n - 1) hi in
    let! endFrame := getFrameMetricsApprox end_ in
    ret [TailSpacer (frame_end endFrame - frame_end lastFrame)%Q]
  else ret [].

Definition item_cells : JS S (list cell) :=
  let! p := gets vprops in
  let li := lastInitialIndex p in
  let! c1 := pushCells 0 li in
  let! c2 := lead_cells in
  let! f := gets vfirst in
  let! l := gets vlast in
  let! c3 := pushCells (Z.max (li + 1) f) l in
  let! c4 := tail_cells in
  ret (c1 ++ c2 ++ c3 ++ c4).

Definition render : JS S (list cell) :=
  let! p := gets vprops in
  let! n := gets itemCount in
  let! items := (if 0 <? n then item_cells
                 else ret (if listEmpty p then [Empty] else [])) in
  do! modify (fun s => set_hasMore (vlast s <? itemCount s - 1) s);
  ret ((if listHeader p then [Header] else []) ++ items ++ (if listFooter p then [Footer] else [])).

(** ** React *)

Definition componentDidUpdate (dataChanged : bool) : JS S unit :=
  do! when dataChanged (log ResetViewable);
  let! inProgress := gets hiPriInProgress in
  do! scheduleCellsToRenderUpdate;
  when inProgress (modify (set_hiPriInProgress false)).

Definition react_state (s : S) : Z * Z * Z := (vfirst s, vlast s, selectedRowIndex s).

(** One pass: [new_props] are the props the parent passes, and whether [data] or
    [extraData] differ from before. *)
Definition commit (new_props : option (list_props * bool)) : JS S unit :=
  let! old := gets react_state in
  do! (match new_props with Some (p, _) => modify (set_vprops p) | None => ret tt end);
  let! us := gets updates in
  do! modify (set_updates []);
  do! for_each us run_updater;
  do! modify getDerivedStateFromProps;
  let! new := gets react_state in
  if bool_decide (is_Some new_props) || bool_decide (old <> new) then
    do! render;
    componentDidUpdate (if new_props is Some (_, changed) then changed else false)
  else ret tt.

Fixpoint flush (fuel : nat) : JS S unit :=
  let! us := gets updates in
  match us with
  | [] => ret tt
  | _ => match fuel with
         | O => out_of_fuel
         | Datatypes.S fuel' => do! commit None; flush fuel'
         end
  end.

(** The constructor, and the first render. *)
Definition new_VirtualizedList (p : list_props) : S :=
  let n := Z.of_nat (length (default [] (data p))) in
  let start := default 0 (initialScrollIndex p) in
  Build_vl start (Z.min n (start + initialNumToRender p) - 1) 0 p ∅ 0 0 0 0 ∅ ∅ ∅ initial_metrics
    0 0 0 false false false false 0 false false new_Batchinator [] [].
Definition mount : JS S unit :=
  let! p := gets vprops in
  do! invariant (Qltb 0 (windowSize p))
    "VirtualizedList: The windowSize prop must be present and set to a value greater than 0.";
  do! modify getDerivedStateFromProps;
  do! render;
  modify (set_hasScrollRef true).
Definition componentWillUnmount : JS S unit :=
  do! updateViewableItems 0;
  do! dispose updateCellsToRender true;
  do! log DisposeViewable;
  log DeactivateFillRate.

(** ** Layout and scrolling *)

Definition triggerRemeasureForChildListsInCell (cellKey : string) : JS S unit :=
  let! o := gets (fun s => cellKeysToChildListKeys s !! cellKey) in
  for_each (default [] o) (fun childKey =>
    let! e := gets (fun s => nestedChildLists s !! childKey) in
    match e ≫= ce_ref with Some c => log (Remeasure c) | None => ret tt end).

Definition onCellLayout (layout : rect) (cellKey : string) (index : Z) : JS S unit :=
  let! next := gets (fun s => Build_cell_frame (selectOffset layout s) (selectLength layout s) index true) in
  let! curr := gets (fun s => frames s !! cellKey) in
  let changed :=
    match curr with
    | None => true
    | Some c => negb (Qeq_bool (cf_offset next) (cf_offset c)) || negb (Qeq_bool (cf_length next) (cf_length c))
                || negb (index =? cf_index c)
    end in
  do! (if changed then
         do! modify (fun s => set_totalCellLength
               (totalCellLength s + (cf_length next - (if curr is Some c then cf_length c else 0)))%Q s);
         do! modify (fun s => set_totalCellsMeasured
               (totalCellsMeasured s + (if curr is Some _ then 0 else 1)) s);
         do! modify (fun s => set_averageCellLength
               (totalCellLength s / inject_Z (totalCellsMeasured s))%Q s);
         do! modify (fun s => set_frames (<[cellKey := next]> (frames s)) s);
         do! modify (fun s => set_highestMeasuredFrameIndex (Z.max (highestMeasuredFrameIndex s) index) s);
         scheduleCellsToRenderUpdate
       else modify (fun s => set_frames (alter (fun c =>
              Build_cell_frame (cf_offset c) (cf_length c) (cf_index c) true) cellKey (frames s)) s));
  do! triggerRemeasureForChildListsInCell cellKey;
  do! computeBlankness;
  let! n := gets itemCount in
  updateViewableItems n.

Definition onCellUnmount (cellKey : string) : JS S unit :=
  modify (fun s => set_frames (alter (fun c =>
    Build_cell_frame (cf_offset c) (cf_length c) (cf_index c) false) cellKey (frames s)) s).

(** [offset], [visibleLength], [dOffset] of a nested list for those of its parent. *)
Definition convertParentScrollMetrics (parentVisibleLength parentOffset : Q) (s : S) : Q * Q * Q :=
  let offset' := (parentOffset - offsetFromParent s)%Q in
  (offset', parentVisibleLength, (offset' - offset (metrics s))%Q).

Definition set_visible (contentLength' offset' visibleLength' : Q) (m : list_metrics) : list_metrics :=
  Build_list_metrics contentLength' (dOffset m) (dt m) offset' (timestamp m) (velocity m) visibleLength'.

(** The success callback of [measureLayout]. *)
Definition measuredInContainingList (layout : rect) (parentVisibleLength parentOffset : Q) : JS S unit :=
  do! modify (fun s => set_offsetFromParent (selectOffset layout s) s);
  modify (fun s =>
    let '(o, v, _) := convertParentScrollMetrics parentVisibleLength parentOffset s in
    set_metrics (set_visible (selectLength layout s) o v (metrics s)) s).

Definition maybeCallOnEndReached : JS S unit :=
  let! p := gets vprops in
  let! m := gets metrics in
  let! n := gets itemCount in
  let! l := gets vlast in
  let! sent := gets sentEndForContentLength in
  let distanceFromEnd := (contentLength m - visibleLength m - offset m)%Q in
  let threshold := (onEndReachedThreshold p * visibleLength m)%Q in
  if onEndReached p && (l =? n - 1) && Qltb distanceFromEnd threshold && negb (Qeq_bool (contentLength m) sent)
  then
    do! modify (set_sentEndForContentLength (contentLength m));
    log (EndReached distanceFromEnd)
  else if Qltb threshold distanceFromEnd then modify (set_sentEndForContentLength 0)
  else ret tt.

(** [onLayout]; [None] when the list is nested, which measures itself instead. *)
Definition onLayout (layout : rect) : JS S unit :=
  let! p := gets vprops in
  do! (if nested p then ret tt
       else modify (fun s => set_metrics (set_visible (contentLength (metrics s)) (offset (metrics s))
              (selectLength layout s) (metrics s)) s));
  do! log (PropCallback "onLayout");
  do! scheduleCellsToRenderUpdate;
  maybeCallOnEndReached.
Definition onLayoutEmpty : JS S unit := log (PropCallback "onLayout").
Definition onLayoutFooter (footerCellKey : string) (layout : rect) : JS S unit :=
  do! triggerRemeasureForChildListsInCell footerCellKey;
  modify (fun s => set_footerLength (selectLength layout s) s).
Definition onLayoutHeader (layout : rect) : JS S unit :=
  modify (fun s => set_headerLength (selectLength layout s) s).

Definition scrollToOffset (o : Q) (animated : bool) : JS S unit :=
  let! r := gets hasScrollRef in
  when r (log (ScrollTo o animated)).
Definition scrollToEnd (animated : bool) : JS S unit :=
  let! n := gets itemCount in
  let! f := getFrameMetricsApprox (n - 1) in
  let! footer := gets footerLength in
  let! m := gets metrics in
  scrollToOffset (Qmaxb 0 (f_offset f + f_length f + footer - visibleLength m)) animated.
Definition scrollToIndex (index : Z) (animated : bool) (viewOffset viewPosition : Q) : JS S unit :=
  let! n := gets itemCount in
  let! p := gets vprops in
  do! invariant ((0 <=? index) && (index <? n)) "scrollToIndex out of range: requested index %s but maximum is %s";
  let! hi := gets highestMeasuredFrameIndex in
  if negb (bool_decide (is_Some (getItemLayout p))) && (hi <? index) then
    do! invariant (onScrollToIndexFailed p)
      "scrollToIndex should be used in conjunction with getItemLayout or onScrollToIndexFailed";
    let! avg := gets averageCellLength in
    log (ScrollToIndexFailed avg hi index)
  else
    let! f := getFrameMetricsApprox index in
    let! m := gets metrics in
    scrollToOffset (Qmaxb 0 (f_offset f - viewPosition * (visibleLength m - f_length f)) - viewOffset)%Q animated.
Definition scrollToItem (key : string) (animated : bool) (viewPosition : Q) : JS S unit :=
  let! p := gets vprops in
  match index_of key (default [] (data p)) with
  | Some i => scrollToIndex (Z.of_nat i) animated 0 viewPosition
  | None => ret tt
  end.
Definition ensureItemAtIndexIsVisible (row : Z) : JS S unit :=
  let! f := getFrameMetricsApprox row in
  let! m := gets metrics in
  let visTop := offset m in
  let visEnd := (visTop + visibleLength m)%Q in
  if Qltb visEnd (frame_end f) then
    scrollToOffset (Qminb (contentLength m) (visTop + (frame_end f - visEnd))) true
  else if Qltb (f_offset f) visTop then scrollToOffset (Qmaxb 0 (visTop - f_length f)) true
  else ret tt.

Definition onContentSizeChange (width height : Q) : JS S unit :=
  let! p := gets vprops in
  let! did := gets hasDoneInitialScroll in
  do! (match initialScrollIndex p with
       | Some i =>
           when (Qltb 0 width && Qltb 0 height && (0 <? i) && negb did) (
             do! scrollToIndex i false 0 0;
             modify (set_hasDoneInitialScroll true))
       | None => ret tt
       end);
  do! log (PropCallback "onContentSizeChange");
  do! modify (fun s => set_metrics (set_visible (selectLength (Build_rect 0 0 width height) s)
        (offset (metrics s)) (visibleLength (metrics s)) (metrics s)) s);
  do! scheduleCellsToRenderUpdate;
  maybeCallOnEndReached.

(** The native scroll event: time, [layoutMeasurement], [contentSize], [contentOffset]. *)
Record scroll_event := { e_timeStamp : Q; e_layoutMeasurement : rect; e_contentSize : rect; e_contentOffset : rect }.

Definition for_children (e : nat -> event) : JS S unit :=
  let! l := gets nestedChildLists in
  for_each (map_to_list l) (fun c => match ce_ref c.2 with Some c => log (e c) | None => ret tt end).

Definition onScroll (e : scroll_event) : JS S unit :=
  do! for_children ChildScroll;
  do! log (PropCallback "onScroll");
  let! p := gets vprops in
  let! m := gets metrics in
  let! visible := gets (selectLength (e_layoutMeasurement e)) in
  let! content := gets (selectLength (e_contentSize e)) in
  let! o := gets (selectOffset (e_contentOffset e)) in
  if nested p && Qeq_bool (contentLength m) 0 then ret tt
  else
    let! c := gets (convertParentScrollMetrics visible o) in
    let '(offset', visible', dOffset') := if nested p then c else (o, visible, (o - offset m)%Q) in
    let content' := if nested p then contentLength m else content in
    let dt' := if Qeq_bool (timestamp m) 0 then 1%Q else Qmaxb 1 (e_timeStamp e - timestamp m) in
    let velocity' := (dOffset' / dt')%Q in
    let! warned := gets warnedPerf in
    do! when (Qltb 500 dt' && Qltb 500 (dt m) && Qltb (5 * visible') content' && negb warned) (
          do! log SlowListWarning;
          modify (set_warnedPerf true));
    do! modify (set_metrics (Build_list_metrics content' dOffset' dt' offset' (e_timeStamp e) velocity' visible'));
    let! n := gets itemCount in
    do! updateViewableItems n;
    do! maybeCallOnEndReached;
    do! when (negb (Qeq_bool velocity' 0)) (log ActivateFillRate);
    do! computeBlankness;
    scheduleCellsToRenderUpdate.

Definition set_velocity (v : Q) (m : list_metrics) : list_metrics :=
  Build_list_metrics (contentLength m) (dOffset m) (dt m) (offset m) (timestamp m) v (visibleLength m).
Definition onScrollBeginDrag : JS S unit :=
  do! for_children ChildScrollBeginDrag;
  do! log RecordInteraction;
  do! modify (set_hasInteracted true);
  log (PropCallback "onScrollBeginDrag").
Definition onScrollEndDrag (velocity : option rect) : JS S unit :=
  do! (match velocity with
       | Some v => modify (fun s => set_metrics (set_velocity (selectOffset v s) (metrics s)) s)
       | None => ret tt
       end);
  do! computeBlankness;
  log (PropCallback "onScrollEndDrag").
Definition onMomentumScrollEnd : JS S unit :=
  do! modify (fun s => set_metrics (set_velocity 0 (metrics s)) s);
  do! computeBlankness;
  log (PropCallback "onMomentumScrollEnd").
Definition recordInteraction : JS S unit :=
  do! for_children ChildRecordInteraction;
  do! log RecordInteraction;
  let! n := gets itemCount in
  updateViewableItems n.

(** ** Child lists *)

Definition registerAsNestedChild (cellKey key : string) (ref : nat) : JS S unit :=
  let! l := gets (fun s => default [] (cellKeysToChildListKeys s !! cellKey)) in
  do! modify (fun s => set_cellKeysToChildListKeys
        (<[cellKey := if decide (key ∈ l) then l else l ++ [key]]> (cellKeysToChildListKeys s)) s);
  let! old := gets (fun s => nestedChildLists s !! key) in
  do! when (bool_decide (is_Some (old ≫= ce_ref))) (log (DuplicateChildKey key));
  do! modify (fun s => set_nestedChildLists (<[key := Build_child_entry (Some ref) None]> (nestedChildLists s)) s);
  let! interacted := gets hasInteracted in
  when interacted (log (ChildRecordInteraction ref)).
Definition unregisterAsNestedChild (key : string) (state : child_state) : JS S unit :=
  modify (fun s => set_nestedChildLists (<[key := Build_child_entry None (Some state)]> (nestedChildLists s)) s).
Definition getNestedChildState (key : string) (s : S) : option child_state :=
  nestedChildLists s !! key ≫= ce_state.

(** ** Keyboard selection *)

Inductive key_event := DOWN_ARROW | UP_ARROW | ENTER | OtherKey.
Definition setSelection (row : Z) : JS S Z :=
  do! modify (fun s => set_updates (updates s ++ [SelectRow row]) s);
  ret row.
Definition selectRowAboveIndex (row : Z) : JS S Z := setSelection (if 0 <? row then row - 1 else row).
Definition selectRowBelowIndex (row : Z) : JS S Z :=
  let! n := gets itemCount in
  setSelection (if row <? n - 1 then row + 1 else row).
Definition handleKeyDown (key : key_event) : JS S unit :=
  let! prevIndex := gets selectedRowIndex in
  let move (select : Z -> JS S Z) :=
    let! newIndex := select prevIndex in
    do! ensureItemAtIndexIsVisible newIndex;
    when (negb (prevIndex =? newIndex)) (log (SelectionChanged prevIndex newIndex)) in
  match key with
  | DOWN_ARROW => move selectRowBelowIndex
  | UP_ARROW => move selectRowAboveIndex
  | ENTER => log (SelectionEntered prevIndex)
  | OtherKey => ret tt
  end.

(** ** The steps of the environment *)
Inductive op :=
  | CellLayout (layout : rect) (cellKey : string) (index : Z)
  | CellUnmount (cellKey : string)
  | Layout (layout : rect)
  | Measured (layout : rect) (parentVisibleLength parentOffset : Q)
  | HeaderLayout (layout : rect)
  | FooterLayout (cellKey : string) (layout : rect)
  | ContentSizeChange (width height : Q)
  | Scroll (e : scroll_event)
  | ScrollBeginDrag
  | ScrollEndDrag (velocity : option rect)
  | MomentumScrollEnd
  | Interaction
  | RegisterChild (cellKey key : string) (ref : nat)
  | UnregisterChild (key : string) (state : child_state)
  | KeyDown (key : key_event)
  | BatchTimeout (t : nat)
  | BatchTask (k : nat)
  | ReactCommit
  | NewProps (p : list_props) (dataChanged : bool)
  | Unmount.

Definition run_op (o : op) : JS S unit :=
  match o with
  | CellLayout layout key index => onCellLayout layout key index
  | CellUnmount key => onCellUnmount key
  | Layout layout => onLayout layout
  | Measured layout v o => measuredInContainingList layout v o
  | HeaderLayout layout => onLayoutHeader layout
  | FooterLayout key layout => onLayoutFooter key layout
  | ContentSizeChange w h => onContentSizeChange w h
  | Scroll e => onScroll e
  | ScrollBeginDrag => onScrollBeginDrag
  | ScrollEndDrag v => onScrollEndDrag v
  | MomentumScrollEnd => onMomentumScrollEnd
  | Interaction => recordInteraction
  | RegisterChild cellKey key ref => registerAsNestedChild cellKey key ref
  | UnregisterChild key state => unregisterAsNestedChild key state
  | KeyDown key => handleKeyDown key
  | BatchTimeout t => timeout_fires t
  | BatchTask k => task_runs updateCellsToRender k
  | ReactCommit => commit None
  | NewProps p changed => commit (Some (p, changed))
  | Unmount => componentWillUnmount
  end.
End virtualized_list.

(** ** The operations that leave the window alone *)
(* the handlers, and the helpers they are made of *)
Ltac unfold_ops :=
  unfold onLayout, measuredInContainingList, onLayoutFooter, onLayoutHeader, onContentSizeChange, onScroll,
    onScrollBeginDrag, onScrollEndDrag, onMomentumScrollEnd, recordInteraction, registerAsNestedChild,
    unregisterAsNestedChild, handleKeyDown, selectRowAboveIndex, selectRowBelowIndex, setSelection,
    ensureItemAtIndexIsVisible, scrollToOffset, timeout_fires, task_runs, componentWillUnmount.

Section frame_lemmas.
Context (childHasMore : nat -> bool).
Abbreviation S := vl.

(** [R] relates states with the same window, selection, props and measurements. *)
Definition same_view (s s' : S) : Prop :=
  react_state s' = react_state s /\ vprops s' = vprops s /\ frames s' = frames s /\
  averageCellLength s' = averageCellLength s /\ totalCellLength s' = totalCellLength s /\
  totalCellsMeasured s' = totalCellsMeasured s /\
  highestMeasuredFrameIndex s' = highestMeasuredFrameIndex s /\
  metrics s' = metrics s /\ nestedChildLists s' = nestedChildLists s /\
  sentEndForContentLength s' = sentEndForContentLength s.
#[export] Instance same_view_preorder : PreOrder same_view.
Proof. split; unfold same_view; repeat intro; intuition congruence. Qed.

Lemma same_view_modify f : (forall s, same_view s (f s)) -> evolves same_view (modify f).
Proof. intros H. by apply evolves_modify. Qed.
#[local] Hint Resolve same_view_preorder : js.
#[local] Hint Extern 5 (evolves same_view (modify _)) =>
  apply same_view_modify; intros ?; unfold same_view; split_and!; reflexivity : js.

Lemma view_log e : evolves same_view (log e).
Proof. unfold log. js_auto. Qed.
#[local] Hint Resolve view_log : js.
Lemma view_viewable n : evolves same_view (updateViewableItems n).
Proof. apply view_log. Qed.
Lemma view_blankness : evolves same_view computeBlankness.
Proof. apply view_log. Qed.
#[local] Hint Resolve view_viewable view_blankness : js.
Lemma view_frame i : evolves same_view (getFrameMetricsApprox i).
Proof. unfold getFrameMetricsApprox, getFrameMetrics. js_auto. Qed.
#[local] Hint Resolve view_frame : js.
Lemma view_updateCells : evolves same_view updateCellsToRender.
Proof. unfold updateCellsToRender, updateViewableItems. js_auto. Qed.
#[local] Hint Resolve view_updateCells : js.
Lemma view_upd f : evolves same_view (Batchinator.upd (Σ:=S) f).
Proof. unfold Batchinator.upd. js_auto. Qed.
#[local] Hint Resolve view_upd : js.
Lemma view_schedule : evolves same_view (schedule (Σ:=S)).
Proof. unfold schedule. js_auto. Qed.
Lemma view_dispose b : evolves same_view (dispose updateCellsToRender b).
Proof. unfold dispose. js_auto. Qed.
#[local] Hint Resolve view_schedule view_dispose : js.
Lemma view_scheduleCells : evolves same_view scheduleCellsToRenderUpdate.
Proof. unfold scheduleCellsToRenderUpdate. js_auto. Qed.
#[local] Hint Resolve view_scheduleCells : js.
Lemma view_register i s : same_view s (register_key i s).
Proof. unfold register_key. by case_match. Qed.
Lemma view_pushCells a b : evolves same_view (pushCells a b).
Proof. unfold pushCells. js_auto. apply same_view_modify. intros. apply view_register. Qed.
#[local] Hint Resolve view_pushCells : js.
Lemma view_render : evolves same_view render.
Proof. unfold render, item_cells, lead_cells, tail_cells. js_auto. Qed.
#[local] Hint Resolve view_render : js.
Lemma view_didUpdate b : evolves same_view (componentDidUpdate b).
Proof. unfold componentDidUpdate. js_auto. Qed.

(** An index below the item count never makes a frame lookup fail. *)
Lemma getFrameMetricsApprox_run i s : i < itemCount s ->
  getFrameMetricsApprox i s = (Ret (frameMetricsApprox s i), s).
Proof.
  intros Hi. unfold getFrameMetricsApprox, getFrameMetrics, frameMetricsApprox.
  rewrite bind_assoc, bind_gets. rewrite (proj2 (Z.ltb_lt _ _) Hi). cbn [invariant].
  rewrite bind_assoc, bind_ret, bind_gets, !bind_gets.
  destruct (frameMetrics i s) as [f|] eqn:E.
  - destruct (cf_index f =? i) eqn:Ei; [done|].
    unfold frameMetrics in E. destruct (getItemLayout (vprops s)); [|done].
    destruct (item_key i s ≫= _) as [g|]; [destruct (cf_index g =? i) eqn:Eg|]; injection E as <-; cbn in Ei; lia.
  - unfold frameMetrics in E. destruct (getItemLayout (vprops s)); [|done].
    by destruct (item_key i s ≫= _) as [g|]; [destruct (cf_index g =? i) eqn:Eg|].
Qed.
End frame_lemmas.
#[export] Hint Resolve same_view_preorder view_log view_viewable view_blankness view_frame view_updateCells view_schedule view_dispose
  view_scheduleCells view_pushCells view_render view_didUpdate view_upd : js.

(** ** What is rendered *)
Section rendering.
Abbreviation S := vl.

Lemma view_itemCount s s' : same_view s s' -> itemCount s' = itemCount s.
Proof. intros (_ & Hp & _). unfold itemCount. by rewrite Hp. Qed.
Lemma view_approx s s' i : same_view s s' -> frameMetricsApprox s' i = frameMetricsApprox s i.
Proof.
  intros (_ & Hp & Hf & Ha & _). unfold frameMetricsApprox, frameMetrics, item_key. by rewrite Hp, Hf, Ha.
Qed.
Lemma view_window s s' : same_view s s' -> vfirst s' = vfirst s /\ vlast s' = vlast s.
Proof. intros (Hr & _). unfold react_state in Hr. by injection Hr as -> -> _. Qed.

Lemma frame_run i s s0 : same_view s s0 -> i < itemCount s ->
  getFrameMetricsApprox i s0 = (Ret (frameMetricsApprox s i), s0).
Proof.
  intros Hv Hi. rewrite getFrameMetricsApprox_run; [by rewrite (view_approx s s0)|].
  by rewrite (view_itemCount s s0).
Qed.

Definition pushed (s : S) (a b : Z) : list cell := Cell <$> indices a (Z.min (itemCount s - 1) b).
Lemma pushCells_run a b s s0 : same_view s s0 ->
  exists s', pushCells a b s0 = (Ret (pushed s a b), s') /\ same_view s s'.
Proof.
  intros Hv. unfold pushCells. rewrite bind_gets, (view_itemCount s s0 Hv).
  assert (Hr : returns (for_each (indices a (Z.min (itemCount s - 1) b)) (fun ii => modify (register_key ii)))) by js_returns.
  destruct (returns_run _ s0 Hr) as [[] E]. rewrite (bind_of _ _ _ _ _ E). eexists. split; [done|].
  transitivity s0; [done|]. apply evolves_for_each; [apply _|]. intros ii. apply same_view_modify, view_register.
Qed.

(** The sticky header closest before the window, and the spacers around it. *)
Definition closest_sticky (s : S) : option Z :=
  let p := vprops s in
  let li := lastInitialIndex p in
  head (filter (fun ii => ii + (if listHeader p then 1 else 0) ∈ stickyHeaderIndices p)
    (reverse (seqZ (li + 1) (Z.max (li + 1) (vfirst s) - (li + 1))))).
Definition lead (s : S) : list cell :=
  let p := vprops s in
  let f := frameMetricsApprox s in
  let li := lastInitialIndex p in
  if negb (disableVirtualization p) && (li + 1 <? vfirst s) then
    match closest_sticky s with
    | Some ii =>
        StickyLead (f_offset (f ii) - f_offset (f li) -
                    (if scrolls_initially p then 0 else f_length (f li)))%Q ::
        pushed s ii ii ++ [StickyTrail (f_offset (f (vfirst s)) - frame_end (f ii))%Q]
    | None => [LeadSpacer (f_offset (f (vfirst s)) - frame_end (f li))%Q]
    end
  else [].
Definition tail (s : S) : list cell :=
  let p := vprops s in
  let f := frameMetricsApprox s in
  let n := itemCount s in
  if negb (disableVirtualization p) && (vlast s <? n - 1) then
    let end_ := if bool_decide (is_Some (getItemLayout p)) then n - 1
                else Z.min (n - 1) (highestMeasuredFrameIndex s) in
    [TailSpacer (frame_end (f end_) - frame_end (f (vlast s)))%Q]
  else [].

Lemma closest_sticky_range s ii : closest_sticky s = Some ii ->
  lastInitialIndex (vprops s) + 1 <= ii < Z.max (lastInitialIndex (vprops s) + 1) (vfirst s).
Proof.
  unfold closest_sticky. intros H.
  assert (Hin : ii ∈ reverse (seqZ (lastInitialIndex (vprops s) + 1)
    (Z.max (lastInitialIndex (vprops s) + 1) (vfirst s) - (lastInitialIndex (vprops s) + 1)))).
  { apply head_Some_elem_of, list_elem_of_filter in H. apply H. }
  apply elem_of_reverse, elem_of_seqZ in Hin. lia.
Qed.

Lemma lead_run s s0 : same_view s s0 -> vfirst s < itemCount s ->
  exists s', lead_cells s0 = (Ret (lead s), s') /\ same_view s s'.
Proof.
  intros Hv Hf. pose proof Hv as (_ & Hp & _). destruct (view_window s s0 Hv) as [Ef _].
  unfold lead_cells, lead. rewrite !bind_gets, Hp, Ef.
  destruct (negb _ && _) eqn:Ec; [|by exists s0].
  fold (closest_sticky s). destruct (closest_sticky s) as [ii|] eqn:Es.
  - apply closest_sticky_range in Es.
    rewrite (bind_of _ _ _ _ _ (frame_run (lastInitialIndex (vprops s)) s s0 Hv ltac:(lia))).
    rewrite (bind_of _ _ _ _ _ (frame_run ii s s0 Hv ltac:(lia))).
    destruct (pushCells_run ii ii s s0 Hv) as (s1 & E1 & Hv1). rewrite (bind_of _ _ _ _ _ E1).
    rewrite (bind_of _ _ _ _ _ (frame_run (vfirst s) s s1 Hv1 Hf)). by exists s1.
  - rewrite (bind_of _ _ _ _ _ (frame_run (lastInitialIndex (vprops s)) s s0 Hv ltac:(lia))).
    rewrite (bind_of _ _ _ _ _ (frame_run (vfirst s) s s0 Hv Hf)). by exists s0.
Qed.

Lemma tail_run s s0 : same_view s s0 -> exists s', tail_cells s0 = (Ret (tail s), s') /\ same_view s s'.
Proof.
  intros Hv. pose proof Hv as (_ & Hp & _ & _ & _ & _ & Hh & _). destruct (view_window s s0 Hv) as [_ El].
  unfold tail_cells, tail. rewrite !bind_gets, Hp, El, (view_itemCount s s0 Hv).
  destruct (negb _ && _) eqn:Ec; [|by exists s0].
  rewrite (bind_of _ _ _ _ _ (frame_run (vlast s) s s0 Hv ltac:(lia))), bind_gets, Hh.
  set (end_ := if bool_decide _ then _ else _). assert (Hend : end_ < itemCount s) by (unfold end_; case_bool_decide; lia).
  rewrite (bind_of _ _ _ _ _ (frame_run end_ s s0 Hv Hend)). by exists s0.
Qed.

Definition rendered (s : S) : list cell :=
  pushed s 0 (lastInitialIndex (vprops s)) ++ lead s ++
  pushed s (Z.max (lastInitialIndex (vprops s) + 1) (vfirst s)) (vlast s) ++ tail s.

Lemma item_cells_run s : vfirst s < itemCount s ->
  exists s', item_cells s = (Ret (rendered s), s') /\ same_view s s'.
Proof.
  intros Hf. unfold item_cells, rendered. rewrite bind_gets.
  destruct (pushCells_run 0 (lastInitialIndex (vprops s)) s s ltac:(reflexivity)) as (s1 & E1 & V1).
  rewrite (bind_of _ _ _ _ _ E1). destruct (lead_run s s1 V1 Hf) as (s2 & E2 & V2).
  rewrite (bind_of _ _ _ _ _ E2). destruct (view_window s s2 V2) as [Wf Wl].
  rewrite !bind_gets, Wf, Wl.
  destruct (pushCells_run (Z.max (lastInitialIndex (vprops s) + 1) (vfirst s)) (vlast s) s s2 V2) as (s3 & E3 & V3).
  rewrite (bind_of _ _ _ _ _ E3). destruct (tail_run s s3 V3) as (s4 & E4 & V4).
  rewrite (bind_of _ _ _ _ _ E4). by exists s4.
Qed.

Lemma render_returns s : (0 < itemCount s -> vfirst s < itemCount s) ->
  exists c s', render s = (Ret c, s') /\ same_view s s'.
Proof.
  intros Hf. assert (H : exists c, outcome render s = Ret c).
  { unfold render, outcome. rewrite !bind_gets. destruct (Z.ltb_spec 0 (itemCount s)).
    - destruct (item_cells_run s ltac:(lia)) as (s1 & E & _). rewrite (bind_of _ _ _ _ _ E). by eexists.
    - by eexists. }
  destruct H as [c Hc]. exists c, (final render s). split; [|apply view_render].
  unfold outcome, final in *. destruct (render s); cbn in *; by subst.
Qed.

(** *** The cells and spacers reproduce the layout *)

Section placement.
Context (f : Z -> frame).
Definition extent (c : cell) : Q :=
  match c with
  | Cell i => f_length (f i)
  | StickyLead q | StickyTrail q | LeadSpacer q | TailSpacer q => q
  | Header | Empty | Footer => 0
  end.
Fixpoint extents (l : list cell) : Q :=
  match l with [] => 0%Q | c :: l' => (extent c + extents l')%Q end.
(** Laid out one after the other from [o], every cell lies at the offset of its frame. *)
Fixpoint placed (o : Q) (l : list cell) : Prop :=
  match l with
  | [] => True
  | c :: l' => (match c with Cell i => o == f_offset (f i) | _ => True end)%Q /\ placed (o + extent c)%Q l'
  end.

#[export] Instance placed_proper : Proper (Qeq ==> (=) ==> iff) placed.
Proof.
  intros o o' Ho l l' <-. revert o o' Ho. induction l as [|c l IH]; intros o o' Ho; [done|]. cbn.
  rewrite (IH (o + extent c)%Q (o' + extent c)%Q) by (by rewrite Ho). destruct c; rewrite ?Ho; done.
Qed.
Lemma extents_app l1 l2 : (extents (l1 ++ l2) == extents l1 + extents l2)%Q.
Proof. induction l1 as [|c l1 IH]; cbn; [ring|]. rewrite IH. ring. Qed.
Lemma placed_app o l1 l2 : placed o (l1 ++ l2) <-> placed o l1 /\ placed (o + extents l1)%Q l2.
Proof.
  revert o. induction l1 as [|c l1 IH]; intros o; cbn.
  - rewrite Qplus_0_r. by split; [|intros [_ ?]].
  - rewrite IH, Qplus_assoc. tauto.
Qed.

(** Every item starts where the one before it ends. *)
Definition contiguous : Prop := forall i, -1 <= i -> (f_offset (f (i + 1)) == frame_end (f i))%Q.
Hypothesis Hf : contiguous.

Lemma cells_placed a (n : nat) o : 0 <= a -> (o == f_offset (f a))%Q ->
  placed o (Cell <$> seqZ a (Z.of_nat n)) /\
  (o + extents (Cell <$> seqZ a (Z.of_nat n)) == f_offset (f (a + Z.of_nat n)))%Q.
Proof.
  revert a o. induction n as [|n IH]; intros a o Ha Ho.
  - cbn. rewrite Z.add_0_r, Qplus_0_r. by split.
  - rewrite Nat2Z.inj_succ, seqZ_cons by lia. cbn -[seqZ]. rewrite Z.pred_succ.
    assert (Hn : (o + f_length (f a) == f_offset (f (Z.succ a)))%Q).
    { rewrite <- Z.add_1_r, (Hf a) by lia. unfold frame_end. by rewrite Ho. }
    destruct (IH (Z.succ a) _ ltac:(lia) Hn) as [H1 H2].
    split; [by split|]. rewrite Qplus_assoc, H2. replace (a + Z.succ (Z.of_nat n)) with (Z.succ a + Z.of_nat n) by lia.
    reflexivity.
Qed.
Lemma indices_placed a b o : 0 <= a -> (o == f_offset (f a))%Q ->
  placed o (Cell <$> indices a b) /\
  (o + extents (Cell <$> indices a b) == f_offset (f (Z.max a (b + 1))))%Q.
Proof.
  intros Ha Ho. unfold indices. destruct (Z.leb_spec a (b + 1)) as [H|H].
  - replace (b - a + 1) with (Z.of_nat (Z.to_nat (b - a + 1))) by lia.
    replace (Z.max a (b + 1)) with (a + Z.of_nat (Z.to_nat (b - a + 1))) by lia. by apply cells_placed.
  - rewrite Z.max_l by lia. replace (seqZ a (b - a + 1)) with ([] : list Z).
    + cbn. rewrite Qplus_0_r. by split.
    + unfold seqZ. by rewrite Z2Nat.nonpos by lia.
Qed.
End placement.

Lemma offset_of_end f i j : contiguous f -> -1 <= i -> j = i + 1 -> (f_offset (f j) == frame_end (f i))%Q.
Proof. intros Hf Hi ->. by apply Hf. Qed.

(** The lead block fills the gap between the initial cells and the window. *)
Lemma lead_placed s o : let f := frameMetricsApprox s in
  contiguous f -> vfirst s < itemCount s -> -1 <= lastInitialIndex (vprops s) ->
  disableVirtualization (vprops s) = false ->
  stickyHeaderIndices (vprops s) = [] \/ scrolls_initially (vprops s) = false ->
  (o == f_offset (f (lastInitialIndex (vprops s) + 1)%Z))%Q ->
  placed f o (lead s) /\
  (o + extents f (lead s) == f_offset (f (Z.max (lastInitialIndex (vprops s) + 1) (vfirst s))))%Q.
Proof.
  intros f Hf Hn Hli Hd Hsticky Ho. unfold lead. rewrite Hd. cbn [negb andb]. fold f.
  set (li := lastInitialIndex (vprops s)) in *.
  destruct (Z.ltb_spec (li + 1) (vfirst s)) as [Hlt|Hge].
  2: { cbn. rewrite Qplus_0_r, Z.max_l by lia. by split. }
  rewrite Z.max_r by lia. pose proof (offset_of_end f li (li + 1) Hf Hli eq_refl) as Hi.
  destruct (closest_sticky s) as [ii|] eqn:Es.
  - assert (Hs : scrolls_initially (vprops s) = false).
    { destruct Hsticky as [E|]; [|done]. exfalso. unfold closest_sticky in Es. rewrite E in Es.
      rewrite filter_none in Es; [done|]. intros x _ Hx. by apply elem_of_nil in Hx. }
    rewrite Hs. apply closest_sticky_range in Es. fold li in Es.
    assert (Hp : pushed s ii ii = [Cell ii]).
    { unfold pushed, indices. rewrite Z.min_r by lia. by replace (ii - ii + 1) with 1 by lia. }
    rewrite Hp. cbn. unfold frame_end in *. split_and!; try done; rewrite Ho, Hi; ring.
  - cbn. unfold frame_end in *. split_and!; try done. rewrite Ho, Hi. ring.
Qed.

End rendering.

(** ** The average cell length *)
Section measurements.
Context (childHasMore : nat -> bool).
Abbreviation S := vl.

Fixpoint sumQ (l : list Q) : Q := match l with [] => 0%Q | q :: l' => (q + sumQ l')%Q end.
#[export] Instance sumQ_perm : Proper (Permutation ==> Qeq) sumQ.
Proof.
  induction 1 as [|x l l' _ IH|x y l|l1 l2 l3 _ IH1 _ IH2]; cbn; [done|by rewrite IH|ring|by rewrite IH1].
Qed.
Definition total_length (m : gmap string cell_frame) : Q := sumQ ((fun e => cf_length e.2) <$> map_to_list m).

Lemma total_length_insert m k c : m !! k = None ->
  (total_length (<[k := c]> m) == cf_length c + total_length m)%Q.
Proof. intros H. unfold total_length. rewrite map_to_list_insert by done. done. Qed.
Lemma total_length_replace m k c c0 : m !! k = Some c0 ->
  (total_length (<[k := c]> m) == total_length m + (cf_length c - cf_length c0))%Q.
Proof.
  intros H. rewrite <- insert_delete_eq, total_length_insert by apply lookup_delete_eq.
  rewrite <- (insert_delete_id m k c0 H) at 2. rewrite total_length_insert by apply lookup_delete_eq. ring.
Qed.

(** [_totalCellLength], [_totalCellsMeasured], [_averageCellLength] and
    [_highestMeasuredFrameIndex] describe the frames measured so far. *)
Record measured (s : S) : Prop := {
  ms_total : (totalCellLength s == total_length (frames s))%Q;
  ms_count : totalCellsMeasured s = Z.of_nat (size (frames s));
  ms_average : (0 < size (frames s))%nat ->
    (averageCellLength s == total_length (frames s) / inject_Z (Z.of_nat (size (frames s))))%Q;
  ms_highest k c : frames s !! k = Some c -> cf_index c <= highestMeasuredFrameIndex s
}.

Definition same_measures (s s' : S) : Prop :=
  frames s' = frames s /\ averageCellLength s' = averageCellLength s /\
  totalCellLength s' = totalCellLength s /\ totalCellsMeasured s' = totalCellsMeasured s /\
  highestMeasuredFrameIndex s' = highestMeasuredFrameIndex s.
#[local] Instance same_measures_preorder : PreOrder same_measures.
Proof. split; unfold same_measures; repeat intro; intuition congruence. Qed.
#[local] Hint Resolve same_measures_preorder : js.
Lemma view_measures {A} (m : JS S A) : evolves same_view m -> evolves same_measures m.
Proof. apply evolves_impl. unfold same_view, same_measures. intuition. Qed.
Lemma measures_modify f : (forall s, same_measures s (f s)) -> evolves same_measures (modify f).
Proof. intros H. by apply evolves_modify. Qed.
#[local] Hint Extern 5 (evolves same_measures (modify _)) =>
  apply measures_modify; intros ?; unfold same_measures; split_and!; reflexivity : js.
#[local] Hint Extern 6 (evolves same_measures _) =>
  apply view_measures; solve [auto 2 with js nocore] : js.

Lemma measures_updater u : evolves same_measures (run_updater childHasMore u).
Proof. unfold run_updater. js_auto. Qed.
Lemma measures_commit p : evolves same_measures (commit childHasMore p).
Proof.
  pose proof measures_updater. unfold commit. js_auto.
Qed.
Lemma measures_onEnd : evolves same_measures maybeCallOnEndReached.
Proof. unfold maybeCallOnEndReached. js_auto. Qed.
Lemma measures_scrollTo i a q1 q2 : evolves same_measures (scrollToIndex i a q1 q2).
Proof. unfold scrollToIndex, scrollToOffset. js_auto. Qed.
Lemma measures_children g : evolves same_measures (for_children g).
Proof. unfold for_children. js_auto. Qed.
Lemma measures_remeasure k : evolves same_measures (triggerRemeasureForChildListsInCell k).
Proof. unfold triggerRemeasureForChildListsInCell. js_auto. Qed.
#[local] Hint Resolve measures_updater measures_commit measures_onEnd measures_scrollTo measures_children
  measures_remeasure : js.

Lemma measured_same s s' : same_measures s s' -> measured s -> measured s'.
Proof.
  intros (E1 & E2 & E3 & E4 & E5) [M1 M2 M3 M4]. split; rewrite ?E1, ?E2, ?E3, ?E4, ?E5; done.
Qed.
Lemma same_measures_measured {A} (m : JS S A) : evolves same_measures m -> preserves measured m.
Proof. intros H s Hs. by eapply measured_same; [apply H|]. Qed.

(** Changing [inLayout] of a frame. *)
Lemma measured_mark (b : bool) k s : measured s -> measured (set_frames (alter (fun c =>
  Build_cell_frame (cf_offset c) (cf_length c) (cf_index c) b) k (frames s)) s).
Proof.
  intros [M1 M2 M3 M4]. set (g := fun c => Build_cell_frame (cf_offset c) (cf_length c) (cf_index c) b).
  assert (Ht : (total_length (alter g k (frames s)) == total_length (frames s))%Q /\
    size (alter g k (frames s)) = size (frames s)).
  { destruct (frames s !! k) as [c|] eqn:E; [|by rewrite alter_id by (intros ? ?; congruence)].
    assert (Ha : alter g k (frames s) = <[k := g c]> (frames s)).
    { apply map_eq. intros j. destruct (decide (k = j)) as [<-|];
        [by rewrite lookup_alter_eq, lookup_insert_eq, E|by rewrite lookup_alter_ne, lookup_insert_ne]. }
    rewrite Ha, (total_length_replace _ _ _ c) by done. cbn. split; [ring|]. rewrite map_size_insert, E. done. }
  destruct Ht as [Ht Hs]. split; cbn; fold g.
  - by rewrite Ht.
  - by rewrite Hs.
  - rewrite Hs, Ht. done.
  - intros j c Hj. apply lookup_alter_Some in Hj as [(<- & c0 & Hc & ->)|[_ Hj]]; [exact (M4 k c0 Hc)|exact (M4 j c Hj)].
Qed.

(** A new measurement is stored, with the updates of [_onCellLayout]. *)
Record stored (key : string) (next : cell_frame) (s s' : S) : Prop := {
  st_frames : frames s' = <[key := next]> (frames s);
  st_total : totalCellLength s' =
    (totalCellLength s + (cf_length next - (if frames s !! key is Some c then cf_length c else 0)))%Q;
  st_count : totalCellsMeasured s' = totalCellsMeasured s + (if frames s !! key is Some _ then 0 else 1);
  st_average : averageCellLength s' = (totalCellLength s' / inject_Z (totalCellsMeasured s'))%Q;
  st_highest : highestMeasuredFrameIndex s' = Z.max (highestMeasuredFrameIndex s) (cf_index next)
}.

Lemma measured_store key next s s' : stored key next s s' -> measured s -> measured s'.
Proof.
  intros [E1 E2 E3 E4 E5] [M1 M2 M3 M4].
  assert (H : (total_length (<[key := next]> (frames s)) ==
      totalCellLength s + (cf_length next - (if frames s !! key is Some c then cf_length c else 0)))%Q /\
    totalCellsMeasured s + (if frames s !! key is Some _ then 0 else 1) = Z.of_nat (size (<[key := next]> (frames s)))).
  { rewrite map_size_insert. destruct (frames s !! key) as [c|] eqn:E.
    - rewrite (total_length_replace _ _ _ c), M1 by done. split; [reflexivity|unfold id; lia].
    - rewrite total_length_insert, M1 by done. split; [ring|unfold id; lia]. }
  destruct H as [Ht Hc]. rewrite E2, E3 in E4. split; rewrite ?E1, ?E2, ?E3, ?E4, ?E5.
  - by rewrite Ht.
  - done.
  - intros _. by rewrite Hc, Ht.
  - intros k c Hk. destruct (decide (key = k)) as [<-|];
      [rewrite lookup_insert_eq in Hk; simplify_eq; lia|].
    rewrite lookup_insert_ne in Hk by done. pose proof (M4 _ _ Hk). lia.
Qed.

Lemma measured_onCellUnmount k : preserves measured (onCellUnmount k).
Proof. apply evolves_modify. intros s Hs. by apply measured_mark. Qed.

Lemma measured_changed next key index (k : JS S unit) s :
  evolves same_measures k -> index = cf_index next -> measured s ->
  measured (final
    (do! modify (fun s0 => set_totalCellLength
           (totalCellLength s0 + (cf_length next - (if frames s !! key is Some c then cf_length c else 0)))%Q s0);
     do! modify (fun s0 => set_totalCellsMeasured
           (totalCellsMeasured s0 + (if frames s !! key is Some _ then 0 else 1)) s0);
     do! modify (fun s => set_averageCellLength (totalCellLength s / inject_Z (totalCellsMeasured s))%Q s);
     do! modify (fun s => set_frames (<[key := next]> (frames s)) s);
     do! modify (fun s => set_highestMeasuredFrameIndex (Z.max (highestMeasuredFrameIndex s) index) s);
     k) s).
Proof.
  intros Hk Hi Hs. unfold final. rewrite !bind_modify. apply (same_measures_measured k Hk).
  refine (measured_store key next s _ _ Hs). subst index. split; reflexivity.
Qed.

Lemma measured_onCellLayout layout key index : preserves measured (onCellLayout layout key index).
Proof.
  intros s. unfold onCellLayout. apply evolves_bind_at; [apply _|done|]. intros next s1 [= Hn <-].
  assert (Hi : index = cf_index next) by (by subst next). clear Hn.
  apply evolves_bind_at; [apply _|done|]. intros curr s1 [= <- <-].
  apply evolves_bind_at; [apply _| |intros [] s2 _; apply same_measures_measured; js_auto].
  destruct (match frames s !! key with Some _ => _ | None => _ end); intros Hs.
  - apply measured_changed; [js_auto|done|done].
  - by apply measured_mark.
Qed.

(** The average cell length used for the cells that have not been measured is the
    sum of the lengths of the measured frames divided by their number, through any
    sequence of layouts, scrolls, updates and re-renders; no measured frame lies beyond
    [_highestMeasuredFrameIndex]. *)
Theorem average_describes_frames o : preserves measured (run_op childHasMore o).
Proof.
  destruct o; cbn [run_op]; try (apply same_measures_measured; solve [js_auto]);
    [apply measured_onCellLayout|apply measured_onCellUnmount|..]; apply same_measures_measured; unfold_ops; js_auto.
Qed.
End measurements.

(** ** [onEndReached] *)
Section end_reached.
Context (childHasMore : nat -> bool).
Abbreviation S := vl.

Definition is_end (e : event) : bool := match e with EndReached _ => true | _ => false end.
(** How often [onEndReached] was called. *)
Definition ends (s : S) : nat := length (filter (fun e => is_end e = true) (trace s)).
Definition distanceFromEnd (s : S) : Q := (contentLength (metrics s) - visibleLength (metrics s) - offset (metrics s))%Q.
(** Scrolled away from the end by more than the threshold. *)
Definition scrolled_away (s : S) : bool :=
  Qltb (onEndReachedThreshold (vprops s) * visibleLength (metrics s)) (distanceFromEnd s).

Definition same_ends (s s' : S) : Prop :=
  ends s' = ends s /\ sentEndForContentLength s' = sentEndForContentLength s.
#[local] Instance same_ends_preorder : PreOrder same_ends.
Proof. split; unfold same_ends; repeat intro; intuition congruence. Qed.
Definition same_end_view (s s' : S) : Prop :=
  same_ends s s' /\ metrics s' = metrics s /\ vprops s' = vprops s.
#[local] Instance same_end_view_preorder : PreOrder same_end_view.
Proof. split; unfold same_end_view, same_ends; repeat intro; intuition congruence. Qed.
#[local] Hint Resolve same_ends_preorder same_end_view_preorder : js.

Lemma ends_modify f : (forall s, same_ends s (f s)) -> evolves same_ends (modify f).
Proof. intros H. by apply evolves_modify. Qed.
Lemma end_view_modify f : (forall s, same_end_view s (f s)) -> evolves same_end_view (modify f).
Proof. intros H. by apply evolves_modify. Qed.
#[local] Hint Extern 5 (evolves same_ends (modify _)) => apply ends_modify; intros ?; split; reflexivity : js.
#[local] Hint Extern 5 (evolves same_end_view (modify _)) =>
  apply end_view_modify; intros ?; unfold same_end_view, same_ends; split_and!; reflexivity : js.
Lemma end_view_log e : is_end e = false -> evolves same_end_view (log e).
Proof.
  intros He. apply end_view_modify. intros s. unfold same_end_view, same_ends. split_and!; try done. unfold ends. cbn [trace set_trace].
  rewrite filter_app, (filter_bool_cons is_end), He. by rewrite app_nil_r.
Qed.
#[local] Hint Extern 5 (evolves same_end_view (log _)) => apply end_view_log; reflexivity : js.
#[local] Hint Extern 5 (evolves same_end_view computeBlankness) => apply end_view_log; reflexivity : js.
#[local] Hint Extern 5 (evolves same_end_view (updateViewableItems _)) => apply end_view_log; reflexivity : js.

Lemma end_view_ends {A} (m : JS S A) : evolves same_end_view m -> evolves same_ends m.
Proof. apply evolves_impl. unfold same_end_view. intuition. Qed.
Lemma end_view_schedule : evolves same_end_view scheduleCellsToRenderUpdate.
Proof.
  unfold scheduleCellsToRenderUpdate, getFrameMetricsApprox, getFrameMetrics, dispose, updateCellsToRender,
    schedule, Batchinator.upd. js_auto.
Qed.
Lemma end_view_frame i : evolves same_end_view (getFrameMetricsApprox i).
Proof. unfold getFrameMetricsApprox, getFrameMetrics. js_auto. Qed.
#[local] Hint Resolve end_view_schedule end_view_frame : js.
Lemma end_view_children g : (forall c, is_end (g c) = false) -> evolves same_end_view (for_children g).
Proof. intros H. unfold for_children. js_auto. by apply end_view_log. Qed.
#[local] Hint Extern 5 (evolves same_end_view (for_children _)) => apply end_view_children; reflexivity : js.
Lemma end_view_scrollTo i a q1 q2 : evolves same_end_view (scrollToIndex i a q1 q2).
Proof. unfold scrollToIndex, scrollToOffset. js_auto. Qed.
Lemma end_view_remeasure k : evolves same_end_view (triggerRemeasureForChildListsInCell k).
Proof. unfold triggerRemeasureForChildListsInCell. js_auto. Qed.
Lemma end_view_updateCells : evolves same_end_view updateCellsToRender.
Proof. unfold updateCellsToRender. js_auto. Qed.
Lemma end_view_upd f : evolves same_end_view (Batchinator.upd (Σ:=S) f).
Proof. unfold Batchinator.upd. js_auto. Qed.
#[local] Hint Resolve end_view_scrollTo end_view_remeasure end_view_updateCells end_view_upd : js.
Lemma end_view_pushCells a b : evolves same_end_view (pushCells a b).
Proof. unfold pushCells. js_auto. apply end_view_modify. intros s. unfold register_key. by case_match. Qed.
#[local] Hint Resolve end_view_pushCells : js.
#[local] Hint Extern 6 (evolves same_ends _) => apply end_view_ends; solve [auto 2 with js nocore] : js.
Lemma ends_commit p : evolves same_ends (commit childHasMore p).
Proof.
  unfold commit, run_updater, componentDidUpdate, render, item_cells, lead_cells, tail_cells. js_auto.
Qed.
#[local] Hint Resolve ends_commit : js.

(** What a step can do: nothing to the events, forget the last one because the user
    scrolled away, or send one for a content length it was not sent for. *)
Definition end_step (s s' : S) : Prop :=
  same_ends s s' \/ (ends s' = ends s /\ scrolled_away s' = true) \/
  (ends s' = Datatypes.S (ends s) /\ sentEndForContentLength s' = contentLength (metrics s') /\
   Qeq_bool (contentLength (metrics s')) (sentEndForContentLength s) = false).

Lemma end_step_pre {A B} (m : JS S A) (k : A -> JS S B) :
  evolves same_ends m -> (forall a, evolves end_step (k a)) -> evolves end_step (bind m k).
Proof.
  intros Hm Hk s. specialize (Hm s). unfold final, bind in *.
  destruct (m s) as [[a|e|] s1]; cbn in *; [|by left..]. specialize (Hk a s1). unfold final in Hk.
  destruct Hm as [E1 E2]. unfold end_step, same_ends in *. rewrite E1, E2 in Hk. exact Hk.
Qed.
Lemma end_step_post {A B} (m : JS S A) (k : A -> JS S B) :
  evolves end_step m -> (forall a, evolves same_end_view (k a)) -> evolves end_step (bind m k).
Proof.
  intros Hm Hk s. specialize (Hm s). unfold final, bind in *.
  destruct (m s) as [[a|e|] s1]; cbn in *; [|done..]. specialize (Hk a s1). unfold final in Hk.
  destruct Hk as ([E1 E2] & E3 & E4). unfold end_step, same_ends, scrolled_away, distanceFromEnd in *.
  by rewrite E1, E2, E3, E4.
Qed.
Lemma end_step_same {A} (m : JS S A) : evolves same_ends m -> evolves end_step m.
Proof. apply evolves_impl. by left. Qed.

Lemma end_step_maybe : evolves end_step maybeCallOnEndReached.
Proof.
  intros s. unfold maybeCallOnEndReached, final. rewrite !bind_gets.
  destruct (onEndReached (vprops s) && _ && _ && _) eqn:E.
  - rewrite bind_modify. right; right. unfold ends, log, modify.
    cbn [snd trace set_trace set_sentEndForContentLength]. rewrite filter_app, length_app. cbn.
    rewrite decide_True by done. cbn.
    split_and!; [lia|done|]. apply andb_true_iff in E as [_ E]. by apply negb_true_iff.
  - destruct (Qltb (_ * _) _) eqn:Ef; [right; left; split; [done|exact Ef]|by left].
Qed.

Ltac end_steps :=
  repeat first
    [ exact end_step_maybe
    | simple apply end_step_post; [exact end_step_maybe|intros ?; js_auto]
    | solve [apply end_step_same; js_auto]
    | simple apply end_step_pre; [js_auto|intros ?]
    | progress case_match ].

Lemma end_step_op o : evolves end_step (run_op childHasMore o).
Proof.
  destruct o; cbn [run_op]; try (apply end_step_same; solve [unfold_ops; js_auto]).
  - apply end_step_same. unfold onCellLayout. js_auto.
  - apply end_step_same. unfold onCellUnmount. js_auto.
  - unfold onLayout. end_steps.
  - unfold onContentSizeChange. end_steps.
  - unfold onScroll. end_steps.
  - apply end_step_same. unfold componentWillUnmount, dispose, Batchinator.upd, dispose. js_auto.
Qed.

Definition run (ops : list op) (s : S) : S := foldl (fun s o => final (run_op childHasMore o) s) s ops.

(** C18. [onEndReached] is called at most once for a content length, however often the
    list is laid out, scrolled, updated or re-rendered, as long as the user does not
    scroll away from the end in between; and never again once it was sent for that
    length. *)
Theorem end_reached_once (c : Q) ops s :
  (forall k, (0 < k <= length ops)%nat -> (contentLength (metrics (run (take k ops) s)) == c)%Q /\
     scrolled_away (run (take k ops) s) = false) ->
  (ends (run ops s) <= Datatypes.S (ends s))%nat /\
  ((sentEndForContentLength s == c)%Q -> ends (run ops s) = ends s).
Proof.
  revert s. induction ops as [|o ops IH]; intros s H; [split; [unfold run; cbn [foldl]; lia|done]|].
  change (run (o :: ops) s) with (run ops (final (run_op childHasMore o) s)).
  set (s1 := final (run_op childHasMore o) s).
  destruct (IH s1) as [IH1 IH2].
  { intros k Hk. apply (H (Datatypes.S k)). cbn. lia. }
  destruct (H 1%nat) as [Hc Haway]; [cbn; lia|]. change (run (take 1 (o :: ops)) s) with s1 in Hc, Haway.
  pose proof (end_step_op o s) as Hstep. fold s1 in Hstep.
  destruct Hstep as [[E1 E2]|[[_ Hx]|(E1 & E2 & E3)]]; [|congruence|].
  - rewrite E1 in IH1, IH2. rewrite E2 in IH2. by split.
  - assert (Hsent : (sentEndForContentLength s1 == c)%Q) by (by rewrite E2).
    rewrite (IH2 Hsent). split; [lia|]. intros Hs. exfalso.
    assert (Hq : Qeq_bool (contentLength (metrics s1)) (sentEndForContentLength s) = true)
      by (apply Qeq_bool_iff; by rewrite Hc, Hs). congruence.
Qed.
End end_reached.

(** ** A concrete list: [n] cells of height 10 in a viewport of height 50 *)
Section examples.
Definition no_child (_ : nat) : bool := false.
Definition demo_props (n : nat) : list_props :=
  Build_list_props (Some ((fun i => pretty (Z.of_nat i)) <$> seq 0 n)) (Some rows) false false 21 10 10 None
    true 2 false false false false false [].
Definition demo (n : nat) : vl := final mount (new_VirtualizedList (demo_props n)).
Definition demo_size (h : Q) : rect := Build_rect 0 0 100 h.
Definition laid_out (n : nat) : vl := run no_child [Layout (demo_size 50); ContentSizeChange 100 (inject_Z (10 * Z.of_nat n))] (demo n).


Lemma average_describes_frames_witness :
  let s := final (run_op no_child (CellLayout (Build_rect 0 0 100 10) "0" 0)) (demo 100) in
  measured s /\ size (frames s) = 1%nat /\ (averageCellLength s == 10)%Q.
Proof.
  intros s. split.
  - apply (average_describes_frames no_child (CellLayout (Build_rect 0 0 100 10) "0" 0)). split.
    + vm_compute. reflexivity.
    + vm_compute. reflexivity.
    + intros H. vm_compute in H. lia.
    + intros k c H. vm_compute in H. discriminate H.
  - split; vm_compute; reflexivity.
Defined.

Lemma end_reached_once_witness :
  let ops := [Layout (demo_size 50); ScrollBeginDrag; Layout (demo_size 50)] in
  let s := set_sentEndForContentLength 0 (laid_out 5) in
  (ends (run no_child ops s) <= Datatypes.S (ends s))%nat /\ ends (run no_child ops s) = Datatypes.S (ends s).
Proof.
  intros ops s. split; [|vm_compute; reflexivity].
  apply (end_reached_once no_child 50 ops s). intros k Hk.
  destruct k as [|[|[|[|k]]]]; cbn in Hk; try lia; split; vm_compute; reflexivity.
Defined.
End examples.
