(* ===== verification/VirtualizedListWindow.v ===== *)
(** * The render window of VirtualizedList

    What the steps of VirtualizedList.v do to [state.first] and [state.last]: the
    window stays inside the list ([window_stays_in_list]), and once the list is left
    alone, the batches of the Batchinator grow it to its final extent and stop
    ([window_settles]). *)
From stdpp Require Import base numbers list strings gmap fin_maps pretty.
From Stdlib Require Import QArith Lqa.
From S2P Require Import Prelude Rationals VirtualizeUtils Batchinator VirtualizedList.
Open Scope Z_scope.

(** ** The window lies inside the list *)
Section window_invariant.
Context (childHasMore : nat -> bool).
Abbreviation S := vl.

Record window_wf (s : S) : Prop := {
  ww_order : 0 <= vfirst s <= vlast s;
  ww_last : vlast s <= Z.max 0 (itemCount s - 1);
  ww_first : vfirst s <= Z.max 0 (itemCount s - 1 - maxToRenderPerBatch (vprops s));
  ww_selected : 0 <= selectedRowIndex s <= itemCount s
}.
(** Before [getDerivedStateFromProps] cuts it. *)
Definition window_pre (s : S) : Prop := 0 <= vfirst s <= Z.max 0 (vlast s).

Lemma itemCount_nonneg s : 0 <= itemCount s.
Proof. unfold itemCount. lia. Qed.

Lemma derived_wf s : 0 <= maxToRenderPerBatch (vprops s) -> window_pre s ->
  window_wf (getDerivedStateFromProps s).
Proof.
  intros Hm Hp. unfold window_pre in Hp. pose proof (itemCount_nonneg s).
  split; cbn; change (itemCount (getDerivedStateFromProps s)) with (itemCount s); lia.
Qed.

Lemma limits_ordered f max ws prev n m r : 0 <= max -> 0 <= n -> (0 < n \/ 0 <= first prev <= Z.max 0 (last prev)) ->
  computeWindowedRenderLimits f max ws prev n m = Ret r -> 0 <= first r <= Z.max 0 (last r).
Proof.
  intros Hm Hn Hp. unfold computeWindowedRenderLimits. destruct (Z.eqb_spec n 0) as [->|]; [intros [= <-]; lia|].
  destruct (Qltb _ _); [intros [= <-]; cbn; lia|].
  destruct (elementsThatOverlapOffsets _ _ _); [|done..]. destruct (boundaries _ _ _) as [ov vi].
  destruct (grow _ _ _ _ _) as [w|]; [|done].
  destruct (window_ok _ _ _ _) eqn:E; [|done]. intros [= <-]. unfold window_ok in E. cbn in *. lia.
Qed.

Lemma limit_to_children_ordered s r : 0 <= first r <= Z.max 0 (last r) ->
  0 <= first (limit_to_children childHasMore s r) <= Z.max 0 (last (limit_to_children childHasMore s r)).
Proof.
  intros Hr. unfold limit_to_children. destruct (0 <? _)%nat; [|done].
  destruct (head _) as [ii|] eqn:E; [|done]. apply head_Some_elem_of, list_elem_of_filter in E as [_ E].
  apply elem_of_seqZ in E. cbn. lia.
Qed.

(** The updater returns the computed window unless the state already is that window. *)
Definition finish (s : S) (q : range) : result (option range) :=
  let r := limit_to_children childHasMore s q in
  Ret (if (first r =? vfirst s) && (last r =? vlast s) then None else Some r).
Lemma next_window_eq s disabled threshold n : next_window childHasMore s disabled threshold n =
  let m := metrics s in
  let p := vprops s in
  if disabled then
    let ahead := if Qltb (contentLength m - visibleLength m - offset m) (threshold * visibleLength m)
                 then maxToRenderPerBatch p else 0 in
    finish s (Build_range 0 (Z.min (vlast s + ahead) (n - 1)))
  else if Qltb 0 (visibleLength m) && Qltb 0 (contentLength m) &&
          (negb (scrolls_initially p) || negb (Qeq_bool (offset m) 0)) then
    match computeWindowedRenderLimits (frameMetricsApprox s) (maxToRenderPerBatch p) (windowSize p)
            (Build_range (vfirst s) (vlast s)) (itemCount s) (window_metrics m) with
    | Ret r => finish s r
    | Throw e => Throw e
    | OutOfFuel => OutOfFuel
    end
  else Ret None.
Proof. done. Qed.

Lemma next_window_ordered s d th n r : 0 <= maxToRenderPerBatch (vprops s) -> window_pre s ->
  next_window childHasMore s d th n = Ret (Some r) -> 0 <= first r <= Z.max 0 (last r).
Proof.
  intros Hm Hp. rewrite next_window_eq. cbv zeta.
  assert (Hfin : forall q, 0 <= first q <= Z.max 0 (last q) -> finish s q = Ret (Some r) ->
    0 <= first r <= Z.max 0 (last r)).
  { intros q Hq. pose proof (limit_to_children_ordered s q Hq). unfold finish. destruct (_ && _); intros [= <-]; done. }
  destruct d; [apply Hfin; cbn; lia|]. destruct (_ && _); [|done].
  destruct (computeWindowedRenderLimits _ _ _ _ _ _) as [q|e|] eqn:E; [|done..]. apply Hfin.
  eapply limits_ordered; [..|exact E]; [done|apply itemCount_nonneg|by right].
Qed.

Definition keeps_pre (s s' : S) : Prop :=
  vprops s' = vprops s /\ (0 <= maxToRenderPerBatch (vprops s) -> window_pre s -> window_pre s').
#[local] Instance keeps_pre_preorder : PreOrder keeps_pre.
Proof. split; unfold keeps_pre; repeat intro; [tauto|]. destruct H, H0. split; [congruence|]. rewrite H in *. tauto. Qed.

Lemma updater_pre u : evolves keeps_pre (run_updater childHasMore u).
Proof.
  intros s. destruct u as [d th n|row]; unfold run_updater; cbn; [|by split].
  unfold final, bind, gets. destruct (next_window _ _ _ _ _) as [[r|]|e|] eqn:E; cbn; [|by split..].
  split; [done|]. intros Hm Hp. by apply (next_window_ordered _ _ _ _ _ Hm Hp) in E.
Qed.

(** ** The steps that do not commit leave the window alone *)
Definition same_state (s s' : S) : Prop := vprops s' = vprops s /\ react_state s' = react_state s.
#[local] Instance same_state_preorder : PreOrder same_state.
Proof. split; unfold same_state; repeat intro; intuition congruence. Qed.
#[local] Hint Resolve same_state_preorder : js.
Lemma state_modify f : (forall s, same_state s (f s)) -> evolves same_state (modify f).
Proof. intros H. by apply evolves_modify. Qed.
#[local] Hint Extern 5 (evolves same_state (modify _)) => apply state_modify; intros ?; by split : js.
Lemma state_view {A} (m : JS S A) : evolves same_view m -> evolves same_state m.
Proof. apply evolves_impl. unfold same_view. by intros s s' (H1 & H2 & _). Qed.
#[local] Hint Extern 6 (evolves same_state _) => apply state_view; solve [auto 2 with js nocore] : js.
Lemma state_onEnd : evolves same_state maybeCallOnEndReached.
Proof. unfold maybeCallOnEndReached. js_auto. Qed.
Lemma state_scrollTo i a q1 q2 : evolves same_state (scrollToIndex i a q1 q2).
Proof. unfold scrollToIndex, scrollToOffset. js_auto. Qed.
Lemma state_children g : evolves same_state (for_children g).
Proof. unfold for_children. js_auto. Qed.
Lemma state_remeasure k : evolves same_state (triggerRemeasureForChildListsInCell k).
Proof. unfold triggerRemeasureForChildListsInCell. js_auto. Qed.
#[local] Hint Resolve state_onEnd state_scrollTo state_children state_remeasure : js.

Definition commits (o : op) : bool := match o with ReactCommit | NewProps _ _ => true | _ => false end.
Lemma state_op o : commits o = false -> evolves same_state (run_op childHasMore o).
Proof. destruct o; try done; intros _; cbn [run_op]; unfold onCellLayout, onCellUnmount; unfold_ops; js_auto. Qed.

Lemma window_of_state s s' : same_state s s' -> window_wf s -> window_wf s'.
Proof.
  intros [Ep Er] [W1 W2 W3 W4]. assert (En : itemCount s' = itemCount s) by (unfold itemCount; by rewrite Ep).
  unfold react_state in Er. injection Er as Ef El Es. split; rewrite ?Ef, ?El, ?Es, ?En, ?Ep; done.
Qed.

Lemma commit_props np s s' : commit childHasMore np s = (Ret tt, s') ->
  vprops s' = match np with Some (p, _) => p | None => vprops s end.
Proof.
  unfold commit. rewrite bind_gets. intros (? & s1 & E1 & H)%bind_Ret_inv.
  assert (H1 : vprops s1 = match np with Some (p, _) => p | None => vprops s end)
    by (destruct np as [[]|]; by injection E1 as _ <-).
  rewrite bind_gets, bind_modify in H. apply bind_Ret_inv in H as (? & s3 & E3 & H).
  destruct (evolves_of keeps_pre _ _ _ _ (evolves_for_each _ _ _ updater_pre) E3) as [Ep3 _].
  rewrite bind_modify, bind_gets in H. rewrite <- H1. change (vprops s1) with (vprops (set_updates [] s1)).
  rewrite <- Ep3. revert H. destruct (_ || _); [|by intros [= <-]]. intros (? & s4 & E4 & H)%bind_Ret_inv.
  destruct (evolves_of same_view _ _ _ _ view_render E4) as (_ & P4 & _).
  destruct (evolves_of same_view _ _ _ _ (view_didUpdate _) H) as (_ & P5 & _). by rewrite P5, P4.
Qed.

Lemma window_commit np s s' : window_wf s -> commit childHasMore np s = (Ret tt, s') ->
  0 <= maxToRenderPerBatch (vprops s') -> window_wf s'.
Proof.
  intros [W1 _ _ _]. unfold commit. rewrite bind_gets.
  set (s1 := if np is Some (p, _) then set_vprops p s else s).
  assert (Hrun : (match np with Some (p, _) => modify (set_vprops p) | None => ret tt end) s = (Ret tt, s1))
    by (unfold s1; by destruct np as [[]|]).
  rewrite (bind_of _ _ _ _ _ Hrun), bind_gets, bind_modify.
  set (s2 := set_updates [] s1). assert (P2 : window_pre s2).
  { unfold window_pre, s2, s1. destruct np as [[]|]; cbn; lia. }
  intros (? & s3 & E3 & H)%bind_Ret_inv.
  destruct (evolves_of keeps_pre _ _ _ _ (evolves_for_each _ _ _ updater_pre) E3) as [Ep3 P3].
  rewrite bind_modify, bind_gets in H.
  assert (Hv : same_view (getDerivedStateFromProps s3) s').
  { revert H. destruct (_ || _); [|by intros [= <-]]. intros (? & s4 & E4 & H)%bind_Ret_inv.
    transitivity s4; eapply evolves_of; [apply view_render|done|apply view_didUpdate|done]. }
  intros Hm. assert (Em : vprops s' = vprops s2) by (destruct Hv as (_ & Ep & _); by rewrite Ep, <- Ep3).
  rewrite Em in Hm. apply (window_of_state (getDerivedStateFromProps s3)).
  - destruct Hv as (Hr & Hp & _). by split.
  - apply derived_wf; [by rewrite Ep3|by apply P3].
Qed.

Lemma mount_window p s : 0 <= maxToRenderPerBatch p -> 1 <= initialNumToRender p ->
  0 <= default 0 (initialScrollIndex p) -> mount (new_VirtualizedList p) = (Ret tt, s) -> window_wf s.
Proof.
  intros Hm Hi Hs. unfold mount. rewrite bind_gets. intros (? & s1 & E1 & H)%bind_Ret_inv.
  assert (s1 = new_VirtualizedList p) as ->.
  { revert E1. unfold invariant. destruct (Qltb _ _); [by intros [= _ <-]|done]. }
  clear E1. rewrite bind_modify in H. apply bind_Ret_inv in H as (c & s2 & E2 & H). injection H as <-.
  set (s1 := getDerivedStateFromProps _) in E2.
  assert (W : window_wf s1).
  { subst s1. split; cbn; unfold itemCount; cbn; lia. }
  apply (window_of_state s2); [by split|].
  eapply window_of_state; [|exact W]. eapply evolves_of; [apply state_view, view_render|exact E2].
Qed.

End window_invariant.

(** ** The window settles *)
Section settling.
Context (childHasMore : nat -> bool).
Abbreviation S := vl.

(** What the window is computed from. *)
Definition same_layout (s s' : S) : Prop :=
  vprops s' = vprops s /\ frames s' = frames s /\ averageCellLength s' = averageCellLength s /\
  metrics s' = metrics s /\ nestedChildLists s' = nestedChildLists s /\ selectedRowIndex s' = selectedRowIndex s.
#[local] Instance same_layout_preorder : PreOrder same_layout.
Proof. split; unfold same_layout; repeat intro; intuition congruence. Qed.
Lemma layout_view s s' : same_view s s' -> same_layout s s'.
Proof. unfold same_view, same_layout, react_state. intros. intuition congruence. Qed.
Lemma layout_count s s' : same_layout s s' -> itemCount s' = itemCount s.
Proof. intros (Hp & _). unfold itemCount. by rewrite Hp. Qed.
Lemma layout_approx s s' : same_layout s s' -> frameMetricsApprox s' = frameMetricsApprox s.
Proof.
  intros (Hp & Hf & Ha & _). unfold frameMetricsApprox, frameMetrics, item_key. by rewrite Hp, Hf, Ha.
Qed.

(** The list is laid out, and is not scrolled past its end. *)
Record settled (s : S) : Prop := {
  se_items : is_Some (data (vprops s)) /\ 0 < itemCount s;
  se_virtual : disableVirtualization (vprops s) = false;
  se_children : nestedChildLists s = ∅;
  se_lengths : Qltb 0 (visibleLength (metrics s)) = true /\ Qltb 0 (contentLength (metrics s)) = true;
  se_scrolled : scrolls_initially (vprops s) = false \/ Qeq_bool (offset (metrics s)) 0 = false;
  se_size : (1 <= windowSize (vprops s))%Q;
  se_batch : 1 <= maxToRenderPerBatch (vprops s);
  se_near : Qltb (f_offset (frameMetricsApprox s (itemCount s - 1)))
              (overscanBegin (windowSize (vprops s)) (window_metrics (metrics s))) = false
}.
Lemma settled_layout s s' : same_layout s s' -> settled s -> settled s'.
Proof.
  intros Hl [H1 H2 H3 H4 H5 H6 H7 H8].
  pose proof (layout_count _ _ Hl) as En. pose proof (layout_approx _ _ Hl) as Ef.
  destruct Hl as (Hp & _ & _ & Hm & Hc & _). split; rewrite ?Hp, ?Hm, ?Hc, ?En, ?Ef; done.
Qed.

Definition window_of (s : S) : range := Build_range (vfirst s) (vlast s).
Definition clamp (s : S) (r : range) : range :=
  Build_range (Z.max 0 (Z.min (first r) (itemCount s - 1 - maxToRenderPerBatch (vprops s))))
    (Z.max 0 (Z.min (last r) (itemCount s - 1))).
(** The cells of the overscan range and the visible ones. *)
Definition bounds (s : S) : range * range :=
  let m := window_metrics (metrics s) in
  let ws := windowSize (vprops s) in
  boundaries (maxToRenderPerBatch (vprops s)) (itemCount s)
    ((fun o => first_reaching (frameMetricsApprox s) (seqZ 0 (itemCount s)) o) <$>
       [overscanBegin ws m; visibleBegin m; visibleEnd m; overscanEnd ws m]).
(** The final extent of the window. *)
Definition target (s : S) : range := clamp s (fst (bounds s)).
(** The window one update computes. *)
Definition advance (s : S) (w : range) : range :=
  match computeWindowedRenderLimits (frameMetricsApprox s) (maxToRenderPerBatch (vprops s)) (windowSize (vprops s))
          w (itemCount s) (window_metrics (metrics s)) with
  | Ret r => r
  | _ => w
  end.

Lemma layout_bounds s s' : same_layout s s' -> bounds s' = bounds s /\ clamp s' = clamp s /\ advance s' = advance s.
Proof.
  intros Hl. pose proof (layout_count _ _ Hl) as En. pose proof (layout_approx _ _ Hl) as Ef.
  destruct Hl as (Hp & _ & _ & Hm & _). unfold bounds, clamp, advance. by rewrite En, Ef, Hp, Hm.
Qed.

(** What [limits_spec] and [limits_progress] say of an update. *)
Lemma advance_spec s w : settled s -> let ov := fst (bounds s) in let vi := snd (bounds s) in
  computeWindowedRenderLimits (frameMetricsApprox s) (maxToRenderPerBatch (vprops s)) (windowSize (vprops s))
    w (itemCount s) (window_metrics (metrics s)) = Ret (advance s w) /\
  0 <= first ov <= first (advance s w) /\ first (advance s w) <= first vi /\ first vi <= last vi /\
  last vi <= last (advance s w) /\ last (advance s w) <= last ov /\ last ov < itemCount s /\
  (first w <= first vi -> last vi <= last w ->
   missing ov (advance s w) = 0 \/ missing ov (advance s w) <= missing ov w - maxToRenderPerBatch (vprops s)).
Proof.
  intros [[_ Hn] _ _ [Hv _] _ Hs Hb Hnear]. cbv zeta.
  assert (Hvis : (0 <= sm_visibleLength (window_metrics (metrics s)))%Q).
  { apply Qltb_true in Hv. by apply Qlt_le_weak. }
  set (f := frameMetricsApprox s) in *. set (max := maxToRenderPerBatch (vprops s)) in *.
  set (ws := windowSize (vprops s)) in *. set (m := window_metrics (metrics s)) in *.
  assert (En : itemCount s = Z.of_nat (Z.to_nat (itemCount s))) by lia.
  unfold bounds, advance. fold f max ws m. rewrite En in *. set (n := Z.to_nat (itemCount s)) in *.
  assert (Hn' : (0 < n)%nat) by lia.
  destruct (limits_spec f max ws w n m Hb Hs Hvis Hn' Hnear) as (r & E & H1 & H2 & _). rewrite E.
  destruct (boundaries_ordered f max ws n m Hb Hs Hvis Hn') as (B1 & B2 & B3).
  cbn in *. split_and!; try done; try lia.
  intros Hw1 Hw2. by apply (limits_progress f max ws w n m Hb Hs Hvis r Hn' Hnear).
Qed.

(** One update, after [getDerivedStateFromProps]. *)
Definition update (s : S) (w : range) : range := clamp s (advance s w).
Definition covers (s : S) (w : range) : Prop :=
  first w <= first (snd (bounds s)) /\ last (snd (bounds s)) <= last w.
Abbreviation left_out s w := (missing (fst (bounds s)) w).

Lemma layout_update s s' : same_layout s s' -> update s' = update s /\ target s' = target s.
Proof.
  intros Hl. destruct (layout_bounds _ _ Hl) as (Hb & Hc & Ha). unfold update, target. by rewrite Hb, Hc, Ha.
Qed.
Lemma update_covers s w : settled s -> covers s (update s w).
Proof.
  intros Hs. destruct (advance_spec s w Hs) as (_ & H). cbv zeta in H.
  unfold covers, update, clamp. cbn [first last]. lia.
Qed.
Lemma update_progress s w : settled s -> covers s w ->
  update s w = target s \/ left_out s (update s w) <= left_out s w - maxToRenderPerBatch (vprops s).
Proof.
  intros Hs [H1 H2]. destruct (advance_spec s w Hs) as (_ & B1 & B2 & B3 & B4 & B5 & B6 & H).
  destruct (H H1 H2) as [H'|H']; clear H; [left|right]; revert H'; unfold update, target, missing, clamp; cbn [first last].
  - intros H. by replace (first (advance s w)) with (first (fst (bounds s))) by lia;
      replace (last (advance s w)) with (last (fst (bounds s))) by lia.
  - lia.
Qed.
Lemma target_covers s : settled s -> covers s (target s) /\ left_out s (target s) = 0.
Proof.
  intros Hs. destruct (advance_spec s (target s) Hs) as (_ & H). cbv zeta in H.
  unfold covers, missing, target, clamp in *. cbn [first last] in *. lia.
Qed.
Lemma left_out_nonneg s w : 0 <= left_out s w.
Proof. unfold missing. lia. Qed.
Lemma update_target s : settled s -> update s (target s) = target s.
Proof.
  intros Hs. destruct (target_covers s Hs) as [Hc H0]. destruct (update_progress s _ Hs Hc) as [H|H]; [done|].
  pose proof (left_out_nonneg s (update s (target s))). pose proof (se_batch _ Hs). lia.
Qed.
(** A window that an update keeps is the final one. *)
Lemma fixpoint_target s w : settled s -> covers s w -> update s w = w -> w = target s.
Proof.
  intros Hs Hc H. destruct (update_progress s w Hs Hc) as [Ht|Ht]; [congruence|].
  rewrite H in Ht. pose proof (se_batch _ Hs). lia.
Qed.

(** ** The code reaches it *)
Definition same_host (s s' : S) : Prop :=
  updates s' = updates s /\ batcher s' = batcher s /\ hiPriInProgress s' = hiPriInProgress s.
#[local] Instance same_host_preorder : PreOrder same_host.
Proof. split; unfold same_host; repeat intro; intuition congruence. Qed.
#[local] Hint Resolve same_host_preorder : js.
Lemma host_modify f : (forall s, same_host s (f s)) -> evolves same_host (modify f).
Proof. intros H. by apply evolves_modify. Qed.
#[local] Hint Extern 5 (evolves same_host (modify _)) =>
  apply host_modify; intros ?; unfold same_host; split_and!; reflexivity : js.
Lemma host_log e : evolves same_host (log e).
Proof. unfold log. js_auto. Qed.
#[local] Hint Resolve host_log : js.
Lemma host_frame i : evolves same_host (getFrameMetricsApprox i).
Proof. unfold getFrameMetricsApprox, getFrameMetrics. js_auto. Qed.
#[local] Hint Resolve host_frame : js.
Lemma host_pushCells a b : evolves same_host (pushCells a b).
Proof. unfold pushCells. js_auto. apply host_modify. intros s. unfold register_key. by case_match. Qed.
#[local] Hint Resolve host_pushCells : js.
Lemma host_render : evolves same_host render.
Proof. unfold render, item_cells, lead_cells, tail_cells. js_auto. Qed.

(** The updater queued for the current props. *)
Definition queued (s : S) : updater :=
  UpdateCells (disableVirtualization (vprops s)) (onEndReachedThreshold (vprops s)) (itemCount s).
Lemma updateCells_run s : is_Some (data (vprops s)) ->
  exists s', updateCellsToRender s = (Ret tt, s') /\ same_view s s' /\ batcher s' = batcher s /\
    hiPriInProgress s' = hiPriInProgress s /\ updates s' = updates s ++ [queued s].
Proof.
  intros [d Hd]. unfold updateCellsToRender, updateViewableItems, log. rewrite bind_gets, bind_modify, bind_gets.
  cbn [vprops set_trace]. rewrite Hd. eexists. split; [done|]. split_and!; done.
Qed.

(** What [scheduleCellsToRenderUpdate] does: arms the batcher, or disposes it and queues
    the update at once. *)
Definition scheduled (s s' : S) : Prop :=
  updates s' = updates s /\ pending s' = true /\ hiPriInProgress s' = hiPriInProgress s.
Definition hurried (s s' : S) : Prop :=
  updates s' = updates s ++ [queued s] /\ pending s' = false /\
  hiPriInProgress s = false /\ hiPriInProgress s' = true.

Lemma batcher_wf s s' : batcher s' = batcher s -> wf s -> wf s'.
Proof. unfold wf. cbn. by intros ->. Qed.
Lemma batcher_pending s s' : batcher s' = batcher s -> pending s' = pending s.
Proof. unfold pending. cbn. by intros ->. Qed.

Lemma hurry_run s : wf s -> is_Some (data (vprops s)) -> hiPriInProgress s = false ->
  exists s', (do! modify (set_hiPriInProgress true); do! dispose updateCellsToRender true; updateCellsToRender) s
    = (Ret tt, s') /\ wf s' /\ hurried s s'.
Proof.
  intros Hw Hd Hp. rewrite bind_modify. set (s1 := set_hiPriInProgress true s).
  destruct (dispose_abort updateCellsToRender s1 (batcher_wf s s1 eq_refl Hw)) as (b & E & Hb1 & Hb2 & Hb3). rewrite (bind_of _ _ _ _ _ E).
  cbn [bt_set vl_batcher] in *.
  destruct (updateCells_run (set_batcher b s1) Hd) as (s2 & E2 & _ & Eb & Eh & Eu). exists s2. split; [done|].
  unfold wf, wf_bt, hurried, pending. cbn [bt_get vl_batcher]. rewrite Eb. cbn. rewrite Hb1, Hb2, Hb3. by split_and!.
Qed.
Lemma wait_run s : wf s -> exists s', schedule s = (Ret tt, s') /\ wf s' /\ scheduled s s'.
Proof.
  intros Hw. pose proof (wf_schedule s Hw) as Hw'. pose proof (pending_schedule s) as Hp. unfold final in *.
  rewrite schedule_run in *. cbn [snd] in *. eexists. split; [done|]. split; [done|].
  unfold scheduled. destruct (pending s); by split_and!.
Qed.

Lemma scheduleCells_run s : window_wf s -> 0 < itemCount s -> wf s -> is_Some (data (vprops s)) ->
  exists s', scheduleCellsToRenderUpdate s = (Ret tt, s') /\ same_view s s' /\ wf s' /\ (scheduled s s' \/ hurried s s').
Proof.
  intros [W1 W2 _ _] Hn Hw Hd.
  enough (exists s', scheduleCellsToRenderUpdate s = (Ret tt, s') /\ wf s' /\ (scheduled s s' \/ hurried s s')) as
    (s' & E & H).
  { exists s'. split; [done|]. split; [|done]. exact (evolves_of same_view _ _ _ _ view_scheduleCells E). }
  unfold scheduleCellsToRenderUpdate. rewrite !bind_gets.
  set (threshold := (_ / 2)%Q).
  assert (E1 : exists b, (if 0 <? vfirst s then let! fr := getFrameMetricsApprox (vfirst s) in ret (near_start fr threshold (metrics s))
    else ret false) s = (Ret b, s)).
  { destruct (0 <? vfirst s); [|by eexists].
    rewrite (bind_of _ _ _ _ _ (getFrameMetricsApprox_run (vfirst s) s ltac:(lia))). by eexists. }
  destruct E1 as [b1 E1]. rewrite (bind_of _ _ _ _ _ E1).
  assert (E2 : exists b, (if vlast s <? itemCount s - 1 then
      let! fr := getFrameMetricsApprox (vlast s) in ret (b1 || near_end fr threshold (metrics s))
    else ret b1) s = (Ret b, s)).
  { destruct (Z.ltb_spec (vlast s) (itemCount s - 1)); [|by eexists].
    rewrite (bind_of _ _ _ _ _ (getFrameMetricsApprox_run (vlast s) s ltac:(lia))). by eexists. }
  destruct E2 as [b2 E2]. rewrite (bind_of _ _ _ _ _ E2), !bind_gets.
  destruct (b2 && _ && _) eqn:Eb.
  - apply andb_true_iff in Eb as [_ Eh]. apply negb_true_iff in Eh.
    destruct (hurry_run s Hw Hd Eh) as (s' & E & H1 & H2). exists s'. auto.
  - destruct (wait_run s Hw) as (s' & E & H1 & H2). exists s'. auto.
Qed.

(** [componentDidUpdate] ends a high-priority update. *)
Lemma didUpdate_run s : window_wf s -> 0 < itemCount s -> wf s -> is_Some (data (vprops s)) -> updates s = [] ->
  exists s', componentDidUpdate false s = (Ret tt, s') /\ same_view s s' /\ wf s' /\
    ((updates s' = [] /\ pending s' = true) \/
     (updates s' = [queued s] /\ pending s' = false /\ hiPriInProgress s = false /\ hiPriInProgress s' = true)).
Proof.
  intros Hww Hn Hw Hd Hu. unfold componentDidUpdate. cbn [when]. rewrite bind_ret, bind_gets.
  destruct (scheduleCells_run s Hww Hn Hw Hd) as (s1 & E & Hv & Hw1 & H). rewrite (bind_of _ _ _ _ _ E).
  destruct (hiPriInProgress s) eqn:Eh; cbn [when].
  - exists (set_hiPriInProgress false s1). split; [done|]. split_and!; [done|done|].
    destruct H as [(H1 & H2 & _)|(_ & _ & H & _)]; [|congruence]. left. rewrite <- H2. by rewrite <- Hu, <- H1.
  - exists s1. split; [done|]. split_and!; [done|done|].
    destruct H as [(H1 & H2 & _)|(H1 & H2 & _ & H3)]; [left|right]; rewrite H1, Hu; by split_and!.
Qed.

(** ** One commit *)
Lemma next_window_settled s th n : settled s ->
  next_window childHasMore s false th n =
    let r := advance s (window_of s) in
    Ret (if (first r =? vfirst s) && (last r =? vlast s) then None else Some r).
Proof.
  intros Hs. destruct (advance_spec s (window_of s) Hs) as (E & _). rewrite next_window_eq. cbv zeta.
  destruct Hs as [_ _ Hc [-> ->] Ho _ _ _].
  replace (negb (scrolls_initially (vprops s)) || negb (Qeq_bool (offset (metrics s)) 0)) with true
    by (destruct Ho as [-> | ->]; [done|by rewrite orb_true_r]).
  cbn [andb]. unfold window_of in E. rewrite E. unfold finish, limit_to_children. by rewrite Hc.
Qed.

(** The state when React has run the updater and [getDerivedStateFromProps]. *)
Definition updated (s s' : S) : Prop :=
  same_layout s s' /\ same_host (set_updates [] s) s' /\ window_of s' = update s (window_of s).
Lemma updater_run s th n : settled s -> window_wf s -> exists s',
  run_updater childHasMore (UpdateCells false th n) (set_updates [] s) = (Ret tt, s') /\
  updated s (getDerivedStateFromProps s').
Proof.
  intros Hs [_ _ _ W]. unfold run_updater. rewrite bind_gets.
  assert (Hs1 : settled (set_updates [] s)) by (by apply (settled_layout s)).
  rewrite (next_window_settled _ th n Hs1). cbv zeta.
  change (advance (set_updates [] s) (window_of (set_updates [] s))) with (advance s (window_of s)).
  set (r := advance s (window_of s)). cbn [vfirst vlast set_updates].
  assert (Hsel : Z.max 0 (Z.min (selectedRowIndex s) (itemCount s)) = selectedRowIndex s) by lia.
  destruct (_ && _) eqn:E; eexists; (split; [done|]); (split; [|split]);
    try (unfold same_host; split_and!; reflexivity);
    try (unfold same_layout; split_and!; try reflexivity; exact Hsel).
  - apply andb_true_iff in E as [E1%Z.eqb_eq E2%Z.eqb_eq]. unfold update, clamp. fold r. rewrite E1, E2. reflexivity.
  - reflexivity.
Qed.

Lemma state_of_window s s' : same_layout s s' ->
  react_state s <> react_state s' <-> window_of s' <> window_of s.
Proof.
  intros (_ & _ & _ & _ & _ & Hsel). unfold react_state, window_of. rewrite Hsel.
  split; intros H E; apply H; [injection E as -> ->|injection E as <- <-]; done.
Qed.

#[local] Instance range_eq_dec : EqDecision range.
Proof. solve_decision. Defined.
Record committed (s s' : S) : Prop := {
  co_layout : same_layout s s';
  co_wf : window_wf s' /\ wf s';
  co_window : window_of s' = update s (window_of s);
  co_host :
    if decide (update s (window_of s) = window_of s) then updates s' = [] /\ pending s' = pending s
    else (updates s' = [] /\ pending s' = true) \/
         (updates s' = [queued s] /\ pending s' = false /\ hiPriInProgress s = false /\ hiPriInProgress s' = true)
}.

Lemma update_wf s s' w : settled s -> window_wf s -> same_layout s s' -> window_of s' = update s w -> window_wf s'.
Proof.
  intros Hs [_ _ _ W] Hl Hwin. destruct (advance_spec s w Hs) as (_ & H). cbv zeta in H.
  pose proof (se_batch _ Hs). pose proof (layout_count _ _ Hl) as En. destruct Hl as (Hp & _ & _ & _ & _ & Hsel).
  unfold window_of, update, clamp in Hwin. injection Hwin as Ef El. split; rewrite ?Ef, ?El, ?En, ?Hsel, ?Hp; lia.
Qed.

Lemma commit_run s th n : settled s -> window_wf s -> wf s -> updates s = [UpdateCells false th n] ->
  exists s', commit childHasMore None s = (Ret tt, s') /\ committed s s'.
Proof.
  intros Hs Hww Hw Hu. unfold commit. rewrite !bind_gets, bind_ret, bind_gets, bind_modify, Hu. cbn [for_each].
  destruct (updater_run s th n Hs Hww) as (s1 & E1 & Hl & Hh & Hwin).
  rewrite bind_assoc, (bind_of _ _ _ _ _ E1), bind_ret, bind_modify, bind_gets.
  set (s2 := getDerivedStateFromProps s1) in *.
  pose proof (state_of_window s s2 Hl) as Hst. rewrite Hwin in Hst.
  pose proof (update_wf _ _ _ Hs Hww Hl Hwin) as Hww2.
  rewrite (bool_decide_false (is_Some None)) by (by intros [? ?]). cbn [orb].
  destruct Hh as (Hu2 & Hb2 & Hp2). pose proof (batcher_wf _ _ Hb2 Hw) as Hw2.
  case_bool_decide as Hne.
  2: { exists s2. split; [done|]. split; [done|done|done|]. rewrite decide_True.
       - split; [done|by apply batcher_pending].
       - destruct (decide (update s (window_of s) = window_of s)) as [|Hx]; [done|]. by apply Hst in Hx. }
  apply Hst in Hne. pose proof (layout_count _ _ Hl) as En. destruct (se_items _ Hs) as [Hd Hn].
  pose proof Hl as (Hp & _).
  destruct (render_returns s2) as (c & s3 & E3 & V3).
  { intros _. destruct Hww2. lia. }
  rewrite (bind_of _ _ _ _ _ E3). destruct (evolves_of same_host _ _ _ _ host_render E3) as (Hu3 & Hb3 & Hp3).
  assert (Hww3 : window_wf s3) by (apply (window_of_state s2); [by destruct V3 as (? & ? & _)|done]).
  pose proof (view_itemCount _ _ V3) as En3. pose proof V3 as (_ & Ep3 & _).
  destruct (didUpdate_run s3 Hww3 ltac:(lia) (batcher_wf _ _ Hb3 Hw2)) as (s4 & E4 & V4 & Hw4 & H4).
  { by rewrite Ep3, Hp. }
  { by rewrite Hu3, Hu2. }
  assert (V : same_view s2 s4) by (by transitivity s3).
  exists s4. split; [done|]. split.
  - transitivity s2; [done|]. by apply layout_view.
  - split; [|done]. apply (window_of_state s2); [by destruct V as (? & ? & _)|done].
  - destruct (view_window _ _ V) as [Ef El]. unfold window_of in *. by rewrite Ef, El.
  - rewrite decide_False by done. rewrite Hp3, Hp2 in H4. replace (queued s) with (queued s3); [exact H4|].
    unfold queued. by rewrite Ep3, Hp, En3, En.
Qed.

(** ** One turn of the host: the pending timer or task, then React *)
Definition fire_timer : JS S unit :=
  let! h := gets (fun s => taskHandle (batcher s)) in
  match h with Some (TimeoutHandle t) => timeout_fires t | _ => ret tt end.
Definition run_task : JS S unit :=
  let! h := gets (fun s => taskHandle (batcher s)) in
  match h with Some (InteractionHandle k) => task_runs updateCellsToRender k | _ => ret tt end.
Definition turn : JS S unit := do! fire_timer; do! run_task; flush childHasMore 2.
Fixpoint turns (k : nat) : JS S unit :=
  match k with O => ret tt | Datatypes.S k' => do! turn; turns k' end.

Definition due (s s' : S) : Prop :=
  same_view s s' /\ wf s' /\ pending s' = false /\ updates s' = [queued s].
Lemma run_task_run s k : taskHandle (batcher s) = Some (InteractionHandle k) -> wf s -> is_Some (data (vprops s)) ->
  updates s = [] -> exists s', run_task s = (Ret tt, s') /\ due s s'.
Proof.
  intros Hk Hw Hd Hu. unfold run_task. rewrite bind_gets, Hk. unfold task_runs. rewrite bind_gets.
  pose proof Hw as Hb. unfold wf, wf_bt in Hb. cbn in Hb. rewrite Hk in Hb. destruct Hb as [Ht Hi].
  assert (Hin : k ∈ interactionTasks (batcher s)) by (rewrite Hi; set_solver). cbn [bt_get vl_batcher].
  rewrite bool_decide_true by done. cbn [when]. rewrite (bind_of _ _ _ _ _ (run_upd _ _)).
  set (s1 := set_batcher (finish_task k (batcher s)) s).
  change (bt_set _ s) with s1.
  destruct (updateCells_run s1 Hd) as (s2 & E2 & V2 & Eb & _ & Eu). exists s2. split; [done|].
  split_and!; [transitivity s1; [unfold same_view; by split_and!|done]| | |].
  - apply (batcher_wf s1 s2 Eb). exact (wf_finish k s Hw Hin).
  - by rewrite (batcher_pending s1 s2 Eb).
  - rewrite Eu. cbn [updates set_batcher]. unfold s1. cbn [updates set_batcher]. by rewrite Hu.
Qed.

Lemma host_run s : wf s -> pending s = true -> is_Some (data (vprops s)) -> updates s = [] ->
  exists s', (do! fire_timer; run_task) s = (Ret tt, s') /\ due s s'.
Proof.
  intros Hw Hp Hd Hu. destruct (taskHandle (batcher s)) as [[t|k]|] eqn:E.
  - assert (E1 : exists s1, fire_timer s = (Ret tt, s1) /\ same_view s s1 /\ wf s1 /\ updates s1 = updates s /\
      exists k, taskHandle (batcher s1) = Some (InteractionHandle k)).
    { exists (final fire_timer s).
      assert (Ef : fire_timer s = timeout_fires t s) by (unfold fire_timer; by rewrite bind_gets, E).
      pose proof (wf_timeout_fires t s Hw) as Hw1.
      pose proof Hw as Hb. unfold wf, wf_bt in Hb. cbn in Hb. rewrite E in Hb. destruct Hb as [Ht _].
      assert (Hin : t ∈ timeouts (batcher s)) by (rewrite Ht; set_solver).
      unfold final in *. rewrite Ef in *. revert Hw1. unfold timeout_fires. rewrite bind_gets. cbn [bt_get vl_batcher].
      rewrite bool_decide_true by done. cbn. intros [Hw1 Hw2]. split_and!; try done. by eexists. }
    destruct E1 as (s1 & E1 & V1 & Hw1 & Hu1 & k & Hk). rewrite (bind_of _ _ _ _ _ E1).
    destruct (run_task_run s1 k Hk Hw1) as (s2 & E2 & V2 & H).
    { destruct V1 as (_ & -> & _). done. }
    { by rewrite Hu1. }
    exists s2. split; [done|]. split; [by transitivity s1|]. replace (queued s) with (queued s1); [done|].
    unfold queued. rewrite (view_itemCount s s1 V1). by destruct V1 as (_ & -> & _).
  - destruct (run_task_run s k E Hw Hd Hu) as (s2 & E2 & H). exists s2. split; [|done].
    unfold fire_timer. rewrite bind_assoc, bind_gets, E, bind_ret. done.
  - unfold pending in Hp. cbn in Hp. by rewrite E in Hp.
Qed.

Record stable (s : S) : Prop := {
  sb_settled : settled s;
  sb_window : window_wf s;
  sb_batcher : wf s;
  sb_updates : updates s = []
}.

Lemma flush_done k s : updates s = [] -> flush childHasMore k s = (Ret tt, s).
Proof. intros Hu. destruct k; cbn [flush]; by rewrite bind_gets, Hu. Qed.
Lemma flush_commit k s u : updates s = [u] -> flush childHasMore (Datatypes.S k) s = (do! commit childHasMore None; flush childHasMore k) s.
Proof. intros Hu. cbn [flush]. by rewrite bind_gets, Hu. Qed.
Lemma committed_settled s s' : settled s -> committed s s' ->
  settled s' /\ window_wf s' /\ wf s' /\ update s' = update s.
Proof.
  intros Hs [Hl [Hw Hb] _ _]. split_and!; [by eapply settled_layout|done|done|]. by apply layout_update in Hl as [-> _].
Qed.
Lemma queued_eq s : settled s -> queued s = UpdateCells false (onEndReachedThreshold (vprops s)) (itemCount s).
Proof. intros Hs. unfold queued. by rewrite (se_virtual _ Hs). Qed.

(** How a turn ends: [b] is whether the batcher is pending. *)
Definition turned (s s' : S) (w : range) : Prop :=
  window_of s' = update s w /\
  (pending s' = true /\ update s w <> w \/ pending s' = false /\ update s (update s w) = update s w).

(** A turn updates the window once or twice; afterwards the batcher is idle only when
    another update would change nothing. *)
Lemma turn_run s : stable s -> pending s = true -> let w := window_of s in
  exists s', turn s = (Ret tt, s') /\ stable s' /\ same_layout s s' /\ (turned s s' w \/ turned s s' (update s w)).
Proof.
  intros [Hs Hww Hw Hu] Hp w. destruct (se_items _ Hs) as [Hd _].
  destruct (host_run s Hw Hp Hd Hu) as (s1 & E1 & V1 & Hw1 & Hp1 & Hu1).
  unfold turn. rewrite <- bind_assoc, (bind_of _ _ _ _ _ E1), (flush_commit _ _ _ Hu1).
  pose proof (layout_view _ _ V1) as L1. pose proof (settled_layout _ _ L1 Hs) as Hs1.
  assert (Hww1 : window_wf s1) by (apply (window_of_state s); [by destruct V1 as (? & ? & _)|done]).
  assert (Hwin1 : window_of s1 = w) by (destruct (view_window _ _ V1) as [Ef El]; unfold w, window_of; by rewrite Ef, El).
  destruct (layout_update _ _ L1) as [G1 _]. rewrite (queued_eq s Hs) in Hu1.
  destruct (commit_run s1 _ _ Hs1 Hww1 Hw1 Hu1) as (s2 & E2 & C2). rewrite (bind_of _ _ _ _ _ E2).
  destruct (committed_settled _ _ Hs1 C2) as (Hs2 & Hww2 & Hw2 & G2). destruct C2 as [L2 _ Hwin2 H2].
  rewrite G1, Hwin1 in *. assert (L : same_layout s s2) by (by transitivity s1).
  case_decide as Hfix; [|destruct H2 as [[Hu2 Hp2]|(Hu2 & Hp2 & _ & Hh2)]].
  - destruct H2 as [Hu2 Hp2]. rewrite flush_done by done. exists s2. split_and!; [done|by split|done|].
    left. split; [done|]. right. split; [by rewrite Hp2|by rewrite !Hfix].
  - rewrite flush_done by done. exists s2. split_and!; [done|by split|done|]. left. split; [done|]. by left.
  - rewrite (flush_commit _ _ _ Hu2). rewrite (queued_eq s1 Hs1) in Hu2.
    destruct (commit_run s2 _ _ Hs2 Hww2 Hw2 Hu2) as (s3 & E3 & C3). rewrite (bind_of _ _ _ _ _ E3).
    destruct (committed_settled _ _ Hs2 C3) as (Hs3 & Hww3 & Hw3 & G3). destruct C3 as [L3 _ Hwin3 H3].
    rewrite G2, Hwin2 in *. assert (L' : same_layout s s3) by (by transitivity s2).
    case_decide as Hfix'; [|destruct H3 as [[Hu3 Hp3]|(_ & _ & H & _)]; [|congruence]].
    + destruct H3 as [Hu3 Hp3]. rewrite flush_done by done. exists s3. split_and!; [done|by split|done|].
      right. split; [done|]. right. split; [by rewrite Hp3|by rewrite !Hfix'].
    + rewrite flush_done by done. exists s3. split_and!; [done|by split|done|]. right. split; [done|]. by left.
Qed.

(** The batches still needed when every visible cell is in the window. *)
Definition at_rest (s s' : S) : Prop :=
  stable s' /\ same_layout s s' /\ window_of s' = target s /\ pending s' = false.
Lemma turned_rest s s' w : stable s' -> settled s -> same_layout s s' -> turned s s' w -> pending s' = false -> at_rest s s'.
Proof.
  intros Hs' Hs Hl [Hw [[H _]|[_ Hf]]] Hp; [congruence|]. split_and!; [done|done| |done].
  rewrite Hw. apply fixpoint_target; [done|by apply update_covers|done].
Qed.

Lemma rest_layout s s1 s' : same_layout s s1 -> at_rest s1 s' -> at_rest s s'.
Proof.
  intros Hl (H1 & H2 & H3 & H4). destruct (layout_update _ _ Hl) as [_ Ht].
  split_and!; [done|by transitivity s1|by rewrite <- Ht|done].
Qed.
Lemma turns_once s s' : turn s = (Ret tt, s') -> turns 1 s = (Ret tt, s').
Proof. intros E. cbn [turns]. by rewrite (bind_of _ _ _ _ _ E). Qed.

Lemma settle_target s : stable s -> pending s = true -> window_of s = target s ->
  exists s', turns 1 s = (Ret tt, s') /\ at_rest s s'.
Proof.
  intros Hs Hp Hw. destruct (turn_run s Hs Hp) as (s' & E & Hs' & Hl & Ht).
  exists s'. split; [by apply turns_once|]. pose proof (sb_settled _ Hs) as Hset.
  rewrite Hw, (update_target s Hset) in Ht.
  assert (Ht' : turned s s' (target s)) by tauto. destruct (pending s') eqn:Hp'.
  - destruct Ht' as [_ [[_ H]|[H _]]]; [|congruence]. by rewrite update_target in H.
  - by eapply turned_rest.
Qed.

(** The visible cells are in the window, and [q] batches complete it. *)
Definition within (s : S) (q : Z) (w : range) : Prop :=
  covers s w /\ left_out s w <= q * maxToRenderPerBatch (vprops s).
Lemma within_update s q w : settled s -> 0 <= q -> within s q w ->
  within s q (update s w) /\ (update s w = target s \/ 0 < q /\ within s (q - 1) (update s w)).
Proof.
  intros Hs Hq [Hc Hm]. pose proof (se_batch _ Hs) as Hb. pose proof (update_covers s w Hs) as Hc'.
  pose proof (left_out_nonneg s (update s w)) as Hpos.
  destruct (update_progress s w Hs Hc) as [H|H].
  - split; [|by left]. split; [done|]. rewrite H. destruct (target_covers s Hs) as [_ ->]. nia.
  - split; [split; [done|nia]|]. right. split; [nia|]. split; [done|nia].
Qed.
Lemma within_layout s s1 q w : same_layout s s1 -> within s q w -> within s1 q w.
Proof.
  intros Hl. destruct (layout_bounds _ _ Hl) as (Hb & _). destruct Hl as (Hp & _).
  unfold within, covers. by rewrite Hb, Hp.
Qed.

(** A turn completes the window or brings it a batch closer. *)
Lemma turned_within s s1 (q : nat) w : settled s -> within s (Z.of_nat q) w ->
  turned s s1 w \/ turned s s1 (update s w) ->
  window_of s1 = target s \/ exists q', q = Datatypes.S q' /\ within s (Z.of_nat q') (window_of s1).
Proof.
  intros Hs Hw Ht. destruct (within_update s (Z.of_nat q) w Hs ltac:(lia) Hw) as [Hw' _].
  assert (Hv : exists v, window_of s1 = update s v /\ within s (Z.of_nat q) v)
    by (destruct Ht as [[H _]|[H _]]; eexists; eauto).
  destruct Hv as (v & -> & Hv). destruct (within_update s (Z.of_nat q) v Hs ltac:(lia) Hv) as [_ [H|[Hq H]]]; [by left|].
  right. exists (q - 1)%nat. split; [lia|]. by replace (Z.of_nat (q - 1)) with (Z.of_nat q - 1) by lia.
Qed.

Lemma settle (q : nat) s : stable s -> pending s = true -> within s (Z.of_nat q) (window_of s) ->
  exists k s', (k <= q + 2)%nat /\ turns k s = (Ret tt, s') /\ at_rest s s'.
Proof.
  revert s. induction q as [q IH] using lt_wf_ind. intros s Hs Hp Hw.
  destruct (turn_run s Hs Hp) as (s1 & E & Hs1 & Hl & Ht). pose proof (sb_settled _ Hs) as Hset.
  destruct (pending s1) eqn:Hp1.
  2: { exists 1%nat, s1. split; [lia|]. split; [by apply turns_once|destruct Ht; by eapply turned_rest]. }
  enough (exists k s', (k <= q + 1)%nat /\ turns k s1 = (Ret tt, s') /\ at_rest s1 s') as (k & s' & Hk & E' & H').
  { exists (Datatypes.S k), s'. split; [lia|]. cbn [turns]. rewrite (bind_of _ _ _ _ _ E).
    split; [done|by eapply rest_layout]. }
  destruct (turned_within _ _ _ _ Hset Hw Ht) as [Htgt|(q' & -> & Hw1)].
  - destruct (layout_update _ _ Hl) as [_ Hsame].
    destruct (settle_target s1 Hs1 Hp1) as (s' & E' & H'); [by rewrite Htgt, Hsame|].
    exists 1%nat, s'. split; [lia|done].
  - destruct (IH q' ltac:(lia) s1 Hs1 Hp1) as (k & s' & Hk & E' & H'); [by apply (within_layout s s1)|].
    exists k, s'. split; [lia|done].
Qed.

(** C15. A list that is laid out and left alone reaches its final window: after at most
    [itemCount / maxToRenderPerBatch + 4] turns of the host, none of which throws, the
    window is the whole overscan range, cut by [getDerivedStateFromProps], the batcher
    is idle and no update is queued, so no further turn does anything. *)
Theorem window_settles s : stable s -> pending s = true ->
  exists k s', Z.of_nat k <= itemCount s / maxToRenderPerBatch (vprops s) + 4 /\ turns k s = (Ret tt, s') /\
    window_of s' = target s /\ same_layout s s' /\ pending s' = false /\ updates s' = [] /\ turn s' = (Ret tt, s').
Proof.
  intros Hs Hp. pose proof (sb_settled _ Hs) as Hset. pose proof (se_batch _ Hset) as Hb.
  set (q := Z.to_nat (itemCount s / maxToRenderPerBatch (vprops s) + 1)).
  pose proof (itemCount_nonneg s) as Hn. pose proof (Z.div_pos _ (maxToRenderPerBatch (vprops s)) Hn ltac:(lia)) as Hq.
  assert (Hall : forall v, within s (Z.of_nat q) (update s v)).
  { intros v. split; [by apply update_covers|].
    destruct (advance_spec s v Hset) as (_ & H). cbv zeta in H.
    pose proof (Z.mul_succ_div_gt (itemCount s) (maxToRenderPerBatch (vprops s)) ltac:(lia)).
    assert (Hle : left_out s (update s v) <= itemCount s).
    { unfold missing, update, clamp. cbn [first last]. lia. }
    unfold q. rewrite Z2Nat.id by lia. nia. }
  assert (Hidle : forall s', at_rest s s' -> window_of s' = target s /\ same_layout s s' /\ pending s' = false /\
    updates s' = [] /\ turn s' = (Ret tt, s')).
  { intros s' ([_ _ Hw' Hu'] & H2 & H3 & H4). split_and!; try done. unfold turn, fire_timer, run_task.
    rewrite bind_assoc, bind_gets. unfold pending in H4. cbn in H4. destruct (taskHandle (batcher s')) eqn:E; [done|].
    by rewrite bind_ret, bind_assoc, bind_gets, E, bind_ret, flush_done. }
  destruct (turn_run s Hs Hp) as (s1 & E & Hs1 & Hl & Ht). destruct (pending s1) eqn:Hp1.
  - assert (Hw1 : within s1 (Z.of_nat q) (window_of s1)).
    { apply (within_layout s s1); [done|]. destruct Ht as [[-> _]|[-> _]]; apply Hall. }
    destruct (settle q s1 Hs1 Hp1 Hw1) as (k & s' & Hk & E' & H').
    exists (Datatypes.S k), s'. split; [unfold q in Hk; lia|]. cbn [turns]. rewrite (bind_of _ _ _ _ _ E).
    split; [done|]. by apply Hidle, (rest_layout s s1).
  - exists 1%nat, s1. split; [lia|]. split; [by apply turns_once|]. apply Hidle.
    destruct Ht; by eapply turned_rest.
Qed.
End settling.

Section examples.

Lemma window_settles_witness :
  exists k s', Z.of_nat k <= 14 /\ turns no_child k (laid_out 100) = (Ret tt, s') /\
    window_of s' = Build_range 0 54.
Proof.
  destruct (window_settles no_child (laid_out 100)) as (k & s' & Hk & E & Hw & _).
  - split.
    + split; try (vm_compute; reflexivity); try (vm_compute; discriminate).
      * split; [vm_compute; eexists; reflexivity|vm_compute; reflexivity].
      * split; vm_compute; reflexivity.
      * left. vm_compute. reflexivity.
    + split; vm_compute; try discriminate; split; discriminate.
    + vm_compute. split; reflexivity.
    + vm_compute. reflexivity.
  - vm_compute. reflexivity.
  - exists k, s'. split; [vm_compute in Hk; exact Hk|]. split; [exact E|]. rewrite Hw. vm_compute. reflexivity.
Defined.
End examples.
