(* ===== verification/SectionList.v ===== *)
(** * VirtualizedSectionList

    Libraries/Lists/VirtualizedSectionList.js: sections flattened into the items of a
    VirtualizedList.  A section contributes its header, its rows and its footer, so the
    list has two items more per section than rows.

    [getItem], [getItemCount] and the key extractors are client code: parameters
    ([extract_key] says what the extractor with an identifier returns).  Components are
    identifiers.  The state of the child list is a field of the state,
    and the calls on its reference run the operations of VirtualizedList.v.  React
    applies the new selection paths given to [setState] in [commit_paths]. *)
From stdpp Require Import base numbers list strings gmap pretty.
From Stdlib Require Import QArith Ascii.
From S2P Require Import Prelude Rationals VirtualizeUtils Batchinator VirtualizedList VirtualizedListWindow.
Open Scope Z_scope.

Section section_list.
Context {Item : Type} `{!EqDecision Item}.
Context (childHasMore : nat -> bool).

(** A section; an absent [key] is the empty string (both are falsy). *)
Record section := {
  sec_key : string;
  sec_data : list Item;
  sec_keyExtractor : option nat;
  sec_renderItem : option nat;
  sec_ItemSeparatorComponent : option nat
}.
(** What [_getItem] returns: a header or footer is the section itself. *)
Inductive entry := ASection (s : section) | AnItem (x : option Item).
Context (extract_key : nat -> entry -> option Z -> string).
Record index_path := { sectionIndex : Z; rowIndex : Z }.

(** The props; [listProps] are the ones passed on to the list. *)
Record props := {
  sections : option (list section);
  getItemCount : list Item -> Z;
  getItem : list Item -> Z -> option Item;
  keyExtractor : nat;
  renderItem : option nat;
  renderSectionHeader : option nat;
  renderSectionFooter : option nat;
  ItemSeparatorComponent : option nat;
  SectionSeparatorComponent : option nat;
  stickySectionHeadersEnabled : bool;
  hasOnViewableItemsChanged : bool;
  hasOnSelectionChanged : bool;
  hasOnSelectionEntered : bool;
  listProps : list_props
}.

(** ** From a flat index to a section and back *)
Section flat.
Context (p : props).
Abbreviation count s := (getItemCount p (sec_data s)).

Fixpoint find_entry (secs : list section) (itemIdx : Z) : option entry :=
  match secs with
  | [] => None
  | s :: secs' =>
      if (itemIdx =? -1) || (itemIdx =? count s) then Some (ASection s)
      else if itemIdx <? count s then Some (AnItem (getItem p (sec_data s) itemIdx))
      else find_entry secs' (itemIdx - (count s + 2))
  end.
Definition _getItem (secs : option (list section)) (index : Z) : option entry :=
  match secs with Some secs => find_entry secs (index - 1) | None => None end.

Record info := {
  i_section : section;
  i_key : string;
  i_index : option Z;
  i_header : bool;
  i_leadingItem : option Item;
  i_leadingSection : option section;
  i_trailingItem : option Item;
  i_trailingSection : option section
}.
Definition section_key (i : nat) (s : section) : string :=
  if decide (sec_key s = ""%string) then pretty (Z.of_nat i) else sec_key s.
Definition extractor_of (s : section) : nat := default (keyExtractor p) (sec_keyExtractor s).
Definition item_info (i : nat) (prev : option section) (s : section) (next : option section) (itemIndex : Z) : info :=
  Build_info s
    (section_key i s +:+ ":" +:+ extract_key (extractor_of s) (AnItem (getItem p (sec_data s) itemIndex)) (Some itemIndex))
    (Some itemIndex) false (getItem p (sec_data s) (itemIndex - 1)) prev
    (getItem p (sec_data s) (itemIndex + 1)) next.
Definition edge_info (i : nat) (s : section) (next : option section) (header : bool) : info :=
  Build_info s (section_key i s +:+ (if header then ":header" else ":footer")) None header None None None next.

(** The loop of [_subExtractor] from the section at [i]. *)
Fixpoint extract (i : nat) (prev : option section) (secs : list section) (itemIndex : Z) : option info :=
  match secs with
  | [] => None
  | s :: secs' =>
      let itemIndex := itemIndex - 1 in
      if count s + 1 <=? itemIndex then extract (Datatypes.S i) (Some s) secs' (itemIndex - (count s + 1))
      else if itemIndex =? -1 then Some (edge_info i s (head secs') true)
      else if itemIndex =? count s then Some (edge_info i s (head secs') false)
      else Some (item_info i prev s (head secs') itemIndex)
  end.
Definition subExtractor (secs : list section) (index : Z) : option info := extract 0 None secs index.

Definition _keyExtractor (secs : list section) (index : Z) : string :=
  match subExtractor secs index with
  | Some i => if decide (i_key i = ""%string) then pretty index else i_key i
  | None => pretty index
  end.

(** [_computeState]: the number of items of the list and the indices of the headers. *)
Fixpoint measure_sections (secs : list section) (offset v : Z) : Z * list Z :=
  match secs with
  | [] => (v, [])
  | s :: secs' =>
      let '(n, headers) := measure_sections secs' offset (v + count s + 2) in (n, v + offset :: headers)
  end.

(** The loop of [scrollToLocation]; [None] when [sections[i]] is undefined. *)
Fixpoint location_index (secs : list section) (sectionIndex : nat) (index : Z) : option Z :=
  match sectionIndex with
  | O => Some index
  | Datatypes.S n =>
      match secs with
      | [] => None
      | s :: secs' => location_index secs' n (index + (count s + 2))
      end
  end.

(** *** They agree *)
Hypothesis Hcount : forall d, 0 <= getItemCount p d.

(** Where section [i] starts. *)
Fixpoint start (secs : list section) (i : nat) : Z :=
  match i, secs with
  | Datatypes.S i', s :: secs' => count s + 2 + start secs' i'
  | _, _ => 0
  end.
Definition total (secs : list section) : Z := start secs (length secs).
(** The item [j] of a section: 0 is the header, [count s + 1] the footer. *)
Definition in_section (secs : list section) (i : nat) (s : section) (j : Z) : Prop :=
  secs !! i = Some s /\ 0 <= j <= count s + 1.
Definition info_at (secs : list section) (i : nat) (s : section) (j : Z) : info :=
  let next := secs !! Datatypes.S i in
  if j =? 0 then edge_info i s next true
  else if j =? count s + 1 then edge_info i s next false
  else item_info i (match i with O => None | Datatypes.S i' => secs !! i' end) s next (j - 1).
Definition entry_at (s : section) (j : Z) : entry :=
  if (j =? 0) || (j =? count s + 1) then ASection s else AnItem (getItem p (sec_data s) (j - 1)).

Lemma start_0 secs : start secs 0 = 0.
Proof. by destruct secs. Qed.
Lemma start_nonneg secs i : 0 <= start secs i.
Proof. revert secs. induction i as [|i IH]; intros [|s secs]; cbn; try lia. pose proof (IH secs). pose proof (Hcount (sec_data s)). lia. Qed.
Lemma start_S secs i s : secs !! i = Some s -> start secs (Datatypes.S i) = start secs i + count s + 2.
Proof.
  revert i. induction secs as [|s0 secs IH]; intros [|i] H; cbn in H; simplify_eq.
  - cbn [start]. rewrite !start_0. lia.
  - pose proof (IH i H) as E. cbn [start] in *. lia.
Qed.
Lemma start_le secs i j : (i <= j)%nat -> start secs i <= start secs j.
Proof.
  revert i j. induction secs as [|s secs IH]; intros i j H; [by destruct i, j|].
  destruct i, j; [cbn; lia|pose proof (start_nonneg (s :: secs) (Datatypes.S j)); cbn [start] in *; lia|lia|].
  cbn [start]. pose proof (IH i j ltac:(lia)). lia.
Qed.
Lemma in_section_range secs i s j : in_section secs i s j -> 0 <= start secs i + j < total secs.
Proof.
  intros [Hs Hj]. pose proof (start_nonneg secs i). unfold total.
  pose proof (start_le secs (Datatypes.S i) (length secs) (lookup_lt_Some _ _ _ Hs)).
  rewrite (start_S _ _ _ Hs) in *. lia.
Qed.
Lemma locate secs index : 0 <= index < total secs ->
  exists i s j, in_section secs i s j /\ start secs i + j = index.
Proof.
  revert index. induction secs as [|s secs IH]; intros index H; [unfold total in H; cbn in H; lia|].
  destruct (Z.ltb_spec index (count s + 2)).
  - exists 0%nat, s, index. repeat split; cbn; lia.
  - destruct (IH (index - (count s + 2))) as (i & s' & j & [Hs Hj] & E).
    { unfold total in *. cbn in H. lia. }
    exists (Datatypes.S i), s', j. repeat split; cbn; try done; lia.
Qed.
Lemma locate_unique secs i s j i' s' j' : in_section secs i s j -> in_section secs i' s' j' ->
  start secs i + j = start secs i' + j' -> i = i' /\ j = j'.
Proof.
  assert (Hlt : forall i s j i' s' j', in_section secs i s j -> in_section secs i' s' j' -> (i < i')%nat ->
    start secs i + j < start secs i' + j').
  { intros a sa ja b sb jb [Ha Hja] [Hb Hjb] Hab. pose proof (start_le secs (Datatypes.S a) b Hab).
    rewrite (start_S _ _ _ Ha) in *. lia. }
  intros H H' E. destruct (lt_eq_lt_dec i i') as [[Hi| ->]|Hi].
  - pose proof (Hlt _ _ _ _ _ _ H H' Hi). lia.
  - split; [done|lia].
  - pose proof (Hlt _ _ _ _ _ _ H' H Hi). lia.
Qed.

Lemma entry_found secs i s j : in_section secs i s j -> find_entry secs (start secs i + j - 1) = Some (entry_at s j).
Proof.
  revert i s j. induction secs as [|s0 secs IH]; intros [|i] s j [Hs Hj]; cbn in Hs; simplify_eq; cbn [find_entry start].
  - unfold entry_at. destruct (Z.eqb_spec j 0) as [->|]; [by rewrite (proj2 (Z.eqb_eq _ _)) by lia|].
    rewrite (proj2 (Z.eqb_neq (0 + j - 1) (-1))) by lia. cbn [orb].
    destruct (Z.eqb_spec j (count s + 1)) as [->|]; [by rewrite (proj2 (Z.eqb_eq _ _)) by lia|].
    rewrite (proj2 (Z.eqb_neq _ _)), (proj2 (Z.ltb_lt _ _)) by lia. by replace (0 + j - 1) with (j - 1) by lia.
  - pose proof (start_nonneg secs i). pose proof (Hcount (sec_data s0)).
    rewrite !(proj2 (Z.eqb_neq _ _)), (proj2 (Z.ltb_ge _ _)) by lia. cbn [orb].
    rewrite <- (IH i s j) by done. f_equal. lia.
Qed.

Lemma info_found secs k prev i s j : in_section secs i s j ->
  extract k prev secs (start secs i + j) = Some
    (let next := secs !! Datatypes.S i in
     if j =? 0 then edge_info (k + i) s next true
     else if j =? count s + 1 then edge_info (k + i) s next false
     else item_info (k + i) (match i with O => prev | Datatypes.S i' => secs !! i' end) s next (j - 1)).
Proof.
  revert k prev i s j. induction secs as [|s0 secs IH]; intros k prev [|i] s j [Hs Hj]; cbn in Hs; simplify_eq; cbn [extract start].
  - rewrite (proj2 (Z.leb_gt _ _)) by lia. replace (k + 0)%nat with k by lia.
    replace ((s :: secs) !! 1%nat) with (head secs) by (by destruct secs).
    destruct (Z.eqb_spec j 0) as [->|]; [by rewrite (proj2 (Z.eqb_eq _ _)) by lia|].
    rewrite (proj2 (Z.eqb_neq (0 + j - 1) (-1))) by lia.
    destruct (Z.eqb_spec j (count s + 1)) as [->|]; [by rewrite (proj2 (Z.eqb_eq _ _)) by lia|].
    rewrite (proj2 (Z.eqb_neq _ _)) by lia. by replace (0 + j - 1) with (j - 1) by lia.
  - pose proof (start_nonneg secs i). pose proof (Hcount (sec_data s0)).
    rewrite (proj2 (Z.leb_le _ _)) by lia.
    replace (count s0 + 2 + start secs i + j - 1 - (count s0 + 1)) with (start secs i + j) by lia.
    rewrite (IH (Datatypes.S k) (Some s0) i s j) by done. replace (Datatypes.S k + i)%nat with (k + Datatypes.S i)%nat by lia.
    by destruct i.
Qed.

Lemma location_found secs i s v : secs !! i = Some s -> location_index secs i v = Some (start secs i + v).
Proof.
  revert i v. induction secs as [|s0 secs IH]; intros [|i] v Hs; cbn in Hs; simplify_eq; cbn [location_index start].
  - done.
  - rewrite IH by done. f_equal. lia.
Qed.

Lemma measured_sections secs offset v :
  measure_sections secs offset v = (v + total secs, (fun i => v + start secs i + offset) <$> seq 0 (length secs)).
Proof.
  revert v. induction secs as [|s secs IH]; intros v; [unfold total; cbn; f_equal; lia|].
  cbn [measure_sections length seq fmap list_fmap]. rewrite IH. unfold total. cbn [length start]. f_equal; [lia|].
  f_equal; [lia|]. rewrite <- seq_shift, <- list_fmap_compose. apply list_fmap_ext. intros k x _. cbn [compose start]. lia.
Qed.

(** C19. The flat indices of the list, from 0 to the item count, are in bijection with
    the headers, rows and footers of the sections: every index is the one
    [scrollToLocation] computes from exactly one section and item index, and at it
    [_subExtractor] (keys, separators, rendering, viewability) and [_getItem] (the items
    given to the list) both find that section, and that row, header or footer of it.
    The sticky indices are those of the headers. *)
Theorem flat_index_roundtrip secs :
  let '(itemCount, sticky) := measure_sections secs 0 0 in
  (forall index, 0 <= index < itemCount -> exists i s j, in_section secs i s j /\ location_index secs i j = Some index) /\
  (forall i s j, in_section secs i s j -> exists index, location_index secs i j = Some index /\ 0 <= index < itemCount /\
     subExtractor secs index = Some (info_at secs i s j) /\ _getItem (Some secs) index = Some (entry_at s j) /\
     (index ∈ sticky <-> j = 0) /\
     forall i' s' j', in_section secs i' s' j' -> location_index secs i' j' = Some index -> i' = i /\ j' = j).
Proof.
  rewrite measured_sections, Z.add_0_l. split.
  - intros index H. destruct (locate secs index H) as (i & s & j & Hj & <-). exists i, s, j. split; [done|].
    eapply location_found, Hj.
  - intros i s j Hj. exists (start secs i + j). pose proof (in_section_range _ _ _ _ Hj) as Hr.
    split_and!; [by eapply location_found, Hj|lia|lia|by apply (info_found secs 0 None)|by apply entry_found| |].
    + rewrite list_elem_of_fmap. split.
      * intros (k & E & Hk%elem_of_seq). destruct (lookup_lt_is_Some_2 secs k ltac:(lia)) as [s' Hs'].
        assert (Hj0 : in_section secs k s' 0) by (split; [done|pose proof (Hcount (sec_data s')); lia]).
        eapply locate_unique in Hj0; [|exact Hj|lia]. lia.
      * intros ->. exists i. split; [lia|]. apply elem_of_seq. pose proof (lookup_lt_Some _ _ _ (proj1 Hj)). lia.
    + intros i' s' j' Hj' E. rewrite (location_found secs i' s') in E by apply Hj'. injection E as E.
      destruct (locate_unique _ _ _ _ _ _ _ Hj' Hj E). by split.
Qed.

(** *** The keys of the list *)
Fixpoint no_colon (k : string) : bool :=
  match k with
  | EmptyString => true
  | String a k' => negb (Ascii.eqb a ":"%char) && no_colon k'
  end.
Lemma colon_prefix a b x y : no_colon a = true -> no_colon b = true ->
  a +:+ ":" +:+ x = b +:+ ":" +:+ y -> a = b /\ x = y.
Proof.
  revert b. induction a as [|c a IH]; intros [|d b] Ha Hb E; cbn in *.
  - by injection E.
  - injection E as <- _. by rewrite Ascii.eqb_refl in Hb.
  - injection E as -> _. by rewrite Ascii.eqb_refl in Ha.
  - apply andb_true_iff in Ha as [_ Ha], Hb as [_ Hb]. injection E as -> E.
    destruct (IH b Ha Hb E) as [-> ->]. by split.
Qed.

(** The part of the key after the section's. *)
Definition key_in_section (s : section) (j : Z) : string :=
  if j =? 0 then "header"
  else if j =? count s + 1 then "footer"
  else extract_key (extractor_of s) (AnItem (getItem p (sec_data s) (j - 1))) (Some (j - 1)).
Lemma key_at secs i s j : in_section secs i s j ->
  _keyExtractor secs (start secs i + j) = section_key i s +:+ ":" +:+ key_in_section s j.
Proof.
  intros Hj. unfold _keyExtractor, subExtractor. rewrite (info_found _ _ _ _ _ _ Hj). cbn [Nat.add].
  unfold key_in_section.
  assert (Hne : forall a b, (a +:+ ":" +:+ b)%string <> ""%string) by (by intros [|]).
  destruct (j =? 0); [|destruct (j =? count s + 1)]; cbn [i_key edge_info item_info];
    (rewrite decide_False; [done|]); apply Hne.
Qed.

(** Distinct section keys without a colon, and in every section distinct row keys that
    are neither "header" nor "footer". *)
Record good_keys (secs : list section) : Prop := {
  gk_sections i i' s s' : secs !! i = Some s -> secs !! i' = Some s' -> section_key i s = section_key i' s' -> i = i';
  gk_colon i s : secs !! i = Some s -> no_colon (section_key i s) = true;
  gk_rows i s j j' : in_section secs i s j -> in_section secs i s j' ->
    key_in_section s j = key_in_section s j' -> j = j'
}.
Definition keys (secs : list section) : list string := _keyExtractor secs <$> seqZ 0 (total secs).
Lemma keys_distinct secs : good_keys secs -> NoDup (keys secs).
Proof.
  intros [K1 K2 K3]. apply NoDup_fmap_2_strong; [|apply NoDup_seqZ].
  intros x y Hx%elem_of_seqZ Hy%elem_of_seqZ E.
  destruct (locate secs x ltac:(lia)) as (i & s & j & Hj & <-).
  destruct (locate secs y ltac:(lia)) as (i' & s' & j' & Hj' & <-).
  rewrite (key_at _ _ _ _ Hj), (key_at _ _ _ _ Hj') in E.
  apply colon_prefix in E as [E1 E2]; [|by eapply K2, Hj|by eapply K2, Hj'].
  pose proof (K1 i i' s s' (proj1 Hj) (proj1 Hj') E1) as <-.
  assert (s' = s) as -> by (destruct Hj as [H1 _], Hj' as [H2 _]; congruence).
  by rewrite (K3 i s j j' Hj Hj' E2).
Qed.
End flat.

(** ** The component *)
Inductive event :=
  | SectionSelectionChanged (previous next : index_path) (item : option Item)
  | SectionSelectionEntered (item : option Item).

Record sl := {
  sprops : props;
  selectedRowIndexPath : index_path;
  childItemCount : Z;
  pathUpdates : list index_path;
  listRef : vl;
  strace : list event
}.
Definition set_path x (s : sl) : sl := Build_sl (sprops s) x (childItemCount s) (pathUpdates s) (listRef s) (strace s).
Definition set_pathUpdates x (s : sl) : sl := Build_sl (sprops s) (selectedRowIndexPath s) (childItemCount s) x (listRef s) (strace s).
Definition set_listRef x (s : sl) : sl := Build_sl (sprops s) (selectedRowIndexPath s) (childItemCount s) (pathUpdates s) x (strace s).
Definition set_strace x (s : sl) : sl := Build_sl (sprops s) (selectedRowIndexPath s) (childItemCount s) (pathUpdates s) (listRef s) x.

(** A call on the reference to the list. *)
Definition on_list {A} (m : JS vl A) : JS sl A := fun s => let '(r, l) := m (listRef s) in (r, set_listRef l s).
(** [this.props.sections], where the code reads a property of it. *)
Definition read_sections : JS sl (list section) :=
  let! p := gets sprops in
  match sections p with
  | Some secs => ret secs
  | None => throw (JSError "TypeError: undefined is not an object (this.props.sections)")
  end.
Definition read_section (i : Z) : JS sl section :=
  let! secs := read_sections in
  match (if 0 <=? i then secs !! Z.to_nat i else None) with
  | Some sec => ret sec
  | None => throw (JSError "TypeError: undefined is not an object (this.props.sections[i])")
  end.
Definition item_of (sec : section) (row : Z) : option Item :=
  if row <? 0 then None else sec_data sec !! Z.to_nat row.

Definition scrollToLocation (path_section path_item : Z) (animated : bool) (viewOffset viewPosition : Q) : JS sl unit :=
  let! p := gets sprops in
  let! index := (if 0 <? path_section then
                   let! secs := read_sections in
                   match location_index p secs (Z.to_nat path_section) path_item with
                   | Some index => ret index
                   | None => throw (JSError "TypeError: undefined is not an object (this.props.sections[i])")
                   end
                 else ret path_item) in
  let! offset := (if (0 <? path_item) && stickySectionHeadersEnabled p then
                    let! frame := on_list (getFrameMetricsApprox (index - path_item)) in
                    ret (viewOffset + f_length frame)%Q
                  else ret viewOffset) in
  on_list (scrollToIndex index animated offset viewPosition).

(** *** [_computeState], the constructor and new props *)
Definition with_items (data' : option (list string)) (sticky : list Z) (lp : list_props) : list_props :=
  Build_list_props data' (getItemLayout lp) (horizontal lp) (nested lp) (windowSize lp) (maxToRenderPerBatch lp)
    (initialNumToRender lp) (initialScrollIndex lp) (onEndReached lp) (onEndReachedThreshold lp)
    (onScrollToIndexFailed lp) (disableVirtualization lp) (listHeader lp) (listFooter lp) (listEmpty lp) sticky.
Definition computeState (p : props) : Z * list_props :=
  let offset := if listHeader (listProps p) then 1 else 0 in
  let '(itemCount, stickyHeaderIndices) :=
    match sections p with Some secs => measure_sections p secs offset 0 | None => (0, []) end in
  (itemCount,
   with_items ((fun secs => _keyExtractor p secs <$> seqZ 0 itemCount) <$> sections p)
     (if stickySectionHeadersEnabled p then stickyHeaderIndices else []) (listProps p)).
Definition initial_path : index_path := Build_index_path 0 (-1).
Definition new_VirtualizedSectionList (p : props) : sl :=
  let '(n, lp) := computeState p in
  Build_sl p initial_path n [] (final mount (new_VirtualizedList lp)) [].
Definition componentWillReceiveProps (p : props) (dataChanged : bool) : JS sl unit :=
  let '(n, lp) := computeState p in
  do! modify (fun s => Build_sl p initial_path n [] (listRef s) (strace s));
  on_list (commit childHasMore (Some (lp, dataChanged))).

(** *** Keyboard selection *)
Definition select (path : index_path) : JS sl index_path :=
  do! modify (fun s => set_pathUpdates (pathUpdates s ++ [path]) s);
  ret path.
Definition data_length (sec : section) : Z := Z.of_nat (length (sec_data sec)).
Definition selectRowAboveIndexPath (path : index_path) : JS sl index_path :=
  let! secs := read_sections in
  if Z.of_nat (length secs) <=? sectionIndex path then ret path
  else
    let row := rowIndex path in
    let rowAbove := row - 1 in
    if rowAbove <? 0 then
      if 0 <? sectionIndex path then
        let! above := read_section (sectionIndex path - 1) in
        select (Build_index_path (sectionIndex path - 1) (Z.max 0 (data_length above - 1)))
      else select (Build_index_path (sectionIndex path) row)
    else select (Build_index_path (sectionIndex path) rowAbove).
Definition selectRowBelowIndexPath (path : index_path) : JS sl index_path :=
  let! secs := read_sections in
  if Z.of_nat (length secs) <=? sectionIndex path then ret path
  else
    let! sec := read_section (sectionIndex path) in
    let row := rowIndex path in
    let rowBelow := row + 1 in
    if data_length sec - 1 <? rowBelow then
      if sectionIndex path <? Z.of_nat (length secs) - 1 then select (Build_index_path (sectionIndex path + 1) 0)
      else select (Build_index_path (sectionIndex path) row)
    else select (Build_index_path (sectionIndex path) rowBelow).

Fixpoint skip_sections (secs : list section) (n : nat) (index : Z) : option Z :=
  match n with
  | O => Some index
  | Datatypes.S n' =>
      match secs with
      | [] => None
      | sec :: secs' => skip_sections secs' n' (index + (data_length sec + 2))
      end
  end.
Definition ensureItemAtIndexPathIsVisible (path : index_path) : JS sl unit :=
  let! index := (if 0 <? sectionIndex path then
                   let! secs := read_sections in
                   match skip_sections secs (Z.to_nat (sectionIndex path)) (rowIndex path + 1) with
                   | Some index => ret index
                   | None => throw (JSError "TypeError: undefined is not an object (this.props.sections[ii])")
                   end
                 else ret (rowIndex path + 1)) in
  on_list (ensureItemAtIndexIsVisible index).

Definition log_event (e : event) : JS sl unit := modify (fun s => set_strace (strace s ++ [e]) s).
(** [_handleKeyDown] (on macOS). *)
Definition handle_key (key : key_event) : JS sl unit :=
  let! prev := gets selectedRowIndexPath in
  let! p := gets sprops in
  let move (step : index_path -> JS sl index_path) :=
    let! next := step prev in
    do! ensureItemAtIndexPathIsVisible next;
    when (hasOnSelectionChanged p) (
      let! sec := read_section (sectionIndex prev) in
      log_event (SectionSelectionChanged prev next (item_of sec (rowIndex prev)))) in
  match key with
  | DOWN_ARROW => move selectRowBelowIndexPath
  | UP_ARROW => move selectRowAboveIndexPath
  | ENTER =>
      when (hasOnSelectionEntered p) (
        let! sec := read_section (sectionIndex prev) in
        log_event (SectionSelectionEntered (item_of sec (rowIndex prev))))
  | OtherKey => ret tt
  end.
(** React applies the paths given to [setState]. *)
Definition commit_paths : JS sl unit :=
  modify (fun s => set_pathUpdates [] (set_path (default (selectedRowIndexPath s) (list.last (pathUpdates s))) s)).

(** *** Viewability tokens and rendering *)
Record token := { vt_item : entry; vt_index : option Z; vt_key : string; vt_isViewable : bool }.
Record section_token := { st_token : token; st_index : option Z; st_key : string; st_section : section }.
Definition convertViewable (v : token) : JS sl (option section_token) :=
  let! p := gets sprops in
  match vt_index v with
  | None => throw (InvariantViolation "Received a broken ViewToken")
  | Some index =>
      let! secs := read_sections in
      match subExtractor p secs index with
      | None => ret None
      | Some i => ret (Some (Build_section_token v (i_index i)
                    (extract_key (extractor_of p (i_section i)) (vt_item v) (i_index i)) (i_section i)))
      end
  end.
Fixpoint convert_all (l : list token) : JS sl (list section_token) :=
  match l with
  | [] => ret []
  | v :: l' =>
      let! t := convertViewable v in
      let! ts := convert_all l' in
      ret (match t with Some t => t :: ts | None => ts end)
  end.
(** [_onViewableItemsChanged]: what the callback of the props receives. *)
Definition onViewableItemsChanged (viewableItems changed : list token)
    : JS sl (option (list section_token * list section_token)) :=
  let! p := gets sprops in
  if hasOnViewableItemsChanged p then
    let! v := convert_all viewableItems in
    let! c := convert_all changed in
    ret (Some (v, c))
  else ret None.

Definition isItemSelected (item : option Item) (s : sl) : bool :=
  match sections (sprops s) with
  | Some secs =>
      let path := selectedRowIndexPath s in
      if sectionIndex path <? Z.of_nat (length secs) then
        match (if 0 <=? sectionIndex path then secs !! Z.to_nat (sectionIndex path) else None) with
        | Some sec => (rowIndex path <? data_length sec) && bool_decide (item = item_of sec (rowIndex path))
        | None => false
        end
      else false
  | None => false
  end.

Definition getSeparatorComponent (index : Z) (i : info) (s : sl) : option nat :=
  let p := sprops s in
  let itemSeparator := match sec_ItemSeparatorComponent (i_section i) with Some c => Some c | None => ItemSeparatorComponent p end in
  let isLastItemInList := index =? childItemCount s - 1 in
  let isLastItemInSection := bool_decide (i_index i = Some (getItemCount p (sec_data (i_section i)) - 1)) in
  match SectionSeparatorComponent p with
  | Some c => if isLastItemInSection then Some c
              else if negb isLastItemInSection && negb isLastItemInList then itemSeparator else None
  | None => if negb isLastItemInSection && negb isLastItemInList then itemSeparator else None
  end.

Inductive row_element :=
  | NoElement
  | SectionHeader (component : nat) (sec : section)
  | SectionFooter (component : nat) (sec : section)
  | Row (renderer : nat) (item : option Item) (index : Z) (i : info) (isSelected : bool)
      (leadingSeparator separator : option nat) (prevCellKey : option string).
Definition _renderItem (item : option Item) (index : Z) : JS sl row_element :=
  let! p := gets sprops in
  let! secs := read_sections in
  match subExtractor p secs index with
  | None => ret NoElement
  | Some i =>
      match i_index i with
      | None =>
          if i_header i then ret (from_option (fun c => SectionHeader c (i_section i)) NoElement (renderSectionHeader p))
          else ret (from_option (fun c => SectionFooter c (i_section i)) NoElement (renderSectionFooter p))
      | Some infoIndex =>
          let! separator := gets (getSeparatorComponent index i) in
          let! selected := gets (isItemSelected item) in
          match (match sec_renderItem (i_section i) with Some r => Some r | None => renderItem p end) with
          | Some r => ret (Row r item infoIndex i selected (if infoIndex =? 0 then SectionSeparatorComponent p else None)
                        separator (i_key <$> subExtractor p secs (index - 1)))
          | None => throw (InvariantViolation "no renderItem!")
          end
      end
  end.

(** ** What the child list receives *)
Section child.
Context (p : props) (secs : list section).
Hypothesis Hcount : forall d, 0 <= getItemCount p d.
Hypothesis Hsecs : sections p = Some secs.

Lemma computeState_spec : computeState p = (total p secs,
  with_items (Some (keys p secs))
    (if stickySectionHeadersEnabled p
     then (fun i => start p secs i + (if listHeader (listProps p) then 1 else 0)) <$> seq 0 (length secs) else [])
    (listProps p)).
Proof.
  unfold computeState. rewrite Hsecs, measured_sections by done. cbn [fmap option_fmap option_map]. f_equal.
Qed.

(** New props give the child list one key for each header, row and footer, in
    order, and, when the section keys are distinct and without a colon and the row keys
    of each section are distinct and not "header" or "footer", no two items of the list
    share a key (so no two share a frame). *)
Theorem list_gets_distinct_keys changed s s' : good_keys p secs ->
  componentWillReceiveProps p changed s = (Ret tt, s') ->
  itemCount (listRef s') = childItemCount s' /\ childItemCount s' = total p secs /\
  NoDup (default [] (data (vprops (listRef s')))) /\
  forall i sec j, in_section p secs i sec j ->
    item_key (start p secs i + j) (listRef s') = Some (section_key i sec +:+ ":" +:+ key_in_section p sec j).
Proof.
  intros Hk. unfold componentWillReceiveProps. rewrite computeState_spec, bind_modify. unfold on_list. cbn [listRef].
  set (lp := with_items _ _ _). destruct (commit _ _ _) as [r l] eqn:E. intros [= -> <-]. cbn [listRef childItemCount set_listRef].
  apply commit_props in E. unfold itemCount, item_key. rewrite E. unfold lp. cbn [data with_items default]. unfold keys, id.
  pose proof (start_nonneg p Hcount secs (length secs)) as Ht. fold (total p secs) in Ht.
  rewrite length_fmap, length_seqZ. split_and!; [lia|done|by apply keys_distinct|].
  intros i sec j Hj. pose proof (in_section_range p Hcount _ _ _ _ Hj) as Hr.
  rewrite (proj2 (Z.ltb_ge _ _)) by lia. rewrite list_lookup_fmap, lookup_seqZ_lt by lia.
  cbn. f_equal. rewrite <- (key_at p Hcount secs i sec j Hj). f_equal. lia.
Qed.

(** *** Scrolling to a location *)
(** The child list has the items of the sections. *)
Definition in_sync (s : sl) : Prop := sprops s = p /\ vprops (listRef s) = snd (computeState p).
Lemma in_sync_count s : in_sync s -> itemCount (listRef s) = total p secs.
Proof.
  intros [_ E]. unfold itemCount. rewrite E, computeState_spec. unfold snd, keys. cbn [data with_items default].
  unfold id. rewrite length_fmap, length_seqZ. pose proof (start_nonneg p Hcount secs (length secs)). unfold total in *. lia.
Qed.

(** [scrollToIndex] on an item that the list has laid out. *)
Lemma scrollToIndex_run (l : vl) index animated viewOffset viewPosition :
  0 <= index < itemCount l -> is_Some (getItemLayout (vprops l)) -> hasScrollRef l = true ->
  scrollToIndex index animated viewOffset viewPosition l =
    (Ret tt, set_trace (trace l ++ [ScrollTo
      (Qmaxb 0 (f_offset (frameMetricsApprox l index) -
                viewPosition * (visibleLength (metrics l) - f_length (frameMetricsApprox l index))) - viewOffset)
      animated]) l).
Proof.
  intros Hi Hl Hr. unfold scrollToIndex. rewrite !bind_gets.
  rewrite (proj2 (Z.leb_le _ _)), (proj2 (Z.ltb_lt _ _)) by lia. cbn [andb invariant]. rewrite bind_ret, bind_gets.
  rewrite bool_decide_true by done. cbn [negb andb].
  rewrite (bind_of _ _ _ _ _ (getFrameMetricsApprox_run index l ltac:(lia))), bind_gets.
  unfold scrollToOffset. by rewrite bind_gets, Hr.
Qed.

(** [scrollToLocation] scrolls the list to the row, header or footer it names: to
    the offset of the item at that flat index, minus the length of the section's header
    when headers stick and the item is not itself the header. *)
Theorem scrollToLocation_reaches i sec j animated viewOffset viewPosition s :
  in_section p secs i sec j -> in_sync s -> is_Some (getItemLayout (listProps p)) -> hasScrollRef (listRef s) = true ->
  let l := listRef s in
  let frame := frameMetricsApprox l (start p secs i + j) in
  let header := frameMetricsApprox l (start p secs i) in
  let hidden := if (0 <? j) && stickySectionHeadersEnabled p then (viewOffset + f_length header)%Q else viewOffset in
  scrollToLocation (Z.of_nat i) j animated viewOffset viewPosition s =
    (Ret tt, set_listRef (set_trace (trace l ++ [ScrollTo
      (Qmaxb 0 (f_offset frame - viewPosition * (visibleLength (metrics l) - f_length frame)) - hidden) animated]) l) s).
Proof.
  intros Hj Hsync Hl Hr l frame header hidden. pose proof (in_section_range p Hcount _ _ _ _ Hj) as Hrange.
  pose proof (in_sync_count s Hsync) as En. pose proof Hsync as [Ep El].
  assert (Hl' : is_Some (getItemLayout (vprops l))) by (unfold l; rewrite El, computeState_spec; exact Hl).
  unfold scrollToLocation. rewrite bind_gets, Ep.
  assert (E1 : (if 0 <? Z.of_nat i then
      let! secs0 := read_sections in
      match location_index p secs0 (Z.to_nat (Z.of_nat i)) j with
      | Some index => ret index
      | None => throw (JSError "TypeError: undefined is not an object (this.props.sections[i])")
      end else ret j) s = (Ret (start p secs i + j), s)).
  { destruct i as [|i]; [by rewrite start_0|]. rewrite (proj2 (Z.ltb_lt _ _)) by lia.
    unfold read_sections. rewrite bind_assoc, bind_gets, Ep, Hsecs, bind_ret, Nat2Z.id.
    by rewrite (location_found p secs _ sec) by apply Hj. }
  rewrite (bind_of _ _ _ _ _ E1). replace (start p secs i + j - j) with (start p secs i) by lia.
  assert (E2 : (if (0 <? j) && stickySectionHeadersEnabled p then
      let! frame := on_list (getFrameMetricsApprox (start p secs i)) in ret (viewOffset + f_length frame)%Q
    else ret viewOffset) s = (Ret hidden, s)).
  { unfold hidden. destruct (_ && _); [|done]. rewrite (bind_of _ _ _ (frameMetricsApprox l (start p secs i)) s); [done|].
    unfold on_list. rewrite getFrameMetricsApprox_run; [by destruct s|]. destruct Hj. lia. }
  rewrite (bind_of _ _ _ _ _ E2). unfold on_list. rewrite scrollToIndex_run; [done|lia|done|done].
Qed.

(** *** Keyboard navigation *)
(** Row paths in order: how many rows come before; the initial path comes before all. *)
Fixpoint rows_before (l : list section) (i : nat) : Z :=
  match i, l with
  | Datatypes.S i', sec :: l' => data_length sec + rows_before l' i'
  | _, _ => 0
  end.
Definition rank (path : index_path) : Z := rows_before secs (Z.to_nat (sectionIndex path)) + rowIndex path.
Definition row_path (path : index_path) : Prop :=
  exists sec, 0 <= sectionIndex path /\ secs !! Z.to_nat (sectionIndex path) = Some sec /\
    0 <= rowIndex path < data_length sec.

Lemma rows_before_S l i sec : l !! i = Some sec -> rows_before l (Datatypes.S i) = rows_before l i + data_length sec.
Proof.
  revert i. induction l as [|sec0 l IH]; intros [|i] H; cbn in H; simplify_eq.
  - cbn [rows_before]. replace (rows_before l 0) with 0 by (by destruct l). lia.
  - pose proof (IH i H) as E. cbn [rows_before] in *. lia.
Qed.
Lemma rows_before_le l i j : (i <= j)%nat -> rows_before l i <= rows_before l j.
Proof.
  revert i j. induction l as [|sec l IH]; intros i j H; [by destruct i, j|].
  destruct j as [|j]; [by replace i with 0%nat by lia|]. destruct i as [|i].
  - pose proof (IH 0%nat j ltac:(lia)). replace (rows_before l 0) with 0 in * by (by destruct l).
    cbn [rows_before]. unfold data_length. lia.
  - pose proof (IH i j ltac:(lia)). cbn [rows_before]. lia.
Qed.

Lemma read_section_run i sec s : sprops s = p -> 0 <= i -> secs !! Z.to_nat i = Some sec ->
  read_section i s = (Ret sec, s).
Proof.
  intros Ep Hi E. unfold read_section, read_sections. rewrite bind_assoc, bind_gets, Ep, Hsecs, bind_ret.
  by rewrite (proj2 (Z.leb_le _ _)), E by lia.
Qed.
Lemma select_run path s : select path s = (Ret path, set_pathUpdates (pathUpdates s ++ [path]) s).
Proof. done. Qed.

Definition rows_total : Z := rows_before secs (length secs).
Hypothesis Hrows : Forall (fun sec => 0 < data_length sec) secs.

Lemma row_path_rank path : row_path path -> 0 <= rank path < rows_total.
Proof.
  intros (sec & H1 & H2 & H3). unfold rank, rows_total.
  pose proof (rows_before_le secs 0 (Z.to_nat (sectionIndex path)) ltac:(lia)).
  replace (rows_before secs 0) with 0 in * by (by destruct secs).
  pose proof (rows_before_le secs (Datatypes.S (Z.to_nat (sectionIndex path))) (length secs) (lookup_lt_Some _ _ _ H2)).
  rewrite (rows_before_S _ _ _ H2) in *. lia.
Qed.
Lemma row_at (i : nat) r sec : secs !! i = Some sec -> 0 <= r < data_length sec ->
  row_path (Build_index_path (Z.of_nat i) r) /\ rank (Build_index_path (Z.of_nat i) r) = rows_before secs i + r.
Proof.
  intros E Hr. unfold rank, row_path. cbn [sectionIndex rowIndex]. rewrite Nat2Z.id.
  split; [exists sec; split_and!; try done; lia|done].
Qed.

(** The paths a selection can have. *)
Definition selectable (path : index_path) : Prop := row_path path \/ path = initial_path /\ secs <> [].
Lemma selectable_section path : selectable path -> exists (i : nat) sec, path = Build_index_path (Z.of_nat i) (rowIndex path) /\
  secs !! i = Some sec /\ 0 < data_length sec /\ (0 <= rowIndex path < data_length sec \/ i = 0%nat /\ rowIndex path = -1).
Proof.
  intros [(sec & H1 & H2 & H3)|[-> Hne]].
  - exists (Z.to_nat (sectionIndex path)), sec. destruct path as [i r]. cbn in *.
    split_and!; [f_equal; lia|done|lia|by left].
  - destruct secs as [|sec l] eqn:E; [done|]. exists 0%nat, sec.
    split_and!; [done|done|by apply Forall_cons in Hrows as [? _]|by right].
Qed.

Lemma select_below path s : sprops s = p -> selectable path -> exists below,
  selectRowBelowIndexPath path s = (Ret below, set_pathUpdates (pathUpdates s ++ [below]) s) /\
  row_path below /\ rank below = Z.min (rank path + 1) (rows_total - 1).
Proof.
  intros Ep Hp. destruct (selectable_section path Hp) as (i & sec & -> & E & Hlen & Hr). set (r := rowIndex path) in *.
  pose proof (lookup_lt_Some _ _ _ E) as Hi. cbn [rowIndex] in *.
  assert (Hrank : rank (Build_index_path (Z.of_nat i) r) = rows_before secs i + r) by (unfold rank; cbn; by rewrite Nat2Z.id).
  unfold selectRowBelowIndexPath, read_sections. rewrite bind_assoc, bind_gets, Ep, Hsecs, bind_ret. cbn [sectionIndex rowIndex].
  rewrite (proj2 (Z.leb_gt _ _)) by lia.
  rewrite (bind_of _ _ _ _ _ (read_section_run (Z.of_nat i) sec s Ep ltac:(lia) ltac:(by rewrite Nat2Z.id))).
  pose proof (rows_before_S _ _ _ E) as HS. pose proof (rows_before_le secs (Datatypes.S i) (length secs) Hi) as Hle.
  fold rows_total in Hle.
  destruct (Z.ltb_spec (data_length sec - 1) (r + 1)).
  - destruct (Z.ltb_spec (Z.of_nat i) (Z.of_nat (length secs) - 1)).
    + destruct (lookup_lt_is_Some_2 secs (Datatypes.S i) ltac:(lia)) as [sec' E'].
      pose proof (proj1 (Forall_lookup _ _) Hrows _ _ E') as Hlen'. cbn in Hlen'.
      rewrite select_run. replace (Z.of_nat i + 1) with (Z.of_nat (Datatypes.S i)) by lia. eexists. split; [done|].
      destruct (row_at (Datatypes.S i) 0 sec' E' ltac:(lia)) as [H1 H2]. split; [done|].
      pose proof (row_path_rank _ H1). lia.
    + rewrite select_run. eexists. split; [done|]. destruct (row_at i r sec E ltac:(lia)) as [H1 H2]. split; [done|].
      assert (Datatypes.S i = length secs) as HL by lia. unfold rows_total in *. rewrite <- HL in *. lia.
  - rewrite select_run. eexists. split; [done|]. destruct (row_at i (r + 1) sec E ltac:(lia)) as [H1 H2]. split; [done|].
    pose proof (row_path_rank _ H1). lia.
Qed.

Lemma select_above path s : sprops s = p -> selectable path -> exists above,
  selectRowAboveIndexPath path s = (Ret above, set_pathUpdates (pathUpdates s ++ [above]) s) /\
  selectable above /\ rank above = (if rank path <=? 0 then rank path else rank path - 1).
Proof.
  intros Ep Hp. destruct (selectable_section path Hp) as (i & sec & Epath & E & Hlen & Hr).
  rewrite Epath in *. set (r := rowIndex path) in *.
  pose proof (lookup_lt_Some _ _ _ E) as Hi. cbn [rowIndex] in *.
  assert (Hrank : rank (Build_index_path (Z.of_nat i) r) = rows_before secs i + r) by (unfold rank; cbn; by rewrite Nat2Z.id).
  unfold selectRowAboveIndexPath, read_sections. rewrite bind_assoc, bind_gets, Ep, Hsecs, bind_ret. cbn [sectionIndex rowIndex].
  rewrite (proj2 (Z.leb_gt _ _)) by lia. rewrite Hrank.
  pose proof (rows_before_le secs 0 i ltac:(lia)) as H0. replace (rows_before secs 0) with 0 in * by (by destruct secs).
  destruct (Z.ltb_spec (r - 1) 0).
  - destruct i as [|i].
    + cbn [Z.of_nat]. rewrite (proj2 (Z.ltb_ge _ _)) by lia. rewrite select_run. eexists. split; [done|].
      split; [exact Hp|]. change 0 with (Z.of_nat 0). rewrite Hrank. rewrite (proj2 (Z.leb_le _ _)); [done|].
      destruct secs; cbn [rows_before] in *; lia.
    + rewrite (proj2 (Z.ltb_lt _ _)) by lia. replace (Z.of_nat (Datatypes.S i) - 1) with (Z.of_nat i) by lia.
      destruct (lookup_lt_is_Some_2 secs i ltac:(lia)) as [sec' E'].
      pose proof (proj1 (Forall_lookup _ _) Hrows _ _ E') as Hlen'. cbn in Hlen'.
      rewrite (bind_of _ _ _ _ _ (read_section_run (Z.of_nat i) sec' s Ep ltac:(lia) ltac:(by rewrite Nat2Z.id))).
      rewrite select_run, Z.max_r by lia. eexists. split; [done|].
      destruct (row_at i (data_length sec' - 1) sec' E' ltac:(lia)) as [H1 H2]. split; [by left|].
      pose proof (row_path_rank _ H1). rewrite (rows_before_S _ _ _ E') in *.
      rewrite (proj2 (Z.leb_gt _ _)) by lia. lia.
  - rewrite select_run. eexists. split; [done|]. destruct (row_at i (r - 1) sec E ltac:(lia)) as [H1 H2]. split; [by left|].
    pose proof (row_path_rank _ H1). rewrite (proj2 (Z.leb_gt _ _)) by lia. lia.
Qed.

(** When no section is empty, the arrow keys walk the rows of all sections in
    order: "down" selects the next row, across sections, and stays on the last one;
    "up" selects the previous row and stays on the first; from the initial selection,
    before all rows, "down" selects the first row. *)
Theorem selection_walks_rows path s : sprops s = p -> selectable path ->
  (exists below, selectRowBelowIndexPath path s = (Ret below, set_pathUpdates (pathUpdates s ++ [below]) s) /\
     row_path below /\ rank below = Z.min (rank path + 1) (rows_total - 1)) /\
  (exists above, selectRowAboveIndexPath path s = (Ret above, set_pathUpdates (pathUpdates s ++ [above]) s) /\
     selectable above /\ rank above = (if rank path <=? 0 then rank path else rank path - 1)).
Proof. intros Ep Hp. split; [by apply select_below|by apply select_above]. Qed.
End child.

(** ** What an item renders as *)
Section rows.
Context (p : props) (secs : list section).
Hypothesis Hcount : forall d, 0 <= getItemCount p d.
Hypothesis Hsecs : sections p = Some secs.

Definition item_separator (sec : section) : option nat :=
  match sec_ItemSeparatorComponent sec with Some c => Some c | None => ItemSeparatorComponent p end.
Lemma separator_between s i sec j : sprops s = p -> childItemCount s = total p secs -> in_section p secs i sec j ->
  1 <= j <= getItemCount p (sec_data sec) ->
  getSeparatorComponent (start p secs i + j) (info_at p secs i sec j) s =
    if j =? getItemCount p (sec_data sec) then SectionSeparatorComponent p else item_separator sec.
Proof.
  intros Ep En Hj Hrow. unfold getSeparatorComponent, info_at. rewrite Ep, En.
  rewrite !(proj2 (Z.eqb_neq j _)) by lia. cbn [i_index i_section item_info].
  assert (Hin : in_section p secs i sec (getItemCount p (sec_data sec) + 1)) by (split; [apply Hj|lia]).
  pose proof (in_section_range p Hcount _ _ _ _ Hin).
  rewrite (proj2 (Z.eqb_neq _ (total p secs - 1))) by lia. cbn [negb]. rewrite andb_true_r. fold (item_separator sec).
  destruct (Z.eqb_spec j (getItemCount p (sec_data sec))) as [->|Hne].
  - rewrite bool_decide_true by done. cbn. by destruct (SectionSeparatorComponent p).
  - rewrite bool_decide_false by (intros [=]; lia). cbn. by destruct (SectionSeparatorComponent p).
Qed.

(** Every item of the list renders as what it stands for: a header or footer of
    its section if the component is given, and otherwise the row, with a section
    separator above the first row, the item separator below every row but the last of
    its section and the section separator below that one, and the key of the item
    before it, whose separator it highlights. *)
Theorem items_render_in_place s i sec j item r : sprops s = p -> childItemCount s = total p secs ->
  in_section p secs i sec j -> (match sec_renderItem sec with Some r => Some r | None => renderItem p end) = Some r ->
  _renderItem item (start p secs i + j) s = (Ret (
    if j =? 0 then from_option (fun c => SectionHeader c sec) NoElement (renderSectionHeader p)
    else if j =? getItemCount p (sec_data sec) + 1
      then from_option (fun c => SectionFooter c sec) NoElement (renderSectionFooter p)
    else Row r item (j - 1) (info_at p secs i sec j) (isItemSelected item s)
           (if j =? 1 then SectionSeparatorComponent p else None)
           (if j =? getItemCount p (sec_data sec) then SectionSeparatorComponent p else item_separator sec)
           (Some (section_key i sec +:+ ":" +:+ key_in_section p sec (j - 1)))), s).
Proof.
  intros Ep En Hj Hr. unfold _renderItem. rewrite bind_gets, Ep. unfold read_sections.
  rewrite bind_assoc, bind_gets, Ep, Hsecs, bind_ret. unfold subExtractor at 1.
  rewrite (info_found p Hcount _ _ _ _ _ _ Hj). cbn zeta. rewrite Nat.add_0_l. fold (info_at p secs i sec j).
  destruct (Z.eqb_spec j 0) as [->|H0]; [done|]. destruct (Z.eqb_spec j (getItemCount p (sec_data sec) + 1)) as [->|H1].
  { unfold info_at. rewrite (proj2 (Z.eqb_neq _ 0)), Z.eqb_refl by lia. done. }
  assert (Hrow : 1 <= j <= getItemCount p (sec_data sec)) by (destruct Hj; lia).
  pose proof (separator_between s i sec j Ep En Hj Hrow) as Hsep.
  assert (Hi : i_index (info_at p secs i sec j) = Some (j - 1) /\ i_section (info_at p secs i sec j) = sec).
  { unfold info_at. rewrite !(proj2 (Z.eqb_neq j _)) by lia. done. }
  destruct Hi as [Hi Hs]. rewrite Hi, !bind_gets, Hsep, Hs, Hr. unfold ret. f_equal. f_equal.
  assert (Hprev : in_section p secs i sec (j - 1)) by (split; [apply Hj|lia]).
  f_equal.
  - by destruct (Z.eqb_spec (j - 1) 0), (Z.eqb_spec j 1); try lia.
  - replace (start p secs i + j - 1) with (start p secs i + (j - 1)) by lia.
    pose proof (key_at p Hcount _ _ _ _ Hprev) as Hk. unfold _keyExtractor, subExtractor in *.
    rewrite (info_found p Hcount _ _ _ _ _ _ Hprev) in *. cbn [fmap option_fmap option_map]. f_equal. rewrite <- Hk.
    case_decide as Hx; [|done]. exfalso. revert Hx. rewrite !(proj2 (Z.eqb_neq _ (getItemCount p (sec_data sec) + 1))) by lia.
    assert (Hne : forall a b, (a +:+ ":" +:+ b)%string <> ""%string) by (by intros [|]).
    destruct (j - 1 =? 0); cbn [i_key edge_info item_info]; apply Hne.
Qed.
End rows.
End section_list.

(** ** Two sections of two and one rows *)
Section examples.
Definition demo_key (_ : nat) (e : entry (Item:=Z)) (_ : option Z) : string :=
  match e with AnItem (Some z) => pretty z | _ => "none" end.
Definition demo_section (k : string) (l : list Z) : section := Build_section k l None None None.
Definition demo_secs : list (section (Item:=Z)) := [demo_section "a" [10; 20]; demo_section "" [30]].
Definition demo_sprops : props (Item:=Z) :=
  Build_props (Some demo_secs) (fun d => Z.of_nat (length d)) (fun d i => if i <? 0 then None else d !! Z.to_nat i) 0
    (Some 1%nat) (Some 2%nat) None (Some 3%nat) (Some 4%nat) true false true true (demo_props 0).
Definition demo_sl : sl (Item:=Z) := new_VirtualizedSectionList demo_key demo_sprops.

Lemma demo_count d : 0 <= getItemCount demo_sprops d.
Proof. cbn. lia. Qed.

Lemma flat_index_roundtrip_witness : exists i s j, in_section demo_sprops demo_secs i s j /\
  location_index demo_sprops demo_secs i j = Some 5.
Proof.
  pose proof (flat_index_roundtrip demo_key demo_sprops demo_count demo_secs) as H.
  destruct H as [H _]. apply H. vm_compute. split; [discriminate|reflexivity].
Defined.

Lemma demo_good_keys : good_keys demo_key demo_sprops demo_secs.
Proof.
  split.
  - intros [|[|i]] [|[|i']] s s' H H' E; cbn in H, H'; simplify_eq; try done; vm_compute in E; discriminate E.
  - intros [|[|i]] s H; cbn in H; simplify_eq; reflexivity.
  - intros [|[|i]] s j j' [H Hj] [_ Hj'] E; cbn in H; simplify_eq; cbn in Hj, Hj'.
    + assert (j = 0 \/ j = 1 \/ j = 2 \/ j = 3) as [-> | [-> | [-> | ->]]] by lia;
      assert (j' = 0 \/ j' = 1 \/ j' = 2 \/ j' = 3) as [-> | [-> | [-> | ->]]] by lia; try done; vm_compute in E; discriminate E.
    + assert (j = 0 \/ j = 1 \/ j = 2) as [-> | [-> | ->]] by lia;
      assert (j' = 0 \/ j' = 1 \/ j' = 2) as [-> | [-> | ->]] by lia; try done; vm_compute in E; discriminate E.
Qed.

Lemma list_gets_distinct_keys_witness :
  let s := final (componentWillReceiveProps no_child demo_key demo_sprops true) demo_sl in
  NoDup (default [] (data (vprops (listRef s)))) /\
  data (vprops (listRef s)) = Some ["a:header"; "a:10"; "a:20"; "a:footer"; "1:header"; "1:30"; "1:footer"].
Proof.
  intros s. split; [|vm_compute; reflexivity].
  apply (list_gets_distinct_keys no_child demo_key demo_sprops demo_secs demo_count eq_refl true demo_sl s demo_good_keys).
  vm_compute. reflexivity.
Defined.

Lemma scrollToLocation_reaches_witness :
  let s := scrollToLocation 1 1 true 0 0 demo_sl in
  fst s = Ret tt /\ trace (listRef (snd s)) = [ScrollTo (40 # 1) true].
Proof.
  intros s. assert (E : scrollToLocation (Z.of_nat 1) 1 true 0 0 demo_sl = s) by reflexivity.
  rewrite (scrollToLocation_reaches demo_key demo_sprops demo_secs demo_count eq_refl 1 (demo_section "" [30]) 1 true 0 0 demo_sl) in E.
  - rewrite <- E. split; [reflexivity|]. vm_compute. reflexivity.
  - split; [reflexivity|cbn; lia].
  - split; [reflexivity|vm_compute; reflexivity].
  - eexists. reflexivity.
  - reflexivity.
Defined.

Lemma selection_walks_rows_witness :
  selectRowBelowIndexPath (Build_index_path 0 1) demo_sl =
    (Ret (Build_index_path 1 0), set_pathUpdates [Build_index_path 1 0] demo_sl).
Proof.
  destruct (selection_walks_rows demo_sprops demo_secs eq_refl
    ltac:(repeat constructor) (Build_index_path 0 1) demo_sl eq_refl) as [(below & E & _) _].
  - left. exists (demo_section "a" [10; 20]). split; [cbn; lia|]. split; [reflexivity|]. vm_compute. split; [discriminate|reflexivity].
  - rewrite E. vm_compute in E. injection E as <-. reflexivity.
Defined.

Lemma items_render_in_place_witness :
  exists i, _renderItem demo_key (Some 30) 5 demo_sl = (Ret (Row 1 (Some 30) 0 i false (Some 4%nat) (Some 4%nat) (Some "1:header")), demo_sl).
Proof.
  eexists. rewrite (items_render_in_place demo_key demo_sprops demo_secs demo_count eq_refl demo_sl 1 (demo_section "" [30]) 1 (Some 30) 1 eq_refl).
  - reflexivity.
  - vm_compute. reflexivity.
  - split; [reflexivity|cbn; lia].
  - reflexivity.
Defined.
End examples.
