(* ===== verification/AsyncStorage.v ===== *)
(** * AsyncStorage

    Libraries/Storage/AsyncStorage.js: the key-value store over the native module, with
    the batching of [multiGet].  The fields of the object, the promises it makes and the
    calls native has not answered yet are the record [st]; an answer of native is the
    operation [native_reply], and the immediate that [multiGet] requests runs as
    [immediate_fires].  Client callbacks are the parameter [call] and may re-enter the
    store.  [null] and [undefined] are both [None].  The module does not load without
    the native module (its last statement reads a property of it), so the [invariant]s
    on its presence never fail. *)
From stdpp Require Import base numbers list strings gmap.
From S2P Require Import Prelude.

Record error := { e_message : string; e_key : option string }.
(** The errors native passes: nothing, one error object, or an array. *)
Inductive native_errors := NoErrors | OneError (e : error) | ManyErrors (l : list (option error)).

Definition convertError (e : option error) : option error :=
  match e with Some e => Some (Build_error (e_message e) (e_key e)) | None => None end.
Definition convertErrors (errs : native_errors) : option (list (option error)) :=
  match errs with
  | NoErrors => None
  | OneError e => Some [convertError (Some e)]
  | ManyErrors l => Some (convertError <$> l)
  end.
(** [errs && errs[0]] *)
Definition first_error (errs : option (list (option error))) : option error := errs ≫= fun l => mjoin (head l).

Inductive value := Null | Text (t : string) | Pairs (l : list (string * option string)) | KeyList (l : option (list string)).
Inductive rejection := RError (e : option error) | RErrors (l : list (option error)).
Inductive promise := Pending | Resolved (v : value) | Rejected (r : rejection).

(** The arguments a client callback receives. *)
Inductive callback_args :=
  | OnItem (e : option error) (value : option string)
  | OnDone (e : option error)
  | OnKeys (e : option error) (keys : option (list string))
  | OnPairs (result : list (string * option string))
  | OnErrors (errors : option (list (option error))).

Record request := { keys : list string; callback : option nat; resolve : nat }.

(** What native is asked, and the function it calls back. *)
Inductive native_request :=
  | MultiGet (ks : list string) | MultiSet (l : list (string * string)) | MultiRemove (ks : list string)
  | MultiMerge (l : list (string * string)) | Clear | GetAllKeys.
Inductive continuation :=
  | ItemRead (p : nat) (cb : option nat)
  | ItemDone (p : nat) (cb : option nat)
  | Cleared (p : nat) (cb : option nat)
  | KeysRead (p : nat) (cb : option nat)
  | Batch (requests : list request)
  | ManyDone (p : nat) (cb : option nat).
(** An answer of native: only the fields the continuation reads matter. *)
Record answer := {
  a_errors : native_errors;
  a_error : option error;
  a_result : option (list (string * option string));
  a_keys : option (list string)
}.

Record st := {
  getRequests : list request;
  getKeys : list string;
  immediate : bool;
  promises : list promise;
  outstanding : list (option (native_request * continuation))
}.
Definition init : st := Build_st [] [] false [] [].
Definition set_getRequests x (s : st) : st := Build_st x (getKeys s) (immediate s) (promises s) (outstanding s).
Definition set_getKeys x (s : st) : st := Build_st (getRequests s) x (immediate s) (promises s) (outstanding s).
Definition set_immediate x (s : st) : st := Build_st (getRequests s) (getKeys s) x (promises s) (outstanding s).
Definition set_promises x (s : st) : st := Build_st (getRequests s) (getKeys s) (immediate s) x (outstanding s).
Definition set_outstanding x (s : st) : st := Build_st (getRequests s) (getKeys s) (immediate s) (promises s) x.

Section async_storage.
Context (call : nat -> callback_args -> JS st unit).
Abbreviation S := st.

Definition new_promise : JS S nat :=
  let! p := gets (fun s => length (promises s)) in
  do! modify (fun s => set_promises (promises s ++ [Pending]) s);
  ret p.
(** [resolve] or [reject]: only the first call has an effect. *)
Definition settle (p : nat) (r : promise) : JS S unit :=
  modify (fun s =>
    match promises s !! p with Some Pending => set_promises (<[p := r]> (promises s)) s | _ => s end).
Definition call_native (r : native_request) (k : continuation) : JS S unit :=
  modify (fun s => set_outstanding (outstanding s ++ [Some (r, k)]) s).
(** [callback && callback(...)] *)
Definition call_back (cb : option nat) (a : callback_args) : JS S unit :=
  match cb with Some f => call f a | None => ret tt end.

(** ** The operations *)
Definition ask (r : native_request) (k : nat -> continuation) : JS S nat :=
  let! p := new_promise in
  do! call_native r (k p);
  ret p.
Definition getItem (key : string) (cb : option nat) : JS S nat := ask (MultiGet [key]) (fun p => ItemRead p cb).
Definition setItem (key val : string) (cb : option nat) : JS S nat := ask (MultiSet [(key, val)]) (fun p => ItemDone p cb).
Definition removeItem (key : string) (cb : option nat) : JS S nat := ask (MultiRemove [key]) (fun p => ItemDone p cb).
Definition mergeItem (key val : string) (cb : option nat) : JS S nat := ask (MultiMerge [(key, val)]) (fun p => ItemDone p cb).
Definition clear (cb : option nat) : JS S nat := ask Clear (fun p => Cleared p cb).
Definition getAllKeys (cb : option nat) : JS S nat := ask GetAllKeys (fun p => KeysRead p cb).
Definition multiSet (l : list (string * string)) (cb : option nat) : JS S nat := ask (MultiSet l) (fun p => ManyDone p cb).
Definition multiRemove (ks : list string) (cb : option nat) : JS S nat := ask (MultiRemove ks) (fun p => ManyDone p cb).
Definition multiMerge (l : list (string * string)) (cb : option nat) : JS S nat := ask (MultiMerge l) (fun p => ManyDone p cb).

Definition flushGetRequests : JS S unit :=
  let! requests := gets getRequests in
  let! ks := gets getKeys in
  do! modify (set_getRequests []);
  do! modify (set_getKeys []);
  call_native (MultiGet ks) (Batch requests).

Definition add_key (ks : list string) (key : string) : list string :=
  if decide (key ∈ ks) then ks else ks ++ [key].
Definition multiGet (ks : list string) (cb : option nat) : JS S nat :=
  let! armed := gets immediate in
  do! when (negb armed) (modify (set_immediate true));
  let! p := new_promise in
  do! modify (fun s => set_getRequests (getRequests s ++ [Build_request ks cb p]) s);
  do! for_each ks (fun key => modify (fun s => set_getKeys (add_key (getKeys s) key) s));
  ret p.
(** The immediate. *)
Definition immediate_fires : JS S unit :=
  let! armed := gets immediate in
  when armed (do! modify (set_immediate false); flushGetRequests).

(** ** The answers of native *)
Definition result_map (result : option (list (string * option string))) : gmap string (option string) :=
  foldl (fun m kv => <[kv.1 := kv.2]> m) ∅ (default [] result).
Definition pick (m : gmap string (option string)) (key : string) : string * option string := (key, mjoin (m !! key)).

(** [value ? value : null] *)
Definition text_or_null (v : option string) : option string :=
  match v with Some t => if decide (t = ""%string) then None else Some t | None => None end.
Definition settle_with (p : nat) (errs : option (list (option error))) (v : value) : JS S unit :=
  match errs with Some l => settle p (Rejected (RError (mjoin (head l)))) | None => settle p (Resolved v) end.

Definition answer_request (m : gmap string (option string)) (r : request) : JS S unit :=
  let requestResult := pick m <$> keys r in
  do! call_back (callback r) (OnPairs requestResult);
  settle (resolve r) (Resolved (Pairs requestResult)).

Definition run_continuation (k : continuation) (a : answer) : JS S unit :=
  match k with
  | ItemRead p cb =>
      let v := text_or_null (a_result a ≫= fun l => head l ≫= fun kv => kv.2) in
      let errs := convertErrors (a_errors a) in
      do! call_back cb (OnItem (first_error errs) v);
      settle_with p errs (match v with Some t => Text t | None => Null end)
  | ItemDone p cb =>
      let errs := convertErrors (a_errors a) in
      do! call_back cb (OnDone (first_error errs));
      settle_with p errs Null
  | Cleared p cb =>
      do! call_back cb (OnDone (convertError (a_error a)));
      match convertError (a_error a) with
      | Some e => settle p (Rejected (RError (Some e)))
      | None => settle p (Resolved Null)
      end
  | KeysRead p cb =>
      do! call_back cb (OnKeys (convertError (a_error a)) (a_keys a));
      match a_error a with
      | Some _ => settle p (Rejected (RError (convertError (a_error a))))
      | None => settle p (Resolved (KeyList (a_keys a)))
      end
  | Batch requests => for_each requests (answer_request (result_map (a_result a)))
  | ManyDone p cb =>
      let errs := convertErrors (a_errors a) in
      do! call_back cb (OnErrors errs);
      match errs with
      | Some l => settle p (Rejected (RErrors l))
      | None => settle p (Resolved Null)
      end
  end.
(** Native answers the call [n]; a call is answered once. *)
Definition native_reply (n : nat) (a : answer) : JS S unit :=
  let! c := gets (fun s => outstanding s !! n) in
  match c with
  | Some (Some (_, k)) =>
      do! modify (fun s => set_outstanding (<[n := None]> (outstanding s)) s);
      run_continuation k a
  | _ => ret tt
  end.

Inductive op :=
  | GetItem (key : string) (cb : option nat)
  | SetItem (key val : string) (cb : option nat)
  | RemoveItem (key : string) (cb : option nat)
  | MergeItem (key val : string) (cb : option nat)
  | ClearAll (cb : option nat)
  | AllKeys (cb : option nat)
  | GetMany (ks : list string) (cb : option nat)
  | SetMany (l : list (string * string)) (cb : option nat)
  | RemoveMany (ks : list string) (cb : option nat)
  | MergeMany (l : list (string * string)) (cb : option nat)
  | Flush
  | ImmediateFires
  | NativeReply (n : nat) (a : answer).
Definition discard {A} (m : JS S A) : JS S unit := do! m; ret tt.
Definition run_op (o : op) : JS S unit :=
  match o with
  | GetItem key cb => discard (getItem key cb)
  | SetItem key val cb => discard (setItem key val cb)
  | RemoveItem key cb => discard (removeItem key cb)
  | MergeItem key val cb => discard (mergeItem key val cb)
  | ClearAll cb => discard (clear cb)
  | AllKeys cb => discard (getAllKeys cb)
  | GetMany ks cb => discard (multiGet ks cb)
  | SetMany l cb => discard (multiSet l cb)
  | RemoveMany ks cb => discard (multiRemove ks cb)
  | MergeMany l cb => discard (multiMerge l cb)
  | Flush => flushGetRequests
  | ImmediateFires => immediate_fires
  | NativeReply n a => native_reply n a
  end.

Lemma elem_of_concat {A} (x : A) ls : x ∈ concat ls <-> exists l, l ∈ ls /\ x ∈ l.
Proof.
  rewrite list_elem_of_In, in_concat. by split; intros (l & H1 & H2); exists l; rewrite ?list_elem_of_In in *.
Qed.

(** ** No request is forgotten *)
Definition continuation_ids (k : continuation) : list nat :=
  match k with
  | ItemRead p _ | ItemDone p _ | Cleared p _ | KeysRead p _ | ManyDone p _ => [p]
  | Batch requests => resolve <$> requests
  end.
Definition call_ids (c : option (native_request * continuation)) : list nat :=
  match c with Some (_, k) => continuation_ids k | None => [] end.
(** The promises somebody is going to settle: those of the queued requests and of the
    calls native has not answered. *)
Definition owned (s : S) : list nat := (resolve <$> getRequests s) ++ concat (call_ids <$> outstanding s).
(** The keys of the requests, each once, in the order of their first request. *)
Definition union_keys (requests : list request) : list string := foldl add_key [] (concat (keys <$> requests)).

(** [X] are promises the running code is about to settle. *)
Record inv (X : list nat) (s : S) : Prop := {
  inv_pending p : promises s !! p = Some Pending <-> p ∈ owned s ++ X;
  inv_distinct : NoDup (owned s ++ X);
  inv_armed : getRequests s <> [] -> immediate s = true;
  inv_keys : getKeys s = union_keys (getRequests s);
  inv_batch n r requests : outstanding s !! n = Some (Some (r, Batch requests)) -> r = MultiGet (union_keys requests)
}.
(** The promises of [X] are not touched, and settled promises stay as they are. *)
Definition kept (X : list nat) (s s' : S) : Prop :=
  (forall p, p ∈ X -> promises s' !! p = promises s !! p) /\
  (forall p r, r <> Pending -> promises s !! p = Some r -> promises s' !! p = Some r).
Lemma kept_same X s s' : promises s' = promises s -> kept X s s'.
Proof. by intros E; split; rewrite E. Qed.
Lemma kept_trans X s1 s2 s3 : kept X s1 s2 -> kept X s2 s3 -> kept X s1 s3.
Proof. intros [H1 H2] [H3 H4]. split; [intros p Hp; by rewrite H3, H1|auto]. Qed.
Lemma kept_incl X Y s s' : Y ⊆ X -> kept X s s' -> kept Y s s'.
Proof. intros HXY [H1 H2]. split; [|done]. intros p Hp. by apply H1, HXY. Qed.
Definition step (X : list nat) (s s' : S) : Prop := inv X s -> inv X s' /\ kept X s s'.
#[local] Instance step_preorder X : PreOrder (step X).
Proof.
  split; unfold step; [intros s Hi; split; [done|by apply kept_same]|].
  intros s1 s2 s3 H1 H2 Hi. destruct (H1 Hi) as [Hi2 E1], (H2 Hi2) as [Hi3 E2]. split; [done|by eapply kept_trans].
Qed.
#[local] Hint Resolve step_preorder : js.

Lemma owned_append s c : owned (set_outstanding (outstanding s ++ [c]) s) ≡ₚ call_ids c ++ owned s.
Proof.
  unfold owned. cbn. rewrite fmap_app, concat_app. cbn. rewrite app_nil_r, app_assoc. apply Permutation_app_comm.
Qed.
Lemma owned_answered s n c : outstanding s !! n = Some c ->
  call_ids c ++ owned (set_outstanding (<[n := None]> (outstanding s)) s) ≡ₚ owned s.
Proof.
  intros Hn. unfold owned. cbn. rewrite <- (take_drop_middle (outstanding s) n c Hn) at 2.
  rewrite insert_take_drop by (by eapply lookup_lt_Some). rewrite !fmap_app, !concat_app. cbn.
  solve_Permutation.
Qed.

Lemma inv_perm X Y s : X ≡ₚ Y -> inv X s -> inv Y s.
Proof.
  intros HXY [I1 I2 I3 I4 I5]. split; try done.
  - intros p. rewrite I1, !elem_of_app. by rewrite HXY.
  - by rewrite <- HXY.
Qed.
(** Only the owners change: from the running code to the state or back. *)
Lemma inv_owner X Y s s' : promises s' = promises s -> owned s ++ X ≡ₚ owned s' ++ Y -> inv X s ->
  (getRequests s' <> [] -> immediate s' = true) -> getKeys s' = union_keys (getRequests s') ->
  (forall n r requests, outstanding s' !! n = Some (Some (r, Batch requests)) -> r = MultiGet (union_keys requests)) ->
  inv Y s'.
Proof.
  intros Ep Hperm [I1 I2 _ _ _] H3 H4 H5. split; try done.
  - intros p. by rewrite Ep, I1, Hperm.
  - by rewrite <- Hperm.
Qed.

Lemma inv_new_promise X s : inv X s ->
  exists s', new_promise s = (Ret (length (promises s)), s') /\ inv (length (promises s) :: X) s' /\
    kept X s s' /\ getRequests s' = getRequests s /\ getKeys s' = getKeys s /\
    immediate s' = immediate s /\ outstanding s' = outstanding s.
Proof.
  intros [I1 I2 I3 I4 I5]. eexists. split; [reflexivity|]. cbn.
  assert (Hlt : forall p, p ∈ owned s ++ X -> p < length (promises s)).
  { intros p Hp. apply I1 in Hp. by eapply lookup_lt_Some. }
  assert (Ho : forall p, p ∈ owned s ++ length (promises s) :: X <-> p = length (promises s) \/ p ∈ owned s ++ X).
  { intros p. rewrite !elem_of_app, elem_of_cons. tauto. }
  split_and!; try done.
  - split; try done.
    + intros p. cbn [owned getRequests outstanding set_promises promises]. change (owned (set_promises _ s)) with (owned s).
      rewrite Ho, <- I1. destruct (decide (p = length (promises s))) as [->|Hne].
      * rewrite lookup_app_r, Nat.sub_diag by lia. cbn. tauto.
      * destruct (decide (p < length (promises s))); [rewrite lookup_app_l by done; tauto|].
        rewrite lookup_ge_None_2 by (rewrite length_app; cbn; lia). rewrite (lookup_ge_None_2 (promises s)) by lia. by intuition.
    + change (owned (set_promises _ s)) with (owned s).
      rewrite <- Permutation_middle. constructor; [|done]. intros Hin. apply Hlt in Hin. lia.
  - split.
    + intros p Hp. cbn. rewrite lookup_app_l; [done|]. apply Hlt, elem_of_app. by right.
    + intros p r _ Hp. cbn. by apply lookup_app_l_Some.
Qed.

Lemma inv_settle X p r s : inv (p :: X) s -> r <> Pending ->
  exists s', settle p r s = (Ret tt, s') /\ inv X s' /\ promises s' !! p = Some r /\
    (forall q, q <> p -> promises s' !! q = promises s !! q) /\ outstanding s' = outstanding s.
Proof.
  intros [I1 I2 I3 I4 I5] Hr. assert (Hp : promises s !! p = Some Pending) by (apply I1; set_solver).
  unfold settle, modify. rewrite Hp. eexists. split; [reflexivity|]. cbn. pose proof (lookup_lt_Some _ _ _ Hp) as Hlt.
  rewrite <- Permutation_middle in I2. apply NoDup_cons in I2 as [Hnew I2].
  split_and!; [|by apply list_lookup_insert_eq|intros q Hq; by apply list_lookup_insert_ne|done].
  split; try done. intros q. change (owned (set_promises _ s)) with (owned s). cbn [promises set_promises].
  destruct (decide (q = p)) as [->|Hne].
  - rewrite list_lookup_insert_eq by done. split; [congruence|done].
  - rewrite list_lookup_insert_ne, I1, !elem_of_app, elem_of_cons by done. intuition.
Qed.
Lemma inv_pending_self X p s : inv (p :: X) s -> p ∉ X.
Proof.
  intros [_ I2 _ _ _] H. rewrite <- Permutation_middle in I2. apply NoDup_cons in I2 as [Hn _]. apply Hn. set_solver.
Qed.

Lemma step_ask r k X : (forall p, continuation_ids (k p) = [p]) -> (forall p reqs, k p <> Batch reqs) ->
  evolves (step X) (ask r k).
Proof.
  intros Hids Hk s Hi. destruct (inv_new_promise X s Hi) as (s1 & E1 & I1 & HX & Eg & Ek & Ei & Eo).
  unfold final, ask. rewrite (bind_of _ _ _ _ _ E1). unfold call_native. rewrite bind_modify. cbn [snd ret].
  split; [|exact HX]. pose proof I1 as [_ _ J3 J4 J5]. apply (inv_owner (length (promises s) :: X) X s1); [done| |done|done|done|].
  - rewrite owned_append. cbn [call_ids]. rewrite Hids. cbn. by rewrite <- Permutation_middle.
  - intros n r0 reqs Hn. cbn in Hn. destruct (decide (n < length (outstanding s1))).
    + rewrite lookup_app_l in Hn by done. by eapply J5.
    + rewrite lookup_app_r in Hn by lia. destruct (n - length (outstanding s1)); cbn in Hn; [|done].
      injection Hn as _ Hn. by apply Hk in Hn.
Qed.

(** A flush is sound whether or not the immediate is still pending. *)
Lemma flush_inv X s : inv X (set_immediate true s) ->
  inv X (final flushGetRequests s) /\ promises (final flushGetRequests s) = promises s.
Proof.
  intros Hi. unfold final, flushGetRequests, call_native. rewrite !bind_gets, !bind_modify. unfold modify. cbn [snd].
  split; [|reflexivity]. pose proof Hi as [_ _ _ I4 I5].
  apply (inv_owner X X (set_immediate true s)); [done| |exact Hi|done|done|].
  - rewrite owned_append. unfold owned. cbn. solve_Permutation.
  - intros n r reqs Hn. cbn in *. destruct (decide (n < length (outstanding s))).
    + rewrite lookup_app_l in Hn by done. by eapply I5.
    + rewrite lookup_app_r in Hn by lia. destruct (n - length (outstanding s)); cbn in Hn; [|done].
      injection Hn as <- <-. by rewrite I4.
Qed.
Lemma inv_armed_true X s : inv X s -> inv X (set_immediate true s).
Proof. intros [I1 I2 I3 I4 I5]. by split. Qed.
Lemma step_flush X : evolves (step X) flushGetRequests.
Proof. intros s Hi. destruct (flush_inv X s (inv_armed_true _ _ Hi)) as [H E]. split; [done|by apply kept_same]. Qed.
Lemma step_immediate X : evolves (step X) immediate_fires.
Proof.
  intros s Hi. unfold final, immediate_fires. rewrite bind_gets. destruct (immediate s); cbn [when]; [|split; [done|by apply kept_same]].
  rewrite bind_modify. destruct (flush_inv X (set_immediate false s)) as [H E]; [by apply inv_armed_true in Hi|].
  unfold final in *. split; [done|]. apply kept_same. by rewrite E.
Qed.

Lemma add_keys_run (ks : list string) (s : S) :
  for_each ks (fun key => modify (fun s => set_getKeys (add_key (getKeys s) key) s)) s =
    (Ret tt, set_getKeys (foldl add_key (getKeys s) ks) s).
Proof.
  revert s. induction ks as [|key ks IH]; intros s; cbn [for_each foldl]; [by destruct s|].
  rewrite bind_modify, IH. done.
Qed.
Lemma union_keys_snoc requests r : union_keys (requests ++ [r]) = foldl add_key (union_keys requests) (keys r).
Proof. unfold union_keys. rewrite fmap_app, concat_app, foldl_app. cbn. by rewrite app_nil_r. Qed.
Lemma step_multiGet ks cb X : evolves (step X) (multiGet ks cb).
Proof.
  intros s Hi. unfold final, multiGet. rewrite bind_gets.
  set (s0 := set_immediate true s).
  assert (I0 : inv X s0) by (by apply inv_armed_true).
  assert (E0 : when (negb (immediate s)) (modify (set_immediate true)) s = (Ret tt, s0)).
  { unfold s0. destruct s as [? ? [] ? ?]; done. }
  rewrite (bind_of _ _ _ _ _ E0). change (promises s) with (promises s0) in *.
  destruct (inv_new_promise X s0 I0) as (s1 & E1 & I1 & HX & Eg & Ek & Ei & Eo). rewrite (bind_of _ _ _ _ _ E1), bind_modify.
  rewrite (bind_of _ _ _ _ _ (add_keys_run _ _)). cbn [snd ret].
  split; [|exact HX]. pose proof I1 as [J1 J2 J3 J4 J5]. apply (inv_owner (length (promises s0) :: X) X s1); [done| |exact I1| | |].
  - unfold owned. cbn. rewrite fmap_app. cbn. solve_Permutation.
  - intros _. cbn. by rewrite Ei.
  - cbn [getKeys getRequests set_getKeys set_getRequests]. rewrite union_keys_snoc. by rewrite <- J4.
  - exact J5.
Qed.

(** *** With client callbacks that return *)
Hypothesis Hcall : forall X f a, evolves (step X) (call f a).
Hypothesis Hreturns : forall f a s, exists s', call f a s = (Ret tt, s').

Lemma call_back_run X cb a s : inv X s ->
  exists s', call_back cb a s = (Ret tt, s') /\ inv X s' /\ kept X s s'.
Proof.
  intros Hi. destruct cb as [f|]; [|exists s; split_and!; [done|done|by apply kept_same]].
  cbn. destruct (Hreturns f a s) as [s' E]. exists s'. split; [done|].
  pose proof (Hcall X f a s Hi) as H. unfold final in H. by rewrite E in H.
Qed.

(** Calling back, then settling the promise. *)
Lemma answer_one X p cb a r s : inv (p :: X) s -> r <> Pending ->
  exists s', (do! call_back cb a; settle p r) s = (Ret tt, s') /\ inv X s' /\ promises s' !! p = Some r /\ kept X s s'.
Proof.
  intros Hi Hr. destruct (call_back_run (p :: X) cb a s Hi) as (s1 & E1 & I1 & K1). rewrite (bind_of _ _ _ _ _ E1).
  destruct (inv_settle X p r s1 I1 Hr) as (s2 & E2 & I2 & Hp & Hq & _). exists s2. split_and!; [done|done|done|].
  pose proof (inv_pending_self _ _ _ I1) as Hnot. assert (Hpend : promises s1 !! p = Some Pending) by (apply (inv_pending _ _ I1); set_solver).
  apply (kept_trans X s s1); [by eapply kept_incl; [|exact K1]; set_solver|]. split.
  - intros q Hin. apply Hq. by intros ->.
  - intros q x Hx Hqx. rewrite Hq; [done|]. intros ->. congruence.
Qed.

(** The requests of a batch are answered one after the other. *)
Lemma answer_batch m requests X s : inv ((resolve <$> requests) ++ X) s ->
  exists s', for_each requests (answer_request m) s = (Ret tt, s') /\ inv X s' /\
    (forall r, r ∈ requests -> promises s' !! resolve r = Some (Resolved (Pairs (pick m <$> keys r)))) /\ kept X s s'.
Proof.
  revert s. induction requests as [|r requests IH]; intros s Hi; cbn [for_each].
  { exists s. split_and!; [done|done|by intros r Hr%elem_of_nil|by apply kept_same]. }
  change ((resolve <$> r :: requests) ++ X) with (resolve r :: ((resolve <$> requests) ++ X)) in Hi.
  set (result := pick m <$> keys r) in *.
  destruct (answer_one _ _ (callback r) (OnPairs result) (Resolved (Pairs result)) s Hi ltac:(done))
    as (s1 & E1 & I1 & Hp & K1).
  unfold answer_request at 1. rewrite (bind_of _ _ _ _ _ E1).
  destruct (IH s1 I1) as (s2 & E2 & I2 & H2 & K2). exists s2. split_and!; [done|done| |].
  - intros r' [->|Hr']%elem_of_cons; [|by apply H2]. by apply (proj2 K2).
  - apply (kept_trans X s s1); [|done]. eapply kept_incl; [|exact K1]. set_solver.
Qed.

Lemma settle_with_eq p errs v : exists r, r <> Pending /\ settle_with p errs v = settle p r.
Proof. destruct errs; eexists; (split; [|reflexivity]); done. Qed.

Lemma run_continuation_run k a X s : inv (continuation_ids k ++ X) s ->
  exists s', run_continuation k a s = (Ret tt, s') /\ inv X s' /\ kept X s s'.
Proof.
  intros Hi. destruct k as [p cb|p cb|p cb|p cb|reqs|p cb]; cbn [run_continuation continuation_ids app] in *.
  5: { destruct (answer_batch (result_map (a_result a)) reqs X s Hi) as (s' & E & H1 & _ & H2). by exists s'. }
  all: match goal with |- exists s', (do! call_back ?c ?x; ?k) _ = _ /\ _ =>
         assert (Hr : exists r, r <> Pending /\ k = settle p r) by
           (first [apply settle_with_eq
                  |case_match; eexists; (split; [|reflexivity]); done]);
         destruct Hr as (r & Hr & ->);
         destruct (answer_one X _ c x r s Hi Hr) as (s' & E & H1 & _ & H2); by exists s' end.
Qed.

Lemma reply_inv n r k s X : inv X s -> outstanding s !! n = Some (Some (r, k)) ->
  inv (continuation_ids k ++ X) (set_outstanding (<[n := None]> (outstanding s)) s).
Proof.
  intros Hi Hn. pose proof Hi as [_ _ I3 I4 I5]. apply (inv_owner X _ s); [done| |exact Hi|done|done|].
  - rewrite <- (owned_answered _ _ _ Hn). cbn [call_ids]. solve_Permutation.
  - intros n' r' reqs Hn'. cbn in Hn'. destruct (decide (n = n')) as [<-|Hne].
    + rewrite list_lookup_insert_eq in Hn' by (by eapply lookup_lt_Some). done.
    + rewrite list_lookup_insert_ne in Hn' by done. by eapply I5.
Qed.
Lemma step_reply n a X : evolves (step X) (native_reply n a).
Proof.
  intros s Hi. unfold final, native_reply. rewrite bind_gets.
  destruct (outstanding s !! n) as [[[r k]|]|] eqn:Hn; try (split; [done|by apply kept_same]).
  rewrite bind_modify.
  destruct (run_continuation_run k a X _ (reply_inv n r k s X Hi Hn)) as (s' & -> & H1 & H2). by split.
Qed.

Lemma evolves_discard {A} (R : S -> S -> Prop) (m : JS S A) : evolves R m -> evolves R (discard m).
Proof. intros H s. specialize (H s). unfold final, discard, bind in *. by destruct (m s) as [[]]. Qed.
Lemma step_op o X : evolves (step X) (run_op o).
Proof.
  destruct o; cbn [run_op];
    try (apply evolves_discard; first [apply step_multiGet|apply step_ask; by intros]).
  - apply step_flush.
  - apply step_immediate.
  - apply step_reply.
Qed.

Definition run (ops : list op) (s : S) : S := foldl (fun s o => final (run_op o) s) s ops.
Lemma inv_run ops s : inv [] s -> inv [] (run ops s) /\ kept [] s (run ops s).
Proof.
  revert s. induction ops as [|o ops IH]; intros s Hi; [split; [done|by apply kept_same]|].
  destruct (step_op o [] s Hi) as [H1 K1]. destruct (IH _ H1) as [H2 K2]. split; [done|by eapply kept_trans].
Qed.
Lemma storage_inv_init : inv [] init.
Proof. split; try done; [intros p; cbn; by rewrite elem_of_nil|constructor]. Qed.


(** *** Batches *)
Lemma add_key_spec ks key k : k ∈ add_key ks key <-> k ∈ ks \/ k = key.
Proof. unfold add_key. case_decide; set_solver. Qed.
Lemma add_keys_spec l ks : (NoDup ks -> NoDup (foldl add_key ks l)) /\ forall k, k ∈ foldl add_key ks l <-> k ∈ ks \/ k ∈ l.
Proof.
  revert ks. induction l as [|key l IH]; intros ks; cbn [foldl]; [split; [done|set_solver]|].
  destruct (IH (add_key ks key)) as [H1 H2]. split.
  - intros Hn. apply H1. unfold add_key. case_decide; [done|]. apply NoDup_app. split_and!; [done|set_solver|apply NoDup_singleton].
  - intros k. rewrite H2, add_key_spec, elem_of_cons. tauto.
Qed.
Lemma union_keys_spec reqs : NoDup (union_keys reqs) /\ forall k, k ∈ union_keys reqs <-> exists r, r ∈ reqs /\ k ∈ keys r.
Proof.
  unfold union_keys. destruct (add_keys_spec (concat (keys <$> reqs)) []) as [H1 H2]. split; [apply H1, NoDup_nil_2|].
  intros k. rewrite H2, elem_of_nil. split.
  - intros [[]|H]. apply elem_of_concat in H as (l & Hl & Hk). apply list_elem_of_fmap in Hl as (r & -> & Hr). by exists r.
  - intros (r & Hr & Hk). right. apply elem_of_concat. exists (keys r). split; [apply list_elem_of_fmap; by exists r|done].
Qed.

Lemma result_map_lookup (db : string -> option string) ks k : k ∈ ks ->
  result_map (Some ((fun key => (key, db key)) <$> ks)) !! k = Some (db k).
Proof.
  unfold result_map. cbn [default]. intros Hk.
  enough (Hgen : forall m : gmap string (option string), (k ∈ ks \/ m !! k = Some (db k)) ->
    foldl (fun (m : gmap string (option string)) kv => <[kv.1 := kv.2]> m) m ((fun key => (key, db key)) <$> ks) !! k
      = Some (db k)) by (apply Hgen; by left).
  clear Hk. induction ks as [|key ks IH]; intros m Hm; cbn [fmap list_fmap foldl]; [by destruct Hm as [Hm%elem_of_nil|]|].
  apply IH. cbn. destruct (decide (key = k)) as [->|Hne]; [right; by rewrite lookup_insert_eq|].
  rewrite lookup_insert_ne by done. destruct Hm as [[->|Hm]%elem_of_cons|Hm]; [done|by left|by right].
Qed.

(** A batch answers each of its requests as if it had been asked alone: the call to
    native names every key of the batch exactly once, and when native answers it with
    the value of each of these keys, every request's promise resolves with its own keys,
    in its own order, each with its value. *)
Theorem batch_answers_each ops n request_to_native requests (db : string -> option string) a :
  let s := run ops init in
  outstanding s !! n = Some (Some (request_to_native, Batch requests)) ->
  exists ks, request_to_native = MultiGet ks /\ NoDup ks /\
    (forall k, k ∈ ks <-> exists r, r ∈ requests /\ k ∈ keys r) /\
    (a_result a = Some ((fun key => (key, db key)) <$> ks) ->
     exists s', native_reply n a s = (Ret tt, s') /\
       forall r, r ∈ requests -> promises s' !! resolve r = Some (Resolved (Pairs ((fun key => (key, db key)) <$> keys r)))).
Proof.
  intros s Hn. destruct (inv_run ops init storage_inv_init) as [Hi _]. fold s in Hi.
  pose proof (inv_batch _ _ Hi _ _ _ Hn) as ->. exists (union_keys requests).
  destruct (union_keys_spec requests) as [H1 H2]. split_and!; [done|done|done|]. intros Ha.
  unfold native_reply. rewrite bind_gets, Hn, bind_modify. cbn [run_continuation].
  destruct (answer_batch (result_map (a_result a)) requests [] _ (reply_inv n _ _ s [] Hi Hn)) as (s' & E & _ & Hs & _).
  exists s'. split; [done|]. intros r Hr. rewrite (Hs r Hr). f_equal. f_equal. f_equal.
  apply list_fmap_ext. intros i k Hk. unfold pick. rewrite Ha, result_map_lookup; [done|].
  apply H2. exists r. split; [done|]. by eapply list_elem_of_lookup_2.
Qed.
End async_storage.

(** ** A client whose callbacks ask again *)
Section examples.
Definition asks_again (_ : nat) (_ : callback_args) : JS st unit := discard (multiGet ["again"%string] None).
Lemma asks_again_step X f a : evolves (step X) (asks_again f a).
Proof. apply evolves_discard, (step_multiGet (fun _ _ => ret tt)). Qed.
Lemma asks_again_returns f a s : exists s', asks_again f a s = (Ret tt, s').
Proof.
  assert (H : returns (asks_again f a)) by (unfold asks_again, discard, multiGet, new_promise; js_returns).
  destruct (returns_run _ s H) as [[] E]. by eexists.
Qed.
Definition demo_ops : list op := [GetMany ["a"; "b"] (Some 0); GetItem "c" None; GetMany ["b"; "c"] None; ImmediateFires]%string.
Definition demo_db (key : string) : option string := Some (key +:+ "!")%string.


Lemma batch_answers_each_witness : exists ks s',
  native_reply asks_again 1 (Build_answer NoErrors None (Some ((fun key => (key, demo_db key)) <$> ks)) None)
    (run asks_again demo_ops init) = (Ret tt, s') /\ ks = ["a"; "b"; "c"]%string /\
  promises s' !! 2 = Some (Resolved (Pairs [("b", Some "b!"); ("c", Some "c!")]%string)).
Proof.
  assert (Hn : exists requests, outstanding (run asks_again demo_ops init) !! 1 =
    Some (Some (MultiGet ["a"; "b"; "c"]%string, Batch requests)) /\ Build_request ["b"; "c"]%string None 2 ∈ requests).
  { eexists. split; [vm_compute; reflexivity|]. right. left. }
  destruct Hn as (requests & Hn & Hr).
  destruct (batch_answers_each asks_again asks_again_step asks_again_returns demo_ops 1 _ requests demo_db
    (Build_answer NoErrors None (Some ((fun key => (key, demo_db key)) <$> ["a"; "b"; "c"]%string)) None) Hn)
    as (ks & E & _ & _ & H).
  injection E as E. subst ks. destruct (H eq_refl) as (s' & E' & Hs).
  exists ["a"; "b"; "c"]%string, s'. split; [exact E'|]. split; [reflexivity|]. exact (Hs _ Hr).
Defined.
End examples.
