(* ===== verification/Interpolation.v ===== *)
(** * Interpolation

    Libraries/Animated/src/nodes/AnimatedInterpolation.js: mapping a range of inputs to
    a range of numbers, with an easing function and a behaviour outside the range.

    A JavaScript number is a rational or one of the values the code tests for
    ([num]); rounding and the sign of zero are not modelled.  The easing function is a
    parameter.  Output ranges of strings are not modelled: they need the conversion
    between numbers and their decimal notation; for the same reason the messages of
    the invariants stop where the code appends the offending values. *)
From stdpp Require Import base numbers list strings.
From Stdlib Require Import QArith Lqa Sorting.Sorted.
From S2P Require Import Prelude Rationals.
Open Scope nat_scope.

(** ** Numbers *)
Inductive num := Fin (q : Q) | Infinity | MinusInfinity | NaN.

Definition num_lt (a b : num) : bool :=
  match a, b with
  | Fin x, Fin y => Qltb x y
  | NaN, _ | _, NaN => false
  | Infinity, _ | _, MinusInfinity => false
  | _, _ => true
  end.
(** [===] *)
Definition num_eq (a b : num) : bool :=
  match a, b with
  | Fin x, Fin y => Qeq_bool x y
  | Infinity, Infinity | MinusInfinity, MinusInfinity => true
  | _, _ => false
  end.
Definition num_le (a b : num) : bool := num_lt a b || num_eq a b.
Definition num_neg (a : num) : num :=
  match a with Fin x => Fin (- x) | Infinity => MinusInfinity | MinusInfinity => Infinity | NaN => NaN end.
Definition num_add (a b : num) : num :=
  match a, b with
  | Fin x, Fin y => Fin (x + y)
  | NaN, _ | _, NaN | Infinity, MinusInfinity | MinusInfinity, Infinity => NaN
  | Infinity, _ | _, Infinity => Infinity
  | MinusInfinity, _ | _, MinusInfinity => MinusInfinity
  end.
Definition num_sub (a b : num) : num := num_add a (num_neg b).
(** An infinity times a number of the given sign. *)
Definition scale_infinity (a : num) (x : Q) : num :=
  if Qeq_bool x 0 then NaN else if Qltb 0 x then a else num_neg a.
Definition num_mul (a b : num) : num :=
  match a, b with
  | Fin x, Fin y => Fin (x * y)
  | NaN, _ | _, NaN => NaN
  | Fin x, i | i, Fin x => scale_infinity i x
  | Infinity, i => i
  | MinusInfinity, i => num_neg i
  end.
(** Division by a number other than 0. *)
Definition num_div (a b : num) : num :=
  match a, b with
  | Fin x, Fin y => Fin (x / y)
  | Fin _, (Infinity | MinusInfinity) => Fin 0
  | (Infinity | MinusInfinity) as i, Fin y => if Qltb 0 y then i else num_neg i
  | _, _ => NaN
  end.

(** ** The interpolation *)
Inductive extrapolate_type := Extend | Identity | Clamp.
Record config := {
  inputRange : list num;
  outputRange : list num;
  easing : option (num -> num);
  extrapolate : option extrapolate_type;
  extrapolateLeft : option extrapolate_type;
  extrapolateRight : option extrapolate_type
}.
Definition linear (t : num) : num := t.

(** One side of the extrapolation; [inr] returns at once. *)
Definition extrapolate_side (outside : bool) (mode : extrapolate_type) (bound result : num) : num + num :=
  if outside then
    match mode with Identity => inr result | Clamp => inl bound | Extend => inl result end
  else inl result.
Definition interpolate_in (input result inputMin inputMax outputMin outputMax : num) (easing : num -> num) : num :=
  if num_eq outputMin outputMax then outputMin
  else if num_eq inputMin inputMax then (if num_le input inputMin then outputMin else outputMax)
  else
    let result :=
      if num_eq inputMin MinusInfinity then num_neg result
      else if num_eq inputMax Infinity then num_sub result inputMin
      else num_div (num_sub result inputMin) (num_sub inputMax inputMin) in
    let result := easing result in
    if num_eq outputMin MinusInfinity then num_neg result
    else if num_eq outputMax Infinity then num_add result outputMin
    else num_add (num_mul result (num_sub outputMax outputMin)) outputMin.
Definition interpolate (input inputMin inputMax outputMin outputMax : num) (easing : num -> num)
    (left right : extrapolate_type) : num :=
  match extrapolate_side (num_lt input inputMin) left inputMin input with
  | inr r => r
  | inl result =>
      match extrapolate_side (num_lt inputMax result) right inputMax result with
      | inr r => r
      | inl result => interpolate_in input result inputMin inputMax outputMin outputMax easing
      end
  end.

(** The loop of [findRange] from [i]; [rest] is the input range from [i] on. *)
Fixpoint find_from (input : num) (i : nat) (rest : list num) : nat :=
  match rest with
  | x :: rest' =>
      match rest' with
      | _ :: _ => if num_le input x then i else find_from input (S i) rest'
      | [] => i
      end
  | [] => i
  end.
Definition findRange (input : num) (range : list num) : nat := find_from input 1 (tail range) - 1.

Fixpoint non_decreasing (prev : num) (l : list num) : bool :=
  match l with [] => true | x :: l' => num_le prev x && non_decreasing x l' end.
Definition checkValidInputRange (arr : list num) : result unit :=
  if 2 <=? length arr then
    match arr with
    | x :: l => if non_decreasing x l then Ret tt
                else Throw (InvariantViolation "inputRange must be monotonically non-decreasing ")
    | [] => Ret tt
    end
  else Throw (InvariantViolation "inputRange must have at least 2 elements").
Definition checkInfiniteRange (name : string) (arr : list num) : result unit :=
  if 2 <=? length arr then
    match arr with
    | [MinusInfinity; Infinity] => Throw (InvariantViolation (name +:+ "cannot be ]-infinity;+infinity[ "))
    | _ => Ret tt
    end
  else Throw (InvariantViolation (name +:+ " must have at least 2 elements")).

Definition and_then {A B} (r : result A) (k : A -> result B) : result B :=
  match r with Ret a => k a | Throw e => Throw e | OutOfFuel => OutOfFuel end.
Definition side (own shared : option extrapolate_type) : extrapolate_type :=
  match own with Some m => m | None => default Extend shared end.
Definition at_index (l : list num) (i : nat) : num := default NaN (l !! i).
Definition interpolation (c : config) (input : num) : num :=
  let range := findRange input (inputRange c) in
  interpolate input (at_index (inputRange c) range) (at_index (inputRange c) (S range))
    (at_index (outputRange c) range) (at_index (outputRange c) (S range)) (default linear (easing c))
    (side (extrapolateLeft c) (extrapolate c)) (side (extrapolateRight c) (extrapolate c)).
Definition createInterpolation (c : config) : result (num -> num) :=
  and_then (checkInfiniteRange "outputRange" (outputRange c)) (fun _ =>
  and_then (checkInfiniteRange "inputRange" (inputRange c)) (fun _ =>
  and_then (checkValidInputRange (inputRange c)) (fun _ =>
  if length (inputRange c) =? length (outputRange c) then Ret (interpolation c)
  else Throw (InvariantViolation "inputRange and outputRange must have the same length")))).

(** The value on the segment from [(x, y)] to [(x', y')]. *)
Definition on_segment (x x' y y' q : Q) : Q := (y + (q - x) / (x' - x) * (y' - y))%Q.
(** Where an input outside of a segment is moved to. *)
Definition moved (left right : extrapolate_type) (x x' q : Q) : Q :=
  let q := if Qltb q x then match left with Clamp => x | _ => q end else q in
  if Qltb x' q then match right with Clamp => x' | _ => q end else q.

(** ** Finite ranges *)
Lemma Qle_num_le x y : num_le (Fin x) (Fin y) = true <-> (x <= y)%Q.
Proof.
  unfold num_le. cbn. rewrite orb_true_iff, Qltb_true, Qeq_bool_iff. split; [intros [H|H]; lra|].
  intros H. destruct (Qlt_le_dec x y); [by left|right; lra].
Qed.
Lemma Qgt_num_le x y : num_le (Fin x) (Fin y) = false <-> (y < x)%Q.
Proof.
  destruct (num_le (Fin x) (Fin y)) eqn:E; [apply Qle_num_le in E; split; [done|lra]|].
  split; [|done]. intros _. apply Qnot_le_lt. rewrite <- Qle_num_le. by rewrite E.
Qed.

Lemma find_from_spec input rest i : rest <> [] ->
  let j := find_from (Fin input) i (Fin <$> rest) in
  i <= j < i + length rest /\
  (forall x, i < j -> rest !! (j - i - 1) = Some x -> (x < input)%Q) /\
  (forall x, j < i + length rest - 1 -> rest !! (j - i) = Some x -> (input <= x)%Q).
Proof.
  revert i. induction rest as [|x rest IH]; intros i Hne; [done|]. destruct rest as [|x' rest].
  { cbn. split_and!; [lia|lia|intros; lia|intros; lia]. }
  specialize (IH (S i) ltac:(done)). rewrite fmap_cons. revert IH. cbn zeta.
  replace (find_from (Fin input) i (Fin x :: (Fin <$> (x' :: rest)))) with
    (if num_le (Fin input) (Fin x) then i else find_from (Fin input) (S i) (Fin <$> (x' :: rest))) by reflexivity.
  generalize (find_from (Fin input) (S i) (Fin <$> (x' :: rest))). intros j (H1 & H2 & H3).
  destruct (num_le (Fin input) (Fin x)) eqn:E.
  - apply Qle_num_le in E. cbn [length]. split_and!; [lia|lia|intros; lia|].
    intros y _. rewrite Nat.sub_diag. cbn. by intros [= <-].
  - apply Qgt_num_le in E. cbn [length] in *. split_and!; [lia|lia| |].
    + intros y Hj Hy. destruct (decide (j = S i)) as [->|Hne'].
      * replace (S i - i - 1) with 0 in Hy by lia. cbn in Hy. by injection Hy as <-.
      * apply H2; [lia|]. by replace (j - i - 1) with (S (j - S i - 1)) in Hy by lia.
    + intros y Hj Hy. apply H3; [lia|]. by replace (j - i) with (S (j - S i)) in Hy by lia.
Qed.

Section finite.
Context (xs ys : list Q) (c : config).
Hypothesis Hlen : 2 <= length xs.
Hypothesis Hsame : length ys = length xs.
Hypothesis Hin : inputRange c = Fin <$> xs.
Hypothesis Hout : outputRange c = Fin <$> ys.
(** The input range is strictly increasing. *)
Hypothesis Hxs : forall i x x', xs !! i = Some x -> xs !! S i = Some x' -> (x < x')%Q.

Lemma findRange_spec input : let k := findRange (Fin input) (inputRange c) in
  S k < length xs /\
  (forall x, 0 < k -> xs !! k = Some x -> (x < input)%Q) /\
  (forall x, S (S k) < length xs -> xs !! S k = Some x -> (input <= x)%Q).
Proof.
  unfold findRange. rewrite Hin. clear Hin Hxs Hsame. destruct xs as [|x0 rest]; [cbn in Hlen; lia|].
  rewrite fmap_cons. cbn [tail]. cbn [length] in *.
  destruct (find_from_spec input rest 1) as (H1 & H2 & H3); [by destruct rest; [cbn in Hlen; lia|]|].
  revert H1 H2 H3. generalize (find_from (Fin input) 1 (Fin <$> rest)). intros j H1 H2 H3. cbn zeta. split_and!; [lia| |].
  - intros x Hj Hx. apply H2; [lia|]. by replace (j - 1) with (S (j - 1 - 1)) in Hx by lia.
  - intros x Hj Hx. apply H3; [lia|]. exact Hx.
Qed.

Lemma xs_strict i j x x' : i < j -> xs !! i = Some x -> xs !! j = Some x' -> (x < x')%Q.
Proof.
  clear Hlen Hsame Hin Hout. intros Hij Hi. revert x'. induction Hij as [|j Hij IH]; intros x' Hj; [by eapply Hxs|].
  destruct (lookup_lt_is_Some_2 xs j) as [z Hz]; [apply lookup_lt_Some in Hj; lia|].
  specialize (IH z Hz). specialize (Hxs j z x' Hz Hj). lra.
Qed.
Lemma xs_ordered i j x x' : xs !! i = Some x -> xs !! j = Some x' -> (x < x')%Q -> i < j.
Proof.
  clear Hlen Hsame Hin Hout. intros Hi Hj Hlt. destruct (decide (i < j)) as [|Hn]; [done|]. destruct (decide (i = j)) as [->|].
  - rewrite Hi in Hj. injection Hj as ->. lra.
  - pose proof (xs_strict j i x' x ltac:(lia) Hj Hi). lra.
Qed.

(** The segment of the ranges an input falls in, and what the code computes there. *)
Lemma interpolation_segment input : exists k x x' y y',
  k = findRange (Fin input) (inputRange c) /\
  xs !! k = Some x /\ xs !! S k = Some x' /\ ys !! k = Some y /\ ys !! S k = Some y' /\
  (x < x')%Q /\ (k = 0 \/ (x < input)%Q) /\ (S (S k) = length xs \/ (input <= x')%Q) /\
  interpolation c (Fin input) = interpolate (Fin input) (Fin x) (Fin x') (Fin y) (Fin y') (default linear (easing c))
    (side (extrapolateLeft c) (extrapolate c)) (side (extrapolateRight c) (extrapolate c)).
Proof.
  destruct (findRange_spec input) as (H1 & H2 & H3). unfold interpolation.
  revert H1 H2 H3. generalize (findRange (Fin input) (inputRange c)). intros k H1 H2 H3.
  destruct (lookup_lt_is_Some_2 xs k) as [x Hx]; [lia|]. destruct (lookup_lt_is_Some_2 xs (S k)) as [x' Hx']; [lia|].
  destruct (lookup_lt_is_Some_2 ys k) as [y Hy]; [lia|]. destruct (lookup_lt_is_Some_2 ys (S k)) as [y' Hy']; [lia|].
  exists k, x, x', y, y'. split_and!; [done..|by eapply Hxs| | |].
  - destruct k; [by left|right]. apply H2; [lia|done].
  - destruct (decide (S (S k) = length xs)); [by left|right]. apply H3; [lia|done].
  - unfold at_index. rewrite Hin, Hout, !list_lookup_fmap, Hx, Hx', Hy, Hy'. reflexivity.
Qed.
End finite.

Lemma on_segment_between x x' y y' q : (x < x')%Q -> (x <= q <= x')%Q -> (y <= y')%Q ->
  (y <= on_segment x x' y y' q <= y')%Q.
Proof.
  intros Hx [H1 H2] Hy. unfold on_segment.
  assert (0 <= (q - x) / (x' - x))%Q by (apply Qle_shift_div_l; lra).
  assert ((q - x) / (x' - x) <= 1)%Q by (apply Qle_shift_div_r; lra). nra.
Qed.
Lemma on_segment_mono x x' y y' q q' : (x < x')%Q -> (y <= y')%Q -> (q <= q')%Q ->
  (on_segment x x' y y' q <= on_segment x x' y y' q')%Q.
Proof.
  intros Hx Hy Hq. unfold on_segment.
  assert ((q - x) / (x' - x) <= (q' - x) / (x' - x))%Q; [|nra].
  apply Qle_shift_div_l; [lra|]. field_simplify; lra.
Qed.
Lemma moved_mono l r x x' q q' : (x < x')%Q -> (q <= q')%Q -> (moved l r x x' q <= moved l r x x' q')%Q.
Proof.
  intros Hx Hq. unfold moved. destruct l, r; cbn;
    repeat case_match; rewrite ?Qltb_true, ?Qltb_false in *; lra.
Qed.
Lemma moved_inside l r x x' q : (x <= q <= x')%Q -> moved l r x x' q = q.
Proof.
  intros [H1 H2]. unfold moved. rewrite (proj2 (Qltb_false q x) H1). by rewrite (proj2 (Qltb_false x' q) H2).
Qed.
Lemma moved_clamped x x' q : (x < x')%Q -> (x <= moved Clamp Clamp x x' q <= x')%Q.
Proof. intros Hx. unfold moved. repeat case_match; rewrite ?Qltb_true, ?Qltb_false in *; lra. Qed.

Lemma moved_below l r x x' q : (x < x')%Q -> (q <= x')%Q -> (moved l r x x' q <= x')%Q.
Proof.
  intros Hx Hq. unfold moved. destruct l, r; repeat case_match; rewrite ?Qltb_true, ?Qltb_false in *; lra.
Qed.
Lemma moved_above l r x x' q : (x < x')%Q -> (x <= q)%Q -> (x <= moved l r x x' q)%Q.
Proof.
  intros Hx Hq. unfold moved. destruct l, r; repeat case_match; rewrite ?Qltb_true, ?Qltb_false in *; lra.
Qed.
Lemma on_segment_below x x' y y' q : (x < x')%Q -> (y <= y')%Q -> (q <= x')%Q -> (on_segment x x' y y' q <= y')%Q.
Proof.
  intros Hx Hy Hq. eapply Qle_trans; [by apply on_segment_mono|].
  assert (on_segment x x' y y' x' == y')%Q as ->; [unfold on_segment; field; lra|apply Qle_refl].
Qed.
Lemma on_segment_above x x' y y' q : (x < x')%Q -> (y <= y')%Q -> (x <= q)%Q -> (y <= on_segment x x' y y' q)%Q.
Proof.
  intros Hx Hy Hq. eapply Qle_trans; [|by apply on_segment_mono].
  assert (on_segment x x' y y' x == y)%Q as ->; [unfold on_segment; field; lra|apply Qle_refl].
Qed.
Lemma steps_le (l : list Q) :
  (forall i y y', l !! i = Some y -> l !! S i = Some y' -> (y <= y')%Q) ->
  forall i j y y', i <= j -> l !! i = Some y -> l !! j = Some y' -> (y <= y')%Q.
Proof.
  intros H i j y y' Hij Hi. revert y'. induction Hij as [|j Hij IH]; intros y' Hj.
  { rewrite Hi in Hj. injection Hj as ->. apply Qle_refl. }
  destruct (lookup_lt_is_Some_2 l j) as [z Hz]; [apply lookup_lt_Some in Hj; lia|].
  eapply Qle_trans; [by apply IH|by eapply H].
Qed.

(** What [interpolate] computes inside a finite segment, for any easing: with the
    modes that do not return early. *)
Lemma interpolate_finite x x' y y' q e l r : (x < x')%Q -> l <> Identity -> r <> Identity ->
  interpolate (Fin q) (Fin x) (Fin x') (Fin y) (Fin y') e l r =
  if Qeq_bool y y' then Fin y
  else num_add (num_mul (e (Fin ((moved l r x x' q - x) / (x' - x)))) (Fin (y' - y))) (Fin y).
Proof.
  intros Hx Hl Hr. assert (Hne : Qeq_bool x x' = false).
  { apply not_true_iff_false. rewrite Qeq_bool_iff. lra. }
  unfold interpolate, extrapolate_side, moved. cbn [num_lt].
  destruct (Qltb q x), l; try done; cbn [num_lt];
    (destruct (Qltb x' _), r; try done); unfold interpolate_in; cbn; rewrite Hne; reflexivity.
Qed.
Lemma interpolate_linear x x' y y' q l r : (x < x')%Q -> l <> Identity -> r <> Identity ->
  exists v, interpolate (Fin q) (Fin x) (Fin x') (Fin y) (Fin y') linear l r = Fin v /\
    (v == on_segment x x' y y' (moved l r x x' q))%Q.
Proof.
  intros Hx Hl Hr. rewrite interpolate_finite by done. destruct (Qeq_bool y y') eqn:E.
  - exists y. split; [done|]. apply Qeq_bool_iff in E. unfold on_segment. rewrite E. ring.
  - eexists. split; [reflexivity|]. unfold on_segment. ring.
Qed.
Lemma interpolate_inside x x' y y' q e l r : (x <= q <= x')%Q ->
  interpolate (Fin q) (Fin x) (Fin x') (Fin y) (Fin y') e l r =
  interpolate (Fin q) (Fin x) (Fin x') (Fin y) (Fin y') e Clamp Clamp.
Proof.
  intros [H1 H2]. unfold interpolate, extrapolate_side. cbn [num_lt].
  rewrite (proj2 (Qltb_false q x) H1). cbn [num_lt]. by rewrite (proj2 (Qltb_false x' q) H2).
Qed.

(** ** What the constructor accepts *)
Lemma non_decreasing_spec l : forall prev, non_decreasing prev l = true <->
  forall i a b, (prev :: l) !! i = Some a -> l !! i = Some b -> num_le a b = true.
Proof.
  induction l as [|x l IH]; intros prev; cbn [non_decreasing].
  { split; [|done]. intros _ i a b _ Hb. by rewrite lookup_nil in Hb. }
  rewrite andb_true_iff, IH. split.
  - intros [H1 H2] [|i] a b Ha Hb; cbn in *; [by injection Ha as <-; injection Hb as <-|by eapply H2].
  - intros H. split; [by apply (H 0)|]. intros i a b Ha Hb. by apply (H (S i)).
Qed.
Lemma finite_accepted name (l : list Q) : 2 <= length l -> checkInfiniteRange name (Fin <$> l) = Ret tt.
Proof. intros H. unfold checkInfiniteRange. rewrite length_fmap. case_match; [|apply Nat.leb_gt in H0; lia]. by destruct l as [|? [|? ?]]. Qed.
Lemma create_finite c xs ys : 2 <= length xs -> length ys = length xs ->
  inputRange c = Fin <$> xs -> outputRange c = Fin <$> ys ->
  (forall i x x', xs !! i = Some x -> xs !! S i = Some x' -> (x < x')%Q) ->
  createInterpolation c = Ret (interpolation c).
Proof.
  intros Hlen Hsame Hin Hout Hxs. unfold createInterpolation. rewrite Hin, Hout, !finite_accepted by lia. cbn [and_then].
  unfold checkValidInputRange. rewrite !length_fmap, Hsame, Nat.eqb_refl, (proj2 (Nat.leb_le 2 _) Hlen).
  destruct xs as [|x xs]; [cbn in Hlen; lia|]. rewrite fmap_cons.
  rewrite (proj2 (non_decreasing_spec _ _)); [done|]. intros i a b Ha Hb.
  rewrite <- fmap_cons, list_lookup_fmap_Some in Ha. rewrite list_lookup_fmap_Some in Hb.
  destruct Ha as (qa & -> & Ha), Hb as (qb & -> & Hb). apply Qle_num_le. apply Qlt_le_weak. by apply (Hxs i).
Qed.

(** The function made from finite ranges of one length, the inputs strictly
    increasing, takes the i-th input exactly to the i-th output, whatever happens
    outside of the range: all that is asked of the easing is that it keeps 0 and 1. *)
Theorem interpolation_through_points (c : config) (xs ys : list Q)
    (Hlen : 2 <= length xs) (Hsame : length ys = length xs)
    (Hin : inputRange c = Fin <$> xs) (Hout : outputRange c = Fin <$> ys)
    (Hxs : forall i x x', xs !! i = Some x -> xs !! S i = Some x' -> (x < x')%Q)
    (Heasing : forall t, (t == 0 \/ t == 1)%Q -> num_eq (default linear (easing c) (Fin t)) (Fin t) = true) :
  exists f, createInterpolation c = Ret f /\
    forall i x y, xs !! i = Some x -> ys !! i = Some y -> num_eq (f (Fin x)) (Fin y) = true.
Proof.
  exists (interpolation c). split; [by eapply create_finite|]. intros i x y Hx Hy.
  destruct (interpolation_segment xs ys c Hlen Hsame Hin Hout Hxs x) as (k & a & a' & b & b' & _ & Ha & Ha' & Hb & Hb' & Hlt & Hk & Hk' & ->).
  assert (Hi : i = k \/ i = S k).
  { assert (i <= S k).
    { destruct Hk' as [Hk'|Hk']; [apply lookup_lt_Some in Hx; lia|]. destruct (decide (i <= S k)); [done|].
      pose proof (xs_strict xs Hxs (S k) i a' x ltac:(lia) Ha' Hx). lra. }
    destruct Hk as [->|Hk]; [lia|]. pose proof (xs_ordered xs Hxs k i a x Ha Hx Hk). lia. }
  rewrite interpolate_inside by (destruct Hi as [->| ->]; simplify_eq; lra). rewrite interpolate_finite by done.
  rewrite moved_inside by (destruct Hi as [->| ->]; simplify_eq; lra).
  destruct (Qeq_bool b b') eqn:E; [apply Qeq_bool_iff in E; destruct Hi as [->| ->]; simplify_eq; by apply Qeq_bool_iff|].
  assert (Ht : ((x - a) / (a' - a) == if decide (i = k) then 0 else 1)%Q).
  { case_decide; [subst; simplify_eq; unfold Qdiv; ring|]. destruct Hi as [|Hi]; [done|]. subst. simplify_eq. field. lra. }
  specialize (Heasing ((x - a) / (a' - a))%Q ltac:(case_decide; [by left|by right])).
  destruct (default _ _ _) as [t| | |]; try done. assert (Hv : (t == (x - a) / (a' - a))%Q) by by apply Qeq_bool_iff.
  cbn. apply Qeq_bool_iff. rewrite Hv, Ht. case_decide; [subst; simplify_eq; ring|].
  destruct Hi as [|Hi]; [done|]. subst. simplify_eq. ring.
Qed.


(** ** At work *)
Ltac concrete_steps :=
  intros [|[|[|[|i]]]] x x' Hx Hx'; cbn in Hx, Hx'; simplify_eq; (discriminate || reflexivity).
Definition fade : config :=
  {| inputRange := Fin <$> [0; 10; 20]%Q; outputRange := Fin <$> [0; 4; 4]%Q; easing := Some (fun t => num_mul t t);
     extrapolate := Some Clamp; extrapolateLeft := None; extrapolateRight := Some Extend |}.
Definition slide : config :=
  {| inputRange := Fin <$> [0; 10; 20]%Q; outputRange := Fin <$> [0; 4; 5]%Q; easing := None;
     extrapolate := Some Clamp; extrapolateLeft := None; extrapolateRight := None |}.
(** At 5, the easing has 1/2 to square; infinite ranges are computed with as well. *)
Example fade_at_5 : num_eq (interpolation fade (Fin 5)) (Fin 1) = true.
Proof. reflexivity. Qed.
Example identity_above : num_eq (interpolation
  {| inputRange := [Fin 3; Infinity]; outputRange := [Fin 0; Infinity]; easing := None; extrapolate := None;
     extrapolateLeft := Some Clamp; extrapolateRight := None |} (Fin 12)) (Fin 9) = true.
Proof. reflexivity. Qed.

Lemma interpolation_through_points_witness : exists f, createInterpolation fade = Ret f /\
  forall i x y, [0; 10; 20]%Q !! i = Some x -> [0; 4; 4]%Q !! i = Some y -> num_eq (f (Fin x)) (Fin y) = true.
Proof.
  apply (interpolation_through_points fade [0; 10; 20]%Q [0; 4; 4]%Q); [cbn; lia|done..|concrete_steps|].
  intros t [Ht|Ht]; cbn; rewrite Qeq_bool_iff, Ht; reflexivity.
Defined.
