(* ===== verification/Animations.v ===== *)
(** * Animations

    Libraries/Animated/src: values (nodes/AnimatedValue.js), the timing animation
    (animations/Animation.js, animations/TimingAnimation.js) and the composite
    animations of AnimatedImplementation.js: [timing], [sequence], [parallel], [delay],
    [stagger], [loop].

    The objects are shared and mutable: values, animations and composite animations
    live in three arrays of the state and refer to each other by index.  An end
    callback is a closure of the code ([end_callback]) or a function of the client;
    closures, [start], [stop] and [reset] call each other, so one interpreter runs them
    all: [exec n] with at most [n] nested calls, as a JavaScript engine has a stack.
    Steps of the host are [frame_fires], [timeout_fires], [native_ends] and [tick].

    Client code ([client], for the end callbacks, and [listener], for whatever hears of a
    new value) may do anything with the state.  The tracking of another node, vectors,
    springs and decays are not modelled; of the native driver, the messages that start
    and stop an animation are. *)
From S2P Require Import Prelude Rationals.
From stdpp Require Import base numbers list strings gmap.
From Stdlib Require Import QArith.
Open Scope nat_scope.
#[local] Set Warnings "-register-all".

(** ** Data *)

(** [TimingAnimationConfig]; [onComplete] and end callbacks of the client are tags. *)
Record timing_config := {
  toValue : Q;
  easing : Q -> Q;
  duration : Z;
  delay_ : Z;
  isInteraction : option bool;
  useNativeDriver : bool;
  onComplete : option nat;
  iterations : Z
}.
Definition with_iterations (n : Z) (c : timing_config) : timing_config :=
  Build_timing_config (toValue c) (easing c) (duration c) (delay_ c) (isInteraction c) (useNativeDriver c)
    (onComplete c) n.

(** End callbacks: the client's, and the closures of [_combineCallbacks], of
    [sequence.start], [parallel.start] and [loop.start] of the composite [c]. *)
Inductive end_callback :=
  | Client (tag : nat)
  | Combined (onComplete callback : end_callback)
  | OnComplete (c : nat) (callback : option end_callback)
  | ParallelDone (c idx : nat) (callback : option end_callback)
  | Restart (c : nat) (callback : option end_callback).

(** The closure [animate] gives to [animation.start]. *)
Record value_end := { ve_value : nat; ve_handle : option nat; ve_callback : option end_callback }.

(** A TimingAnimation.  [frame] and [timeout]: an animation frame, or the timer of the
    delay, is pending. *)
Record animation := {
  config : timing_config;
  a_value : nat;
  active : bool;
  fromValue : Q;
  startTime : Z;
  onEnd : option value_end;
  frame : bool;
  timeout : bool;
  nativeId : option nat
}.
Record value := { value_ : Q; startingValue : Q; offset : Q; animation_ : option nat }.
Inductive composite :=
  | Timing (v : nat) (c : timing_config)
  | Sequence (animations : list nat) (current : nat)
  | Parallel (animations : list (option nat)) (stopTogether : bool) (doneCount : nat) (hasEnded : gset nat)
  | Loop (animation : nat) (iterations : Z) (resetBeforeIteration : bool) (isFinished : bool) (iterationsSoFar : Z).

(** What leaves the library. *)
Inductive out :=
  | Called (tag : nat) (finished : bool)
  | StartAnimatingNode (nativeId v : nat) (iterations : Z)
  | NativeStopAnimation (nativeId : nat).

Record st (W : Type) := {
  values : list value;
  animations : list animation;
  composites : list composite;
  handles : gset nat;
  nextHandle : nat;
  nextNativeId : nat;
  now : Z;
  trace : list out;
  world : W
}.
Arguments Build_st {W}. Arguments values {W}. Arguments animations {W}. Arguments composites {W}.
Arguments handles {W}. Arguments nextHandle {W}. Arguments nextNativeId {W}. Arguments now {W}.
Arguments trace {W}. Arguments world {W}.

(** *** Assignments *)
Definition set_active (b : bool) (x : animation) : animation :=
  Build_animation (config x) (a_value x) b (fromValue x) (startTime x) (onEnd x) (frame x) (timeout x) (nativeId x).
Definition set_startTime (t : Z) (x : animation) : animation :=
  Build_animation (config x) (a_value x) (active x) (fromValue x) t (onEnd x) (frame x) (timeout x) (nativeId x).
Definition set_onEnd (e : option value_end) (x : animation) : animation :=
  Build_animation (config x) (a_value x) (active x) (fromValue x) (startTime x) e (frame x) (timeout x) (nativeId x).
Definition set_frame (b : bool) (x : animation) : animation :=
  Build_animation (config x) (a_value x) (active x) (fromValue x) (startTime x) (onEnd x) b (timeout x) (nativeId x).
Definition set_timeout (b : bool) (x : animation) : animation :=
  Build_animation (config x) (a_value x) (active x) (fromValue x) (startTime x) (onEnd x) (frame x) b (nativeId x).
Definition set_nativeId (i : option nat) (x : animation) : animation :=
  Build_animation (config x) (a_value x) (active x) (fromValue x) (startTime x) (onEnd x) (frame x) (timeout x) i.
Definition set_value (q : Q) (x : value) : value := Build_value q (startingValue x) (offset x) (animation_ x).
Definition set_animation (a : option nat) (x : value) : value := Build_value (value_ x) (startingValue x) (offset x) a.

Section animated.
Context {W : Type}.
Abbreviation S' := (st W).

Definition upd_values (f : list value -> list value) (s : S') : S' :=
  Build_st (f (values s)) (animations s) (composites s) (handles s) (nextHandle s) (nextNativeId s) (now s) (trace s) (world s).
Definition upd_animations (f : list animation -> list animation) (s : S') : S' :=
  Build_st (values s) (f (animations s)) (composites s) (handles s) (nextHandle s) (nextNativeId s) (now s) (trace s) (world s).
Definition upd_composites (f : list composite -> list composite) (s : S') : S' :=
  Build_st (values s) (animations s) (f (composites s)) (handles s) (nextHandle s) (nextNativeId s) (now s) (trace s) (world s).
Definition set_handles (h : gset nat) (n : nat) (s : S') : S' :=
  Build_st (values s) (animations s) (composites s) h n (nextNativeId s) (now s) (trace s) (world s).
Definition set_nextNativeId (n : nat) (s : S') : S' :=
  Build_st (values s) (animations s) (composites s) (handles s) (nextHandle s) n (now s) (trace s) (world s).
Definition set_now (t : Z) (s : S') : S' :=
  Build_st (values s) (animations s) (composites s) (handles s) (nextHandle s) (nextNativeId s) t (trace s) (world s).
Definition log (o : out) (s : S') : S' :=
  Build_st (values s) (animations s) (composites s) (handles s) (nextHandle s) (nextNativeId s) (now s) (trace s ++ [o]) (world s).

(** Reading a reference: the references of the sources always point to an object. *)
Definition dangling {A} : JS S' A := throw (JSError "TypeError: undefined is not an object").
Definition read {A} (f : S' -> list A) (i : nat) : JS S' A := fun s =>
  match f s !! i with Some x => (Ret x, s) | None => dangling s end.
Definition on_animation (a : nat) (f : animation -> animation) : JS S' unit := modify (upd_animations (alter f a)).
Definition on_value (v : nat) (f : value -> value) : JS S' unit := modify (upd_values (alter f v)).
Definition set_composite (c : nat) (x : composite) : JS S' unit := modify (upd_composites <[c := x]>).

Context (client : nat -> bool -> JS S' unit) (listener : nat -> Q -> JS S' unit).

(** The calls that go through closures and composites. *)
Inductive call := Start (c : nat) (callback : option end_callback) | Stop (c : nat) | Reset (c : nat)
  | End (callback : end_callback) (finished : bool).

(** ** Animations and values *)
Section operations.
Context (rec : call -> JS S' unit).

Definition end_with (callback : option end_callback) (finished : bool) : JS S' unit :=
  match callback with Some k => rec (End k finished) | None => ret tt end.
(** The [onEnd] closure of [animate]. *)
Definition value_ended (e : value_end) (finished : bool) : JS S' unit :=
  do! on_value (ve_value e) (set_animation None);
  do! modify (fun s => match ve_handle e with Some h => set_handles (handles s ∖ {[h]}) (nextHandle s) s | None => s end);
  end_with (ve_callback e) finished.
Definition debouncedOnEnd (a : nat) (finished : bool) : JS S' unit :=
  let! x := read animations a in
  do! on_animation a (set_onEnd None);
  match onEnd x with Some e => value_ended e finished | None => ret tt end.
(** [_updateValue]; what is attached to the value hears of it. *)
Definition updateValue (v : nat) (q : Q) : JS S' unit :=
  do! on_value v (set_value q);
  let! x := read values v in
  listener v (value_ x + offset x)%Q.

Definition startNativeAnimation (a : nat) : JS S' unit :=
  let! x := read animations a in
  let! i := gets nextNativeId in
  do! modify (set_nextNativeId (S i));
  do! on_animation a (set_nativeId (Some i));
  modify (log (StartAnimatingNode i (a_value x) (iterations (config x)))).
(** The closure [start] of TimingAnimation.start. *)
Definition start_now (a : nat) : JS S' unit :=
  let! x := read animations a in
  if (duration (config x) =? 0)%Z && negb (useNativeDriver (config x)) then
    do! updateValue (a_value x) (toValue (config x));
    debouncedOnEnd a true
  else
    let! t := gets now in
    do! on_animation a (set_startTime t);
    if useNativeDriver (config x) then startNativeAnimation a else on_animation a (set_frame true).
Definition animation_start (a : nat) : JS S' unit :=
  let! x := read animations a in
  if negb (delay_ (config x) =? 0)%Z then on_animation a (set_timeout true) else start_now a.
Definition animation_stop (a : nat) : JS S' unit :=
  let! x := read animations a in
  do! match nativeId x with Some i => modify (log (NativeStopAnimation i)) | None => ret tt end;
  do! on_animation a (fun x => set_frame false (set_timeout false (set_active false x)));
  debouncedOnEnd a false.
(** A frame of TimingAnimation: [onUpdate]. *)
Definition progress (x : animation) (t : Z) : Q :=
  (fromValue x + easing (config x) (inject_Z (t - startTime x) / inject_Z (duration (config x))) *
     (toValue (config x) - fromValue x))%Q.
Definition target (x : animation) : Q :=
  if (duration (config x) =? 0)%Z then toValue (config x)
  else (fromValue x + easing (config x) 1 * (toValue (config x) - fromValue x))%Q.
Definition onUpdate (a : nat) : JS S' unit :=
  let! x := read animations a in
  let! t := gets now in
  if (startTime x + duration (config x) <=? t)%Z then
    do! updateValue (a_value x) (target x);
    debouncedOnEnd a true
  else
    do! updateValue (a_value x) (progress x t);
    let! y := read animations a in
    when (active y) (on_animation a (set_frame true)).

(** *** Steps of the host *)
Definition frame_fires (a : nat) : JS S' unit :=
  let! x := read animations a in
  when (frame x) (do! on_animation a (set_frame false); onUpdate a).
Definition timeout_fires (a : nat) : JS S' unit :=
  let! x := read animations a in
  when (timeout x) (do! on_animation a (set_timeout false); start_now a).
Definition native_ends (a : nat) (finished : bool) : JS S' unit :=
  let! x := read animations a in
  match nativeId x with Some _ => debouncedOnEnd a finished | None => ret tt end.

Definition createInteractionHandle : JS S' nat :=
  let! h := gets nextHandle in
  do! modify (fun s => set_handles ({[h]} ∪ handles s) (S h) s);
  ret h.
Definition stop_current (v : nat) : JS S' unit :=
  let! x := read values v in
  match animation_ x with Some a => animation_stop a | None => ret tt end.
Definition push_animation (x : animation) : JS S' nat :=
  let! a := gets (fun s => length (animations s)) in
  do! modify (upd_animations (fun l => l ++ [x]));
  ret a.
Definition animate (v : nat) (c : timing_config) (callback : option end_callback) : JS S' unit :=
  let! h := if default (negb (useNativeDriver c)) (isInteraction c) then
              let! h := createInteractionHandle in ret (Some h) else ret None in
  do! stop_current v;
  let! x := read values v in
  let! a := push_animation (Build_animation c v true (value_ x) 0 (Some (Build_value_end v h callback)) false false None) in
  do! on_value v (set_animation (Some a));
  animation_start a.
Definition stopAnimation (v : nat) : JS S' unit :=
  do! stop_current v;
  on_value v (set_animation None).
Definition resetAnimation (v : nat) : JS S' unit :=
  do! stopAnimation v;
  on_value v (fun x => set_value (startingValue x) x).
Definition setValue (v : nat) (q : Q) : JS S' unit :=
  let! x := read values v in
  do! match animation_ x with
      | Some a => do! animation_stop a; on_value v (set_animation None)
      | None => ret tt
      end;
  updateValue v q.
Definition set_offset (q : Q) (x : value) : value := Build_value (value_ x) (startingValue x) q (animation_ x).
Definition getValue (x : value) : Q := (value_ x + offset x)%Q.
Definition setOffset (v : nat) (q : Q) : JS S' unit := on_value v (set_offset q).
Definition flattenOffset (v : nat) : JS S' unit := on_value v (fun x => set_offset 0 (set_value (getValue x) x)).
Definition extractOffset (v : nat) : JS S' unit := on_value v (fun x => set_value 0 (set_offset (offset x + value_ x) x)).

(** ** Composite animations *)
Definition combineCallbacks (callback : option end_callback) (c : timing_config) : option end_callback :=
  match callback, onComplete c with
  | Some k, Some t => Some (Combined (Client t) k)
  | Some k, None => Some k
  | None, o => Client <$> o
  end.
Definition timing_start (v : nat) (c : timing_config) (callback : option end_callback) : JS S' unit :=
  animate v c (combineCallbacks callback c).

(** [_isUsingNativeDriver], [_startNativeLoop]; a composite is made after its parts. *)
Fixpoint isUsingNativeDriver (n : nat) (s : S') (c : nat) : bool :=
  match n with
  | O => false
  | S n =>
      match composites s !! c with
      | Some (Timing _ cfg) => useNativeDriver cfg
      | Some (Loop x _ _ _ _) => isUsingNativeDriver n s x
      | _ => false
      end
  end.
Definition startNativeLoop (c : nat) (n : Z) : JS S' unit :=
  let! x := read composites c in
  match x with
  | Timing v cfg => timing_start v (with_iterations n cfg) None
  | Sequence _ _ => throw (JSError "Loops run using the native driver cannot contain Animated.sequence animations")
  | Parallel _ _ _ _ => throw (JSError "Loops run using the native driver cannot contain Animated.parallel animations")
  | Loop _ _ _ _ _ => throw (JSError "Loops run using the native driver cannot contain Animated.loop animations")
  end.

Definition start_current (c : nat) (l : list nat) (current : nat) (callback : option end_callback) : JS S' unit :=
  match l !! current with
  | Some x => rec (Start x (Some (OnComplete c callback)))
  | None => dangling
  end.
Definition start_child (c : nat) (callback : option end_callback) (p : nat * option nat) : JS S' unit :=
  let k := ParallelDone c p.1 callback in
  match p.2 with
  | None => rec (End k true)
  | Some x => rec (Start x (Some k))
  end.
Definition start (c : nat) (callback : option end_callback) : JS S' unit :=
  let! x := read composites c in
  match x with
  | Timing v cfg => timing_start v cfg callback
  | Sequence l current =>
      if length l =? 0 then end_with callback true else start_current c l current callback
  | Parallel l _ doneCount _ =>
      if doneCount =? length l then end_with callback true
      else for_each (imap pair l) (start_child c callback)
  | Loop x n _ _ _ =>
      if (n =? 0)%Z then end_with callback true
      else
        let! native := gets (fun s => isUsingNativeDriver (length (composites s)) s x) in
        if native then startNativeLoop x n else rec (End (Restart c callback) true)
  end.

Definition hasEnded_ (c : nat) : JS S' (gset nat) :=
  let! x := read composites c in
  ret (match x with Parallel _ _ _ e => e | _ => ∅ end).
Definition mark_ended (idx : nat) (x : composite) : composite :=
  match x with Parallel l t d e => Parallel l t d ({[idx]} ∪ e) | _ => x end.
Definition upd_composite (c : nat) (f : composite -> composite) : JS S' unit := modify (upd_composites (alter f c)).
Definition stop_child (c : nat) (p : nat * option nat) : JS S' unit :=
  let! e := hasEnded_ c in
  do! when (bool_decide (p.1 ∉ e)) (match p.2 with Some x => rec (Stop x) | None => dangling end);
  upd_composite c (mark_ended p.1).
Definition set_finished (x : composite) : composite :=
  match x with Loop a n r _ i => Loop a n r true i | _ => x end.
Definition stop (c : nat) : JS S' unit :=
  let! x := read composites c in
  match x with
  | Timing v _ => stopAnimation v
  | Sequence l current => match l !! current with Some x => rec (Stop x) | None => ret tt end
  | Parallel l _ _ _ => for_each (imap pair l) (stop_child c)
  | Loop x _ _ _ _ => do! upd_composite c set_finished; rec (Stop x)
  end.

Definition set_current (i : nat) (x : composite) : composite :=
  match x with Sequence l _ => Sequence l i | _ => x end.
(** [hasEnded[idx] = false; doneCount = 0;] *)
Definition forget_ended (idx : nat) (x : composite) : composite :=
  match x with Parallel l t _ e => Parallel l t 0 (e ∖ {[idx]}) | _ => x end.
Definition restart_count (x : composite) : composite :=
  match x with Loop a n r _ _ => Loop a n r false 0 | _ => x end.
Definition current_ (c : nat) : JS S' nat :=
  let! x := read composites c in
  ret (match x with Sequence _ i => i | _ => 0 end).
Definition reset (c : nat) : JS S' unit :=
  let! x := read composites c in
  match x with
  | Timing v _ => resetAnimation v
  | Sequence l _ =>
      do! for_each (imap pair l) (fun p => let! i := current_ c in when (p.1 <=? i) (rec (Reset p.2)));
      upd_composite c (set_current 0)
  | Parallel l _ _ _ =>
      for_each (imap pair l) (fun p =>
        do! match p.2 with Some x => rec (Reset x) | None => dangling end;
        upd_composite c (forget_ended p.1))
  | Loop x _ _ _ _ => do! upd_composite c restart_count; rec (Reset x)
  end.

(** The closures. *)
Definition sequence_onComplete (c : nat) (callback : option end_callback) (finished : bool) : JS S' unit :=
  if negb finished then end_with callback finished
  else
    let! x := read composites c in
    match x with
    | Sequence l current =>
        do! upd_composite c (set_current (S current));
        if S current =? length l then end_with callback finished else start_current c l (S current) callback
    | _ => ret tt
    end.
Definition count_done (n : nat) (idx : nat) (x : composite) : composite :=
  match x with Parallel l t _ e => Parallel l t n ({[idx]} ∪ e) | _ => x end.
Definition parallel_cb (c idx : nat) (callback : option end_callback) (finished : bool) : JS S' unit :=
  let! x := read composites c in
  match x with
  | Parallel l stopTogether doneCount _ =>
      if S doneCount =? length l then
        do! upd_composite c (count_done 0 idx);
        end_with callback finished
      else
        do! upd_composite c (count_done (S doneCount) idx);
        when (negb finished && stopTogether) (rec (Stop c))
  | _ => ret tt
  end.
Definition count_iteration (x : composite) : composite :=
  match x with Loop a n r f i => Loop a n r f (i + 1) | _ => x end.
Definition loop_restart (c : nat) (callback : option end_callback) (finished : bool) : JS S' unit :=
  let! x := read composites c in
  match x with
  | Loop a n resetBeforeIteration isFinished i =>
      if isFinished || (i =? n)%Z || negb finished then end_with callback finished
      else
        do! upd_composite c count_iteration;
        do! when resetBeforeIteration (rec (Reset a));
        rec (Start a (Some (Restart c callback)))
  | _ => ret tt
  end.
Definition call_end (callback : end_callback) (finished : bool) : JS S' unit :=
  match callback with
  | Client tag => do! modify (log (Called tag finished)); client tag finished
  | Combined k1 k2 => do! rec (End k1 finished); rec (End k2 finished)
  | OnComplete c k => sequence_onComplete c k finished
  | ParallelDone c idx k => parallel_cb c idx k finished
  | Restart c k => loop_restart c k finished
  end.
Definition run_call (x : call) : JS S' unit :=
  match x with
  | Start c k => start c k
  | Stop c => stop c
  | Reset c => reset c
  | End k b => call_end k b
  end.
End operations.

Fixpoint exec (n : nat) (x : call) : JS S' unit :=
  match n with O => out_of_fuel | S n => run_call (exec n) x end.
(** Time passes. *)
Definition tick (d : nat) : JS S' unit := modify (fun s => set_now (now s + Z.of_nat d) s).


(** *** Construction *)
Definition new_value (q : Q) : JS S' nat :=
  let! v := gets (fun s => length (values s)) in
  do! modify (upd_values (fun l => l ++ [Build_value q q 0 None]));
  ret v.
Definition new_composite (x : composite) : JS S' nat :=
  let! c := gets (fun s => length (composites s)) in
  do! modify (upd_composites (fun l => l ++ [x]));
  ret c.
Definition timing (v : nat) (c : timing_config) : JS S' nat := new_composite (Timing v c).
Definition sequence (l : list nat) : JS S' nat := new_composite (Sequence l 0).
Definition parallel (l : list (option nat)) (stopTogether : bool) : JS S' nat := new_composite (Parallel l stopTogether 0 ∅).
Definition loop (x : nat) (n : Z) (resetBeforeIteration : bool) : JS S' nat :=
  new_composite (Loop x n resetBeforeIteration false 0).
Definition delay_config (time : Z) : timing_config :=
  Build_timing_config 0 (fun t => t) 0 time None false None 1.
Definition delay (time : Z) : JS S' nat :=
  let! v := new_value 0 in
  timing v (delay_config time).
Fixpoint stagger_from (time : Z) (i : Z) (l : list nat) : JS S' (list (option nat)) :=
  match l with
  | [] => ret []
  | x :: l' =>
      let! d := delay (time * i) in
      let! y := sequence [d; x] in
      let! rest := stagger_from time (i + 1) l' in
      ret (Some y :: rest)
  end.
Definition stagger (time : Z) (l : list nat) : JS S' nat :=
  let! l := stagger_from time 0 l in
  parallel l true.

(** ** More calls never change a result *)
Definition extends {A} (m m' : JS S' A) : Prop := forall s, outcome m s <> OutOfFuel -> m s = m' s.
Lemma extends_refl {A} (m : JS S' A) : extends m m.
Proof. done. Qed.
Lemma extends_bind {A B} (m m' : JS S' A) (k k' : A -> JS S' B) :
  extends m m' -> (forall a, extends (k a) (k' a)) -> extends (bind m k) (bind m' k').
Proof.
  intros Hm Hk s. specialize (Hm s). unfold outcome, bind in *.
  destruct (m s) as [[a|e|] s1] eqn:E; cbn in *; [| |done]; rewrite <- Hm by done; [apply Hk|done].
Qed.
Lemma extends_for_each {A} (l : list A) (f f' : A -> JS S' unit) :
  (forall x, extends (f x) (f' x)) -> extends (for_each l f) (for_each l f').
Proof. intros H. induction l as [|x l IH]; cbn; [apply extends_refl|]. by apply extends_bind. Qed.
Lemma extends_when b (m m' : JS S' unit) : extends m m' -> extends (when b m) (when b m').
Proof. by destruct b. Qed.
Lemma extends_oof {A} (m : JS S' A) : extends out_of_fuel m.
Proof. intros s H. by destruct H. Qed.
Ltac js_extends :=
  repeat first
    [ assumption | apply extends_refl
    | solve [eauto 2]
    | simple apply extends_bind; [|intros ?] | simple apply extends_when
    | simple apply extends_for_each; intros ?
    | progress case_match ].

Section extends_ops.
Context (rec rec' : call -> JS S' unit) (Hrec : forall x, extends (rec x) (rec' x)).
Lemma ex_end_with k b : extends (end_with rec k b) (end_with rec' k b).
Proof. unfold end_with. js_extends. Qed.
Lemma ex_debouncedOnEnd a b : extends (debouncedOnEnd rec a b) (debouncedOnEnd rec' a b).
Proof. unfold debouncedOnEnd, value_ended. pose proof ex_end_with. js_extends. Qed.
Lemma ex_start_now a : extends (start_now rec a) (start_now rec' a).
Proof. unfold start_now. pose proof ex_debouncedOnEnd. js_extends. Qed.
Lemma ex_animation_start a : extends (animation_start rec a) (animation_start rec' a).
Proof. unfold animation_start. pose proof ex_start_now. js_extends. Qed.
Lemma ex_stop_current v : extends (stop_current rec v) (stop_current rec' v).
Proof. unfold stop_current, animation_stop. pose proof ex_debouncedOnEnd. js_extends. Qed.
Lemma ex_timing_start v c k : extends (timing_start rec v c k) (timing_start rec' v c k).
Proof. unfold timing_start, animate. pose proof ex_stop_current. pose proof ex_animation_start. js_extends. Qed.
Lemma ex_start c k : extends (start rec c k) (start rec' c k).
Proof.
  unfold start, startNativeLoop, start_current, start_child.
  pose proof ex_timing_start. pose proof ex_end_with. js_extends.
Qed.
Lemma ex_stop c : extends (stop rec c) (stop rec' c).
Proof. unfold stop, stopAnimation, stop_child. pose proof ex_stop_current. js_extends. Qed.
Lemma ex_reset c : extends (reset rec c) (reset rec' c).
Proof. unfold reset, resetAnimation, stopAnimation. pose proof ex_stop_current. js_extends. Qed.
Lemma ex_call_end k b : extends (call_end rec k b) (call_end rec' k b).
Proof.
  unfold call_end, sequence_onComplete, parallel_cb, loop_restart, start_current. pose proof ex_end_with. js_extends.
Qed.
Lemma ex_run_call x : extends (run_call rec x) (run_call rec' x).
Proof. destruct x; [apply ex_start|apply ex_stop|apply ex_reset|apply ex_call_end]. Qed.
End extends_ops.

Lemma exec_more n n' x : n <= n' -> extends (exec n x) (exec n' x).
Proof.
  revert n' x. induction n as [|n IH]; intros n' x Hn; [apply extends_oof|].
  destruct n' as [|n']; [lia|]. cbn. apply ex_run_call. intros y. apply IH. lia.
Qed.
End animated.
