(* ===== verification/CompositeAnimations.v ===== *)
(** * Composite animations

    The end of a composite animation, for trees of timings, sequences, parallels and
    loops whose parts are their own: the callback given to [start] is called once,
    when the last part has ended.  The development of Animations.v is run with as many
    nested calls as it takes ([does]); the state of a tree is described part by part
    ([idle], [running], [over]), and each operation by what it leaves behind and whom
    it calls ([finishes]).  The client's code may do anything outside of the tree. *)
From S2P Require Import Prelude Rationals Animations.
From stdpp Require Import base numbers list strings gmap.
From Stdlib Require Import QArith.
Open Scope nat_scope.
#[local] Set Warnings "-register-all".

(** ** Trees *)
Inductive tree :=
  | Leaf (c v : nat) (cfg : timing_config)
  | Seq (c : nat) (l : list tree)
  | Par (c : nat) (stopTogether : bool) (l : list tree)
  | Lp (c : nat) (n : Z) (t : tree).

Section tree_ind.
Context (P : tree -> Prop)
  (Hleaf : forall c v cfg, P (Leaf c v cfg))
  (Hseq : forall c l, Forall P l -> P (Seq c l))
  (Hpar : forall c b l, Forall P l -> P (Par c b l))
  (Hloop : forall c n t, P t -> P (Lp c n t)).
Fixpoint tree_ind' (t : tree) : P t :=
  let all := fix all (l : list tree) : Forall P l :=
    match l with [] => Forall_nil_2 P | t :: l => Forall_cons_2 P t l (tree_ind' t) (all l) end in
  match t with
  | Leaf c v cfg => Hleaf c v cfg
  | Seq c l => Hseq c l (all l)
  | Par c b l => Hpar c b l (all l)
  | Lp c n t => Hloop c n t (tree_ind' t)
  end.
End tree_ind.

Definition rid (t : tree) : nat := match t with Leaf c _ _ | Seq c _ | Par c _ _ | Lp c _ _ => c end.
Fixpoint comps (t : tree) : list nat :=
  match t with Leaf c _ _ => [c] | Seq c l | Par c _ l => c :: concat (comps <$> l) | Lp c _ t => c :: comps t end.
Fixpoint vals (t : tree) : list nat :=
  match t with Leaf _ v _ => [v] | Seq _ l | Par _ _ l => concat (vals <$> l) | Lp _ _ t => vals t end.
Fixpoint tags (t : tree) : list nat :=
  match t with
  | Leaf _ _ cfg => match onComplete cfg with Some k => [k] | None => [] end
  | Seq _ l | Par _ _ l => concat (tags <$> l)
  | Lp _ _ t => tags t
  end.
(** The tree ends within the call that starts it. *)
Fixpoint instant (t : tree) : bool :=
  match t with
  | Leaf _ _ cfg => (duration cfg =? 0)%Z && (delay_ cfg =? 0)%Z && negb (useNativeDriver cfg)
  | Seq _ l | Par _ _ l => forallb instant l
  | Lp _ n t => (n =? 0)%Z || instant t
  end.
Fixpoint native (t : tree) : bool :=
  match t with Leaf _ _ cfg => useNativeDriver cfg | Lp _ _ t => native t | _ => false end.
(** A loop runs in JavaScript, and does not go on forever within one call. *)
Fixpoint loops_ok (t : tree) : bool :=
  match t with
  | Leaf _ _ _ => true
  | Seq _ l | Par _ _ l => forallb loops_ok l
  | Lp _ n t => negb (native t) && ((0 <=? n)%Z || negb (instant t)) && loops_ok t
  end.
Record own_parts (t : tree) : Prop := {
  op_comps : NoDup (comps t);
  op_vals : NoDup (vals t);
  op_loops : loops_ok t = true
}.

Section composite.
Context {W : Type} (client : nat -> bool -> JS (st W) unit) (listener : nat -> Q -> JS (st W) unit).
Abbreviation exec := (exec client listener).
Abbreviation op A := ((call -> JS (st W) unit) -> JS (st W) A).

(** ** Runs with enough nested calls *)
Definition does {A} (m : op A) (s : st W) (a : A) (s' : st W) : Prop :=
  exists n, forall n', n <= n' -> m (exec n') s = (Ret a, s').
Definition ends (k : option end_callback) (b : bool) (s s' : st W) : Prop :=
  does (fun rec => end_with rec k b) s tt s'.

Lemma does_now {A} (m : JS (st W) A) s a s' : m s = (Ret a, s') -> does (fun _ => m) s a s'.
Proof. intros H. by exists 0. Qed.
Lemma does_then {A B} (m : op A) (k : A -> op B) s a s1 b s2 :
  does m s a s1 -> does (k a) s1 b s2 -> does (fun rec => bind (m rec) (fun x => k x rec)) s b s2.
Proof.
  intros [n1 H1] [n2 H2]. exists (n1 `max` n2). intros n' Hn. rewrite (bind_of _ _ _ a s1) by (apply H1; lia). apply H2. lia.
Qed.
Lemma does_skip {A B} (m : JS (st W) A) (k : A -> op B) s a s1 b s2 :
  m s = (Ret a, s1) -> does (k a) s1 b s2 -> does (fun rec => bind m (fun x => k x rec)) s b s2.
Proof. intros H. apply (does_then (fun _ => m)). by apply does_now. Qed.
Lemma does_eq {A} (m m' : op A) s s0 a s' : (forall rec, m rec s = m' rec s0) -> does m' s0 a s' -> does m s a s'.
Proof. intros H [n Hn]. exists n. intros n' Hn'. rewrite H. by apply Hn. Qed.
Lemma does_call x s s' : does (fun rec => run_call client listener rec x) s tt s' -> does (fun rec => rec x) s tt s'.
Proof. intros [n H]. exists (S n). intros [|n'] Hn; [lia|]. cbn. apply H. lia. Qed.
Lemma does_end k b s s' : does (fun rec => call_end client rec k b) s tt s' -> ends (Some k) b s s'.
Proof. apply (does_call (End k b)). Qed.
Lemma ends_none b s : ends None b s s.
Proof. by apply does_now. Qed.

(** ** Locality *)
Definition same (C V : nat -> Prop) (s s' : st W) : Prop :=
  (forall c, C c -> composites s' !! c = composites s !! c) /\
  (forall v, V v -> values s' !! v = values s !! v) /\
  (forall a x, V (a_value x) -> animations s' !! a = Some x <-> animations s !! a = Some x).
Lemma same_mono (C V C' V' : nat -> Prop) s s' : (forall c, C c -> C' c) -> (forall v, V v -> V' v) -> same C' V' s s' -> same C V s s'.
Proof. intros HC HV (H1 & H2 & H3). split_and!; auto. Qed.
#[export] Instance same_preorder C V : PreOrder (same C V).
Proof.
  split.
  - intros s. by split_and!.
  - intros a b c (H1 & H2 & H3) (G1 & G2 & G3). split_and!.
    + intros x Hx. by rewrite G1, H1.
    + intros x Hx. by rewrite G2, H2.
    + intros i x Hx. by rewrite G3, H3.
Qed.
Definition on_tree (t : tree) : st W -> st W -> Prop := same (fun c => c ∈ comps t) (fun v => v ∈ vals t).

(** ** The state of a tree *)
Definition dead (x : animation) : Prop := onEnd x = None /\ frame x = false /\ timeout x = false.
(** The host will call back: with a frame, after the delay, or from native. *)
Definition waiting (x : animation) : Prop :=
  (frame x = true /\ timeout x = false /\ nativeId x = None) \/
  (frame x = false /\ timeout x = true /\ nativeId x = None) \/
  (frame x = false /\ timeout x = false /\ is_Some (nativeId x)).
Definition quiet (s : st W) (v : nat) : Prop :=
  (exists x, values s !! v = Some x /\ animation_ x = None) /\
  forall a y, animations s !! a = Some y -> a_value y = v -> dead y.
Definition live (s : st W) (v : nat) (cfg : timing_config) (k : option end_callback) (a : nat) : Prop :=
  (exists x, values s !! v = Some x /\ animation_ x = Some a) /\
  (exists y h, animations s !! a = Some y /\ a_value y = v /\ config y = cfg /\ active y = true /\
     onEnd y = Some (Build_value_end v h k) /\ waiting y) /\
  forall b y, b <> a -> animations s !! b = Some y -> a_value y = v -> dead y.

Inductive idle (s : st W) : tree -> Prop :=
  | idle_leaf c v cfg : composites s !! c = Some (Timing v cfg) -> quiet s v -> idle s (Leaf c v cfg)
  | idle_seq c l : composites s !! c = Some (Sequence (rid <$> l) 0) -> Forall (idle s) l -> idle s (Seq c l)
  | idle_par c b l : composites s !! c = Some (Parallel (Some <$> (rid <$> l)) b 0 ∅) ->
      Forall (idle s) l -> idle s (Par c b l)
  | idle_loop c n t : composites s !! c = Some (Loop (rid t) n true false 0) -> idle s t -> idle s (Lp c n t).
Inductive over (s : st W) : tree -> Prop :=
  | over_leaf c v cfg : composites s !! c = Some (Timing v cfg) -> quiet s v -> over s (Leaf c v cfg)
  | over_seq c l cur : composites s !! c = Some (Sequence (rid <$> l) cur) ->
      Forall (over s) l -> (forall i t, l !! i = Some t -> cur < i -> idle s t) -> over s (Seq c l)
  | over_par c b l d e : composites s !! c = Some (Parallel (Some <$> (rid <$> l)) b d e) ->
      e ⊆ set_seq 0 (length l) -> (l = [] -> d = 0) -> Forall (over s) l -> over s (Par c b l)
  | over_loop c n t f i : composites s !! c = Some (Loop (rid t) n true f i) -> over s t -> over s (Lp c n t).
Inductive running (s : st W) : option end_callback -> tree -> Prop :=
  | run_leaf k c v cfg a : composites s !! c = Some (Timing v cfg) ->
      live s v cfg (combineCallbacks k cfg) a -> running s k (Leaf c v cfg)
  | run_seq k c l cur t : composites s !! c = Some (Sequence (rid <$> l) cur) ->
      l !! cur = Some t -> running s (Some (OnComplete c k)) t ->
      (forall i t, l !! i = Some t -> i < cur -> over s t) ->
      (forall i t, l !! i = Some t -> cur < i -> idle s t) -> running s k (Seq c l)
  | run_par k c b l e : composites s !! c = Some (Parallel (Some <$> (rid <$> l)) b (size e) e) ->
      e ⊆ set_seq 0 (length l) -> size e < length l ->
      (forall i t, l !! i = Some t -> (i ∈ e /\ over s t) \/ (i ∉ e /\ running s (Some (ParallelDone c i k)) t)) ->
      running s k (Par c b l)
  | run_loop k c n t i : composites s !! c = Some (Loop (rid t) n true false i) -> ((0 <= n)%Z -> (i <= n)%Z) ->
      running s (Some (Restart c k)) t -> running s k (Lp c n t).

Lemma quiet_local s s' v : same (fun _ => False) (fun x => x = v) s s' -> quiet s v -> quiet s' v.
Proof.
  intros (_ & HV & HA) [(x & Hx & Hn) Hd]. split; [exists x; by rewrite HV|].
  intros a y Hy Hv. apply (Hd a); [|done]. by apply HA.
Qed.
Lemma live_local s s' v cfg k a : same (fun _ => False) (fun x => x = v) s s' -> live s v cfg k a -> live s' v cfg k a.
Proof.
  intros (_ & HV & HA) ((x & Hx & Hn) & (y & h & Hy & Hy') & Hd). split_and!.
  - exists x. by rewrite HV.
  - exists y, h. split; [|done]. apply HA; [by destruct Hy'|done].
  - intros b z Hb Hz Hv. apply (Hd b); [done| |done]. by apply HA.
Qed.

(** The parts of a list of trees. *)
Lemma elem_parts {A} (f : tree -> list A) l i t x : l !! i = Some t -> x ∈ f t -> x ∈ concat (f <$> l).
Proof.
  intros Hl Hx. rewrite list_elem_of_In, in_concat. exists (f t). rewrite <- !list_elem_of_In. split; [|done].
  apply list_elem_of_fmap. exists t. split; [done|by eapply list_elem_of_lookup_2].
Qed.
Lemma parts_elem {A} (f : tree -> list A) l x : x ∈ concat (f <$> l) -> exists i t, l !! i = Some t /\ x ∈ f t.
Proof.
  rewrite list_elem_of_In, in_concat. intros (y & Hy & Hx). apply list_elem_of_In, list_elem_of_fmap in Hy as (t & -> & Ht).
  apply list_elem_of_lookup in Ht as [i Hi]. exists i, t. by rewrite list_elem_of_In.
Qed.
Lemma local_all (P Q : tree -> Prop) l : Forall (fun t => P t -> Q t) l -> Forall P l -> Forall Q l.
Proof. intros H1 H2. induction H1; inversion H2; subst; constructor; auto. Qed.
Lemma on_tree_part t l i s s' (C V : nat -> Prop) : l !! i = Some t ->
  same (fun c => C c \/ c ∈ concat (comps <$> l)) (fun v => V v \/ v ∈ concat (vals <$> l)) s s' -> on_tree t s s'.
Proof. intros Hl. apply same_mono; intros x Hx; right; by eapply elem_parts. Qed.
Lemma on_tree_parts c l s s' : same (fun x => x ∈ c :: concat (comps <$> l)) (fun v => v ∈ concat (vals <$> l)) s s' ->
  composites s' !! c = composites s !! c /\ forall i t, l !! i = Some t -> on_tree t s s'.
Proof.
  intros H. split; [apply (proj1 H); left|]. intros i t Hl.
  apply (on_tree_part t l i s s' (fun x => x = c) (fun _ => False) Hl). revert H.
  apply same_mono; intros x Hx; [|by destruct Hx]. destruct Hx as [->|]; by constructor.
Qed.
Lemma on_leaf c v cfg s s' : on_tree (Leaf c v cfg) s s' ->
  composites s' !! c = composites s !! c /\ same (fun _ => False) (fun x => x = v) s s'.
Proof.
  intros H. split; [apply (proj1 H); left|]. revert H. apply same_mono; [done|]. intros x ->. left.
Qed.
Lemma on_loop c n t s s' : on_tree (Lp c n t) s s' -> composites s' !! c = composites s !! c /\ on_tree t s s'.
Proof.
  intros H. split; [apply (proj1 H); left|]. revert H. apply same_mono; [|done]. intros x Hx. by right.
Qed.

Lemma idle_local s s' t : on_tree t s s' -> idle s t -> idle s' t.
Proof.
  induction t as [c v cfg|c l IH|c b l IH|c n t IH] using tree_ind'; intros Hs Hi; inversion Hi; subst.
  - apply on_leaf in Hs as [Hc Hv]. constructor; [by rewrite Hc|by eapply quiet_local].
  - apply on_tree_parts in Hs as [Hc Hs]. constructor; [by rewrite Hc|]. rewrite Forall_lookup in *. eauto.
  - apply on_tree_parts in Hs as [Hc Hs]. constructor; [by rewrite Hc|]. rewrite Forall_lookup in *. eauto.
  - apply on_loop in Hs as [Hc Hs]. constructor; [by rewrite Hc|auto].
Qed.
Lemma over_local s s' t : on_tree t s s' -> over s t -> over s' t.
Proof.
  induction t as [c v cfg|c l IH|c b l IH|c n t IH] using tree_ind'; intros Hs Hi; inversion Hi; subst.
  - apply on_leaf in Hs as [Hc Hv]. constructor; [by rewrite Hc|by eapply quiet_local].
  - apply on_tree_parts in Hs as [Hc Hs]. econstructor; [by rewrite Hc| |].
    + rewrite Forall_lookup in *. eauto.
    + intros i t Ht Hlt. eapply idle_local; [by eapply Hs|eauto].
  - apply on_tree_parts in Hs as [Hc Hs]. econstructor; [by rewrite Hc|done|done|]. rewrite Forall_lookup in *. eauto.
  - apply on_loop in Hs as [Hc Hs]. econstructor; [by rewrite Hc|auto].
Qed.
Lemma running_local s s' t : forall k, on_tree t s s' -> running s k t -> running s' k t.
Proof.
  induction t as [c v cfg|c l IH|c b l IH|c n t IH] using tree_ind'; intros k Hs Hi; inversion Hi; subst.
  - apply on_leaf in Hs as [Hc Hv]. econstructor; [by rewrite Hc|by eapply live_local].
  - apply on_tree_parts in Hs as [Hc Hs]. rewrite Forall_lookup in IH. econstructor; [by rewrite Hc|done|..].
    + eapply IH; eauto.
    + intros i t' Ht Hlt. eapply over_local; eauto.
    + intros i t' Ht Hlt. eapply idle_local; eauto.
  - apply on_tree_parts in Hs as [Hc Hs]. rewrite Forall_lookup in IH. econstructor; [by rewrite Hc|done..|].
    intros i t' Ht. destruct (H6 i t' Ht) as [[Hie Ho]|[Hie Hr]]; [left|right]; (split; [done|]).
    + eapply over_local; eauto.
    + eapply IH; eauto.
  - apply on_loop in Hs as [Hc Hs]. econstructor; [by rewrite Hc|done|]. eapply IH; eauto.
Qed.
Lemma idle_over s t : idle s t -> over s t.
Proof.
  induction t as [c v cfg|c l IH|c b l IH|c n t IH] using tree_ind'; intros Hi; inversion Hi; subst; econstructor; eauto.
  - by eapply local_all.
  - intros i t Ht _. by eapply Forall_lookup_1.
  - set_solver.
  - by eapply local_all.
Qed.
Lemma over_quiet s t v : over s t -> v ∈ vals t -> quiet s v.
Proof.
  induction t as [c v' cfg|c l IH|c b l IH|c n t IH] using tree_ind'; intros Hi Hv; inversion Hi; subst; cbn in Hv.
  - by apply list_elem_of_singleton in Hv as ->.
  - apply parts_elem in Hv as (i & t & Ht & Hv). eapply (Forall_lookup_1 _ _ _ _ IH Ht); [|done]. by eapply Forall_lookup_1; [|exact Ht].
  - apply parts_elem in Hv as (i & t & Ht & Hv). eapply (Forall_lookup_1 _ _ _ _ IH Ht); [|done]. by eapply Forall_lookup_1; [|exact Ht].
  - by apply IH.
Qed.

(** ** The root and its parts *)
Context (R : tree) (T : nat).
(** The results the end callback [T] has been called with. *)
Definition result_of (o : out) : option bool := match o with Called t b => if t =? T then Some b else None | _ => None end.
Definition called (s : st W) : list bool := omap result_of (trace s).
(** Of the root, only composites of [C] and values of [V] have changed; the end
    callback [T] has not been called. *)
Definition changes (C V : list nat) (s s' : st W) : Prop :=
  same (fun c => c ∈ comps R /\ c ∉ C) (fun v => v ∈ vals R /\ v ∉ V) s s' /\ called s' = called s.
#[local] Instance changes_preorder C V : PreOrder (changes C V).
Proof.
  split; [by split|]. intros a b c [H1 H2] [G1 G2]. split; [by etransitivity|congruence].
Qed.
Lemma changes_mono C V C' V' s s' : C ⊆ C' -> V ⊆ V' -> changes C V s s' -> changes C' V' s s'.
Proof. intros HC HV [H1 H2]. split; [|done]. revert H1. apply same_mono; set_solver. Qed.
Lemma changes_trans C V C1 V1 C2 V2 s s1 s2 : C1 ⊆ C -> V1 ⊆ V -> C2 ⊆ C -> V2 ⊆ V ->
  changes C1 V1 s s1 -> changes C2 V2 s1 s2 -> changes C V s s2.
Proof. intros ???? H1 H2. etransitivity; eapply changes_mono; [| |exact H1| | |exact H2]; done. Qed.
Lemma changes_away C V t s s' : changes C V s s' -> comps t ⊆ comps R -> vals t ⊆ vals R ->
  comps t ## C -> vals t ## V -> on_tree t s s'.
Proof. intros [H _] HC HV DC DV. revert H. apply same_mono; set_solver. Qed.

Record part (t : tree) : Prop := {
  pt_own : own_parts t;
  pt_comps : comps t ⊆ comps R;
  pt_vals : vals t ⊆ vals R;
  pt_tags : T ∉ tags t
}.
(** What holds of the elements of a list of parts. *)
Record parts (l : list tree) : Prop := {
  ps_part : forall i t, l !! i = Some t -> part t;
  ps_apart : forall i j t t', l !! i = Some t -> l !! j = Some t' -> i <> j -> comps t ## comps t' /\ vals t ## vals t'
}.
Lemma NoDup_parts {A} (f : tree -> list A) l : NoDup (concat (f <$> l)) ->
  (forall i t, l !! i = Some t -> NoDup (f t)) /\
  (forall i j t t', l !! i = Some t -> l !! j = Some t' -> i <> j -> f t ## f t').
Proof.
  induction l as [|x l IH]; cbn; [by split|]. intros (H1 & H2 & H3)%NoDup_app. destruct (IH H3) as [G1 G2].
  assert (Hx : forall j t', l !! j = Some t' -> f x ## f t').
  { intros j t' Hj y Hy Hy'. apply (H2 y Hy). by eapply elem_parts. }
  split; [intros [|i] t; cbn; [by intros [= <-]|apply G1]|].
  intros [|i] [|j] t t' Hi Hj Hij; cbn in *; simplify_eq; [by eapply Hx| |by eapply (G2 i j); eauto].
  intros y Hy Hy'. by eapply (Hx i t Hi y).
Qed.
Lemma parts_of l C : NoDup (C ++ concat (comps <$> l)) -> NoDup (concat (vals <$> l)) -> forallb loops_ok l = true ->
  concat (comps <$> l) ⊆ comps R -> concat (vals <$> l) ⊆ vals R -> T ∉ concat (tags <$> l) -> parts l.
Proof.
  intros (_ & HC & NC)%NoDup_app NV HL SC SV HT. apply NoDup_parts in NC as [NC DC]. apply NoDup_parts in NV as [NV DV].
  split; [|eauto]. intros i t Hi. split.
  - split; [by eapply NC|by eapply NV|]. rewrite forallb_forall in HL. apply HL, list_elem_of_In. by eapply list_elem_of_lookup_2.
  - intros x Hx. apply SC. by eapply elem_parts.
  - intros x Hx. apply SV. by eapply elem_parts.
  - intros Hx. apply HT. by eapply elem_parts.
Qed.
Lemma part_seq c l : part (Seq c l) -> parts l /\ forall i t, l !! i = Some t -> c ∉ comps t.
Proof.
  intros [[NC NV HL] SC SV HT]; cbn in *. split; [apply (parts_of l [c]); [done..|set_solver|done|done]|].
  intros i t Hi Hc. apply NoDup_cons in NC as [Hn _]. apply Hn. by eapply elem_parts.
Qed.
Lemma part_par c b l : part (Par c b l) -> parts l /\ forall i t, l !! i = Some t -> c ∉ comps t.
Proof. intros [[NC NV HL] SC SV HT]. apply (part_seq c). by split; [split|..]. Qed.
Lemma part_loop c n t : part (Lp c n t) -> part t /\ c ∉ comps t /\ native t = false /\ ((0 <= n)%Z \/ instant t = false).
Proof.
  intros [[NC NV HL] SC SV HT]; cbn in *. apply NoDup_cons in NC as [Hn NC].
  apply andb_prop in HL as [[HL1 HL2]%andb_prop HL]. split_and!; [|done|by apply negb_true_iff|].
  - split; [by split|set_solver|done|done].
  - apply orb_true_iff in HL2 as [?%Z.leb_le|?%negb_true_iff]; auto.
Qed.

(** ** One value and its animations *)
Lemma changes_ghost s s' : composites s' = composites s -> values s' = values s -> animations s' = animations s ->
  called s' = called s -> changes [] [] s s'.
Proof. intros E1 E2 E3 E4. split; [|done]. split_and!; intros; by rewrite ?E1, ?E2, ?E3. Qed.
Lemma changes_values f v s : changes [] [v] s (upd_values (alter f v) s).
Proof. split; [|done]. split_and!; try done. intros w [_ Hw]. cbn. rewrite list_lookup_alter_ne; [done|set_solver]. Qed.
Lemma changes_animations f a y s : animations s !! a = Some y -> a_value (f y) = a_value y ->
  changes [] [a_value y] s (upd_animations (alter f a) s).
Proof.
  intros Hy Hf. split; [|done]. split_and!; try done. intros b x [_ Hx]. cbn. destruct (decide (a = b)) as [<-|Hne].
  - rewrite list_lookup_alter_eq, Hy. cbn. split; intros [= <-]; exfalso; apply Hx; rewrite ?Hf; left.
  - by rewrite list_lookup_alter_ne.
Qed.
Lemma changes_push y s : changes [] [a_value y] s (upd_animations (fun l => l ++ [y]) s).
Proof.
  split; [|done]. split_and!; try done. intros b x [_ Hx]. cbn. rewrite lookup_snoc_Some. split; [|auto with lia].
  - intros [[_ H]|[_ <-]]; [done|]. exfalso. apply Hx. left.
  - intros H. left. split; [by eapply lookup_lt_Some|done].
Qed.
Lemma changes_composites f c s : changes [c] [] s (upd_composites (alter f c) s).
Proof. split; [|done]. split_and!; try done. intros d [_ Hd]. cbn. rewrite list_lookup_alter_ne; [done|set_solver]. Qed.

(** The value [v] has the same animations before and after. *)
Definition kept (v : nat) (s s' : st W) : Prop :=
  (forall x, values s !! v = Some x -> exists x', values s' !! v = Some x' /\ animation_ x' = animation_ x) /\
  (forall a y, a_value y = v -> animations s' !! a = Some y <-> animations s !! a = Some y).
Lemma kept_kept v a b c : kept v a b -> kept v b c -> kept v a c.
Proof.
  intros [H1 H2] [G1 G2]. split.
  - intros x Hx. destruct (H1 x Hx) as (y & Hy & <-). eauto.
  - intros i y Hy. by rewrite G2, H2.
Qed.
Lemma kept_changes C V v s s' : changes C V s s' -> v ∈ vals R -> v ∉ V -> kept v s s'.
Proof.
  intros [(_ & HV & HA) _] Hv Hn. split.
  - intros x Hx. exists x. by rewrite HV.
  - intros a y Hy. apply HA. by subst.
Qed.
Lemma kept_value f v s : (forall x, animation_ (f x) = animation_ x) -> kept v s (upd_values (alter f v) s).
Proof. intros Hf. split; [|done]. intros x Hx. exists (f x). cbn. by rewrite list_lookup_alter_eq, Hx. Qed.
Lemma quiet_kept v s s' : kept v s s' -> quiet s v -> quiet s' v.
Proof.
  intros [H1 H2] [(x & Hx & Hn) Hd]. split.
  - destruct (H1 x Hx) as (x' & Hx' & E). exists x'. by rewrite E.
  - intros a y Hy Hv. apply (Hd a); [|done]. by apply H2.
Qed.
Definition others_dead (s : st W) (v a : nat) : Prop :=
  forall b y, b <> a -> animations s !! b = Some y -> a_value y = v -> dead y.
Lemma others_kept v s s' a : kept v s s' -> others_dead s v a -> others_dead s' v a.
Proof. intros [_ H2] Hd b y Hb Hy Hv. apply (Hd b); [done| |done]. by apply H2. Qed.

(** The animation [a] of [v] is at work, and the host has nothing left for it. *)
Definition ending (s : st W) (v : nat) (k : option end_callback) (a : nat) : Prop :=
  (exists x, values s !! v = Some x) /\
  (exists y h, animations s !! a = Some y /\ a_value y = v /\ onEnd y = Some (Build_value_end v h k) /\
     frame y = false /\ timeout y = false) /\
  others_dead s v a.
Lemma ending_kept v s s' k a : kept v s s' -> ending s v k a -> ending s' v k a.
Proof.
  intros Hk ((x & Hx) & (y & h & Hy & Hy') & Hd). split_and!; [|exists y, h; split; [|done]|by eapply others_kept].
  - destruct (proj1 Hk x Hx) as (x' & Hx' & _). by exists x'.
  - apply (proj2 Hk); [by destruct Hy'|done].
Qed.

(** What the client does leaves the root alone. *)
Hypothesis Hclient : forall t b s, exists s', client t b s = (Ret tt, s') /\ changes [] [] s s'.
Hypothesis Hlistener : forall v q s, exists s', listener v q s = (Ret tt, s') /\ changes [] [] s s'.

Lemma read_run {A} (f : st W -> list A) i x s : f s !! i = Some x -> read f i s = (Ret x, s).
Proof. unfold read. by intros ->. Qed.

Lemma updateValue_run v q s x : v ∈ vals R -> values s !! v = Some x ->
  exists s1, updateValue listener v q s = (Ret tt, s1) /\ changes [] [v] s s1 /\ kept v s s1.
Proof.
  intros Hv Hx. unfold updateValue, on_value. rewrite bind_modify.
  assert (Hx' : values (upd_values (alter (set_value q) v) s) !! v = Some (set_value q x)) by (cbn; by rewrite list_lookup_alter_eq, Hx).
  rewrite (bind_of _ _ _ _ _ (read_run _ _ _ _ Hx')).
  destruct (Hlistener v (value_ (set_value q x) + offset (set_value q x))%Q (upd_values (alter (set_value q) v) s)) as (s1 & -> & Hs1).
  exists s1. split; [done|]. split.
  - eapply changes_trans; [..|apply changes_values|exact Hs1]; set_solver.
  - eapply kept_kept; [by apply (kept_value (set_value q))|]. eapply kept_changes; [exact Hs1|done|set_solver].
Qed.

Lemma debounced_run s v k a b : ending s v k a ->
  exists s1, changes [] [v] s s1 /\ quiet s1 v /\ forall rec, debouncedOnEnd rec a b s = end_with rec k b s1.
Proof.
  intros ((x & Hx) & (y & h & Hy & Hv & He & Hf & Ht) & Hd).
  set (s1 := upd_animations (alter (set_onEnd None) a) s). set (s2 := upd_values (alter (set_animation None) v) s1).
  set (s3 := match h with Some h => set_handles (handles s2 ∖ {[h]}) (nextHandle s2) s2 | None => s2 end).
  assert (E3 : composites s3 = composites s2 /\ values s3 = values s2 /\ animations s3 = animations s2 /\ called s3 = called s2)
    by (unfold s3; by destruct h).
  destruct E3 as (E3 & E4 & E5 & E6). exists s3. split_and!.
  - transitivity s1; [rewrite <- Hv; by apply changes_animations|]. transitivity s2; [apply changes_values|].
    eapply changes_mono; [| |by apply changes_ghost]; set_solver.
  - split.
    + exists (set_animation None x). rewrite E4. cbn. by rewrite list_lookup_alter_eq, Hx.
    + intros c z. rewrite E5. cbn. destruct (decide (a = c)) as [<-|Hne].
      * rewrite list_lookup_alter_eq, Hy. by intros [= <-] _.
      * rewrite list_lookup_alter_ne by done. by apply Hd.
  - intros rec. unfold debouncedOnEnd, on_animation, value_ended, on_value.
    rewrite (bind_of _ _ _ _ _ (read_run _ _ _ _ Hy)), bind_modify, He. cbn [ve_value ve_handle ve_callback].
    rewrite !bind_modify. unfold s3, s2, s1. by destruct h.
Qed.

(** What follows the end of a leaf, given the callback made of [onComplete] and [k]. *)
Lemma client_ends t b s : t <> T -> exists s1, changes [] [] s s1 /\ ends (Some (Client t)) b s s1.
Proof.
  intros Ht. destruct (Hclient t b (log (Called t b) s)) as (s1 & E & Hs1). exists s1. split.
  - etransitivity; [|exact Hs1]. apply changes_ghost; [done..|]. unfold called. cbn.
    rewrite omap_app. cbn. rewrite (proj2 (Nat.eqb_neq t T) Ht). by rewrite app_nil_r.
  - apply does_end. exists 0. intros n _. exact E.
Qed.
Lemma combined_ends k cfg b s c v : T ∉ tags (Leaf c v cfg) -> exists s1, changes [] [] s s1 /\
  forall s2, ends k b s1 s2 -> ends (combineCallbacks k cfg) b s s2.
Proof.
  unfold combineCallbacks. cbn. intros HT. destruct (onComplete cfg) as [t|].
  - destruct (client_ends t b s) as (s1 & Hc & E); [set_solver|]. exists s1. split; [done|]. intros s2 H2.
    destruct k as [k|]; cbn; [|by destruct H2 as [n Hn]; specialize (Hn n ltac:(lia)); injection Hn as <-].
    apply does_end. by eapply (does_then _ (fun _ => _)); [exact E|exact H2].
  - exists s. split; [done|]. by destruct k.
Qed.

(** A step of the leaf on [v] either ends it or leaves it at work. *)
Definition leaf_ends (s : st W) (v : nat) (k : option end_callback) (b : bool) (m : op unit) : Prop :=
  exists s1, changes [] [v] s s1 /\ quiet s1 v /\ forall rec, m rec s = end_with rec k b s1.
Definition leaf_goes (s : st W) (v : nat) (cfg : timing_config) (k : option end_callback) (m : op unit) : Prop :=
  exists s1 a, changes [] [v] s s1 /\ live s1 v cfg k a /\ forall rec, m rec s = (Ret tt, s1).
Lemma leaf_ends_from s s0 v k b (m m' : op unit) : changes [] [v] s s0 -> (forall rec, m rec s = m' rec s0) ->
  leaf_ends s0 v k b m' -> leaf_ends s v k b m.
Proof.
  intros H0 Hm (s1 & H1 & Hq & E). exists s1. split_and!; [by etransitivity|done|]. intros rec. by rewrite Hm, E.
Qed.
Lemma leaf_goes_from s s0 v cfg k (m m' : op unit) : changes [] [v] s s0 -> (forall rec, m rec s = m' rec s0) ->
  leaf_goes s0 v cfg k m' -> leaf_goes s v cfg k m.
Proof.
  intros H0 Hm (s1 & a & H1 & Hq & E). exists s1, a. split_and!; [by etransitivity|done|]. intros rec. by rewrite Hm, E.
Qed.

(** [a] is the animation of [v], in the state [y]. *)
Record held (s : st W) (v : nat) (cfg : timing_config) (k : option end_callback) (a : nat) (y : animation) : Prop := {
  hd_value : exists x, values s !! v = Some x /\ animation_ x = Some a;
  hd_animation : animations s !! a = Some y;
  hd_a_value : a_value y = v;
  hd_config : config y = cfg;
  hd_active : active y = true;
  hd_onEnd : exists h, onEnd y = Some (Build_value_end v h k);
  hd_others : others_dead s v a
}.
Lemma live_held s v cfg k a : live s v cfg k a <-> exists y, held s v cfg k a y /\ waiting y.
Proof.
  split.
  - intros (Hx & (y & h & H1 & H2 & H3 & H4 & H5 & H6) & Hd). exists y. split; [|done]. split; eauto.
  - intros (y & [Hx H1 H2 H3 H4 [h H5] Hd] & H6). split_and!; [done| |done]. exists y, h. done.
Qed.
Lemma held_ending s v cfg k a y : held s v cfg k a y -> frame y = false -> timeout y = false -> ending s v k a.
Proof. intros [(x & Hx & _) H1 H2 H3 H4 [h H5] Hd] Hf Ht. split_and!; [by exists x| |done]. by exists y, h. Qed.
Lemma held_step f s v cfg k a y : held s v cfg k a y ->
  (a_value (f y), config (f y), active (f y), onEnd (f y)) = (a_value y, config y, active y, onEnd y) ->
  held (upd_animations (alter f a) s) v cfg k a (f y) /\ changes [] [v] s (upd_animations (alter f a) s).
Proof.
  intros [Hx H1 H2 H3 H4 [h H5] Hd] [= E1 E2 E3 E4]. split.
  - split; [done|cbn; by rewrite list_lookup_alter_eq, H1|congruence..|exists h; congruence|].
    intros b z Hb Hz Hv. apply (Hd b); [done| |done]. cbn in Hz. by rewrite list_lookup_alter_ne in Hz.
  - rewrite <- H2. by eapply changes_animations.
Qed.
Lemma held_kept s s' v cfg k a y : kept v s s' -> held s v cfg k a y -> held s' v cfg k a y.
Proof.
  intros Hk [(x & Hx & Ha) H1 H2 H3 H4 H5 Hd]. split; try done; [|by apply (proj2 Hk)|by eapply others_kept].
  destruct (proj1 Hk x Hx) as (x' & Hx' & E). exists x'. split; [done|congruence].
Qed.

Lemma changes_alike V s s' : composites s' = composites s -> values s' = values s -> animations s' = animations s ->
  called s' = called s -> changes [] V s s'.
Proof. intros. eapply changes_mono; [| |by apply changes_ghost]; set_solver. Qed.
Lemma changes_log V o s : result_of o = None -> changes [] V s (log o s).
Proof. intros Ho. apply changes_alike; [done..|]. unfold called. cbn. rewrite omap_app. cbn. by rewrite Ho, app_nil_r. Qed.
Lemma held_log o s v cfg k a y : held s v cfg k a y -> held (log o s) v cfg k a y.
Proof. by intros []. Qed.

Lemma start_now_leaf s v cfg k a y : v ∈ vals R -> held s v cfg k a y -> frame y = false -> timeout y = false -> nativeId y = None ->
  if (duration cfg =? 0)%Z && negb (useNativeDriver cfg) then leaf_ends s v k true (fun rec => start_now listener rec a)
  else leaf_goes s v cfg k (fun rec => start_now listener rec a).
Proof.
  intros Hv Hh Hf Ht Hnat. pose proof Hh as [(x & Hx & Ha) H1 H2 H3 H4 H5 Hd].
  destruct ((duration cfg =? 0)%Z && negb (useNativeDriver cfg)) eqn:E.
  - destruct (updateValue_run v (toValue cfg) s x Hv Hx) as (s1 & E1 & C1 & K1).
    destruct (debounced_run s1 v k a true) as (s2 & C2 & Q2 & E2); [eapply ending_kept, held_ending; eauto|].
    exists s2. split_and!; [by etransitivity|done|]. intros rec. unfold start_now.
    rewrite (bind_of _ _ _ _ _ (read_run _ _ _ _ H1)), H2, H3, E. rewrite (bind_of _ _ _ _ _ E1). apply E2.
  - destruct (held_step (set_startTime (now s)) s v cfg k a y Hh eq_refl) as [Hh1 C1].
    set (s1 := upd_animations (alter (set_startTime (now s)) a) s) in *. set (y1 := set_startTime (now s) y) in *.
    assert (Hrun : forall rec, start_now listener rec a s =
      (if useNativeDriver cfg then startNativeAnimation a else on_animation a (set_frame true)) s1).
    { intros rec. unfold start_now. rewrite (bind_of _ _ _ _ _ (read_run _ _ _ _ H1)), H3, E, bind_gets.
      unfold on_animation. by rewrite bind_modify. }
    destruct (useNativeDriver cfg) eqn:En.
    + destruct (held_step (set_nativeId (Some (nextNativeId s1))) (set_nextNativeId (S (nextNativeId s1)) s1) v cfg k a y1) as [Hh2 C2];
        [by destruct Hh1; split|done|].
      exists (log (StartAnimatingNode (nextNativeId s1) (a_value y1) (iterations (config y1)))
        (upd_animations (alter (set_nativeId (Some (nextNativeId s1))) a) (set_nextNativeId (S (nextNativeId s1)) s1))), a. split_and!.
      * transitivity s1; [done|]. transitivity (set_nextNativeId (S (nextNativeId s1)) s1); [by apply changes_alike|].
        etransitivity; [exact C2|by apply changes_log].
      * apply live_held. exists (set_nativeId (Some (nextNativeId s1)) y1). split; [by apply held_log|]. right; right. cbn. by eauto.
      * intros rec. rewrite Hrun. unfold startNativeAnimation.
        rewrite (bind_of _ _ _ _ _ (read_run _ _ _ _ (hd_animation _ _ _ _ _ _ Hh1))). reflexivity.
    + destruct (held_step (set_frame true) s1 v cfg k a y1 Hh1 eq_refl) as [Hh2 C2].
      eexists _, a. split_and!; [transitivity s1; [done|exact C2]| |intros rec; by rewrite Hrun].
      apply live_held. eexists. split; [exact Hh2|]. left. by split_and!.
Qed.

Lemma no_animation (s : st W) v x : values s !! v = Some x -> animation_ x = None ->
  upd_values (alter (set_animation None) v) s = s.
Proof.
  intros Hx Hn. unfold upd_values. assert (alter (set_animation None) v (values s) = values s) as ->; [|by destruct s].
  apply list_eq. intros w. destruct (decide (v = w)) as [<-|Hne]; [|by apply list_lookup_alter_ne].
  rewrite list_lookup_alter_eq, Hx. cbn. f_equal. destruct x; cbn in *. by subst.
Qed.
Lemma quiet_current s v : quiet s v -> forall rec, stop_current rec v s = (Ret tt, s).
Proof. intros [(x & Hx & Hn) _] rec. unfold stop_current. by rewrite (bind_of _ _ _ _ _ (read_run _ _ _ _ Hx)), Hn. Qed.
Lemma quiet_stop s v : quiet s v -> forall rec, stopAnimation rec v s = (Ret tt, s).
Proof.
  intros Hq rec. unfold stopAnimation. rewrite (bind_of _ _ _ _ _ (quiet_current s v Hq rec)).
  destruct Hq as [(x & Hx & Hn) _]. unfold on_value, modify. by erewrite no_animation.
Qed.
Lemma quiet_reset s v : quiet s v -> exists s1, changes [] [v] s s1 /\ quiet s1 v /\
  forall rec, resetAnimation rec v s = (Ret tt, s1).
Proof.
  intros Hq. eexists. split_and!; [apply changes_values| |].
  - eapply quiet_kept; [|exact Hq]. by apply (kept_value (fun x => set_value (startingValue x) x)).
  - intros rec. unfold resetAnimation. by rewrite (bind_of _ _ _ _ _ (quiet_stop s v Hq rec)).
Qed.
Lemma held_stop s v cfg k a : live s v cfg k a -> exists s1, changes [] [v] s s1 /\ quiet s1 v /\
  forall rec, stopAnimation rec v s = bind (end_with rec k false) (fun _ => on_value v (set_animation None)) s1.
Proof.
  intros (y & Hh & Hw)%live_held. pose proof Hh as [(x & Hx & Ha) H1 H2 H3 H4 H5 Hd].
  set (s0 := match nativeId y with Some i => log (NativeStopAnimation i) s | None => s end).
  assert (Hh0 : held s0 v cfg k a y) by (unfold s0; destruct (nativeId y); [by apply held_log|done]).
  assert (C0 : changes [] [v] s s0) by (unfold s0; destruct (nativeId y); [by apply changes_log|done]).
  set (f := fun x => set_frame false (set_timeout false (set_active false x))). set (s1 := upd_animations (alter f a) s0).
  destruct (debounced_run s1 v k a false) as (s2 & C2 & Q2 & E2).
  - destruct Hh0 as [(x0 & Hx0 & Ha0) G1 G2 G3 G4 [h G5] Gd]. split_and!.
    + by exists x0.
    + exists (f y), h. split_and!; [cbn; by rewrite list_lookup_alter_eq, G1|done..].
    + intros b z Hb Hz Hv. apply (Gd b); [done| |done]. cbn in Hz. by rewrite list_lookup_alter_ne in Hz.
  - exists s2. split_and!; [|done|].
    + transitivity s0; [done|]. transitivity s1; [|done]. rewrite <- H2. apply changes_animations; [by destruct Hh0|done].
    + intros rec. unfold stopAnimation, stop_current, animation_stop.
      rewrite bind_assoc, (bind_of _ _ _ _ _ (read_run _ _ _ _ Hx)), Ha.
      rewrite bind_assoc, (bind_of _ _ _ _ _ (read_run _ _ _ _ H1)).
      assert (Hlog : (match nativeId y with Some i => modify (log (NativeStopAnimation i)) | None => ret tt end) s = (Ret tt, s0))
        by (unfold s0; by destruct (nativeId y)).
      rewrite bind_assoc, (bind_of _ _ _ _ _ Hlog), bind_assoc. unfold on_animation at 1. rewrite bind_modify.
      change (upd_animations _ s0) with s1. unfold bind. by rewrite E2.
Qed.

Lemma animate_leaf s v cfg k : v ∈ vals R -> quiet s v ->
  if (duration cfg =? 0)%Z && (delay_ cfg =? 0)%Z && negb (useNativeDriver cfg)
  then leaf_ends s v k true (fun rec => animate listener rec v cfg k)
  else leaf_goes s v cfg k (fun rec => animate listener rec v cfg k).
Proof.
  intros Hv Hq.
  set (makes := default (negb (useNativeDriver cfg)) (isInteraction cfg)).
  set (h := if makes then Some (nextHandle s) else None).
  set (s0 := if makes then set_handles ({[nextHandle s]} ∪ handles s) (S (nextHandle s)) s else s).
  assert (C0 : changes [] [v] s s0) by (unfold s0; destruct makes; [by apply changes_alike|done]).
  assert (Q0 : quiet s0 v) by (unfold s0; by destruct makes).
  pose proof Q0 as [(x & Hx & Hn) Hd].
  set (y := Build_animation cfg v true (value_ x) 0 (Some (Build_value_end v h k)) false false None).
  set (a := length (animations s0)).
  set (s1 := upd_animations (fun l => l ++ [y]) s0). set (s2 := upd_values (alter (set_animation (Some a)) v) s1).
  assert (C2 : changes [] [v] s s2).
  { transitivity s0; [done|]. transitivity s1; [apply (changes_push y)|apply changes_values]. }
  assert (Hh : held s2 v cfg k a y).
  { split; try done.
    - exists (set_animation (Some a) x). split; [|done]. cbn. by rewrite list_lookup_alter_eq, Hx.
    - cbn. by rewrite lookup_app_r, Nat.sub_diag by done.
    - by exists h.
    - intros b z Hb Hz Hvz. apply lookup_snoc_Some in Hz as [[_ Hz]|[-> _]]; [by apply (Hd b)|done]. }
  assert (Hrun : forall rec, animate listener rec v cfg k s = animation_start listener rec a s2).
  { intros rec. unfold animate. fold makes.
    assert (E0 : (if makes then let! h := createInteractionHandle in ret (Some h) else ret None) s = (Ret h, s0))
      by (unfold h, s0; by destruct makes).
    rewrite (bind_of _ _ _ _ _ E0), (bind_of _ _ _ _ _ (quiet_current s0 v Q0 rec)), (bind_of _ _ _ _ _ (read_run _ _ _ _ Hx)). done. }
  unfold animation_start in Hrun. destruct (delay_ cfg =? 0)%Z eqn:Ed.
  - rewrite andb_true_r. assert (Hrun' : forall rec, animate listener rec v cfg k s = start_now listener rec a s2).
    { intros rec. by rewrite Hrun, (bind_of _ _ _ _ _ (read_run _ _ _ _ (hd_animation _ _ _ _ _ _ Hh))), (hd_config _ _ _ _ _ _ Hh), Ed. }
    pose proof (start_now_leaf s2 v cfg k a y Hv Hh eq_refl eq_refl eq_refl) as Hs.
    destruct (_ && _); [exact (leaf_ends_from _ _ _ _ _ _ _ C2 Hrun' Hs)|exact (leaf_goes_from _ _ _ _ _ _ _ C2 Hrun' Hs)].
  - rewrite andb_false_r. cbn [andb]. destruct (held_step (set_timeout true) s2 v cfg k a y Hh eq_refl) as [Hh3 C3].
    eexists _, a. split_and!; [transitivity s2; [done|exact C3]| |].
    + apply live_held. eexists. split; [exact Hh3|]. right; left. by split_and!.
    + intros rec. by rewrite Hrun, (bind_of _ _ _ _ _ (read_run _ _ _ _ (hd_animation _ _ _ _ _ _ Hh))), (hd_config _ _ _ _ _ _ Hh), Ed.
Qed.

(** ** Events of the host *)
Inductive event := FrameFires (a : nat) | TimeoutFires (a : nat) | NativeEnds (a : nat) (finished : bool).
Definition event_of (e : event) : nat := match e with FrameFires a | TimeoutFires a | NativeEnds a _ => a end.
Definition run_event (e : event) : op unit := fun rec =>
  match e with
  | FrameFires a => frame_fires listener rec a
  | TimeoutFires a => timeout_fires listener rec a
  | NativeEnds a b => native_ends rec a b
  end.
(** The animation ends by itself. *)
Definition by_itself (e : event) : bool := match e with NativeEnds _ b => b | _ => true end.

Lemma event_dead e s y : animations s !! event_of e = Some y -> dead y -> forall rec, run_event e rec s = (Ret tt, s).
Proof.
  intros Hy (He & Hf & Ht) rec. destruct e as [a|a|a b]; cbn in *.
  - unfold frame_fires. by rewrite (bind_of _ _ _ _ _ (read_run _ _ _ _ Hy)), Hf.
  - unfold timeout_fires. by rewrite (bind_of _ _ _ _ _ (read_run _ _ _ _ Hy)), Ht.
  - unfold native_ends. rewrite (bind_of _ _ _ _ _ (read_run _ _ _ _ Hy)). destruct (nativeId y); [|done].
    unfold debouncedOnEnd. rewrite (bind_of _ _ _ _ _ (read_run _ _ _ _ Hy)), He.
    unfold on_animation. rewrite bind_modify. cbn. f_equal.
    assert (alter (set_onEnd None) a (animations s) = animations s) as E; [|unfold upd_animations; rewrite E; by destruct s].
    apply list_eq. intros w. destruct (decide (a = w)) as [<-|Hne]; [|by apply list_lookup_alter_ne].
    rewrite list_lookup_alter_eq, Hy. cbn. f_equal. destruct y; cbn in *. by subst.
Qed.

Lemma event_leaf e s v cfg k : v ∈ vals R -> live s v cfg k (event_of e) ->
  leaf_ends s v k (by_itself e) (run_event e) \/ leaf_goes s v cfg k (run_event e).
Proof.
  intros Hv (y & Hh & Hw)%live_held. pose proof Hh as [(x & Hx & Ha) H1 H2 H3 H4 H5 Hd].
  assert (Hstay : (forall rec, run_event e rec s = (Ret tt, s)) -> leaf_goes s v cfg k (run_event e)).
  { intros E. exists s, (event_of e). split_and!; [done|apply live_held; by exists y|done]. }
  destruct e as [a|a|a b]; cbn [event_of by_itself] in *.
  - assert (E0 : forall rec, run_event (FrameFires a) rec s =
      when (frame y) (do! on_animation a (set_frame false); onUpdate listener rec a) s)
      by (intros rec; unfold run_event, frame_fires; by rewrite (bind_of _ _ _ _ _ (read_run _ _ _ _ H1))).
    destruct Hw as [(Hf & Ht & Hn)|[(Hf & Ht & Hn)|(Hf & Ht & Hn)]]; [|right; apply Hstay; intros rec; by rewrite E0, Hf..].
    destruct (held_step (set_frame false) s v cfg k a y Hh eq_refl) as [Hh1 C1].
    set (s1 := upd_animations (alter (set_frame false) a) s) in *. set (y1 := set_frame false y) in *.
    assert (E1 : forall rec, run_event (FrameFires a) rec s = onUpdate listener rec a s1) by (intros rec; by rewrite E0, Hf).
    unfold onUpdate in E1. destruct (startTime y + duration cfg <=? now s)%Z eqn:Ed.
    + left. destruct (updateValue_run v (target y1) s1 x Hv Hx) as (s2 & E2 & C2 & K2).
      destruct (debounced_run s2 v k a true) as (s3 & C3 & Q3 & E3); [eapply ending_kept, held_ending; eauto|].
      exists s3. split_and!; [by transitivity s1; [|transitivity s2]|done|]. intros rec.
      rewrite E1, (bind_of _ _ _ _ _ (read_run _ _ _ _ (hd_animation _ _ _ _ _ _ Hh1))), bind_gets. cbn.
      rewrite H3, Ed, H2, (bind_of _ _ _ _ _ E2). apply E3.
    + right. destruct (updateValue_run v (progress y1 (now s)) s1 x Hv Hx) as (s2 & E2 & C2 & K2).
      pose proof (held_kept s1 s2 v cfg k a y1 K2 Hh1) as Hh2.
      destruct (held_step (set_frame true) s2 v cfg k a y1 Hh2 eq_refl) as [Hh3 C3].
      eexists _, a. split_and!; [transitivity s1; [done|]; transitivity s2; [done|exact C3]| |].
      * apply live_held. eexists. split; [exact Hh3|]. left. by split_and!.
      * intros rec. rewrite E1, (bind_of _ _ _ _ _ (read_run _ _ _ _ (hd_animation _ _ _ _ _ _ Hh1))), bind_gets. cbn -[progress].
        rewrite H3, Ed, H2, (bind_of _ _ _ _ _ E2), (bind_of _ _ _ _ _ (read_run _ _ _ _ (hd_animation _ _ _ _ _ _ Hh2))).
        by rewrite (hd_active _ _ _ _ _ _ Hh2).
  - assert (E0 : forall rec, run_event (TimeoutFires a) rec s =
      when (timeout y) (do! on_animation a (set_timeout false); start_now listener rec a) s)
      by (intros rec; unfold run_event, timeout_fires; by rewrite (bind_of _ _ _ _ _ (read_run _ _ _ _ H1))).
    destruct Hw as [(Hf & Ht & Hn)|[(Hf & Ht & Hn)|(Hf & Ht & Hn)]]; [right; apply Hstay; intros rec; by rewrite E0, Ht| |right; apply Hstay; intros rec; by rewrite E0, Ht].
    destruct (held_step (set_timeout false) s v cfg k a y Hh eq_refl) as [Hh1 C1].
    assert (E1 : forall rec, run_event (TimeoutFires a) rec s = start_now listener rec a (upd_animations (alter (set_timeout false) a) s))
      by (intros rec; by rewrite E0, Ht).
    pose proof (start_now_leaf _ v cfg k a _ Hv Hh1 Hf eq_refl Hn) as Hs.
    destruct (_ && _); [left; exact (leaf_ends_from _ _ _ _ _ _ _ C1 E1 Hs)|right; exact (leaf_goes_from _ _ _ _ _ _ _ C1 E1 Hs)].
  - assert (E0 : forall rec, run_event (NativeEnds a b) rec s =
      match nativeId y with Some _ => debouncedOnEnd rec a b | None => ret tt end s)
      by (intros rec; unfold run_event, native_ends; by rewrite (bind_of _ _ _ _ _ (read_run _ _ _ _ H1))).
    destruct Hw as [(Hf & Ht & Hn)|[(Hf & Ht & Hn)|(Hf & Ht & [i Hn])]]; [right; apply Hstay; intros rec; by rewrite E0, Hn..|].
    left. destruct (debounced_run s v k a b) as (s3 & C3 & Q3 & E3); [by eapply held_ending|].
    exists s3. split_and!; [done|done|]. intros rec. rewrite E0, Hn. apply E3.
Qed.

(** ** What a run does to a tree

    It finishes the tree: [k] is called once everything is over, and with nothing left
    to do but what does not touch the tree.  Or the tree goes on. *)
Definition finishes (t : tree) (k : option end_callback) (b : bool) (m : op unit) (s : st W) : Prop :=
  exists s1, changes (comps t) (vals t) s s1 /\ over s1 t /\
    forall s2, ends k b s1 s2 -> (b = false -> on_tree t s1 s2) -> does m s tt s2.
Definition goes (t : tree) (k : option end_callback) (m : op unit) (s : st W) : Prop :=
  exists s1, changes (comps t) (vals t) s s1 /\ running s1 k t /\ does m s tt s1.
(** A part [u] of [t], which has just ended, calls [K]. *)
Definition then_ends (u t : tree) (K k : option end_callback) (b : bool) (s : st W) : Prop :=
  exists s1, changes (comps t) (vals t) s s1 /\ over s1 t /\ (b = false -> on_tree u s s1) /\
    forall s2, ends k b s1 s2 -> (b = false -> on_tree t s1 s2) -> ends K b s s2.
Definition then_goes (u t : tree) (K k : option end_callback) (b : bool) (s : st W) : Prop :=
  exists s1, changes (comps t) (vals t) s s1 /\ running s1 k t /\ (b = false -> on_tree u s s1) /\ ends K b s s1.
Definition inside (u t : tree) : Prop := comps u ⊆ comps t /\ vals u ⊆ vals t.
Lemma inside_on u t s s' : inside u t -> on_tree t s s' -> on_tree u s s'.
Proof. intros [HC HV]. apply same_mono; auto. Qed.
Lemma inside_changes u t s s' : inside u t -> changes (comps u) (vals u) s s' -> changes (comps t) (vals t) s s'.
Proof. intros [HC HV]. by apply changes_mono. Qed.

Lemma finishes_then_ends u t K k b m s : inside u t -> finishes u K b m s ->
  (forall s1, changes (comps u) (vals u) s s1 -> over s1 u -> then_ends u t K k b s1) -> finishes t k b m s.
Proof.
  intros Hi (s1 & C1 & O1 & H1) H. destruct (H s1 C1 O1) as (s2 & C2 & O2 & L2 & H2). exists s2. split_and!; [|done|].
  - transitivity s1; [by eapply inside_changes|done].
  - intros s3 H3 L3. apply H1; [by apply H2|]. intros ->. transitivity s2; [by apply L2|]. eapply inside_on; [done|by apply L3].
Qed.
Lemma finishes_then_goes u t K k b m s : inside u t -> finishes u K b m s ->
  (forall s1, changes (comps u) (vals u) s s1 -> over s1 u -> then_goes u t K k b s1) -> goes t k m s.
Proof.
  intros Hi (s1 & C1 & O1 & H1) H. destruct (H s1 C1 O1) as (s2 & C2 & O2 & L2 & H2). exists s2. split_and!; [|done|].
  - transitivity s1; [by eapply inside_changes|done].
  - by apply H1.
Qed.
Lemma finishes_from t k b (m m' : op unit) s s0 : changes (comps t) (vals t) s s0 ->
  (forall s2, does m' s0 tt s2 -> does m s tt s2) -> finishes t k b m' s0 -> finishes t k b m s.
Proof. intros C0 H0 (s1 & C1 & O1 & H1). exists s1. split_and!; [by transitivity s0|done|auto]. Qed.
Lemma goes_from t k (m m' : op unit) s s0 : changes (comps t) (vals t) s s0 ->
  (forall s2, does m' s0 tt s2 -> does m s tt s2) -> goes t k m' s0 -> goes t k m s.
Proof. intros C0 H0 (s1 & C1 & O1 & H1). exists s1. split_and!; [by transitivity s0|done|auto]. Qed.
Lemma finishes_now t k b s : over s t -> finishes t k b (fun rec => end_with rec k b) s.
Proof. intros Ho. exists s. split_and!; [done|done|]. intros s2 H _. exact H. Qed.

(** Going into a composite. *)
Lemma does_read {B} (k : composite -> op B) c x s b s2 : composites s !! c = Some x ->
  does (k x) s b s2 -> does (fun rec => bind (read composites c) (fun x => k x rec)) s b s2.
Proof. intros H. apply (does_skip _ _ _ x s). by apply read_run. Qed.
Lemma does_start c x k s s2 : composites s !! c = Some x ->
  does (fun rec => match x with
    | Timing v cfg => timing_start listener rec v cfg k
    | Sequence l current => if length l =? 0 then end_with rec k true else start_current rec c l current k
    | Parallel l _ doneCount _ => if doneCount =? length l then end_with rec k true else for_each (imap pair l) (start_child rec c k)
    | Loop x n _ _ _ => if (n =? 0)%Z then end_with rec k true else
        let! native := gets (fun s => isUsingNativeDriver (length (composites s)) s x) in
        if native then startNativeLoop listener rec x n else rec (End (Restart c k) true)
    end) s tt s2 -> does (fun rec => rec (Start c k)) s tt s2.
Proof. intros H1 H2. apply does_call. eapply (does_read (fun x rec => _) c x); [done|exact H2]. Qed.

(** *** Leaves *)
Lemma leaf_finishes c v cfg k b (m m' : op unit) s : part (Leaf c v cfg) -> composites s !! c = Some (Timing v cfg) ->
  leaf_ends s v (combineCallbacks k cfg) b m -> (forall s2, does m s tt s2 -> does m' s tt s2) -> finishes (Leaf c v cfg) k b m' s.
Proof.
  intros Hp Hc (s1 & C1 & Q1 & E1) H0. destruct (combined_ends k cfg b s1 c v (pt_tags _ Hp)) as (s2 & C2 & E2).
  assert (C : changes [c] [v] s s2).
  { transitivity s1; [eapply changes_mono; [| |exact C1]; set_solver|eapply changes_mono; [| |exact C2]; set_solver]. }
  pose proof (pt_comps _ Hp) as HC. pose proof (pt_vals _ Hp) as HV. cbn in HC, HV.
  exists s2. split_and!; [done| |].
  - constructor.
    + rewrite <- Hc. assert (changes [] [v] s s2) as [(H & _) _]; [|apply H; split; set_solver].
      transitivity s1; [done|]. eapply changes_mono; [| |exact C2]; set_solver.
    + eapply quiet_kept; [|exact Q1]. eapply kept_changes; [exact C2|set_solver|set_solver].
  - intros s3 H3 _. apply H0. eapply does_eq; [|apply (E2 _ H3)]. exact E1.
Qed.
Lemma leaf_goes_on c v cfg k (m m' : op unit) s : part (Leaf c v cfg) -> composites s !! c = Some (Timing v cfg) ->
  leaf_goes s v cfg (combineCallbacks k cfg) m -> (forall s2, does m s tt s2 -> does m' s tt s2) -> goes (Leaf c v cfg) k m' s.
Proof.
  intros Hp Hc (s1 & a & C1 & L1 & E1) H0. pose proof (pt_comps _ Hp) as HC. exists s1. split_and!.
  - eapply changes_mono; [| |exact C1]; set_solver.
  - econstructor; [|exact L1]. rewrite <- Hc. destruct C1 as [(H & _) _]. apply H. cbn in HC. split; set_solver.
  - apply H0. exists 0. intros n _. apply E1.
Qed.

(** *** Parts and their siblings *)
Lemma inside_child l i t u : l !! i = Some t -> concat (comps <$> l) ⊆ comps u -> concat (vals <$> l) ⊆ vals u -> inside t u.
Proof. intros Hl HC HV. split; intros x Hx; [apply HC|apply HV]; by eapply elem_parts. Qed.
Lemma inside_seq c l i t : l !! i = Some t -> inside t (Seq c l).
Proof. intros Hl. eapply inside_child; [done|cbn; set_solver|done]. Qed.
Lemma inside_par c b l i t : l !! i = Some t -> inside t (Par c b l).
Proof. intros Hl. eapply inside_child; [done|cbn; set_solver|done]. Qed.
Lemma part_away t C V s s' : part t -> comps t ## C -> vals t ## V -> changes C V s s' -> on_tree t s s'.
Proof. intros Hp DC DV H. eapply changes_away; [exact H|apply Hp..|done|done]. Qed.
Lemma sibling l i j t t' s s' : parts l -> l !! i = Some t -> l !! j = Some t' -> i <> j ->
  changes (comps t) (vals t) s s' -> on_tree t' s s'.
Proof.
  intros Hl Hi Hj Hij H. destruct (ps_apart _ Hl j i t' t) as [DC DV]; [done..|]. eapply part_away; [by eapply ps_part|..|exact H]; done.
Qed.
Lemma own_composite t C V c s s' : part t -> c ∈ comps t -> c ∉ C -> changes C V s s' -> composites s' !! c = composites s !! c.
Proof. intros Hp Hc Hn [(H & _) _]. apply H. split; [by apply (pt_comps _ Hp)|done]. Qed.
Lemma composite_away l c f i t s : parts l -> (forall i t, l !! i = Some t -> c ∉ comps t) -> l !! i = Some t ->
  on_tree t s (upd_composites (alter f c) s).
Proof.
  intros Hl Hc Hi. eapply part_away; [by eapply ps_part|..|apply changes_composites]; [|set_solver].
  intros x Hx [->|Hn]%elem_of_cons; [by eapply Hc|set_solver].
Qed.
Lemma composite_in c f V t s : c ∈ comps t -> changes (comps t) V s (upd_composites (alter f c) s).
Proof. intros Hc. eapply changes_mono; [| |apply changes_composites]; set_solver. Qed.
Lemma composite_new f c x (s : st W) : composites s !! c = Some x -> composites (upd_composites (alter f c) s) !! c = Some (f x).
Proof. intros H. cbn. by rewrite list_lookup_alter_eq, H. Qed.

(** *** Sequences *)
Definition starts (t : tree) : Prop := forall s k, part t -> idle s t ->
  if instant t then finishes t k true (fun rec => rec (Start (rid t) k)) s
  else goes t k (fun rec => rec (Start (rid t) k)) s.

Section sequences.
Context (c : nat) (l : list tree) (k : option end_callback).
Hypothesis Hpart : part (Seq c l).

(** The parts up to the [j]-th are over, and the others have not started. *)
Definition seq_at (j : nat) (s : st W) : Prop :=
  composites s !! c = Some (Sequence (rid <$> l) j) /\
  (forall i t, l !! i = Some t -> i < j -> over s t) /\
  (forall i t, l !! i = Some t -> j < i -> idle s t).

Lemma seq_step j t s s1 : seq_at j s -> l !! j = Some t -> changes (comps t) (vals t) s s1 -> seq_at j s1.
Proof.
  destruct (part_seq _ _ Hpart) as [Hl Hc]. intros (Hs & Ho & Hi) Ht C. split_and!.
  - rewrite <- Hs. eapply (own_composite (Seq c l)); [done|left|by eapply Hc|exact C].
  - intros i u Hu Hlt. eapply over_local; [|by eapply Ho]. eapply (sibling l j i); [done|done|done|lia|done].
  - intros i u Hu Hlt. eapply idle_local; [|by eapply Hi]. eapply (sibling l j i); [done|done|done|lia|done].
Qed.
Lemma seq_next_at j t s : seq_at j s -> l !! j = Some t -> over s t ->
  let s1 := upd_composites (alter (set_current (S j)) c) s in
  composites s1 !! c = Some (Sequence (rid <$> l) (S j)) /\
  (forall i t, l !! i = Some t -> i < S j -> over s1 t) /\ (forall i t, l !! i = Some t -> j < i -> idle s1 t).
Proof.
  destruct (part_seq _ _ Hpart) as [Hl Hc]. intros (Hs & Ho & Hi) Ht Hot s1. split_and!.
  - exact (composite_new (set_current (S j)) _ _ _ Hs).
  - intros i u Hu Hlt. eapply over_local; [by eapply composite_away|]. destruct (decide (i = j)) as [->|]; [by simplify_eq|eapply Ho; [done|lia]].
  - intros i u Hu Hlt. eapply idle_local; [by eapply composite_away|eauto].
Qed.
Lemma seq_over s j : composites s !! c = Some (Sequence (rid <$> l) j) -> (forall i t, l !! i = Some t -> over s t) -> length l <= S j ->
  over s (Seq c l).
Proof.
  intros Hs Ho Hj. econstructor; [done|by apply Forall_lookup|]. intros i t Ht Hlt. apply lookup_lt_Some in Ht. lia.
Qed.

(** A part of the sequence was told to stop. *)
Lemma seq_stopped u j s : seq_at j s -> l !! j = Some u -> over s u ->
  then_ends u (Seq c l) (Some (OnComplete c k)) k false s.
Proof.
  intros (Hs & Ho & Hi) Hu Hou. exists s. split_and!; [done| |done|].
  - econstructor; [done| |exact Hi]. apply Forall_lookup. intros i t Ht.
    destruct (lt_eq_lt_dec i j) as [[?| ->]|?]; [by eapply Ho|by simplify_eq|eapply idle_over, Hi; eauto].
  - intros s2 H2 _. by apply does_end.
Qed.

(** [start_current] at [j]. *)
Definition seq_starts (j : nat) : Prop := forall s t, seq_at j s -> l !! j = Some t -> idle s t ->
  if forallb instant (drop j l) then finishes (Seq c l) k true (fun rec => start_current rec c (rid <$> l) j k) s
  else goes (Seq c l) k (fun rec => start_current rec c (rid <$> l) j k) s.

Lemma seq_done j u s : seq_at j s -> l !! j = Some u -> over s u -> (S j < length l -> seq_starts (S j)) ->
  if forallb instant (drop (S j) l) then then_ends u (Seq c l) (Some (OnComplete c k)) k true s
  else then_goes u (Seq c l) (Some (OnComplete c k)) k true s.
Proof.
  intros Hs Hu Hou Hnext. pose proof (seq_next_at j u s Hs Hu Hou) as Hn. cbn zeta in Hn.
  set (s1 := upd_composites (alter (set_current (S j)) c) s) in *. destruct Hn as (H1 & H2 & H3).
  assert (Hrun : forall s2, does (fun rec => if S j =? length (rid <$> l) then end_with rec k true
      else start_current rec c (rid <$> l) (S j) k) s1 tt s2 -> ends (Some (OnComplete c k)) true s s2).
  { intros s2 H. apply does_end. eapply (does_read (fun x rec => _) c _ s); [apply Hs|]. exact H. }
  assert (C1 : changes (comps (Seq c l)) (vals (Seq c l)) s s1) by (apply composite_in; left).
  rewrite length_fmap in Hrun. destruct (decide (S j = length l)) as [El|Hlt].
  - rewrite drop_ge by lia. cbn [forallb]. exists s1. split_and!; [done| |done|].
    + eapply seq_over; [exact H1| |lia]. intros i t Ht. eapply H2; [done|]. apply lookup_lt_Some in Ht. lia.
    + intros s2 Hk _. apply Hrun. by rewrite (proj2 (Nat.eqb_eq _ _) El).
  - assert (S j < length l) by (apply lookup_lt_Some in Hu; lia).
    destruct (lookup_lt_is_Some_2 l (S j)) as [t Ht]; [done|].
    assert (Hat : seq_at (S j) s1) by (split_and!; [done|exact H2|intros i v Hv Hi; eapply H3; [done|lia]]).
    pose proof (Hnext ltac:(done) s1 t Hat Ht (H3 _ _ Ht ltac:(lia))) as Hgo.
    rewrite (proj2 (Nat.eqb_neq _ _) Hlt) in Hrun. destruct (forallb _ _); destruct Hgo as (s2 & C2 & R2 & D2); exists s2.
    + split_and!; [by transitivity s1|done|done|]. intros s3 H3' _. apply Hrun, D2; [done|done].
    + split_and!; [by transitivity s1|done|done|]. by apply Hrun.
Qed.

Lemma seq_start_at : Forall starts l -> forall j, j < length l -> seq_starts j.
Proof.
  intros Hst j. remember (length l - j) as n eqn:En. revert j En. induction n as [|n IH]; intros j En Hj; [lia|].
  intros s t Hat Ht Hidle.
  assert (Hdrop : forallb instant (drop j l) = instant t && forallb instant (drop (S j) l)) by (by erewrite drop_S).
  assert (Hdo : (fun rec => start_current rec c (rid <$> l) j k) = (fun rec : call -> JS (st W) unit => rec (Start (rid t) (Some (OnComplete c k))))).
  { unfold start_current. rewrite list_lookup_fmap, Ht. done. }
  rewrite Hdrop, Hdo. clear Hdrop Hdo. pose proof (Forall_lookup_1 _ _ _ _ Hst Ht s (Some (OnComplete c k))) as H.
  destruct (part_seq _ _ Hpart) as [Hl Hc]. specialize (H (ps_part _ Hl _ _ Ht) Hidle).
  destruct (instant t); cbn [andb].
  - assert (Hnext : forall s1, changes (comps t) (vals t) s s1 -> over s1 t -> if forallb instant (drop (S j) l)
        then then_ends t (Seq c l) (Some (OnComplete c k)) k true s1 else then_goes t (Seq c l) (Some (OnComplete c k)) k true s1).
    { intros s1 C1 O1. apply seq_done; [by eapply seq_step|done|done|]. intros Hlt. apply IH; lia. }
    destruct (forallb _ _); [eapply finishes_then_ends|eapply finishes_then_goes]; try exact H; try exact Hnext; by eapply inside_seq.
  - destruct H as (s1 & C1 & R1 & D1). pose proof (seq_step j t s s1 Hat Ht C1) as (G1 & G2 & G3). exists s1. split_and!.
    + eapply inside_changes; [by eapply inside_seq|done].
    + by eapply run_seq.
    + exact D1.
Qed.
End sequences.

(** *** Loops over the parts *)
Lemma drop_indexed {A} (L : list A) j x : L !! j = Some x -> drop j (imap pair L) = (j, x) :: drop (S j) (imap pair L).
Proof. intros H. apply drop_S. by rewrite list_lookup_imap, H. Qed.
Lemma drop_indexed_end {A} (L : list A) j : length L <= j -> drop j (imap pair L) = [].
Proof. intros H. apply drop_ge. by rewrite length_imap. Qed.
Lemma does_indexed {A} (L : list A) (f : (call -> JS (st W) unit) -> nat * A -> JS (st W) unit) (I : nat -> st W -> Prop) s :
  I 0 s -> (forall j x s, L !! j = Some x -> I j s -> exists s1, I (S j) s1 /\ does (fun rec => f rec (j, x)) s tt s1) ->
  exists s1, I (length L) s1 /\ does (fun rec => for_each (imap pair L) (f rec)) s tt s1.
Proof.
  intros H0 HS.
  assert (H : forall n j s, n = length L - j -> j <= length L -> I j s ->
    exists s1, I (length L) s1 /\ does (fun rec => for_each (drop j (imap pair L)) (f rec)) s tt s1);
    [|destruct (H _ 0 s eq_refl ltac:(lia) H0) as (s1 & H1 & D1); by exists s1].
  clear s H0. induction n as [|n IH]; intros j s En Hj HI.
  - rewrite drop_indexed_end by lia. replace j with (length L) in HI by lia. exists s. split; [done|by apply does_now].
  - destruct (lookup_lt_is_Some_2 L j) as [x Hx]; [lia|]. destruct (HS j x s Hx HI) as (s1 & H1 & D1).
    destruct (IH (S j) s1 ltac:(lia) ltac:(lia) H1) as (s2 & H2 & D2). exists s2. split; [done|].
    rewrite (drop_indexed L j x Hx). cbn [for_each]. by eapply (does_then _ (fun _ => _)).
Qed.

(** *** Reset *)
Definition resets (t : tree) : Prop := forall s, part t -> over s t ->
  exists s1, changes (comps t) (vals t) s s1 /\ idle s1 t /\ does (fun rec => rec (Reset (rid t))) s tt s1.

Lemma resets_seq c l : Forall resets l -> resets (Seq c l).
Proof.
  intros IH s Hp Ho. inversion Ho; subst. rename H1 into Hs, H2 into Hov, H3 into Hid. destruct (part_seq _ _ Hp) as [Hl Hc].
  set (I := fun j s1 => changes (comps (Seq c l)) (vals (Seq c l)) s s1 /\ composites s1 !! c = Some (Sequence (rid <$> l) cur) /\
    (forall i t, l !! i = Some t -> i < j -> idle s1 t) /\ (forall i t, l !! i = Some t -> j <= i -> over s1 t /\ (cur < i -> idle s1 t))).
  set (body := fun (rec : call -> JS (st W) unit) (p : nat * nat) => let! i := current_ c in when (p.1 <=? i) (rec (Reset p.2))).
  assert (Hbody : forall j x s1, (rid <$> l) !! j = Some x -> I j s1 -> exists s2, I (S j) s2 /\ does (fun rec => body rec (j, x)) s1 tt s2).
  { intros j x s1 Hx (C1 & G1 & G2 & G3). apply list_lookup_fmap_Some in Hx as (t & -> & Ht). destruct (G3 j t Ht ltac:(lia)) as [Hot Hit].
    assert (Hcur : current_ c s1 = (Ret cur, s1)) by (unfold current_; by rewrite (bind_of _ _ _ _ _ (read_run _ _ _ _ G1))).
    destruct (decide (j <= cur)) as [Hle|Hgt].
    - destruct (Forall_lookup_1 _ _ _ _ IH Ht s1 (ps_part _ Hl _ _ Ht) Hot) as (s2 & C2 & I2 & D2). exists s2. split; [split_and!|].
      + transitivity s1; [done|]. eapply inside_changes; [by eapply inside_seq|done].
      + rewrite <- G1. eapply (own_composite (Seq c l)); [done|left|by eapply Hc|exact C2].
      + intros i u Hu Hlt. destruct (decide (i = j)) as [->|]; [by simplify_eq|]. eapply idle_local; [|apply (G2 i u Hu); lia].
        eapply (sibling l j i); [done..|lia|done].
      + intros i u Hu Hlt. assert (on_tree u s1 s2) by (eapply (sibling l j i); [done..|lia|done]). destruct (G3 i u Hu ltac:(lia)).
        split; [by eapply over_local|]. intros. eapply idle_local; eauto.
      + eapply (does_skip _ (fun i rec => _)); [exact Hcur|]. cbn [fst snd]. rewrite (proj2 (Nat.leb_le j cur) Hle). exact D2.
    - exists s1. split; [split_and!; [done..| |]|].
      + intros i u Hu Hlt. destruct (decide (i = j)) as [->|]; [simplify_eq; apply Hit; lia|eapply G2; [done|lia]].
      + intros i u Hu Hlt. apply G3; [done|lia].
      + eapply (does_skip _ (fun i rec => _)); [exact Hcur|]. cbn [fst snd]. rewrite (proj2 (Nat.leb_gt j cur)) by lia. by apply does_now. }
  destruct (does_indexed (rid <$> l) body I s) as (s1 & (C1 & G1 & G2 & G3) & D1); [|exact Hbody|].
  { split_and!; [done|done|lia|]. intros i t Ht _. split; [by eapply Forall_lookup_1|by apply Hid]. }
  rewrite length_fmap in G2. exists (upd_composites (alter (set_current 0) c) s1). split_and!.
  - transitivity s1; [done|]. apply composite_in. left.
  - constructor; [exact (composite_new (set_current 0) _ _ _ G1)|]. apply Forall_lookup. intros i t Ht.
    eapply idle_local; [by eapply composite_away|]. eapply G2; [done|by eapply lookup_lt_Some].
  - apply does_call. eapply (does_read (fun x rec => _) c _ s); [exact Hs|]. cbn. by eapply (does_then _ (fun _ _ => _)); [exact D1|apply does_now].
Qed.
Lemma resets_par c b l : Forall resets l -> resets (Par c b l).
Proof.
  intros IH s Hp Ho. inversion Ho; subst. rename H2 into Hs, H3 into He, H4 into Hz, H5 into Hov. destruct (part_par _ _ _ Hp) as [Hl Hc].
  set (I := fun j s1 => changes (comps (Par c b l)) (vals (Par c b l)) s s1 /\
    (exists d, composites s1 !! c = Some (Parallel (Some <$> (rid <$> l)) b d (e ∖ set_seq 0 j)) /\ (l = [] \/ 0 < j -> d = 0)) /\
    (forall i t, l !! i = Some t -> i < j -> idle s1 t) /\ (forall i t, l !! i = Some t -> j <= i -> over s1 t)).
  set (body := fun (rec : call -> JS (st W) unit) (p : nat * option nat) =>
    do! match p.2 with Some x => rec (Reset x) | None => dangling end; upd_composite c (forget_ended p.1)).
  assert (Hbody : forall j x s1, (Some <$> (rid <$> l)) !! j = Some x -> I j s1 -> exists s2, I (S j) s2 /\ does (fun rec => body rec (j, x)) s1 tt s2).
  { intros j x s1 Hx (C1 & (d' & G1 & Gd) & G2 & G3). apply list_lookup_fmap_Some in Hx as (y & -> & Hx). apply list_lookup_fmap_Some in Hx as (t & -> & Ht).
    destruct (Forall_lookup_1 _ _ _ _ IH Ht s1 (ps_part _ Hl _ _ Ht) (G3 j t Ht ltac:(lia))) as (s2 & C2 & I2 & D2).
    assert (G1' : composites s2 !! c = Some (Parallel (Some <$> (rid <$> l)) b d' (e ∖ set_seq 0 j))).
    { rewrite <- G1. eapply (own_composite (Par c b l)); [done|left|by eapply Hc|exact C2]. }
    assert (Hset : e ∖ set_seq 0 j ∖ {[j]} = e ∖ set_seq 0 (S j)) by (apply set_eq; intros z; rewrite !elem_of_difference, !elem_of_set_seq, elem_of_singleton; naive_solver lia).
    exists (upd_composites (alter (forget_ended j) c) s2). split; [split_and!|].
    - transitivity s1; [done|]. transitivity s2; [eapply inside_changes; [by eapply inside_par|done]|]. apply composite_in. left.
    - exists 0. split; [|done]. rewrite (composite_new (forget_ended j) _ _ _ G1'). cbn. by rewrite Hset.
    - intros i u Hu Hlt. eapply idle_local; [by eapply composite_away|]. destruct (decide (i = j)) as [->|]; [by simplify_eq|].
      eapply idle_local; [|apply (G2 i u Hu); lia]. eapply (sibling l j i); [done..|lia|done].
    - intros i u Hu Hlt. eapply over_local; [by eapply composite_away|]. eapply over_local; [|apply (G3 i u Hu); lia].
      eapply (sibling l j i); [done..|lia|done].
    - eapply (does_then _ (fun _ _ => _)); [exact D2|]. by apply does_now. }
  destruct (does_indexed (Some <$> (rid <$> l)) body I s) as (s1 & (C1 & (d' & G1 & Gd) & G2 & G3) & D1); [|exact Hbody|].
  { split_and!; [done|exists d; split; [|intros [?|?]; [auto|lia]]|lia|].
    - rewrite Hs. do 2 f_equal. apply set_eq. intros z. rewrite elem_of_difference, elem_of_set_seq. naive_solver lia.
    - intros i t Ht _. by eapply Forall_lookup_1. }
  rewrite !length_fmap in G1, Gd, G2. exists s1. split_and!; [done| |].
  - assert (e ∖ set_seq 0 (length l) = ∅) as Ee by set_solver. rewrite Ee in G1.
    assert (d' = 0) as -> by (apply Gd; destruct l; [by left|right; cbn; lia]).
    constructor; [done|]. apply Forall_lookup. intros i t Ht. eapply G2; [done|by eapply lookup_lt_Some].
  - apply does_call. eapply (does_read (fun x rec => _) c _ s); [exact Hs|]. exact D1.
Qed.

Lemma resets_all t : resets t.
Proof.
  induction t as [c v cfg|c l IH|c b l IH|c n t IH] using tree_ind'; [|by apply resets_seq|by apply resets_par|];
    intros s Hp Ho; inversion Ho; subst.
  - destruct (quiet_reset s v) as (s1 & C1 & Q1 & E1); [done|].
    pose proof (own_composite _ [] [v] c _ _ Hp ltac:(left) (not_elem_of_nil c) C1) as Ec. exists s1. split_and!.
    + eapply changes_mono; [| |exact C1]; set_solver.
    + constructor; [congruence|done].
    + apply does_call. eapply (does_read (fun x rec => _) c _ s); [done|]. exists 0. intros n' _. apply E1.
  - destruct (part_loop _ _ _ Hp) as (Hpt & Hc & _). set (s1 := upd_composites (alter restart_count c) s).
    assert (O1 : over s1 t) by (eapply over_local; [|done]; eapply part_away; [done|..|apply changes_composites]; set_solver).
    destruct (IH s1 Hpt O1) as (s2 & C2 & I2 & D2). exists s2. split_and!.
    + transitivity s1; [apply composite_in; left|]. eapply changes_mono; [| |exact C2]; set_solver.
    + constructor; [|done]. rewrite (own_composite _ _ _ c _ _ Hp ltac:(left) Hc C2). exact (composite_new restart_count _ _ _ H1).
    + apply does_call. eapply (does_read (fun x rec => _) c _ s); [done|]. by eapply (does_skip _ (fun _ rec => _)).
Qed.

(** *** Loops *)
Lemma native_over s t : over s t -> native t = false -> forall n, isUsingNativeDriver n s (rid t) = false.
Proof.
  induction t as [c v cfg|c l IH|c b l IH|c n t IH] using tree_ind'; intros Ho Hn [|m]; try done; cbn; inversion Ho; subst;
    rewrite ?H1, ?H2, ?H3; auto.
Qed.
Lemma loop_again c n t k : starts t -> part (Lp c n t) ->
  forall i s, composites s !! c = Some (Loop (rid t) n true false i) -> ((0 <= n)%Z -> (i <= n)%Z) -> over s t ->
  if (i =? n)%Z || instant t then then_ends t (Lp c n t) (Some (Restart c k)) k true s
  else then_goes t (Lp c n t) (Some (Restart c k)) k true s.
Proof.
  intros Hst Hp. destruct (part_loop _ _ _ Hp) as (Hpt & Hc & _ & Hn).
  intros i. remember (Z.to_nat (n - i)) as m eqn:Em. revert i Em.
  induction m as [m IH] using lt_wf_ind. intros i Em s Hs Hi Ho. destruct (i =? n)%Z eqn:Ein.
  - cbn [orb]. exists s. split_and!; [done|by econstructor|done|]. intros s2 H2 _. apply does_end.
    eapply (does_read (fun x rec => _) c _ s); [exact Hs|]. cbn. rewrite Ein. exact H2.
  - cbn [orb]. apply Z.eqb_neq in Ein as Hne. set (s1 := upd_composites (alter count_iteration c) s).
    assert (O1 : over s1 t) by (eapply over_local; [|done]; eapply part_away; [done|..|apply changes_composites]; set_solver).
    destruct (resets_all t s1 Hpt O1) as (s2 & C2 & I2 & D2). pose proof (Hst s2 (Some (Restart c k)) Hpt I2) as Hgo.
    assert (G2 : composites s2 !! c = Some (Loop (rid t) n true false (i + 1))).
    { rewrite (own_composite _ _ _ c _ _ Hp ltac:(left) Hc C2). exact (composite_new count_iteration _ _ _ Hs). }
    assert (HinC : forall u u', changes (comps t) (vals t) u u' -> changes (comps (Lp c n t)) (vals (Lp c n t)) u u').
    { intros u u'. apply changes_mono; set_solver. }
    assert (C02 : changes (comps (Lp c n t)) (vals (Lp c n t)) s s2).
    { transitivity s1; [apply composite_in; left|by apply HinC]. }
    assert (Hrun : forall s3, does (fun rec => rec (Start (rid t) (Some (Restart c k)))) s2 tt s3 -> ends (Some (Restart c k)) true s s3).
    { intros s3 H3. apply does_end. eapply (does_read (fun x rec => _) c _ s); [exact Hs|]. cbn. rewrite Ein. cbn [orb negb].
      eapply (does_skip _ (fun _ rec => _)); [done|]. by eapply (does_then _ (fun _ rec => _)). }
    destruct (instant t).
    + destruct Hgo as (s3 & C3 & O3 & H3).
      assert (G3 : composites s3 !! c = Some (Loop (rid t) n true false (i + 1))).
      { rewrite <- G2. by apply (own_composite _ _ _ c _ _ Hp ltac:(left) Hc C3). }
      destruct Hn as [Hn|Hn]; [|done].
      pose proof (IH (Z.to_nat (n - (i + 1))) ltac:(lia) (i + 1)%Z eq_refl s3 G3 ltac:(lia) O3) as Hend. rewrite orb_true_r in Hend.
      destruct Hend as (s4 & C4 & O4 & _ & H4). exists s4. split_and!; [|done|done|].
      * transitivity s2; [done|]. transitivity s3; [by apply HinC|done].
      * intros s5 H5 _. apply Hrun, H3; [|done]. by apply H4.
    + destruct Hgo as (s3 & C3 & R3 & D3). exists s3. split_and!; [by transitivity s2; [|apply HinC]| |done|by apply Hrun].
      apply (run_loop _ _ _ _ _ (i + 1)%Z); [rewrite <- G2; by apply (own_composite _ _ _ c _ _ Hp ltac:(left) Hc C3)|lia|exact R3].
Qed.
Lemma starts_loop c n t : starts t -> starts (Lp c n t).
Proof.
  intros Hst s k Hp Hid. inversion Hid; subst. destruct (part_loop _ _ _ Hp) as (Hpt & Hc & Hnat & Hn). cbn [instant rid].
  destruct (n =? 0)%Z eqn:En.
  - cbn [orb]. eapply (finishes_from _ _ _ _ _ s s); [done| |apply finishes_now; by apply idle_over].
    intros s2 H. eapply does_start; [done|]. cbn. by rewrite En.
  - cbn [orb]. assert (Hrun : forall s2, ends (Some (Restart c k)) true s s2 -> does (fun rec => rec (Start c k)) s tt s2).
    { intros s2 H. eapply does_start; [done|]. cbn. rewrite En. eapply (does_skip _ (fun b rec => _)); [reflexivity|].
      rewrite native_over by (done || by apply idle_over). exact H. }
    pose proof (loop_again c n t k Hst Hp 0%Z s ltac:(eassumption) ltac:(lia) ltac:(by apply idle_over)) as Hgo.
    rewrite Z.eqb_sym, En in Hgo. cbn [orb] in Hgo. destruct (instant t); destruct Hgo as (s1 & C1 & O1 & _ & E1); exists s1; split_and!; auto.
Qed.
Lemma starts_leaf c v cfg : starts (Leaf c v cfg).
Proof.
  intros s k Hp Hid. inversion Hid; subst. pose proof (animate_leaf s v cfg (combineCallbacks k cfg)) as H.
  specialize (H ltac:(by apply (pt_vals _ Hp); left) ltac:(done)). cbn [instant rid].
  assert (Hrun : forall s2, does (fun rec => animate listener rec v cfg (combineCallbacks k cfg)) s tt s2 -> does (fun rec => rec (Start c k)) s tt s2).
  { intros s2 Hd. eapply does_start; [done|]. exact Hd. }
  destruct (_ && _); [by eapply leaf_finishes|by eapply leaf_goes_on].
Qed.
Lemma starts_seq c l : Forall starts l -> starts (Seq c l).
Proof.
  intros Hst s k Hp Hid. inversion Hid; subst. cbn [instant rid]. destruct l as [|t l].
  - cbn [forallb]. eapply (finishes_from _ _ _ _ _ s s); [done| |apply finishes_now; by apply idle_over].
    intros s2 H. eapply does_start; [done|]. exact H.
  - rewrite Forall_lookup in H2. assert (H : seq_starts c (t :: l) k 0) by (apply seq_start_at; [done..|cbn; lia]).
    specialize (H s t). destruct (forallb instant (t :: l)) eqn:E; rewrite drop_0, E in H.
    + eapply (finishes_from _ _ _ _ _ s s); [done| |apply H]; [|split_and!|done|by apply (H2 0)]; [|done|lia|intros; by eapply H2].
      intros s2 Hd. eapply does_start; [done|]. exact Hd.
    + eapply (goes_from _ _ _ _ s s); [done| |apply H]; [|split_and!|done|by apply (H2 0)]; [|done|lia|intros; by eapply H2].
      intros s2 Hd. eapply does_start; [done|]. exact Hd.
Qed.

(** *** Parallels *)
Lemma size_below (e : gset nat) j : e ⊆ set_seq 0 j -> size e <= j.
Proof.
  intros H%subseteq_size. by rewrite size_set_seq in H.
Qed.
Lemma size_full (e : gset nat) j : e ⊆ set_seq 0 j -> size e = j -> e = set_seq 0 j.
Proof. intros H E. apply leibniz_equiv. apply set_subseteq_size_equiv; [done|]. by rewrite size_set_seq, E. Qed.
Lemma size_add (e : gset nat) i : i ∉ e -> size ({[i]} ∪ e) = S (size e).
Proof. intros H. rewrite size_union, size_singleton by set_solver. lia. Qed.

Section parallels.
Context (c : nat) (b : bool) (l : list tree) (k : option end_callback).
Hypothesis Hpart : part (Par c b l).
Abbreviation ids := (Some <$> (rid <$> l)).
Abbreviation me := (Par c b l).

Lemma ends_last i e fin s s2 : composites s !! c = Some (Parallel ids b (size e) e) -> S (size e) = length l ->
  ends k fin (upd_composites (alter (count_done 0 i) c) s) s2 -> ends (Some (ParallelDone c i k)) fin s s2.
Proof.
  intros Hs Hn H. apply does_end. eapply (does_read (fun x rec => _) c _ s); [exact Hs|]. cbn -[Nat.eqb].
  rewrite !length_fmap, (proj2 (Nat.eqb_eq _ _) Hn). by eapply (does_skip _ (fun _ rec => _)).
Qed.
Lemma ends_counted i e fin s s2 : composites s !! c = Some (Parallel ids b (size e) e) -> S (size e) <> length l ->
  does (fun rec => when (negb fin && b) (rec (Stop c))) (upd_composites (alter (count_done (S (size e)) i) c) s) tt s2 ->
  ends (Some (ParallelDone c i k)) fin s s2.
Proof.
  intros Hs Hn H. apply does_end. eapply (does_read (fun x rec => _) c _ s); [exact Hs|]. cbn -[Nat.eqb].
  rewrite !length_fmap, (proj2 (Nat.eqb_neq _ _) Hn). by eapply (does_skip _ (fun _ rec => _)).
Qed.

(** The parts below [j] have been started; those of [e] are over. *)
Definition par_at (j : nat) (e : gset nat) (s : st W) : Prop :=
  composites s !! c = Some (Parallel ids b (size e) e) /\ e ⊆ set_seq 0 j /\
  (forall i t, l !! i = Some t -> i < j -> (i ∈ e /\ over s t) \/ (i ∉ e /\ running s (Some (ParallelDone c i k)) t)) /\
  (forall i t, l !! i = Some t -> j <= i -> idle s t).
(** The state once part [i], which was running or about to start, has changed. *)
Definition par_but (i j : nat) (e : gset nat) (s : st W) : Prop :=
  composites s !! c = Some (Parallel ids b (size e) e) /\ e ⊆ set_seq 0 j /\
  (forall i' t, l !! i' = Some t -> i' <> i -> i' < j ->
     (i' ∈ e /\ over s t) \/ (i' ∉ e /\ running s (Some (ParallelDone c i' k)) t)) /\
  (forall i' t, l !! i' = Some t -> i' <> i -> j <= i' -> idle s t).
Lemma par_step i j e t s s1 : par_at j e s -> l !! i = Some t -> changes (comps t) (vals t) s s1 -> par_but i j e s1.
Proof.
  destruct (part_par _ _ _ Hpart) as [Hl Hc]. intros (Hs & He & Hr & Hi) Ht C. split_and!; [|done|..].
  - rewrite <- Hs. eapply (own_composite me); [done|left|by eapply Hc|exact C].
  - intros i' u Hu Hne Hlt. assert (on_tree u s s1) by (eapply (sibling l i i'); [done..|congruence|done]).
    destruct (Hr i' u Hu Hlt) as [[? ?]|[? ?]]; [left|right]; (split; [done|]); [by eapply over_local|by eapply running_local].
  - intros i' u Hu Hne Hlt. assert (on_tree u s s1) by (eapply (sibling l i i'); [done..|congruence|done]). eapply idle_local; eauto.
Qed.
Lemma par_count i j j' e t s f : par_but i j e s -> l !! i = Some t -> over s t -> i ∉ e ->
  (forall i', i' < j' <-> i' = i \/ i' < j) ->
  f (Parallel ids b (size e) e) = Parallel ids b (S (size e)) ({[i]} ∪ e) ->
  par_at j' ({[i]} ∪ e) (upd_composites (alter f c) s).
Proof.
  destruct (part_par _ _ _ Hpart) as [Hl Hc]. intros (Hs & He & Hr & Hi) Ht Ho Hn Hj Hf. split_and!.
  - rewrite size_add by done. rewrite (composite_new f _ _ _ Hs), Hf. done.
  - intros z. rewrite elem_of_union, elem_of_singleton. intros Hz. apply elem_of_set_seq. split; [lia|]. apply Hj.
    destruct Hz as [->|Hz]; [by left|right]. apply He, elem_of_set_seq in Hz. lia.
  - intros i' u Hu Hlt. assert (on_tree u s (upd_composites (alter f c) s)) by by eapply composite_away.
    destruct (decide (i' = i)) as [->|Hne]; [left; simplify_eq; split; [set_solver|by eapply over_local]|].
    apply Hj in Hlt as [?|Hlt]; [done|]. destruct (Hr i' u Hu Hne Hlt) as [[? ?]|[? ?]]; [left|right].
    + split; [set_solver|by eapply over_local].
    + split; [set_solver|by eapply running_local].
  - intros i' u Hu Hlt. assert (on_tree u s (upd_composites (alter f c) s)) by by eapply composite_away.
    eapply idle_local; [done|]. destruct (decide (i' = i)) as [->|Hne]; [exfalso; destruct (proj2 (Hj i)); [by left|lia..]|].
    eapply Hi; [done|done|]. destruct (decide (j <= i')); [done|]. exfalso. destruct (proj2 (Hj i')); [right; lia|lia..].
Qed.
Lemma par_running e s : par_at (length l) e s -> size e < length l -> running s k me.
Proof.
  intros (Hs & He & Hr & Hi) Hsz. econstructor; [exact Hs|done|done|].
  intros i t Ht. apply Hr; [done|]. by eapply lookup_lt_Some.
Qed.

Lemma ids_at j t : l !! j = Some t -> ids !! j = Some (Some (rid t)).
Proof. intros H. by rewrite !list_lookup_fmap, H. Qed.
Lemma me_composite s f : changes (comps me) (vals me) s (upd_composites (alter f c) s).
Proof. apply composite_in. left. Qed.
Lemma child_changes j t s s' : l !! j = Some t -> changes (comps t) (vals t) s s' -> changes (comps me) (vals me) s s'.
Proof. intros H. apply inside_changes. by eapply inside_par. Qed.

(** When the last part ends, the parallel is over. *)
Lemma par_last i j e t s : par_but i j e s -> j <= length l -> l !! i = Some t -> over s t -> i ∉ e ->
  S (size e) = length l ->
  let s1 := upd_composites (alter (count_done 0 i) c) s in
  over s1 me /\ composites s1 !! c = Some (Parallel ids b 0 (set_seq 0 (length l))) /\ forall i t, l !! i = Some t -> on_tree t s s1.
Proof.
  destruct (part_par _ _ _ Hpart) as [Hl Hc]. intros (Hs & He & Hr & Hi) Hj Ht Ho Hn Hsz s1.
  assert (Hon : forall i u, l !! i = Some u -> on_tree u s s1) by (intros; by eapply composite_away).
  assert (Hilt : i < length l) by by eapply lookup_lt_Some.
  assert (Hfull : forall i', i' < length l -> i' <> i -> i' ∈ e).
  { intros i' Hlt Hne. apply dec_stable. intros Hni.
    assert (size ({[i']} ∪ ({[i]} ∪ e)) <= length l); [|rewrite !size_add in * by set_solver; lia].
    apply size_below. intros z. rewrite !elem_of_union, !elem_of_singleton. intros [->|[->|Hz]]; apply elem_of_set_seq; [lia|lia|].
    apply He, elem_of_set_seq in Hz. lia. }
  assert (Hset : {[i]} ∪ e = set_seq 0 (length l)).
  { apply set_eq. intros z. rewrite elem_of_union, elem_of_singleton, elem_of_set_seq. split.
    - intros [->|Hz]; [lia|]. apply He, elem_of_set_seq in Hz. lia.
    - intros [_ Hz]. destruct (decide (z = i)); [by left|right]. by apply Hfull. }
  assert (Hc1 : composites s1 !! c = Some (Parallel ids b 0 (set_seq 0 (length l)))).
  { unfold s1. rewrite (composite_new (count_done 0 i) _ _ _ Hs). cbn. by rewrite Hset. }
  split_and!; [|done|done]. econstructor; [exact Hc1|done|done|]. apply Forall_lookup. intros i' u Hu.
  eapply over_local; [by eapply Hon|]. destruct (decide (i' = i)) as [->|Hne]; [by simplify_eq|].
  assert (He' : i' ∈ e) by (apply Hfull; [by eapply lookup_lt_Some|done]). pose proof (He _ He') as Hlt. apply elem_of_set_seq in Hlt.
  by destruct (Hr i' u Hu Hne ltac:(lia)) as [[_ ?]|[? _]].
Qed.

Lemma par_start_from : Forall starts l -> forall n j e s, n = length l - j -> j <= length l -> par_at j e s -> size e < length l ->
  if bool_decide (size e = j) && forallb instant (drop j l)
  then finishes me k true (fun rec => for_each (drop j (imap pair ids)) (start_child rec c k)) s
  else goes me k (fun rec => for_each (drop j (imap pair ids)) (start_child rec c k)) s.
Proof.
  intros Hst. destruct (part_par _ _ _ Hpart) as [Hl Hc]. induction n as [|n IH]; intros j e s En Hj Hat Hsz.
  { assert (j = length l) as -> by lia. rewrite bool_decide_false by lia. exists s. split_and!; [done|by eapply par_running|].
    rewrite drop_indexed_end by by rewrite !length_fmap. by apply does_now. }
  destruct (lookup_lt_is_Some_2 l j) as [t Ht]; [lia|].
  rewrite (drop_indexed ids j _ (ids_at j t Ht)), (drop_S l t j Ht). cbn [for_each forallb].
  assert (Hid : idle s t) by (destruct Hat as (_ & _ & _ & Hi); eapply Hi; [exact Ht|lia]).
  assert (Hej : size e <= j) by (apply size_below, Hat).
  pose proof (Forall_lookup_1 _ _ _ _ Hst Ht s (Some (ParallelDone c j k)) (ps_part _ Hl _ _ Ht) Hid) as Hgo.
  assert (Hnj : j ∉ e) by (intros Hin; destruct Hat as (_ & He & _); apply He, elem_of_set_seq in Hin; lia).
  destruct (instant t); cbn [andb].
  - destruct (decide (S (size e) = length l)) as [Elast|Hmore].
    + rewrite bool_decide_true by lia. rewrite drop_ge by lia. cbn [andb forallb].
      rewrite drop_indexed_end by (rewrite !length_fmap; lia). cbn [for_each].
      eapply (finishes_from _ _ _ _ _ s s); [done| |eapply (finishes_then_ends t); [by eapply inside_par|exact Hgo|]].
      * intros s2 D. eapply (does_then _ (fun _ _ => ret tt)); [exact D|by apply does_now].
      * intros s1 C1 O1. pose proof (par_step j j e t s s1 Hat Ht C1) as Hb.
        destruct (par_last j j e t s1 Hb Hj Ht O1 Hnj Elast) as (O2 & _ & Hon). eexists. split_and!; [apply me_composite|exact O2|intros _; by eapply Hon|].
        intros s2 H2 _. by eapply ends_last; [apply Hb|..].
    + destruct Hgo as (s1 & C1 & O1 & H1). pose proof (par_step j j e t s s1 Hat Ht C1) as Hb.
      assert (Hat2 : par_at (S j) ({[j]} ∪ e) (upd_composites (alter (count_done (S (size e)) j) c) s1)).
      { eapply par_count; [exact Hb|done|done|done|lia|done]. }
      set (s2 := upd_composites _ _) in *. specialize (IH (S j) _ s2 ltac:(lia) ltac:(lia) Hat2). rewrite size_add in IH by done.
      specialize (IH ltac:(lia)). rewrite (bool_decide_ext (S (size e) = S j) (size e = j)) in IH by lia.
      assert (C2 : changes (comps me) (vals me) s s2) by (transitivity s1; [by eapply child_changes|apply me_composite]).
      assert (D1 : does (fun rec => start_child rec c k (j, Some (rid t))) s tt s2).
      { apply H1; [|done]. eapply ends_counted; [apply Hb|done|]. by apply does_now. }
      destruct (_ && _); [eapply finishes_from|eapply goes_from]; [exact C2| |exact IH|exact C2| |exact IH];
        intros s3 D3; by eapply (does_then _ (fun _ rec => _)).
  - rewrite andb_false_r. destruct Hgo as (s1 & C1 & R1 & D1). pose proof (par_step j j e t s s1 Hat Ht C1) as (G1 & G2 & G3 & G4).
    assert (Hat2 : par_at (S j) e s1).
    { split_and!; [done|intros z Hz; apply G2, elem_of_set_seq in Hz; apply elem_of_set_seq; lia|..].
      - intros i u Hu Hlt. destruct (decide (i = j)) as [->|Hne]; [right; by simplify_eq|]. apply G3; [done|done|lia].
      - intros i u Hu Hlt. apply (G4 i u Hu); lia. }
    specialize (IH (S j) e s1 ltac:(lia) ltac:(lia) Hat2 Hsz). rewrite bool_decide_false in IH by lia. cbn [andb] in IH.
    eapply goes_from; [by eapply child_changes| |exact IH]. intros s3 D3. by eapply (does_then _ (fun _ rec => _)).
Qed.
End parallels.

Lemma starts_par c b l : Forall starts l -> starts (Par c b l).
Proof.
  intros Hst s k Hp Hid. inversion Hid; subst. rename H1 into Hs, H3 into Hall. cbn [instant rid].
  assert (Hrun : forall s2, does (fun rec => if 0 =? length l then end_with rec k true
      else for_each (imap pair (Some <$> (rid <$> l))) (start_child rec c k)) s tt s2 -> does (fun rec => rec (Start c k)) s tt s2).
  { intros s2 H. eapply does_start; [exact Hs|]. cbn -[Nat.eqb]. by rewrite !length_fmap. }
  destruct (decide (length l = 0)) as [E|Hne].
  - apply nil_length_inv in E as ->. eapply (finishes_from _ _ _ _ _ s s); [done|exact Hrun|]. apply finishes_now. by apply idle_over.
  - assert (Hat : par_at c b l k 0 ∅ s).
    { split_and!; [by rewrite size_empty|done|lia|]. intros i t Ht _. by eapply Forall_lookup_1. }
    pose proof (par_start_from c b l k Hp Hst _ 0 ∅ s eq_refl ltac:(lia) Hat) as H. rewrite size_empty in H.
    specialize (H ltac:(lia)). rewrite bool_decide_true in H by done. rewrite !drop_0 in H. cbn [andb] in H.
    assert ((0 =? length l) = false) as E0 by (apply Nat.eqb_neq; lia). rewrite E0 in Hrun.
    destruct (forallb instant l); [by eapply (finishes_from _ _ _ _ _ s s)|by eapply (goes_from _ _ _ _ s s)].
Qed.
Lemma starts_all t : starts t.
Proof. induction t using tree_ind'; [apply starts_leaf|by apply starts_seq|by apply starts_par|by apply starts_loop]. Qed.

(** *** Stop *)
Definition stays_over (t : tree) : Prop := forall s, part t -> over s t ->
  exists s1, changes (comps t) (vals t) s s1 /\ over s1 t /\ does (fun rec => rec (Stop (rid t))) s tt s1.
Lemma does_stop c x s s2 : composites s !! c = Some x ->
  does (fun rec => match x with
    | Timing v _ => stopAnimation rec v
    | Sequence l current => match l !! current with Some x => rec (Stop x) | None => ret tt end
    | Parallel l _ _ _ => for_each (imap pair l) (stop_child rec c)
    | Loop x _ _ _ _ => do! upd_composite c set_finished; rec (Stop x)
    end) s tt s2 -> does (fun rec => rec (Stop c)) s tt s2.
Proof. intros H1 H2. apply does_call. eapply (does_read (fun x rec => _) c x); [done|exact H2]. Qed.
Lemma stays_over_par c b l : Forall stays_over l -> stays_over (Par c b l).
Proof.
  intros IH s Hp Ho. inversion Ho; subst. rename H2 into Hs, H3 into He, H4 into Hz, H5 into Hov. destruct (part_par _ _ _ Hp) as [Hl Hc].
  set (I := fun (j : nat) s1 => changes (comps (Par c b l)) (vals (Par c b l)) s s1 /\
    (exists e', composites s1 !! c = Some (Parallel (Some <$> (rid <$> l)) b d e') /\ e' ⊆ set_seq 0 (length l)) /\
    (forall i t, l !! i = Some t -> over s1 t)).
  assert (Hbody : forall j x s1, (Some <$> (rid <$> l)) !! j = Some x -> I j s1 -> exists s2, I (S j) s2 /\ does (fun rec => stop_child rec c (j, x)) s1 tt s2).
  { intros j x s1 Hx (C1 & (e' & G1 & Ge) & G2). apply list_lookup_fmap_Some in Hx as (y & -> & Hx). apply list_lookup_fmap_Some in Hx as (t & -> & Ht).
    assert (Hlt : j < length l) by by eapply lookup_lt_Some.
    assert (Hread : hasEnded_ c s1 = (Ret e', s1)) by (unfold hasEnded_; by rewrite (bind_of _ _ _ _ _ (read_run _ _ _ _ G1))).
    assert (exists s2, changes (comps t) (vals t) s1 s2 /\ over s2 t /\
      does (fun rec => when (bool_decide (j ∉ e')) (rec (Stop (rid t)))) s1 tt s2) as (s2 & C2 & O2 & D2).
    { case_bool_decide; cbn [when]; [|exists s1; split_and!; [done|by eapply G2|by apply does_now]].
      eapply (Forall_lookup_1 _ _ _ _ IH Ht); [by eapply ps_part|by eapply G2]. }
    assert (G1' : composites s2 !! c = Some (Parallel (Some <$> (rid <$> l)) b d e')).
    { rewrite <- G1. eapply (own_composite (Par c b l)); [done|left|by eapply Hc|exact C2]. }
    exists (upd_composites (alter (mark_ended j) c) s2). split; [split_and!|].
    - transitivity s1; [done|]. transitivity s2; [eapply inside_changes; [by eapply inside_par|done]|]. apply composite_in. left.
    - exists ({[j]} ∪ e'). split; [by rewrite (composite_new (mark_ended j) _ _ _ G1')|]. intros z. rewrite elem_of_union, elem_of_singleton.
      intros [->|?]; [apply elem_of_set_seq; lia|by apply Ge].
    - intros i u Hu. eapply over_local; [by eapply composite_away|]. destruct (decide (i = j)) as [->|]; [by simplify_eq|].
      eapply over_local; [|by eapply G2]. eapply (sibling l j i); [done..|congruence|done].
    - eapply (does_skip _ (fun e rec => _)); [exact Hread|]. cbn [fst snd]. eapply (does_then _ (fun _ _ => _)); [exact D2|]. by apply does_now. }
  destruct (does_indexed (Some <$> (rid <$> l)) (fun rec => stop_child rec c) I s) as (s1 & (C1 & (e' & G1 & Ge) & G2) & D1); [|exact Hbody|].
  { split_and!; [done|by exists e|]. intros i t Ht. by eapply Forall_lookup_1. }
  exists s1. split_and!; [done| |by eapply does_stop].
  econstructor; [exact G1|done|done|]. by apply Forall_lookup.
Qed.
Lemma stays_over_all t : stays_over t.
Proof.
  induction t as [c v cfg|c l IH|c b l IH|c n t IH] using tree_ind'; [| |by apply stays_over_par|]; intros s Hp Ho; inversion Ho; subst.
  - exists s. split_and!; [done|done|]. eapply does_stop; [done|]. exists 0. intros n _. by apply quiet_stop.
  - rename H1 into Hs, H2 into Hov, H3 into Hid. destruct (part_seq _ _ Hp) as [Hl Hc]. destruct (l !! cur) as [t|] eqn:Ht.
    + destruct (Forall_lookup_1 _ _ _ _ IH Ht s (ps_part _ Hl _ _ Ht)) as (s1 & C1 & O1 & D1); [by eapply Forall_lookup_1|].
      exists s1. split_and!; [eapply inside_changes; [by eapply inside_seq|done]| |].
      * econstructor; [|apply Forall_lookup; intros i u Hu|intros i u Hu Hlt].
        -- rewrite <- Hs. eapply (own_composite (Seq c l)); [done|left|by eapply Hc|exact C1].
        -- destruct (decide (i = cur)) as [->|]; [by simplify_eq|]. eapply over_local; [|by eapply Forall_lookup_1].
           eapply (sibling l cur i); [done..|congruence|done].
        -- eapply idle_local; [|by eapply Hid]. eapply (sibling l cur i); [done..|lia|done].
      * eapply does_stop; [exact Hs|]. cbn. rewrite list_lookup_fmap, Ht. exact D1.
    + exists s. split_and!; [done|done|]. eapply does_stop; [exact Hs|]. cbn. rewrite list_lookup_fmap, Ht. by apply does_now.
  - destruct (part_loop _ _ _ Hp) as (Hpt & Hc & _). set (s1 := upd_composites (alter set_finished c) s).
    assert (O1 : over s1 t) by (eapply over_local; [|done]; eapply part_away; [done|..|apply changes_composites]; set_solver).
    destruct (IH s1 Hpt O1) as (s2 & C2 & O2 & D2). exists s2. split_and!.
    + transitivity s1; [apply composite_in; left|]. eapply changes_mono; [| |exact C2]; set_solver.
    + econstructor; [|done]. rewrite (own_composite _ _ _ c _ _ Hp ltac:(left) Hc C2). exact (composite_new set_finished _ _ _ H1).
    + eapply does_stop; [done|]. cbn. by eapply (does_skip _ (fun _ rec => _)).
Qed.

Definition stops (t : tree) : Prop := forall s k, part t -> running s k t -> finishes t k false (fun rec => rec (Stop (rid t))) s.

Lemma stops_leaf c v cfg : stops (Leaf c v cfg).
Proof.
  intros s k Hp Hr. inversion Hr; subst. destruct (held_stop s v cfg _ a H4) as (s1 & C1 & Q1 & E1).
  destruct (combined_ends k cfg false s1 c v (pt_tags _ Hp)) as (s2 & C2 & E2).
  assert (Hv : v ∈ vals R) by (apply (pt_vals _ Hp); left).
  assert (Q2 : quiet s2 v) by (eapply quiet_kept; [|exact Q1]; eapply kept_changes; [exact C2|done|set_solver]).
  assert (Cv : changes [] [v] s s2) by (transitivity s1; [done|eapply changes_mono; [| |exact C2]; set_solver]).
  exists s2. split_and!.
  - eapply changes_mono; [| |exact Cv]; set_solver.
  - constructor; [|done]. rewrite (own_composite _ [] [v] c _ _ Hp ltac:(left) (not_elem_of_nil c) Cv). done.
  - intros s3 H3 L3. specialize (L3 eq_refl). apply on_leaf in L3 as [_ L3]. pose proof (quiet_local _ _ _ L3 Q2) as [(x & Hx & Hn) _].
    eapply does_stop; [done|]. cbn.
    apply (does_eq _ (fun rec => bind (end_with rec (combineCallbacks k cfg) false) (fun _ => on_value v (set_animation None))) s s1); [exact E1|].
    eapply (does_then _ (fun _ _ => _)); [by apply E2|].
    apply does_now. unfold on_value, modify. by erewrite no_animation.
Qed.
Lemma stops_seq c l : Forall stops l -> stops (Seq c l).
Proof.
  intros IH s k Hp Hr. inversion Hr; subst. destruct (part_seq _ _ Hp) as [Hl Hc].
  assert (Hat : seq_at c l cur s) by by split_and!.
  eapply (finishes_from _ _ _ _ (fun rec => rec (Stop (rid t))) s s); [done| |].
  - intros s2 H. eapply does_stop; [done|]. cbn. by rewrite list_lookup_fmap, H2.
  - eapply (finishes_then_ends t); [by eapply inside_seq|apply (Forall_lookup_1 _ _ _ _ IH H2); [by eapply ps_part|done]|].
    intros s1 C1 O1. eapply seq_stopped; [by eapply seq_step|done|done].
Qed.
Lemma stops_loop c n t : stops t -> stops (Lp c n t).
Proof.
  intros IH s k Hp Hr. inversion Hr; subst. destruct (part_loop _ _ _ Hp) as (Hpt & Hc & _).
  set (s1 := upd_composites (alter set_finished c) s).
  assert (R1 : running s1 (Some (Restart c k)) t) by (eapply running_local; [|done]; eapply part_away; [done|..|apply changes_composites]; set_solver).
  eapply (finishes_from _ _ _ _ (fun rec => rec (Stop (rid t))) s s1); [apply composite_in; left| |].
  - intros s2 H. eapply does_stop; [done|]. cbn. by eapply (does_skip _ (fun _ rec => _)).
  - eapply (finishes_then_ends t); [split; set_solver|by apply IH|]. intros s2 C2 O2.
    assert (G2 : composites s2 !! c = Some (Loop (rid t) n true true i)).
    { rewrite (own_composite _ _ _ c _ _ Hp ltac:(left) Hc C2). exact (composite_new set_finished _ _ _ H3). }
    exists s2. split_and!; [done|by econstructor|done|]. intros s3 E3 _. apply does_end.
    eapply (does_read (fun x rec => _) c _ s2); [exact G2|]. exact E3.
Qed.

Section parallel_stop.
Context (c : nat) (b : bool) (l : list tree) (k : option end_callback).
Hypothesis Hpart : part (Par c b l).
Hypothesis Hstops : Forall stops l.
Abbreviation ids := (Some <$> (rid <$> l)).
Abbreviation me := (Par c b l).
Abbreviation all := (set_seq (C:=gset nat) 0 (length l)).

(** Marking a part that has ended changes nothing. *)
Lemma mark_again (s : st W) d e j : composites s !! c = Some (Parallel ids b d e) -> j ∈ e -> upd_composites (alter (mark_ended j) c) s = s.
Proof.
  intros Hs Hj. unfold upd_composites. assert (alter (mark_ended j) c (composites s) = composites s) as ->; [|by destruct s].
  apply list_eq. intros i. destruct (decide (c = i)) as [<-|Hne]; [|by apply list_lookup_alter_ne].
  rewrite list_lookup_alter_eq, Hs. cbn. do 2 f_equal. set_solver.
Qed.
Lemma stop_marked (s : st W) d e j x rec : composites s !! c = Some (Parallel ids b d e) -> j ∈ e -> stop_child rec c (j, x) s = (Ret tt, s).
Proof.
  intros Hs Hj. unfold stop_child. assert (Hread : hasEnded_ c s = (Ret e, s)) by (unfold hasEnded_; by rewrite (bind_of _ _ _ _ _ (read_run _ _ _ _ Hs))).
  rewrite (bind_of _ _ _ _ _ Hread). cbn [fst snd]. rewrite bool_decide_false by naive_solver. cbn [when].
  unfold upd_composite. rewrite bind_ret. unfold modify. by erewrite mark_again.
Qed.
Lemma stop_rest s d j : composites s !! c = Some (Parallel ids b d all) ->
  does (fun rec => for_each (drop j (imap pair ids)) (stop_child rec c)) s tt s.
Proof.
  intros Hs. exists 0. intros n _. generalize (exec n). intros rec. remember (length l - j) as m eqn:Em. revert j Em.
  induction m as [|m IH]; intros j Em; [by rewrite drop_indexed_end by (rewrite !length_fmap; lia)|].
  destruct (lookup_lt_is_Some_2 l j) as [t Ht]; [lia|]. rewrite (drop_indexed ids j _ (ids_at l j t Ht)). cbn [for_each].
  rewrite (bind_of _ _ _ tt s); [apply IH; lia|]. eapply stop_marked; [exact Hs|]. apply elem_of_set_seq. lia.
Qed.

Definition stopped (e : gset nat) (m : op unit) (s : st W) : Prop :=
  exists s1, changes (comps me) (vals me) s s1 /\ over s1 me /\ (exists d, composites s1 !! c = Some (Parallel ids b d all)) /\
    (forall i t, l !! i = Some t -> i ∈ e -> on_tree t s s1) /\
    forall s2, ends k false s1 s2 -> on_tree me s1 s2 -> does m s tt s2.

Lemma par_stop_from : forall m j e s, m = length l - size e -> (forall i, i < j -> i ∈ e) -> par_at c b l k (length l) e s -> size e < length l ->
  stopped e (fun rec => for_each (drop j (imap pair ids)) (stop_child rec c)) s.
Proof.
  destruct (part_par _ _ _ Hpart) as [Hl Hc].
  intros m. induction m as [m IHm] using lt_wf_ind. intros j. remember (length l - j) as n eqn:En. revert j En.
  induction n as [|n IHn]; intros j En e s Em Hj Hat Hsz.
  { exfalso. assert (size (set_seq (C:=gset nat) 0 (length l)) <= size e); [|rewrite size_set_seq in *; lia].
    apply subseteq_size. intros i Hi%elem_of_set_seq. apply Hj. lia. }
  destruct (lookup_lt_is_Some_2 l j) as [t Ht]; [lia|]. pose proof Hat as (Hs & He & Hr & _).
  rewrite (drop_indexed ids j _ (ids_at l j t Ht)). cbn [for_each]. destruct (decide (j ∈ e)) as [Hje|Hje].
  { destruct (IHn (S j) ltac:(lia) e s Em) as (s1 & C1 & O1 & D1 & L1 & H1); [|done|done|].
    - intros i Hi. destruct (decide (i = j)) as [->|]; [done|apply Hj; lia].
    - exists s1. split_and!; [done..|]. intros s2 H2 L2. eapply (does_then _ (fun _ rec => _)); [|by apply H1].
      exists 0. intros n' _. by eapply stop_marked. }
  destruct (Hr j t Ht ltac:(lia)) as [[? _]|[_ Hrun]]; [done|].
  destruct (Forall_lookup_1 _ _ _ _ Hstops Ht s _ (ps_part _ Hl _ _ Ht) Hrun) as (s1 & C1 & O1 & H1).
  pose proof (par_step c b l k Hpart j (length l) e t s s1 Hat Ht C1) as Hb.
  assert (Hread : hasEnded_ c s = (Ret e, s)) by (unfold hasEnded_; by rewrite (bind_of _ _ _ _ _ (read_run _ _ _ _ Hs))).
  assert (Hold : forall i u, l !! i = Some u -> i ∈ e -> on_tree u s s1) by (intros i u Hu Hi; eapply (sibling l j i); [done..|congruence|done]).
  (* One turn of the loop, and the rest of it. *)
  assert (Hturn : forall s2 s3 d e', ends (Some (ParallelDone c j k)) false s1 s2 -> on_tree t s1 s2 ->
    composites s2 !! c = Some (Parallel ids b d e') -> j ∈ e' ->
    does (fun rec => for_each (drop (S j) (imap pair ids)) (stop_child rec c)) s2 tt s3 ->
    does (fun rec => do! stop_child rec c (j, Some (rid t)); for_each (drop (S j) (imap pair ids)) (stop_child rec c)) s tt s3).
  { intros s2 s3 d e' E2 L2 G2 Hje' D3. eapply (does_then _ (fun _ rec => _)); [|exact D3].
    unfold stop_child. eapply (does_skip _ (fun e rec => _)); [exact Hread|]. cbn [fst snd]. rewrite bool_decide_true by done. cbn [when].
    eapply (does_then _ (fun _ _ => _)); [by apply H1|]. apply does_now. unfold upd_composite, modify. by erewrite mark_again. }
  destruct (decide (S (size e) = length l)) as [Elast|Hmore].
  - destruct (par_last c b l k Hpart j (length l) e t s1 Hb ltac:(done) Ht O1 Hje Elast) as (O2 & G2 & L2).
    set (s2 := upd_composites (alter (count_done 0 j) c) s1) in *. exists s2. split_and!.
    + transitivity s1; [by eapply child_changes|by apply me_composite].
    + done.
    + by exists 0.
    + intros i u Hu Hi. transitivity s1; [by eapply Hold|by eapply L2].
    + intros s3 H3 L3. assert (G3 : composites s3 !! c = Some (Parallel ids b 0 all)) by (rewrite <- G2; apply (proj1 L3); left).
      eapply (Hturn s3 s3 0 all); [by eapply ends_last; [apply Hb|..]| |exact G3|apply elem_of_set_seq; lia|by eapply stop_rest].
      transitivity s2; [by eapply L2|]. eapply inside_on; [|exact L3]. by eapply inside_par.
  - assert (Hat2 : par_at c b l k (length l) ({[j]} ∪ e) (upd_composites (alter (count_done (S (size e)) j) c) s1)).
    { eapply par_count; [done|exact Hb|done|done|done| |done]. assert (j < length l) by by eapply lookup_lt_Some. lia. }
    set (s2 := upd_composites (alter (count_done (S (size e)) j) c) s1) in *.
    assert (L12 : forall i u, l !! i = Some u -> on_tree u s1 s2) by (intros; by eapply composite_away).
    pose proof (size_add e j Hje) as Hse. assert (Hlt : size e < length l) by done.
    assert (C2 : changes (comps me) (vals me) s s2) by (transitivity s1; [by eapply child_changes|by apply me_composite]).
    destruct (decide (b = true)) as [Hbt|Hbf].
    + destruct (IHm (length l - size ({[j]} ∪ e)) ltac:(lia) 0 ({[j]} ∪ e) s2 eq_refl ltac:(lia) Hat2 ltac:(lia)) as (s3 & C3 & O3 & (d & G3) & L3 & H3).
      exists s3. split_and!; [by transitivity s2|done|by exists d| |].
      * intros i u Hu Hi. transitivity s1; [by eapply Hold|]. transitivity s2; [by eapply L12|]. eapply L3; [done|set_solver].
      * intros s4 H4 L4. assert (G4 : composites s4 !! c = Some (Parallel ids b d all)) by (rewrite <- G3; apply (proj1 L4); left).
        eapply (Hturn s4 s4 d all); [| |exact G4|apply elem_of_set_seq; lia|by eapply stop_rest].
        -- eapply ends_counted; [apply Hb|done|]. replace (negb false && b) with true by (by rewrite Hbt). cbn [when]. eapply does_stop; [apply Hat2|]. by apply H3.
        -- transitivity s2; [by eapply L12|]. transitivity s3; [eapply L3; [done|set_solver]|]. eapply inside_on; [|exact L4]. by eapply inside_par.
    + destruct (IHm (length l - size ({[j]} ∪ e)) ltac:(lia) (S j) ({[j]} ∪ e) s2 eq_refl) as (s3 & C3 & O3 & (d & G3) & L3 & H3); [|done|lia|].
      { intros i Hi. destruct (decide (i = j)) as [->|]; [set_solver|]. assert (i ∈ e) by (apply Hj; lia). set_solver. }
      exists s3. split_and!; [by transitivity s2|done|by exists d| |].
      * intros i u Hu Hi. transitivity s1; [by eapply Hold|]. transitivity s2; [by eapply L12|]. eapply L3; [done|set_solver].
      * intros s4 H4 L4. eapply (Hturn s2 s4); [|by eapply L12|apply Hat2|set_solver|by apply H3].
        eapply ends_counted; [apply Hb|done|]. replace (negb false && b) with false by (by destruct b). by apply does_now.
Qed.
End parallel_stop.

Lemma running_par s k c b l : running s k (Par c b l) -> exists e, par_at c b l k (length l) e s /\ size e < length l.
Proof.
  inversion 1; subst. eexists. split; [|done]. split_and!; [done|done|by eauto|]. intros i t Ht Hi. apply lookup_lt_Some in Ht. lia.
Qed.
Lemma stops_par c b l : Forall stops l -> stops (Par c b l).
Proof.
  intros IH s k Hp Hr. apply running_par in Hr as (e & Hat & Hsz). pose proof Hat as (Hs & _).
  destruct (par_stop_from c b l k Hp IH _ 0 e s eq_refl ltac:(lia) Hat Hsz) as (s1 & C1 & O1 & _ & _ & H1).
  exists s1. split_and!; [done|done|]. intros s2 H2 L2. eapply does_stop; [exact Hs|]. apply H1; auto.
Qed.
Lemma stops_all t : stops t.
Proof. induction t using tree_ind'; [apply stops_leaf|by apply stops_seq|by apply stops_par|by apply stops_loop]. Qed.

(** *** Events of the host *)
Definition reacts (t : tree) : Prop := forall s k e y, part t -> running s k t ->
  animations s !! event_of e = Some y -> a_value y ∈ vals t ->
  finishes t k (by_itself e) (run_event e) s \/ goes t k (run_event e) s.

Lemma event_quiet e s y : animations s !! event_of e = Some y -> quiet s (a_value y) -> does (run_event e) s tt s.
Proof. intros Hy [_ Hd]. exists 0. intros n _. eapply event_dead; [done|]. by eapply Hd. Qed.
Lemma goes_still t k m s : running s k t -> does m s tt s -> goes t k m s.
Proof. intros. by exists s. Qed.

Lemma reacts_leaf c v cfg : reacts (Leaf c v cfg).
Proof.
  intros s k e y Hp Hr Hy Hv. inversion Hr; subst. cbn in Hv. apply list_elem_of_singleton in Hv.
  destruct (decide (event_of e = a)) as [<-|Hne].
  - destruct (event_leaf e s v cfg _ ltac:(by apply (pt_vals _ Hp); left) H4); [left; by eapply leaf_finishes|right; by eapply leaf_goes_on].
  - right. apply goes_still; [done|]. exists 0. intros n _. eapply event_dead; [done|]. destruct H4 as (_ & _ & Hd). by eapply Hd.
Qed.
Lemma reacts_seq c l : Forall reacts l -> reacts (Seq c l).
Proof.
  intros IH s k e y Hp Hr Hy Hv. destruct (part_seq _ _ Hp) as [Hl Hc]. pose proof Hr as Hr'. inversion Hr'; subst.
  assert (Hat : seq_at c l cur s) by by split_and!.
  cbn in Hv. apply parts_elem in Hv as (i & u & Hu & Hv).
  destruct (lt_eq_lt_dec i cur) as [[Hlt| ->]|Hgt].
  - right. apply goes_still; [done|]. eapply event_quiet; [done|]. by apply (over_quiet s u); [eapply H5|].
  - simplify_eq. destruct (Forall_lookup_1 _ _ _ _ IH Hu s _ e y (ps_part _ Hl _ _ Hu) H3 Hy Hv) as [Hf|Hg].
    + destruct (by_itself e) eqn:Eb.
      * assert (Hnext : forall s1, changes (comps u) (vals u) s s1 -> over s1 u -> if forallb instant (drop (S cur) l)
          then then_ends u (Seq c l) (Some (OnComplete c k)) k true s1 else then_goes u (Seq c l) (Some (OnComplete c k)) k true s1).
        { intros s1 C1 O1. apply seq_done; [done|by eapply seq_step|done|done|]. intros Hlt. apply seq_start_at; [done| |done].
          apply Forall_forall. intros. apply starts_all. }
        destruct (forallb _ _); [left; eapply finishes_then_ends|right; eapply finishes_then_goes]; try exact Hf; try exact Hnext; by eapply inside_seq.
      * left. eapply finishes_then_ends; [by eapply inside_seq|exact Hf|]. intros s1 C1 O1. eapply seq_stopped; [by eapply seq_step|done|done].
    + right. destruct Hg as (s1 & C1 & R1 & D1). destruct (seq_step c l Hp cur u s s1 Hat Hu C1) as (G1 & G2 & G3). exists s1. split_and!; [|by eapply run_seq|done].
      eapply inside_changes; [by eapply inside_seq|done].
  - right. apply goes_still; [done|]. eapply event_quiet; [done|]. by apply (over_quiet s u); [eapply idle_over, H6|].
Qed.
Lemma reacts_par c b l : Forall reacts l -> reacts (Par c b l).
Proof.
  intros IH s k e y Hp Hr Hy Hv. destruct (part_par _ _ _ Hp) as [Hl Hc]. apply running_par in Hr as Hr'. destruct Hr' as (E & Hat & Hsz). pose proof Hat as (_ & _ & Hch & _).
  cbn in Hv. apply parts_elem in Hv as (i & u & Hu & Hv). destruct (Hch i u Hu ltac:(by eapply lookup_lt_Some)) as [[Hi Ho]|[Hi Hru]].
  { right. apply goes_still; [done|]. eapply event_quiet; [done|]. by eapply over_quiet. }
  assert (Hilt : i < length l) by by eapply lookup_lt_Some.
  destruct (Forall_lookup_1 _ _ _ _ IH Hu s _ e y (ps_part _ Hl _ _ Hu) Hru Hy Hv) as [Hf|Hg].
  - destruct (decide (S (size E) = length l)) as [Elast|Hmore].
    + left. eapply finishes_then_ends; [by eapply inside_par|exact Hf|]. intros s1 C1 O1.
      pose proof (par_step c b l k Hp i (length l) E u s s1 Hat Hu C1) as Hb.
      destruct (par_last c b l k Hp i (length l) E u s1 Hb ltac:(done) Hu O1 Hi Elast) as (O2 & _ & L2). eexists. split_and!; [apply me_composite|exact O2|intros _; by eapply L2|].
      intros s2 H2 _. by eapply ends_last; [apply Hb|..].
    + destruct Hf as (s1 & C1 & O1 & H1). pose proof (par_step c b l k Hp i (length l) E u s s1 Hat Hu C1) as Hb.
      assert (Hat2 : par_at c b l k (length l) ({[i]} ∪ E) (upd_composites (alter (count_done (S (size E)) i) c) s1)).
      { eapply par_count; [done|exact Hb|done|done|done|lia|done]. }
      set (s2 := upd_composites (alter (count_done (S (size E)) i) c) s1) in *. pose proof (size_add E i Hi) as Hse.
      assert (C2 : changes (comps (Par c b l)) (vals (Par c b l)) s s2) by (transitivity s1; [by eapply child_changes|by apply me_composite]).
      assert (L12 : on_tree u s1 s2) by by eapply composite_away.
      destruct (negb (by_itself e) && b) eqn:Est.
      * left. apply andb_prop in Est as [Ee%negb_true_iff Hbt].
        destruct (par_stop_from c b l k Hp ltac:(apply Forall_forall; intros; apply stops_all) _ 0 ({[i]} ∪ E) s2 eq_refl ltac:(lia) Hat2 ltac:(lia))
          as (s3 & C3 & O3 & _ & L3 & H3).
        exists s3. split_and!; [by transitivity s2|done|]. rewrite Ee. intros s4 H4 L4. specialize (L4 eq_refl). rewrite Ee in H1. apply H1.
        -- eapply ends_counted; [apply Hb|done|]. replace (negb false && b) with true by (by rewrite Hbt). cbn [when].
           eapply does_stop; [apply Hat2|]. by apply H3.
        -- intros _. transitivity s2; [done|]. transitivity s3; [eapply L3; [done|set_solver]|]. eapply inside_on; [|exact L4]. by eapply inside_par.
      * right. exists s2. split_and!; [done|by eapply par_running; [exact Hat2|lia]|]. apply H1; [|done].
        eapply ends_counted; [apply Hb|done|]. rewrite Est. by apply does_now.
  - right. destruct Hg as (s1 & C1 & R1 & D1). destruct (par_step c b l k Hp i (length l) E u s s1 Hat Hu C1) as (G1 & G2 & G3 & _).
    exists s1. split_and!; [by eapply child_changes| |done]. eapply run_par; [exact G1|done|done|]. intros i' u' Hu'.
    destruct (decide (i' = i)) as [->|Hne]; [right; by simplify_eq|]. apply G3; [done|done|by eapply lookup_lt_Some].
Qed.
Lemma reacts_loop c n t : reacts t -> reacts (Lp c n t).
Proof.
  intros IH s k e y Hp Hr Hy Hv. inversion Hr; subst. destruct (part_loop _ _ _ Hp) as (Hpt & Hc & _).
  assert (Hin : inside t (Lp c n t)) by (split; set_solver).
  destruct (IH s _ e y Hpt H5 Hy Hv) as [Hf|Hg].
  - assert (Hcomp : forall s1, changes (comps t) (vals t) s s1 -> composites s1 !! c = Some (Loop (rid t) n true false i)).
    { intros s1 C1. rewrite <- H3. by apply (own_composite _ _ _ c _ _ Hp ltac:(left) Hc C1). }
    destruct (by_itself e) eqn:Eb.
    + assert (Hnext : forall s1, changes (comps t) (vals t) s s1 -> over s1 t -> if (i =? n)%Z || instant t
        then then_ends t (Lp c n t) (Some (Restart c k)) k true s1 else then_goes t (Lp c n t) (Some (Restart c k)) k true s1).
      { intros s1 C1 O1. apply loop_again; [apply starts_all|done|by apply Hcomp|done|done]. }
      destruct (_ || _); [left; eapply finishes_then_ends|right; eapply finishes_then_goes]; try exact Hf; try exact Hnext; done.
    + left. eapply finishes_then_ends; [done|exact Hf|]. intros s1 C1 O1. exists s1. split_and!; [done| |done|].
      * econstructor; [by apply Hcomp|done].
      * intros s2 H2 _. apply does_end. eapply (does_read (fun x rec => _) c _ s1); [by apply Hcomp|]. cbn. rewrite orb_true_r. exact H2.
  - right. destruct Hg as (s1 & C1 & R1 & D1). exists s1. split_and!; [by eapply inside_changes| |done].
    eapply run_loop; [|exact H4|exact R1]. rewrite <- H3. by apply (own_composite _ _ _ c _ _ Hp ltac:(left) Hc C1).
Qed.
Lemma reacts_all t : reacts t.
Proof. induction t using tree_ind'; [apply reacts_leaf|by apply reacts_seq|by apply reacts_par|by apply reacts_loop]. Qed.

(** ** From the start to the end *)

(** The host still has to call back for an animation of the root. *)
Definition pending (s : st W) : Prop := exists a y, animations s !! a = Some y /\ a_value y ∈ vals R /\
  (frame y = true \/ timeout y = true \/ (is_Some (nativeId y) /\ is_Some (onEnd y))).
(** What may happen to the root after its start; [clean] when nothing stops it. *)
Inductive happens (s : st W) : bool -> st W -> Prop :=
  | happens_event e y s' : animations s !! event_of e = Some y -> a_value y ∈ vals R ->
      does (run_event e) s tt s' -> happens s (by_itself e) s'
  | happens_stop s' : does (fun rec => rec (Stop (rid R))) s tt s' -> happens s false s'
  | happens_elsewhere s' : changes [] [] s s' -> happens s true s'.
Inductive history (s : st W) : bool -> st W -> Prop :=
  | history_start : history s true s
  | history_step c c' s1 s2 : history s c s1 -> happens s1 c' s2 -> history s (c && c') s2.

Lemma does_det {A} (m : op A) s a a' s1 s2 : does m s a s1 -> does m s a' s2 -> a = a' /\ s1 = s2.
Proof.
  intros [n1 H1] [n2 H2]. specialize (H1 (n1 `max` n2) ltac:(lia)). specialize (H2 (n1 `max` n2) ltac:(lia)).
  rewrite H1 in H2. by injection H2.
Qed.
Lemma over_pending s : over s R -> ~ pending s.
Proof.
  intros Ho (a & y & Hy & Hv & Hw). destruct (over_quiet s R _ Ho Hv) as [_ Hd].
  destruct (Hd a y Hy eq_refl) as (H1 & H2 & H3). rewrite H1, H2, H3 in Hw. destruct Hw as [?|[?|[_ []]]]; done.
Qed.
Lemma running_live s t : forall k, running s k t -> exists a y, animations s !! a = Some y /\ a_value y ∈ vals t /\
  waiting y /\ is_Some (onEnd y).
Proof.
  induction t as [c v cfg|c l IH|c b l IH|c n t IH] using tree_ind'; intros k Hr.
  - inversion Hr; subst. destruct H4 as (_ & (y & h & Hy & Hv & _ & _ & He & Hw) & _). exists a, y.
    split_and!; [done|rewrite Hv; left|done|]. rewrite He. by eexists.
  - inversion Hr; subst. destruct (Forall_lookup_1 _ _ _ _ IH H2 _ H3) as (a & y & Hy & Hv & Hw). exists a, y.
    split_and!; [done| |apply Hw..]. by eapply elem_parts.
  - apply running_par in Hr as (e & (_ & He & Hch & _) & Hsz).
    assert (exists i, i < length l /\ i ∉ e) as (i & Hi & Hn).
    { destruct (set_choose_or_empty (set_seq (C:=gset nat) 0 (length l) ∖ e)) as [[i Hi]|Hs].
      - exists i. apply elem_of_difference in Hi as [Hi Hn]. apply elem_of_set_seq in Hi. split; [lia|done].
      - assert (Hsub : set_seq (C:=gset nat) 0 (length l) ⊆ e) by set_solver. apply subseteq_size in Hsub.
        rewrite size_set_seq in Hsub. lia. }
    destruct (lookup_lt_is_Some_2 l i Hi) as [t Ht]. destruct (Hch i t Ht Hi) as [[? _]|[_ Hrun]]; [done|].
    destruct (Forall_lookup_1 _ _ _ _ IH Ht _ Hrun) as (a & y & Hy & Hv & Hw). exists a, y.
    split_and!; [done| |apply Hw..]. by eapply elem_parts.
  - inversion Hr; subst. by apply (IH (Some (Restart c k))).
Qed.
Lemma running_pending s k : running s k R -> pending s.
Proof.
  intros (a & y & Hy & Hv & Hw & He)%running_live. exists a, y. split_and!; [done|done|].
  destruct Hw as [(? & _)|[(_ & ? & _)|(_ & _ & ?)]]; auto.
Qed.

Section start_to_end.
Hypothesis Hown : own_parts R.
Hypothesis Htag : T ∉ tags R.
Lemma root_part : part R.
Proof. by split. Qed.
Lemma root_away s s' : changes [] [] s s' -> on_tree R s s'.
Proof. intros H. eapply part_away; [apply root_part|..|exact H]; set_solver. Qed.
Lemma root_ends b s : exists s', ends (Some (Client T)) b s s' /\ on_tree R s s' /\ called s' = called s ++ [b].
Proof.
  destruct (Hclient T b (log (Called T b) s)) as (s1 & E & C1). exists s1. split_and!.
  - apply does_end. exists 0. intros n _. exact E.
  - apply (root_away (log (Called T b) s)). done.
  - destruct C1 as [_ ->]. unfold called. cbn. rewrite omap_app. cbn. by rewrite Nat.eqb_refl.
Qed.

(** Either at work, with nothing reported, or over, with one report. *)
Definition phase (before : list bool) (clean : bool) (s : st W) : Prop :=
  (running s (Some (Client T)) R /\ called s = before) \/
  (over s R /\ exists b, called s = before ++ [b] /\ (clean = true -> b = true)).
Lemma phase_finishes before b clean m s : called s = before -> (clean = true -> b = true) ->
  finishes R (Some (Client T)) b m s -> exists s', does m s tt s' /\ phase before clean s' /\ over s' R.
Proof.
  intros Hb Hcl (s1 & [_ C1] & O1 & H1). destruct (root_ends b s1) as (s2 & E2 & L2 & K2).
  assert (over s2 R) by by eapply over_local. exists s2. split_and!; [by apply H1| |done].
  right. split; [done|]. exists b. split; [congruence|done].
Qed.
Lemma phase_goes before clean m s : called s = before -> goes R (Some (Client T)) m s -> exists s', does m s tt s' /\ phase before clean s'.
Proof. intros Hb (s1 & [_ C1] & R1 & D1). exists s1. split; [done|]. left. split; [done|congruence]. Qed.

Lemma phase_start s : idle s R -> exists s', does (fun rec => rec (Start (rid R) (Some (Client T)))) s tt s' /\ phase (called s) true s'.
Proof.
  intros Hid. pose proof (starts_all R s (Some (Client T)) root_part Hid) as H. destruct (instant R).
  - destruct (phase_finishes _ true true _ s eq_refl ltac:(done) H) as (s' & H1 & H2 & _). by exists s'.
  - by apply phase_goes.
Qed.
Lemma phase_event before clean s e y : phase before clean s -> animations s !! event_of e = Some y -> a_value y ∈ vals R ->
  exists s', does (run_event e) s tt s' /\ phase before (clean && by_itself e) s'.
Proof.
  intros [[Hr Hb]|[Ho (b & Hb & Hcl)]] Hy Hv.
  - destruct (reacts_all R s _ e y root_part Hr Hy Hv) as [Hf|Hg]; [|by eapply phase_goes].
    destruct (phase_finishes before (by_itself e) (clean && by_itself e) (run_event e) s Hb) as (s' & H1 & H2 & _); [by intros [_ ?]%andb_prop|done|]. by exists s'.
  - exists s. split; [eapply event_quiet; [done|by eapply over_quiet]|]. right. split; [done|]. exists b. split; [done|].
    intros [? _]%andb_prop. auto.
Qed.
Lemma phase_stop before clean s : phase before clean s ->
  exists s', does (fun rec => rec (Stop (rid R))) s tt s' /\ phase before false s' /\ over s' R.
Proof.
  intros [[Hr Hb]|[Ho (b & Hb & Hcl)]].
  - apply (phase_finishes before false false (fun rec => rec (Stop (rid R))) s Hb ltac:(done)). by apply stops_all; [apply root_part|].
  - destruct (stays_over_all R s root_part Ho) as (s1 & [_ C1] & O1 & D1). exists s1. split_and!; [done| |done].
    right. split; [done|]. exists b. by rewrite C1.
Qed.
Lemma phase_elsewhere before clean s s' : phase before clean s -> changes [] [] s s' -> phase before clean s'.
Proof.
  intros H C. pose proof (root_away _ _ C) as L. destruct C as [_ C]. destruct H as [[Hr Hb]|[Ho Hb]]; [left|right]; rewrite C.
  - split; [by eapply running_local|done].
  - split; [by eapply over_local|done].
Qed.
Lemma phase_history before s c s' : phase before true s -> history s c s' -> phase before c s'.
Proof.
  intros Hs. induction 1 as [|c c' s1 s2 H IH Hh]; [done|]. destruct Hh as [e y s2 Hy Hv D|s2 D|s2 C].
  - destruct (phase_event before c s1 e y IH Hy Hv) as (s3 & D3 & P3). by destruct (does_det _ _ _ _ _ _ D D3) as [_ ->].
  - destruct (phase_stop before c s1 IH) as (s3 & D3 & P3 & _). destruct (does_det _ _ _ _ _ _ D D3) as [_ ->]. by rewrite andb_false_r.
  - rewrite andb_true_r. by eapply phase_elsewhere.
Qed.
End start_to_end.
End composite.


(** ** At work *)
Definition counts : nat -> bool -> JS (st nat) unit := fun _ _ => modify (fun s =>
  Build_st (values s) (animations s) (composites s) (handles s) (nextHandle s) (nextNativeId s) (now s) (trace s) (S (world s))).
Definition hears : nat -> Q -> JS (st nat) unit := fun v _ => counts v true.
Definition fade (duration delay : Z) : timing_config := Build_timing_config 1 (fun t => t) duration delay None false (Some 3) 1.
(** [sequence([timing, parallel([timing, loop(timing, 2)])])]: the second leaf has a
    delay and no duration. *)
Definition show : tree :=
  Seq 5 [Leaf 0 0 (fade 100 0); Par 4 true [Leaf 1 1 (fade 0 50); Lp 3 2 (Leaf 2 2 (fade 200 0))]].
Definition stage : st nat :=
  let v := Build_value 0 0 0 None in
  Build_st [v; v; v] [] [Timing 0 (fade 100 0); Timing 1 (fade 0 50); Timing 2 (fade 200 0); Loop 2 2 true false 0;
    Parallel [Some 1; Some 3] true 0 ∅; Sequence [0; 4] 0] ∅ 0 1 0 [] 0.
Lemma stage_quiet v : v < 3 -> quiet stage v.
Proof.
  intros Hv. split; [destruct v as [|[|[|v]]]; [eexists; split; reflexivity..|lia]|].
  intros a y Hy. cbn in Hy. by rewrite lookup_nil in Hy.
Qed.

(** ** What the theorem leaves out *)
Section defects.
Let run (n : nat) (x : call) : JS (st nat) unit := exec counts hears n x.
Let rec_ (n : nat) : call -> JS (st nat) unit := run n.
Definition quick : timing_config := Build_timing_config 1 (fun t => t) 0 0 None false None 1.
Definition slow : timing_config := Build_timing_config 1 (fun t => t) 100 0 None false None 1.
Definition by_native : timing_config := Build_timing_config 1 (fun t => t) 100 0 None true None 1.
Definition empty_st : st nat := Build_st [] [] [] ∅ 0 1 0 [] 0.

(** A sequence that has ended stays at its end: started again without a reset, as a
    loop with [resetBeforeIteration] false does, it reads past its parts. *)
Definition loop_of_sequence : JS (st nat) unit :=
  let! v := new_value 0 in let! a := timing v quick in let! q := sequence [a] in let! r := loop q 2 false in
  run 30 (Start r None).
Example sequence_started_again_throws : outcome loop_of_sequence empty_st = Throw (JSError "TypeError: undefined is not an object").
Proof. reflexivity. Qed.

(** A parallel that is started again without a reset remembers that its parts have
    ended: [stop] does not stop them, and the callback is not called. *)
Definition parallel_twice : JS (st nat) unit :=
  let! v := new_value 0 in let! a := timing v slow in let! p := parallel [Some a] true in
  do! run 30 (Start p (Some (Client 7))); do! tick 100; do! frame_fires hears (rec_ 30) 0;
  do! run 30 (Start p (Some (Client 8))); run 30 (Stop p).
Example parallel_started_again_runs_on :
  trace (final parallel_twice empty_st) = [Called 7 true] /\ (frame <$> animations (final parallel_twice empty_st)) = [false; true].
Proof. split; reflexivity. Qed.

(** A loop of an animation of the native driver never calls its callback. *)
Definition native_loop : JS (st nat) unit :=
  let! v := new_value 0 in let! a := timing v by_native in let! r := loop a 3 true in
  do! run 30 (Start r (Some (Client 7))); native_ends (rec_ 30) 0 true.
Example native_loop_never_reports :
  trace (final native_loop empty_st) = [StartAnimatingNode 1 0 3] /\ (onEnd <$> animations (final native_loop empty_st)) = [None].
Proof. split; reflexivity. Qed.
End defects.

(** An end callback that starts the value again while [stopAnimation] stops it: the new
    animation runs, but its value has forgotten it, so [setValue] does not stop it. *)
Definition restarting : nat -> bool -> JS (st nat) unit := fun t _ => if t =? 7 then exec counts hears 30 (Start 1 None) else ret tt.
Definition stop_and_set : JS (st nat) unit :=
  let! v := new_value 0 in let! a := timing v slow in let! b := timing v slow in
  do! exec restarting hears 30 (Start a (Some (Client 7)));
  do! exec restarting hears 30 (Stop a);
  setValue hears (exec restarting hears 30) v 5.
Example stopped_value_forgets_animation :
  (animation_ <$> values (final stop_and_set empty_st)) = [None] /\ (frame <$> animations (final stop_and_set empty_st)) = [false; true].
Proof. split; reflexivity. Qed.
