(* ===== verification/TouchHistory.v ===== *)
(** * Touch history

    [ResponderTouchHistoryStore] of
    Libraries/Renderer/implementations/ReactNativeRenderer-dev.js, which records where
    each finger is, was and started, and Libraries/Interaction/TouchHistoryMath.js,
    the centroids of the fingers that moved.

    The store is the record [touchHistory]: one shared object, which every event of
    the responder system carries.  [touchBank] is a JavaScript array indexed by the
    identifiers of touches, with holes.  Times are integers, coordinates rationals.  A
    slot of a native array of touches may also hold [null] or [undefined]. *)
From S2P Require Import Prelude Rationals.
From stdpp Require Import base numbers list strings gmap fin_sets.
From Stdlib Require Import QArith Lqa.
Open Scope nat_scope.

Inductive topLevelType :=
  | topTouchStart | topTouchMove | topTouchEnd | topTouchCancel
  | topScroll | topSelectionChange | otherTopLevel (name : string).
Definition isStartish (t : topLevelType) : bool := if t is topTouchStart then true else false.
Definition isMoveish (t : topLevelType) : bool := if t is topTouchMove then true else false.
Definition isEndish (t : topLevelType) : bool :=
  match t with topTouchEnd | topTouchCancel => true | _ => false end.

(** A [Touch] of native: [timeStamp] is the old name of [timestamp]. *)
Record touch := {
  identifier : option nat;
  target : option Z;
  pageX : Q;
  pageY : Q;
  timeStamp : option Z;
  timestamp : Z
}.
Inductive slot := ATouch (t : touch) | Null | Undefined.
Definition the_touch (x : slot) : option touch := if x is ATouch t then Some t else None.

Definition timestampForTouch (t : touch) : Z :=
  match timeStamp t with
  | Some n => if (n =? 0)%Z then timestamp t else n
  | None => timestamp t
  end.

Record TouchRecord := {
  touchActive : bool;
  startPageX : Q;
  startPageY : Q;
  startTimeStamp : Z;
  currentPageX : Q;
  currentPageY : Q;
  currentTimeStamp : Z;
  previousPageX : Q;
  previousPageY : Q;
  previousTimeStamp : Z
}.

(** [indexOfSingleActiveTouch] is [None] for -1 (and [undefined]). *)
Record touchHistory := {
  touchBank : list (option TouchRecord);
  numberActiveTouches : nat;
  indexOfSingleActiveTouch : option nat;
  mostRecentTimeStamp : Z
}.
Definition init : touchHistory := Build_touchHistory [] 0 None 0.
Definition set_touchBank x (h : touchHistory) := Build_touchHistory x
  (numberActiveTouches h) (indexOfSingleActiveTouch h) (mostRecentTimeStamp h).
Definition set_numberActiveTouches x (h : touchHistory) := Build_touchHistory (touchBank h)
  x (indexOfSingleActiveTouch h) (mostRecentTimeStamp h).
Definition set_indexOfSingleActiveTouch x (h : touchHistory) := Build_touchHistory (touchBank h)
  (numberActiveTouches h) x (mostRecentTimeStamp h).
Definition set_mostRecentTimeStamp x (h : touchHistory) := Build_touchHistory (touchBank h)
  (numberActiveTouches h) (indexOfSingleActiveTouch h) x.

(** [a[i]], [undefined] in holes and beyond the end; [a[i] = r], which leaves holes. *)
Definition bank_get (i : nat) (a : list (option TouchRecord)) : option TouchRecord := mjoin (a !! i).
Definition bank_set (i : nat) (r : TouchRecord) (a : list (option TouchRecord)) : list (option TouchRecord) :=
  if i <? length a then <[i := Some r]> a else a ++ replicate (i - length a) None ++ [Some r].

Definition TypeError {S A} : JS S A := throw (JSError "TypeError").

(** ** ResponderTouchHistoryStore *)
Definition createTouchRecord (t : touch) : TouchRecord := {|
  touchActive := true;
  startPageX := pageX t; startPageY := pageY t; startTimeStamp := timestampForTouch t;
  currentPageX := pageX t; currentPageY := pageY t; currentTimeStamp := timestampForTouch t;
  previousPageX := pageX t; previousPageY := pageY t; previousTimeStamp := timestampForTouch t
|}.
(** Every field of the record is assigned. *)
Definition resetTouchRecord (r : TouchRecord) (t : touch) : TouchRecord := {|
  touchActive := true;
  startPageX := pageX t; startPageY := pageY t; startTimeStamp := timestampForTouch t;
  currentPageX := pageX t; currentPageY := pageY t; currentTimeStamp := timestampForTouch t;
  previousPageX := pageX t; previousPageY := pageY t; previousTimeStamp := timestampForTouch t
|}.
(** What a move and an end write into a record. *)
Definition advance (active : bool) (t : touch) (r : TouchRecord) : TouchRecord := {|
  touchActive := active;
  startPageX := startPageX r; startPageY := startPageY r; startTimeStamp := startTimeStamp r;
  currentPageX := pageX t; currentPageY := pageY t; currentTimeStamp := timestampForTouch t;
  previousPageX := currentPageX r; previousPageY := currentPageY r;
  previousTimeStamp := currentTimeStamp r
|}.

Abbreviation H := touchHistory.
Definition getTouchIdentifier (x : slot) : JS H nat :=
  match the_touch x with
  | None => TypeError
  | Some t => match identifier t with
      | Some i => ret i
      | None => throw (JSError "Touch object is missing identifier.")
      end
  end.
Definition record_for (x : slot) (f : touch -> nat -> option TouchRecord -> JS H unit) : JS H unit :=
  let! i := getTouchIdentifier x in
  match x with
  | ATouch t => let! r := gets (fun h => bank_get i (touchBank h)) in f t i r
  | _ => TypeError
  end.
Definition put (i : nat) (r : TouchRecord) : JS H unit :=
  modify (fun h => set_touchBank (bank_set i r (touchBank h)) h).
Definition recent (t : touch) : JS H unit := modify (set_mostRecentTimeStamp (timestampForTouch t)).

Definition recordTouchStart (x : slot) : JS H unit :=
  record_for x (fun t i r =>
    do! (match r with
         | Some r => put i (resetTouchRecord r t)
         | None => put i (createTouchRecord t)
         end);
    recent t).
Definition recordTouchMove (x : slot) : JS H unit :=
  record_for x (fun t i r =>
    match r with
    | Some r => do! put i (advance true t r); recent t
    | None => ret tt
    end).
Definition recordTouchEnd (x : slot) : JS H unit :=
  record_for x (fun t i r =>
    match r with
    | Some r => do! put i (advance false t r); recent t
    | None => ret tt
    end).

(** A native event: [changedTouches] and [touches], absent in events other than those
    of touches, and [responderIgnoreScroll]. *)
Record nativeEvent := {
  changedTouches : list slot;
  touches : option (list slot);
  responderIgnoreScroll : bool
}.
Definition EMPTY_NATIVE_EVENT : nativeEvent := Build_nativeEvent [] None false.

Definition is_active (r : option TouchRecord) : bool :=
  match r with Some r => touchActive r | None => false end.
(** The index of the first active record from [i] on. *)
Fixpoint first_active (i : nat) (a : list (option TouchRecord)) : option nat :=
  match a with
  | [] => None
  | r :: a' => if is_active r then Some i else first_active (i + 1) a'
  end.

Definition touch_list (e : nativeEvent) : JS H (list slot) :=
  match touches e with Some l => ret l | None => TypeError end.
(** [nativeEvent.touches[0].identifier]. *)
Definition first_identifier (l : list slot) : JS H (option nat) :=
  match l with ATouch t :: _ => ret (identifier t) | _ => TypeError end.

Definition recordTouchTrack (t : topLevelType) (e : nativeEvent) : JS H unit :=
  if isMoveish t then for_each (changedTouches e) recordTouchMove
  else if isStartish t then
    do! for_each (changedTouches e) recordTouchStart;
    let! l := touch_list e in
    do! modify (set_numberActiveTouches (length l));
    when (length l =? 1)
      (let! i := first_identifier l in modify (set_indexOfSingleActiveTouch i))
  else if isEndish t then
    do! for_each (changedTouches e) recordTouchEnd;
    let! l := touch_list e in
    do! modify (set_numberActiveTouches (length l));
    when (length l =? 1)
      (let! a := gets touchBank in
       match first_active 0 a with
       | Some i => modify (set_indexOfSingleActiveTouch (Some i))
       | None => ret tt
       end)
  else ret tt.

(** ** TouchHistoryMath *)
Definition noCentroid : Q := -1.
Definition coordinate (isXAxis ofCurrent : bool) (r : TouchRecord) : Q :=
  if ofCurrent && isXAxis then currentPageX r
  else if ofCurrent && negb isXAxis then currentPageY r
  else if negb ofCurrent && isXAxis then previousPageX r
  else previousPageY r.
Definition counts (touchesChangedAfter : Z) (r : option TouchRecord) : bool :=
  match r with
  | Some r => touchActive r && (touchesChangedAfter <=? currentTimeStamp r)%Z
  | None => false
  end.
(** The loop over the bank: the total and the count so far. *)
Fixpoint centroid_loop (after : Z) (isXAxis ofCurrent : bool) (a : list (option TouchRecord))
    (total : Q) (count : nat) : Q * nat :=
  match a with
  | [] => (total, count)
  | r :: a' =>
      match r with
      | Some t =>
          if counts after r
          then centroid_loop after isXAxis ofCurrent a' (total + coordinate isXAxis ofCurrent t)%Q (count + 1)
          else centroid_loop after isXAxis ofCurrent a' total count
      | None => centroid_loop after isXAxis ofCurrent a' total count
      end
  end.
Definition average (tc : Q * nat) : Q :=
  if 0 <? snd tc then (fst tc / inject_Z (Z.of_nat (snd tc)))%Q else noCentroid.

Definition centroidDimension (h : touchHistory) (touchesChangedAfter : Z) (isXAxis ofCurrent : bool) : result Q :=
  if numberActiveTouches h =? 1 then
    match indexOfSingleActiveTouch h ≫= fun i => bank_get i (touchBank h) with
    | None => Throw (JSError "TypeError")
    | Some oneTouchData =>
        Ret (average
          (if touchActive oneTouchData && (touchesChangedAfter <? currentTimeStamp oneTouchData)%Z
           then ((0 + coordinate isXAxis ofCurrent oneTouchData)%Q, 1) else (0%Q, 0)))
    end
  else Ret (average (centroid_loop touchesChangedAfter isXAxis ofCurrent (touchBank h) 0 0)).

Definition currentCentroidXOfTouchesChangedAfter h after := centroidDimension h after true true.
Definition currentCentroidYOfTouchesChangedAfter h after := centroidDimension h after false true.
Definition previousCentroidXOfTouchesChangedAfter h after := centroidDimension h after true false.
Definition previousCentroidYOfTouchesChangedAfter h after := centroidDimension h after false false.
Definition currentCentroidX h := centroidDimension h 0 true true.
Definition currentCentroidY h := centroidDimension h 0 false true.

(** ** The bank *)
Lemma bank_get_set i r a j : bank_get j (bank_set i r a) = if decide (j = i) then Some r else bank_get j a.
Proof.
  unfold bank_get, bank_set. destruct (Nat.ltb_spec i (length a)) as [Hi|Hi].
  - case_decide as E; [subst; by rewrite list_lookup_insert_eq|by rewrite list_lookup_insert_ne].
  - destruct (decide (j < length a)) as [Hj|Hj].
    + rewrite lookup_app_l by done. case_decide; [lia|done].
    + rewrite lookup_app_r by lia. rewrite (lookup_ge_None_2 a j) by lia. cbn.
      destruct (decide (j < i)) as [Hji|Hji].
      * rewrite lookup_app_l by (rewrite length_replicate; lia). rewrite lookup_replicate_2 by lia.
        by case_decide; [lia|].
      * rewrite lookup_app_r, length_replicate by (rewrite length_replicate; lia).
        case_decide as E; [subst; by replace (i - length a - (i - length a)) with 0 by lia|].
        by destruct (j - length a - (i - length a)) eqn:E'; [lia|].
Qed.

(** What an event does to the record of a touch. *)
Definition recorded (t : topLevelType) (x : touch) (r : option TouchRecord) : option TouchRecord :=
  if isMoveish t then advance true x <$> r
  else if isStartish t then Some (createTouchRecord x)
  else if isEndish t then advance false x <$> r
  else r.
Definition ids (l : list slot) : list nat := omap (fun x => the_touch x ≫= identifier) l.
(** Every slot of the array is a touch with an identifier, and no two have the same. *)
Definition proper_touches (l : list slot) : Prop :=
  Forall (fun x => is_Some (the_touch x ≫= identifier)) l /\ NoDup (ids l).
Definition touch_with (i : nat) (l : list slot) : option touch :=
  head (filter (fun t => identifier t = Some i) (omap the_touch l)).

(** [f] records a touch by changing its own record only. *)
Definition records (u : touch -> option TouchRecord -> option TouchRecord) (f : slot -> JS H unit) : Prop :=
  forall t i h, identifier t = Some i -> exists h', f (ATouch t) h = (Ret tt, h') /\
    (forall j, bank_get j (touchBank h') =
       if decide (j = i) then u t (bank_get i (touchBank h)) else bank_get j (touchBank h)) /\
    numberActiveTouches h' = numberActiveTouches h /\
    indexOfSingleActiveTouch h' = indexOfSingleActiveTouch h /\
    mostRecentTimeStamp h' = if u t (bank_get i (touchBank h)) is Some _
      then timestampForTouch t else mostRecentTimeStamp h.

Lemma record_for_touch t i h f : identifier t = Some i ->
  record_for (ATouch t) f h = f t i (bank_get i (touchBank h)) h.
Proof. intros E. unfold record_for, getTouchIdentifier. cbn. by rewrite E. Qed.
Lemma put_recent i r t h : (do! put i r; recent t) h =
  (Ret tt, set_mostRecentTimeStamp (timestampForTouch t) (set_touchBank (bank_set i r (touchBank h)) h)).
Proof. done. Qed.

Lemma recordTouchStart_records : records (recorded topTouchStart) recordTouchStart.
Proof.
  intros t i h E. unfold recordTouchStart. rewrite record_for_touch with (i := i) by done.
  destruct (bank_get i (touchBank h)) eqn:B; rewrite put_recent; eexists; split_and!; try done;
    intros j; apply bank_get_set.
Qed.
Lemma advance_records active f :
  (forall x, f x = record_for x (fun t i r => match r with
     | Some r => do! put i (advance active t r); recent t | None => ret tt end)) ->
  records (fun x r => advance active x <$> r) f.
Proof.
  intros Hf t i h E. rewrite Hf, record_for_touch with (i := i) by done.
  destruct (bank_get i (touchBank h)) eqn:B; [rewrite put_recent|]; eexists; split_and!; try done; intros j.
  - apply bank_get_set.
  - case_decide; [by subst|done].
Qed.
Lemma recordTouchMove_records : records (recorded topTouchMove) recordTouchMove.
Proof. by apply (advance_records true). Qed.
Lemma recordTouchEnd_records : records (recorded topTouchEnd) recordTouchEnd.
Proof. by apply (advance_records false). Qed.

Lemma ids_cons_touch t i l : identifier t = Some i -> ids (ATouch t :: l) = i :: ids l.
Proof. intros E. unfold ids. cbn. by rewrite E. Qed.
Lemma touch_with_cons t i l j : identifier t = Some i ->
  touch_with j (ATouch t :: l) = if decide (j = i) then Some t else touch_with j l.
Proof.
  intros E. unfold touch_with. cbn. repeat case_decide; try done; congruence.
Qed.
Lemma touch_with_None i l : i ∉ ids l -> touch_with i l = None.
Proof.
  intros Hi. unfold touch_with. rewrite filter_none; [done|].
  intros t Ht E. apply Hi. apply list_elem_of_omap in Ht as (x & Hx & Ex).
  apply list_elem_of_omap. exists x. by rewrite Ex.
Qed.
Lemma touch_with_Some i l : Forall (fun x => is_Some (the_touch x ≫= identifier)) l ->
  i ∈ ids l -> is_Some (touch_with i l).
Proof.
  induction 1 as [|x l [k Hx] _ IH]; [by intros ?%not_elem_of_nil|].
  destruct x as [t| |]; cbn in Hx; try done.
  rewrite (ids_cons_touch _ _ _ Hx), (touch_with_cons _ _ _ _ Hx), elem_of_cons.
  case_decide; [by eexists|]. by intros [|]; [|apply IH].
Qed.

(** The loop over the changed touches: every record is changed by the touch with its
    identifier. *)
Lemma for_each_records u f l h : records u f -> proper_touches l ->
  exists h', for_each l f h = (Ret tt, h') /\
    (forall j, bank_get j (touchBank h') =
       match touch_with j l with
       | Some t => u t (bank_get j (touchBank h))
       | None => bank_get j (touchBank h)
       end) /\
    numberActiveTouches h' = numberActiveTouches h /\
    indexOfSingleActiveTouch h' = indexOfSingleActiveTouch h.
Proof.
  intros Hf [HF HN]. revert h HN. induction HF as [|x l [i Hx] HF IH]; intros h HN; cbn; [by eexists|].
  destruct x as [t| |]; cbn in Hx; try done.
  rewrite (ids_cons_touch _ _ _ Hx) in HN. apply NoDup_cons in HN as [Hi HN].
  destruct (Hf t i h Hx) as (h1 & E1 & B1 & N1 & I1 & _).
  destruct (IH h1 HN) as (h' & E' & B' & N' & I'). exists h'.
  rewrite (bind_of _ _ _ _ _ E1). split_and!; [done| |congruence..].
  intros j. rewrite B', (touch_with_cons _ _ _ _ Hx), B1. case_decide as D; [subst|done].
  by rewrite touch_with_None.
Qed.

(** ** The store follows the fingers

    [conforms t A e A']: an event of native takes the set [A] of fingers on the screen
    to [A'].  [receiveTouches] delivers an event once for each changed touch, so a start
    may name fingers that are already in [A], an end fingers that have left it. *)
Definition finger_set (l : list slot) : gset nat := list_to_set (ids l).
Definition conforms (t : topLevelType) (A : gset nat) (e : nativeEvent) (A' : gset nat) : Prop :=
  if isMoveish t then proper_touches (changedTouches e) /\ finger_set (changedTouches e) ⊆ A /\ A' = A
  else if isStartish t || isEndish t then
    proper_touches (changedTouches e) /\
    (exists l, touches e = Some l /\ proper_touches l /\ finger_set l = A') /\
    A' = (if isStartish t then A ∪ finger_set (changedTouches e) else A ∖ finger_set (changedTouches e))
  else A' = A.

Definition active (h : touchHistory) (i : nat) : bool := is_active (bank_get i (touchBank h)).
Record follows (A : gset nat) (h : touchHistory) : Prop := {
  fo_active : forall i, active h i = true <-> i ∈ A;
  fo_number : numberActiveTouches h = size A;
  fo_single : size A = 1 -> exists i, indexOfSingleActiveTouch h = Some i /\ i ∈ A
}.

Lemma follows_init : follows ∅ init.
Proof. split; [|done|done]. intros i. unfold active, bank_get. cbn. split; [done|]. by intros ?%not_elem_of_empty. Qed.

Lemma proper_length l : proper_touches l -> length l = size (finger_set l).
Proof.
  intros [HF HN]. unfold finger_set. rewrite size_list_to_set by done. clear HN.
  induction HF as [|x l [i Hx] _ IH]; [done|]. cbn. rewrite IH. unfold ids. cbn. by rewrite Hx.
Qed.
Lemma proper_head l i : proper_touches l -> finger_set l = {[i]} ->
  exists t l', l = ATouch t :: l' /\ identifier t = Some i.
Proof.
  intros [HF _] E. destruct HF as [|x l [k Hx] HF].
  - assert (Hi : i ∈ finger_set []) by (rewrite E; set_solver). by apply not_elem_of_empty in Hi.
  - destruct x as [t| |]; cbn in Hx; try done. exists t, l. split; [done|].
    assert (Hk : k ∈ finger_set (ATouch t :: l)); [|rewrite E in Hk; set_solver].
    unfold finger_set. rewrite (ids_cons_touch _ _ _ Hx). set_solver.
Qed.

Lemma first_active_spec n a i : (is_active (bank_get i a) = true) ->
  exists j, first_active n a = Some (n + j) /\ is_active (bank_get j a) = true.
Proof.
  revert n i. induction a as [|r a IH]; intros n i Hi; [done|]. cbn.
  destruct (is_active r) eqn:E; [exists 0; rewrite Nat.add_0_r; by split|].
  destruct i as [|i]; [unfold bank_get in Hi; cbn in Hi; congruence|].
  destruct (IH (n + 1) i) as (j & Hj & Aj); [done|]. exists (1 + j). split; [|done]. rewrite Hj. f_equal. lia.
Qed.

(** What is active after the changed touches have been recorded. *)
Lemma active_recorded t A e A' h h' : follows A h -> conforms t A e A' ->
  (isMoveish t || isStartish t || isEndish t = true) ->
  (forall j, bank_get j (touchBank h') =
     match touch_with j (changedTouches e) with
     | Some x => recorded t x (bank_get j (touchBank h))
     | None => bank_get j (touchBank h)
     end) ->
  forall i, active h' i = true <-> i ∈ A'.
Proof.
  intros [HA _ _] Hc Ht HB i. unfold active in *. specialize (HA i). rewrite HB. clear HB.
  assert (HC : proper_touches (changedTouches e)).
  { unfold conforms in Hc. destruct t; cbn in *; try done; by destruct Hc. }
  destruct (decide (i ∈ finger_set (changedTouches e))) as [Hi|Hi].
  - unfold finger_set in Hi. apply elem_of_list_to_set in Hi.
    destruct (touch_with_Some i _ (proj1 HC) Hi) as [x ->].
    apply (elem_of_list_to_set (C := gset nat)) in Hi. fold (finger_set (changedTouches e)) in Hi.
    unfold recorded, conforms in *. destruct t; cbn in *; try done.
    + destruct Hc as (_ & _ & ->). set_solver.
    + destruct Hc as (_ & Hsub & ->). assert (HiA : i ∈ A) by set_solver. rewrite <- HA in HiA.
      destruct (bank_get i (touchBank h)); [|done]. cbn. set_solver.
    + destruct Hc as (_ & _ & ->). destruct (bank_get i (touchBank h)); cbn; set_solver.
    + destruct Hc as (_ & _ & ->). destruct (bank_get i (touchBank h)); cbn; set_solver.
  - rewrite touch_with_None by (unfold finger_set in Hi; by rewrite elem_of_list_to_set in Hi).
    rewrite HA. unfold conforms in Hc. destruct t; cbn in *; try done.
    + destruct Hc as (_ & _ & ->). set_solver.
    + by destruct Hc as (_ & _ & ->).
    + destruct Hc as (_ & _ & ->). set_solver.
    + destruct Hc as (_ & _ & ->). set_solver.
Qed.

Lemma size_one (A : gset nat) : size A = 1 -> exists i, A = {[i]}.
Proof. intros [i Hi]%size_1_elem_of. exists i. by apply leibniz_equiv. Qed.

Lemma recordTouchTrack_follows t A e A' h : follows A h -> conforms t A e A' ->
  exists h', recordTouchTrack t e h = (Ret tt, h') /\ follows A' h'.
Proof.
  intros Hf Hc. assert (Hact := active_recorded t A e A' h). unfold recordTouchTrack.
  destruct (isMoveish t) eqn:Em; [|destruct (isStartish t) eqn:Es; [|destruct (isEndish t) eqn:Ee]].
  - destruct t; try done. destruct Hc as (HC & Hsub & ->).
    destruct (for_each_records _ _ _ h recordTouchMove_records HC) as (h' & E & B & N & I).
    exists h'. split; [done|]. split; rewrite ?N, ?I; [by apply Hact|apply Hf..].
  - destruct t; try done. assert (Hc' := Hc). destruct Hc' as (HC & (l & El & Hl & EA) & _).
    destruct (for_each_records _ _ _ h recordTouchStart_records HC) as (h1 & E & B & N & I).
    rewrite (bind_of _ _ _ _ _ E). unfold touch_list. rewrite El, bind_ret, bind_modify.
    rewrite (proper_length _ Hl), EA. destruct (Nat.eqb_spec (size A') 1) as [E1|E1]; cbn [when].
    + destruct (size_one _ E1) as [i ->].
      destruct (proper_head _ _ Hl EA) as (x & l' & -> & Hx). cbn. rewrite Hx. eexists. split; [done|].
      split; [by apply Hact|done|]. intros _. exists i. split; [done|set_solver].
    + eexists. split; [done|]. split; [by apply Hact|done|]. intros E1'. lia.
  - assert (Hc' := Hc). unfold conforms in Hc'. rewrite Em, Ee, orb_true_r in Hc'.
    destruct Hc' as (HC & (l & El & Hl & EA) & _).
    destruct (for_each_records _ _ _ h recordTouchEnd_records HC) as (h1 & E & B & N & I).
    assert (Hact1 : forall i, active h1 i = true <-> i ∈ A').
    { apply Hact; [done..|]. intros j. rewrite B. by destruct t. }
    rewrite (bind_of _ _ _ _ _ E). unfold touch_list. rewrite El, bind_ret, bind_modify.
    rewrite (proper_length _ Hl), EA. destruct (Nat.eqb_spec (size A') 1) as [E1|E1]; cbn [when].
    + destruct (size_one _ E1) as [i Ei]. assert (Hi : i ∈ A') by (rewrite Ei; set_solver).
      apply Hact1 in Hi. destruct (first_active_spec 0 _ _ Hi) as (j & Hj & Aj). rewrite bind_gets. cbn.
      rewrite Hj. eexists. split; [done|]. split; [done|done|]. intros _. exists j. split; [done|].
      by apply Hact1.
    + eexists. split; [done|]. split; [done|done|]. intros E1'. lia.
  - exists h. split; [done|]. unfold conforms in Hc. rewrite Em, Es, Ee in Hc. cbn in Hc. by subst.
Qed.

(** C24. The store follows the fingers: whatever well-formed start, move, end or cancel
    native reports, recording it succeeds, and the active records are those of the
    fingers on the screen, [numberActiveTouches] their number, and
    [indexOfSingleActiveTouch] the only one when there is one. *)
Theorem store_follows_fingers t A e A' h : follows A h -> conforms t A e A' ->
  exists h', recordTouchTrack t e h = (Ret tt, h') /\ follows A' h'.
Proof. apply recordTouchTrack_follows. Qed.

(** ** Centroids *)

(** The records that count as moving after a time.  A single finger counts only when it
    moved strictly after it, several fingers also when they moved at that very time. *)
Definition moving (h : touchHistory) (after : Z) (r : TouchRecord) : bool :=
  touchActive r &&
  (if numberActiveTouches h =? 1 then (after <? currentTimeStamp r)%Z else (after <=? currentTimeStamp r)%Z).
Definition moved (h : touchHistory) (after : Z) : list TouchRecord :=
  filter (fun r => moving h after r = true) (omap id (touchBank h)).
Definition sum_of {A} (f : A -> Q) (l : list A) : Q := foldr (fun x s => f x + s)%Q 0%Q l.
(** The mean over a list, -1 when it is empty. *)
Definition mean {A} (f : A -> Q) (l : list A) : Q :=
  match l with [] => noCentroid | _ => (sum_of f l / inject_Z (Z.of_nat (length l)))%Q end.

#[export] Instance average_proper n : Proper (Qeq ==> Qeq) (fun q => average (q, n)).
Proof. intros p q E. unfold average. cbn. destruct n; [done|]. cbn. by rewrite E. Qed.

Lemma centroid_loop_spec after X c a total count :
  let l := filter (fun r => counts after (Some r) = true) (omap id a) in
  ((centroid_loop after X c a total count).1 == total + sum_of (coordinate X c) l)%Q /\
  (centroid_loop after X c a total count).2 = count + length l.
Proof.
  revert total count. induction a as [|[r|] a IH]; intros total count; [cbn; split; [ring|lia]| |apply IH].
  cbn [omap list_omap id centroid_loop]. rewrite filter_bool_cons. destruct (counts after (Some r)); [|apply IH].
  destruct (IH (total + coordinate X c r)%Q (count + 1)) as [E1 E2]. cbn [sum_of foldr length].
  split; [rewrite E1; unfold sum_of; ring|rewrite E2; lia].
Qed.
Lemma average_mean {A} (f : A -> Q) l : (average (sum_of f l, length l) == mean f l)%Q.
Proof. destruct l; [done|]. unfold average, mean. by cbn. Qed.

(** The only active record of the bank. *)
Lemma single_active a i r (P : TouchRecord -> bool) :
  (forall x, P x = true -> touchActive x = true) -> bank_get i a = Some r ->
  (forall j, is_active (bank_get j a) = true <-> j = i) ->
  filter (fun x => P x = true) (omap id a) = if P r then [r] else [].
Proof.
  intros HP. revert i. induction a as [|x a IH]; intros i Hi Hj; [done|].
  destruct i as [|i].
  - unfold bank_get in Hi. cbn in Hi. subst x. cbn [omap list_omap id].
    rewrite filter_bool_cons. rewrite filter_none; [done|].
    intros y Hy Py%HP. apply list_elem_of_omap in Hy as (z & Hz & Ez). cbn in Ez. subst z.
    apply list_elem_of_lookup in Hz as [k Hk].
    assert (E : S k = 0); [|done]. apply Hj.
    change (is_active (bank_get k a) = true). unfold bank_get. by rewrite Hk.
  - assert (Hrec : filter (fun x => P x = true) (omap id a) = if P r then [r] else []).
    { apply (IH i); [done|]. intros j. specialize (Hj (S j)). unfold bank_get in *. cbn in Hj.
      rewrite Hj. split; congruence. }
    destruct x as [x|]; [|done]. cbn [omap list_omap id]. rewrite filter_bool_cons.
    destruct (P x) eqn:Px; [|done]. apply HP in Px.
    assert (E : 0 = S i); [|done]. apply Hj. by unfold bank_get.
Qed.

Lemma centroid_dimension A h after X c : follows A h ->
  exists q, centroidDimension h after X c = Ret q /\ (q == mean (coordinate X c) (moved h after))%Q.
Proof.
  intros [HA HN HS]. unfold centroidDimension, moved, moving. destruct (Nat.eqb_spec (numberActiveTouches h) 1) as [E|E].
  - rewrite HN in E. destruct (HS E) as (i & -> & Hi). destruct (size_one _ E) as [k ->].
    assert (k = i) as -> by set_solver. cbn.
    destruct (bank_get i (touchBank h)) as [r|] eqn:B;
      [|apply HA in Hi; unfold active in Hi; by rewrite B in Hi].
    eexists. split; [done|].
    rewrite (single_active _ i r (fun r => touchActive r && (after <? currentTimeStamp r)%Z)); [|by intros x [? ?]%andb_true_iff|done|].
    + destruct (touchActive r && _)%bool; [|done]. unfold average, mean. cbn. field.
    + intros j. specialize (HA j). unfold active in HA. rewrite HA. set_solver.
  - eexists. split; [done|].
    destruct (centroid_loop_spec after X c (touchBank h) 0 0) as [E1 E2]. unfold counts in *.
    rewrite <- average_mean. destruct (centroid_loop _ _ _ _ _ _) as [t n]. cbn in E1, E2. subst n.
    apply average_proper. rewrite E1. apply Qplus_0_l.
Qed.

(** While the store follows the fingers, [centroidDimension] never throws, and both
    of its computations - the shortcut for one finger and the loop over the bank - are
    the mean of the current or previous coordinate over the fingers that moved. *)
Theorem centroid_is_mean A h after X c : follows A h ->
  exists q, centroidDimension h after X c = Ret q /\ (q == mean (coordinate X c) (moved h after))%Q.
Proof. apply centroid_dimension. Qed.

(** The centroid's displacement: the mean of the fingers' displacements. *)
Lemma sum_minus {A} (f g : A -> Q) l : (sum_of (fun x => f x - g x) l == sum_of f l - sum_of g l)%Q.
Proof. induction l as [|x l IH]; cbn; [ring|]. unfold sum_of in *. rewrite IH. ring. Qed.
Lemma mean_minus {A} (f g : A -> Q) l : l <> [] -> (mean (fun x => f x - g x) l == mean f l - mean g l)%Q.
Proof.
  destruct l as [|x l]; [done|]. intros _. unfold mean. rewrite sum_minus. field.
  intros E. apply (Qeq_bool_neq (inject_Z (Z.of_nat (length (x :: l)))) 0); [|done]. done.
Qed.

(** ** Instances *)
Definition a_finger (i : nat) (x : Q) (t : Z) : slot := ATouch (Build_touch (Some i) None x 0 None t).
Definition two_fingers : nativeEvent :=
  Build_nativeEvent [a_finger 3 7 5] (Some [a_finger 1 2 1; a_finger 3 7 5]) false.
Lemma one_finger_follows : follows {[1]} (final (recordTouchTrack topTouchStart
  (Build_nativeEvent [a_finger 1 2 1] (Some [a_finger 1 2 1]) false)) init).
Proof.
  split; [|by vm_compute|].
  - intros [|[|i]]; unfold active; cbn; [set_solver|split; [set_solver|done]|]. split; [by destruct i|set_solver].
  - intros _. exists 1. split; [by vm_compute|set_solver].
Qed.
Lemma store_follows_fingers_witness : exists h',
  recordTouchTrack topTouchStart two_fingers (final (recordTouchTrack topTouchStart
    (Build_nativeEvent [a_finger 1 2 1] (Some [a_finger 1 2 1]) false)) init) = (Ret tt, h') /\
  follows {[1; 3]} h'.
Proof.
  apply (store_follows_fingers topTouchStart {[1]} two_fingers {[1; 3]}); [apply one_finger_follows|].
  assert (Hp : forall l, NoDup (ids l) -> Forall (fun x => is_Some (the_touch x ≫= identifier)) l -> proper_touches l) by by split.
  split; [|split; [exists [a_finger 1 2 1; a_finger 3 7 5]; split_and!|]]; try done.
  - apply Hp; [apply NoDup_singleton|by repeat constructor].
  - apply Hp; [|by repeat constructor]. apply NoDup_cons. split; [cbn; set_solver|apply NoDup_singleton].
Defined.
Lemma centroid_is_mean_witness : exists q,
  centroidDimension (final (recordTouchTrack topTouchStart
    (Build_nativeEvent [a_finger 1 2 1] (Some [a_finger 1 2 1]) false)) init) 0 true true = Ret q /\ (q == 2)%Q.
Proof.
  destruct (centroid_is_mean {[1]} _ 0 true true one_finger_follows) as (q & E & Hq). exists q. split; [exact E|].
  rewrite Hq. by vm_compute.
Defined.
