(* ===== verification/Responder.v ===== *)
(** * The responder system

    Libraries/Renderer/implementations/ReactNativeRenderer-dev.js, from the touches that
    native reports to the listeners: [receiveTouches] and [receiveEvent], the two event
    plugins, the collection and execution of dispatches, and [ResponderEventPlugin], which
    decides the one component that responds to the touches.

    A fiber is a number; the tree of fibers, the cache of instances and their props are
    kept by the reconciler, which is not modelled: they are read from the world [W]
    through [tree_of], and the steps [Environment] change the world at will.  Listeners
    are client code over the world.  Walks up the tree take the fuel [n].  [calls]
    records the listeners called, with the event type, [native] the calls to UIManager.

    Events are values: the pool that recycles them is not modelled. *)
From S2P Require Import Prelude TouchHistory.
From stdpp Require Import base numbers list strings gmap.
Open Scope nat_scope.

(** ** Fibers and the walks up the tree *)
Record Fiber := {
  return_ : option nat;
  tag : Z;
  alternate : option nat;
  stateNode : option Z;
  type_ : string
}.
Definition HostComponent : Z := 5.

Definition rbind {A B} (r : result A) (k : A -> result B) : result B :=
  match r with Ret a => k a | Throw e => Throw e | OutOfFuel => OutOfFuel end.
Notation "'try!' x ':=' r 'in' k" := (rbind r (fun x => k))
  (at level 10, x name, r at level 100, k at level 200) : js_scope.
Definition a_TypeError : exn := JSError "TypeError".

Section walks.
Context (n : nat) (F : nat -> Fiber).

(** [do inst = inst.return; while (inst && inst.tag !== HostComponent)]. *)
Fixpoint parent_loop (fuel : nat) (inst : nat) : result (option nat) :=
  match fuel with
  | O => OutOfFuel
  | S k => match return_ (F inst) with
      | None => Ret None
      | Some p => if (tag (F p) =? HostComponent)%Z then Ret (Some p) else parent_loop k p
      end
  end.
Definition getParent (inst : nat) : result (option nat) := parent_loop n inst.

(** [for (let i = inst; i; i = getParent(i)) depth++]. *)
Fixpoint depth_of (fuel : nat) (inst : option nat) : result nat :=
  match inst, fuel with
  | None, _ => Ret 0
  | Some _, O => OutOfFuel
  | Some i, S k => try! p := getParent i in try! d := depth_of k p in Ret (S d)
  end.
(** [while (d-- > 0) inst = getParent(inst)]. *)
Fixpoint climb (d : nat) (inst : option nat) : result (option nat) :=
  match d, inst with
  | O, _ => Ret inst
  | S d', Some i => try! p := getParent i in climb d' p
  | S _, None => Throw a_TypeError
  end.
Fixpoint lockstep (depth : nat) (instA instB : option nat) : result (option nat) :=
  match depth with
  | O => Ret None
  | S d =>
      if decide (instA = instB) then Ret instA
      else match instB with
        | None => Throw a_TypeError
        | Some b =>
            if decide (instA = alternate (F b)) then Ret instA
            else match instA with
              | None => Throw a_TypeError
              | Some a => try! a' := getParent a in try! b' := getParent b in lockstep d a' b'
              end
        end
  end.
Definition getLowestCommonAncestor (instA instB : nat) : result (option nat) :=
  try! depthA := depth_of n (Some instA) in
  try! depthB := depth_of n (Some instB) in
  try! a := climb (depthA - depthB) (Some instA) in
  try! b := climb (depthB - depthA) (Some instB) in
  lockstep (depthA - (depthA - depthB)) a b.

Fixpoint ancestor_loop (fuel : nat) (instA : nat) (instB : option nat) : result bool :=
  match instB, fuel with
  | None, _ => Ret false
  | Some _, O => OutOfFuel
  | Some b, S k =>
      if decide (instA = b) then Ret true
      else if decide (Some instA = alternate (F b)) then Ret true
      else try! p := getParent b in ancestor_loop k instA p
  end.
Definition isAncestor (instA : nat) (instB : option nat) : result bool := ancestor_loop n instA instB.
Definition getParentInstance (inst : nat) : result (option nat) := getParent inst.

(** The path of [traverseTwoPhase], from the instance to the root. *)
Fixpoint path (fuel : nat) (inst : option nat) : result (list nat) :=
  match inst, fuel with
  | None, _ => Ret []
  | Some _, O => OutOfFuel
  | Some i, S k => try! p := getParent i in try! l := path k p in Ret (i :: l)
  end.
Inductive phase := Captured | Bubbled.
(** The order in which [traverseTwoPhase] calls its function. *)
Definition traverseTwoPhase (inst : option nat) : result (list (nat * phase)) :=
  try! l := path n inst in Ret (map (fun i => (i, Captured)) (rev l) ++ map (fun i => (i, Bubbled)) l).
End walks.

(** ** Chains of host ancestors *)

(** A fuel that is enough: [return] descends along a rank below it. *)
Definition well_founded_tree (n : nat) (F : nat -> Fiber) : Prop :=
  exists rank : nat -> nat, forall i, rank i < n /\ forall p, return_ (F i) = Some p -> rank p < rank i.
Definition the_result {A} (d : A) (r : result A) : A := match r with Ret a => a | _ => d end.
(** The parent and the chain of ancestors, from the instance to the root. *)
Definition parent (n : nat) (F : nat -> Fiber) (i : nat) : option nat := the_result None (getParent n F i).
Definition chain (n : nat) (F : nat -> Fiber) (i : nat) : list nat := the_result [] (path n F n (Some i)).
Definition chain_from (n : nat) (F : nat -> Fiber) (i : option nat) : list nat :=
  match i with Some i => chain n F i | None => [] end.
(** Fibers of the same instance, as the walks compare them. *)
Definition same (F : nat -> Fiber) (x y : nat) : Prop := x = y \/ Some x = alternate (F y).
#[export] Instance same_dec F x y : Decision (same F x y).
Proof. unfold same. apply _. Defined.

Section chains.
Context (n : nat) (F : nat -> Fiber) (Hwf : well_founded_tree n F).

Lemma parent_loop_ranked (rank : nat -> nat) k i :
  (forall i, rank i < n /\ forall p, return_ (F i) = Some p -> rank p < rank i) -> rank i < k ->
  exists r, parent_loop F k i = Ret r /\ forall p, r = Some p -> rank p < rank i.
Proof.
  intros Hr. revert i. induction k as [|k IH]; intros i Hk; [lia|]. cbn.
  destruct (return_ (F i)) as [p|] eqn:E; [|by eexists].
  destruct (Hr i) as [_ Hp]. specialize (Hp p E).
  destruct (tag (F p) =? HostComponent)%Z; [eexists; split; [done|by intros ? [= <-]]|].
  destruct (IH p) as (r & -> & H'); [lia|]. eexists. split; [done|]. intros q Hq. specialize (H' q Hq). lia.
Qed.
Lemma parent_ranked : exists rank : nat -> nat, forall i, rank i < n /\
  getParent n F i = Ret (parent n F i) /\ forall p, parent n F i = Some p -> rank p < rank i.
Proof.
  destruct Hwf as [rank Hr]. exists rank. intros i. split; [apply Hr|].
  destruct (parent_loop_ranked rank n i Hr) as (r & E & H'); [apply Hr|].
  unfold parent, getParent. rewrite E. by split.
Qed.
Lemma getParent_parent i : getParent n F i = Ret (parent n F i).
Proof. destruct parent_ranked as [rank H]. apply H. Qed.

Lemma path_stable (rank : nat -> nat) :
  (forall i p, parent n F i = Some p -> rank p < rank i) -> forall k k' i, rank i < k -> rank i < k' ->
  exists l, path n F k (Some i) = Ret l /\ path n F k' (Some i) = Ret l.
Proof.
  intros Hr. induction k as [|k IH]; intros k' i Hk Hk'; [lia|]. destruct k' as [|k']; [lia|]. cbn.
  rewrite getParent_parent. cbn. destruct (parent n F i) as [p|] eqn:E.
  - destruct (IH k' p) as (l & E1 & E2); [specialize (Hr i p E); lia..|]. rewrite E1, E2. by eexists.
  - exists [i]. destruct k, k'; by split.
Qed.
Lemma path_chain_k i k : n <= k -> path n F k (Some i) = Ret (chain n F i).
Proof.
  intros Hk. destruct parent_ranked as [rank H]. unfold chain.
  destruct (path_stable rank (fun i => proj2 (proj2 (H i))) k n i) as (l & -> & ->); [|apply H|done].
  apply Nat.lt_le_trans with n; [apply H|done].
Qed.
Lemma path_chain_from i : path n F n i = Ret (chain_from n F i).
Proof. destruct i; [by apply path_chain_k|]. by destruct n. Qed.
Lemma chain_unfold i : chain n F i = i :: chain_from n F (parent n F i).
Proof.
  assert (E := path_chain_k i (S n) (Nat.le_succ_diag_r n)). cbn in E. rewrite getParent_parent in E.
  cbn in E. rewrite path_chain_from in E. cbn in E. by injection E.
Qed.
Lemma chain_head i : chain n F i !! 0 = Some i.
Proof. by rewrite chain_unfold. Qed.
Lemma chain_nonempty i : 0 < length (chain n F i).
Proof. rewrite chain_unfold. cbn. lia. Qed.

(** Induction along the chain. *)
Lemma chain_ind (P : nat -> Prop) :
  (forall i, (forall p, parent n F i = Some p -> P p) -> P i) -> forall i, P i.
Proof.
  intros HP. destruct parent_ranked as [rank H]. intros i. remember (rank i) as k eqn:Ek. revert i Ek.
  induction k as [k IH] using lt_wf_ind. intros i ->. apply HP. intros p Hp. eapply IH; [|done]. by apply H.
Qed.
Lemma chain_drop i k x : chain n F i !! k = Some x -> chain n F x = drop k (chain n F i).
Proof.
  revert k. induction i as [i IH] using chain_ind. intros k. rewrite (chain_unfold i).
  destruct k as [|k]; cbn; [by intros [= ->]; rewrite chain_unfold|].
  destruct (parent n F i) as [p|]; cbn; [|done]. by apply IH.
Qed.
Lemma chain_parent i x : chain n F i !! 0 = Some i -> parent n F i = Some x -> chain n F i !! 1 = Some x.
Proof. intros _ E. rewrite chain_unfold, E. cbn. apply chain_head. Qed.
(** No fiber is its own proper ancestor. *)
Lemma chain_acyclic i k : chain n F i !! k = Some i -> k = 0.
Proof.
  intros E. apply chain_drop in E as E'. assert (El := f_equal length E'). rewrite length_drop in El.
  pose proof (chain_nonempty i). lia.
Qed.

Lemma depth_of_chain_k k i : length (chain_from n F i) <= k -> depth_of n F k i = Ret (length (chain_from n F i)).
Proof.
  revert i. induction k as [|k IH]; intros [i|]; try done; cbn [chain_from]; intros Hk.
  - pose proof (chain_nonempty i). lia.
  - rewrite chain_unfold in *. cbn in *. rewrite getParent_parent. cbn. rewrite IH by lia. done.
Qed.
Lemma chain_length i : length (chain n F i) <= n.
Proof.
  destruct parent_ranked as [rank H]. assert (Hl : forall i, length (chain n F i) <= rank i + 1).
  { intros j. induction j as [j IH] using chain_ind. rewrite chain_unfold. cbn.
    destruct (parent n F j) as [p|] eqn:E; cbn; [|lia].
    specialize (IH p eq_refl). assert (rank p < rank j) by (by apply H). lia. }
  specialize (Hl i). assert (rank i < n) by apply H. lia.
Qed.
Lemma depth_of_chain i : depth_of n F n (Some i) = Ret (length (chain n F i)).
Proof. apply (depth_of_chain_k n (Some i)), chain_length. Qed.
Lemma climb_chain d i : d <= length (chain n F i) -> climb n F d (Some i) = Ret (chain n F i !! d).
Proof.
  revert i. induction d as [|d IH]; intros i Hd; [cbn; by rewrite chain_head|]. cbn.
  rewrite getParent_parent. cbn. rewrite chain_unfold in *. cbn in *.
  destruct (parent n F i) as [p|]; cbn in *; [apply IH; lia|]. by assert (d = 0) as -> by lia.
Qed.

(** The walk of [isAncestor] looks along the chain. *)
Definition inside (a : nat) (b : option nat) : bool :=
  existsb (fun y => bool_decide (same F a y)) (chain_from n F b).
Lemma ancestor_loop_chain k a b : length (chain_from n F b) <= k ->
  ancestor_loop n F k a b = Ret (inside a b).
Proof.
  unfold inside. revert b. induction k as [|k IH]; intros [b|]; cbn [chain_from]; intros Hk;
    [pose proof (chain_nonempty b); lia|done| |done].
  rewrite chain_unfold in *. cbn in *. unfold same in *.
  destruct (decide (a = b)) as [E|E]; [by rewrite bool_decide_true by by left|].
  destruct (decide (Some a = alternate (F b))) as [E'|E']; [by rewrite bool_decide_true by by right|].
  rewrite bool_decide_false by by intros [|]. rewrite getParent_parent. cbn. apply IH. lia.
Qed.
Lemma isAncestor_inside a b : isAncestor n F a b = Ret (inside a b).
Proof. apply ancestor_loop_chain. destruct b; [apply chain_length|cbn; lia]. Qed.

(** ** The lowest common ancestor *)

(** [r] is the first of [a]'s chain that is the same as one of [b]'s chain. *)
Definition lowest_common (a b : nat) (r : option nat) : Prop :=
  match r with
  | Some x => exists i, chain n F a !! i = Some x /\
      (exists y, y ∈ chain n F b /\ same F x y) /\
      (forall j z y, j < i -> chain n F a !! j = Some z -> y ∈ chain n F b -> ~ same F z y)
  | None => forall z y, z ∈ chain n F a -> y ∈ chain n F b -> ~ same F z y
  end.
(** The two fibers of an instance have the same ancestors. *)
Definition coherent : Prop := forall x y, same F x y ->
  match parent n F x, parent n F y with
  | Some p, Some q => same F p q
  | None, None => True
  | _, _ => False
  end.

Lemma same_chains x y : coherent -> same F x y -> length (chain n F x) = length (chain n F y).
Proof.
  intros Hc. revert y. induction x as [x IH] using chain_ind. intros y Hxy. rewrite (chain_unfold x), (chain_unfold y).
  specialize (Hc x y Hxy). cbn. destruct (parent n F x) as [p|], (parent n F y) as [q|]; cbn; try done.
  f_equal. by apply IH.
Qed.

(** Two chains of the same length, in lockstep. *)
Lemma lockstep_chain d a b : length (chain_from n F a) = d -> length (chain_from n F b) = d ->
  exists r, lockstep n F d a b = Ret r /\
  match r with
  | Some x => exists i y, chain_from n F a !! i = Some x /\ chain_from n F b !! i = Some y /\ same F x y /\
      forall j z w, j < i -> chain_from n F a !! j = Some z -> chain_from n F b !! j = Some w -> ~ same F z w
  | None => forall j z w, chain_from n F a !! j = Some z -> chain_from n F b !! j = Some w -> ~ same F z w
  end.
Proof.
  revert a b. induction d as [|d IH]; intros [a|] [b|]; cbn [chain_from length]; intros Ha Hb;
    try (pose proof (chain_nonempty a); lia); try (pose proof (chain_nonempty b); lia); try done;
    [by exists None|].
  rewrite (chain_unfold a), (chain_unfold b) in *. cbn in Ha, Hb. cbn [lockstep].
  assert (Hfirst : same F a b -> exists i y, (a :: chain_from n F (parent n F a)) !! i = Some a /\
      (b :: chain_from n F (parent n F b)) !! i = Some y /\ same F a y /\
      forall j z w, j < i -> (a :: chain_from n F (parent n F a)) !! j = Some z ->
        (b :: chain_from n F (parent n F b)) !! j = Some w -> ~ same F z w).
  { intros H. exists 0, b. split_and!; try done. intros j z w Hj. lia. }
  destruct (decide (Some a = Some b)) as [[= E]|E]; [exists (Some a); split; [done|]; apply Hfirst; by left|].
  destruct (decide (Some a = alternate (F b))) as [E'|E']; [exists (Some a); split; [done|]; apply Hfirst; by right|].
  rewrite !getParent_parent. cbn [rbind].
  destruct (IH (parent n F a) (parent n F b)) as (r & -> & Hr); [lia..|]. exists r. split; [done|].
  assert (Hn : ~ same F a b) by (intros [|]; congruence).
  destruct r as [x|].
  - destruct Hr as (i & y & H1 & H2 & H3 & H4). exists (S i), y. split_and!; try done.
    intros [|j] z w Hj; cbn; [by intros [= <-] [= <-]|apply H4; lia].
  - intros [|j] z w; cbn; [by intros [= <-] [= <-]|apply Hr].
Qed.
(** What [getLowestCommonAncestor] computes: the first pair at the same depth. *)
Lemma lca_lockstep a b :
  let la := length (chain n F a) in let lb := length (chain n F b) in
  exists r, getLowestCommonAncestor n F a b = Ret r /\
  match r with
  | Some x => exists i y, chain n F a !! (la - lb + i) = Some x /\ chain n F b !! (lb - la + i) = Some y /\
      same F x y /\ forall j z w, j < i -> chain n F a !! (la - lb + j) = Some z ->
        chain n F b !! (lb - la + j) = Some w -> ~ same F z w
  | None => forall j z w, chain n F a !! (la - lb + j) = Some z ->
      chain n F b !! (lb - la + j) = Some w -> ~ same F z w
  end.
Proof.
  intros la lb. unfold getLowestCommonAncestor. rewrite !depth_of_chain. cbn [rbind]. fold la lb.
  assert (Ha : 0 < la) by apply chain_nonempty. assert (Hb : 0 < lb) by apply chain_nonempty.
  destruct (lookup_lt_is_Some_2 (chain n F a) (la - lb)) as [a' Ea]; [fold la; lia|].
  destruct (lookup_lt_is_Some_2 (chain n F b) (lb - la)) as [b' Eb]; [fold lb; lia|].
  rewrite !climb_chain by (fold la; fold lb; lia). cbn [rbind]. rewrite Ea, Eb.
  assert (Ca := chain_drop _ _ _ Ea). assert (Cb := chain_drop _ _ _ Eb).
  destruct (lockstep_chain (la - (la - lb)) (Some a') (Some b')) as (r & Er & Hr);
    [cbn; rewrite ?Ca, ?Cb, length_drop; fold la lb; lia..|].
  exists r. split; [done|]. cbn [chain_from] in Hr. rewrite Ca, Cb in Hr.
  destruct r; setoid_rewrite lookup_drop in Hr; exact Hr.
Qed.
Lemma lca_in_chain a b : exists r, getLowestCommonAncestor n F a b = Ret r /\
  forall x, r = Some x -> x ∈ chain n F a.
Proof.
  destruct (lca_lockstep a b) as (r & E & Hr). exists r. split; [done|]. intros x ->.
  destruct Hr as (i & y & Hx & _). by eapply list_elem_of_lookup_2.
Qed.
(** The order of [traverseTwoPhase]: down to the instance, then up again. *)
Definition two_phase (l : list nat) : list (nat * phase) :=
  map (fun i => (i, Captured)) (rev l) ++ map (fun i => (i, Bubbled)) l.
Lemma traverse_two_phase i : traverseTwoPhase n F i = Ret (two_phase (chain_from n F i)).
Proof. unfold traverseTwoPhase. by rewrite path_chain_from. Qed.
End chains.

(** C31. [getLowestCommonAncestor], which climbs from the deeper instance to the depth
    of the other and then walks in lockstep, returns what its comment says: the first
    ancestor of [a], [a] included, that is an ancestor of [b], [null] if there is none. *)
Theorem lca_is_lowest n F a b : well_founded_tree n F -> coherent n F ->
  exists r, getLowestCommonAncestor n F a b = Ret r /\ lowest_common n F a b r.
Proof.
  intros Hwf Hc. destruct (lca_lockstep n F Hwf a b) as (r & E & Hr). exists r. split; [done|].
  (* what is the same is as far from the root *)
  assert (Halign : forall i j z y, chain n F a !! i = Some z -> chain n F b !! j = Some y -> same F z y ->
    exists k, i = length (chain n F a) - length (chain n F b) + k /\
              j = length (chain n F b) - length (chain n F a) + k).
  { intros i j z y Hi Hj Hs. assert (El := same_chains n F Hwf _ _ Hc Hs).
    apply lookup_lt_Some in Hi as Li. apply lookup_lt_Some in Hj as Lj.
    rewrite (chain_drop n F Hwf _ _ _ Hi), (chain_drop n F Hwf _ _ _ Hj), !length_drop in El.
    exists (i - (length (chain n F a) - length (chain n F b))). lia. }
  destruct r as [x|]; cbn.
  - destruct Hr as (i & y & H1 & H2 & H3 & H4). eexists. split_and!; [done| |].
    + exists y. split; [by eapply list_elem_of_lookup_2|done].
    + intros j z w Hj Hz [k Hw]%list_elem_of_lookup Hs.
      destruct (Halign _ _ _ _ Hz Hw Hs) as (m & -> & ->). apply (H4 m z w); [lia|done..].
  - intros z w [i Hz]%list_elem_of_lookup [j Hw]%list_elem_of_lookup Hs.
    destruct (Halign _ _ _ _ Hz Hw Hs) as (m & -> & ->). by apply (Hr m z w).
Qed.

(** ** Event types *)
Inductive registration := Phased (bubbled captured : string) | Direct (registrationName : string).
Inductive event_type :=
  | startShouldSetResponder | scrollShouldSetResponder | selectionChangeShouldSetResponder
  | moveShouldSetResponder | responderStart | responderMove | responderEnd | responderRelease
  | responderTerminationRequest | responderGrant | responderReject | responderTerminate.
#[export] Instance event_type_eq_dec : EqDecision event_type.
Proof. solve_decision. Defined.
Definition eventTypes (e : event_type) : registration :=
  match e with
  | startShouldSetResponder => Phased "onStartShouldSetResponder" "onStartShouldSetResponderCapture"
  | scrollShouldSetResponder => Phased "onScrollShouldSetResponder" "onScrollShouldSetResponderCapture"
  | selectionChangeShouldSetResponder =>
      Phased "onSelectionChangeShouldSetResponder" "onSelectionChangeShouldSetResponderCapture"
  | moveShouldSetResponder => Phased "onMoveShouldSetResponder" "onMoveShouldSetResponderCapture"
  | responderStart => Direct "onResponderStart"
  | responderMove => Direct "onResponderMove"
  | responderEnd => Direct "onResponderEnd"
  | responderRelease => Direct "onResponderRelease"
  | responderTerminationRequest => Direct "onResponderTerminationRequest"
  | responderGrant => Direct "onResponderGrant"
  | responderReject => Direct "onResponderReject"
  | responderTerminate => Direct "onResponderTerminate"
  end.
(** The configuration of an event: of the responder plugin, or of a native view. *)
Inductive dispatch_config := OfResponder (e : event_type) | Custom (r : registration).
Definition registered (c : dispatch_config) : registration :=
  match c with OfResponder e => eventTypes e | Custom r => r end.

(** [null], one item or an array of items. *)
Inductive acc (A : Type) := Nothing | One (a : A) | Many (l : list A).
Arguments Nothing {A}. Arguments One {A} a. Arguments Many {A} l.
Definition acc_list {A} (c : acc A) : list A :=
  match c with Nothing => [] | One a => [a] | Many l => l end.
Definition accumulateInto {A} (current next : acc A) : result (acc A) :=
  match next, current with
  | Nothing, _ => Throw (JSError "accumulateInto(...): Accumulated items must not be null or undefined.")
  | _, Nothing => Ret next
  | Many m, Many l => Ret (Many (l ++ m))
  | One x, Many l => Ret (Many (l ++ [x]))
  | Many m, One y => Ret (Many (y :: m))
  | One x, One y => Ret (Many [y; x])
  end.
Definition accumulate {A} (current next : acc A) : result (acc A) :=
  match next, current with
  | Nothing, _ => Throw (JSError "accumulate(...): Accumulated items must not be null or undefined.")
  | _, Nothing => Ret next
  | _, Many l => Ret (Many (l ++ acc_list next))
  | Many m, One y => Ret (Many (y :: m))
  | One x, One y => Ret (Many [y; x])
  end.

(** What a listener returns, and whether the propagation of its event is stopped when
    it has returned. *)
Inductive value := VTrue | VTruthy | VFalsy.
Definition truthy (v : value) : bool := match v with VFalsy => false | _ => true end.
Record answer := { returned : value; stopped : bool }.

(** ** The state *)
Inductive prop_value (L : Type) := Falsy | Func (l : L) | NotAFunction.
Arguments Falsy {L}. Arguments Func {L} l. Arguments NotAFunction {L}.
Record Props (L : Type) := { disabled : bool; prop : string -> prop_value L }.
Arguments disabled {L}. Arguments prop {L}.
Record tree (L : Type) := {
  fiber : nat -> Fiber;
  instanceCache : gmap Z nat;
  instanceProps : gmap Z (Props L)
}.
Arguments fiber {L}. Arguments instanceCache {L}. Arguments instanceProps {L}.
Inductive native_call := SetJSResponder (tag : Z) (blockNativeResponder : bool) | ClearJSResponder.

Record event (L : Type) := {
  dispatchConfig : dispatch_config;
  targetInst : option nat;
  nativeEv : nativeEvent;
  dispatchListeners : acc L;
  dispatchInstances : acc nat
}.
Arguments dispatchConfig {L}. Arguments targetInst {L}. Arguments nativeEv {L}.
Arguments dispatchListeners {L}. Arguments dispatchInstances {L}.
Definition set_dispatches {L} (ls : acc L) (insts : acc nat) (e : event L) : event L :=
  Build_event L (dispatchConfig e) (targetInst e) (nativeEv e) ls insts.

Record st (W : Type) := {
  responderInst : option nat;
  trackedTouchCount : Z;
  history : touchHistory;
  rethrowError : option exn;
  calls : list (dispatch_config * nat);
  native : list native_call;
  world : W
}.
Arguments responderInst {W}. Arguments trackedTouchCount {W}. Arguments history {W}.
Arguments rethrowError {W}. Arguments calls {W}. Arguments native {W}. Arguments world {W}.

Section setters.
Context {W : Type}.
Definition set_responderInst x (s : st W) : st W := Build_st W x (trackedTouchCount s) (history s)
  (rethrowError s) (calls s) (native s) (world s).
Definition set_trackedTouchCount x (s : st W) : st W := Build_st W (responderInst s) x (history s)
  (rethrowError s) (calls s) (native s) (world s).
Definition set_history x (s : st W) : st W := Build_st W (responderInst s) (trackedTouchCount s) x
  (rethrowError s) (calls s) (native s) (world s).
Definition set_rethrowError x (s : st W) : st W := Build_st W (responderInst s) (trackedTouchCount s)
  (history s) x (calls s) (native s) (world s).
Definition set_calls x (s : st W) : st W := Build_st W (responderInst s) (trackedTouchCount s)
  (history s) (rethrowError s) x (native s) (world s).
Definition set_native x (s : st W) : st W := Build_st W (responderInst s) (trackedTouchCount s)
  (history s) (rethrowError s) (calls s) x (world s).
Definition set_world x (s : st W) : st W := Build_st W (responderInst s) (trackedTouchCount s)
  (history s) (rethrowError s) (calls s) (native s) x.
End setters.

Section responder.
Context {W L : Type} (tree_of : W -> tree L)
  (run_listener : L -> event L -> nat -> touchHistory -> JS W answer)
  (customBubblingEventTypes customDirectEventTypes : topLevelType -> option registration)
  (n : nat).
Abbreviation S := (st W).
Abbreviation Ev := (event L).

Definition lift {A} (r : result A) : JS S A := fun s => (r, s).
Definition the_tree (s : S) : tree L := tree_of (world s).
Definition in_history {A} (m : JS touchHistory A) : JS S A := fun s =>
  let '(r, h) := m (history s) in (r, set_history h s).
Definition in_world {A} (m : JS W A) : JS S A := fun s =>
  let '(r, w) := m (world s) in (r, set_world w s).
Definition walk {A} (f : (nat -> Fiber) -> result A) : JS S A := fun s => (f (fiber (the_tree s)), s).

(** ** Listeners *)
Definition isInteractive (t : string) : bool :=
  bool_decide (t ∈ ["button"; "input"; "select"; "textarea"])%string.
Definition shouldPreventMouseEvent (name t : string) (p : Props L) : bool :=
  if bool_decide (name ∈ ["onClick"; "onClickCapture"; "onDoubleClick"; "onDoubleClickCapture";
      "onMouseDown"; "onMouseDownCapture"; "onMouseMove"; "onMouseMoveCapture"; "onMouseUp";
      "onMouseUpCapture"; "onMouseEnter"])%string
  then disabled p && isInteractive t else false.
Definition get_listener (T : tree L) (inst : nat) (registrationName : string) : result (option L) :=
  match stateNode (fiber T inst) with
  | None => Ret None
  | Some node => match instanceProps T !! node with
      | None => Ret None
      | Some props =>
          if shouldPreventMouseEvent registrationName (type_ (fiber T inst)) props then Ret None
          else match prop props registrationName with
            | Falsy => Ret None
            | Func l => Ret (Some l)
            | NotAFunction => Throw (JSError "Expected listener to be a function")
            end
      end
  end.
Definition getListener (inst : nat) (registrationName : string) : JS S (option L) := fun s =>
  (get_listener (the_tree s) inst registrationName, s).
Definition getInstanceFromTag (t : Z) : JS S (option nat) := gets (fun s => instanceCache (the_tree s) !! t).
(** [getTagFromInstance], which returns the native instance. *)
Definition getNodeFromInstance (inst : nat) : JS S Z :=
  let! node := gets (fun s => stateNode (fiber (the_tree s) inst)) in
  match node with
  | None => TypeError
  | Some t => if (t =? 0)%Z then throw (JSError "All native instances should have a tag.") else ret t
  end.

(** ** Collecting dispatches *)
Definition getPooled (c : dispatch_config) (target : option nat) (e : nativeEvent) : Ev :=
  Build_event L c target e Nothing Nothing.
Definition add_dispatch (l : L) (inst : nat) (ev : Ev) : JS S Ev :=
  let! ls := lift (accumulateInto (dispatchListeners ev) (One l)) in
  let! insts := lift (accumulateInto (dispatchInstances ev) (One inst)) in
  ret (set_dispatches ls insts ev).
Definition listenerAtPhase (inst : nat) (bubbled captured : string) (p : phase) : JS S (option L) :=
  getListener inst (match p with Captured => captured | Bubbled => bubbled end).
Definition accumulateDirectionalDispatches (inst : nat) (bubbled captured : string) (p : phase) (ev : Ev) : JS S Ev :=
  let! listener := listenerAtPhase inst bubbled captured p in
  match listener with Some l => add_dispatch l inst ev | None => ret ev end.
Fixpoint accumulate_along (l : list (nat * phase)) (bubbled captured : string) (ev : Ev) : JS S Ev :=
  match l with
  | [] => ret ev
  | (i, p) :: l' =>
      let! ev' := accumulateDirectionalDispatches i bubbled captured p ev in
      accumulate_along l' bubbled captured ev'
  end.
Definition accumulateTwoPhaseDispatches (ev : Ev) : JS S Ev :=
  match registered (dispatchConfig ev) with
  | Phased bubbled captured =>
      let! l := walk (fun F => traverseTwoPhase n F (targetInst ev)) in
      accumulate_along l bubbled captured ev
  | Direct _ => ret ev
  end.
Definition accumulateTwoPhaseDispatchesSkipTarget (ev : Ev) : JS S Ev :=
  match registered (dispatchConfig ev) with
  | Phased bubbled captured =>
      let! parentInst := match targetInst ev with
        | Some i => walk (fun F => getParentInstance n F i)
        | None => ret None
        end in
      let! l := walk (fun F => traverseTwoPhase n F parentInst) in
      accumulate_along l bubbled captured ev
  | Direct _ => ret ev
  end.
Definition accumulateDispatches (inst : option nat) (ev : Ev) : JS S Ev :=
  match inst, registered (dispatchConfig ev) with
  | Some i, Direct name =>
      let! listener := getListener i name in
      match listener with Some l => add_dispatch l i ev | None => ret ev end
  | _, _ => ret ev
  end.
Definition accumulateDirectDispatches (ev : Ev) : JS S Ev := accumulateDispatches (targetInst ev) ev.

(** ** Executing dispatches *)
Definition call_listener (ev : Ev) (l : L) (inst : nat) : JS S answer :=
  do! modify (fun s => set_calls (calls s ++ [(dispatchConfig ev, inst)]) s);
  let! h := gets history in
  in_world (run_listener l ev inst h).
Definition invokeGuardedCallbackAndCatchFirstError (m : JS S answer) : JS S bool :=
  try_catch (let! a := m in ret (stopped a))
    (fun error => do! modify (fun s => match rethrowError s with
       | None => set_rethrowError (Some error) s
       | Some _ => s
       end); ret false).
Definition rethrowCaughtError : JS S unit :=
  let! e := gets rethrowError in
  match e with
  | Some error => do! modify (set_rethrowError None); throw error
  | None => ret tt
  end.
Definition executeDispatch (ev : Ev) (l : L) (inst : nat) : JS S bool :=
  do! getNodeFromInstance inst;
  invokeGuardedCallbackAndCatchFirstError (call_listener ev l inst).
(** The dispatches of an event; [stop] is [event.isPropagationStopped()]. *)
Fixpoint execute_in_order (ev : Ev) (stop : bool) (l : list (L * nat)) : JS S unit :=
  match l with
  | [] => ret tt
  | (f, i) :: l' =>
      if stop then ret tt
      else let! stop' := executeDispatch ev f i in execute_in_order ev stop' l'
  end.
Definition dispatches (ev : Ev) : list (L * nat) :=
  combine (acc_list (dispatchListeners ev)) (acc_list (dispatchInstances ev)).
Definition executeDispatchesInOrder (ev : Ev) : JS S unit := execute_in_order ev false (dispatches ev).
Fixpoint execute_until_true (ev : Ev) (stop : bool) (l : list (L * nat)) : JS S (option nat) :=
  match l with
  | [] => ret None
  | (f, i) :: l' =>
      if stop then ret None
      else
        let! a := call_listener ev f i in
        if truthy (returned a) then ret (Some i) else execute_until_true ev (stopped a) l'
  end.
Definition executeDispatchesInOrderStopAtTrue (ev : Ev) : JS S (option nat) :=
  execute_until_true ev false (dispatches ev).
(** Returns the listener's answer, [None] for [null], and the event without dispatches. *)
Definition executeDirectDispatch (ev : Ev) : JS S (option value * Ev) :=
  match dispatchListeners ev, dispatchInstances ev with
  | Many _, _ => throw (JSError "executeDirectDispatch(...): Invalid `event`.")
  | One l, One i =>
      do! getNodeFromInstance i;
      let! a := call_listener ev l i in
      ret (Some (returned a), set_dispatches Nothing Nothing ev)
  | One l, _ => TypeError
  | Nothing, _ => ret (None, set_dispatches Nothing Nothing ev)
  end.
Definition hasDispatches (ev : Ev) : bool :=
  match dispatchListeners ev with Nothing => false | _ => true end.

(** ** ResponderEventPlugin *)

(** [ReactNativeGlobalResponderHandler.onChange]. *)
Definition onChange (to : option nat) (blockNativeResponder : bool) : JS S unit :=
  match to with
  | Some i =>
      let! node := gets (fun s => stateNode (fiber (the_tree s) i)) in
      match node with
      | None => TypeError
      | Some t => modify (fun s => set_native (native s ++ [SetJSResponder t blockNativeResponder]) s)
      end
  | None => modify (fun s => set_native (native s ++ [ClearJSResponder]) s)
  end.
Definition changeResponder (next : option nat) (blockHostResponder : bool) : JS S unit :=
  do! modify (set_responderInst next);
  onChange next blockHostResponder.

(** An event for one instance, with its listener. *)
Definition direct_event (c : event_type) (inst : option nat) (e : nativeEvent) : JS S Ev :=
  accumulateDirectDispatches (getPooled (OfResponder c) inst e).

Definition should_set_type (t : topLevelType) : event_type :=
  if isStartish t then startShouldSetResponder
  else if isMoveish t then moveShouldSetResponder
  else match t with
    | topSelectionChange => selectionChangeShouldSetResponder
    | _ => scrollShouldSetResponder
    end.
(** The instance that wants to be the responder. *)
Definition wants_responder (t : topLevelType) (target : nat) (e : nativeEvent) : JS S (option nat) :=
  let! r := gets responderInst in
  let! bubbleShouldSetFrom := match r with
    | None => ret (Some target)
    | Some r => walk (fun F => getLowestCommonAncestor n F r target)
    end in
  let ev := getPooled (OfResponder (should_set_type t)) bubbleShouldSetFrom e in
  let! ev' := if decide (bubbleShouldSetFrom = r) then accumulateTwoPhaseDispatchesSkipTarget ev
              else accumulateTwoPhaseDispatches ev in
  executeDispatchesInOrderStopAtTrue ev'.

Definition is_true (v : option value) : bool := match v with Some VTrue => true | _ => false end.
Definition is_truthy (v : option value) : bool := match v with Some v => truthy v | None => false end.

(** The grant event, executed at once: the answer, and the event without dispatches. *)
Definition grant_responder (wants : nat) (e : nativeEvent) : JS S (option value * Ev) :=
  let! grantEvent := direct_event responderGrant (Some wants) e in executeDirectDispatch grantEvent.
(** Whether the present responder [r] lets go. *)
Definition should_switch (r : nat) (e : nativeEvent) : JS S bool :=
  let! request := direct_event responderTerminationRequest (Some r) e in
  if negb (hasDispatches request) then ret true
  else let! v := executeDirectDispatch request in ret (is_truthy (fst v)).
(** The negotiation with the present responder [r], after [wants] was granted. *)
Definition negotiate (r wants : nat) (block : bool) (grantEvent : Ev) (e : nativeEvent) : JS S (acc Ev) :=
  let! shouldSwitch := should_switch r e in
  if shouldSwitch then
    let! terminateEvent := direct_event responderTerminate (Some r) e in
    do! changeResponder (Some wants) block;
    lift (accumulate Nothing (Many [grantEvent; terminateEvent]))
  else
    let! rejectEvent := direct_event responderReject (Some wants) e in
    lift (accumulate Nothing (One rejectEvent)).
Definition setResponderAndExtractTransfer (t : topLevelType) (target : nat) (e : nativeEvent) : JS S (acc Ev) :=
  let! wantsResponderInst := wants_responder t target e in
  let! r := gets responderInst in
  match wantsResponderInst with
  | None => ret Nothing
  | Some wants =>
      if decide (wantsResponderInst = r) then ret Nothing
      else
        let! v := grant_responder wants e in
        let blockHostResponder := is_true (fst v) in
        match r with
        | Some r => negotiate r wants blockHostResponder (snd v) e
        | None =>
            do! changeResponder (Some wants) blockHostResponder;
            lift (accumulate Nothing (One (snd v)))
        end
  end.

Definition canTriggerTransfer (t : topLevelType) (inst : option nat) (e : nativeEvent) : JS S bool :=
  let! count := gets trackedTouchCount in
  ret match inst with
      | None => false
      | Some _ =>
          match t with topScroll => negb (responderIgnoreScroll e) | _ => false end
          || ((0 <? count)%Z && match t with topSelectionChange => true | _ => false end)
          || isStartish t || isMoveish t
      end.

(** The loop of [noResponderTouches]. *)
Fixpoint no_touch_inside (r : nat) (l : list slot) : JS S bool :=
  match l with
  | [] => ret true
  | ATouch x :: l' =>
      match target x with
      | Some t =>
          if (t =? 0)%Z then no_touch_inside r l'
          else
            let! i := getInstanceFromTag t in
            let! b := walk (fun F => isAncestor n F r i) in
            if b then ret false else no_touch_inside r l'
      | None => no_touch_inside r l'
      end
  | _ :: _ => TypeError
  end.
Definition noResponderTouches (r : nat) (e : nativeEvent) : JS S bool :=
  match touches e with Some l => no_touch_inside r l | None => ret true end.

(** Counts the touch; [false] for an end that was not counted. *)
Definition track (t : topLevelType) : JS S bool :=
  let! count := gets trackedTouchCount in
  if isStartish t then do! modify (set_trackedTouchCount (count + 1)%Z); ret true
  else if isEndish t then
    if (0 <=? count)%Z then do! modify (set_trackedTouchCount (count - 1)%Z); ret true else ret false
  else ret true.
Definition incremental_touch (t : topLevelType) : option event_type :=
  if isStartish t then Some responderStart
  else if isMoveish t then Some responderMove
  else if isEndish t then Some responderEnd
  else None.
(** The event of the present responder for an incremental touch. *)
Definition extract_gesture (t : topLevelType) (e : nativeEvent) (extracted : acc Ev) : JS S (acc Ev) :=
  let! r := gets responderInst in
  match r, incremental_touch t with
  | Some _, Some c =>
      let! gesture := direct_event c r e in lift (accumulate extracted (One gesture))
  | _, _ => ret extracted
  end.
Definition final_touch (t : topLevelType) (r : nat) (e : nativeEvent) : JS S (option event_type) :=
  match t with
  | topTouchCancel => ret (Some responderTerminate)
  | topTouchEnd => let! b := noResponderTouches r e in ret (if b then Some responderRelease else None)
  | _ => ret None
  end.
(** The end of the responder's time. *)
Definition extract_final (t : topLevelType) (e : nativeEvent) (extracted : acc Ev) : JS S (acc Ev) :=
  let! r := gets responderInst in
  match r with
  | None => ret extracted
  | Some i =>
      let! finalTouch := final_touch t i e in
      match finalTouch with
      | Some c =>
          let! finalEvent := direct_event c r e in
          let! extracted' := lift (accumulate extracted (One finalEvent)) in
          do! changeResponder None false;
          ret extracted'
      | None => ret extracted
      end
  end.
Definition extractEvents (t : topLevelType) (inst : option nat) (e : nativeEvent) : JS S (acc Ev) :=
  let! counted := track t in
  if counted then
    do! in_history (recordTouchTrack t e);
    let! transfer := canTriggerTransfer t inst e in
    let! extracted := match inst with
      | Some i => if transfer then setResponderAndExtractTransfer t i e else ret Nothing
      | None => ret Nothing
      end in
    let! extracted' := extract_gesture t e extracted in
    extract_final t e extracted'
  else ret Nothing.

(** ** ReactNativeBridgeEventPlugin and the top level *)
Definition bridge_extractEvents (t : topLevelType) (inst : option nat) (e : nativeEvent) : JS S (acc Ev) :=
  match inst with
  | None => ret Nothing
  | Some _ =>
      match customBubblingEventTypes t, customDirectEventTypes t with
      | Some r, _ => let! ev := accumulateTwoPhaseDispatches (getPooled (Custom r) inst e) in ret (One ev)
      | None, Some r => let! ev := accumulateDirectDispatches (getPooled (Custom r) inst e) in ret (One ev)
      | None, None => throw (JSError "Unsupported top level event type dispatched")
      end
  end.
Fixpoint extract_with (plugins : list (topLevelType -> option nat -> nativeEvent -> JS S (acc Ev)))
    (t : topLevelType) (inst : option nat) (e : nativeEvent) (events : acc Ev) : JS S (acc Ev) :=
  match plugins with
  | [] => ret events
  | p :: ps =>
      let! extracted := p t inst e in
      let! events' := match extracted with
        | Nothing => ret events
        | _ => lift (accumulateInto events extracted)
        end in
      extract_with ps t inst e events'
  end.
(** In the order of [ReactNativeEventPluginOrder]. *)
Definition extractPluginEvents (t : topLevelType) (inst : option nat) (e : nativeEvent) : JS S (acc Ev) :=
  extract_with [extractEvents; bridge_extractEvents] t inst e Nothing.
Definition runEventsInBatch (events : acc Ev) : JS S unit :=
  match events with
  | Nothing => ret tt
  | _ => do! for_each (acc_list events) executeDispatchesInOrder; rethrowCaughtError
  end.
Definition runExtractedPluginEventsInBatch (t : topLevelType) (inst : option nat) (e : nativeEvent) : JS S unit :=
  let! events := extractPluginEvents t inst e in
  runEventsInBatch events.
(** [rootNodeID] is [None] for [null], for which there is no instance. *)
Definition _receiveRootNodeIDEvent (rootNodeID : option Z) (t : topLevelType) (e : nativeEvent) : JS S unit :=
  let! inst := match rootNodeID with Some id => getInstanceFromTag id | None => ret None end in
  runExtractedPluginEventsInBatch t inst e.
Definition receiveEvent (rootNodeID : Z) (t : topLevelType) (e : option nativeEvent) : JS S unit :=
  _receiveRootNodeIDEvent (Some rootNodeID) t (default EMPTY_NATIVE_EVENT e).

(** [touches[i]]; [touches[i] = null], which leaves holes beyond the end. *)
Definition slot_at (i : nat) (l : list slot) : slot := default Undefined (l !! i).
Definition nullify (i : nat) (l : list slot) : list slot :=
  if i <? length l then <[i := Null]> l else l ++ replicate (i - length l) Undefined ++ [Null].
Definition is_null (x : slot) : bool := match x with Null => true | _ => false end.
Definition touchSubsequence (l : list slot) (indices : list nat) : list slot :=
  map (fun i => slot_at i l) indices.
(** The first loop: what is ripped out, and [temp]. *)
Fixpoint rip_out (temp : list slot) (indices : list nat) : list slot * list slot :=
  match indices with
  | [] => ([], temp)
  | i :: indices' =>
      let '(rippedOut, temp') := rip_out (nullify i temp) indices' in (slot_at i temp :: rippedOut, temp')
  end.
(** The ripped out touches, and [touches] as it is left: its slots that are not [null]. *)
Definition removeTouchesAtIndices (l : list slot) (indices : list nat) : list slot * list slot :=
  let '(rippedOut, temp) := rip_out l indices in (rippedOut, List.filter (fun x => negb (is_null x)) temp).

(** One of the changed touches is received as an event. *)
Definition receive_touch (t : topLevelType) (changed all : list slot) (x : slot) : JS S unit :=
  match x with
  | ATouch x =>
      let rootNodeID := match target x with
        | Some i => if (i <? 1)%Z then None else Some i
        | None => None
        end in
      _receiveRootNodeIDEvent rootNodeID t (Build_nativeEvent changed (Some all) false)
  | _ => TypeError
  end.
Definition receiveTouches (t : topLevelType) (l : list slot) (changedIndices : list nat) : JS S unit :=
  let '(changed, all) := if isEndish t then removeTouchesAtIndices l changedIndices
                         else (touchSubsequence l changedIndices, l) in
  for_each changed (receive_touch t changed all).

(** ** Runs: calls of native, and changes of the world by the rest of the program.  An
    error that a call throws is reported by the message queue. *)
Inductive op :=
  | ReceiveEvent (rootNodeID : Z) (t : topLevelType) (e : option nativeEvent)
  | ReceiveTouches (t : topLevelType) (l : list slot) (changedIndices : list nat)
  | Environment (w : W).
Definition run_op (o : op) : JS S unit :=
  match o with
  | ReceiveEvent id t e => receiveEvent id t e
  | ReceiveTouches t l changed => receiveTouches t l changed
  | Environment w => modify (set_world w)
  end.
Definition run_ops (ops : list op) (s : S) : S := foldl (fun s o => final (run_op o) s) s ops.
Definition init_responder (w : W) : S := Build_st W None 0 TouchHistory.init None [] [] w.
End responder.
