(* ===== verification/ResponderProtocol.v ===== *)
(** * The responder system: who is the responder, and what its handlers see

    Theorems about Responder.v.  [reads] is the protocol of one component: what its
    handlers may be called with, in which order. *)
From S2P Require Import Prelude TouchHistory Responder.
From stdpp Require Import base numbers list strings gmap.
From Stdlib Require Import QArith.
Open Scope nat_scope.

Lemma combine_snoc {A B} (l : list A) (l' : list B) a b :
  length l = length l' -> combine (l ++ [a]) (l' ++ [b]) = combine l l' ++ [(a, b)].
Proof. revert l'. induction l as [|x l IH]; intros [|y l'] E; try done. cbn. f_equal. apply IH. by injection E. Qed.

(** ** The protocol of an instance *)
Inductive standing := Idle | Granted | Active.
#[export] Instance standing_eq_dec : EqDecision standing.
Proof. solve_decision. Defined.
(** Granted, an instance is rejected, or goes through touches until it is released or
    terminated. *)
Definition react (p : standing) (e : event_type) : option standing :=
  match p, e with
  | Idle, responderGrant => Some Granted
  | Granted, responderReject => Some Idle
  | (Granted | Active), (responderStart | responderMove | responderEnd | responderTerminationRequest) =>
      Some Active
  | (Granted | Active), (responderRelease | responderTerminate) => Some Idle
  | _, _ => None
  end.
Fixpoint reads (p : standing) (l : list event_type) : option standing :=
  match l with [] => Some p | e :: l' => react p e ≫= fun p' => reads p' l' end.
Lemma rp_reads_app p l l' : reads p (l ++ l') = reads p l ≫= fun p' => reads p' l'.
Proof. revert p. induction l as [|e l IH]; intros p; [done|]. cbn. destruct (react p e); [apply IH|done]. Qed.

Definition is_direct (e : event_type) : bool := match eventTypes e with Direct _ => true | _ => false end.
(** The calls of the direct handlers of [i]. *)
Definition seen_by (i : nat) (l : list (dispatch_config * nat)) : list event_type :=
  omap (fun c => match c with
    | (OfResponder e, j) => if decide (j = i) then if is_direct e then Some e else None else None
    | (Custom _, _) => None
    end) l.
Lemma seen_by_app i l l' : seen_by i (l ++ l') = seen_by i l ++ seen_by i l'.
Proof. apply omap_app. Qed.

Section protocol.
Context {W L : Type} (tree_of : W -> tree L)
  (run_listener : L -> event L -> nat -> touchHistory -> JS W answer)
  (customBubblingEventTypes customDirectEventTypes : topLevelType -> option registration)
  (n : nat).
Abbreviation S := (st W).
Abbreviation Ev := (event L).

(** What the system relies on: the tree of fibers is a tree of height [n], a mounted
    instance keeps its native tag, props of handlers are functions, native reports known
    events, handlers terminate, and those that answer a negotiation do not throw. *)
Record well_behaved : Prop := {
  wb_tree : forall w, well_founded_tree n (fiber (tree_of w));
  wb_mounted : forall w i t, stateNode (fiber (tree_of w) i) = Some t ->
    t <> 0%Z /\ forall w', stateNode (fiber (tree_of w') i) = Some t;
  wb_props : forall w i name, exists l, get_listener (tree_of w) i name = Ret l;
  wb_known : forall t, customBubblingEventTypes t = None -> customDirectEventTypes t <> None;
  wb_answers : forall l ev i h w,
    dispatchConfig ev = OfResponder responderGrant \/
    dispatchConfig ev = OfResponder responderTerminationRequest ->
    exists a, outcome (run_listener l ev i h) w = Ret a;
  wb_terminates : forall l ev i h, terminates (run_listener l ev i h)
}.
Context (wb : well_behaved).

Definition mounted (i : nat) : Prop := exists t, forall w, stateNode (fiber (tree_of w) i) = Some t /\ t <> 0%Z.
Definition listener_of (w : W) (i : nat) (name : string) : option L :=
  the_result None (get_listener (tree_of w) i name).
Lemma get_listener_of w i name : get_listener (tree_of w) i name = Ret (listener_of w i name).
Proof. unfold listener_of. by destruct (wb_props wb w i name) as [l ->]. Qed.
Lemma getListener_spec i name (s : S) :
  getListener tree_of i name s = (Ret (listener_of (world s) i name), s).
Proof. unfold getListener, the_tree. by rewrite get_listener_of. Qed.
Lemma listener_mounted w i name l : listener_of w i name = Some l -> mounted i.
Proof.
  unfold listener_of, get_listener. destruct (stateNode (fiber (tree_of w) i)) as [t|] eqn:E; [|done].
  intros _. exists t. destruct (wb_mounted wb w i t E). split; auto.
Qed.

Lemma bind_walk {A B} (f : (nat -> Fiber) -> result A) (k : A -> JS S B) s a :
  f (fiber (tree_of (world s))) = Ret a -> bind (walk tree_of f) k s = k a s.
Proof. intros E. apply bind_of. unfold walk, the_tree. by rewrite E. Qed.

(** ** Collecting dispatches *)
Definition called (ev : Ev) (l : list (L * nat)) : list (dispatch_config * nat) :=
  map (fun d => (dispatchConfig ev, d.2)) l.
Definition name_at (bubbled captured : string) (p : phase) : string :=
  match p with Captured => captured | Bubbled => bubbled end.
(** The listeners along a traversal. *)
Definition collected (w : W) (l : list (nat * phase)) (bubbled captured : string) : list (L * nat) :=
  omap (fun x => (fun f => (f, x.1)) <$> listener_of w x.1 (name_at bubbled captured x.2)) l.

(** The two accumulations of an event go together. *)
Definition aligned (ev : Ev) : Prop :=
  match dispatchListeners ev, dispatchInstances ev with
  | Nothing, Nothing | One _, One _ => True
  | Many l, Many l' => length l = length l'
  | _, _ => False
  end.
Lemma add_dispatch_spec f i ev (s : S) : aligned ev -> exists ev',
  add_dispatch f i ev s = (Ret ev', s) /\ aligned ev' /\ dispatchConfig ev' = dispatchConfig ev /\
  dispatches ev' = dispatches ev ++ [(f, i)].
Proof.
  unfold aligned, add_dispatch, dispatches. intros Ha.
  destruct (dispatchListeners ev) as [|g|ls], (dispatchInstances ev) as [|j|js]; try done;
    cbn; eexists; (split; [done|]); cbn; split_and!; try done.
  - by rewrite !length_app, Ha.
  - by apply combine_snoc.
Qed.
Lemma accumulate_along_spec l bubbled captured ev (s : S) : aligned ev -> exists ev',
  accumulate_along tree_of l bubbled captured ev s = (Ret ev', s) /\ aligned ev' /\
  dispatchConfig ev' = dispatchConfig ev /\
  dispatches ev' = dispatches ev ++ collected (world s) l bubbled captured.
Proof.
  revert ev. induction l as [|[i p] l IH]; intros ev Ha; [exists ev; cbn; by rewrite app_nil_r|].
  cbn [accumulate_along]. unfold accumulateDirectionalDispatches, listenerAtPhase.
  fold (name_at bubbled captured p). rewrite bind_assoc, (bind_of _ _ _ _ _ (getListener_spec _ _ _)).
  unfold collected. cbn [omap list_omap fst snd]. fold (collected (world s) l bubbled captured).
  destruct (listener_of (world s) i (name_at bubbled captured p)) as [f|]; cbn [fmap option_fmap option_map].
  - destruct (add_dispatch_spec f i ev s Ha) as (ev1 & R1 & Ha1 & E1 & D1).
    rewrite (bind_of _ _ _ _ _ R1). destruct (IH ev1 Ha1) as (ev' & -> & Ha' & E' & D'). exists ev'. split_and!; [done..|congruence|].
    by rewrite D', D1, <- app_assoc.
  - rewrite bind_ret. apply IH, Ha.
Qed.

(** A direct event is for one listener at most. *)
Definition direct_dispatches (w : W) (c : event_type) (i : nat) : list (L * nat) :=
  match eventTypes c with
  | Direct name => match listener_of w i name with Some f => [(f, i)] | None => [] end
  | Phased _ _ => []
  end.
Record is_direct_event (w : W) (c : event_type) (i : nat) (ev : Ev) : Prop := {
  de_config : dispatchConfig ev = OfResponder c;
  de_target : targetInst ev = Some i;
  de_aligned : aligned ev;
  de_dispatches : dispatches ev = direct_dispatches w c i;
  de_single : match dispatchListeners ev with Many _ => False | _ => True end
}.
Lemma direct_event_spec c i e (s : S) : exists ev,
  direct_event tree_of c (Some i) e s = (Ret ev, s) /\ is_direct_event (world s) c i ev.
Proof.
  unfold direct_event, accumulateDirectDispatches, accumulateDispatches. cbn.
  assert (Hd := eq_refl (direct_dispatches (world s) c i)). unfold direct_dispatches at 2 in Hd.
  destruct (eventTypes c) as [b x|name]; [eexists; split; [done|]; by split|].
  rewrite (bind_of _ _ _ _ _ (getListener_spec _ _ _)). destruct (listener_of (world s) i name) as [f|]; cbn; eexists; (split; [done|]); by split.
Qed.
Lemma direct_mounted w c i : Forall (fun d => mounted d.2) (direct_dispatches w c i).
Proof.
  unfold direct_dispatches. destruct (eventTypes c); [done|].
  destruct (listener_of w i registrationName) eqn:E; [|done]. constructor; [|done]. by eapply listener_mounted.
Qed.

(** ** Calling listeners

    [ran cs s s']: from [s] to [s'] the listeners [cs] have been called, and nothing of
    the responder's state has changed. *)
Record ran (cs : list (dispatch_config * nat)) (s s' : S) : Prop := {
  ra_calls : calls s' = calls s ++ cs;
  ra_responder : responderInst s' = responderInst s;
  ra_native : native s' = native s;
  ra_history : history s' = history s;
  ra_count : trackedTouchCount s' = trackedTouchCount s
}.
Lemma ran_refl s : ran [] s s.
Proof. split; try done. by rewrite app_nil_r. Qed.
Lemma ran_trans cs cs' s s1 s' : ran cs s s1 -> ran cs' s1 s' -> ran (cs ++ cs') s s'.
Proof. intros [A1 A2 A3 A4 A5] [B1 B2 B3 B4 B5]. split; try congruence. by rewrite B1, A1, <- app_assoc. Qed.

Lemma call_spec ev f i s : exists r s', call_listener run_listener ev f i s = (r, s') /\
  r <> OutOfFuel /\ ran [(dispatchConfig ev, i)] s s' /\
  (dispatchConfig ev = OfResponder responderGrant \/
   dispatchConfig ev = OfResponder responderTerminationRequest -> exists a, r = Ret a).
Proof.
  unfold call_listener. rewrite bind_modify, bind_gets. unfold in_world. cbn.
  assert (Ha := wb_answers wb f ev i (history s) (world s)).
  assert (Ht := wb_terminates wb f ev i (history s) (world s)). unfold outcome in Ha, Ht.
  destruct (run_listener f ev i (history s) (world s)) as [r w'].
  exists r. eexists. split; [done|]. split; [done|]. split; [by split|done].
Qed.
Lemma node_spec i s : mounted i -> exists t, getNodeFromInstance tree_of i s = (Ret t, s).
Proof.
  intros [t Ht]. exists t. unfold getNodeFromInstance, the_tree. rewrite bind_gets.
  destruct (Ht (world s)) as [-> Hne]. by destruct (Z.eqb_spec t 0).
Qed.

Lemma executeDirectDispatch_spec c i ev w s : is_direct_event w c i ev ->
  (c = responderGrant \/ c = responderTerminationRequest) ->
  exists v ev' s', executeDirectDispatch tree_of run_listener ev s = (Ret (v, ev'), s') /\
    ran (called ev (dispatches ev)) s s' /\ dispatches ev' = [] /\ dispatchConfig ev' = OfResponder c.
Proof.
  intros [Hc _ Ha Hd Hs] Hw. assert (Hm := direct_mounted w c i). rewrite <- Hd in Hm.
  unfold executeDirectDispatch, called, dispatches, aligned in *.
  destruct (dispatchListeners ev) as [|f|ls], (dispatchInstances ev) as [|j|js]; try done; cbn in *.
  - eexists _, _, _. split; [done|]. split; [apply ran_refl|done].
  - apply Forall_cons in Hm as [Hm _]. cbn in Hm. destruct (node_spec _ s Hm) as [t E].
    rewrite (bind_of _ _ _ _ _ E). destruct (call_spec ev f j s) as (r & s' & E' & _ & Hr & Hret).
    destruct Hret as [a ->]; [rewrite Hc; destruct Hw; subst; auto|].
    rewrite (bind_of _ _ _ _ _ E'). eexists _, _, _. split; [done|]. by split_and!.
Qed.

Lemma execute_until_true_spec ev stop l s : exists r s' k,
  execute_until_true run_listener ev stop l s = (r, s') /\ r <> OutOfFuel /\
  ran (called ev (take k l)) s s' /\
  (forall j, r = Ret (Some j) -> exists f k', k = k' + 1 /\ l !! k' = Some (f, j)).
Proof.
  revert stop s. induction l as [|[f i] l IH]; intros stop s; cbn [execute_until_true].
  { exists (Ret None), s, 0. split_and!; try done. apply ran_refl. }
  destruct stop; [exists (Ret None), s, 0; split_and!; try done; apply ran_refl|].
  destruct (call_spec ev f i s) as (r & s1 & E & Hne & Hr & _). destruct r as [a|e|]; [| |done].
  - rewrite (bind_of _ _ _ _ _ E). destruct (truthy (returned a)).
    + exists (Ret (Some i)), s1, 1. split_and!; try done. intros j [= ->]. by exists f, 0.
    + destruct (IH (stopped a) s1) as (r & s' & k & E' & Hne' & Hr' & Hj). exists r, s', (k + 1).
      rewrite Nat.add_comm. split_and!; try done; [by apply (ran_trans [(dispatchConfig ev, i)] _ _ _ _ Hr Hr')|].
      intros j Ej. destruct (Hj j Ej) as (g & k' & -> & Hl). exists g, (1 + k'). split; [lia|done].
  - rewrite (bind_throws _ _ _ _ _ E). exists (Throw e), s1, 1. by split_and!.
Qed.

Lemma execute_in_order_spec ev stop l s : Forall (fun d => mounted d.2) l -> exists s' k,
  execute_in_order tree_of run_listener ev stop l s = (Ret tt, s') /\
  ran (called ev (take k l)) s s' /\ (stop = false -> min 1 (length l) <= k).
Proof.
  intros Hm. revert stop s. induction Hm as [|[f i] l Hi Hm IH]; intros stop s; cbn [execute_in_order].
  { exists s, 0. split_and!; try done. apply ran_refl. }
  destruct stop; [exists s, 0; split_and!; try done; apply ran_refl|].
  unfold executeDispatch. rewrite bind_assoc. destruct (node_spec _ s Hi) as [t E].
  rewrite (bind_of _ _ _ _ _ E). unfold invokeGuardedCallbackAndCatchFirstError.
  destruct (call_spec ev f i s) as (r & s1 & E' & Hne & Hr & _).
  assert (Hg : exists b s2, try_catch (let! a := call_listener run_listener ev f i in ret (stopped a))
    (fun error => do! modify (fun s => match rethrowError s with
       | None => set_rethrowError (Some error) s
       | Some _ => s
       end); ret false) s = (Ret b, s2) /\ ran [(dispatchConfig ev, i)] s s2).
  { unfold try_catch, bind. rewrite E'. destruct r as [a|e|]; [by eexists _, _| |done].
    cbn. destruct (rethrowError s1); eexists _, _; (split; [done|]); [done|]. by destruct Hr; split. }
  destruct Hg as (b & s2 & E2 & Hr2). rewrite (bind_of _ _ _ _ _ E2).
  destruct (IH b s2) as (s' & k & -> & Hr' & _). exists s', (k + 1). rewrite (Nat.add_comm k).
  split_and!; [done|by apply (ran_trans [(dispatchConfig ev, i)] _ _ _ _ Hr2 Hr')|cbn; lia].
Qed.

(** ** Who is asked, and who wants *)

(** The instances asked, from the deepest to the root: the ancestors of the target, or
    when there is a responder [r], the ancestors of the first common ancestor, [r] itself
    excluded. *)
Definition candidates (w : W) (r : option nat) (target : nat) : list nat :=
  let F := fiber (tree_of w) in
  match r with
  | None => chain n F target
  | Some r =>
      let from := the_result None (getLowestCommonAncestor n F r target) in
      if decide (from = Some r) then chain_from n F (parent n F r) else chain_from n F from
  end.
Lemma candidates_above w r target j : j ∈ candidates w (Some r) target ->
  j ∈ tail (chain n (fiber (tree_of w)) r).
Proof.
  assert (Hwf := wb_tree wb w). unfold candidates. set (F := fiber (tree_of w)) in *. rewrite (chain_unfold n F Hwf r). cbn [tail].
  destruct (lca_in_chain n F Hwf r target) as (x & -> & Hx). cbn.
  case_decide as D; [done|]. destruct x as [x|]; [|by intros ?%not_elem_of_nil]. cbn.
  specialize (Hx x eq_refl). rewrite (chain_unfold n F Hwf r) in Hx.
  apply elem_of_cons in Hx as [->|Hx]; [done|]. destruct (parent n F r) as [p|]; [|by apply not_elem_of_nil in Hx].
  cbn in *. apply list_elem_of_lookup in Hx as [k Hk]. rewrite (chain_drop n F Hwf _ _ _ Hk).
  intros [m Hm]%list_elem_of_lookup. rewrite lookup_drop in Hm. by eapply list_elem_of_lookup_2.
Qed.
Lemma candidates_not_self w r target : r ∉ candidates w (Some r) target.
Proof.
  assert (Hwf := wb_tree wb w). intros H%candidates_above. rewrite (chain_unfold n _ Hwf) in H. cbn in H.
  apply list_elem_of_lookup in H as [k Hk].
  assert (E : Datatypes.S k = 0); [|done]. apply (chain_acyclic n _ Hwf r). rewrite (chain_unfold n _ Hwf). exact Hk.
Qed.

(** The listeners asked, in order. *)
Definition asked (w : W) (t : topLevelType) (r : option nat) (target : nat) : list (L * nat) :=
  match eventTypes (should_set_type t) with
  | Phased bubbled captured => collected w (two_phase (candidates w r target)) bubbled captured
  | Direct _ => []
  end.
Lemma elem_of_asked w t r target f j : (f, j) ∈ asked w t r target -> j ∈ candidates w r target /\ mounted j.
Proof.
  unfold asked. destruct (eventTypes (should_set_type t)) as [b c|]; [|by intros ?%not_elem_of_nil].
  unfold collected. intros ([i p] & Hx & E)%list_elem_of_omap. cbn in E.
  destruct (listener_of w i (name_at b c p)) as [g|] eqn:El; [|done]. cbn in E. injection E as <- <-.
  split; [|by eapply listener_mounted]. unfold two_phase in Hx. apply elem_of_app in Hx as [Hx|Hx];
    apply list_elem_of_fmap in Hx as (y & [= -> ->] & Hy); [|done].
  by apply list_elem_of_In, in_rev, list_elem_of_In in Hy.
Qed.

Definition should_set (t : topLevelType) : dispatch_config := OfResponder (should_set_type t).
Lemma accumulate_two_phase_spec t inst e (s : S) : exists ev,
  accumulateTwoPhaseDispatches tree_of n (getPooled (should_set t) inst e) s = (Ret ev, s) /\
  dispatchConfig ev = should_set t /\
  forall b c, eventTypes (should_set_type t) = Phased b c ->
    dispatches ev = collected (world s) (two_phase (chain_from n (fiber (tree_of (world s))) inst)) b c.
Proof.
  unfold accumulateTwoPhaseDispatches. cbn.
  destruct (eventTypes (should_set_type t)) as [b c|] eqn:E; [|by eexists].
  rewrite (bind_walk _ _ _ _ (traverse_two_phase n _ (wb_tree wb (world s)) inst)).
  destruct (accumulate_along_spec (two_phase (chain_from n (fiber (tree_of (world s))) inst)) b c
    (getPooled (should_set t) inst e) s I) as (ev & -> & _ & Hc & Hd).
  exists ev. split_and!; [done..|]. by intros ?? [= <- <-].
Qed.
Lemma skip_target_parent t i e (s : S) :
  accumulateTwoPhaseDispatchesSkipTarget tree_of n (getPooled (should_set t) (Some i) e) s =
  match eventTypes (should_set_type t) with
  | Phased b c => (let! l := walk tree_of (fun F => traverseTwoPhase n F (parent n (fiber (tree_of (world s))) i)) in
      accumulate_along tree_of l b c (getPooled (should_set t) (Some i) e)) s
  | Direct _ => (Ret (getPooled (should_set t) (Some i) e), s)
  end.
Proof.
  unfold accumulateTwoPhaseDispatchesSkipTarget. cbn. destruct (eventTypes (should_set_type t)); [|done].
  by rewrite (bind_walk _ _ _ _ (getParent_parent n _ (wb_tree wb (world s)) i)).
Qed.
Lemma accumulate_skip_spec t i e (s : S) : exists ev,
  accumulateTwoPhaseDispatchesSkipTarget tree_of n (getPooled (should_set t) (Some i) e) s = (Ret ev, s) /\
  dispatchConfig ev = should_set t /\
  forall b c, eventTypes (should_set_type t) = Phased b c ->
    dispatches ev = collected (world s) (two_phase (chain_from n (fiber (tree_of (world s)))
      (parent n (fiber (tree_of (world s))) i))) b c.
Proof.
  rewrite skip_target_parent. destruct (eventTypes (should_set_type t)) as [b c|] eqn:E; [|by eexists].
  rewrite (bind_walk _ _ _ _ (traverse_two_phase n _ (wb_tree wb (world s)) _)).
  destruct (accumulate_along_spec (two_phase (chain_from n (fiber (tree_of (world s)))
    (parent n (fiber (tree_of (world s))) i))) b c
    (getPooled (should_set t) (Some i) e) s I) as (ev & -> & _ & Hc & Hd).
  exists ev. split_and!; [done..|]. by intros ?? [= <- <-].
Qed.
Lemma should_set_phased t : exists b c, eventTypes (should_set_type t) = Phased b c.
Proof. unfold should_set_type. destruct t; cbn; by eexists _, _. Qed.

Lemma wants_spec t target e s : exists r s' k,
  wants_responder tree_of run_listener n t target e s = (r, s') /\ r <> OutOfFuel /\
  ran (map (fun d => (should_set t, d.2)) (take k (asked (world s) t (responderInst s) target))) s s' /\
  (forall j, r = Ret (Some j) ->
     exists f k', k = k' + 1 /\ asked (world s) t (responderInst s) target !! k' = Some (f, j)).
Proof.
  destruct (should_set_phased t) as (b & c & Ht). unfold wants_responder. rewrite bind_gets.
  assert (Hdone : forall ev, dispatchConfig ev = should_set t ->
    dispatches ev = asked (world s) t (responderInst s) target -> exists r s' k,
    executeDispatchesInOrderStopAtTrue run_listener ev s = (r, s') /\ r <> OutOfFuel /\
    ran (map (fun d => (should_set t, d.2)) (take k (asked (world s) t (responderInst s) target))) s s' /\
    (forall j, r = Ret (Some j) ->
       exists f k', k = k' + 1 /\ asked (world s) t (responderInst s) target !! k' = Some (f, j))).
  { intros ev Hc Hd. destruct (execute_until_true_spec ev false (dispatches ev) s) as (r & s' & k & E & Hne & Hr & Hj).
    exists r, s', k. unfold called in Hr. rewrite Hc, Hd in Hr. rewrite Hd in Hj. by split_and!. }
  unfold asked in *. rewrite Ht in *. unfold candidates in *.
  destruct (responderInst s) as [r|].
  - destruct (lca_in_chain n _ (wb_tree wb (world s)) r target) as (x & Ex & _).
    rewrite (bind_walk (fun F => getLowestCommonAncestor n F r target) _ _ _ Ex). rewrite Ex in Hdone |- *. cbn [the_result] in *.
    destruct (decide (x = Some r)) as [->|D].
    + destruct (accumulate_skip_spec t r e s) as (ev & E & Hc & Hd). rewrite (bind_of _ _ _ _ _ E). auto.
    + destruct (accumulate_two_phase_spec t x e s) as (ev & E & Hc & Hd). rewrite (bind_of _ _ _ _ _ E). auto.
  - rewrite bind_ret. destruct (decide (Some target = None)); [done|].
    destruct (accumulate_two_phase_spec t (Some target) e s) as (ev & E & Hc & Hd). rewrite (bind_of _ _ _ _ _ E). auto.
Qed.

(** ** The invariant

    [on_course i s l]: if [i] has the handlers that open and close the protocol, with the calls [l] still to come, the calls of [i]'s direct
    handlers are a run of the protocol, and it is open exactly when [i] is the
    responder.  [synced s]: native has been told who the responder is. *)
Definition handles (i : nat) : Prop := forall w c,
  c ∈ [responderGrant; responderReject; responderRelease; responderTerminate] ->
  exists f, direct_dispatches w c i = [(f, i)].
Definition on_course (i : nat) (s : S) (l : list (dispatch_config * nat)) : Prop := handles i ->
  exists p, reads Idle (seen_by i (calls s ++ l)) = Some p /\ (p = Idle <-> responderInst s <> Some i).
Definition synced (s : S) : Prop :=
  match last (native s) with
  | Some (SetJSResponder t _) => exists j, responderInst s = Some j /\
      forall w, stateNode (fiber (tree_of w) j) = Some t
  | _ => responderInst s = None
  end.
(** The calls that deferred events will make. *)
Definition pending (evs : list Ev) : list (dispatch_config * nat) :=
  concat (map (fun ev => called ev (dispatches ev)) evs).
Definition ready (ev : Ev) : Prop :=
  Forall (fun d => mounted d.2) (dispatches ev) /\
  match dispatchConfig ev with OfResponder _ => length (dispatches ev) <= 1 | Custom _ => True end.

Lemma pending_app l l' : pending (l ++ l') = pending l ++ pending l'.
Proof. unfold pending. by rewrite map_app, concat_app. Qed.
Lemma pending_cons ev l : pending (ev :: l) = called ev (dispatches ev) ++ pending l.
Proof. done. Qed.
Lemma pending_one ev : pending [ev] = called ev (dispatches ev).
Proof. apply app_nil_r. Qed.

Lemma direct_at_most_one w c i : direct_dispatches w c i = [] \/ exists f, direct_dispatches w c i = [(f, i)].
Proof. unfold direct_dispatches. destruct (eventTypes c); [by left|]. destruct (listener_of _ _ _); eauto. Qed.
Lemma direct_ready w c i ev : is_direct_event w c i ev -> ready ev.
Proof.
  intros [Hc _ _ Hd _]. unfold ready. rewrite Hc, Hd. split; [apply direct_mounted|].
  destruct (direct_at_most_one w c i) as [->|[f ->]]; cbn; lia.
Qed.
(** What [i] hears of a direct event for [j]. *)
Lemma direct_seen w c j ev i : is_direct_event w c j ev -> is_direct c = true ->
  seen_by i (called ev (dispatches ev)) = [] \/
  (j = i /\ seen_by i (called ev (dispatches ev)) = [c]).
Proof.
  intros [Hc _ _ Hd _] Hdir. unfold called. rewrite Hc, Hd.
  destruct (direct_at_most_one w c j) as [->|[f ->]]; [by left|]. cbn. rewrite Hdir. case_decide; auto.
Qed.
Lemma direct_heard w c j ev i : is_direct_event w c j ev -> handles i ->
  c ∈ [responderGrant; responderReject; responderRelease; responderTerminate] ->
  seen_by i (called ev (dispatches ev)) = if decide (j = i) then [c] else [].
Proof.
  intros Hev Hh Hin. assert (Hdir : is_direct c = true) by (by repeat (apply elem_of_cons in Hin as [->|Hin]; [done|]); apply not_elem_of_nil in Hin).
  destruct (direct_seen w c j ev i Hev Hdir) as [E|[-> E]].
  - case_decide as D; [subst|done]. destruct (Hh w c Hin) as [f Hf]. destruct Hev as [Hc _ _ Hd _].
    unfold called in *. rewrite Hc, Hd, Hf in *. cbn in E. rewrite Hdir in E. by rewrite decide_True in E.
  - by rewrite decide_True.
Qed.

(** Calls that are not direct change nothing for the protocol. *)
Lemma on_course_ran i s s' cs l : ran cs s s' -> on_course i s (cs ++ l) -> on_course i s' l.
Proof. intros [E1 E2 _ _ _] Hc Hh. destruct (Hc Hh) as (p & Hp & Hi). exists p. by rewrite E1, E2, <- app_assoc. Qed.
Lemma on_course_ext i s l l' : seen_by i l = seen_by i l' -> on_course i s l -> on_course i s l'.
Proof. intros E Hc Hh. destruct (Hc Hh) as (p & Hp & Hi). exists p. rewrite seen_by_app, <- E, <- seen_by_app. by split. Qed.
Lemma ran_synced cs s s' : ran cs s s' -> synced s -> synced s'.
Proof. intros [_ E2 E3 _ _]. unfold synced. by rewrite E2, E3. Qed.
Lemma should_set_unseen i t l : seen_by i (map (fun d : L * nat => (should_set t, d.2)) l) = [].
Proof.
  induction l as [|[f j] l IH]; [done|]. cbn. unfold should_set_type. case_decide; destruct t; cbn; apply IH.
Qed.

Lemma changeResponder_spec j b s : mounted j -> exists s',
  changeResponder tree_of (Some j) b s = (Ret tt, s') /\ synced s' /\ responderInst s' = Some j /\
  calls s' = calls s /\ history s' = history s /\ trackedTouchCount s' = trackedTouchCount s /\ world s' = world s.
Proof.
  intros [t Ht]. unfold changeResponder. rewrite bind_modify. unfold onChange, the_tree. rewrite bind_gets. cbn.
  destruct (Ht (world s)) as [-> _]. eexists. split; [done|]. cbn. split_and!; try done.
  unfold synced. cbn. rewrite last_snoc. exists j. split; [done|]. intros w. apply Ht.
Qed.
Lemma changeResponder_null b s : exists s',
  changeResponder tree_of None b s = (Ret tt, s') /\ synced s' /\ responderInst s' = None /\
  calls s' = calls s /\ history s' = history s /\ trackedTouchCount s' = trackedTouchCount s /\ world s' = world s.
Proof. eexists. split; [done|]. cbn. split_and!; try done. unfold synced. cbn. by rewrite last_snoc. Qed.

(** ** The negotiation *)

(** The events extracted are ready, and leave [i] on course. *)
Definition extracts (i : nat) (s' : S) (r : result (acc Ev)) : Prop :=
  match r with
  | Ret evs => Forall ready (acc_list evs) /\ on_course i s' (pending (acc_list evs))
  | Throw _ => on_course i s' []
  | OutOfFuel => False
  end.
(** Between the grant to [j] and the answer of the present responder [r]. *)
Definition granted (i j : nat) (r : option nat) (s : S) : Prop := handles i -> exists p,
  reads Idle (seen_by i (calls s)) = Some p /\ (j = i -> p = Granted) /\
  (r = Some i -> p <> Idle) /\ (j <> i -> r <> Some i -> p = Idle).
Lemma ready_empty ev : dispatches ev = [] -> ready ev.
Proof. intros E. unfold ready. rewrite E. split; [done|]. destruct (dispatchConfig ev); cbn; [lia|done]. Qed.

Lemma granted_on_course i j r s l q : granted i j r s -> responderInst s = q ->
  (handles i -> forall p, (j = i -> p = Granted) -> (r = Some i -> p <> Idle) -> (j <> i -> r <> Some i -> p = Idle) ->
    exists p', reads p (seen_by i l) = Some p' /\ (p' = Idle <-> q <> Some i)) -> on_course i s l.
Proof.
  intros Hg <- Hl Hh. destruct (Hg Hh) as (p & Hp & H1 & H2 & H3). destruct (Hl Hh p H1 H2 H3) as (p' & Hp' & Hq).
  exists p'. by rewrite seen_by_app, rp_reads_app, Hp.
Qed.

Lemma request_spec i j r0 e s : r0 <> j -> granted i j (Some r0) s -> exists b s',
  should_switch tree_of run_listener r0 e s = (Ret b, s') /\
  (exists cs, ran cs s s') /\ granted i j (Some r0) s'.
Proof.
  intros Hne Hg. unfold should_switch. destruct (direct_event_spec responderTerminationRequest r0 e s) as (ev & E & Hev).
  rewrite (bind_of _ _ _ _ _ E). destruct (negb (hasDispatches ev)).
  { exists true, s. split_and!; [done| |done]. exists []. apply ran_refl. }
  destruct (executeDirectDispatch_spec responderTerminationRequest r0 ev _ s Hev) as (v & ev' & s' & E' & Hr & _); [by right|].
  rewrite (bind_of _ _ _ _ _ E'). exists (is_truthy v), s'. split_and!; [done|by eexists|].
  intros Hh. destruct (Hg Hh) as (p & Hp & H1 & H2 & H3). rewrite (ra_calls _ _ _ Hr), seen_by_app, rp_reads_app, Hp. cbn.
  destruct (direct_seen _ _ _ _ i Hev eq_refl) as [->|[-> ->]]; [by exists p|].
  cbn. assert (Hpi : p <> Idle) by by apply H2. destruct p; [done|..]; exists Active; by split_and!.
Qed.

Lemma granted_calls i j r s s' : calls s' = calls s -> granted i j r s -> granted i j r s'.
Proof. intros E. unfold granted. by rewrite E. Qed.

Lemma negotiate_spec i j r0 b g e s : mounted j -> r0 <> j -> responderInst s = Some r0 ->
  dispatches g = [] -> granted i j (Some r0) s -> synced s -> exists r s',
  negotiate tree_of run_listener r0 j b g e s = (r, s') /\ extracts i s' r /\
  history s' = history s /\ synced s' /\ (responderInst s' = Some r0 \/ responderInst s' = Some j).
Proof.
  intros Hm Hne Hr0 Hg0 Hg Hs. unfold negotiate.
  destruct (request_spec i j r0 e s Hne Hg) as (sw & s1 & E & (cs & Hr) & Hg1).
  rewrite (bind_of _ _ _ _ _ E). rewrite <- (ra_responder _ _ _ Hr) in Hr0. destruct sw.
  - destruct (direct_event_spec responderTerminate r0 e s1) as (tev & Et & Hev).
    rewrite (bind_of _ _ _ _ _ Et).
    destruct (changeResponder_spec j b s1 Hm) as (s2 & E2 & Hs2 & R2 & C2 & H2 & _).
    rewrite (bind_of _ _ _ _ _ E2). eexists _, _. split; [done|].
    split_and!; [|by rewrite H2; apply Hr|done|by right].
    cbn [extracts acc_list]. split; [apply Forall_cons; split; [by apply ready_empty|apply Forall_singleton; by eapply direct_ready]|].
    eapply granted_on_course; [by apply (granted_calls _ _ _ _ _ C2)|done|].
    intros Hh p P1 P2 P3. assert (Hseen := direct_heard _ _ _ _ i Hev Hh ltac:(set_solver)).
    change (acc_list (Many [g; tev])) with [g; tev]. rewrite pending_cons, Hg0, pending_one. cbn [called map app]. rewrite Hseen. case_decide as D.
    + subst. exists Idle. assert (p <> Idle) by by apply P2. destruct p; [done|..]; split; try done; by split; [congruence|].
    + exists p. split; [done|]. destruct (decide (j = i)) as [->|D']; [rewrite P1 by done; by split|].
      rewrite P3 by congruence. split; [congruence|done].
  - destruct (direct_event_spec responderReject j e s1) as (tev & Et & Hev).
    rewrite (bind_of _ _ _ _ _ Et). eexists _, _. split; [done|].
    split_and!; [|by apply Hr|by apply (ran_synced _ _ _ Hr)|by left].
    cbn [extracts acc_list]. split; [apply Forall_singleton; by eapply direct_ready|].
    change (acc_list (One tev)) with [tev]. rewrite pending_one.
    eapply granted_on_course; [done|done|].
    intros Hh p P1 P2 P3. assert (Hseen := direct_heard _ _ _ _ i Hev Hh ltac:(set_solver)). rewrite Hseen. case_decide as D.
    + subst. exists Idle. rewrite P1 by done. split; [done|]. split; [congruence|done].
    + exists p. split; [done|]. destruct (decide (r0 = i)) as [->|D']; [|by rewrite P3 by congruence; split; [congruence|]].
      split; [by intros ->; destruct P2|done].
Qed.

(** After the grant to [j], which was not the responder. *)
Lemma grant_spec i j e s : responderInst s <> Some j -> on_course i s [] -> exists v g s',
  grant_responder tree_of run_listener j e s = (Ret (v, g), s') /\
  (exists cs, ran cs s s') /\ dispatches g = [] /\ granted i j (responderInst s) s'.
Proof.
  intros Hne Hc. unfold grant_responder.
  destruct (direct_event_spec responderGrant j e s) as (ev & E & Hev). rewrite (bind_of _ _ _ _ _ E).
  destruct (executeDirectDispatch_spec responderGrant j ev _ s Hev) as (v & g & s' & E' & Hr & Hg & _); [by left|].
  exists v, g, s'. split_and!; [done|by eexists|done|]. intros Hh.
  destruct (Hc Hh) as (p & Hp & Hi). rewrite app_nil_r in Hp.
  rewrite (ra_calls _ _ _ Hr), seen_by_app, rp_reads_app, Hp, (direct_heard _ _ _ _ i Hev Hh ltac:(set_solver)).
  cbn. case_decide as D.
  - subst. assert (p = Idle) as -> by by apply Hi. exists Granted. split_and!; try done.
  - exists p. split_and!; try done; [intros Hr0 Hpi; by apply Hi in Hpi|]. intros _ Hr0. by apply Hi.
Qed.

(** Where the responder may go: to an instance that was asked. *)
Definition moves_to (w : W) (target : nat) (r r' : option nat) : Prop :=
  r' = r \/ exists j, r' = Some j /\ j ∈ candidates w r target.

Lemma transfer_spec i t target e s : on_course i s [] -> synced s -> exists r s',
  setResponderAndExtractTransfer tree_of run_listener n t target e s = (r, s') /\
  extracts i s' r /\ history s' = history s /\ synced s' /\
  moves_to (world s) target (responderInst s) (responderInst s').
Proof.
  intros Hc Hs. unfold setResponderAndExtractTransfer.
  destruct (wants_spec t target e s) as (r & s1 & k & E & Hne & Hr & Hw).
  assert (Hc1 : on_course i s1 []).
  { eapply on_course_ran; [done|]. eapply on_course_ext; [|done]. by rewrite app_nil_r, should_set_unseen. }
  assert (Hs1 := ran_synced _ _ _ Hr Hs). assert (Hh1 := ra_history _ _ _ Hr). assert (Hr1 := ra_responder _ _ _ Hr).
  assert (Hstay : moves_to (world s) target (responderInst s) (responderInst s1)) by by left.
  destruct r as [[j|]|err|]; [| |rewrite (bind_throws _ _ _ _ _ E); by exists (Throw err), s1|done];
    rewrite (bind_of _ _ _ _ _ E), bind_gets; [|by exists (Ret Nothing), s1].
  case_decide as D; [by exists (Ret Nothing), s1|].
  destruct (Hw j eq_refl) as (f & k' & _ & [Hj Hm]%list_elem_of_lookup_2%elem_of_asked).
  destruct (grant_spec i j e s1 ltac:(congruence) Hc1) as (v & g & s2 & E2 & (cs & Hr2) & Hg & Hgr).
  rewrite (bind_of _ _ _ _ _ E2). cbn [fst snd]. assert (Hs2 := ran_synced _ _ _ Hr2 Hs1).
  assert (Hh2 : history s2 = history s) by (rewrite (ra_history _ _ _ Hr2); congruence).
  assert (Hr2' := ra_responder _ _ _ Hr2). destruct (responderInst s1) as [r0|] eqn:R1.
  - destruct (negotiate_spec i j r0 (is_true v) g e s2 Hm ltac:(congruence) Hr2' Hg Hgr Hs2)
      as (r & s3 & E3 & Hx & H3 & Hs3 & Hr3).
    exists r, s3. split_and!; try done; [congruence|].
    destruct Hr3 as [->| ->]; [left; congruence|right; by exists j].
  - destruct (changeResponder_spec j (is_true v) s2 Hm) as (s3 & E3 & Hs3 & R3 & C3 & H3 & _).
    rewrite (bind_of _ _ _ _ _ E3). eexists _, s3. split; [done|]. split_and!; [|congruence|done|right; by exists j].
    cbn. split; [apply Forall_singleton; by apply ready_empty|].
    apply (on_course_ext i _ []); [unfold called; by rewrite Hg|].
    eapply granted_on_course; [by apply (granted_calls _ _ _ _ _ C3)|done|].
    intros _ p P1 P2 P3. exists p. split; [done|]. destruct (decide (j = i)) as [->|D'].
    + rewrite P1 by done. by split.
    + rewrite P3 by done. split; [congruence|done].
Qed.

(** ** The whole extraction *)
Lemma accumulate_one (evs : acc Ev) ev : exists evs', accumulate evs (One ev) = Ret evs' /\
  acc_list evs' = acc_list evs ++ [ev].
Proof. destruct evs; cbn; by eexists. Qed.
Lemma accumulateInto_list (evs evs' : acc Ev) : evs' <> Nothing ->
  exists evs'', accumulateInto evs evs' = Ret evs'' /\ acc_list evs'' = acc_list evs ++ acc_list evs'.
Proof. intros Hne. destruct evs, evs'; cbn; try done; by eexists. Qed.

Lemma gesture_spec i t e evs s : Forall ready (acc_list evs) -> on_course i s (pending (acc_list evs)) ->
  exists evs', extract_gesture tree_of t e evs s = (Ret evs', s) /\
  Forall ready (acc_list evs') /\ on_course i s (pending (acc_list evs')).
Proof.
  intros Hrd Hc. unfold extract_gesture. rewrite bind_gets.
  destruct (responderInst s) as [r|] eqn:R; [|by exists evs].
  destruct (incremental_touch t) as [c|] eqn:Et; [|by exists evs].
  destruct (direct_event_spec c r e s) as (ev & E & Hev). rewrite (bind_of _ _ _ _ _ E).
  destruct (accumulate_one evs ev) as (evs' & E' & Hl). exists evs'. unfold lift. rewrite E', Hl.
  split_and!; [done|apply Forall_app; split; [done|apply Forall_singleton; by eapply direct_ready]|].
  intros Hh. destruct (Hc Hh) as (p & Hp & Hi). rewrite pending_app, pending_one, app_assoc, seen_by_app, rp_reads_app, Hp. cbn.
  assert (Hdir : is_direct c = true) by (destruct t; cbn in Et; by simplify_eq).
  destruct (direct_seen _ _ _ _ i Hev Hdir) as [->|[-> ->]]; [by exists p|].
  assert (Hpi : p <> Idle) by (intros Hpi; apply Hi in Hpi; congruence).
  exists Active. split; [destruct t; cbn in Et; simplify_eq; by destruct p|]. split; [done|congruence].
Qed.

Lemma no_touch_inside_spec r l s : exists b, no_touch_inside tree_of n r l s = (b, s) /\ b <> OutOfFuel.
Proof.
  induction l as [|x l IH]; cbn [no_touch_inside]; [by eexists|].
  destruct x as [x| |]; [|by eexists..]. destruct (target x) as [t|]; [|done].
  destruct (t =? 0)%Z; [done|]. unfold getInstanceFromTag. rewrite bind_gets.
  rewrite (bind_walk (fun F => isAncestor n F r _) _ _ _ (isAncestor_inside n _ (wb_tree wb (world s)) _ _)).
  destruct (inside _ _ _ _); [by eexists|done].
Qed.
Lemma final_touch_spec t r e s : exists c, final_touch tree_of n t r e s = (c, s) /\ c <> OutOfFuel /\
  (c = Ret None \/ c = Ret (Some responderTerminate) \/ c = Ret (Some responderRelease) \/ exists e, c = Throw e).
Proof.
  destruct t; cbn; try (eexists; split_and!; [done|done|]; auto). unfold noResponderTouches.
  assert (Hs : exists b, match touches e with
      | Some l => no_touch_inside tree_of n r l | None => ret true end s = (b, s) /\ b <> OutOfFuel).
  { destruct (touches e); [apply no_touch_inside_spec|by eexists]. }
  destruct Hs as (b & E & Hb). destruct b as [b|err|]; [| |done].
  - rewrite (bind_of _ _ _ _ _ E). eexists. split; [done|]. destruct b; auto.
  - rewrite (bind_throws _ _ _ _ _ E). eexists. split; [done|]. split; [done|]. eauto.
Qed.

Lemma final_spec i t e evs s : Forall ready (acc_list evs) ->
  on_course i s (pending (acc_list evs)) -> (t = topTouchEnd -> on_course i s []) -> synced s -> exists r s',
  extract_final tree_of n t e evs s = (r, s') /\ extracts i s' r /\ history s' = history s /\
  synced s' /\ (responderInst s' = responderInst s \/ responderInst s' = None).
Proof.
  intros Hrd Hc Hend Hs. unfold extract_final. rewrite bind_gets.
  destruct (responderInst s) as [r|] eqn:R; [|exists (Ret evs), s; by split_and!; [|split| | |left]].
  assert (Hsame : responderInst s = Some r \/ responderInst s = None) by by left.
  destruct (final_touch_spec t r e s) as (c & E & _ & [-> | Hc']); rewrite ?R.
  { rewrite (bind_of _ _ _ _ _ E). exists (Ret evs), s. by split_and!. }
  destruct Hc' as [Hc'|[Hc'|[err ->]]].
  3: { rewrite (bind_throws _ _ _ _ _ E). exists (Throw err), s. split_and!; try done. apply Hend. by destruct t. }
  all: subst c; rewrite (bind_of _ _ _ _ _ E).
  all: match goal with |- context [direct_event _ ?c (Some ?r) ?e] =>
    destruct (direct_event_spec c r e s) as (ev & Ed & Hev) end.
  all: rewrite (bind_of _ _ _ _ _ Ed); destruct (accumulate_one evs ev) as (evs' & E' & Hl).
  all: unfold lift at 1; rewrite E'; rewrite (bind_of (fun s => (Ret evs', s)) _ s evs' s eq_refl).
  all: destruct (changeResponder_null false s) as (s2 & E2 & Hs2 & R2 & C2 & H2 & _).
  all: rewrite (bind_of _ _ _ _ _ E2); exists (Ret evs'), s2; split; [done|]; split_and!; [|done|done|by right].
  all: unfold extracts; rewrite Hl.
  all: split; [apply Forall_app; split; [done|apply Forall_singleton; by eapply direct_ready]|].
  all: intros Hh; destruct (Hc Hh) as (p & Hp & Hi).
  all: rewrite C2, R2, pending_app, pending_one, app_assoc, seen_by_app, rp_reads_app, Hp; cbn.
  all: rewrite (direct_heard _ _ _ _ i Hev Hh) by set_solver; case_decide as D.
  all: try (subst; assert (Hpi : p <> Idle) by (intros Hpi; apply Hi in Hpi; congruence); exists Idle;
    split; [by destruct p|done]).
  all: assert (p = Idle) as -> by (apply Hi; congruence); by exists Idle.
Qed.

Lemma track_spec t (s : S) : exists b (s' : S), track t s = (Ret b, s') /\ responderInst s' = responderInst s /\
  native s' = native s /\ calls s' = calls s /\ world s' = world s /\ history s' = history s.
Proof.
  unfold track. rewrite bind_gets. destruct (isStartish t); [by eexists _, _|].
  destruct (isEndish t); [|by eexists _, _]. destruct (0 <=? trackedTouchCount s)%Z; by eexists _, _.
Qed.

Lemma recordTouchTrack_terminates t e : terminates (recordTouchTrack t e).
Proof.
  assert (Hr : forall x f, (forall t i r, terminates (f t i r)) -> terminates (record_for x f)).
  { intros x f Hf. unfold record_for, getTouchIdentifier. apply terminates_bind.
    - unfold TypeError. js_terminates.
    - intros i. destruct x; [|done..]. apply terminates_bind; [done|]. intros r. apply Hf. }
  unfold recordTouchTrack, touch_list, first_identifier, recordTouchMove, recordTouchStart, recordTouchEnd, put, recent, TypeError.
  repeat (case_match || (apply Hr; intros) || js_terminates).
Qed.

Lemma on_course_same i s s' l : calls s' = calls s -> responderInst s' = responderInst s ->
  on_course i s l -> on_course i s' l.
Proof. intros E1 E2. unfold on_course. by rewrite E1, E2. Qed.
Lemma synced_same s s' : native s' = native s -> responderInst s' = responderInst s -> synced s -> synced s'.
Proof. intros E1 E2. unfold synced. by rewrite E1, E2. Qed.

(** Where an extraction takes the responder: nowhere, to one that was asked, or away. *)
Lemma extract_spec i t inst e s : on_course i s [] -> synced s -> exists r s',
  extractEvents tree_of run_listener n t inst e s = (r, s') /\ extracts i s' r /\ synced s' /\
  (responderInst s' = responderInst s \/ responderInst s' = None \/
   exists target, inst = Some target /\ moves_to (world s) target (responderInst s) (responderInst s')).
Proof.
  intros Hc Hs. unfold extractEvents.
  destruct (track_spec t s) as (b & s1 & E1 & R1 & N1 & C1 & W1 & H1). rewrite (bind_of _ _ _ _ _ E1).
  assert (Hc1 := on_course_same _ _ _ _ C1 R1 Hc). assert (Hs1 := synced_same _ _ N1 R1 Hs).
  destruct b; [|exists (Ret Nothing), s1; split_and!; try done; by left].
  unfold in_history at 1. destruct (recordTouchTrack t e (history s1)) as [r h] eqn:Er.
  assert (Hne := recordTouchTrack_terminates t e (history s1)). unfold outcome in Hne. rewrite Er in Hne.
  set (s2 := set_history h s1). assert (Hc2 : on_course i s2 []) by done. assert (Hs2 : synced s2) by done.
  assert (Er' : (fun s => let '(r, h) := recordTouchTrack t e (history s) in (r, set_history h s)) s1 = (r, s2)) by by rewrite Er.
  destruct r as [[]|err|]; [|rewrite (bind_throws _ _ _ _ _ Er'); exists (Throw err), s2; by split_and!; [| | |left]|done].
  rewrite (bind_of _ _ _ _ _ Er'). unfold canTriggerTransfer. rewrite bind_assoc, bind_gets, bind_ret.
  set (go := match inst with None => false | Some _ => _ end).
  assert (Ht : exists r s3, match inst with
      | Some i => if go then setResponderAndExtractTransfer tree_of run_listener n t i e else ret Nothing
      | None => ret Nothing end s2 = (r, s3) /\ extracts i s3 r /\ synced s3 /\
      (responderInst s3 = responderInst s \/
       exists target, inst = Some target /\ moves_to (world s) target (responderInst s) (responderInst s3)) /\
      (t = topTouchEnd -> on_course i s3 [])).
  { destruct inst as [target|]; [|exists (Ret Nothing), s2; split_and!; try done; by left].
    destruct go eqn:Eg; [|exists (Ret Nothing), s2; split_and!; try done; by left].
    destruct (transfer_spec i t target e s2 Hc2 Hs2) as (r & s3 & E3 & X3 & H3 & Hs3 & M3).
    exists r, s3. cbn in M3. rewrite W1, R1 in M3. split_and!; try done; [right; by exists target|].
    intros ->. subst go. cbn in Eg. by rewrite andb_false_r in Eg. }
  destruct Ht as (r & s3 & E3 & X3 & Hs3 & M3 & Hend). destruct r as [evs|err|]; [| |done].
  2: { rewrite (bind_throws _ _ _ _ _ E3). exists (Throw err), s3. split_and!; try done. destruct M3; auto. }
  rewrite (bind_of _ _ _ _ _ E3). destruct X3 as [Hrd Hc3].
  destruct (gesture_spec i t e evs s3 Hrd Hc3) as (evs' & E4 & Hrd' & Hc4). rewrite (bind_of _ _ _ _ _ E4).
  destruct (final_spec i t e evs' s3 Hrd' Hc4 Hend Hs3) as (r & s4 & E5 & X5 & H5 & Hs5 & M5).
  exists r, s4. split_and!; try done. destruct M5 as [-> | ->]; [|auto]. destruct M3; auto.
Qed.

(** ** The plugins and the batch *)
Lemma collected_mounted w l b c : Forall (fun d => mounted d.2) (collected w l b c).
Proof.
  apply Forall_forall. intros [f j] ([i p] & _ & E)%list_elem_of_omap. cbn in E.
  destruct (listener_of w i (name_at b c p)) eqn:El; [|done]. injection E as -> ->. by eapply listener_mounted.
Qed.
Lemma custom_unseen i r (l : list (L * nat)) : seen_by i (map (fun d => (Custom r, d.2)) l) = [].
Proof. by induction l. Qed.
Lemma bridge_spec t inst e s : exists evs,
  bridge_extractEvents tree_of customBubblingEventTypes customDirectEventTypes n t inst e s = (Ret evs, s) /\
  Forall ready (acc_list evs) /\ forall i, seen_by i (pending (acc_list evs)) = [].
Proof.
  assert (Hone : forall r ev, dispatchConfig ev = Custom r -> Forall (fun d => mounted d.2) (dispatches ev) ->
    Forall ready (acc_list (One ev)) /\ forall i, seen_by i (pending (acc_list (One ev))) = []).
  { intros r ev Hc Hm. split; [apply Forall_singleton; unfold ready; by rewrite Hc|].
    intros i. cbn [acc_list]. rewrite pending_one. unfold called. rewrite Hc. apply custom_unseen. }
  assert (Htwo : forall r i, exists ev, accumulateTwoPhaseDispatches tree_of n (getPooled (Custom r) (Some i) e) s = (Ret ev, s) /\
    dispatchConfig ev = Custom r /\ Forall (fun d => mounted d.2) (dispatches ev)).
  { intros r i. unfold accumulateTwoPhaseDispatches. cbn. destruct r as [b c|]; [|by eexists].
    rewrite (bind_walk _ _ _ _ (traverse_two_phase n _ (wb_tree wb (world s)) (Some i))).
    destruct (accumulate_along_spec (two_phase (chain_from n (fiber (tree_of (world s))) (Some i))) b c
      (getPooled (Custom (Phased b c)) (Some i) e) s I) as (ev & -> & _ & Hc & Hd).
    exists ev. split_and!; [done..|]. rewrite Hd. apply collected_mounted. }
  assert (Hdir : forall r i, exists ev, accumulateDirectDispatches tree_of (getPooled (Custom r) (Some i) e) s = (Ret ev, s) /\
    dispatchConfig ev = Custom r /\ Forall (fun d => mounted d.2) (dispatches ev)).
  { intros r i. unfold accumulateDirectDispatches, accumulateDispatches. cbn. destruct r as [|name]; [by eexists|].
    rewrite (bind_of _ _ _ _ _ (getListener_spec _ _ _)).
    destruct (listener_of (world s) i name) as [f|] eqn:El; [|by eexists].
    eexists. split; [done|]. split; [done|]. cbn. apply Forall_singleton. by eapply listener_mounted. }
  unfold bridge_extractEvents. destruct inst as [i|]; [|by exists Nothing].
  destruct (customBubblingEventTypes t) as [r|] eqn:Eb.
  - destruct (Htwo r i) as (ev & E & Hc & Hm). rewrite (bind_of _ _ _ _ _ E). exists (One ev). split; [done|]. by eapply Hone.
  - destruct (customDirectEventTypes t) as [r|] eqn:Ed; [|by destruct (wb_known wb t)].
    destruct (Hdir r i) as (ev & E & Hc & Hm). rewrite (bind_of _ _ _ _ _ E). exists (One ev). split; [done|]. by eapply Hone.
Qed.

Lemma plugins_spec i t inst e s : on_course i s [] -> synced s -> exists r s',
  extractPluginEvents tree_of run_listener customBubblingEventTypes customDirectEventTypes n t inst e s = (r, s') /\
  extracts i s' r /\ synced s'.
Proof.
  intros Hc Hs. unfold extractPluginEvents. cbn [extract_with].
  destruct (extract_spec i t inst e s Hc Hs) as (r & s1 & E & X & Hs1 & _).
  destruct r as [evs|err|]; [|rewrite (bind_throws _ _ _ _ _ E); by exists (Throw err), s1|done].
  rewrite (bind_of _ _ _ _ _ E). destruct X as [Hrd Hc1].
  assert (E1 : (match evs with Nothing => ret Nothing | _ => lift (accumulateInto Nothing evs) end) s1 = (Ret evs, s1))
    by by destruct evs.
  rewrite (bind_of _ _ _ _ _ E1). destruct (bridge_spec t inst e s1) as (bevs & E2 & Hrd2 & Hun).
  rewrite (bind_of _ _ _ _ _ E2).
  assert (E3 : exists evs', (match bevs with Nothing => ret evs | _ => lift (accumulateInto evs bevs) end) s1 = (Ret evs', s1) /\
    acc_list evs' = acc_list evs ++ acc_list bevs).
  { destruct bevs as [|x|l] eqn:Eb; [exists evs; by rewrite app_nil_r|..];
      destruct (accumulateInto_list evs bevs) as (evs' & Ea & Hl); subst; try done;
      exists evs'; unfold lift; by rewrite Ea. }
  destruct E3 as (evs' & E3 & Hl). rewrite (bind_of _ _ _ _ _ E3). exists (Ret evs'), s1. split; [done|].
  split; [|done]. cbn. rewrite Hl. split; [by apply Forall_app|]. rewrite pending_app.
  eapply on_course_ext; [|done]. by rewrite seen_by_app, Hun, app_nil_r.
Qed.

Lemma take_enough {A} k (l : list A) : length l <= 1 -> min 1 (length l) <= k -> take k l = l.
Proof. intros H1 H2. apply take_ge. lia. Qed.
Lemma batch_spec i evs s : Forall ready evs -> on_course i s (pending evs) -> synced s -> exists s',
  for_each evs (executeDispatchesInOrder tree_of run_listener) s = (Ret tt, s') /\
  on_course i s' [] /\ synced s'.
Proof.
  intros Hrd. revert s. induction Hrd as [|ev evs [Hm Hn] Hrd IH]; intros s Hc Hs; [by exists s|].
  cbn [for_each]. unfold executeDispatchesInOrder at 1.
  destruct (execute_in_order_spec ev false (dispatches ev) s Hm) as (s1 & k & E & Hr & Hk).
  rewrite (bind_of _ _ _ _ _ E). apply IH; [|by apply (ran_synced _ _ _ Hr)].
  eapply on_course_ran; [done|]. rewrite pending_cons in Hc. eapply on_course_ext; [|done].
  rewrite !seen_by_app. f_equal. destruct (dispatchConfig ev) as [c|r] eqn:Ec.
  - by rewrite take_enough by auto.
  - unfold called. rewrite Ec. by rewrite !custom_unseen.
Qed.

Definition settled (i : nat) (s : S) : Prop := on_course i s [] /\ synced s.
Abbreviation step := (run_op tree_of run_listener customBubblingEventTypes customDirectEventTypes n).

Lemma root_event_settled i id t e : preserves (settled i)
  (_receiveRootNodeIDEvent tree_of run_listener customBubblingEventTypes customDirectEventTypes n id t e).
Proof.
  intros s [Hc Hs]. unfold _receiveRootNodeIDEvent, final.
  assert (Hinst : exists inst, (match id with Some id => getInstanceFromTag tree_of id | None => ret None end) s = (Ret inst, s))
    by (destruct id; by eexists).
  destruct Hinst as [inst E]. rewrite (bind_of _ _ _ _ _ E). unfold runExtractedPluginEventsInBatch.
  destruct (plugins_spec i t inst e s Hc Hs) as (r & s1 & E1 & X & Hs1).
  destruct r as [evs|err|]; [|rewrite (bind_throws _ _ _ _ _ E1); by split|done].
  rewrite (bind_of _ _ _ _ _ E1). destruct X as [Hrd Hc1].
  assert (Hgo : forall evs, Forall ready (acc_list evs) -> on_course i s1 (pending (acc_list evs)) ->
    settled i (snd ((do! for_each (acc_list evs) (executeDispatchesInOrder tree_of run_listener); rethrowCaughtError) s1))).
  { intros evs' Hrd' Hc'. destruct (batch_spec i _ s1 Hrd' Hc' Hs1) as (s2 & E2 & Hc2 & Hs2).
    rewrite (bind_of _ _ _ _ _ E2). unfold rethrowCaughtError. rewrite bind_gets.
    destruct (rethrowError s2); by split. }
  unfold runEventsInBatch. destruct evs; [by split|by apply Hgo..].
Qed.
Lemma step_settled i o : preserves (settled i) (step o).
Proof.
  destruct o as [id t e|t l changed|w]; cbn [run_op].
  - apply root_event_settled.
  - unfold receiveTouches. destruct (if isEndish t then _ else _) as [ch all].
    apply evolves_for_each; [apply _|]. intros [x| |]; cbn [receive_touch].
    + apply root_event_settled.
    + intros s Hi. exact Hi.
    + intros s Hi. exact Hi.
  - intros s Hi. exact Hi.
Qed.
Lemma run_settled i ops w : settled i (run_ops tree_of run_listener
  customBubblingEventTypes customDirectEventTypes n ops (init_responder w)).
Proof.
  unfold run_ops. apply (keeps_foldl (settled i)); [intros o; apply step_settled|].
  split; [|done]. intros _. exists Idle. by split.
Qed.

(** ** The end of a touch *)

(** Some finger of [l] went down inside of [r]. *)
Definition held (w : W) (r : nat) (l : list slot) : bool :=
  existsb (fun x => match the_touch x ≫= target with
    | Some t => negb (t =? 0)%Z && inside n (fiber (tree_of w)) r (instanceCache (tree_of w) !! t)
    | None => false
    end) l.
Lemma no_touch_inside_held r l s : Forall (fun x => is_Some (the_touch x)) l ->
  no_touch_inside tree_of n r l s = (Ret (negb (held (world s) r l)), s).
Proof.
  induction 1 as [|x l [t Hx] _ IH]; [done|]. destruct x as [x| |]; cbn in Hx; try done.
  cbn [no_touch_inside]. unfold held in *. cbn [existsb the_touch mbind option_bind].
  destruct (target x) as [k|]; cbn; [|exact IH]. destruct (k =? 0)%Z; cbn; [exact IH|].
  unfold the_tree. rewrite (isAncestor_inside n _ (wb_tree wb (world s))).
  by destruct (inside _ _ _ _); [|exact IH].
Qed.

(** A cancel always ends the responder's time, an end when no finger holds it. *)
Definition keeps_hold (w : W) (r : nat) (t : topLevelType) (l : list slot) : bool :=
  match t with topTouchEnd => held w r l | _ => false end.
Definition end_event (t : topLevelType) : event_type :=
  match t with topTouchEnd => responderRelease | _ => responderTerminate end.

Lemma end_spec A A' t inst e l r s : isEndish t = true -> follows A (history s) -> conforms t A e A' ->
  touches e = Some l -> responderInst s = Some r -> (0 <= trackedTouchCount s)%Z -> exists evs s',
  extractEvents tree_of run_listener n t inst e s = (Ret evs, s') /\
  if keeps_hold (world s) r t l
  then responderInst s' = Some r
  else responderInst s' = None /\ exists ev, last (acc_list evs) = Some ev /\ targetInst ev = Some r /\
    dispatchConfig ev = OfResponder (end_event t).
Proof.
  intros Ht Hf Hc Hl Hr Hn. unfold extractEvents.
  assert (Et : track t s = (Ret true, set_trackedTouchCount (trackedTouchCount s - 1)%Z s)).
  { unfold track. rewrite bind_gets. destruct (isStartish t) eqn:Es; [by destruct t|]. rewrite Ht.
    by destruct (Z.leb_spec 0 (trackedTouchCount s)); [|lia]. }
  rewrite (bind_of _ _ _ _ _ Et). set (s1 := set_trackedTouchCount _ s).
  destruct (recordTouchTrack_follows t A e A' (history s1) Hf Hc) as (h & Eh & _).
  assert (Eh' : in_history (recordTouchTrack t e) s1 = (Ret tt, set_history h s1)) by (unfold in_history; by rewrite Eh).
  rewrite (bind_of _ _ _ _ _ Eh'). set (s2 := set_history h s1). unfold canTriggerTransfer. rewrite bind_assoc, bind_gets, bind_ret.
  assert (Eno : (match inst with
      | Some i => if match inst with None => false | Some _ => match t with topScroll => negb (responderIgnoreScroll e) | _ => false end
          || ((0 <? trackedTouchCount s2)%Z && match t with topSelectionChange => true | _ => false end)
          || isStartish t || isMoveish t end
        then setResponderAndExtractTransfer tree_of run_listener n t i e else ret Nothing
      | None => ret Nothing end) s2 = (Ret Nothing, s2)).
  { destruct inst; [|done]. destruct t; try done; cbn; by rewrite andb_false_r. }
  rewrite (bind_of _ _ _ _ _ Eno). unfold extract_gesture. rewrite bind_assoc, bind_gets.
  assert (R2 : responderInst s2 = Some r) by done. rewrite R2.
  assert (Ei : incremental_touch t = Some responderEnd) by by destruct t. rewrite Ei.
  destruct (direct_event_spec responderEnd r e s2) as (ev & E & _). rewrite bind_assoc, (bind_of _ _ _ _ _ E).
  rewrite (bind_of (lift _) _ s2 (One ev) s2 eq_refl). unfold extract_final. rewrite bind_gets, R2.
  assert (Hlt : Forall (fun x => is_Some (the_touch x)) l).
  { unfold conforms in Hc. rewrite Ht, orb_true_r in Hc. destruct (isMoveish t) eqn:Em; [by destruct t|].
    destruct Hc as (_ & (l' & El & [HF _] & _) & _). rewrite Hl in El. injection El as <-.
    eapply Forall_impl; [exact HF|]. intros x [i Hi]. destruct (the_touch x); [by eexists|done]. }
  assert (Ef : final_touch tree_of n t r e s2 = (Ret (if keeps_hold (world s) r t l then None
    else Some (end_event t)), s2)).
  { destruct t; try done; cbn. unfold noResponderTouches. rewrite Hl.
    rewrite (bind_of _ _ _ _ _ (no_touch_inside_held r l s2 Hlt)). cbn. by destruct (held (world s) r l). }
  rewrite (bind_of _ _ _ _ _ Ef). destruct (keeps_hold (world s) r t l); [by eexists _, _|].
  destruct (direct_event_spec (end_event t) r e s2) as (ev' & E' & Hev').
  rewrite (bind_of _ _ _ _ _ E'). rewrite (bind_of (lift _) _ s2 (Many [ev; ev']) s2 eq_refl).
  eexists _, _. split; [done|]. split; [done|]. exists ev'. split; [done|]. split; [apply Hev'|apply Hev'].
Qed.
End protocol.

(** ** Properties *)
Section properties.
Context {W L : Type} (tree_of : W -> tree L)
  (run_listener : L -> event L -> nat -> touchHistory -> JS W answer)
  (bubbling direct : topLevelType -> option registration) (n : nat).
Abbreviation S := (st W).
Abbreviation run := (run_ops tree_of run_listener bubbling direct n).


(** Native is kept informed: the last call of UIManager names the native view of
    the responder, or clears it when there is none. *)
Theorem native_knows_responder ops w :
  well_behaved tree_of run_listener bubbling direct n ->
  let s := run ops (init_responder w) in
  match last (native s) with
  | Some (SetJSResponder t _) => exists j, responderInst s = Some j /\
      forall w, stateNode (fiber (tree_of w) j) = Some t
  | _ => responderInst s = None
  end.
Proof. intros wb. apply (run_settled tree_of run_listener bubbling direct n wb 0 ops w). Qed.

(** C26. While it is held, the lock only moves up: extracting the events of a touch
    leaves the responder, takes it away, or moves it to a proper ancestor of the present
    one in the tree of that moment. *)
Theorem lock_moves_up ops w t inst e r r' :
  well_behaved tree_of run_listener bubbling direct n ->
  let s := run ops (init_responder w) in
  responderInst s = Some r ->
  responderInst (final (extractEvents tree_of run_listener n t inst e) s) = Some r' ->
  r' = r \/ r' ∈ tail (chain n (fiber (tree_of (world s))) r).
Proof.
  intros wb s Hr Hr'. destruct (run_settled tree_of run_listener bubbling direct n wb 0 ops w) as [Hc Hs].
  destruct (extract_spec tree_of run_listener bubbling direct n wb 0 t inst e s Hc Hs) as (o & s' & E & _ & _ & M).
  unfold final in Hr'. rewrite E in Hr'. cbn in Hr'. rewrite Hr in M.
  destruct M as [M|[M|(target & _ & [M|(j & M & Hj)])]]; [left; congruence|congruence|left; congruence|right].
  assert (j = r') as -> by congruence. by eapply candidates_above.
Qed.

(** Who is asked, and who wins: the listeners of the should-set event are called
    down from the root to the lowest candidate and up again, on the candidates only, and
    the first one that returns true is the last one called and wants the responder. *)
Theorem asked_in_order t target e (s : S) :
  well_behaved tree_of run_listener bubbling direct n -> exists r s' k,
  wants_responder tree_of run_listener n t target e s = (r, s') /\ r <> OutOfFuel /\
  calls s' = calls s ++ map (fun d => (OfResponder (should_set_type t), d.2))
    (take k (asked tree_of n (world s) t (responderInst s) target)) /\
  responderInst s' = responderInst s /\
  (forall j, r = Ret (Some j) -> exists f k', k = k' + 1 /\
     asked tree_of n (world s) t (responderInst s) target !! k' = Some (f, j)).
Proof.
  intros wb. destruct (wants_spec tree_of run_listener bubbling direct n wb t target e s) as (r & s' & k & E & Hne & Hr & Hw).
  exists r, s', k. split_and!; try done; apply Hr.
Qed.

(** The end of a touch.  When a finger goes up and one that went down inside of the
    responder stays, the responder stays; when none stays, or the touches are cancelled,
    there is no responder any more, and the last event extracted is its release, or its
    termination. *)
Theorem released_when_untouched A A' t inst e l r (s : S) :
  well_behaved tree_of run_listener bubbling direct n ->
  isEndish t = true -> follows A (history s) -> conforms t A e A' -> touches e = Some l ->
  responderInst s = Some r -> (0 <= trackedTouchCount s)%Z -> exists evs s',
  extractEvents tree_of run_listener n t inst e s = (Ret evs, s') /\
  if keeps_hold tree_of n (world s) r t l
  then responderInst s' = Some r
  else responderInst s' = None /\ exists ev, last (acc_list evs) = Some ev /\ targetInst ev = Some r /\
    dispatchConfig ev = OfResponder (end_event t).
Proof. intros wb. by apply (end_spec tree_of run_listener bubbling direct n wb). Qed.
End properties.

(** ** Touches that end *)
Lemma rip_out_spec l indices : Forall (fun i => i < length l) indices -> NoDup indices ->
  rip_out l indices = (map (fun i => slot_at i l) indices,
    imap (fun k x => if decide (k ∈ indices) then Null else x) l).
Proof.
  revert l. induction indices as [|i indices IH]; intros l Hi Hnd; cbn.
  { f_equal. symmetry. rewrite (imap_ext _ (fun _ x => x)); [|done]. apply list_eq. intros k.
    rewrite list_lookup_imap. by destruct (l !! k). }
  apply Forall_cons in Hi as [Hi His]. apply NoDup_cons in Hnd as [Hni Hnd].
  unfold nullify. destruct (Nat.ltb_spec i (length l)); [|lia].
  rewrite IH by (done || by rewrite length_insert). f_equal; [f_equal|].
  - apply map_ext_in. intros k Hk%list_elem_of_In. unfold slot_at. rewrite list_lookup_insert_ne; [done|].
    by intros ->.
  - apply list_eq. intros k. rewrite !list_lookup_imap. destruct (decide (k = i)) as [->|Hne].
    + rewrite list_lookup_insert_eq by done. destruct (lookup_lt_is_Some_2 l i Hi) as [x ->]. cbn.
      case_decide; [done|]. by rewrite decide_True by by left.
    + rewrite list_lookup_insert_ne by done. destruct (l !! k); cbn; [|done]. f_equal.
      destruct (decide (k ∈ indices)); [by rewrite decide_True by by right|].
      by rewrite decide_False by (rewrite elem_of_cons; naive_solver).
Qed.

(** The elements at the positions that [P] keeps. *)
Fixpoint kept (P : nat -> bool) (l : list slot) : list slot :=
  match l with
  | [] => []
  | x :: l' => (if P 0 then [x] else []) ++ kept (fun k => P (Datatypes.S k)) l'
  end.
Lemma kept_ext P Q l : (forall k, P k = Q k) -> kept P l = kept Q l.
Proof.
  revert P Q. induction l as [|x l IH]; intros P Q E; [done|]. cbn. rewrite E. f_equal. by apply IH.
Qed.
Lemma kept_all P l : (forall k, P k = true) -> kept P l = l.
Proof.
  revert P. induction l as [|x l IH]; intros P E; [done|]. cbn. rewrite E. cbn. f_equal. by apply IH.
Qed.
Lemma kept_filter (P : nat -> bool) l : Forall (fun x => is_Some (the_touch x)) l ->
  List.filter (fun x => negb (is_null x)) (imap (fun (k : nat) (x : slot) => if P k then x else Null) l) = kept P l.
Proof.
  intros Hl. revert P. induction Hl as [|x l [t Hx] _ IH]; intros P; [done|]. cbn [imap kept List.filter].
  rewrite <- (IH (fun k => P (Datatypes.S k))). destruct (P 0); [|done]. destruct x; cbn in Hx; try done.
Qed.
Lemma kept_remove P l i x : l !! i = Some x -> P i = true ->
  kept P l ≡ₚ x :: kept (fun k => P k && negb (k =? i)) l.
Proof.
  revert P i. induction l as [|y l IH]; intros P [|i] Hi HP; cbn in Hi; try done; cbn [kept].
  - injection Hi as ->. rewrite HP. cbn. constructor. erewrite kept_ext; [done|]. intros k. cbn. by rewrite andb_true_r.
  - rewrite (IH (fun k => P (Datatypes.S k)) i Hi HP). cbn. rewrite andb_true_r. by rewrite Permutation_middle.
Qed.
Lemma kept_partition l indices : Forall (fun i => i < length l) indices -> NoDup indices ->
  l ≡ₚ map (fun i => slot_at i l) indices ++ kept (fun k => bool_decide (k ∉ indices)) l.
Proof.
  induction indices as [|i indices IH]; intros Hi Hnd.
  { cbn. by rewrite kept_all by (intros k; apply bool_decide_true, not_elem_of_nil). }
  apply Forall_cons in Hi as [Hi His]. apply NoDup_cons in Hnd as [Hni Hnd]. rewrite (IH His Hnd) at 1.
  destruct (lookup_lt_is_Some_2 l i Hi) as [x Hx]. cbn. unfold slot_at at 2. rewrite Hx. cbn.
  rewrite (kept_remove _ l i x Hx) by (by apply bool_decide_true).
  rewrite <- Permutation_middle. constructor. f_equiv. erewrite kept_ext; [done|]. intros k. cbn.
  destruct (Nat.eqb_spec k i) as [->|Hne]; cbn.
  - rewrite andb_false_r. symmetry. apply bool_decide_false. intros H. apply H. left.
  - rewrite andb_true_r. apply bool_decide_ext. rewrite not_elem_of_cons. naive_solver.
Qed.

(** [removeTouchesAtIndices] splits an array of touches: it returns those at the
    indices, in the order of the indices, and leaves the others, in their order. *)
Theorem removed_touches l indices :
  Forall (fun x => is_Some (the_touch x)) l -> Forall (fun i => i < length l) indices -> NoDup indices ->
  removeTouchesAtIndices l indices =
    (touchSubsequence l indices, kept (fun k => bool_decide (k ∉ indices)) l) /\
  l ≡ₚ (removeTouchesAtIndices l indices).1 ++ (removeTouchesAtIndices l indices).2.
Proof.
  intros Hl Hi Hnd. assert (E : removeTouchesAtIndices l indices =
    (touchSubsequence l indices, kept (fun k => bool_decide (k ∉ indices)) l)).
  { unfold removeTouchesAtIndices. rewrite rip_out_spec by done. f_equal. rewrite <- kept_filter by done.
    f_equal. apply imap_ext. intros k x _. case_decide as D; case_bool_decide; try done. }
  rewrite E. split; [done|]. cbn. by apply kept_partition.
Qed.

(** ** A concrete tree

    Fibers 0, 1 and 2 are a root, a view that claims moves and a view inside of it that
    claims starts; 3 is the other fiber of 2, and 4 a sibling of 2. *)
Module Demo.
Definition host (parent alt : option nat) (node : option Z) : Fiber :=
  Build_Fiber parent HostComponent alt node "RCTView".
Definition fibers (i : nat) : Fiber :=
  match i with
  | 0 => host None None (Some 10%Z)
  | 1 => host (Some 0) None (Some 11%Z)
  | 2 => host (Some 1) (Some 3) (Some 12%Z)
  | 3 => host (Some 1) (Some 2) (Some 12%Z)
  | 4 => host (Some 1) None (Some 14%Z)
  | _ => host None None None
  end.
Definition direct_names : list string :=
  ["onResponderStart"; "onResponderMove"; "onResponderEnd"; "onResponderRelease";
   "onResponderTerminationRequest"; "onResponderGrant"; "onResponderReject"; "onResponderTerminate"].
Definition props (claims : string) : Props bool :=
  Build_Props bool false (fun name => if bool_decide (name ∈ claims :: direct_names) then Func true else Falsy).
Definition the_demo (w : unit) : tree bool := {|
  fiber := fibers;
  instanceCache := list_to_map [(10%Z, 0); (11%Z, 1); (12%Z, 2)];
  instanceProps := list_to_map [(10%Z, props "onNothing"); (11%Z, props "onMoveShouldSetResponder");
    (12%Z, props "onStartShouldSetResponder")]
|}.
Definition listen (l : bool) (ev : event bool) (i : nat) (h : touchHistory) : JS unit answer :=
  ret (Build_answer (if l then VTrue else VFalsy) false).
Definition bubbling (t : topLevelType) : option registration := Some (Phased "onTouch" "onTouchCapture").
Definition direct (t : topLevelType) : option registration := None.

Lemma demo_tree : well_founded_tree 3 fibers.
Proof.
  exists (fun i => match i with 1 => 1 | 2 => 2 | 3 => 2 | 4 => 2 | _ => 0 end).
  intros [|[|[|[|[|i]]]]]; (split; [lia|]); cbn; intros p E; simplify_eq; lia.
Qed.
Lemma demo_coherent : coherent 3 fibers.
Proof.
  intros x y [->|E].
  - destruct (parent 3 fibers y); [by left|done].
  - destruct y as [|[|[|[|[|y]]]]]; cbn in E; simplify_eq; by left.
Qed.
Lemma demo_wb : well_behaved the_demo listen bubbling direct 3.
Proof.
  split; cbn.
  - intros _. apply demo_tree.
  - intros _ i t E. split; [|done]. destruct i as [|[|[|[|[|i]]]]]; cbn in E; simplify_eq; done.
  - intros w i name. unfold get_listener, the_demo. cbn.
    destruct (stateNode (fibers i)) as [t|]; [|by eexists].
    assert (Hp : forall P, instanceProps (the_demo tt) !! t = Some P -> exists c, P = props c).
    { intros P. cbn. rewrite !lookup_insert_Some. intros [[_ <-]|[_ [[_ <-]|[_ [[_ <-]|[_ E]]]]]]; [by eexists..|].
      by rewrite lookup_empty in E. }
    cbn in Hp. destruct (_ !! t) as [P|]; [|by eexists]. destruct (Hp P eq_refl) as [c ->].
    case_match; [by eexists|]. cbn. case_bool_decide; by eexists.
  - done.
  - intros. by eexists.
  - done.
Qed.
Lemma demo_handles i : i < 3 -> handles the_demo i.
Proof.
  intros Hi w c Hc. exists true.
  repeat (apply elem_of_cons in Hc as [->|Hc]; [by destruct i as [|[|[|i]]]; [..|lia]|]). by apply not_elem_of_nil in Hc.
Qed.

Definition finger (t : Z) : slot := ATouch (Build_touch (Some 1) (Some 12%Z) (inject_Z 0) (inject_Z 0) None t).
Definition gesture : list (op (W := unit)) :=
  [ReceiveTouches topTouchStart [finger 1] [0]; ReceiveTouches topTouchMove [finger 2] [0];
   Environment tt; ReceiveTouches topTouchEnd [finger 3] [0]].
Definition after (ops : list op) : st unit :=
  run_ops the_demo listen bubbling direct 3 ops (init_responder tt).
End Demo.
Import Demo.

(** A touch that starts in the inner view and is taken over by the outer one. *)
Example gesture_calls :
  seen_by 2 (calls (after gesture)) =
    [responderGrant; responderStart; responderTerminationRequest; responderTerminate] /\
  seen_by 1 (calls (after gesture)) =
    [responderGrant; responderMove; responderEnd; responderRelease] /\
  native (after gesture) = [SetJSResponder 12 true; SetJSResponder 11 true; ClearJSResponder].
Proof. by vm_compute. Qed.

Lemma lca_is_lowest_witness : lowest_common 3 fibers 2 4 (Some 1) /\ lowest_common 3 fibers 2 3 (Some 2).
Proof.
  split.
  - destruct (lca_is_lowest 3 fibers 2 4 demo_tree demo_coherent) as (r & E & H). by injection E as <-.
  - destruct (lca_is_lowest 3 fibers 2 3 demo_tree demo_coherent) as (r & E & H). by injection E as <-.
Defined.
Lemma native_knows_responder_witness :
  last (native (after gesture)) = Some ClearJSResponder /\ responderInst (after gesture) = None.
Proof.
  unfold after. set (s := run_ops _ _ _ _ _ _ _).
  assert (E : last (native s) = Some ClearJSResponder) by by vm_compute. split; [exact E|].
  assert (H := native_knows_responder the_demo listen bubbling direct 3 gesture tt demo_wb). cbv zeta in H.
  fold s in H. rewrite E in H. exact H.
Defined.
Definition move_event : nativeEvent := Build_nativeEvent [finger 2] (Some [finger 2]) false.
Definition end_event_ : nativeEvent := Build_nativeEvent [finger 3] (Some []) false.
Lemma lock_moves_up_witness :
  responderInst (after (take 1 gesture)) = Some 2 /\ (1 = 2 \/ 1 ∈ tail (chain 3 fibers 2)).
Proof.
  split; [by vm_compute|].
  apply (lock_moves_up the_demo listen bubbling direct 3 (take 1 gesture) tt topTouchMove (Some 2) move_event 2 1 demo_wb);
    by vm_compute.
Defined.
Lemma asked_in_order_witness : exists r s' k,
  wants_responder the_demo listen 3 topTouchStart 2 move_event (init_responder tt) = (r, s') /\
  calls s' = map (fun d => (OfResponder startShouldSetResponder, d.2))
    (take k (asked the_demo 3 tt topTouchStart None 2)).
Proof.
  destruct (asked_in_order the_demo listen bubbling direct 3 topTouchStart 2 move_event (init_responder tt) demo_wb)
    as (r & s' & k & E & _ & Hc & _). by exists r, s', k.
Defined.
Lemma demo_follows : follows {[1]} (history (after (take 1 gesture))).
Proof.
  split; [|by vm_compute|].
  - intros i. unfold active. destruct i as [|[|i]]; cbn; [|set_solver|].
    + split; [done|set_solver].
    + split; [by destruct i|set_solver].
  - intros _. exists 1. split; [by vm_compute|set_solver].
Qed.
Lemma released_when_untouched_witness : exists evs s',
  extractEvents the_demo listen 3 topTouchEnd (Some 2) end_event_ (after (take 1 gesture)) = (Ret evs, s') /\
  responderInst s' = None.
Proof.
  destruct (released_when_untouched the_demo listen bubbling direct 3 {[1]} ∅ topTouchEnd (Some 2) end_event_ [] 2
    (after (take 1 gesture)) demo_wb) as (evs & s' & E & H).
  1,4,5: by vm_compute.
  - apply demo_follows.
  - split; [|split; [exists []|]; cbn]. 1: split; [by repeat constructor|by apply NoDup_singleton].
    + split; [done|]. by split; [split; [|constructor]|].
    + set_solver.
  - by vm_compute.
  - exists evs, s'. split; [exact E|apply H].
Defined.
Lemma removed_touches_witness :
  removeTouchesAtIndices [finger 1; finger 2; finger 3] [2; 0] = ([finger 3; finger 1], [finger 2]) /\
  [finger 1; finger 2; finger 3] ≡ₚ [finger 3; finger 1] ++ [finger 2].
Proof.
  split; [by vm_compute|]. apply (removed_touches [finger 1; finger 2; finger 3] [2; 0]).
  - by repeat constructor.
  - repeat constructor.
  - apply NoDup_cons. split; [|apply NoDup_singleton]. set_solver.
Defined.

(** ** What the comments say otherwise *)
Definition direct_calls (s : st unit) : list (dispatch_config * nat) :=
  List.filter (fun c => match c.1 with OfResponder e => is_direct e | Custom _ => false end) (calls s).

(** The diagram of the responder system grants only when the present responder has
    agreed to terminate; the code grants first.  An instance that is rejected has been
    granted too. *)
Example granted_before_the_request :
  direct_calls (after (take 2 gesture)) =
    [(OfResponder responderGrant, 2); (OfResponder responderStart, 2);
     (OfResponder responderGrant, 1); (OfResponder responderTerminationRequest, 2);
     (OfResponder responderTerminate, 2); (OfResponder responderMove, 1)].
Proof. by vm_compute. Qed.

(** An [onResponderTerminationRequest] that throws leaves the other instance granted,
    and neither rejected nor released. *)
Definition listen_throwing (l : bool) (ev : event bool) (i : nat) (h : touchHistory) : JS unit answer :=
  match dispatchConfig ev with
  | OfResponder responderTerminationRequest => throw (UserError 0)
  | _ => listen l ev i h
  end.
Example throwing_request_leaves_grant_open :
  let s := run_ops the_demo listen_throwing bubbling direct 3 gesture (init_responder tt) in
  seen_by 1 (calls s) = [responderGrant] /\ responderInst s = None.
Proof. by vm_compute. Qed.

(** An end that was not counted is refused only when the count is negative already. *)
Example uncounted_end_is_counted :
  trackedTouchCount (after [ReceiveTouches topTouchEnd [finger 1] [0]]) = (-1)%Z.
Proof. by vm_compute. Qed.
