(* ===== verification/PanResponder.v ===== *)
(** * PanResponder

    Libraries/Interaction/PanResponder.js: the responder handlers that one call of
    [create] makes, over the touch history of TouchHistory.v and the interactions of
    InteractionManager.v.

    The variables the handlers close over are [handle] (of [interactionState]) and
    [gesture]; [touchHistory] is the shared store that every event carries, [manager]
    the state of InteractionManager, and [created] records the handles this responder
    has asked for.  The callbacks of the configuration are client code over all of it.
    Velocities are rationals: the divisor is the elapsed time, which is not 0
    ([move_adds_mean_displacement]). *)
From S2P Require Import Prelude Rationals TaskQueue InteractionManager TouchHistory Responder ResponderProtocol.
From stdpp Require Import base numbers list strings gmap fin_sets.
From Stdlib Require Import QArith Lqa.
Open Scope nat_scope.

Record GestureState := {
  stateID : Q;
  moveX : Q;
  moveY : Q;
  x0 : Q;
  y0 : Q;
  dx : Q;
  dy : Q;
  vx : Q;
  vy : Q;
  activeTouches : nat;
  accountsForMovesUpTo : Z
}.
(** [_initializeGestureState]: every field but [stateID]. *)
Definition initializeGestureState (g : GestureState) : GestureState :=
  Build_GestureState (stateID g) 0 0 0 0 0 0 0 0 0 0.
Definition set_activeTouches n (g : GestureState) := Build_GestureState (stateID g) (moveX g) (moveY g)
  (x0 g) (y0 g) (dx g) (dy g) (vx g) (vy g) n (accountsForMovesUpTo g).
Definition set_move x y (g : GestureState) := Build_GestureState (stateID g) x y
  (x0 g) (y0 g) (dx g) (dy g) (vx g) (vy g) (activeTouches g) (accountsForMovesUpTo g).
Definition set_origin x y (g : GestureState) := Build_GestureState (stateID g) (moveX g) (moveY g)
  x y (dx g) (dy g) (vx g) (vy g) (activeTouches g) (accountsForMovesUpTo g).
Definition set_distance x y (g : GestureState) := Build_GestureState (stateID g) (moveX g) (moveY g)
  (x0 g) (y0 g) x y (vx g) (vy g) (activeTouches g) (accountsForMovesUpTo g).
Definition set_velocity x y (g : GestureState) := Build_GestureState (stateID g) (moveX g) (moveY g)
  (x0 g) (y0 g) (dx g) (dy g) x y (activeTouches g) (accountsForMovesUpTo g).
Definition set_accountsForMovesUpTo t (g : GestureState) := Build_GestureState (stateID g) (moveX g)
  (moveY g) (x0 g) (y0 g) (dx g) (dy g) (vx g) (vy g) (activeTouches g) t.

Inductive pan_callback :=
  | onMoveShouldSetPanResponder | onMoveShouldSetPanResponderCapture
  | onStartShouldSetPanResponder | onStartShouldSetPanResponderCapture
  | onPanResponderGrant | onPanResponderReject | onPanResponderStart | onPanResponderEnd
  | onPanResponderRelease | onPanResponderMove | onPanResponderTerminate
  | onPanResponderTerminationRequest | onShouldBlockNativeResponder.

Record st (W : Type) := {
  handle : option nat;
  gesture : GestureState;
  touches_ : touchHistory;
  manager : InteractionManager.st W;
  created : list nat
}.
Arguments handle {W}. Arguments gesture {W}. Arguments touches_ {W}.
Arguments manager {W}. Arguments created {W}.
Section setters.
Context {W : Type}.
Definition set_handle x (s : st W) : st W :=
  Build_st W x (gesture s) (touches_ s) (manager s) (created s).
Definition set_gesture x (s : st W) : st W :=
  Build_st W (handle s) x (touches_ s) (manager s) (created s).
Definition set_touches x (s : st W) : st W :=
  Build_st W (handle s) (gesture s) x (manager s) (created s).
Definition set_manager x (s : st W) : st W :=
  Build_st W (handle s) (gesture s) (touches_ s) x (created s).
Definition set_created x (s : st W) : st W :=
  Build_st W (handle s) (gesture s) (touches_ s) (manager s) x.
End setters.

Section pan.
Context {W : Type}.
Abbreviation S := (st W).
Context (config : pan_callback -> option (JS S value)).

Definition in_manager {A} (m : JS (InteractionManager.st W) A) : JS S A := fun s =>
  let '(r, im) := m (manager s) in (r, set_manager im s).
Definition update (f : GestureState -> GestureState) : JS S unit :=
  modify (fun s => set_gesture (f (gesture s)) s).
Definition the_centroid (f : touchHistory -> result Q) : JS S Q := fun s => (f (touches_ s), s).
(** [if (config.f) config.f(event, gestureState)]. *)
Definition call (c : pan_callback) : JS S unit :=
  match config c with Some f => do! f; ret tt | None => ret tt end.
Definition call_or (c : pan_callback) (d : value) : JS S value :=
  match config c with Some f => f | None => ret d end.
Definition the_accounts : JS S Z := gets (fun s => accountsForMovesUpTo (gesture s)).

Definition updateGestureStateOnMove : JS S unit :=
  do! modify (fun s => set_gesture (set_activeTouches (numberActiveTouches (touches_ s)) (gesture s)) s);
  let! movedAfter := the_accounts in
  let! mx := the_centroid (fun h => currentCentroidXOfTouchesChangedAfter h movedAfter) in
  do! update (fun g => set_move mx (moveY g) g);
  let! my := the_centroid (fun h => currentCentroidYOfTouchesChangedAfter h movedAfter) in
  do! update (fun g => set_move (moveX g) my g);
  let! prevX := the_centroid (fun h => previousCentroidXOfTouchesChangedAfter h movedAfter) in
  let! x := the_centroid (fun h => currentCentroidXOfTouchesChangedAfter h movedAfter) in
  let! prevY := the_centroid (fun h => previousCentroidYOfTouchesChangedAfter h movedAfter) in
  let! y := the_centroid (fun h => currentCentroidYOfTouchesChangedAfter h movedAfter) in
  let! g := gets gesture in
  let nextDX := (dx g + (x - prevX))%Q in
  let nextDY := (dy g + (y - prevY))%Q in
  let! recent := gets (fun s => mostRecentTimeStamp (touches_ s)) in
  let dt := inject_Z (recent - accountsForMovesUpTo g) in
  do! update (fun g => set_velocity ((nextDX - dx g) / dt)%Q ((nextDY - dy g) / dt)%Q g);
  do! update (set_distance nextDX nextDY);
  update (set_accountsForMovesUpTo recent).

(** [clearInteractionHandle] of this file. *)
Definition clear_handle (c : pan_callback) : JS S unit :=
  let! h := gets handle in
  do! (match h with
       | Some h =>
           if h =? 0 then ret tt
           else do! in_manager (InteractionManager.clearInteractionHandle h); modify (set_handle None)
       | None => ret tt
       end);
  call c.

Definition onStartShouldSetResponder : JS S value := call_or onStartShouldSetPanResponder VFalsy.
Definition onMoveShouldSetResponder : JS S value := call_or onMoveShouldSetPanResponder VFalsy.
Definition onStartShouldSetResponderCapture (e : nativeEvent) : JS S value :=
  let! l := match touches e with Some l => ret l | None => TypeError end in
  do! when (length l =? 1) (update initializeGestureState);
  do! modify (fun s => set_gesture (set_activeTouches (numberActiveTouches (touches_ s)) (gesture s)) s);
  call_or onStartShouldSetPanResponderCapture VFalsy.
(** Whether the moves up to now are accounted for. *)
Definition accounted : JS S bool :=
  gets (fun s => (accountsForMovesUpTo (gesture s) =? mostRecentTimeStamp (touches_ s))%Z).
Definition onMoveShouldSetResponderCapture : JS S value :=
  let! done_ := accounted in
  if done_ then ret VFalsy
  else do! updateGestureStateOnMove; call_or onMoveShouldSetPanResponderCapture VFalsy.
Definition onResponderGrant : JS S value :=
  let! h := gets handle in
  do! when (match h with Some h => h =? 0 | None => true end)
    (let! h := in_manager InteractionManager.createInteractionHandle in
     do! modify (fun s => set_created (created s ++ [h]) s);
     modify (set_handle (Some h)));
  let! x := the_centroid currentCentroidX in
  do! update (fun g => set_origin x (y0 g) g);
  let! y := the_centroid currentCentroidY in
  do! update (fun g => set_origin (x0 g) y g);
  do! update (set_distance 0 0);
  do! call onPanResponderGrant;
  call_or onShouldBlockNativeResponder VTrue.
Definition onResponderReject : JS S unit := clear_handle onPanResponderReject.
Definition onResponderRelease : JS S unit :=
  do! clear_handle onPanResponderRelease; update initializeGestureState.
Definition onResponderStart : JS S unit :=
  do! modify (fun s => set_gesture (set_activeTouches (numberActiveTouches (touches_ s)) (gesture s)) s);
  call onPanResponderStart.
Definition onResponderMove : JS S unit :=
  let! done_ := accounted in
  if done_ then ret tt
  else do! updateGestureStateOnMove; call onPanResponderMove.
Definition onResponderEnd : JS S unit :=
  do! modify (fun s => set_gesture (set_activeTouches (numberActiveTouches (touches_ s)) (gesture s)) s);
  clear_handle onPanResponderEnd.
Definition onResponderTerminate : JS S unit :=
  do! clear_handle onPanResponderTerminate; update initializeGestureState.
Definition onResponderTerminationRequest : JS S value := call_or onPanResponderTerminationRequest VTrue.
Definition getInteractionHandle : JS S (option nat) := gets handle.

(** The handler of [panHandlers] for an event of the responder system. *)
Definition panHandlers (c : event_type) (e : nativeEvent) (captured : bool) : JS S unit :=
  let ignore (m : JS S value) : JS S unit := do! m; ret tt in
  match c with
  | startShouldSetResponder =>
      if captured then ignore (onStartShouldSetResponderCapture e) else ignore onStartShouldSetResponder
  | moveShouldSetResponder =>
      if captured then ignore onMoveShouldSetResponderCapture else ignore onMoveShouldSetResponder
  | scrollShouldSetResponder | selectionChangeShouldSetResponder => ret tt
  | responderStart => onResponderStart
  | responderMove => onResponderMove
  | responderEnd => onResponderEnd
  | responderRelease => onResponderRelease
  | responderTerminationRequest => ignore onResponderTerminationRequest
  | responderGrant => ignore onResponderGrant
  | responderReject => onResponderReject
  | responderTerminate => onResponderTerminate
  end.
Definition create (id : Q) (h : touchHistory) (im : InteractionManager.st W) : S :=
  Build_st W None (Build_GestureState id 0 0 0 0 0 0 0 0 0 0) h im [].
End pan.

(** ** The interaction handle *)
Section handles.
Context {W : Type}.
Abbreviation S := (st W).
Abbreviation IM := (InteractionManager.st W).
Context (config : pan_callback -> option (JS S value)).

(** The interactions that run, or will after the next update of the manager. *)
Definition pending_interactions (m : IM) : gset nat :=
  (interactionSet m ∪ addInteractionSet m) ∖ deleteInteractionSet m.
Definition bounded (m : IM) : Prop := forall h,
  h ∈ interactionSet m ∪ addInteractionSet m ∪ deleteInteractionSet m -> h <= inc m.
(** What the rest of the program does: anything, but not to the handles of this
    responder. *)
Record others (s s' : S) : Prop := {
  ot_handle : handle s' = handle s;
  ot_created : created s' = created s;
  ot_inc : inc (manager s) <= inc (manager s');
  ot_pending : forall h, h ∈ created s ->
    h ∈ pending_interactions (manager s') <-> h ∈ pending_interactions (manager s);
  ot_bounded : bounded (manager s) -> bounded (manager s')
}.
#[local] Instance others_preorder : PreOrder others.
Proof.
  split; [by split|]. intros a b c [A1 A2 A3 A4 A5] [B1 B2 B3 B4 B5].
  split; [congruence..|lia| |auto]. intros h Hh. rewrite B4 by by rewrite A2. auto.
Qed.
#[local] Hint Resolve others_preorder : js.
Lemma others_modify f : (forall s, handle (f s) = handle s /\ created (f s) = created s /\ manager (f s) = manager s) ->
  evolves others (modify f).
Proof. intros H. apply evolves_modify. intros s. destruct (H s) as (E1 & E2 & E3). split; by rewrite ?E3. Qed.
#[local] Hint Extern 4 (evolves others (modify _)) => apply others_modify; intros ?; split_and!; reflexivity : js.
Lemma others_update f : evolves others (update f).
Proof. apply others_modify. intros s. by split_and!. Qed.
#[local] Hint Resolve others_update : js.
Lemma others_centroid f : evolves others (the_centroid (W := W) f).
Proof. intros s. reflexivity. Qed.
#[local] Hint Resolve others_centroid : js.
Lemma others_typeerror A : evolves others (TypeError (S := S) (A := A)).
Proof. unfold TypeError. js_auto. Qed.
#[local] Hint Resolve others_typeerror : js.
Lemma others_updateGestureState : evolves others (updateGestureStateOnMove (W := W)).
Proof. unfold updateGestureStateOnMove, the_accounts. js_auto. Qed.
#[local] Hint Resolve others_updateGestureState : js.

Hypothesis Hconfig : forall c f, config c = Some f -> evolves others f.

Lemma others_call c : evolves others (call config c).
Proof. unfold call. destruct (config c) eqn:E; [|js_auto]. apply evolves_bind; [apply _|by eapply Hconfig|js_auto]. Qed.
Lemma others_call_or c d : evolves others (call_or config c d).
Proof. unfold call_or. destruct (config c) eqn:E; [by eapply Hconfig|js_auto]. Qed.
#[local] Hint Resolve others_call others_call_or : js.

(** [holds o s]: this responder's handle is [o], and of all the handles it has asked
    for that one only is pending. *)
Record holds (o : option nat) (s : S) : Prop := {
  ho_handle : handle s = o;
  ho_bounded : bounded (manager s);
  ho_created : forall h, h ∈ created s -> h <= inc (manager s);
  ho_pending : forall h, h ∈ created s -> h ∈ pending_interactions (manager s) <-> o = Some h;
  ho_own : forall h, o = Some h -> h <> 0 /\ h ∈ created s
}.
Lemma holds_others o s s' : others s s' -> holds o s -> holds o s'.
Proof.
  intros [A1 A2 A3 A4 A5] [B1 B2 B3 B4 B5]. split; [congruence|auto|..]; rewrite A2; [|..|done].
  - intros h Hh. specialize (B3 h Hh). lia.
  - intros h Hh. rewrite A4 by done. auto.
Qed.
Lemma holds_evolves {A} o (m : JS S A) : evolves others m -> preserves (holds o) m.
Proof. intros H s Ho. exact (holds_others _ _ _ (H s) Ho). Qed.

Lemma scheduleUpdate_frame (m : IM) : exists m', scheduleUpdate m = (Ret tt, m') /\
  interactionSet m' = interactionSet m /\ addInteractionSet m' = addInteractionSet m /\
  deleteInteractionSet m' = deleteInteractionSet m /\ inc m' = inc m.
Proof.
  unfold scheduleUpdate, host_schedule. rewrite bind_gets. case_match; [|by eexists].
  rewrite bind_gets, bind_assoc, bind_gets, bind_assoc, bind_modify, bind_ret. by eexists.
Qed.
Lemma create_spec (m : IM) : bounded m -> exists h m', createInteractionHandle m = (Ret h, m') /\
  h = inc m + 1 /\ inc m' = h /\ bounded m' /\
  pending_interactions m' = {[h]} ∪ pending_interactions m.
Proof.
  intros Hb. unfold createInteractionHandle. destruct (scheduleUpdate_frame m) as (m1 & E & E1 & E2 & E3 & E4).
  rewrite (bind_of _ _ _ _ _ E), bind_gets, !bind_modify. unfold ret. eexists _, _. split; [done|].
  cbn. rewrite E4. split_and!; [done..| |].
  - intros h. cbn. rewrite E1, E2, E3. clear E E1 E2 E3 E4 Hconfig. specialize (Hb h). set_unfold.
    intros [[?|[->|?]]|?]; [|lia|..]; (assert (h <= inc m) by (apply Hb; tauto)); lia.
  - unfold pending_interactions. cbn. rewrite E1, E2, E3. clear E E1 E2 E3 E4 Hconfig. apply leibniz_equiv.
    assert (Hn : inc m + 1 ∉ deleteInteractionSet m).
    { intros Hd. assert (inc m + 1 <= inc m); [|lia]. apply Hb. clear -Hd. set_unfold. tauto. }
    intros h. clear Hb. set_unfold. destruct (decide (h = inc m + 1)) as [->|]; tauto.
Qed.
Lemma clear_spec (m : IM) h : bounded m -> h <> 0 -> h <= inc m -> exists m',
  InteractionManager.clearInteractionHandle h m = (Ret tt, m') /\ inc m' = inc m /\ bounded m' /\
  pending_interactions m' = pending_interactions m ∖ {[h]}.
Proof.
  intros Hb Hh Hi. unfold InteractionManager.clearInteractionHandle.
  destruct (Nat.eqb_spec h 0) as [|_]; [done|]. cbn [negb invariant].
  destruct (scheduleUpdate_frame m) as (m1 & E & E1 & E2 & E3 & E4).
  rewrite bind_ret, (bind_of _ _ _ _ _ E), bind_modify. unfold modify. eexists. split; [done|]. cbn. rewrite E4.
  split_and!; [done| |].
  - intros k. cbn. rewrite E1, E2, E3, E4. clear E E1 E2 E3 E4 Hconfig. specialize (Hb k). set_unfold.
    intros [[?|[? ?]]|[->|?]]; [apply Hb; tauto..|done|apply Hb; tauto].
  - unfold pending_interactions. cbn. rewrite E1, E2, E3. clear. apply leibniz_equiv. intros k. set_unfold. tauto.
Qed.

Lemma clear_holds o s c : holds o s -> holds None (final (clear_handle config c) s).
Proof.
  intros Ho. unfold clear_handle, final. rewrite bind_gets, (ho_handle _ _ Ho).
  destruct o as [h|]; [|by apply (holds_evolves None (call config c) (others_call c))].
  destruct (ho_own _ _ Ho h eq_refl) as [Hh Hc]. destruct (Nat.eqb_spec h 0) as [|_]; [done|].
  destruct (clear_spec (manager s) h (ho_bounded _ _ Ho) Hh (ho_created _ _ Ho h Hc)) as (m' & E & Ei & Hb & Hp).
  rewrite bind_assoc. unfold in_manager, bind at 1. rewrite E, bind_modify.
  apply (holds_evolves None (call config c) (others_call c)). destruct Ho as [O1 O2 O3 O4 O5]. split; cbn; try done.
  - intros k Hk. rewrite Ei. auto.
  - intros k Hk. rewrite Hp. specialize (O4 k Hk). set_solver.
Qed.
Lemma grant_holds s : holds None s -> exists h, holds (Some h) (final (onResponderGrant config) s).
Proof.
  intros Ho. unfold onResponderGrant, final. rewrite bind_gets, (ho_handle _ _ Ho). cbn [when].
  destruct (create_spec (manager s) (ho_bounded _ _ Ho)) as (h & m' & E & Eh & Ei & Hb & Hp).
  rewrite bind_assoc. unfold in_manager, bind at 1. rewrite E, bind_assoc, !bind_modify.
  exists h. match goal with |- holds _ (snd (?m ?s1)) => change (holds (Some h) (final m s1)) end.
  apply holds_evolves; [js_auto|]. destruct Ho as [O1 O2 O3 O4 O5]. split; cbn; try done.
  - intros k. rewrite elem_of_app, list_elem_of_singleton, Ei. intros [Hk| ->]; [|done]. specialize (O3 k Hk). lia.
  - intros k. rewrite elem_of_app, list_elem_of_singleton, Hp. intros [Hk| ->]; [|set_solver].
    specialize (O4 k Hk). specialize (O3 k Hk). assert (k <> h) by lia. set_solver.
  - intros k [= <-]. split; [lia|]. apply elem_of_app. right. by apply list_elem_of_singleton.
Qed.

(** ** Runs of the handlers *)
Inductive pan_op := Handler (c : event_type) (e : nativeEvent) (captured : bool) | Other (m : JS S unit).
Definition run_pan_op (o : pan_op) : JS S unit :=
  match o with Handler c e captured => panHandlers config c e captured | Other m => m end.
Definition run_pan (ops : list pan_op) (s : S) : S := foldl (fun s o => final (run_pan_op o) s) s ops.
Definition handled (ops : list pan_op) : list event_type :=
  omap (fun o => match o with
    | Handler c _ _ => if is_direct c then Some c else None
    | Other _ => None
    end) ops.
Definition harmless (o : pan_op) : Prop := match o with Other m => evolves others m | Handler _ _ _ => True end.

Definition handle_inv (p : standing) (s : S) : Prop :=
  exists o, holds o s /\ (p = Idle -> o = None) /\ (p = Granted -> o <> None).
Lemma handle_inv_others {A} (m : JS S A) p p' : evolves others m -> (p' = p \/ p' = Active) ->
  forall s, handle_inv p s -> handle_inv p' (final m s).
Proof.
  intros Hm Hp s (o & Ho & H1 & H2). exists o. split; [by apply (holds_evolves o m Hm)|].
  destruct Hp as [->| ->]; [done|]. by split.
Qed.
Lemma handle_inv_clear p' c (k : JS S unit) : evolves others k -> p' <> Granted ->
  forall s p, handle_inv p s -> handle_inv p' (final (do! clear_handle config c; k) s).
Proof.
  intros Hk Hp s p (o & Ho & _). exists None. split; [|by split; [|intros ->]].
  assert (Hc := clear_holds o s c Ho). unfold final, bind in *.
  destruct (clear_handle config c s) as [[a|e|] s1]; cbn in *; [|done..].
  by apply (holds_evolves None k Hk).
Qed.
Lemma handle_inv_clear_last p' c : p' <> Granted ->
  forall s p, handle_inv p s -> handle_inv p' (final (clear_handle config c) s).
Proof.
  intros Hp s p (o & Ho & _). exists None. split; [by eapply clear_holds|]. by split; [|intros ->].
Qed.
Lemma final_ignore {A} (m : JS S A) s : final (do! m; ret tt) s = final m s.
Proof. unfold final, bind. by destruct (m s) as [[] ?]. Qed.

Lemma other_handlers c e b : is_direct c = false -> evolves others (panHandlers config c e b).
Proof.
  destruct c; try done; intros _; cbn; try (destruct b);
    unfold onStartShouldSetResponderCapture, onStartShouldSetResponder, onMoveShouldSetResponderCapture,
      onMoveShouldSetResponder, accounted; js_auto.
Qed.
Lemma handler_step p p' c e b s : react p c = Some p' -> handle_inv p s ->
  handle_inv p' (final (panHandlers config c e b) s).
Proof.
  intros Hr Hi. assert (Hact : forall m : JS S unit, evolves others m -> p' = Active -> handle_inv p' (final m s)).
  { intros m Hm ->. by apply (handle_inv_others m p); [|right|]. }
  destruct c; try (destruct p; discriminate Hr); cbn [panHandlers].
  - apply Hact; [unfold onResponderStart; js_auto|destruct p; cbn in Hr; by simplify_eq].
  - apply Hact; [unfold onResponderMove, accounted; js_auto|destruct p; cbn in Hr; by simplify_eq].
  - assert (p' = Active) as -> by (destruct p; cbn in Hr; by simplify_eq). unfold onResponderEnd, final. rewrite bind_modify.
    eapply handle_inv_clear_last; [done|]. apply (handle_inv_others (modify (fun s => set_gesture
      (set_activeTouches (numberActiveTouches (touches_ s)) (gesture s)) s)) p p); [js_auto|by left|done].
  - assert (p' = Idle) as -> by (destruct p; cbn in Hr; by simplify_eq). unfold onResponderRelease.
    eapply handle_inv_clear; [js_auto|done|done].
  - apply Hact; [unfold onResponderTerminationRequest; js_auto|destruct p; cbn in Hr; by simplify_eq].
  - assert (p = Idle /\ p' = Granted) as [-> ->] by (destruct p; cbn in Hr; by simplify_eq).
    destruct Hi as (o & Ho & H1 & _). rewrite (H1 eq_refl) in Ho. rewrite final_ignore.
    destruct (grant_holds s Ho) as [h Hh]. by exists (Some h).
  - assert (p' = Idle) as -> by (destruct p; cbn in Hr; by simplify_eq). by eapply handle_inv_clear_last.
  - assert (p' = Idle) as -> by (destruct p; cbn in Hr; by simplify_eq). unfold onResponderTerminate.
    eapply handle_inv_clear; [js_auto|done|done].
Qed.
Lemma run_pan_inv ops p p' s : Forall harmless ops -> reads p (handled ops) = Some p' ->
  handle_inv p s -> handle_inv p' (run_pan ops s).
Proof.
  intros Ho. revert p s. induction Ho as [|o ops Ho _ IH]; intros p s Hr Hi; [by injection Hr as <-|].
  cbn in Hr |- *. destruct o as [c e b|m]; cbn [run_pan_op] in *.
  - destruct (is_direct c) eqn:Ed.
    + cbn in Hr. destruct (react p c) as [p1|] eqn:Ep; [|done]. apply (IH p1); [done|]. by eapply handler_step.
    + apply (IH p); [done|]. apply (handle_inv_others (panHandlers config c e b) p p); [by apply other_handlers|by left|done].
  - apply (IH p); [done|]. by apply (handle_inv_others m p p); [|left|].
Qed.
End handles.

(** C4. The interaction of a gesture.  Along any run of the handlers that follows the
    responder's protocol, with anything else happening in between: while the instance is
    idle this responder holds no interaction, between the grant and the first touch it
    holds one, and the only one of its interactions that is pending is the one it holds.
    So a gesture that is over, released, terminated or rejected, blocks nothing. *)
Theorem gesture_holds_one_interaction {W} (config : pan_callback -> option (JS (st W) value)) ops p id h im :
  (forall c f, config c = Some f -> evolves others f) -> Forall harmless ops -> bounded im ->
  reads Idle (handled ops) = Some p ->
  let s := run_pan config ops (create id h im) in
  (p = Idle -> handle s = None) /\ (p = Granted -> handle s <> None) /\
  (forall k, k ∈ created s -> k ∈ pending_interactions (manager s) <-> handle s = Some k).
Proof.
  intros Hc Ho Hb Hr s. destruct (run_pan_inv config Hc ops Idle p (create id h im) Ho Hr) as (o & Hs & H1 & H2).
  - exists None. split; [|by split]. split; cbn; try done; by intros ? ?%not_elem_of_nil.
  - fold s in Hs. destruct Hs as [<- _ _ O4 _]. by split_and!.
Qed.

(** A finger that goes up while another one stays clears the interaction, although the
    gesture goes on. *)
Example gesture_without_interaction :
  let ops := [Handler responderGrant EMPTY_NATIVE_EVENT false; Handler responderStart EMPTY_NATIVE_EVENT false;
    Handler responderStart EMPTY_NATIVE_EVENT false; Handler responderEnd EMPTY_NATIVE_EVENT false] in
  let s := run_pan (fun _ => None) ops (create 0 TouchHistory.init (InteractionManager.init tt)) in
  reads Idle (handled ops) = Some Active /\ handle s = None /\ pending_interactions (manager s) = ∅.
Proof. by vm_compute. Qed.

(** ** Distances *)
Section distances.
Context {W : Type}.
Abbreviation S := (st W).
Context (config : pan_callback -> option (JS S value)).

(** Callbacks that return and leave the gesture and the touches alone. *)
Definition quiet : Prop := forall c f, config c = Some f -> forall s, exists v s',
  f s = (Ret v, s') /\ gesture s' = gesture s /\ touches_ s' = touches_ s.

(** How far the fingers that moved have moved, on average. *)
Definition displacement (X : bool) (l : list TouchRecord) : Q :=
  match l with
  | [] => 0
  | _ => mean (fun r => coordinate X true r - coordinate X false r)%Q l
  end.
(** What [_updateGestureStateOnMove] does to a gesture. *)
Record moved_on (h : touchHistory) (g g' : GestureState) : Prop := {
  mo_moveX : (moveX g' == mean (coordinate true true) (moved h (accountsForMovesUpTo g)))%Q;
  mo_moveY : (moveY g' == mean (coordinate false true) (moved h (accountsForMovesUpTo g)))%Q;
  mo_dx : (dx g' == dx g + displacement true (moved h (accountsForMovesUpTo g)))%Q;
  mo_dy : (dy g' == dy g + displacement false (moved h (accountsForMovesUpTo g)))%Q;
  mo_vx : (vx g' == (dx g' - dx g) / inject_Z (mostRecentTimeStamp h - accountsForMovesUpTo g))%Q;
  mo_vy : (vy g' == (dy g' - dy g) / inject_Z (mostRecentTimeStamp h - accountsForMovesUpTo g))%Q;
  mo_number : activeTouches g' = numberActiveTouches h;
  mo_accounts : accountsForMovesUpTo g' = mostRecentTimeStamp h;
  mo_origin : x0 g' = x0 g /\ y0 g' = y0 g
}.

Lemma displacement_centroids X l (cur prev d : Q) :
  (cur == mean (coordinate X true) l)%Q -> (prev == mean (coordinate X false) l)%Q ->
  (d + (cur - prev) == d + displacement X l)%Q.
Proof.
  intros -> ->. destruct l as [|r l]; [cbn; ring|]. unfold displacement. rewrite mean_minus by done. ring.
Qed.
Lemma update_spec A (s : S) : follows A (touches_ s) -> exists s' : S,
  updateGestureStateOnMove s = (Ret tt, s') /\ touches_ s' = touches_ s /\
  moved_on (touches_ s) (gesture s) (gesture s').
Proof.
  intros Hf. unfold updateGestureStateOnMove, the_accounts, update. set (a := accountsForMovesUpTo (gesture s)).
  assert (Hc : forall X c, exists q, centroidDimension (touches_ s) a X c = Ret q /\
    (q == mean (coordinate X c) (moved (touches_ s) a))%Q) by (intros; by eapply centroid_dimension).
  destruct (Hc true true) as (cx & Ex & Hx), (Hc false true) as (cy & Ey & Hy),
    (Hc true false) as (px & Epx & Hpx), (Hc false false) as (py & Epy & Hpy).
  assert (Hcen : forall (f : touchHistory -> result Q) q B (k : Q -> JS S B) s1, touches_ s1 = touches_ s ->
    f (touches_ s) = Ret q -> bind (the_centroid f) k s1 = k q s1).
  { intros f q B k s1 E1 E2. apply bind_of. unfold the_centroid. by rewrite E1, E2. }
  rewrite bind_modify, bind_gets. cbn [gesture set_gesture accountsForMovesUpTo set_activeTouches]. fold a.
  rewrite (Hcen _ cx) by done. rewrite bind_modify, (Hcen _ cy) by done. rewrite bind_modify.
  rewrite (Hcen _ px), (Hcen _ cx), (Hcen _ py), (Hcen _ cy) by done.
  rewrite !bind_gets, !bind_modify. unfold modify. eexists. split; [done|]. split; [done|].
  split; cbn; fold a; try done; by apply displacement_centroids.
Qed.

Hypothesis Hq : quiet.
Lemma call_quiet c (s : S) : exists s' : S, call config c s = (Ret tt, s') /\
  gesture s' = gesture s /\ touches_ s' = touches_ s.
Proof.
  unfold call. destruct (config c) as [f|] eqn:E; [|by exists s].
  destruct (Hq c f E s) as (v & s' & Ef & H1 & H2). rewrite (bind_of _ _ _ _ _ Ef). by exists s'.
Qed.
Lemma call_or_quiet c d (s : S) : exists v (s' : S), call_or config c d s = (Ret v, s') /\
  gesture s' = gesture s /\ touches_ s' = touches_ s.
Proof. unfold call_or. destruct (config c) as [f|] eqn:E; [by apply (Hq c f E)|by eexists _, _]. Qed.

Lemma onResponderMove_spec A (s : S) : follows A (touches_ s) -> exists s' : S,
  onResponderMove config s = (Ret tt, s') /\ touches_ s' = touches_ s /\
  if (accountsForMovesUpTo (gesture s) =? mostRecentTimeStamp (touches_ s))%Z then s' = s
  else moved_on (touches_ s) (gesture s) (gesture s').
Proof.
  intros Hf. unfold onResponderMove, accounted. rewrite bind_gets.
  destruct (accountsForMovesUpTo (gesture s) =? mostRecentTimeStamp (touches_ s))%Z; [by exists s|].
  destruct (update_spec A s Hf) as (s1 & E & T1 & M). rewrite (bind_of _ _ _ _ _ E).
  destruct (call_quiet onPanResponderMove s1) as (s' & -> & G & T). exists s'. split_and!; [done|congruence|].
  by rewrite G.
Qed.

(** One finger: [drag i l] is the moves [l] of the finger [i], each recorded and passed
    to [onResponderMove]. *)
Definition in_touches {A} (m : JS touchHistory A) : JS S A := fun s =>
  let '(r, h) := m (touches_ s) in (r, set_touches h s).
Definition move_of (i : nat) (p : Q * Q * Z) : nativeEvent :=
  let x := ATouch (Build_touch (Some i) None p.1.1 p.1.2 None p.2) in Build_nativeEvent [x] (Some [x]) false.
Definition drag (i : nat) (l : list (Q * Q * Z)) : JS S unit :=
  for_each l (fun p => do! in_touches (recordTouchTrack topTouchMove (move_of i p)); onResponderMove config).
(** Times that increase, from [t] on. *)
Fixpoint increasing (t : Z) (l : list (Q * Q * Z)) : Prop :=
  match l with [] => True | p :: l' => (t < p.2)%Z /\ increasing p.2 l' end.

Lemma record_move i p h r : follows {[i]} h -> bank_get i (touchBank h) = Some r -> exists h' r',
  recordTouchTrack topTouchMove (move_of i p) h = (Ret tt, h') /\ follows {[i]} h' /\
  bank_get i (touchBank h') = Some r' /\ touchActive r' = true /\ currentTimeStamp r' = p.2 /\
  currentPageX r' = p.1.1 /\ currentPageY r' = p.1.2 /\
  previousPageX r' = currentPageX r /\ previousPageY r' = currentPageY r /\
  mostRecentTimeStamp h' = p.2.
Proof.
  intros Hf Hr. set (t := Build_touch (Some i) None p.1.1 p.1.2 None p.2).
  destruct (recordTouchMove_records t i h eq_refl) as (h' & E & HB & _ & _ & HM). rewrite Hr in *.
  assert (Ht : recordTouchTrack topTouchMove (move_of i p) h = (Ret tt, h')).
  { unfold recordTouchTrack, move_of. cbn [isMoveish changedTouches for_each]. fold t. by rewrite (bind_of _ _ _ _ _ E). }
  destruct (recordTouchTrack_follows topTouchMove {[i]} (move_of i p) {[i]} h Hf) as (h2 & E2 & Hf2).
  { split; [split; [by repeat constructor|cbn; apply NoDup_singleton]|]. split; [|done].
    unfold finger_set. cbn. set_solver. }
  rewrite Ht in E2. injection E2 as <-. exists h', (advance true t r). specialize (HB i).
  rewrite decide_True in HB by done. by split_and!.
Qed.
Lemma moved_single i h r a : follows {[i]} h -> bank_get i (touchBank h) = Some r ->
  touchActive r = true -> (a < currentTimeStamp r)%Z -> moved h a = [r].
Proof.
  intros [HA HN _] Hr Ha Ht. unfold moved, moving. rewrite HN, size_singleton. cbn.
  rewrite (single_active _ i r (fun r => touchActive r && (a <? currentTimeStamp r)%Z)).
  - rewrite Ha. by destruct (Z.ltb_spec a (currentTimeStamp r)); [|lia].
  - by intros x [? _]%andb_true_iff.
  - done.
  - intros j. specialize (HA j). unfold active in HA. rewrite HA. set_solver.
Qed.

Definition last_point (d : Q * Q * Z) (l : list (Q * Q * Z)) : Q * Q * Z := default d (last l).
Lemma drag_spec i l (s : S) r : follows {[i]} (touches_ s) -> bank_get i (touchBank (touches_ s)) = Some r ->
  increasing (accountsForMovesUpTo (gesture s)) l -> exists s' : S,
  let e := last_point (currentPageX r, currentPageY r, 0%Z) l in
  drag i l s = (Ret tt, s') /\
  (dx (gesture s') == dx (gesture s) + (e.1.1 - currentPageX r))%Q /\
  (dy (gesture s') == dy (gesture s) + (e.1.2 - currentPageY r))%Q /\
  x0 (gesture s') = x0 (gesture s) /\ y0 (gesture s') = y0 (gesture s) /\
  (l <> [] -> moveX (gesture s') == e.1.1 /\ moveY (gesture s') == e.1.2)%Q.
Proof.
  revert s r. induction l as [|p l IH]; intros s r Hf Hr Hinc; cbn zeta.
  { exists s. split_and!; try done; cbn; ring. }
  destruct Hinc as [Hlt Hinc].
  destruct (record_move i p _ r Hf Hr) as (h' & r' & E & Hf' & Hr' & Ha & Ht & HX & HY & HPX & HPY & HM).
  unfold drag. cbn [for_each]. fold (drag i l). rewrite !bind_assoc.
  assert (E1 : in_touches (recordTouchTrack topTouchMove (move_of i p)) s = (Ret tt, set_touches h' s))
    by (unfold in_touches; by rewrite E).
  rewrite (bind_of _ _ _ _ _ E1). set (s1 := set_touches h' s).
  destruct (onResponderMove_spec {[i]} s1 Hf') as (s2 & E2 & T2 & M).
  change (gesture s1) with (gesture s) in M. change (touches_ s1) with h' in *. rewrite HM in M.
  destruct (Z.eqb_spec (accountsForMovesUpTo (gesture s)) p.2); [lia|].
  rewrite (bind_of _ _ _ _ _ E2).
  assert (Hmv := moved_single i h' r' (accountsForMovesUpTo (gesture s)) Hf' Hr' Ha ltac:(lia)).
  destruct M as [MX MY DX DY _ _ _ AC [OX OY]]. rewrite Hmv in *.
  rewrite <- T2 in Hf', Hr'. destruct (IH s2 r' Hf' Hr') as (s' & E3 & D1 & D2 & O1 & O2 & Hm).
  { by rewrite AC, HM. }
  exists s'. split; [exact E3|].
  assert (Elast : last_point (currentPageX r, currentPageY r, 0%Z) (p :: l) =
    last_point p l) by (unfold last_point; rewrite last_cons; by destruct (last l)).
  rewrite Elast. clear Elast.
  assert (El : (last_point (currentPageX r', currentPageY r', 0%Z) l).1 = (last_point p l).1).
  { unfold last_point. destruct (last l); [done|]. cbn. rewrite HX, HY. by destruct p as [[]]. }
  rewrite El in D1, D2, Hm. unfold displacement, mean in DX, DY, MX, MY. cbn in DX, DY, MX, MY.
  rewrite HX, HPX in DX. rewrite HY, HPY in DY. rewrite HX in MX. rewrite HY in MY.
  split_and!; try congruence.
  - rewrite D1, DX, HX. field.
  - rewrite D2, DY, HY. field.
  - intros _. destruct l as [|p' l]; [|by apply Hm].
    cbn in E3. injection E3 as <-. unfold last_point. cbn. rewrite MX, MY. split; field.
Qed.

Lemma create_handle_returns (s : S) : exists (s' : S),
  (let! h := in_manager InteractionManager.createInteractionHandle in
   do! modify (fun s => set_created (created s ++ [h]) s); modify (set_handle (Some h))) s = (Ret tt, s') /\
  gesture s' = gesture s /\ touches_ s' = touches_ s.
Proof.
  unfold in_manager, createInteractionHandle. destruct (scheduleUpdate_frame (manager s)) as (m1 & E & _).
  unfold bind at 1. rewrite (bind_of _ _ _ _ _ E), bind_gets, !bind_modify. cbn. eexists. by split_and!.
Qed.
Lemma grant_returns i (s : S) r : follows {[i]} (touches_ s) -> bank_get i (touchBank (touches_ s)) = Some r ->
  (0 < currentTimeStamp r)%Z -> exists v (s' : S), onResponderGrant config s = (Ret v, s') /\
  touches_ s' = touches_ s /\ (x0 (gesture s') == currentPageX r)%Q /\ (y0 (gesture s') == currentPageY r)%Q /\
  dx (gesture s') = 0%Q /\ dy (gesture s') = 0%Q /\
  accountsForMovesUpTo (gesture s') = accountsForMovesUpTo (gesture s).
Proof.
  intros Hf Hr Ht. assert (Ha : touchActive r = true).
  { assert (Hi : active (touches_ s) i = true) by (apply Hf; set_solver). unfold active in Hi. by rewrite Hr in Hi. }
  unfold onResponderGrant. rewrite bind_gets.
  set (new := match handle s with Some h => h =? 0 | None => true end).
  assert (Hn : exists s1 : S, when new (let! h := in_manager InteractionManager.createInteractionHandle in
     do! modify (fun s => set_created (created s ++ [h]) s); modify (set_handle (Some h))) s = (Ret tt, s1) /\
     gesture s1 = gesture s /\ touches_ s1 = touches_ s).
  { destruct new; [apply create_handle_returns|by exists s]. }
  destruct Hn as (s1 & E1 & G1 & T1). rewrite (bind_of _ _ _ _ _ E1).
  assert (Hc : forall X, exists q, centroidDimension (touches_ s1) 0 X true = Ret q /\ (q == coordinate X true r)%Q).
  { intros X. rewrite T1. destruct (centroid_dimension {[i]} (touches_ s) 0 X true Hf) as (q & Eq & Hq').
    exists q. split; [done|]. rewrite Hq', (moved_single i _ r 0 Hf Hr Ha Ht). unfold mean. cbn. field. }
  destruct (Hc true) as (qx & Ex & Hx), (Hc false) as (qy & Ey & Hy).
  assert (E2 : the_centroid currentCentroidX s1 = (Ret qx, s1)) by (unfold the_centroid, currentCentroidX; by rewrite Ex).
  rewrite (bind_of _ _ _ _ _ E2). unfold update at 1. rewrite bind_modify.
  match goal with |- exists v s', bind _ _ ?s2 = _ /\ _ =>
    assert (E3 : the_centroid currentCentroidY s2 = (Ret qy, s2)) by (unfold the_centroid, currentCentroidY; cbn; by rewrite Ey)
  end.
  rewrite (bind_of _ _ _ _ _ E3). unfold update. rewrite !bind_modify.
  match goal with |- exists v s', bind _ _ ?s2 = _ /\ _ => set (s3 := s2) end.
  destruct (call_quiet onPanResponderGrant s3) as (s4 & E4 & G4 & T4). rewrite (bind_of _ _ _ _ _ E4).
  destruct (call_or_quiet onShouldBlockNativeResponder VTrue s4) as (v & s5 & E5 & G5 & T5).
  exists v, s5. rewrite G5, T5, G4, T4. subst s3. cbn. rewrite G1. by split_and!.
Qed.
End distances.

(** What a move adds.  While the touch history follows the fingers, a dispatch of
    [onResponderMove] whose time is accounted for changes nothing; any other sets
    [moveX] and [moveY] to the centroid of the fingers that moved since, adds their mean
    displacement to the distance, and accounts for the time; the velocity is that
    displacement over the time elapsed, which is not 0. *)
Theorem move_adds_mean_displacement {W} (config : pan_callback -> option (JS (st W) value)) A (s : st W) :
  quiet config -> follows A (touches_ s) -> exists s', onResponderMove config s = (Ret tt, s') /\
  if (accountsForMovesUpTo (gesture s) =? mostRecentTimeStamp (touches_ s))%Z then s' = s
  else moved_on (touches_ s) (gesture s) (gesture s') /\
    ~ (inject_Z (mostRecentTimeStamp (touches_ s) - accountsForMovesUpTo (gesture s)) == 0)%Q.
Proof.
  intros Hq Hf. destruct (onResponderMove_spec config Hq A s Hf) as (s' & E & _ & H). exists s'. split; [done|].
  destruct (Z.eqb_spec (accountsForMovesUpTo (gesture s)) (mostRecentTimeStamp (touches_ s))); [done|]. split; [done|].
  intros E0. unfold Qeq in E0. cbn in E0. lia.
Qed.

(** A drag with one finger.  Granted while one finger [i] is down, and moved at
    increasing times, the gesture has the finger's position at the grant as its origin,
    the way from there to the finger's last position as its distance, and that position
    as the position of the move. *)
Theorem drag_is_displacement {W} (config : pan_callback -> option (JS (st W) value)) i l (s : st W) r :
  quiet config -> follows {[i]} (touches_ s) -> bank_get i (touchBank (touches_ s)) = Some r ->
  (0 < currentTimeStamp r)%Z -> increasing (accountsForMovesUpTo (gesture s)) l -> exists s',
  let g := gesture s' in
  let e := last_point (currentPageX r, currentPageY r, 0%Z) l in
  (do! onResponderGrant config; drag config i l) s = (Ret tt, s') /\
  (x0 g == currentPageX r /\ y0 g == currentPageY r /\
   dx g == e.1.1 - x0 g /\ dy g == e.1.2 - y0 g /\
   (l <> [] -> moveX g == e.1.1 /\ moveY g == e.1.2))%Q.
Proof.
  intros Hq Hf Hr Ht Hinc.
  destruct (grant_returns config Hq i s r Hf Hr Ht) as (v & s1 & E1 & T1 & X1 & Y1 & D1 & D1' & A1).
  rewrite <- T1 in Hf, Hr. rewrite <- A1 in Hinc.
  destruct (drag_spec config Hq i l s1 r Hf Hr Hinc) as (s' & E & DX & DY & OX & OY & Hm).
  exists s'. cbn zeta. rewrite (bind_of _ _ _ _ _ E1), OX, OY. split_and!; try done.
  - rewrite DX, D1, X1. ring.
  - rewrite DY, D1', Y1. ring.
Qed.

(** ** Instances *)
Definition no_callbacks (c : pan_callback) : option (JS (st unit) value) := None.
Lemma no_callbacks_quiet : quiet no_callbacks.
Proof. done. Qed.
Definition one_finger : touchHistory := final (recordTouchTrack topTouchStart
  (Build_nativeEvent [a_finger 1 2 1] (Some [a_finger 1 2 1]) false)) TouchHistory.init.
Definition fresh : st unit := create 0 one_finger (InteractionManager.init tt).

Lemma gesture_holds_one_interaction_witness :
  let ops := [Handler responderGrant EMPTY_NATIVE_EVENT false; Handler responderStart EMPTY_NATIVE_EVENT false;
    Handler responderEnd EMPTY_NATIVE_EVENT false; Handler responderRelease EMPTY_NATIVE_EVENT false] in
  let s := run_pan no_callbacks ops fresh in
  created s = [1] /\ handle s = None.
Proof.
  split; [by vm_compute|].
  refine (proj1 (gesture_holds_one_interaction no_callbacks [Handler responderGrant EMPTY_NATIVE_EVENT false;
    Handler responderStart EMPTY_NATIVE_EVENT false; Handler responderEnd EMPTY_NATIVE_EVENT false;
    Handler responderRelease EMPTY_NATIVE_EVENT false] Idle 0%Q one_finger (InteractionManager.init tt) _ _ _ _) eq_refl).
  - done.
  - by repeat constructor.
  - intros h Hh. cbn in Hh. set_solver.
  - by vm_compute.
Defined.
Lemma move_adds_mean_displacement_witness : exists s',
  onResponderMove no_callbacks fresh = (Ret tt, s') /\ (moveX (gesture s') == 2)%Q.
Proof.
  destruct (move_adds_mean_displacement no_callbacks {[1]} fresh no_callbacks_quiet one_finger_follows) as (s' & E & H).
  exists s'. split; [done|]. destruct H as [[H _ _ _ _ _ _ _ _] _]. rewrite H. by vm_compute.
Defined.
Lemma drag_is_displacement_witness : exists s',
  (do! onResponderGrant no_callbacks; drag no_callbacks 1 [(5, 1, 2%Z); (4, 3, 7%Z)]%Q) fresh = (Ret tt, s') /\
  (dx (gesture s') == 2 /\ dy (gesture s') == 3)%Q.
Proof.
  destruct (drag_is_displacement no_callbacks 1 [(5, 1, 2%Z); (4, 3, 7%Z)]%Q fresh
    (createTouchRecord (Build_touch (Some 1) None 2 0 None 1)) no_callbacks_quiet one_finger_follows)
    as (s' & E & X0 & Y0 & DX & DY & _).
  - by vm_compute.
  - done.
  - by split.
  - exists s'. split; [exact E|]. rewrite DX, DY, X0, Y0. split; by vm_compute.
Defined.

(** The comment of [create] says that of two fingers that move five one after the other
    the distance is ten.  The code counts both fingers at each of the two moves, the
    first one's displacement twice: 7.5. *)
Definition start_two : nativeEvent :=
  Build_nativeEvent [a_finger 1 0 1; a_finger 2 100 1] (Some [a_finger 1 0 1; a_finger 2 100 1]) false.
Definition two_moves : JS (st unit) unit :=
  do! in_touches (recordTouchTrack topTouchStart start_two);
  do! onResponderGrant no_callbacks;
  do! in_touches (recordTouchTrack topTouchMove (Build_nativeEvent [a_finger 1 5 2] (Some [a_finger 1 5 2; a_finger 2 100 1]) false));
  do! onResponderMove no_callbacks;
  do! in_touches (recordTouchTrack topTouchMove (Build_nativeEvent [a_finger 2 105 3] (Some [a_finger 1 5 2; a_finger 2 105 3]) false));
  onResponderMove no_callbacks.
Example one_after_the_other :
  let s := final two_moves (create 0 TouchHistory.init (InteractionManager.init tt)) in
  Qeq_bool (dx (gesture s)) (15 # 2) = true.
Proof. by vm_compute. Qed.
