(* ===== verification/Matrix.v ===== *)
(** * Matrix arithmetic

    Libraries/Utilities/MatrixMath.js but for its decomposition of a matrix into
    transforms, which MatrixDecompose models.

    A matrix is an array of 16 numbers by rows; a point is a row vector, [v * M].  The
    code is generic in the type of its numbers (class [Numbers]); the theorems hold
    over any field (class [NumbersLaws]), of which the rationals are the instance that
    computes.  Numbers are exact: [None] is what is not a finite number, NaN, an
    infinity or the [undefined] of a missing entry, and absorbs every operation.

    The "commands" of the file mutate arrays their callers share, so these live in a
    [heap]; functions that only read arrays take and return their contents. *)
From S2P Require Import Prelude.
From stdpp Require Import base numbers list gmap.
From Stdlib Require Import Field QArith Qcanon.
Open Scope nat_scope.

(** ** Numbers *)
Class Numbers (A : Type) := {
  zero : A;
  one : A;
  add : A -> A -> A;
  mul : A -> A -> A;
  sub : A -> A -> A;
  opp : A -> A;
  div : A -> A -> A;
  inv : A -> A;
  of_Q : Q -> A;
  eqb : A -> A -> bool
}.
Class NumbersLaws (A : Type) `{Numbers A} := {
  numbers_field : field_theory zero one add mul sub opp div inv (@eq A);
  eqb_spec (a b : A) : eqb a b = true <-> a = b;
  of_Q_1 : of_Q 1 = one;
  of_Q_opp (p : Q) : of_Q (- p) = opp (of_Q p);
  of_Q_add (p q : Q) : of_Q (p + q) = add (of_Q p) (of_Q q);
  of_Q_2 : of_Q 2 <> zero
}.

#[export] Instance Qc_numbers : Numbers Qc := {
  zero := 0%Qc;
  one := 1%Qc;
  add := Qcplus;
  mul := Qcmult;
  sub := Qcminus;
  opp := Qcopp;
  div := Qcdiv;
  inv := Qcinv;
  of_Q := Q2Qc;
  eqb := Qc_eq_bool
}.
#[export] Instance Qc_laws : NumbersLaws Qc.
Proof.
  split.
  - apply Qcft.
  - intros a b. split; [apply Qc_eq_bool_correct|]. intros ->. unfold eqb; simpl. unfold Qc_eq_bool.
    by destruct (Qc_eq_dec b b).
  - done.
  - intros p. apply Qc_is_canon. simpl. by rewrite !Qred_correct.
  - intros p q. apply Qc_is_canon. simpl. by rewrite !Qred_correct.
  - by intros ?%(f_equal this).
Qed.

(** The Numbers of JavaScript. *)
Abbreviation num := option.
(** References to arrays, and the arrays they refer to. *)
Abbreviation loc := nat.
Abbreviation heap_of A := (gmap loc (list (num A))).

(** The functions of [Math] the sources use, on finite numbers and NaN. *)
Class MathLibrary (A : Type) := {
  Math_PI : num A;
  Math_sqrt : num A -> num A;
  Math_cos : num A -> num A;
  Math_sin : num A -> num A;
  Math_tan : num A -> num A
}.

Section Operators.
  Context {A : Type} `{Numbers A}.

Definition lift2 (f : A -> A -> A) (x y : num A) : num A :=
  match x, y with Some a, Some b => Some (f a b) | _, _ => None end.
Definition nadd : num A -> num A -> num A := lift2 add.
Definition nmul : num A -> num A -> num A := lift2 mul.
Definition nsub : num A -> num A -> num A := lift2 sub.
Definition nopp (x : num A) : num A := match x with Some a => Some (opp a) | None => None end.
Definition ndiv (x y : num A) : num A :=
  match x, y with
  | Some a, Some b => if eqb b zero then None else Some (div a b)
  | _, _ => None
  end.
Definition lit (q : Q) : num A := Some (of_Q q).
Definition n0 : num A := Some zero.
Definition n1 : num A := Some one.
(** [!x]. *)
Definition falsy (x : num A) : bool := match x with Some a => eqb a zero | None => true end.
(** [a[i]]. *)
Definition at_ (l : list (num A)) (i : nat) : num A := default None (l !! i).
(** [a[i] = x]: past the end the array grows, with holes. *)
Definition put (i : nat) (x : num A) (l : list (num A)) : list (num A) :=
  if i <? length l then <[i := x]> l else l ++ replicate (i - length l) None ++ [x].

End Operators.

Declare Scope num_scope.
Delimit Scope num_scope with num.
Infix "+" := nadd : num_scope.
Infix "*" := nmul : num_scope.
Infix "-" := nsub : num_scope.
Infix "/" := ndiv : num_scope.
Notation "- x" := (nopp x) : num_scope.
Notation "l .[ i ]" := (at_ l i) (at level 2, left associativity, format "l .[ i ]") : num_scope.

Section MatrixMath.
  Context {A : Type} `{Numbers A, MathLibrary A}.
  Local Open Scope num_scope.
  Local Notation num := (option A).

(** ** Functions that read arrays *)
Definition identityMatrix : list num :=
  [n1; n0; n0; n0; n0; n1; n0; n0; n0; n0; n1; n0; n0; n0; n0; n1].
Definition createCopy (m : list num) : list num :=
  [m.[0]; m.[1]; m.[2]; m.[3]; m.[4]; m.[5]; m.[6]; m.[7];
   m.[8]; m.[9]; m.[10]; m.[11]; m.[12]; m.[13]; m.[14]; m.[15]].

Definition createOrthographic (left right bottom top near far : num) : list num :=
  let a := lit 2 / (right - left) in
  let b := lit 2 / (top - bottom) in
  let c := - lit 2 / (far - near) in
  let tx := - (right + left) / (right - left) in
  let ty := - (top + bottom) / (top - bottom) in
  let tz := - (far + near) / (far - near) in
  [a; n0; n0; n0; n0; b; n0; n0; n0; n0; c; n0; tx; ty; tz; n1].
Definition createFrustum (left right bottom top near far : num) : list num :=
  let r_width := n1 / (right - left) in
  let r_height := n1 / (top - bottom) in
  let r_depth := n1 / (near - far) in
  let x := lit 2 * (near * r_width) in
  let y := lit 2 * (near * r_height) in
  let A := (right + left) * r_width in
  let B := (top + bottom) * r_height in
  let C := (far + near) * r_depth in
  let D := lit 2 * (far * near * r_depth) in
  [x; n0; n0; n0; n0; y; n0; n0; A; B; C; - n1; n0; n0; D; n0].
Definition createPerspective (fovInRadians aspect near far : num)
    : list num :=
  let h := n1 / Math_tan (fovInRadians / lit 2) in
  let r_depth := n1 / (near - far) in
  let C := (far + near) * r_depth in
  let D := lit 2 * (far * near * r_depth) in
  [h / aspect; n0; n0; n0; n0; h; n0; n0; n0; n0; C; - n1; n0; n0; D; n0].

Definition determinant (matrix : list num) : num :=
  let m00 := matrix.[0] in let m01 := matrix.[1] in let m02 := matrix.[2] in let m03 := matrix.[3] in
  let m10 := matrix.[4] in let m11 := matrix.[5] in let m12 := matrix.[6] in let m13 := matrix.[7] in
  let m20 := matrix.[8] in let m21 := matrix.[9] in let m22 := matrix.[10] in let m23 := matrix.[11] in
  let m30 := matrix.[12] in let m31 := matrix.[13] in let m32 := matrix.[14] in let m33 := matrix.[15] in
  m03 * m12 * m21 * m30 -
    m02 * m13 * m21 * m30 -
    m03 * m11 * m22 * m30 +
    m01 * m13 * m22 * m30 +
    m02 * m11 * m23 * m30 -
    m01 * m12 * m23 * m30 -
    m03 * m12 * m20 * m31 +
    m02 * m13 * m20 * m31 +
    m03 * m10 * m22 * m31 -
    m00 * m13 * m22 * m31 -
    m02 * m10 * m23 * m31 +
    m00 * m12 * m23 * m31 +
    m03 * m11 * m20 * m32 -
    m01 * m13 * m20 * m32 -
    m03 * m10 * m21 * m32 +
    m00 * m13 * m21 * m32 +
    m01 * m10 * m23 * m32 -
    m00 * m11 * m23 * m32 -
    m02 * m11 * m20 * m33 +
    m01 * m12 * m20 * m33 +
    m02 * m10 * m21 * m33 -
    m00 * m12 * m21 * m33 -
    m01 * m10 * m22 * m33 +
    m00 * m11 * m22 * m33.

(** A singular matrix is returned itself. *)
Definition inverse (matrix : list num) : list num :=
  let det := determinant matrix in
  if falsy det then matrix else
  let m00 := matrix.[0] in let m01 := matrix.[1] in let m02 := matrix.[2] in let m03 := matrix.[3] in
  let m10 := matrix.[4] in let m11 := matrix.[5] in let m12 := matrix.[6] in let m13 := matrix.[7] in
  let m20 := matrix.[8] in let m21 := matrix.[9] in let m22 := matrix.[10] in let m23 := matrix.[11] in
  let m30 := matrix.[12] in let m31 := matrix.[13] in let m32 := matrix.[14] in let m33 := matrix.[15] in
  [(m12 * m23 * m31 - m13 * m22 * m31 + m13 * m21 * m32 - m11 * m23 * m32 - m12 * m21 * m33 +
      m11 * m22 * m33) / det;
   (m03 * m22 * m31 - m02 * m23 * m31 - m03 * m21 * m32 + m01 * m23 * m32 + m02 * m21 * m33 -
      m01 * m22 * m33) / det;
   (m02 * m13 * m31 - m03 * m12 * m31 + m03 * m11 * m32 - m01 * m13 * m32 - m02 * m11 * m33 +
      m01 * m12 * m33) / det;
   (m03 * m12 * m21 - m02 * m13 * m21 - m03 * m11 * m22 + m01 * m13 * m22 + m02 * m11 * m23 -
      m01 * m12 * m23) / det;
   (m13 * m22 * m30 - m12 * m23 * m30 - m13 * m20 * m32 + m10 * m23 * m32 + m12 * m20 * m33 -
      m10 * m22 * m33) / det;
   (m02 * m23 * m30 - m03 * m22 * m30 + m03 * m20 * m32 - m00 * m23 * m32 - m02 * m20 * m33 +
      m00 * m22 * m33) / det;
   (m03 * m12 * m30 - m02 * m13 * m30 - m03 * m10 * m32 + m00 * m13 * m32 + m02 * m10 * m33 -
      m00 * m12 * m33) / det;
   (m02 * m13 * m20 - m03 * m12 * m20 + m03 * m10 * m22 - m00 * m13 * m22 - m02 * m10 * m23 +
      m00 * m12 * m23) / det;
   (m11 * m23 * m30 - m13 * m21 * m30 + m13 * m20 * m31 - m10 * m23 * m31 - m11 * m20 * m33 +
      m10 * m21 * m33) / det;
   (m03 * m21 * m30 - m01 * m23 * m30 - m03 * m20 * m31 + m00 * m23 * m31 + m01 * m20 * m33 -
      m00 * m21 * m33) / det;
   (m01 * m13 * m30 - m03 * m11 * m30 + m03 * m10 * m31 - m00 * m13 * m31 - m01 * m10 * m33 +
      m00 * m11 * m33) / det;
   (m03 * m11 * m20 - m01 * m13 * m20 - m03 * m10 * m21 + m00 * m13 * m21 + m01 * m10 * m23 -
      m00 * m11 * m23) / det;
   (m12 * m21 * m30 - m11 * m22 * m30 - m12 * m20 * m31 + m10 * m22 * m31 + m11 * m20 * m32 -
      m10 * m21 * m32) / det;
   (m01 * m22 * m30 - m02 * m21 * m30 + m02 * m20 * m31 - m00 * m22 * m31 - m01 * m20 * m32 +
      m00 * m21 * m32) / det;
   (m02 * m11 * m30 - m01 * m12 * m30 - m02 * m10 * m31 + m00 * m12 * m31 + m01 * m10 * m32 -
      m00 * m11 * m32) / det;
   (m01 * m12 * m20 - m02 * m11 * m20 + m02 * m10 * m21 - m00 * m12 * m21 - m01 * m10 * m22 +
      m00 * m11 * m22) / det].

Definition transpose (m : list num) : list num :=
  [m.[0]; m.[4]; m.[8]; m.[12]; m.[1]; m.[5]; m.[9]; m.[13];
   m.[2]; m.[6]; m.[10]; m.[14]; m.[3]; m.[7]; m.[11]; m.[15]].

Definition multiplyVectorByMatrix (v m : list num) : list num :=
  let vx := v.[0] in let vy := v.[1] in let vz := v.[2] in let vw := v.[3] in
  [vx * m.[0] + vy * m.[4] + vz * m.[8] + vw * m.[12];
   vx * m.[1] + vy * m.[5] + vz * m.[9] + vw * m.[13];
   vx * m.[2] + vy * m.[6] + vz * m.[10] + vw * m.[14];
   vx * m.[3] + vy * m.[7] + vz * m.[11] + vw * m.[15]].

Definition v3Length (a : list num) : num :=
  Math_sqrt (a.[0] * a.[0] + a.[1] * a.[1] + a.[2] * a.[2]).
Definition v3Normalize (vector : list num) (length : num) : list num :=
  let im := n1 / (if falsy length then v3Length vector else length) in
  [vector.[0] * im; vector.[1] * im; vector.[2] * im].
Definition v3Dot (a b : list num) : num := a.[0] * b.[0] + a.[1] * b.[1] + a.[2] * b.[2].
Definition v3Combine (a b : list num) (aScale bScale : num) : list num :=
  [aScale * a.[0] + bScale * b.[0]; aScale * a.[1] + bScale * b.[1];
   aScale * a.[2] + bScale * b.[2]].
Definition v3Cross (a b : list num) : list num :=
  [a.[1] * b.[2] - a.[2] * b.[1]; a.[2] * b.[0] - a.[0] * b.[2]; a.[0] * b.[1] - a.[1] * b.[0]].

(** ** The heap of arrays *)
Local Notation heap := (gmap loc (list num)).
Definition array (h : heap) (l : loc) : list num := default [] (h !! l).
Definition alloc (a : list num) : JS heap loc := fun h =>
  let l := fresh (dom h) in (Ret l, <[l := a]> h).
Definition load (l : loc) (i : nat) : JS heap num := gets (fun h => (array h l).[i]).
Definition store (l : loc) (i : nat) (x : num) : JS heap unit :=
  modify (fun h => <[l := put i x (array h l)]> h).

Definition createIdentityMatrix : JS heap loc := alloc identityMatrix.

Definition reuseTranslate2dCommand (matrixCommand : loc) (x y : num) : JS heap unit :=
  do! store matrixCommand 12 x; store matrixCommand 13 y.
Definition reuseTranslate3dCommand (matrixCommand : loc) (x y z : num) : JS heap unit :=
  do! store matrixCommand 12 x;
  do! store matrixCommand 13 y;
  store matrixCommand 14 z.
Definition createTranslate2d (x y : num) : JS heap loc :=
  let! mat := createIdentityMatrix in
  do! reuseTranslate2dCommand mat x y;
  ret mat.
Definition reuseScaleCommand (matrixCommand : loc) (factor : num) : JS heap unit :=
  do! store matrixCommand 0 factor; store matrixCommand 5 factor.
Definition createScale (factor : num) : JS heap loc :=
  let! mat := createIdentityMatrix in
  do! reuseScaleCommand mat factor;
  ret mat.
Definition reuseScale3dCommand (matrixCommand : loc) (x y z : num) : JS heap unit :=
  do! store matrixCommand 0 x;
  do! store matrixCommand 5 y;
  store matrixCommand 10 z.
Definition reusePerspectiveCommand (matrixCommand : loc) (p : num) : JS heap unit :=
  store matrixCommand 11 (- n1 / p).
Definition reuseScaleXCommand (matrixCommand : loc) (factor : num) : JS heap unit :=
  store matrixCommand 0 factor.
Definition reuseScaleYCommand (matrixCommand : loc) (factor : num) : JS heap unit :=
  store matrixCommand 5 factor.
Definition reuseScaleZCommand (matrixCommand : loc) (factor : num) : JS heap unit :=
  store matrixCommand 10 factor.

Definition reuseRotateXCommand (matrixCommand : loc) (radians : num)
    : JS heap unit :=
  do! store matrixCommand 5 (Math_cos radians);
  do! store matrixCommand 6 (Math_sin radians);
  do! store matrixCommand 9 (- Math_sin radians);
  store matrixCommand 10 (Math_cos radians).
Definition reuseRotateYCommand (matrixCommand : loc) (amount : num)
    : JS heap unit :=
  do! store matrixCommand 0 (Math_cos amount);
  do! store matrixCommand 2 (- Math_sin amount);
  do! store matrixCommand 8 (Math_sin amount);
  store matrixCommand 10 (Math_cos amount).
Definition reuseRotateZCommand (matrixCommand : loc) (radians : num)
    : JS heap unit :=
  do! store matrixCommand 0 (Math_cos radians);
  do! store matrixCommand 1 (Math_sin radians);
  do! store matrixCommand 4 (- Math_sin radians);
  store matrixCommand 5 (Math_cos radians).
Definition createRotateZ (radians : num) : JS heap loc :=
  let! mat := createIdentityMatrix in
  do! reuseRotateZCommand mat radians;
  ret mat.
Definition reuseSkewXCommand (matrixCommand : loc) (radians : num)
    : JS heap unit :=
  store matrixCommand 4 (Math_tan radians).
Definition reuseSkewYCommand (matrixCommand : loc) (radians : num)
    : JS heap unit :=
  store matrixCommand 1 (Math_tan radians).

Definition multiplyInto (out a b : loc) : JS heap unit :=
  let! a00 := load a 0 in
  let! a01 := load a 1 in
  let! a02 := load a 2 in
  let! a03 := load a 3 in
  let! a10 := load a 4 in
  let! a11 := load a 5 in
  let! a12 := load a 6 in
  let! a13 := load a 7 in
  let! a20 := load a 8 in
  let! a21 := load a 9 in
  let! a22 := load a 10 in
  let! a23 := load a 11 in
  let! a30 := load a 12 in
  let! a31 := load a 13 in
  let! a32 := load a 14 in
  let! a33 := load a 15 in
  let! b0 := load b 0 in
  let! b1 := load b 1 in
  let! b2 := load b 2 in
  let! b3 := load b 3 in
  do! store out 0 (b0 * a00 + b1 * a10 + b2 * a20 + b3 * a30);
  do! store out 1 (b0 * a01 + b1 * a11 + b2 * a21 + b3 * a31);
  do! store out 2 (b0 * a02 + b1 * a12 + b2 * a22 + b3 * a32);
  do! store out 3 (b0 * a03 + b1 * a13 + b2 * a23 + b3 * a33);
  let! b0 := load b 4 in
  let! b1 := load b 5 in
  let! b2 := load b 6 in
  let! b3 := load b 7 in
  do! store out 4 (b0 * a00 + b1 * a10 + b2 * a20 + b3 * a30);
  do! store out 5 (b0 * a01 + b1 * a11 + b2 * a21 + b3 * a31);
  do! store out 6 (b0 * a02 + b1 * a12 + b2 * a22 + b3 * a32);
  do! store out 7 (b0 * a03 + b1 * a13 + b2 * a23 + b3 * a33);
  let! b0 := load b 8 in
  let! b1 := load b 9 in
  let! b2 := load b 10 in
  let! b3 := load b 11 in
  do! store out 8 (b0 * a00 + b1 * a10 + b2 * a20 + b3 * a30);
  do! store out 9 (b0 * a01 + b1 * a11 + b2 * a21 + b3 * a31);
  do! store out 10 (b0 * a02 + b1 * a12 + b2 * a22 + b3 * a32);
  do! store out 11 (b0 * a03 + b1 * a13 + b2 * a23 + b3 * a33);
  let! b0 := load b 12 in
  let! b1 := load b 13 in
  let! b2 := load b 14 in
  let! b3 := load b 15 in
  do! store out 12 (b0 * a00 + b1 * a10 + b2 * a20 + b3 * a30);
  do! store out 13 (b0 * a01 + b1 * a11 + b2 * a21 + b3 * a31);
  do! store out 14 (b0 * a02 + b1 * a12 + b2 * a22 + b3 * a32);
  store out 15 (b0 * a03 + b1 * a13 + b2 * a23 + b3 * a33).

End MatrixMath.

(** ** The matrices the arrays stand for

    [mat] is a 4 by 4 matrix by its entries, with the product of rows by columns and
    the determinant by expansion along the first row. *)
Section Reference.
  Context {A : Type} `{Numbers A}.

Definition mat : Type := nat -> nat -> A.
Definition sum4 (f : nat -> A) : A := add (add (add (f 0) (f 1)) (f 2)) (f 3).
Definition mmul (X Y : mat) : mat := fun i j => sum4 (fun k => mul (X i k) (Y k j)).
Definition mid : mat := fun i j => if i =? j then one else zero.
Definition vapp (v : nat -> A) (X : mat) : nat -> A := fun j => sum4 (fun k => mul (v k) (X k j)).
Definition skip (i r : nat) : nat := if r <? i then r else S r.
Definition minor (i j : nat) (X : mat) : mat := fun r c => X (skip i r) (skip j c).
Definition sign (j : nat) : A := if Nat.even j then one else opp one.
Fixpoint mdet (n : nat) (X : mat) : A :=
  match n with
  | 0 => one
  | S n' => foldr add zero ((fun j => mul (mul (sign j) (X 0 j)) (mdet n' (minor 0 j X))) <$> seq 0 n)
  end.

Definition adjugate (X : mat) : mat := fun i j => mul (sign (i + j)) (mdet 3 (minor j i X)).

(** The array of a matrix and of a row vector; the matrix of an array. *)
Definition vec (v : nat -> A) : list (num A) := (fun j => Some (v j)) <$> seq 0 4.
Definition flat (X : mat) : list (num A) := concat ((fun i => vec (X i)) <$> seq 0 4).
Definition of_array (a : list (num A)) : mat := fun i j => default zero (a.[4 * i + j])%num.
Definition is_matrix (a : list (num A)) : Prop := exists X, a = flat X.
End Reference.
Arguments mat _ : clear implicits.

(** Arrays of finite numbers are equal entry by entry. *)
Lemma cons_some_eq {A} (a b : A) k l : a = b -> k = l -> Some a :: k = Some b :: l.
Proof. by intros -> ->. Qed.
Ltac each_entry := repeat (apply cons_some_eq); [..|reflexivity].

Section Laws.
  Context {A : Type} `{NumbersLaws A, !MathLibrary A}.
  Implicit Types (X Y M : mat A) (v : nat -> A).
  Local Notation heap := (heap_of A).
  Add Field numbers : (numbers_field (A:=A)).

Lemma of_array_flat X i j : i < 4 -> j < 4 -> of_array (flat X) i j = X i j.
Proof. intros Hi Hj. do 4 (destruct i as [|i]; [do 4 (destruct j as [|j]; [done|]); lia|]). lia. Qed.
Lemma flat_ext X Y : (forall i j, i < 4 -> j < 4 -> X i j = Y i j) -> flat X = flat Y.
Proof. intros E. unfold flat, vec. cbn. by rewrite !E by lia. Qed.
Lemma flat_inj X Y i j : flat X = flat Y -> i < 4 -> j < 4 -> X i j = Y i j.
Proof. intros E Hi Hj. by rewrite <- (of_array_flat X), <- (of_array_flat Y), E. Qed.
Lemma flat_mmul_ext X X' Y Y' :
  flat X = flat X' -> flat Y = flat Y' -> flat (mmul X Y) = flat (mmul X' Y').
Proof.
  intros EX EY. apply flat_ext. intros i j Hi Hj. unfold mmul, sum4.
  by rewrite !(flat_inj X X' i), !(flat_inj Y Y') by (done || lia).
Qed.
Lemma flat_finite (a : list (num A)) :
  length a = 16 -> (forall x, x ∈ a -> x <> None) -> is_matrix a.
Proof.
  intros Hl Hf. exists (of_array a).
  assert (Hs : forall i, i < 16 -> a !! i = Some (Some (default zero (a.[i])%num))).
  { intros i Hi. unfold at_. assert (is_Some (a !! i)) as [y E] by (apply lookup_lt_is_Some; lia).
    destruct y as [x|]; [by rewrite !E|].
    destruct (Hf None); [by eapply list_elem_of_lookup_2|done]. }
  apply list_eq. intros i. destruct (decide (i < 16)) as [Hi|Hi].
  - rewrite Hs by done. do 16 (destruct i as [|i]; [done|]). lia.
  - rewrite (lookup_ge_None_2 a) by lia. symmetry. apply lookup_ge_None_2. cbn. lia.
Qed.

Lemma mdet_ext n X Y :
  (forall i j, i < n -> j < n -> X i j = Y i j) -> mdet n X = mdet n Y.
Proof.
  revert X Y. induction n as [|n IH]; intros X Y E; [done|].
  change (foldr add zero ((fun j => mul (mul (sign j) (X 0 j)) (mdet n (minor 0 j X))) <$> seq 0 (S n))
    = foldr add zero ((fun j => mul (mul (sign j) (Y 0 j)) (mdet n (minor 0 j Y))) <$> seq 0 (S n))).
  f_equal. apply list_fmap_ext. intros k j [-> Hk]%lookup_seq. rewrite E by lia. f_equal.
  apply IH. intros i c Hi Hc. apply E; unfold skip; case_match; lia.
Qed.

Lemma determinant_flat X : determinant (flat X) = Some (mdet 4 X).
Proof. cbn. f_equal. unfold sign, minor, skip. cbn. ring. Qed.
Lemma multiplyVectorByMatrix_flat v X : multiplyVectorByMatrix (vec v) (flat X) = vec (vapp v X).
Proof. done. Qed.
Lemma transpose_flat X : transpose (flat X) = flat (fun i j => X j i).
Proof. done. Qed.
Lemma mdet_mmul X Y : mdet 4 (mmul X Y) = mul (mdet 4 X) (mdet 4 Y).
Proof. unfold mmul, sum4. cbn. unfold sign, minor, skip. cbn. ring. Qed.
Lemma mdet_mid : mdet 4 (mid (A:=A)) = one.
Proof. cbn. unfold sign, minor, skip, mid. cbn. ring. Qed.

(** ** Inverses *)
Lemma ndiv_some (a b : A) : b <> zero -> (Some a / Some b)%num = Some (div a b).
Proof. intros Hb. unfold ndiv. destruct (eqb b zero) eqn:E; [|done]. by apply eqb_spec in E. Qed.
Lemma falsy_some (a : A) : falsy (Some a) = true <-> a = zero.
Proof. apply eqb_spec. Qed.
(** A row of quotients by [d] times a column. *)
Lemma quotients_l (d k c0 c1 c2 c3 x0 x1 x2 x3 : A) : d <> zero ->
  add (add (add (mul c0 x0) (mul c1 x1)) (mul c2 x2)) (mul c3 x3) = mul k d ->
  add (add (add (mul (div c0 d) x0) (mul (div c1 d) x1)) (mul (div c2 d) x2)) (mul (div c3 d) x3) = k.
Proof.
  intros Hd E. transitivity (div (mul k d) d); [rewrite <- E|]; by field.
Qed.
Lemma quotients_r (d k c0 c1 c2 c3 x0 x1 x2 x3 : A) : d <> zero ->
  add (add (add (mul x0 c0) (mul x1 c1)) (mul x2 c2)) (mul x3 c3) = mul k d ->
  add (add (add (mul x0 (div c0 d)) (mul x1 (div c1 d))) (mul x2 (div c2 d))) (mul x3 (div c3 d)) = k.
Proof.
  intros Hd E. transitivity (div (mul k d) d); [rewrite <- E|]; by field.
Qed.

Lemma inverse_singular X : mdet 4 X = zero -> inverse (flat X) = flat X.
Proof. intros E. unfold inverse. rewrite determinant_flat. cbv zeta. by rewrite (proj2 (falsy_some _) E). Qed.
Lemma inverse_adjugate X : mdet 4 X <> zero ->
  inverse (flat X) = flat (fun i j => div (adjugate X i j) (mdet 4 X)).
Proof.
  intros Hd. set (d := mdet 4 X) in *. unfold inverse. rewrite determinant_flat. fold d. cbv zeta.
  destruct (falsy (Some d)) eqn:F; [by apply falsy_some in F|]. clear F.
  cbn -[ndiv mdet]. rewrite !ndiv_some by done. 
  repeat f_equal; unfold adjugate, sign, minor, skip; cbn; unfold sign, minor, skip; cbn; ring.
Qed.
Lemma adjugate_l X : flat (mmul (adjugate X) X) = flat (fun i j => mul (mid i j) (mdet 4 X)).
Proof.
  cbn. unfold mmul, sum4, mid, adjugate, sign, minor, skip. cbn. unfold sign, minor, skip. cbn.
  repeat f_equal; ring.
Qed.
Lemma adjugate_r X : flat (mmul X (adjugate X)) = flat (fun i j => mul (mid i j) (mdet 4 X)).
Proof.
  cbn. unfold mmul, sum4, mid, adjugate, sign, minor, skip. cbn. unfold sign, minor, skip. cbn.
  repeat f_equal; ring.
Qed.

Definition inverse_of X : mat A := fun i j => div (adjugate X i j) (mdet 4 X).
Lemma inverse_of_l X : mdet 4 X <> zero -> flat (mmul (inverse_of X) X) = flat mid.
Proof.
  intros Hd. apply flat_ext. intros i j Hi Hj. apply (quotients_l (mdet 4 X)); [done|].
  exact (flat_inj _ (fun i j => mul (mid i j) (mdet 4 X)) i j (adjugate_l X) Hi Hj).
Qed.
Lemma inverse_of_r X : mdet 4 X <> zero -> flat (mmul X (inverse_of X)) = flat mid.
Proof.
  intros Hd. apply flat_ext. intros i j Hi Hj. apply (quotients_r (mdet 4 X)); [done|].
  exact (flat_inj _ (fun i j => mul (mid i j) (mdet 4 X)) i j (adjugate_r X) Hi Hj).
Qed.
Lemma mdet_inverse_of X : mdet 4 X <> zero -> mul (mdet 4 (inverse_of X)) (mdet 4 X) = one.
Proof.
  intros Hd. rewrite <- mdet_mmul, <- mdet_mid. apply mdet_ext. intros i j Hi Hj.
  exact (flat_inj _ mid i j (inverse_of_l X Hd) Hi Hj).
Qed.

Lemma vapp_mmul v X Y j : vapp v (mmul X Y) j = vapp (vapp v X) Y j.
Proof. unfold vapp, mmul, sum4. ring. Qed.
Lemma vec_ext v w : (forall j, j < 4 -> v j = w j) -> vec v = vec w.
Proof. intros E. unfold vec. cbn. by rewrite !E by lia. Qed.
Lemma vec_inj v w j : vec v = vec w -> j < 4 -> v j = w j.
Proof.
  intros E Hj. assert (E' : (vec v).[j]%num = (vec w).[j]%num) by by rewrite E.
  do 4 (destruct j as [|j]; [by injection E'|]). lia.
Qed.
Lemma vapp_ext v X Y : flat X = flat Y -> vec (vapp v X) = vec (vapp v Y).
Proof.
  intros E. apply vec_ext. intros j Hj. unfold vapp, sum4. by rewrite !(flat_inj X Y) by (done || lia).
Qed.
Lemma vapp_mid v : vec (vapp v mid) = vec v.
Proof. cbn. unfold vapp, sum4, mid. cbn. repeat f_equal; ring. Qed.
Lemma vapp_through v X Y : vec (vapp (vapp v X) Y) = vec (vapp v (mmul X Y)).
Proof. apply vec_ext. intros j _. by rewrite vapp_mmul. Qed.

(** ** Products of arrays that may be one array *)
Lemma array_insert (h : heap) l a k : array (<[l := a]> h) k = (if decide (l = k) then a else array h k).
Proof.
  unfold array. case_decide; [subst; by rewrite lookup_insert_eq|by rewrite lookup_insert_ne].
Qed.
Lemma at_put_ne i j (x : num A) l : i <> j -> ((put i x l).[j] = l.[j])%num.
Proof.
  intros Hne. unfold at_, put. destruct (Nat.ltb_spec i (length l)) as [Hi|Hi]; [by rewrite list_lookup_insert_ne|].
  destruct (decide (j < length l)) as [Hj|Hj]; [by rewrite lookup_app_l|].
  rewrite lookup_app_r, (lookup_ge_None_2 l) by lia.
  destruct (decide (j < i)) as [Hji|Hji].
  - by rewrite lookup_app_l, lookup_replicate_2 by (rewrite ?length_replicate; lia).
  - by rewrite lookup_ge_None_2 by (rewrite length_app, length_replicate; simpl; lia).
Qed.
Lemma puts16 (l : list (num A)) x0 x1 x2 x3 x4 x5 x6 x7 x8 x9 x10 x11 x12 x13 x14 x15 :
  length l <= 16 ->
  put 15 x15 (put 14 x14 (put 13 x13 (put 12 x12 (put 11 x11 (put 10 x10 (put 9 x9 (put 8 x8
    (put 7 x7 (put 6 x6 (put 5 x5 (put 4 x4 (put 3 x3 (put 2 x2 (put 1 x1 (put 0 x0 l)))))))))))))))
  = [x0; x1; x2; x3; x4; x5; x6; x7; x8; x9; x10; x11; x12; x13; x14; x15].
Proof.
  intros Hl. do 16 (destruct l as [|? l]; [reflexivity|]).
  destruct l; [reflexivity|simpl in Hl; lia].
Qed.

Lemma bind_load {B} l i (k : num A -> JS heap B) (h : heap) :
  bind (load l i) k h = k ((array h l).[i])%num h.
Proof. done. Qed.
Lemma bind_load_other {B} out l b i (k : num A -> JS heap B) (h : heap) :
  (l.[i] = (array h out).[i])%num ->
  bind (load b i) k (<[out := l]> h) = k ((array h b).[i])%num (<[out := l]> h).
Proof.
  intros E. rewrite bind_load, array_insert. case_decide as D; [|done]. by rewrite E, D.
Qed.
Lemma bind_store {B} l i x (k : unit -> JS heap B) (h : heap) :
  bind (store l i x) k h = k tt (<[l := put i x (array h l)]> h).
Proof. done. Qed.
Lemma bind_store_again {B} out l i x (k : unit -> JS heap B) (h : heap) :
  bind (store out i x) k (<[out := l]> h) = k tt (<[out := put i x l]> h).
Proof. by rewrite bind_store, array_insert, decide_True, insert_insert_eq. Qed.
Lemma store_again out l i x (h : heap) :
  store out i x (<[out := l]> h) = (Ret tt, <[out := put i x l]> h).
Proof.
  unfold store, modify. by rewrite array_insert, decide_True, insert_insert_eq.
Qed.

(** The product of the arrays [a] and [b], where they may lack entries. *)
Definition product (a b : list (num A)) : list (num A) :=
  concat ((fun i => (fun j =>
    b.[4 * i] * a.[j] + b.[4 * i + 1] * a.[4 + j] + b.[4 * i + 2] * a.[8 + j] + b.[4 * i + 3] * a.[12 + j])%num
    <$> seq 0 4) <$> seq 0 4).
Lemma multiplyInto_product (h : heap) out a b :
  length (array h out) <= 16 ->
  multiplyInto out a b h = (Ret tt, <[out := product (array h a) (array h b)]> h).
Proof.
  intros Hl. unfold multiplyInto. rewrite !(bind_load a), !(bind_load b), bind_store.
  repeat (repeat rewrite bind_store_again;
          repeat (rewrite bind_load_other by (by rewrite !at_put_ne))).
  rewrite store_again, puts16 by done. done.
Qed.
Lemma multiplyInto_flat (h : heap) out a b X Y :
  array h a = flat X -> array h b = flat Y -> length (array h out) <= 16 ->
  multiplyInto out a b h = (Ret tt, <[out := flat (mmul Y X)]> h).
Proof. intros Ha Hb Hl. rewrite multiplyInto_product, Ha, Hb by done. done. Qed.

(** ** Products and inverses *)

(** [multiplyInto] writes the matrix that applies [b] and then [a] to a point,
    whatever of [out], [a] and [b] are one array, changes no other array, and
    determinants multiply. *)
Theorem product_composes (h : heap) out a b :
  is_matrix (array h a) -> is_matrix (array h b) -> length (array h out) <= 16 ->
  exists m, multiplyInto out a b h = (Ret tt, <[out := m]> h) /\ is_matrix m /\
    (forall v, multiplyVectorByMatrix (vec v) m
       = multiplyVectorByMatrix (multiplyVectorByMatrix (vec v) (array h b)) (array h a)) /\
    determinant m = (determinant (array h b) * determinant (array h a))%num.
Proof.
  intros [X EX] [Y EY] Hl. exists (flat (mmul Y X)). rewrite EX, EY.
  split_and!; [by apply multiplyInto_flat|by eexists| |].
  - intros v. by rewrite !multiplyVectorByMatrix_flat, vapp_through.
  - rewrite !determinant_flat, mdet_mmul. done.
Qed.

(** The inverse of a matrix with a determinant that is not zero undoes it, on
    either side, and has the inverse determinant; a singular matrix is returned
    unchanged. *)
Theorem inverse_undoes (a : list (num A)) :
  is_matrix a ->
  if falsy (determinant a) then inverse a = a
  else is_matrix (inverse a) /\
    (determinant (inverse a) * determinant a)%num = n1 /\
    forall v, multiplyVectorByMatrix (multiplyVectorByMatrix (vec v) a) (inverse a) = vec v /\
              multiplyVectorByMatrix (multiplyVectorByMatrix (vec v) (inverse a)) a = vec v.
Proof.
  intros [X ->]. rewrite determinant_flat. destruct (falsy _) eqn:F.
  - apply inverse_singular. by apply falsy_some.
  - assert (Hd : mdet 4 X <> zero) by (intros E; by rewrite (proj2 (falsy_some _) E) in F).
    rewrite inverse_adjugate by done. fold (inverse_of X). split_and!; [by eexists| |].
    + rewrite determinant_flat. unfold nmul, lift2, n1. by rewrite mdet_inverse_of.
    + intros v. rewrite !multiplyVectorByMatrix_flat, !vapp_through.
      rewrite (vapp_ext v _ mid (inverse_of_r X Hd)), (vapp_ext v _ mid (inverse_of_l X Hd)).
      by rewrite !vapp_mid.
Qed.

(** ** Projections *)
Definition point (x y z w : A) : list (num A) := [Some x; Some y; Some z; Some w].
Definition twice (a : A) : A := add a a.

Lemma of_Q_twice : of_Q 2 = twice one.
Proof. unfold twice. by rewrite <- of_Q_1, <- of_Q_add. Qed.
Lemma twice_nonzero : twice one <> zero.
Proof. rewrite <- of_Q_twice. apply of_Q_2. Qed.
Lemma sub_nonzero a b : a <> b -> sub a b <> zero.
Proof. intros Hne E. destruct Hne. transitivity (add (sub a b) b); [ring|]. rewrite E. ring. Qed.

(** The point at the fractions [s], [u], [w] of a box, and of the cube from -1 to 1. *)
Definition between (lo hi s : A) : A := add lo (mul s (sub hi lo)).
Definition clip (s : A) : A := between (opp one) one s.

Ltac finite_entries :=
  repeat match goal with
  | |- context [ndiv (Some ?a) (Some ?b)] => rewrite (ndiv_some a b) by eauto using sub_nonzero
  end; cbn -[ndiv].

Lemma orthographic_maps l r b t n f s u w :
  l <> r -> b <> t -> n <> f ->
  multiplyVectorByMatrix
    (point (between l r s) (between b t u) (opp (between n f w)) one)
    (createOrthographic (Some l) (Some r) (Some b) (Some t) (Some n) (Some f))
  = point (clip s) (clip u) (clip w) one.
Proof.
  intros Hx Hy Hz. unfold createOrthographic, lit. rewrite of_Q_twice. unfold n0, n1. cbn -[ndiv].
  finite_entries. unfold multiplyVectorByMatrix, point, clip, between, twice. cbn.
  each_entry; field; auto using sub_nonzero.
Qed.

(** A point at the depth [z] of a frustum, seen at [x], [y] on the near plane. *)
Definition seen_at (n x y z : A) : list (num A) :=
  point (div (mul z x) n) (div (mul z y) n) (opp z) one.
Definition scaled (k : A) (x y z : A) : list (num A) := point (mul k x) (mul k y) (mul k z) k.

Lemma frustum_maps l r b t n f s u z k :
  l <> r -> b <> t -> n <> f -> n <> zero -> z = n /\ k = opp one \/ z = f /\ k = one ->
  multiplyVectorByMatrix (seen_at n (between l r s) (between b t u) z)
    (createFrustum (Some l) (Some r) (Some b) (Some t) (Some n) (Some f))
  = scaled z (clip s) (clip u) k.
Proof.
  intros Hx Hy Hz Hn Hk. unfold createFrustum, lit. rewrite of_Q_twice. unfold n0, n1. cbn -[ndiv].
  finite_entries. unfold multiplyVectorByMatrix, seen_at, scaled, point, clip, between, twice.
  destruct Hk as [[-> ->]|[-> ->]]; cbn; each_entry; field; auto using sub_nonzero.
Qed.
Lemma perspective_frustum fov aspect n f T :
  Math_tan (fov / lit 2)%num = Some T -> T <> zero -> aspect <> zero -> n <> zero -> n <> f ->
  let top := mul n T in let right := mul top aspect in
  createPerspective fov (Some aspect) (Some n) (Some f)
  = createFrustum (Some (opp right)) (Some right) (Some (opp top)) (Some top) (Some n) (Some f).
Proof.
  intros HT H1 H2 H3 H4 top right. unfold createPerspective. rewrite HT.
  unfold createFrustum, lit. rewrite of_Q_twice. unfold n0, n1. cbn -[ndiv].
  assert (right <> opp right /\ top <> opp top) as [Hr Ht].
  { split; intros E; apply twice_nonzero.
    - transitivity (div (sub right (opp right)) right); [unfold twice, right, top; by field|].
      rewrite <- E. unfold right, top. by field.
    - transitivity (div (sub top (opp top)) top); [unfold twice, top; by field|].
      rewrite <- E. unfold top. by field. }
  finite_entries. unfold right, top, twice in *. each_entry; field;
    repeat split; auto using sub_nonzero.
Qed.

(** The projections map what they are to show to the cube from -1 to 1:
    [createOrthographic] its box, and [createFrustum] its near and far planes (times
    the depth, which becomes [w]). *)
Theorem projections_fill_the_cube l r b t n f :
  l <> r -> b <> t -> n <> f -> n <> zero ->
  (forall s u w, multiplyVectorByMatrix
     (point (between l r s) (between b t u) (opp (between n f w)) one)
     (createOrthographic (Some l) (Some r) (Some b) (Some t) (Some n) (Some f))
   = point (clip s) (clip u) (clip w) one) /\
  (forall s u, let frustum := createFrustum (Some l) (Some r) (Some b) (Some t) (Some n) (Some f) in
     multiplyVectorByMatrix (seen_at n (between l r s) (between b t u) n) frustum
       = scaled n (clip s) (clip u) (opp one) /\
     multiplyVectorByMatrix (seen_at n (between l r s) (between b t u) f) frustum
       = scaled f (clip s) (clip u) one).
Proof.
  intros Hx Hy Hz Hn. split.
  - intros s u w. by apply orthographic_maps.
  - intros s u. split; apply frustum_maps; auto.
Qed.
End Laws.

(** ** Examples, over the rationals *)
Definition qc (n : Z) : Qc := Q2Qc (inject_Z n).
Definition matrix_of (l : list Z) : list (num Qc) := (fun n => Some (qc n)) <$> l.
Definition sheared := matrix_of [2; 1; 0; 0; 0; 3; 0; 0; 0; 0; 1; 0; 5; 7; 0; 1]%Z.
Lemma qc_matrix l : length l = 16 -> is_matrix (matrix_of l).
Proof.
  intros Hl. apply flat_finite; [by unfold matrix_of; rewrite length_fmap|].
  intros x (n & -> & _)%list_elem_of_fmap. done.
Qed.
Lemma qc_neq m n : m <> n -> qc m <> qc n.
Proof.
  intros Hne E%(f_equal this). unfold qc in E. simpl in E.
  rewrite !(Qred_identity (inject_Z _)) in E; [by injection E| |]; apply Z.gcd_1_r.
Qed.

(** Squaring a matrix in place. *)
Example square_in_place :
  map (option_map this) (array (final (multiplyInto 0 0 0) {[0 := sheared]}) 0)
  = map (option_map this) (matrix_of [4; 5; 0; 0; 0; 9; 0; 0; 0; 0; 1; 0; 15; 33; 0; 1]%Z).
Proof. vm_compute. reflexivity. Qed.

Lemma product_composes_witness :
  let h : heap_of Qc := {[0 := sheared]} in
  exists m, multiplyInto 0 0 0 h = (Ret tt, <[0 := m]> h) /\ is_matrix m /\
    (forall v, multiplyVectorByMatrix (vec v) m
       = multiplyVectorByMatrix (multiplyVectorByMatrix (vec v) (array h 0)) (array h 0)) /\
    determinant m = (determinant (array h 0) * determinant (array h 0))%num.
Proof.
  intros h. assert (Hm : is_matrix (array h 0)) by by apply qc_matrix.
  apply (product_composes h 0 0 0 Hm Hm). by compute.
Defined.
Lemma inverse_undoes_witness :
  is_matrix sheared /\
  if falsy (determinant sheared) then inverse sheared = sheared
  else is_matrix (inverse sheared) /\
    (determinant (inverse sheared) * determinant sheared)%num = n1 /\
    forall v, multiplyVectorByMatrix (multiplyVectorByMatrix (vec v) sheared) (inverse sheared) = vec v /\
              multiplyVectorByMatrix (multiplyVectorByMatrix (vec v) (inverse sheared)) sheared = vec v.
Proof.
  assert (Hm : is_matrix sheared) by by apply qc_matrix.
  split; [done|apply (inverse_undoes sheared Hm)].
Defined.
Example sheared_is_regular : falsy (determinant sheared) = false.
Proof. vm_compute. reflexivity. Qed.
Lemma projections_fill_the_cube_witness :
  let frustum := createFrustum (Some (qc (-2))) (Some (qc 2)) (Some (qc (-1))) (Some (qc 1))
                   (Some (qc 1)) (Some (qc 9)) in
  multiplyVectorByMatrix (seen_at (qc 1) (between (qc (-2)) (qc 2) (qc 1)) (between (qc (-1)) (qc 1) (qc 0)) (qc 9)) frustum
  = scaled (qc 9) (clip (qc 1)) (clip (qc 0)) one.
Proof.
  intros frustum.
  destruct (projections_fill_the_cube (qc (-2)) (qc 2) (qc (-1)) (qc 1) (qc 1) (qc 9)) as [_ H];
    [by apply qc_neq..|].
  apply (H (qc 1) (qc 0)).
Defined.
