(* ===== verification/RealNumbers.v ===== *)
(** * The real numbers

    The instance of the numbers of Matrix in which the functions of [Math] are what
    they are in mathematics: a finite number is a real number, and what has no finite
    value ([Math.sqrt] of a negative number, the tangent of a right angle) is [None]. *)
From stdpp Require Import base numbers.
From Stdlib Require Import Field QArith Qreals Reals Lra.
From S2P Require Import Prelude Matrix.
Open Scope R_scope.

Definition Reqb (a b : R) : bool := if Req_dec_T a b then true else false.
Definition Rltb (a b : R) : bool := if Rlt_dec a b then true else false.
Lemma Reqb_spec a b : Reqb a b = true <-> a = b.
Proof. unfold Reqb. by destruct (Req_dec_T a b). Qed.
Lemma Reqb_false a b : a <> b -> Reqb a b = false.
Proof. intros Hne. unfold Reqb. by destruct (Req_dec_T a b). Qed.
Lemma Rltb_spec a b : Rltb a b = true <-> a < b.
Proof. unfold Rltb. by destruct (Rlt_dec a b). Qed.

#[export] Instance R_numbers : Numbers R := {
  zero := 0;
  one := 1;
  add := Rplus;
  mul := Rmult;
  sub := Rminus;
  opp := Ropp;
  div := Rdiv;
  inv := Rinv;
  of_Q := Q2R;
  eqb := Reqb
}.
#[export] Instance R_laws : NumbersLaws R.
Proof.
  split.
  - apply Rfield.
  - apply Reqb_spec.
  - apply RMicromega.Q2R_1.
  - apply Q2R_opp.
  - apply Q2R_plus.
  - unfold Q2R. simpl. lra.
Qed.

Definition lift1 (f : R -> R) (x : num R) : num R := f <$> x.
#[export] Instance R_math : MathLibrary R := {
  Math_PI := Some PI;
  Math_sqrt := fun x => match x with Some a => if Rltb a 0 then None else Some (sqrt a) | None => None end;
  Math_cos := lift1 cos;
  Math_sin := lift1 sin;
  Math_tan := fun x => match x with Some a => if Reqb (cos a) 0 then None else Some (tan a) | None => None end
}.
