(* ===== verification/Transform.v ===== *)
(** * Style transforms

    Libraries/StyleSheet/processTransform.js: the validation of the [transform] style
    and its translation to one matrix, for the platforms that do not take the list.

    A transformation is an object with one property, here the list of the properties of
    the object in order; an array among the values is a reference to the heap of
    Matrix.  In development mode every transformation is validated before the first is
    applied.  In production ill-typed values reach the arithmetic, where JavaScript
    converts them ([ToNumber], [elements]). *)
From stdpp Require Import base numbers list strings gmap.
From Stdlib Require Import Field QArith Reals Lra Ascii.
From S2P Require Import Prelude Rationals Color Matrix RealNumbers.
Open Scope string_scope.
Open Scope list_scope.
Open Scope nat_scope.

(** ** Numbers in strings *)
Definition opt_exponent (s : list ascii) : Z * list ascii :=
  match s with
  | c :: s' =>
      if Ascii.eqb "e" c || Ascii.eqb "E" c then
        let '(neg, s1) := split_sign s' in
        match span_digits s1 with
        | ([], _) => (0%Z, s)
        | (d, rest) => ((if neg then - decimal d else decimal d)%Z, rest)
        end
      else (0%Z, s)
  | [] => (0%Z, s)
  end.
Definition opt_fraction (s : list ascii) : list ascii * list ascii :=
  match s with
  | c :: s' => if Ascii.eqb "." c then span_digits s' else ([], s)
  | [] => ([], s)
  end.
(** The longest decimal literal a string starts with, and what follows it. *)
Definition decimal_literal (s : list ascii) : option (Q * list ascii) :=
  let '(neg, s1) := split_sign s in
  let '(d, s2) := span_digits s1 in
  let '(f, s3) := opt_fraction s2 in
  match d, f with
  | [], [] => None
  | _, _ =>
      let '(e, rest) := opt_exponent s3 in
      let q := (inject_Z (decimal (d ++ f)) * Qpower 10 (e - Z.of_nat (length f)))%Q in
      Some ((if neg then - q else q)%Q, rest)
  end.
Fixpoint trim_start (s : list ascii) : list ascii :=
  match s with
  | c :: s' => if is_space c then trim_start s' else s
  | [] => []
  end.
(** [parseFloat(s)]: [None] is NaN or an infinity. *)
Definition parseFloat (s : string) : option Q :=
  fst <$> decimal_literal (trim_start (String.list_ascii_of_string s)).
Definition radix_prefix (c : ascii) : option Z :=
  if Ascii.eqb "x" c || Ascii.eqb "X" c then Some 16%Z
  else if Ascii.eqb "o" c || Ascii.eqb "O" c then Some 8%Z
  else if Ascii.eqb "b" c || Ascii.eqb "B" c then Some 2%Z
  else None.
Definition radix_digits (r : Z) (s : list ascii) : option Q :=
  let '(d, rest) := (fix go s := match s with
    | c :: s' => if is_hex c && (hex_value c <? r)%Z then let '(a, b) := go s' in (c :: a, b) else ([], s)
    | [] => ([], [])
    end) s in
  match d, trim_start rest with
  | _ :: _, [] => Some (inject_Z (foldl (fun a c => r * a + hex_value c)%Z 0%Z d))
  | _, _ => None
  end.
(** [Number(s)]. *)
Definition Number_of_string (s : string) : option Q :=
  let s1 := trim_start (String.list_ascii_of_string s) in
  let decimal := match decimal_literal s1 with
                 | Some (q, rest) => if trim_start rest is [] then Some q else None
                 | None => None
                 end in
  match s1 with
  | [] => Some 0%Q
  | z :: c :: s2 =>
      match radix_prefix c with
      | Some r => if Ascii.eqb "0" z then radix_digits r s2 else decimal
      | None => decimal
      end
  | _ => decimal
  end.

Example parse_degrees : parseFloat " -1.25e1deg" = Some (-125 # 10)%Q.
Proof. vm_compute. reflexivity. Qed.

(** ** Values *)
Inductive value (A : Type) :=
  | Num (x : num A)
  | Str (s : string)
  | Arr (a : loc)
  | Obj (getValue : bool)
  | Undef
  | Null.
Arguments Num {A} _.
Arguments Str {A} _.
Arguments Arr {A} _.
Arguments Obj {A} _.
Arguments Undef {A}.
Arguments Null {A}.

(** The labels of the two [switch]es. *)
Inductive label :=
  | matrix | perspective | rotateX | rotateY | rotateZ | scale | scaleX | scaleY
  | translate | translateX | translateY | skewX | skewY.
#[export] Instance label_eq_dec : EqDecision label.
Proof. solve_decision. Defined.
Definition labels : list (string * label) :=
  [("matrix", matrix); ("perspective", perspective); ("rotateX", rotateX); ("rotateY", rotateY);
   ("rotate", rotateZ); ("rotateZ", rotateZ); ("scale", scale); ("scaleX", scaleX);
   ("scaleY", scaleY); ("translate", translate); ("translateX", translateX);
   ("translateY", translateY); ("skewX", skewX); ("skewY", skewY)].
Definition label_of (key : string) : option label :=
  snd <$> List.find (fun e => String.eqb (fst e) key) labels.

(** [s.indexOf(t) > -1]. *)
Definition contains (t s : string) : bool :=
  if String.index 0 t s is Some _ then true else false.

Section Transform.
  Context {A : Type} `{Numbers A, !MathLibrary A}.
  Local Open Scope num_scope.
  Local Notation heap := (heap_of A).
  Local Notation value := (value A).

Definition transformation : Type := list (string * value).
Definition number_of_string (s : string) : num A := of_Q <$> Number_of_string s.

(** The conversion of a value to a number, where one is due. *)
Definition ToNumber (h : heap) (v : value) : num A :=
  match v with
  | Num x => x
  | Str s => number_of_string s
  | Arr a => match array h a with [] => n0 | [x] => x | _ => None end
  | Obj _ | Undef => None
  | Null => n0
  end.
Definition to_number (v : value) : JS heap (num A) := gets (fun h => ToNumber h v).

(** [value[0]], [value[1]], ... as an array. *)
Definition elements (v : value) : JS heap loc :=
  match v with
  | Arr a => ret a
  | Str s => alloc ((fun c => number_of_string (String.String c "")) <$> String.list_ascii_of_string s)
  | Num _ | Obj _ => alloc []
  | Undef | Null => throw (JSError "TypeError")
  end.

Definition _convertToRadians (v : value) : JS heap (num A) :=
  let degrees x := x * Math_PI / lit 180 in
  match v with
  | Str s =>
      let floatValue := of_Q <$> parseFloat s in
      ret (if contains "rad" s then floatValue else degrees floatValue)
  | Arr a => gets (fun h => degrees (array h a).[0])
  | Num _ | Obj _ | Undef | Null => throw (JSError "TypeError")
  end.

(** ** Validation *)
Definition getValue (v : value) : JS heap bool :=
  match v with
  | Obj b => ret b
  | Undef | Null => throw (JSError "TypeError")
  | _ => ret false
  end.
Definition isArray (v : value) : bool := if v is Arr _ then true else false.
Definition isString (v : value) : bool := if v is Str _ then true else false.
Definition isNumber (v : value) : bool := if v is Num _ then true else false.
Definition in_string (t : string) (v : value) : bool := if v is Str s then contains t s else false.
(** [value.length] of an array. *)
Definition length_of (v : value) : JS heap nat :=
  gets (fun h => if v is Arr a then length (array h a) else 0).
Definition notZero (v : value) : bool :=
  match v with Num (Some a) => negb (eqb a zero) | _ => true end.

Definition multivalueTransforms : list string := ["matrix"; "translate"].
Definition _validateTransform (key : string) (v : value) : JS heap unit :=
  let! animated := getValue v in
  do! invariant (negb animated) "You passed an Animated.Value to a normal component.";
  do! (if existsb (String.eqb key) multivalueTransforms
       then invariant (isArray v) "Transform must have an array as the value"
       else ret tt);
  match label_of key with
  | Some matrix =>
      let! n := length_of v in
      invariant ((n =? 9) || (n =? 16)) "Matrix transform must have a length of 9 (2d) or 16 (3d)."
  | Some translate =>
      let! n := length_of v in
      invariant ((n =? 2) || (n =? 3)) "Transform with key translate must be an array of length 2 or 3"
  | Some (rotateX | rotateY | rotateZ | skewX | skewY) =>
      do! invariant (isString v) "Transform must be a string";
      invariant (in_string "deg" v || in_string "rad" v)
        "Rotate transform must be expressed in degrees (deg) or radians (rad)"
  | Some perspective =>
      do! invariant (isNumber v) "Transform must be a number";
      invariant (notZero v) "Transform cannot be zero"
  | Some (translateX | translateY | scale | scaleX | scaleY) =>
      invariant (isNumber v) "Transform must be a number"
  | None => invariant false "Invalid transform"
  end.
Definition _validateTransforms (transform : list transformation) : JS heap unit :=
  for_each transform (fun transformation =>
    match transformation with
    | [(key, v)] => _validateTransform key v
    | _ => throw (InvariantViolation "You must specify exactly one property per transform object.")
    end).

(** ** Translation *)
Definition _multiplyTransform (result : loc) (command : loc -> JS heap unit) : JS heap unit :=
  let! matrixToApply := createIdentityMatrix in
  do! command matrixToApply;
  multiplyInto result result matrixToApply.

Definition orZero (x : num A) : num A := if falsy x then n0 else x.
Definition apply_transformation (result : loc) (key : string) (v : value) : JS heap unit :=
  match label_of key with
  | Some matrix => let! b := elements v in multiplyInto result result b
  | Some perspective =>
      let! x := to_number v in
      _multiplyTransform result (fun m => reusePerspectiveCommand m x)
  | Some rotateX =>
      let! x := _convertToRadians v in
      _multiplyTransform result (fun m => reuseRotateXCommand m x)
  | Some rotateY =>
      let! x := _convertToRadians v in
      _multiplyTransform result (fun m => reuseRotateYCommand m x)
  | Some rotateZ =>
      let! x := _convertToRadians v in
      _multiplyTransform result (fun m => reuseRotateZCommand m x)
  | Some scale =>
      let! x := to_number v in
      _multiplyTransform result (fun m => reuseScaleCommand m x)
  | Some scaleX =>
      let! x := to_number v in
      _multiplyTransform result (fun m => reuseScaleXCommand m x)
  | Some scaleY =>
      let! x := to_number v in
      _multiplyTransform result (fun m => reuseScaleYCommand m x)
  | Some translate =>
      let! a := elements v in
      let! x := load a 0 in
      let! y := load a 1 in
      let! z := load a 2 in
      _multiplyTransform result (fun m => reuseTranslate3dCommand m x y (orZero z))
  | Some translateX =>
      let! x := to_number v in
      _multiplyTransform result (fun m => reuseTranslate2dCommand m x n0)
  | Some translateY =>
      let! x := to_number v in
      _multiplyTransform result (fun m => reuseTranslate2dCommand m n0 x)
  | Some skewX =>
      let! x := _convertToRadians v in
      _multiplyTransform result (fun m => reuseSkewXCommand m x)
  | Some skewY =>
      let! x := _convertToRadians v in
      _multiplyTransform result (fun m => reuseSkewYCommand m x)
  | None => throw (JSError ("Invalid transform name: " ++ key)%string)
  end.

(** [Object.keys(transformation)[0]] and its value; [undefined] both of an empty object. *)
Definition first_property (transformation : transformation) : string * value :=
  match transformation with
  | [] => ("undefined", Undef)
  | p :: _ => p
  end.
Definition native_platforms : list string := ["android"; "ios"; "macos"].
(** [None] is the list itself. *)
Definition processTransform (dev : bool) (os : string) (transform : list transformation)
    : JS heap (option loc) :=
  do! when dev (_validateTransforms transform);
  if existsb (String.eqb os) native_platforms then ret None else
  let! result := createIdentityMatrix in
  do! for_each transform (fun transformation =>
    let '(key, v) := first_property transformation in
    apply_transformation result key v);
  ret (Some result).

End Transform.

(** ** What transformations mean

    [moves h t] is what the transformation [t] does to a point, for the values a
    transformation is meant to have: nothing of it is about matrices, but for the
    transformation that is one. *)
Section Meaning.
  Context {A : Type} `{Numbers A, !MathLibrary A}.
  Local Notation heap := (heap_of A).
  Local Notation motion := ((nat -> A) -> nat -> A).

Definition pt (x y z w : A) : nat -> A := fun j =>
  match j with 0 => x | 1 => y | 2 => z | _ => w end.
Definition angle (s : string) : option A :=
  if contains "rad" s then of_Q <$> parseFloat s
  else if contains "deg" s
  then ((of_Q <$> parseFloat s) * Math_PI / lit 180)%num
  else None.
Definition finite_matrix (a : list (num A)) : bool :=
  (length a =? 16) && forallb (fun x => if x is Some _ then true else false) a.
(** The rotation by the angle of cosine [c] and sine [s] in the plane of [a], [b]. *)
Definition turn (c s a b : A) : A * A := (sub (mul a c) (mul b s), add (mul a s) (mul b c)).
Definition with_turn (s : string) (k : A -> A -> motion) : option motion :=
  match angle s with
  | Some t => match Math_cos (Some t), Math_sin (Some t) with
              | Some c, Some s => Some (k c s)
              | _, _ => None
              end
  | None => None
  end.
Definition with_tan (s : string) (k : A -> motion) : option motion :=
  match angle s with
  | Some t => match Math_tan (Some t) with Some x => Some (k x) | None => None end
  | None => None
  end.
Definition shift (a b c : A) : motion := fun p =>
  pt (add (p 0) (mul a (p 3))) (add (p 1) (mul b (p 3))) (add (p 2) (mul c (p 3))) (p 3).

Definition moves (h : heap) (t : transformation) : option motion :=
  match t with
  | [(key, v)] =>
      match label_of key, v with
      | Some matrix, Arr a =>
          if finite_matrix (array h a) then Some (fun p => vapp p (of_array (array h a))) else None
      | Some perspective, Num (Some d) =>
          if eqb d zero then None
          else Some (fun p => pt (p 0) (p 1) (p 2) (sub (p 3) (div (p 2) d)))
      | Some rotateX, Str s => with_turn s (fun c s p =>
          let '(y, z) := turn c s (p 1) (p 2) in pt (p 0) y z (p 3))
      | Some rotateY, Str s => with_turn s (fun c s p =>
          let '(z, x) := turn c s (p 2) (p 0) in pt x (p 1) z (p 3))
      | Some rotateZ, Str s => with_turn s (fun c s p =>
          let '(x, y) := turn c s (p 0) (p 1) in pt x y (p 2) (p 3))
      | Some scale, Num (Some k) => Some (fun p => pt (mul k (p 0)) (mul k (p 1)) (p 2) (p 3))
      | Some scaleX, Num (Some k) => Some (fun p => pt (mul k (p 0)) (p 1) (p 2) (p 3))
      | Some scaleY, Num (Some k) => Some (fun p => pt (p 0) (mul k (p 1)) (p 2) (p 3))
      | Some translate, Arr a =>
          match array h a with
          | [Some x; Some y] => Some (shift x y zero)
          | [Some x; Some y; Some z] => Some (shift x y z)
          | _ => None
          end
      | Some translateX, Num (Some x) => Some (shift x zero zero)
      | Some translateY, Num (Some y) => Some (shift zero y zero)
      | Some skewX, Str s => with_tan s (fun t p => pt (add (p 0) (mul t (p 1))) (p 1) (p 2) (p 3))
      | Some skewY, Str s => with_tan s (fun t p => pt (p 0) (add (p 1) (mul t (p 0))) (p 2) (p 3))
      | _, _ => None
      end
  | _ => None
  end.

(** The values validation accepts. *)
Definition valid (h : heap) (t : transformation) : bool :=
  match t with
  | [(key, v)] =>
      match label_of key, v with
      | Some matrix, Arr a => (length (array h a) =? 9) || (length (array h a) =? 16)
      | Some translate, Arr a => (length (array h a) =? 2) || (length (array h a) =? 3)
      | Some (rotateX | rotateY | rotateZ | skewX | skewY), Str s => contains "deg" s || contains "rad" s
      | Some perspective, Num x => notZero (Num x)
      | Some (scale | scaleX | scaleY | translateX | translateY), Num _ => true
      | _, _ => false
      end
  | _ => false
  end.
End Meaning.

Section Laws.
  Context {A : Type} `{NumbersLaws A, !MathLibrary A}.
  Implicit Types (X Y C : mat A) (h : heap_of A).
  Add Field numbers : (numbers_field (A:=A)).

Lemma fresh_not_in h : fresh (dom h) ∉ dom h.
Proof. apply is_fresh. Qed.
Lemma identity_flat : identityMatrix = flat (mid (A:=A)).
Proof. done. Qed.

(** [cmd] turns the identity matrix into [C]. *)
Definition gives (cmd : loc -> JS (heap_of A) unit) C : Prop :=
  forall h m, cmd m (<[m := identityMatrix]> h) = (Ret tt, <[m := flat C]> h).

Lemma multiplyTransform_gives cmd C h result X :
  gives cmd C -> result ∈ dom h -> array h result = flat X ->
  _multiplyTransform result cmd h
  = (Ret tt, <[result := flat (mmul C X)]> (<[fresh (dom h) := flat C]> h)).
Proof.
  intros Hc Hr HX. unfold _multiplyTransform, createIdentityMatrix, alloc.
  unfold bind at 1. unfold bind. rewrite Hc.
  assert (result <> fresh (dom h)) by (intros ->; by apply (fresh_not_in h)).
  apply multiplyInto_flat.
  - by rewrite array_insert, decide_False.
  - by rewrite array_insert, decide_True.
  - by rewrite array_insert, decide_False, HX.
Qed.

(** [cmd] makes of the identity matrix one that moves points by [f]. *)
Definition performs (cmd : loc -> JS (heap_of A) unit) (f : (nat -> A) -> nat -> A) : Prop :=
  exists C, gives cmd C /\ forall p, vec (vapp p C) = vec (f p).
Lemma performs_intro cmd l f :
  (forall h m, cmd m (<[m := identityMatrix]> h) = (Ret tt, <[m := l]> h)) ->
  l = flat (of_array l) -> (forall p, vec (vapp p (of_array l)) = vec (f p)) ->
  performs cmd f.
Proof. intros Hc Hl Hf. exists (of_array l). split; [|done]. intros h m. rewrite Hc. by rewrite <- Hl. Qed.

Ltac performs_tac :=
  eapply performs_intro;
    [intros h m; rewrite ?bind_store_again, ?store_again; reflexivity
    |reflexivity
    |intros p; unfold vapp, sum4, shift, turn, pt, of_array; cbn;
     each_entry; try ring].

Lemma translate3d_performs x y z :
  performs (fun m => reuseTranslate3dCommand m (Some x) (Some y) (Some z)) (shift x y z).
Proof. unfold reuseTranslate3dCommand. performs_tac. Qed.
Lemma translate2d_performs x y :
  performs (fun m => reuseTranslate2dCommand m (Some x) (Some y)) (shift x y zero).
Proof. unfold reuseTranslate2dCommand. performs_tac. Qed.
Lemma scale_performs k :
  performs (fun m => reuseScaleCommand m (Some k)) (fun p => pt (mul k (p 0)) (mul k (p 1)) (p 2) (p 3)).
Proof. unfold reuseScaleCommand. performs_tac. Qed.
Lemma scaleX_performs k :
  performs (fun m => reuseScaleXCommand m (Some k)) (fun p => pt (mul k (p 0)) (p 1) (p 2) (p 3)).
Proof. unfold reuseScaleXCommand. performs_tac. Qed.
Lemma scaleY_performs k :
  performs (fun m => reuseScaleYCommand m (Some k)) (fun p => pt (p 0) (mul k (p 1)) (p 2) (p 3)).
Proof. unfold reuseScaleYCommand. performs_tac. Qed.
Lemma perspective_performs d : d <> zero ->
  performs (fun m => reusePerspectiveCommand m (Some d))
    (fun p => pt (p 0) (p 1) (p 2) (sub (p 3) (div (p 2) d))).
Proof.
  intros Hd. unfold reusePerspectiveCommand, n1. cbn [nopp]. rewrite ndiv_some by done.
  performs_tac. by field.
Qed.
Lemma rotateX_performs t c s : Math_cos (Some t) = Some c -> Math_sin (Some t) = Some s ->
  performs (fun m => reuseRotateXCommand m (Some t))
    (fun p => let '(y, z) := turn c s (p 1) (p 2) in pt (p 0) y z (p 3)).
Proof. intros Hc Hs. unfold reuseRotateXCommand. rewrite Hc, Hs. performs_tac. Qed.
Lemma rotateY_performs t c s : Math_cos (Some t) = Some c -> Math_sin (Some t) = Some s ->
  performs (fun m => reuseRotateYCommand m (Some t))
    (fun p => let '(z, x) := turn c s (p 2) (p 0) in pt x (p 1) z (p 3)).
Proof. intros Hc Hs. unfold reuseRotateYCommand. rewrite Hc, Hs. performs_tac. Qed.
Lemma rotateZ_performs t c s : Math_cos (Some t) = Some c -> Math_sin (Some t) = Some s ->
  performs (fun m => reuseRotateZCommand m (Some t))
    (fun p => let '(x, y) := turn c s (p 0) (p 1) in pt x y (p 2) (p 3)).
Proof. intros Hc Hs. unfold reuseRotateZCommand. rewrite Hc, Hs. performs_tac. Qed.
Lemma skewX_performs t x : Math_tan (Some t) = Some x ->
  performs (fun m => reuseSkewXCommand m (Some t)) (fun p => pt (add (p 0) (mul x (p 1))) (p 1) (p 2) (p 3)).
Proof. intros Ht. unfold reuseSkewXCommand. rewrite Ht. performs_tac. Qed.
Lemma skewY_performs t x : Math_tan (Some t) = Some x ->
  performs (fun m => reuseSkewYCommand m (Some t)) (fun p => pt (p 0) (add (p 1) (mul x (p 0))) (p 2) (p 3)).
Proof. intros Ht. unfold reuseSkewYCommand. rewrite Ht. performs_tac. Qed.

(** ** One transformation *)
(** The arrays of [h0] are those of [h], but for [result]. *)
Definition keeps_arrays (h0 h : heap_of A) : Prop := forall l, l ∈ dom h0 -> h !! l = h0 !! l.
(** [m] composes the matrix of [result] with [f], and leaves the arrays of [h0] alone. *)
Definition composes (h0 : heap_of A) (result : loc) (m : JS (heap_of A) unit)
    (f : (nat -> A) -> nat -> A) : Prop :=
  forall h X, keeps_arrays h0 h -> result ∉ dom h0 -> result ∈ dom h -> array h result = flat X ->
  exists h' Y, m h = (Ret tt, h') /\ keeps_arrays h0 h' /\ result ∈ dom h' /\
    array h' result = flat Y /\ forall p, vec (vapp p Y) = vec (vapp (f p) X).

Lemma keeps_dom h0 h : keeps_arrays h0 h -> dom h0 ⊆ dom h.
Proof.
  intros K l Hl. apply elem_of_dom. rewrite K by done. by apply elem_of_dom.
Qed.
Lemma keeps_array h0 h l : keeps_arrays h0 h -> l ∈ dom h0 -> array h l = array h0 l.
Proof. intros K Hl. unfold array. by rewrite K. Qed.
Lemma keeps_insert h0 h l a : keeps_arrays h0 h -> l ∉ dom h0 -> keeps_arrays h0 (<[l := a]> h).
Proof. intros K Hl k Hk. rewrite lookup_insert_ne by congruence. by apply K. Qed.

Lemma vapp_vec p q X : vec p = vec q -> vec (vapp p X) = vec (vapp q X).
Proof.
  intros E. apply vec_ext. intros j _. unfold vapp, sum4. by rewrite !(vec_inj p q) by (done || lia).
Qed.
Lemma multiplyTransform_composes h0 result cmd f :
  performs cmd f -> composes h0 result (_multiplyTransform result cmd) f.
Proof.
  intros (C & Hc & Hf) h X K Hr Hd HX. eexists _, _.
  split; [by apply multiplyTransform_gives|]. split_and!.
  - apply keeps_insert; [|done]. apply keeps_insert; [done|].
    intros Hin%(keeps_dom _ _ K). by apply (fresh_not_in h).
  - apply elem_of_dom. by rewrite lookup_insert_eq.
  - by rewrite array_insert, decide_True.
  - intros p. rewrite <- vapp_through. by apply vapp_vec.
Qed.
Lemma composes_ext h0 result m m' f :
  (forall h, keeps_arrays h0 h -> m h = m' h) -> composes h0 result m' f -> composes h0 result m f.
Proof.
  intros E Hm h X K Hr Hd HX. destruct (Hm h X K Hr Hd HX) as (h' & Y & E' & Hrest).
  exists h', Y. by rewrite E.
Qed.

Lemma finite_matrix_flat a : finite_matrix a = true -> a = flat (of_array a).
Proof.
  unfold finite_matrix. intros [Hl Hf]%andb_prop. apply Nat.eqb_eq in Hl.
  destruct (flat_finite a Hl) as [X ->].
  - intros x Hx ->. apply list_elem_of_In in Hx. rewrite forallb_forall in Hf. by apply Hf in Hx.
  - apply flat_ext. intros r c Hr Hc. by rewrite of_array_flat.
Qed.
Lemma nonempty_dom h0 a : array h0 a <> [] -> a ∈ dom h0.
Proof.
  intros Hne. apply elem_of_dom. unfold array in Hne. by destruct (h0 !! a).
Qed.
Lemma matrix_composes h0 result a :
  finite_matrix (array h0 a) = true ->
  composes h0 result (let! b := elements (Arr a) in multiplyInto result result b)
    (fun p => vapp p (of_array (array h0 a))).
Proof.
  intros Hf h X K Hr Hd HX.
  assert (Ha : a ∈ dom h0).
  { apply nonempty_dom. intros E. by rewrite E in Hf. }
  eexists _, _. split.
  - apply (multiplyInto_flat h result result a X (of_array (array h0 a))); [done| |by rewrite HX].
    rewrite (keeps_array h0) by done. by apply finite_matrix_flat.
  - split_and!; [by apply keeps_insert|apply elem_of_dom; by rewrite lookup_insert_eq
                |by rewrite array_insert, decide_True|].
    intros p. by rewrite <- vapp_through.
Qed.

Lemma angle_radians s t (h : heap_of A) :
  angle s = Some t -> _convertToRadians (Str s) h = (Ret (Some t), h).
Proof.
  unfold angle, _convertToRadians. destruct (contains "rad" s); [by intros ->|].
  destruct (contains "deg" s); [by intros ->|done].
Qed.
Lemma radians_composes h0 result s t cmd f :
  angle s = Some t -> performs (cmd (Some t)) f ->
  composes h0 result (let! x := _convertToRadians (Str s) in _multiplyTransform result (cmd x)) f.
Proof.
  intros Ha Hc. eapply composes_ext; [|by apply multiplyTransform_composes].
  intros h _. unfold bind. by rewrite (angle_radians s t).
Qed.
Lemma turn_composes h0 result s cmd k f :
  with_turn s k = Some f ->
  (forall t c n, Math_cos (Some t) = Some c -> Math_sin (Some t) = Some n -> performs (cmd (Some t)) (k c n)) ->
  composes h0 result (let! x := _convertToRadians (Str s) in _multiplyTransform result (cmd x)) f.
Proof.
  unfold with_turn. destruct (angle s) as [t|] eqn:Ea; [|done].
  destruct (Math_cos (Some t)) as [c|] eqn:Ec, (Math_sin (Some t)) as [n|] eqn:En; try done.
  intros [= <-] Hk. eapply radians_composes; [done|by apply Hk].
Qed.
Lemma tan_composes h0 result s cmd k f :
  with_tan s k = Some f ->
  (forall t x, Math_tan (Some t) = Some x -> performs (cmd (Some t)) (k x)) ->
  composes h0 result (let! x := _convertToRadians (Str s) in _multiplyTransform result (cmd x)) f.
Proof.
  unfold with_tan. destruct (angle s) as [t|] eqn:Ea; [|done].
  destruct (Math_tan _) as [x|] eqn:Ex; [|done].
  intros [= <-] Hk. eapply radians_composes; [done|by apply Hk].
Qed.
Lemma translate_composes h0 result a x y z :
  a ∈ dom h0 -> array h0 a = [Some x; Some y] /\ z = zero \/ array h0 a = [Some x; Some y; Some z] ->
  composes h0 result
    (let! b := elements (Arr a) in
     let! x := load b 0 in let! y := load b 1 in let! z := load b 2 in
     _multiplyTransform result (fun m => reuseTranslate3dCommand m x y (orZero z)))
    (shift x y z).
Proof.
  intros Ha E. eapply composes_ext; [|apply multiplyTransform_composes, translate3d_performs].
  intros h K. change (bind (elements (Arr a)) ?k h) with (k a h). cbv beta. rewrite !bind_load.
  rewrite (keeps_array h0) by done. destruct E as [[-> ->]| ->]; [done|].
  change ([Some x; Some y; Some z].[2])%num with (Some z).
  replace (orZero (Some z)) with (Some z); [done|].
  unfold orZero. destruct (falsy (Some z)) eqn:F; [|done]. by apply falsy_some in F as ->.
Qed.

Lemma number_composes h0 result x cmd f :
  performs (cmd (Some x)) f ->
  composes h0 result (let! y := to_number (Num (Some x)) in _multiplyTransform result (cmd y)) f.
Proof. intros Hc. eapply composes_ext; [|by apply multiplyTransform_composes]. done. Qed.

Lemma apply_composes h0 result t f :
  moves h0 t = Some f ->
  let '(key, v) := first_property t in
  composes h0 result (apply_transformation result key v) f.
Proof.
  destruct t as [|[key v] [|]]; try done. unfold moves, first_property, apply_transformation.
  destruct (label_of key) as [[]|]; try done; destruct v as [[x|]|s|a| | |]; try done; intros E.
  - destruct (finite_matrix _) eqn:F; [|done]. injection E as <-. by apply matrix_composes.
  - destruct (eqb x zero) eqn:Ex; [done|]. injection E as <-. apply number_composes.
    apply perspective_performs. intros Hz%eqb_spec. congruence.
  - by apply (turn_composes _ _ _ (fun y m => reuseRotateXCommand m y) _ _ E), rotateX_performs.
  - by apply (turn_composes _ _ _ (fun y m => reuseRotateYCommand m y) _ _ E), rotateY_performs.
  - by apply (turn_composes _ _ _ (fun y m => reuseRotateZCommand m y) _ _ E), rotateZ_performs.
  - injection E as <-. apply number_composes, scale_performs.
  - injection E as <-. apply number_composes, scaleX_performs.
  - injection E as <-. apply number_composes, scaleY_performs.
  - assert (a ∈ dom h0) by (apply nonempty_dom; intros Ea; by rewrite Ea in E).
    destruct (array h0 a) as [|[x|] [|[y|] [|[z|] [|]]]] eqn:Ea; try done;
      injection E as <-; apply translate_composes; auto.
  - injection E as <-. apply (number_composes _ _ x (fun y m => reuseTranslate2dCommand m y n0)).
    apply translate2d_performs.
  - injection E as <-. apply (number_composes _ _ x (fun y m => reuseTranslate2dCommand m n0 y)).
    apply translate2d_performs.
  - by apply (tan_composes _ _ _ (fun y m => reuseSkewXCommand m y) _ _ E), skewX_performs.
  - by apply (tan_composes _ _ _ (fun y m => reuseSkewYCommand m y) _ _ E), skewY_performs.
Qed.

(** ** Validation *)
Lemma multivalue_labels key :
  existsb (String.eqb key) multivalueTransforms
  = match label_of key with Some (matrix | translate) => true | _ => false end.
Proof.
  unfold label_of, labels, multivalueTransforms. cbn [List.find existsb fst].
  rewrite !(String.eqb_sym key).
  repeat match goal with
  | |- context [String.eqb ?s key] => destruct (String.eqb_spec s key); [subst; reflexivity|]
  end.
  reflexivity.
Qed.

Definition validate_one (t : transformation (A:=A)) : JS (heap_of A) unit :=
  match t with
  | [(key, v)] => _validateTransform key v
  | _ => throw (InvariantViolation "You must specify exactly one property per transform object.")
  end.
Lemma validate_one_spec t h :
  if valid h t then validate_one t h = (Ret tt, h) else exists e, validate_one t h = (Throw e, h).
Proof.
  destruct t as [|[key v] [|]]; cbn [valid validate_one]; [by eexists| |by eexists].
  unfold _validateTransform. rewrite multivalue_labels.
  destruct (label_of key) as [[]|], v as [[x|]|s|a|[]| |]; cbn; try (by eexists); try done.
  all: unfold bind, invariant, gets, ret, throw; cbn; case_match; try done; by eexists.
Qed.
Lemma validate_spec ts h :
  if forallb (valid h) ts then _validateTransforms ts h = (Ret tt, h)
  else exists e, _validateTransforms ts h = (Throw e, h).
Proof.
  induction ts as [|t ts IH]; [done|]. cbn [forallb].
  change (_validateTransforms (t :: ts) h) with (bind (validate_one t) (fun _ => _validateTransforms ts) h).
  unfold bind. pose proof (validate_one_spec t h) as Ht. destruct (valid h t); cbn [andb].
  - by rewrite Ht.
  - destruct Ht as [e ->]. by eexists.
Qed.
Lemma moves_valid h t f : moves h t = Some f -> valid h t = true.
Proof.
  destruct t as [|[key v] [|]]; try done. cbn [moves valid].
  destruct (label_of key) as [[]|]; try done; destruct v as [[x|]|s|a| | |]; try done.
  - unfold finite_matrix. destruct (_ =? 16); [|done]. by rewrite orb_true_r.
  - cbn. by destruct (eqb x zero).
  - unfold with_turn, angle. rewrite orb_comm. by destruct (contains "rad" s), (contains "deg" s).
  - unfold with_turn, angle. rewrite orb_comm. by destruct (contains "rad" s), (contains "deg" s).
  - unfold with_turn, angle. rewrite orb_comm. by destruct (contains "rad" s), (contains "deg" s).
  - by destruct (array h a) as [|[x|] [|[y|] [|[z|] [|]]]].
  - unfold with_tan, angle. rewrite orb_comm. by destruct (contains "rad" s), (contains "deg" s).
  - unfold with_tan, angle. rewrite orb_comm. by destruct (contains "rad" s), (contains "deg" s).
Qed.

(** ** Valid transformations do not fail *)
(** Only the array [l] may change. *)
Definition only (l : loc) (h h' : heap_of A) : Prop :=
  (forall k, k <> l -> h' !! k = h !! k) /\ dom h ⊆ dom h'.
#[local] Instance only_preorder l : PreOrder (only l).
Proof.
  split; [by intros h|]. intros h1 h2 h3 [E1 D1] [E2 D2]. split; [|set_solver].
  intros k Hk. by rewrite E2, E1.
Qed.
Lemma only_store l i x : evolves (only l) (store (A:=A) l i x).
Proof.
  apply evolves_modify. intros h. split; [|set_solver].
  intros k Hk. by rewrite lookup_insert_ne.
Qed.
Lemma only_load l k i : evolves (only l) (load (A:=A) k i).
Proof. by apply evolves_gets, only_preorder. Qed.
Lemma returns_store l i x : returns (store (A:=A) l i x).
Proof. apply returns_modify. Qed.
Lemma returns_load l i : returns (load (A:=A) l i).
Proof. apply returns_gets. Qed.
#[local] Hint Resolve only_preorder only_store only_load returns_store returns_load : js.

Lemma multiplyInto_only out a b :
  evolves (only out) (multiplyInto out a b) /\ returns (multiplyInto out a b).
Proof. unfold multiplyInto. split; [js_auto|js_returns]. Qed.

(** [m] returns, and changes [result] and fresh arrays only. *)
Definition benign (h0 : heap_of A) (result : loc) (m : JS (heap_of A) unit) : Prop :=
  forall h, keeps_arrays h0 h -> result ∉ dom h0 -> result ∈ dom h ->
  exists h', m h = (Ret tt, h') /\ keeps_arrays h0 h' /\ result ∈ dom h'.
Definition writes (cmd : loc -> JS (heap_of A) unit) : Prop :=
  forall m, evolves (only m) (cmd m) /\ returns (cmd m).

Lemma benign_only h0 result m : evolves (only result) m -> returns m -> benign h0 result m.
Proof.
  intros He Hm h K Hr Hd. destruct (returns_run m h Hm) as [[] E]. exists (final m h).
  destruct (He h) as [Ek Ed]. split_and!; [done| |by apply Ed].
  intros l Hl. rewrite Ek by congruence. by apply K.
Qed.
Lemma multiplyTransform_benign h0 result cmd : writes cmd -> benign h0 result (_multiplyTransform result cmd).
Proof.
  intros Hc h K Hr Hd. unfold _multiplyTransform, createIdentityMatrix, alloc.
  unfold bind at 1. cbv zeta. set (m := fresh (dom h)).
  assert (Hm : m ∉ dom h) by apply fresh_not_in.
  set (h1 := <[m := identityMatrix]> h). destruct (Hc m) as [He Hret].
  destruct (returns_run (cmd m) h1 Hret) as [[] E]. destruct (He h1) as [Ek Ed].
  unfold bind. rewrite E. set (h2 := final (cmd m) h1) in *.
  destruct (multiplyInto_only result result m) as [He' Hret'].
  eapply benign_only; [done..| |done|].
  - intros l Hl. pose proof (keeps_dom _ _ K l Hl). rewrite Ek by congruence.
    unfold h1. rewrite lookup_insert_ne by congruence. by apply K.
  - apply Ed. unfold h1. set_solver.
Qed.
Lemma benign_ext h0 result m m' :
  (forall h, keeps_arrays h0 h -> m h = m' h) -> benign h0 result m' -> benign h0 result m.
Proof. intros E Hm h K Hr Hd. rewrite E by done. by apply Hm. Qed.

Lemma radians_benign h0 result s cmd :
  (forall x, writes (cmd x)) ->
  benign h0 result (let! x := _convertToRadians (Str s) in _multiplyTransform result (cmd x)).
Proof.
  intros Hc. eapply benign_ext; [|by eapply multiplyTransform_benign]. intros h _. by unfold _convertToRadians.
Qed.
Lemma number_benign h0 result x cmd :
  (forall x, writes (cmd x)) ->
  benign h0 result (let! x := to_number (Num x) in _multiplyTransform result (cmd x)).
Proof. intros Hc. eapply benign_ext; [|by apply (multiplyTransform_benign _ _ (cmd x))]. by intros h _. Qed.
Ltac writes_tac :=
  intros; intros ?; unfold reusePerspectiveCommand, reuseRotateXCommand, reuseRotateYCommand,
    reuseRotateZCommand, reuseScaleCommand, reuseScaleXCommand, reuseScaleYCommand,
    reuseTranslate3dCommand, reuseTranslate2dCommand, reuseSkewXCommand, reuseSkewYCommand;
  split; [js_auto|js_returns].

Lemma apply_benign h0 result t :
  valid h0 t = true ->
  let '(key, v) := first_property t in benign h0 result (apply_transformation result key v).
Proof.
  destruct t as [|[key v] [|]]; try done. unfold valid, first_property, apply_transformation.
  destruct (label_of key) as [[]|]; try done; destruct v as [x|s|a| | |]; try done; intros E.
  - apply benign_only; apply multiplyInto_only.
  - apply (number_benign _ _ x (fun x m => reusePerspectiveCommand m x)). writes_tac.
  - apply (radians_benign _ _ s (fun x m => reuseRotateXCommand m x)). writes_tac.
  - apply (radians_benign _ _ s (fun x m => reuseRotateYCommand m x)). writes_tac.
  - apply (radians_benign _ _ s (fun x m => reuseRotateZCommand m x)). writes_tac.
  - apply (number_benign _ _ x (fun x m => reuseScaleCommand m x)). writes_tac.
  - apply (number_benign _ _ x (fun x m => reuseScaleXCommand m x)). writes_tac.
  - apply (number_benign _ _ x (fun x m => reuseScaleYCommand m x)). writes_tac.
  - assert (Ha : a ∈ dom h0) by (apply nonempty_dom; intros Ea; by rewrite Ea in E).
    apply (benign_ext _ _ _ (_multiplyTransform result (fun m => reuseTranslate3dCommand m
      (array h0 a).[0] (array h0 a).[1] (orZero (array h0 a).[2]))%num)).
    + intros h K. change (bind (elements (Arr a)) ?k h) with (k a h). cbv beta.
      by rewrite !bind_load, (keeps_array h0).
    + apply multiplyTransform_benign. writes_tac.
  - apply (number_benign _ _ x (fun x m => reuseTranslate2dCommand m x n0)). writes_tac.
  - apply (number_benign _ _ x (fun x m => reuseTranslate2dCommand m n0 x)). writes_tac.
  - apply (radians_benign _ _ s (fun x m => reuseSkewXCommand m x)). writes_tac.
  - apply (radians_benign _ _ s (fun x m => reuseSkewYCommand m x)). writes_tac.
Qed.

(** ** The translation *)
Lemma transform_matrix (h : heap_of A) : exists r h1,
  createIdentityMatrix h = (Ret r, h1) /\ r ∉ dom h /\ keeps_arrays h h1 /\ r ∈ dom h1 /\
  array h1 r = flat mid.
Proof.
  eexists _, _. split; [done|]. split_and!; [apply fresh_not_in| | |].
  - apply keeps_insert; [done|apply fresh_not_in].
  - set_solver.
  - by rewrite array_insert, decide_True.
Qed.
Definition translate_one (r : loc) (t : transformation (A:=A)) : JS (heap_of A) unit :=
  let '(key, v) := first_property t in apply_transformation r key v.
Lemma translate_all h0 r ts fs h X :
  Forall2 (fun t f => moves h0 t = Some f) ts fs ->
  keeps_arrays h0 h -> r ∉ dom h0 -> r ∈ dom h -> array h r = flat X ->
  exists h' Y, for_each ts (translate_one r) h = (Ret tt, h') /\ keeps_arrays h0 h' /\
    array h' r = flat Y /\
    forall p, vec (vapp p Y) = vec (vapp (foldr (fun f q => f q) p fs) X).
Proof.
  intros Hm. revert h X. induction Hm as [|t f ts fs Ht _ IH]; intros h X K Hr Hd HX; [by exists h, X|].
  assert (Hc : composes h0 r (translate_one r t) f).
  { pose proof (apply_composes h0 r t f Ht). unfold translate_one. by destruct (first_property t). }
  destruct (Hc h X K Hr Hd HX) as (h1 & X1 & E1 & K1 & Hd1 & HX1 & P1).
  destruct (IH h1 X1 K1 Hr Hd1 HX1) as (h' & Y & E & K' & HY & P).
  exists h', Y. split_and!; try done; [|intros p; by rewrite P, P1].
  cbn [for_each]. unfold bind. by rewrite E1.
Qed.
Lemma translate_valid h0 r ts h :
  forallb (valid h0) ts = true -> keeps_arrays h0 h -> r ∉ dom h0 -> r ∈ dom h ->
  exists h', for_each ts (translate_one r) h = (Ret tt, h') /\ keeps_arrays h0 h'.
Proof.
  revert h. induction ts as [|t ts IH]; intros h V K Hr Hd; [by exists h|].
  cbn [forallb] in V. apply andb_prop in V as [Vt V].
  assert (Hc : benign h0 r (translate_one r t)).
  { pose proof (apply_benign h0 r t Vt). unfold translate_one. by destruct (first_property t). }
  destruct (Hc h K Hr Hd) as (h1 & E1 & K1 & Hd1).
  destruct (IH h1 V K1 Hr Hd1) as (h' & E & K').
  exists h'. split; [|done]. cbn [for_each]. unfold bind. by rewrite E1.
Qed.

(** In development mode processTransform throws exactly when some transformation is
    not valid, before it allocates or writes an array; otherwise it returns, the list
    itself on native platforms and a new array on the others, and every array of the
    caller is as it was. *)
Theorem validation_guards os (transform : list (transformation (A:=A))) h :
  if forallb (valid h) transform
  then exists r h', processTransform true os transform h = (Ret r, h') /\
    keeps_arrays h h' /\
    if existsb (String.eqb os) native_platforms then r = None /\ h' = h
    else exists l, r = Some l /\ l ∉ dom h
  else exists e, processTransform true os transform h = (Throw e, h).
Proof.
  pose proof (validate_spec transform h) as V. unfold processTransform. cbn [when].
  destruct (forallb (valid h) transform) eqn:E.
  - unfold bind at 1. rewrite V. destruct (existsb _ _); [by eexists _, _|].
    destruct (transform_matrix h) as (r & h1 & Er & Hr & K & Hd & _).
    destruct (translate_valid h r transform h1) as (h' & E' & K'); [done..|].
    exists (Some r), h'. split; [|split; [done|by exists r]].
    unfold bind. rewrite Er. fold (translate_one r). by rewrite E'.
  - destruct V as [e V]. exists e. unfold bind at 1. by rewrite V.
Qed.

Lemma transforms_move dev os (transform : list (transformation (A:=A))) motions h :
  Forall2 (fun t f => moves h t = Some f) transform motions ->
  existsb (String.eqb os) native_platforms = false ->
  exists l h', processTransform dev os transform h = (Ret (Some l), h') /\
    is_matrix (array h' l) /\
    forall p, multiplyVectorByMatrix (vec p) (array h' l)
      = vec (foldr (fun f q => f q) p motions).
Proof.
  intros Hm Hos. destruct (transform_matrix h) as (r & h1 & Er & Hr & K & Hd & HX).
  destruct (translate_all h r transform motions h1 mid) as (h' & Y & E & K' & HY & P); [done..|].
  exists r, h'. rewrite HY. split_and!.
  - assert (V : when dev (_validateTransforms transform) h = (Ret tt, h)).
    { destruct dev; [|done]. pose proof (validate_spec transform h) as V.
      assert (forallb (valid h) transform = true) as W; [|by rewrite W in V].
      apply forallb_forall. intros t [i Ht]%list_elem_of_In%list_elem_of_lookup.
      destruct (Forall2_lookup_l _ _ _ _ _ Hm Ht) as (f & _ & Hf). by eapply moves_valid. }
    unfold processTransform. unfold bind at 1. rewrite V, Hos. unfold bind. rewrite Er.
    fold (translate_one r). by rewrite E.
  - by eexists.
  - intros p. by rewrite multiplyVectorByMatrix_flat, P, vapp_mid.
Qed.

(** C32. Where the transform is translated, the matrix moves a point as the
    transformations do one after the other, the last first, each as its name says. *)
Theorem transforms_compose dev os (transform : list (transformation (A:=A))) motions h :
  Forall2 (fun t f => moves h t = Some f) transform motions ->
  existsb (String.eqb os) native_platforms = false ->
  exists l h', processTransform dev os transform h = (Ret (Some l), h') /\
    is_matrix (array h' l) /\
    forall p, multiplyVectorByMatrix (vec p) (array h' l)
      = vec (foldr (fun f q => f q) p motions).
Proof. apply transforms_move. Qed.

(** ** The matrix of nine numbers *)
Lemma lift2_None_r f (x : num A) : lift2 f x None = None.
Proof. by destruct x. Qed.
Lemma short_product (a b : list (num A)) i :
  length b = 9 -> 8 <= i < 16 -> (product a b).[i]%num = None.
Proof.
  intros Hb Hi. do 9 (destruct b as [|? b]; [done|]). destruct b; [|done].
  do 8 (destruct i as [|i]; [lia|]). unfold nadd, nmul.
  do 8 (destruct i as [|i]; [unfold product; cbn; unfold nadd, nmul; by rewrite ?lift2_None_r|]). lia.
Qed.

(** A [matrix] of nine numbers is valid ("a length of 9 (2d)"), but
    [multiplyInto] reads sixteen: the last two rows of the result are not numbers. *)
Theorem short_matrix_is_NaN os a h :
  existsb (String.eqb os) native_platforms = false ->
  length (array h a) = 9 ->
  exists l h', processTransform true os [[("matrix", Arr a)]] h = (Ret (Some l), h') /\
    forall i, 8 <= i < 16 -> (array h' l).[i]%num = None.
Proof.
  intros Hos Ha. pose proof (validate_spec [[("matrix", Arr a)]] h) as V. cbn [forallb valid] in V.
  rewrite Ha in V. change (_validateTransforms [[("matrix", Arr a)]] h = (Ret tt, h)) in V.
  destruct (transform_matrix h) as (r & h1 & Er & Hr & K & Hd & HX).
  exists r, (<[r := product (array h1 r) (array h1 a)]> h1). split.
  - unfold processTransform. unfold bind at 1. cbn [when]. rewrite V, Hos. unfold bind. rewrite Er.
    change (for_each [[("matrix", Arr a)]] _ h1) with (bind (multiplyInto r r a) (fun _ => ret tt) h1).
    unfold bind. by rewrite multiplyInto_product by by rewrite HX.
  - intros i Hi. rewrite array_insert, decide_True by done. apply short_product; [|done].
    rewrite (keeps_array h); [done..|]. apply nonempty_dom. by destruct (array h a).
Qed.
End Laws.

(** ** Examples *)
Open Scope R_scope.
Definition a_matrix : list (num R) :=
  Some <$> [1; 2; 0; 0; 0; 1; 0; 0; 0; 0; 1; 0; 0; 0; 0; 1].
Definition a_heap : heap_of R := {[0%nat := Some <$> [3; 4]; 1%nat := a_matrix]}.
Definition a_transform : list (transformation (A:=R)) :=
  [[("translate", Arr 0%nat)]; [("scale", Num (Some 2))]; [("rotate", Str "0rad")];
   [("perspective", Num (Some 5))]; [("matrix", Arr 1%nat)]].
Lemma five_is_not_zero : Reqb 5 0 = false.
Proof. destruct (Reqb 5 0) eqn:E; [|done]. apply Reqb_spec in E. lra. Qed.
Lemma a_perspective : exists f, moves a_heap [("perspective", Num (Some 5))] = Some f.
Proof. cbn. rewrite five_is_not_zero. by eexists. Qed.
Lemma transforms_compose_witness : exists motions l h',
  processTransform true "web" a_transform a_heap = (Ret (Some l), h') /\
  is_matrix (array h' l) /\
  forall p, multiplyVectorByMatrix (vec p) (array h' l) = vec (foldr (fun f q => f q) p motions).
Proof.
  destruct a_perspective as [f Hf]. eexists.
  apply (transforms_compose true "web" a_transform _ a_heap); [|reflexivity].
  unfold a_transform. do 5 (apply Forall2_cons_2; [first [exact Hf|reflexivity]|]). constructor.
Defined.
Lemma short_matrix_is_NaN_witness :
  let h : heap_of R := {[1%nat := replicate 9 (Some 1)]} in
  exists l h', processTransform true "web" [[("matrix", Arr 1%nat)]] h = (Ret (Some l), h') /\
    forall i : nat, (8 <= i < 16)%nat -> (array h' l).[i]%num = None.
Proof. intros h. by apply (short_matrix_is_NaN "web" 1%nat h). Defined.

(** The values the tests of the repository expect to be refused, and to be accepted. *)
Example tests_of_validation :
  forallb (valid a_heap) a_transform = true /\
  map (valid a_heap)
    [[("scale", Num (Some 2)); ("translateY", Num (Some 1))]; [("translateW", Num (Some 1))];
     [("matrix", Str "not-a-matrix")]; [("translate", Num (Some 1))]; [("matrix", Arr 0%nat)];
     [("translateY", Str "20deg")]; [("rotate", Num (Some 1))]; [("skewX", Str "10")];
     [("scaleX", Obj true)]]
  = replicate 9 false.
Proof.
  split; [|reflexivity]. cbn. by rewrite five_is_not_zero.
Qed.
Lemma validation_guards_witness :
  (exists r h', processTransform true "web" a_transform a_heap = (Ret r, h') /\
     keeps_arrays a_heap h' /\ exists l, r = Some l /\ l ∉ dom a_heap) /\
  exists e, processTransform true "web" [[("translateW", Num (Some 1))]] a_heap = (Throw e, a_heap).
Proof.
  split.
  - pose proof (validation_guards "web" a_transform a_heap) as G.
    rewrite (proj1 tests_of_validation) in G. exact G.
  - exact (validation_guards "web" [[("translateW", Num (Some 1))]] a_heap).
Defined.
