(* ===== verification/MatrixDecompose.v ===== *)
(** * Decomposition of a matrix

    [decomposeMatrix] of Libraries/Utilities/MatrixMath.js, for the platforms that set
    transforms one by one in a fixed order, with [quaternionToDegreesXYZ] and
    [roundTo3Places], over the real numbers: the rows of the matrix are made
    orthonormal one after the other, what that took is the scale and the shear, and the
    rest is a rotation, given as a quaternion and in degrees. *)
From stdpp Require Import base numbers list strings.
From Stdlib Require Import Field QArith Qreals Reals Lra.
From S2P Require Import Prelude Matrix RealNumbers Transform.
Open Scope string_scope.
Open Scope R_scope.
Notation numR := (num R).
Open Scope num_scope.

(** ** The rest of [Math], and comparisons: false when a number is not finite *)
Definition nlt (x y : numR) : bool := match x, y with Some a, Some b => Rltb a b | _, _ => false end.
Definition nge (x y : numR) : bool :=
  match x, y with Some a, Some b => negb (Rltb a b) | _, _ => false end.
Definition notEqual (x y : numR) : bool :=
  match x, y with Some a, Some b => negb (Reqb a b) | _, _ => true end.
Definition Math_max (x y : numR) : numR := lift2 Rmax x y.
Definition atan2 (y x : R) : R :=
  (if Rltb 0 x then atan (y / x)
   else if Rltb x 0 then if Rltb y 0 then atan (y / x) - PI else atan (y / x) + PI
   else if Rltb 0 y then PI / 2 else if Rltb y 0 then - (PI / 2) else 0)%R.
Definition Math_atan2 (y x : numR) : numR := lift2 atan2 y x.
Definition Math_asin (x : numR) : numR :=
  match x with
  | Some a => if Rltb a (-1) || Rltb 1 a then None else Some (asin a)
  | None => None
  end.
Definition Math_round (x : R) : R := IZR (Int_part (x + / 2)).
(** The literal of an integer. *)
Definition int (z : Z) : numR := Some (IZR z).
Definition half : numR := Some (/ 2)%R.

(** The exponent of the printed number is raised by three, which is times 1000. *)
Definition roundTo3Places (n : numR) : numR := (fun a => Math_round (a * 1000) * / 1000)%R <$> n.

Definition quaternionToDegreesXYZ (q : list numR) : list numR :=
  let qx := q.[0] in let qy := q.[1] in let qz := q.[2] in let qw := q.[3] in
  let qw2 := qw * qw in
  let qx2 := qx * qx in
  let qy2 := qy * qy in
  let qz2 := qz * qz in
  let test := qx * qy + qz * qw in
  let unit := qw2 + qx2 + qy2 + qz2 in
  let conv := int 180 / Math_PI in
  let bound := Some (49999 / 100000)%R in
  if nlt (bound * unit) test then [int 0; int 2 * Math_atan2 qx qw * conv; int 90]
  else if nlt test (- bound * unit) then [int 0; int (-2) * Math_atan2 qx qw * conv; int (-90)]
  else
    [roundTo3Places
       (Math_atan2 (int 2 * qx * qw - int 2 * qy * qz) (int 1 - int 2 * qx2 - int 2 * qz2) * conv);
     roundTo3Places
       (Math_atan2 (int 2 * qy * qw - int 2 * qx * qz) (int 1 - int 2 * qy2 - int 2 * qz2) * conv);
     roundTo3Places (Math_asin (int 2 * qx * qy + int 2 * qz * qw) * conv)].

(** ** The parts of decomposeMatrix *)
(** [matrix], by rows in one array, and [perspectiveMatrix]. *)
Definition normalizedMatrix (transformMatrix : list numR) : list numR :=
  (fun i => transformMatrix.[i] / transformMatrix.[15]) <$> seq 0 16.
Definition perspectiveMatrix (matrix : list numR) : list numR :=
  put 15 (int 1) ((fun i => if (i mod 4 =? 3)%nat then int 0 else matrix.[i]) <$> seq 0 16).

Definition isolatePerspective (matrix : list numR) : list numR :=
  if notEqual matrix.[3] (int 0) || notEqual matrix.[7] (int 0) || notEqual matrix.[11] (int 0)
  then
    let rightHandSide := [matrix.[3]; matrix.[7]; matrix.[11]; matrix.[15]] in
    let inversePerspectiveMatrix := inverse (perspectiveMatrix matrix) in
    let transposedInversePerspectiveMatrix := transpose inversePerspectiveMatrix in
    multiplyVectorByMatrix rightHandSide transposedInversePerspectiveMatrix
  else [int 0; int 0; int 0; int 1].

Definition negate3 (v : list numR) : list numR :=
  [v.[0] * int (-1); v.[1] * int (-1); v.[2] * int (-1)].
Record factors := {
  the_scale : list numR;
  the_skew : list numR;
  the_rows : list (list numR)
}.
(** From "Now get scale and shear" to the check for a flip of the coordinate system.
    The lines that compute the XY shear factor are there twice. *)
Definition factorRows (row0 row1 row2 : list numR) : factors :=
  let scale0 := v3Length row0 in
  let row0 := v3Normalize row0 scale0 in
  let skew0 := v3Dot row0 row1 in
  let row1 := v3Combine row1 row0 (int 1) (- skew0) in
  let skew0 := v3Dot row0 row1 in
  let row1 := v3Combine row1 row0 (int 1) (- skew0) in
  let scale1 := v3Length row1 in
  let row1 := v3Normalize row1 scale1 in
  let skew0 := skew0 / scale1 in
  let skew1 := v3Dot row0 row2 in
  let row2 := v3Combine row2 row0 (int 1) (- skew1) in
  let skew2 := v3Dot row1 row2 in
  let row2 := v3Combine row2 row1 (int 1) (- skew2) in
  let scale2 := v3Length row2 in
  let row2 := v3Normalize row2 scale2 in
  let skew1 := skew1 / scale2 in
  let skew2 := skew2 / scale2 in
  let pdum3 := v3Cross row1 row2 in
  if nlt (v3Dot row0 pdum3) (int 0)
  then {| the_scale := [scale0 * int (-1); scale1 * int (-1); scale2 * int (-1)];
          the_skew := [skew0; skew1; skew2];
          the_rows := [negate3 row0; negate3 row1; negate3 row2] |}
  else {| the_scale := [scale0; scale1; scale2];
          the_skew := [skew0; skew1; skew2];
          the_rows := [row0; row1; row2] |}.

Definition entry (row : list (list numR)) (i j : nat) : numR := (default [] (row !! i)).[j].
Definition quaternionOf (row : list (list numR)) : list numR :=
  let r := entry row in
  let q0 := half * Math_sqrt (Math_max (int 1 + r 0%nat 0%nat - r 1%nat 1%nat - r 2%nat 2%nat) (int 0)) in
  let q1 := half * Math_sqrt (Math_max (int 1 - r 0%nat 0%nat + r 1%nat 1%nat - r 2%nat 2%nat) (int 0)) in
  let q2 := half * Math_sqrt (Math_max (int 1 - r 0%nat 0%nat - r 1%nat 1%nat + r 2%nat 2%nat) (int 0)) in
  let q3 := half * Math_sqrt (Math_max (int 1 + r 0%nat 0%nat + r 1%nat 1%nat + r 2%nat 2%nat) (int 0)) in
  let q0 := if nlt (r 1%nat 2%nat) (r 2%nat 1%nat) then - q0 else q0 in
  let q1 := if nlt (r 2%nat 0%nat) (r 0%nat 2%nat) then - q1 else q1 in
  let q2 := if nlt (r 0%nat 1%nat) (r 1%nat 0%nat) then - q2 else q2 in
  [q0; q1; q2; q3].

Definition rotationOf (quaternion : list numR) (row : list (list numR)) : list numR :=
  let small := Some (/ 1000)%R in
  if nlt quaternion.[0] small && nge quaternion.[0] (int 0) &&
     nlt quaternion.[1] small && nge quaternion.[1] (int 0)
  then [int 0; int 0;
        roundTo3Places (Math_atan2 (entry row 0 1) (entry row 0 0) * int 180 / Math_PI)]
  else quaternionToDegreesXYZ quaternion.

Record decomposition := {
  rotationDegrees : list numR;
  perspective : list numR;
  quaternion : list numR;
  scale : list numR;
  skew : list numR;
  translation : list numR;
  rotate : numR;
  rotateX : numR;
  rotateY : numR;
  scaleX : numR;
  scaleY : numR;
  translateX : numR;
  translateY : numR
}.

Definition upper_row (matrix : list numR) (i : nat) : list numR :=
  [matrix.[4 * i]; matrix.[4 * i + 1]; matrix.[4 * i + 2]].
(** [Ret None] is [undefined]. *)
Definition decomposeMatrix (transformMatrix : list numR) : result (option decomposition) :=
  if negb (length transformMatrix =? 16)%nat
  then Throw (InvariantViolation "Matrix decomposition needs a list of 3d matrix values")
  else if falsy transformMatrix.[15] then Ret None
  else
    let matrix := normalizedMatrix transformMatrix in
    if falsy (determinant (perspectiveMatrix matrix)) then Ret None
    else
      let perspective := isolatePerspective matrix in
      let translation := upper_row matrix 3 in
      let f := factorRows (upper_row matrix 0) (upper_row matrix 1) (upper_row matrix 2) in
      let quaternion := quaternionOf (the_rows f) in
      let rotationDegrees := rotationOf quaternion (the_rows f) in
      Ret (Some {|
        rotationDegrees := rotationDegrees;
        perspective := perspective;
        quaternion := quaternion;
        scale := the_scale f;
        skew := the_skew f;
        translation := translation;
        rotate := rotationDegrees.[2];
        rotateX := rotationDegrees.[0];
        rotateY := rotationDegrees.[1];
        scaleX := (the_scale f).[0];
        scaleY := (the_scale f).[1];
        translateX := translation.[0];
        translateY := translation.[1]
      |}).

(** ** Vectors *)
Definition R3 : Type := R * R * R.
Definition v3 (a : R3) : list numR := let '(x, y, z) := a in [Some x; Some y; Some z].
Definition dot (a b : R3) : R :=
  let '(x, y, z) := a in let '(x', y', z') := b in (x * x' + y * y' + z * z')%R.
(** [s a + t b]. *)
Definition comb (s : R) (a : R3) (t : R) (b : R3) : R3 :=
  let '(x, y, z) := a in let '(x', y', z') := b in
  (s * x + t * x', s * y + t * y', s * z + t * z')%R.
Definition scl (s : R) (a : R3) : R3 := let '(x, y, z) := a in (x * s, y * s, z * s)%R.
Definition cross (a b : R3) : R3 :=
  let '(x, y, z) := a in let '(x', y', z') := b in
  (y * z' - z * y', z * x' - x * z', x * y' - y * x')%R.
Definition triple (a b c : R3) : R := dot a (cross b c).

Open Scope R_scope.
Ltac vectors :=
  repeat match goal with a : R3 |- _ => destruct a as [[? ?] ?] end;
  unfold triple, dot, comb, scl, cross in *.

Lemma pair3_eq (x y z x' y' z' : R) : x = x' -> y = y' -> z = z' -> (x, y, z) = (x', y', z').
Proof. by intros -> -> ->. Qed.
Lemma dot_comm a b : dot a b = dot b a.
Proof. vectors. ring. Qed.
Lemma dot_comb a b c s t : dot c (comb s a t b) = s * dot c a + t * dot c b.
Proof. vectors. ring. Qed.
Lemma dot_scl_r a b s : dot a (scl s b) = dot a b * s.
Proof. vectors. ring. Qed.
Lemma dot_scl_l a b s : dot (scl s a) b = dot a b * s.
Proof. vectors. ring. Qed.
Lemma triple_scl1 a b c s : triple (scl s a) b c = triple a b c * s.
Proof. vectors. ring. Qed.
Lemma triple_scl2 a b c s : triple a (scl s b) c = triple a b c * s.
Proof. vectors. ring. Qed.
Lemma triple_scl3 a b c s : triple a b (scl s c) = triple a b c * s.
Proof. vectors. ring. Qed.
Lemma triple_comb2 a b c t : triple a (comb 1 b t a) c = triple a b c.
Proof. vectors. ring. Qed.
Lemma triple_comb3 a b c t : triple a b (comb 1 c t a) = triple a b c.
Proof. vectors. ring. Qed.
Lemma triple_comb3' a b c t : triple a b (comb 1 c t b) = triple a b c.
Proof. vectors. ring. Qed.
Lemma comb_0 a b : comb 1 a (-0) b = a.
Proof. vectors. apply pair3_eq; ring. Qed.

Lemma dot_self_nonneg a : 0 <= dot a a.
Proof. vectors. nra. Qed.
Lemma dot_self_zero a b c : dot a a = 0 -> triple a b c = 0.
Proof.
  destruct a as [[x y] z]. intros E. unfold dot in E.
  assert (x = 0 /\ y = 0 /\ z = 0) as (-> & -> & ->) by nra. vectors. ring.
Qed.
Lemma triple_rotate a b c : triple a b c = triple b c a.
Proof. vectors. ring. Qed.
Lemma dot_self_pos a b c : triple a b c <> 0 -> 0 < dot a a.
Proof.
  intros Ht. destruct (Rle_lt_or_eq_dec _ _ (dot_self_nonneg a)) as [|E]; [done|].
  by destruct Ht; apply dot_self_zero.
Qed.

(** The vector functions of MatrixMath on finite vectors. *)
Lemma v3Dot_v3 a b : v3Dot (v3 a) (v3 b) = Some (dot a b).
Proof. by vectors. Qed.
Lemma v3Combine_v3 a b s t : v3Combine (v3 a) (v3 b) (Some s) (Some t) = v3 (comb s a t b).
Proof. by vectors. Qed.
Lemma v3Cross_v3 a b : v3Cross (v3 a) (v3 b) = v3 (cross a b).
Proof. by vectors. Qed.
Lemma negate3_v3 a : negate3 (v3 a) = v3 (scl (-1) a).
Proof. by vectors. Qed.
Lemma Rltb_false a b : Rltb a b = false <-> b <= a.
Proof. unfold Rltb. destruct (Rlt_dec a b); split; try done; lra. Qed.
Lemma sqrt_some x : 0 <= x -> Math_sqrt (Some x) = Some (sqrt x).
Proof. intros Hx. cbn. by rewrite (proj2 (Rltb_false x 0) Hx). Qed.

(** The length of a vector, and the vector of length one. *)
Definition len (a : R3) : R := sqrt (dot a a).
Definition unit (a : R3) : R3 := scl (1 / len a) a.
Lemma v3Length_v3 a : v3Length (v3 a) = Some (len a).
Proof.
  unfold v3Length. destruct a as [[x y] z].
  change (Math_sqrt (Some (dot (x, y, z) (x, y, z))) = Some (len (x, y, z))).
  apply sqrt_some, dot_self_nonneg.
Qed.
Lemma len_pos a : 0 < dot a a -> 0 < len a.
Proof. apply sqrt_lt_R0. Qed.
Lemma len_sq a : len a * len a = dot a a.
Proof. apply sqrt_sqrt, dot_self_nonneg. Qed.
Lemma v3Normalize_v3 a : 0 < dot a a -> v3Normalize (v3 a) (Some (len a)) = v3 (unit a).
Proof.
  intros Ha%len_pos. unfold v3Normalize. destruct (falsy (Some (len a))) eqn:F.
  - apply falsy_some in F. cbn in F. lra.
  - unfold n1. rewrite ndiv_some by (cbn; lra). destruct a as [[x y] z]. done.
Qed.
Lemma dot_unit a : 0 < dot a a -> dot (unit a) (unit a) = 1.
Proof.
  intros Ha. pose proof (len_pos a Ha). unfold unit. rewrite dot_scl_l, dot_scl_r, <- len_sq. field. lra.
Qed.
Lemma unit_scl a : 0 < dot a a -> a = scl (len a) (unit a).
Proof.
  intros Ha%len_pos. unfold unit, scl. destruct a as [[x y] z]. apply pair3_eq; field; lra.
Qed.

(** ** Orthonormal rows *)
Definition orthonormal (a b c : R3) : Prop :=
  dot a a = 1 /\ dot b b = 1 /\ dot c c = 1 /\ dot a b = 0 /\ dot a c = 0 /\ dot b c = 0.
(** A rotation by rows. *)
Definition rotation (a b c : R3) : Prop := orthonormal a b c /\ triple a b c = 1.

Lemma gram a b c : orthonormal a b c -> triple a b c * triple a b c = 1.
Proof.
  intros (E1 & E2 & E3 & E4 & E5 & E6).
  transitivity (dot a a * (dot b b * dot c c - dot b c * dot b c)
    - dot a b * (dot a b * dot c c - dot b c * dot a c)
    + dot a c * (dot a b * dot b c - dot b b * dot a c)).
  - clear. vectors. ring.
  - rewrite E1, E2, E3, E4, E5, E6. ring.
Qed.
Lemma orthonormal_opp a b c : orthonormal a b c -> orthonormal (scl (-1) a) (scl (-1) b) (scl (-1) c).
Proof.
  intros (E1 & E2 & E3 & E4 & E5 & E6). unfold orthonormal. rewrite !dot_scl_l, !dot_scl_r.
  rewrite E1, E2, E3, E4, E5, E6. split_and!; ring.
Qed.

Definition result_of (s0 s1 s2 k1 k2 : R) (u0 u1 u2 : R3) : factors :=
  {| the_scale := [Some s0; Some s1; Some s2];
     the_skew := [Some 0; Some k1; Some k2];
     the_rows := [v3 u0; v3 u1; v3 u2] |}.
(** The rows that scales, shears and a rotation give; [k0] is the XY shear. *)
Definition rebuilt (s0 s1 s2 k0 k1 k2 : R) (u0 u1 u2 r0 r1 r2 : R3) : Prop :=
  r0 = scl s0 u0 /\ r1 = scl s1 (comb k0 u0 1 u1) /\
  r2 = scl s2 (comb 1 (comb k1 u0 k2 u1) 1 u2).

Lemma rebuilt_triple s0 s1 s2 k0 k1 k2 u0 u1 u2 r0 r1 r2 :
  rebuilt s0 s1 s2 k0 k1 k2 u0 u1 u2 r0 r1 r2 ->
  triple r0 r1 r2 = s0 * s1 * s2 * triple u0 u1 u2.
Proof. intros (-> & -> & ->). vectors. ring. Qed.
Lemma rebuilt_opp s0 s1 s2 k0 k1 k2 u0 u1 u2 r0 r1 r2 :
  rebuilt s0 s1 s2 k0 k1 k2 u0 u1 u2 r0 r1 r2 ->
  rebuilt (s0 * -1) (s1 * -1) (s2 * -1) k0 k1 k2 (scl (-1) u0) (scl (-1) u1) (scl (-1) u2) r0 r1 r2.
Proof. intros (-> & -> & ->). unfold rebuilt. vectors. split_and!; apply pair3_eq; ring. Qed.
Lemma quotient_nonzero a b : a <> 0 -> 0 < b -> a * (1 / b) <> 0.
Proof.
  intros Ha Hb E. destruct Ha. replace a with (a * (1 / b) * b) by (field; lra). rewrite E. ring.
Qed.

Lemma recombine1 r u k s :
  0 < s -> r = scl s (comb (k / s) u 1 (scl (1 / s) (comb 1 r (- k) u))).
Proof. intros Hs. vectors. apply pair3_eq; field; lra. Qed.
Lemma recombine2 r u w k l s :
  0 < s -> r = scl s (comb 1 (comb (k / s) u (l / s) w) 1
                        (scl (1 / s) (comb 1 (comb 1 r (- k) u) (- l) w))).
Proof. intros Hs. vectors. apply pair3_eq; field; lra. Qed.

Section GramSchmidt.
Variables r0 r1 r2 : R3.
Hypothesis regular : triple r0 r1 r2 <> 0.
Let u0 := unit r0.
Let k := dot u0 r1.
Let p1 := comb 1 r1 (- k) u0.
Let u1 := unit p1.
Let k1 := dot u0 r2.
Let q2 := comb 1 r2 (- k1) u0.
Let k2 := dot u1 q2.
Let p2 := comb 1 q2 (- k2) u1.
Let u2 := unit p2.

Lemma r0_pos : 0 < dot r0 r0.
Proof. by apply (dot_self_pos r0 r1 r2). Qed.
Lemma u0_triple a b : triple u0 a b = triple r0 a b * (1 / len r0).
Proof. apply triple_scl1. Qed.
Lemma p1_pos : 0 < dot p1 p1.
Proof.
  pose proof (len_pos _ r0_pos). apply (dot_self_pos p1 r2 u0). rewrite <- triple_rotate.
  unfold p1. rewrite triple_comb2, u0_triple. by apply quotient_nonzero.
Qed.
Lemma p2_pos : 0 < dot p2 p2.
Proof.
  pose proof (len_pos _ r0_pos). pose proof (len_pos _ p1_pos).
  apply (dot_self_pos p2 u0 u1). rewrite <- 2!triple_rotate. unfold p2. rewrite triple_comb3'.
  unfold q2. rewrite triple_comb3. unfold u1 at 1, unit. rewrite triple_scl2. unfold p1 at 1.
  rewrite triple_comb2, u0_triple.
  by repeat apply quotient_nonzero.
Qed.

Lemma u0_p1 : dot u0 p1 = 0.
Proof.
  unfold p1. rewrite dot_comb. fold k. change (dot u0 u0) with (dot (unit r0) (unit r0)).
  rewrite (dot_unit _ r0_pos). ring.
Qed.
Lemma gram_schmidt : orthonormal u0 u1 u2.
Proof.
  pose proof (dot_unit _ r0_pos) as E0. fold u0 in E0.
  pose proof (dot_unit _ p1_pos) as E1. fold u1 in E1.
  assert (E01 : dot u0 u1 = 0).
  { unfold u1, unit. rewrite dot_scl_r, u0_p1. ring. }
  assert (E02 : dot u0 u2 = 0).
  { unfold u2, unit. rewrite dot_scl_r. unfold p2. rewrite dot_comb, E01. unfold q2.
    rewrite dot_comb, E0. fold k1. ring. }
  assert (E12 : dot u1 u2 = 0).
  { unfold u2, unit. rewrite dot_scl_r. unfold p2. rewrite dot_comb, E1. fold k2. ring. }
  split_and!; try done. apply dot_unit, p2_pos.
Qed.
Lemma gram_schmidt_rebuilds :
  rebuilt (len r0) (len p1) (len p2) (k / len p1) (k1 / len p2) (k2 / len p2) u0 u1 u2 r0 r1 r2.
Proof.
  pose proof (len_pos _ p1_pos). pose proof (len_pos _ p2_pos).
  split_and!; [apply unit_scl, r0_pos| |].
  - by apply recombine1.
  - by apply recombine2.
Qed.
Lemma factorRows_v3 :
  exists s0 s1 s2 k0 k1 k2 a b c,
    factorRows (v3 r0) (v3 r1) (v3 r2) = result_of s0 s1 s2 k1 k2 a b c /\
    rotation a b c /\ rebuilt s0 s1 s2 k0 k1 k2 a b c r0 r1 r2 /\
    s0 <> 0 /\ s1 <> 0 /\ s2 <> 0 /\
    (0 < triple r0 r1 r2 -> 0 < s0 /\ 0 < s1 /\ 0 < s2).
Proof.
  pose proof (len_pos _ r0_pos). pose proof (len_pos _ p1_pos). pose proof (len_pos _ p2_pos).
  assert (E : factorRows (v3 r0) (v3 r1) (v3 r2) =
    if Rltb (triple u0 u1 u2) 0
    then result_of (len r0 * -1) (len p1 * -1) (len p2 * -1) (k1 / len p2) (k2 / len p2)
           (scl (-1) u0) (scl (-1) u1) (scl (-1) u2)
    else result_of (len r0) (len p1) (len p2) (k1 / len p2) (k2 / len p2) u0 u1 u2).
  { unfold factorRows, int. cbv zeta. rewrite (v3Length_v3 r0), (v3Normalize_v3 r0) by apply r0_pos.
    fold u0. rewrite (v3Dot_v3 u0 r1). fold k. cbn [nopp]. change (opp k) with (- k)%R.
    rewrite (v3Combine_v3 r1 u0). fold p1. rewrite (v3Dot_v3 u0 p1), u0_p1. cbn [nopp].
    change (opp 0) with (- 0)%R. rewrite (v3Combine_v3 p1 u0), comb_0.
    rewrite (v3Length_v3 p1), (v3Normalize_v3 p1) by apply p1_pos. fold u1.
    rewrite (v3Dot_v3 u0 r2). fold k1. cbn [nopp]. change (opp k1) with (- k1)%R.
    rewrite (v3Combine_v3 r2 u0). fold q2. rewrite (v3Dot_v3 u1 q2). fold k2. cbn [nopp].
    change (opp k2) with (- k2)%R. rewrite (v3Combine_v3 q2 u1). fold p2.
    rewrite (v3Length_v3 p2), (v3Normalize_v3 p2) by apply p2_pos. fold u2.
    rewrite (v3Cross_v3 u1 u2), (v3Dot_v3 u0), !negate3_v3. fold (triple u0 u1 u2).
    rewrite !ndiv_some by (cbn; lra). cbn [nlt]. change (div 0 (len p1)) with (0 / len p1)%R.
    by replace (0 / len p1) with 0 by (field; lra). }
  pose proof gram_schmidt as O. pose proof gram_schmidt_rebuilds as B.
  assert (G : triple u0 u1 u2 = 1 \/ triple u0 u1 u2 = -1) by (pose proof (gram _ _ _ O); nra).
  pose proof (rebuilt_triple _ _ _ _ _ _ _ _ _ _ _ _ B) as T.
  assert (0 < len r0 * len p1 * len p2) by (repeat apply Rmult_lt_0_compat; done).
  destruct (Rltb (triple u0 u1 u2) 0) eqn:F.
  - apply Rltb_spec in F. do 9 eexists. split; [exact E|]. split_and!; try lra.
    + split; [by apply orthonormal_opp|]. rewrite triple_scl1, triple_scl2, triple_scl3. lra.
    + apply rebuilt_opp, B.
    + intros Hp. nra.
  - apply Rltb_false in F. do 9 eexists. split; [exact E|]. split_and!; try lra; [|exact B].
    split; [done|lra].
Qed.
End GramSchmidt.

(** ** Rotations *)
Lemma zero_vector x y z : dot (x, y, z) (x, y, z) = 0 -> x = 0 /\ y = 0 /\ z = 0.
Proof. unfold dot. intros E. split_and!; nra. Qed.
Lemma rotation_rotate a b c : rotation a b c -> rotation b c a.
Proof.
  intros ((E1 & E2 & E3 & E4 & E5 & E6) & E). rewrite triple_rotate in E.
  split; [|done]. unfold orthonormal. by rewrite (dot_comm b a), (dot_comm c a).
Qed.
Lemma rotation_cross a b c : rotation a b c -> cross a b = c.
Proof.
  intros ((E1 & E2 & E3 & E4 & E5 & E6) & E).
  assert (Z : dot (comb 1 (cross a b) (-1) c) (comb 1 (cross a b) (-1) c) = 0).
  { transitivity (dot a a * dot b b - dot a b * dot a b - 2 * triple a b c + dot c c).
    - clear. vectors. ring.
    - rewrite E1, E2, E3, E4, E. ring. }
  clear - Z. destruct a as [[a0 a1] a2], b as [[b0 b1] b2], c as [[c0 c1] c2].
  apply zero_vector in Z as (Z0 & Z1 & Z2). apply pair3_eq; lra.
Qed.

(** The rotation of the unit quaternion [(x, y, z, w)], by rows. *)
Definition spins (x y z w : R) (a b c : R3) : Prop :=
  a = (1 - 2 * (y * y + z * z), 2 * (x * y + w * z), 2 * (x * z - w * y)) /\
  b = (2 * (x * y - w * z), 1 - 2 * (x * x + z * z), 2 * (y * z + w * x)) /\
  c = (2 * (x * z + w * y), 2 * (y * z - w * x), 1 - 2 * (x * x + y * y)) /\
  x * x + y * y + z * z + w * w = 1.

Lemma signed_root T X d : 0 < T -> T * X = d * d ->
  (if Rltb d 0 then - (/ 2 * sqrt (Rmax X 0)) else / 2 * sqrt (Rmax X 0)) = d / (2 * sqrt T).
Proof.
  intros HT E. pose proof (sqrt_lt_R0 T HT) as HW. pose proof (sqrt_sqrt T ltac:(lra)) as EW.
  assert (HX : 0 <= X) by nra. rewrite Rmax_left by done.
  assert (S : sqrt X * sqrt T = Rabs d).
  { rewrite <- sqrt_mult by lra. rewrite Rmult_comm, E. apply sqrt_Rsqr_abs. }
  assert (Q : / 2 * sqrt X = Rabs d / (2 * sqrt T)) by (rewrite <- S; field; lra).
  rewrite Q. destruct (Rltb d 0) eqn:F.
  - apply Rltb_spec in F. rewrite Rabs_left by done. field. lra.
  - apply Rltb_false in F. rewrite Rabs_pos_eq by done. done.
Qed.

(** What the antisymmetric part of a rotation, its diagonal and its symmetric part have
    to do with each other. *)
Lemma rotation_parts a0 a1 a2 b0 b1 b2 c0 c1 c2 :
  rotation (a0, a1, a2) (b0, b1, b2) (c0, c1, c2) ->
  let T := 1 + a0 + b1 + c2 in
  T * (1 + a0 - b1 - c2) = (b2 - c1) * (b2 - c1) /\
  (b2 - c1) * (c0 - a2) = T * (a1 + b0).
Proof.
  intros H. pose proof (rotation_cross _ _ _ H) as X1.
  pose proof (rotation_cross _ _ _ (rotation_rotate _ _ _ H)) as X2.
  pose proof (rotation_cross _ _ _ (rotation_rotate _ _ _ (rotation_rotate _ _ _ H))) as X3.
  destruct H as ((E1 & E2 & E3 & E4 & E5 & E6) & E).
  unfold cross in X1, X2, X3. injection X1 as X10 X11 X12. injection X2 as X20 X21 X22.
  injection X3 as X30 X31 X32. unfold dot in *.
  assert (C0 : a0 * a0 + b0 * b0 + c0 * c0 = 1).
  { rewrite <- X20 at 1. rewrite <- X30 at 1. rewrite <- X10 at 1. unfold triple, dot, cross in E. lra. }
  assert (C01 : a0 * a1 + b0 * b1 + c0 * c1 = 0).
  { rewrite <- X21, <- X31, <- X11. ring. }
  split; [|lra]. lra.
Qed.
Lemma rotation_cycle a0 a1 a2 b0 b1 b2 c0 c1 c2 :
  rotation (a0, a1, a2) (b0, b1, b2) (c0, c1, c2) ->
  rotation (b1, b2, b0) (c1, c2, c0) (a1, a2, a0).
Proof.
  intros ((E1 & E2 & E3 & E4 & E5 & E6) & E). unfold rotation, orthonormal, triple, dot, cross in *.
  split_and!; lra.
Qed.

Lemma signed_entry T X d e : 0 < T -> T * X = (d - e) * (d - e) ->
  let q := (half * Math_sqrt (Math_max (Some X) (int 0)))%num in
  (if nlt (Some d) (Some e) then (- q)%num else q) = Some ((d - e) / (2 * sqrt T)).
Proof.
  intros HT E q. rewrite <- (signed_root T X (d - e) HT E).
  assert (Eq : q = Some (/ 2 * sqrt (Rmax X 0))).
  { unfold q, Math_max, int, half. cbn [lift2]. by rewrite sqrt_some by apply Rmax_r. }
  rewrite Eq. cbn [nlt nopp]. assert (F : Rltb d e = Rltb (d - e) 0).
  { destruct (Rltb (d - e) 0) eqn:F.
    - apply Rltb_spec in F. apply Rltb_spec. lra.
    - apply Rltb_false in F. apply Rltb_false. lra. }
  rewrite F. by destruct (Rltb (d - e) 0).
Qed.
Lemma root_entry T : 0 < T ->
  (half * Math_sqrt (Math_max (Some T) (int 0)))%num = Some (sqrt T / 2).
Proof.
  intros HT. unfold Math_max, int, half. cbn [lift2]. rewrite Rmax_left, sqrt_some by lra.
  cbn. f_equal. field.
Qed.
Lemma half_product W T d e s : 0 < W -> W * W = T -> d * e = T * s ->
  d / (2 * W) * (e / (2 * W)) = s / 4.
Proof.
  intros HW EW E. transitivity (d * e / (4 * (W * W))); [field; lra|]. rewrite E, <- EW. field. lra.
Qed.
Lemma half_with W d : 0 < W -> W / 2 * (d / (2 * W)) = d / 4.
Proof. intros HW. field. lra. Qed.

Lemma quaternion_spins a b c :
  rotation a b c -> 0 < 1 + (let '(a0, _, _) := a in a0) + (let '(_, b1, _) := b in b1)
                        + (let '(_, _, c2) := c in c2) ->
  exists x y z w, quaternionOf [v3 a; v3 b; v3 c] = [Some x; Some y; Some z; Some w] /\
    spins x y z w a b c /\ 0 < w.
Proof.
  destruct a as [[a0 a1] a2], b as [[b0 b1] b2], c as [[c0 c1] c2]. intros H HT.
  destruct (rotation_parts _ _ _ _ _ _ _ _ _ H) as [PX PXY].
  destruct (rotation_parts _ _ _ _ _ _ _ _ _ (rotation_cycle _ _ _ _ _ _ _ _ _ H)) as [PY PYZ].
  destruct (rotation_parts _ _ _ _ _ _ _ _ _
    (rotation_cycle _ _ _ _ _ _ _ _ _ (rotation_cycle _ _ _ _ _ _ _ _ _ H))) as [PZ PZX].
  cbv zeta in *. set (T := 1 + a0 + b1 + c2) in *.
  replace (1 + b1 + c2 + a0) with T in * by (unfold T; ring).
  replace (1 + c2 + a0 + b1) with T in * by (unfold T; ring).
  replace (1 + b1 - c2 - a0) with (1 - a0 + b1 - c2) in PY by ring.
  replace (1 + c2 - a0 - b1) with (1 - a0 - b1 + c2) in PZ by ring.
  assert (quaternionOf [v3 (a0, a1, a2); v3 (b0, b1, b2); v3 (c0, c1, c2)] =
    [Some ((b2 - c1) / (2 * sqrt T)); Some ((c0 - a2) / (2 * sqrt T));
     Some ((a1 - b0) / (2 * sqrt T)); Some (sqrt T / 2)]) as Q.
  { unfold quaternionOf, entry. cbn [default lookup list_lookup v3].
    rewrite <- (signed_entry T _ _ _ HT PX), <- (signed_entry T _ _ _ HT PY),
      <- (signed_entry T _ _ _ HT PZ), <- (root_entry T HT).
    reflexivity. }
  pose proof (sqrt_lt_R0 T HT) as HW. pose proof (sqrt_sqrt T ltac:(lra)) as EW.
  do 4 eexists. split; [exact Q|]. split; [|lra].
  pose proof (half_product _ _ _ _ _ HW EW (eq_sym PX)) as XX. pose proof (half_product _ _ _ _ _ HW EW (eq_sym PY)) as YY.
  pose proof (half_product _ _ _ _ _ HW EW (eq_sym PZ)) as ZZ. pose proof (half_product _ _ _ _ _ HW EW PXY) as XY.
  pose proof (half_product _ _ _ _ _ HW EW PYZ) as YZ. pose proof (half_product _ _ _ _ _ HW EW PZX) as ZX.
  pose proof (half_with _ (b2 - c1) HW) as WX. pose proof (half_with _ (c0 - a2) HW) as WY.
  pose proof (half_with _ (a1 - b0) HW) as WZ.
  assert (WW : sqrt T / 2 * (sqrt T / 2) = T / 4) by (transitivity (sqrt T * sqrt T / 4); [field|by rewrite EW]).
  clear PX PXY PY PYZ PZ PZX Q.
  set (x := (b2 - c1) / (2 * sqrt T)) in *. set (y := (c0 - a2) / (2 * sqrt T)) in *.
  set (z := (a1 - b0) / (2 * sqrt T)) in *. set (w := sqrt T / 2) in *.
  clearbody x y z w. clear HW EW. unfold T in WW. unfold spins. split_and!; [apply pair3_eq; lra..|lra].
Qed.

(** ** The decomposition *)
(** The matrix with a corner of one, its upper rows, and its part without perspective. *)
Definition normal (X : mat R) : mat R := fun i j => X i j / X 3%nat 3%nat.
Definition row3 (X : mat R) (i : nat) : R3 := (X i 0%nat, X i 1%nat, X i 2%nat).
Definition affine (X : mat R) : mat R := fun i j =>
  if (j =? 3)%nat then if (i =? 3)%nat then 1 else 0 else X i j.
Definition volume (X : mat R) : R := triple (row3 X 0) (row3 X 1) (row3 X 2).

Lemma normalizedMatrix_flat X : X 3%nat 3%nat <> 0 -> normalizedMatrix (flat X) = flat (normal X).
Proof.
  intros HX. unfold normalizedMatrix. cbn [fmap list_fmap seq].
  cbn -[ndiv]. by rewrite !ndiv_some by exact HX.
Qed.
Lemma perspectiveMatrix_flat X : perspectiveMatrix (flat X) = flat (affine X).
Proof. reflexivity. Qed.
Lemma mdet_affine X : mdet 4 (affine X) = volume X.
Proof.
  unfold volume, triple, row3, dot, cross. cbn. unfold sign, minor, skip, affine. cbn. ring.
Qed.
Lemma upper_row_flat X i : (i < 4)%nat -> upper_row (flat X) i = v3 (row3 X i).
Proof. intros Hi. do 4 (destruct i as [|i]; [reflexivity|]). lia. Qed.
Lemma falsy_R a : falsy (Some a) = Reqb a 0.
Proof. reflexivity. Qed.

(** The perspective [p] is the last column of the matrix in the basis of the rest. *)
Definition perspective_of (X : mat R) (p : nat -> R) : Prop :=
  forall i, (i < 4)%nat -> X i 3%nat = sum4 (fun j => affine X i j * p j).
Lemma isolatePerspective_flat X :
  X 3%nat 3%nat = 1 -> volume X <> 0 ->
  exists p, isolatePerspective (flat X) = vec p /\ perspective_of X p.
Proof.
  intros H33 Hv. unfold isolatePerspective. rewrite <- mdet_affine in Hv.
  destruct (_ || _) eqn:E.
  - rewrite perspectiveMatrix_flat, inverse_adjugate by exact Hv.
    fold (inverse_of (affine X)). rewrite transpose_flat.
    change [((flat X).[3])%num; ((flat X).[7])%num; ((flat X).[11])%num; ((flat X).[15])%num]
      with (vec (fun i => X i 3%nat)).
    rewrite multiplyVectorByMatrix_flat. eexists. split; [done|]. intros i Hi.
    assert (M : forall k, (k < 4)%nat -> mmul (affine X) (inverse_of (affine X)) i k = mid i k).
    { intros k Hk. exact (flat_inj _ mid i k (inverse_of_r (affine X) Hv) Hi Hk). }
    transitivity (sum4 (fun k => X k 3%nat * mid i k)).
    + unfold sum4, mid. do 4 (destruct i as [|i]; [cbn; ring|]). lia.
    + unfold sum4 at 1. rewrite <- !M by lia. unfold vapp, mmul, sum4. cbn. ring.
  - apply orb_false_iff in E as [[E0 E1]%orb_false_iff E2].
    cbn in E0, E1, E2. rewrite negb_false_iff, Reqb_spec in E0, E1, E2.
    exists (fun j => if (j =? 3)%nat then 1 else 0). split; [done|]. intros i Hi.
    unfold sum4, affine. cbn. do 4 (destruct i as [|i]; [cbn; lra|]). lia.
Qed.

Definition trace_of (a b c : R3) : R :=
  (let '(x, _, _) := a in x) + (let '(_, y, _) := b in y) + (let '(_, _, z) := c in z).

Lemma decomposeMatrix_flat X :
  X 3%nat 3%nat <> 0 -> volume (normal X) <> 0 ->
  exists s0 s1 s2 k0 k1 k2 u0 u1 u2 p d,
    decomposeMatrix (flat X) = Ret (Some d) /\
    rotation u0 u1 u2 /\
    rebuilt s0 s1 s2 k0 k1 k2 u0 u1 u2 (row3 (normal X) 0) (row3 (normal X) 1) (row3 (normal X) 2) /\
    (0 < volume (normal X) -> 0 < s0 /\ 0 < s1 /\ 0 < s2) /\
    scale d = [Some s0; Some s1; Some s2] /\ skew d = [Some 0; Some k1; Some k2] /\
    perspective d = vec p /\ perspective_of (normal X) p /\
    translation d = v3 (row3 (normal X) 3) /\
    quaternion d = quaternionOf [v3 u0; v3 u1; v3 u2] /\
    rotationDegrees d = rotationOf (quaternion d) [v3 u0; v3 u1; v3 u2] /\
    [rotateX d; rotateY d; rotate d] = [(rotationDegrees d).[0]; (rotationDegrees d).[1]; (rotationDegrees d).[2]]%num /\
    [scaleX d; scaleY d; translateX d; translateY d]
      = [(scale d).[0]; (scale d).[1]; (translation d).[0]; (translation d).[1]]%num.
Proof.
  intros HX Hv.
  destruct (factorRows_v3 _ _ _ Hv) as (s0 & s1 & s2 & k0 & k1 & k2 & a & b & c & F & Hr & Hb & _ & _ & _ & Hs).
  assert (H33 : normal X 3%nat 3%nat = 1) by (unfold normal; field; done).
  destruct (isolatePerspective_flat _ H33 Hv) as (p & Ep & Hp).
  exists s0, s1, s2, k0, k1, k2, a, b, c, p. eexists. split.
  - unfold decomposeMatrix. cbn [negb length flat concat].
    change (length (flat X) =? 16)%nat with true. cbn [negb].
    change ((flat X).[15])%num with (Some (X 3%nat 3%nat)). rewrite falsy_R.
    rewrite (Reqb_false _ _ HX).
    rewrite normalizedMatrix_flat by done. cbv zeta.
    rewrite perspectiveMatrix_flat, determinant_flat, mdet_affine, falsy_R.
    rewrite (Reqb_false _ _ Hv).
    rewrite !upper_row_flat by lia. rewrite F, Ep. cbn [the_rows the_scale the_skew result_of].
    reflexivity.
  - split_and!; try done.
Qed.


(** Rows that are sheared are not orthogonal. *)
Lemma rebuilt_dot01 s0 s1 s2 k0 k1 k2 u0 u1 u2 r0 r1 r2 :
  rotation u0 u1 u2 -> rebuilt s0 s1 s2 k0 k1 k2 u0 u1 u2 r0 r1 r2 -> dot r0 r1 = s0 * s1 * k0.
Proof.
  intros ((E1 & E2 & E3 & E4 & E5 & E6) & _) (-> & -> & ->).
  rewrite dot_scl_l, dot_scl_r, dot_comb, E1, E4. ring.
Qed.
Lemma rebuilt_dot2 s0 s1 s2 k0 k1 k2 u0 u1 u2 r0 r1 r2 :
  rotation u0 u1 u2 -> rebuilt s0 s1 s2 k0 k1 k2 u0 u1 u2 r0 r1 r2 ->
  dot u0 r2 = s2 * k1 /\ dot u1 r2 = s2 * k2.
Proof.
  intros ((E1 & E2 & E3 & E4 & E5 & E6) & _) (-> & -> & ->).
  rewrite !dot_scl_r, !dot_comb, (dot_comm u1 u0), E1, E2, E4, E5, E6. split; ring.
Qed.

(** The shear of the Y against the X axis is lost: its factor is computed twice, the
    second time of rows that are orthogonal already, so that [skew[0]] is 0 whatever the
    matrix, and no rotation with the scales and shears that are returned rebuilds rows
    that are not orthogonal. *)
Theorem xy_shear_is_lost X :
  X 3%nat 3%nat <> 0 -> volume (normal X) <> 0 ->
  dot (row3 (normal X) 0) (row3 (normal X) 1) <> 0 ->
  exists d, decomposeMatrix (flat X) = Ret (Some d) /\ (skew d).[0]%num = Some 0 /\
    forall s0 s1 s2 k0 k1 k2 u0 u1 u2,
      scale d = [Some s0; Some s1; Some s2] -> skew d = [Some k0; Some k1; Some k2] ->
      rotation u0 u1 u2 ->
      ~ rebuilt s0 s1 s2 k0 k1 k2 u0 u1 u2
          (row3 (normal X) 0) (row3 (normal X) 1) (row3 (normal X) 2).
Proof.
  intros HX Hv Hd. destruct (decomposeMatrix_flat X HX Hv)
    as (s0 & s1 & s2 & k0 & k1 & k2 & a & b & c & p & d & E & _ & _ & _ & Es & Ek & _).
  exists d. split; [done|]. rewrite Ek. split; [done|].
  intros t0 t1 t2 l0 l1 l2 u0 u1 u2 _ [= <- _ _] Hr Hb. destruct Hd.
  rewrite (rebuilt_dot01 _ _ _ _ _ _ _ _ _ _ _ _ Hr Hb). ring.
Qed.

(** ** Turns in the plane *)
Lemma factor_zero s k t : 0 < s -> 0 < t -> s * k * t = 0 -> k = 0.
Proof. intros Hs Ht [[E|E]%Rmult_integral|E]%Rmult_integral; lra. Qed.
Lemma rebuilt_orthogonal s0 s1 s2 k0 k1 k2 u0 u1 u2 r0 r1 r2 :
  rotation u0 u1 u2 -> rebuilt s0 s1 s2 k0 k1 k2 u0 u1 u2 r0 r1 r2 ->
  0 < s0 /\ 0 < s1 /\ 0 < s2 -> dot r0 r1 = 0 -> dot r0 r2 = 0 -> dot r1 r2 = 0 ->
  (s0 = len r0 /\ s1 = len r1 /\ s2 = len r2) /\
  (r0 = scl s0 u0 /\ r1 = scl s1 u1 /\ r2 = scl s2 u2).
Proof.
  intros Hr Hb (S0 & S1 & S2) D01 D02 D12.
  assert (k0 = 0) as ->.
  { rewrite (rebuilt_dot01 _ _ _ _ _ _ _ _ _ _ _ _ Hr Hb) in D01.
    apply (factor_zero s0 k0 s1); lra. }
  destruct (rebuilt_dot2 _ _ _ _ _ _ _ _ _ _ _ _ Hr Hb) as [K1 K2].
  destruct Hb as (-> & -> & ->).
  assert (Eu : comb 0 u0 1 u1 = u1) by (clear; vectors; apply pair3_eq; ring). rewrite Eu in *.
  rewrite dot_scl_l in D02, D12.
  rewrite K1 in D02. rewrite K2 in D12. apply factor_zero in D02, D12; [|lra..]. subst k1 k2.
  assert (Ew : comb 1 (comb 0 u0 0 u1) 1 u2 = u2) by (clear; vectors; apply pair3_eq; ring).
  rewrite Ew. destruct Hr as ((E1 & E2 & E3 & _) & _). split; [|done].
  unfold len. rewrite !dot_scl_l, !dot_scl_r, E1, E2, E3, !Rmult_1_l, !sqrt_square; lra.
Qed.

(** The matrix that scales by [a] and [b], turns by [t] and translates. *)
Definition planar (a b t x y : R) : mat R := of_array (Some <$>
  [a * cos t; a * sin t; 0; 0; b * - sin t; b * cos t; 0; 0; 0; 0; 1; 0; x; y; 0; 1]).

Lemma cos_sin t : cos t * cos t + sin t * sin t = 1.
Proof. pose proof (sin2_cos2 t) as E. unfold Rsqr in E. lra. Qed.
Lemma scl_inj s u w : s <> 0 -> scl s u = scl s w -> u = w.
Proof.
  intros Hs. destruct u as [[x y] z], w as [[x' y'] z']. intros [= E0 E1 E2].
  apply Rmult_eq_reg_r in E0, E1, E2; try done. by subst.
Qed.
Lemma normal_planar a b t x y i :
  row3 (normal (planar a b t x y)) i = row3 (planar a b t x y) i.
Proof.
  unfold row3, normal. change (planar a b t x y 3%nat 3%nat) with 1. apply pair3_eq; field.
Qed.
Lemma len_scaled a u : 0 < a -> dot u u = 1 -> len (scl a u) = a.
Proof.
  intros Ha E. unfold len. rewrite dot_scl_l, dot_scl_r, E, Rmult_1_l. apply sqrt_square. lra.
Qed.

Lemma planar_factors a b t x y : 0 < a -> 0 < b ->
  exists d, decomposeMatrix (flat (planar a b t x y)) = Ret (Some d) /\
    scale d = [Some a; Some b; Some 1] /\ translation d = [Some x; Some y; Some 0] /\
    quaternion d = quaternionOf [v3 (cos t, sin t, 0); v3 (- sin t, cos t, 0); v3 (0, 0, 1)] /\
    rotationDegrees d = rotationOf (quaternion d) [v3 (cos t, sin t, 0); v3 (- sin t, cos t, 0); v3 (0, 0, 1)] /\
    [rotateX d; rotateY d; rotate d] = [(rotationDegrees d).[0]; (rotationDegrees d).[1]; (rotationDegrees d).[2]]%num /\
    [scaleX d; scaleY d; translateX d; translateY d]
      = [(scale d).[0]; (scale d).[1]; (translation d).[0]; (translation d).[1]]%num.
Proof.
  intros Ha Hb. set (X := planar a b t x y). pose proof (cos_sin t) as CS.
  assert (R0 : row3 (normal X) 0 = scl a (cos t, sin t, 0)).
  { unfold X. rewrite normal_planar. unfold row3, planar, of_array, scl. cbn. apply pair3_eq; ring. }
  assert (R1 : row3 (normal X) 1 = scl b (- sin t, cos t, 0)).
  { unfold X. rewrite normal_planar. unfold row3, planar, of_array, scl. cbn. apply pair3_eq; ring. }
  assert (R2 : row3 (normal X) 2 = scl 1 (0, 0, 1)).
  { unfold X. rewrite normal_planar. unfold row3, planar, of_array, scl. cbn. apply pair3_eq; ring. }
  assert (R3 : row3 (normal X) 3 = (x, y, 0)).
  { unfold X. by rewrite normal_planar. }
  assert (V : volume (normal X) = a * b).
  { unfold volume. rewrite R0, R1, R2. transitivity (a * b * (cos t * cos t + sin t * sin t)).
    - unfold triple, dot, cross, scl. ring.
    - rewrite CS. ring. }
  assert (0 < a * b) by (by apply Rmult_lt_0_compat).
  assert (H33 : X 3%nat 3%nat <> 0) by (change (1 <> 0); lra).
  destruct (decomposeMatrix_flat X H33) as (s0 & s1 & s2 & k0 & k1 & k2 & u0 & u1 & u2 & p & d & E
    & Hr & Hreb & Hs & Es & _ & _ & _ & Et & Eq & Edeg & Exyz & Ev); [lra|].
  exists d. rewrite R0, R1, R2, V in *. rewrite R3 in Et. specialize (Hs H).
  destruct (rebuilt_orthogonal _ _ _ _ _ _ _ _ _ _ _ _ Hr Hreb Hs) as ((S0 & S1 & S2) & (U0 & U1 & U2)).
  1-3: unfold dot, scl; ring.
  rewrite len_scaled in S0, S1, S2 by (try lra; unfold dot; lra). subst s0 s1 s2.
  apply scl_inj in U0, U1, U2; try lra. subst u0 u1 u2. done.
Qed.

Lemma round_close x : exists r, roundTo3Places (Some x) = Some r /\ Rabs (r - x) <= 1 / 2000.
Proof.
  eexists. split; [done|]. unfold Math_round. destruct (base_Int_part (x * 1000 + / 2)) as [H1 H2].
  apply Rabs_le. split; lra.
Qed.

Lemma tan_turn t : tan (t + PI) = tan t.
Proof. unfold tan. rewrite neg_sin, neg_cos. destruct (Req_dec_T (cos t) 0) as [E|]; [|by field].
  rewrite E, Ropp_0. unfold Rdiv. rewrite Rinv_0. ring. Qed.
Lemma cos_pos_bounds t : - PI < t <= PI -> 0 < cos t -> - (PI / 2) < t < PI / 2.
Proof.
  intros Ht Hc. pose proof PI_RGT_0. split.
  - apply Rnot_le_lt. intros Hle. pose proof (cos_le_0 (- t) ltac:(lra) ltac:(lra)) as H0.
    rewrite cos_neg in H0. lra.
  - apply Rnot_le_lt. intros Hle. pose proof (cos_le_0 t ltac:(lra) ltac:(lra)). lra.
Qed.
Lemma cos_neg_bounds t : - PI < t <= PI -> cos t < 0 -> PI / 2 < t \/ t < - (PI / 2).
Proof.
  intros Ht Hc. pose proof PI_RGT_0. destruct (Rle_lt_dec t (PI / 2)) as [H1|H1]; [|by left].
  destruct (Rle_lt_dec (- (PI / 2)) t) as [H2|H2]; [|by right].
  pose proof (cos_ge_0 t ltac:(lra) ltac:(lra)). lra.
Qed.
Lemma sin_sign t : - PI < t <= PI -> (sin t < 0 -> t < 0) /\ (0 <= sin t -> 0 <= t).
Proof.
  intros Ht. pose proof PI_RGT_0. split; intros Hs.
  - apply Rnot_le_lt. intros Hle. pose proof (sin_ge_0 t Hle ltac:(lra)). lra.
  - apply Rnot_lt_le. intros Hlt. pose proof (sin_gt_0 (- t) ltac:(lra) ltac:(lra)) as H0.
    rewrite sin_neg in H0. lra.
Qed.
Lemma atan2_polar t : - PI < t <= PI -> atan2 (sin t) (cos t) = t.
Proof.
  intros Ht. pose proof PI_RGT_0. unfold atan2. fold (tan t). destruct (sin_sign t Ht) as [Sn Sp].
  destruct (Rltb 0 (cos t)) eqn:C; [|apply Rltb_false in C; destruct (Rltb (cos t) 0) eqn:D].
  - apply Rltb_spec in C. apply atan_tan. by apply cos_pos_bounds.
  - apply Rltb_spec in D. apply (cos_neg_bounds t Ht) in D.
    destruct (Rltb (sin t) 0) eqn:S; [apply Rltb_spec in S; apply Sn in S|apply Rltb_false in S; apply Sp in S].
    + rewrite <- tan_turn, atan_tan by lra. lra.
    + replace t with (t - PI + PI) at 1 by ring. rewrite tan_turn, atan_tan by lra. ring.
  - apply Rltb_false in D. pose proof (cos_sin t) as CS. assert (Ec : cos t = 0) by lra.
    apply cos_eq_0_0 in Ec as [k Ek].
    assert (Hk : (k = 0 \/ k = -1)%Z).
    { assert (-2 < k)%Z by (apply lt_IZR; nra). assert (k < 1)%Z by (apply lt_IZR; nra). lia. }
    destruct Hk as [-> | ->].
    + assert (t = PI / 2) as -> by lra. rewrite sin_PI2, (proj2 (Rltb_spec 0 1)) by lra. done.
    + assert (t = - (PI / 2)) as -> by lra. rewrite sin_neg, sin_PI2.
      rewrite (proj2 (Rltb_false 0 (Ropp 1))), (proj2 (Rltb_spec (Ropp 1) 0)) by lra. done.
Qed.

(** The quaternion of a turn in the plane has no x nor y part. *)
Lemma planar_rotation t : - PI < t <= PI ->
  rotationOf (quaternionOf [v3 (cos t, sin t, 0); v3 (- sin t, cos t, 0); v3 (0, 0, 1)])
    [v3 (cos t, sin t, 0); v3 (- sin t, cos t, 0); v3 (0, 0, 1)]
  = [Some 0; Some 0; roundTo3Places (Some (t * 180 / PI))].
Proof.
  intros Ht. pose proof PI_RGT_0.
  assert (Z : forall X, X = 0 -> (half * Math_sqrt (Math_max (Some X) (int 0)))%num = Some 0).
  { intros X ->. unfold Math_max, int, half. cbn [lift2]. rewrite Rmax_left, sqrt_some, sqrt_0 by lra.
    cbn. f_equal. ring. }
  assert (Q : exists q2 q3,
    quaternionOf [v3 (cos t, sin t, 0); v3 (- sin t, cos t, 0); v3 (0, 0, 1)] = [Some 0; Some 0; q2; q3]).
  { unfold quaternionOf, entry. cbn [default lookup list_lookup v3]. do 2 eexists.
    assert (N : nlt (Some 0) (Some 0) = false) by (apply (proj2 (Rltb_false 0 0)); lra).
    cbn -[nmul Math_sqrt Math_max nlt half].
    rewrite !N, (Z (1 + cos t - cos t - 1)), (Z (1 - cos t + cos t - 1)) by ring. reflexivity. }
  destruct Q as (q2 & q3 & ->). unfold rotationOf.
  assert (S : nlt (Some 0) (Some (/ 1000)) = true) by (apply (proj2 (Rltb_spec 0 (/ 1000))); lra).
  assert (G : nge (Some 0) (int 0) = true).
  { unfold nge, int. by rewrite (proj2 (Rltb_false 0 0)) by lra. }
  change ([Some 0; Some 0; q2; q3].[0])%num with (Some 0).
  change ([Some 0; Some 0; q2; q3].[1])%num with (Some 0). rewrite S, G. cbn [andb].
  change (Math_atan2 _ _) with (Some (atan2 (sin t) (cos t))).
  rewrite atan2_polar by done. unfold int. cbn [nmul lift2 Math_PI R_math].
  rewrite ndiv_some by (cbn; lra). reflexivity.
Qed.

(** A matrix is known by what it does. *)
Lemma matrix_by_action Y (f : (nat -> R) -> nat -> R) :
  (forall p, multiplyVectorByMatrix (vec p) (flat Y) = vec (f p)) ->
  flat Y = flat (fun i => f (fun k => if (k =? i)%nat then 1 else 0)).
Proof.
  intros Hf. apply flat_ext. intros i j Hi Hj.
  set (p := fun k => if (k =? i)%nat then 1 else 0).
  pose proof (Hf p) as E. rewrite multiplyVectorByMatrix_flat in E.
  rewrite <- (vec_inj _ _ j E Hj). unfold vapp, sum4, p.
  do 4 (destruct i as [|i]; [cbn; ring|]). lia.
Qed.


(** ** Examples *)
Definition sheared_matrix : mat R := of_array (Some <$>
  [1; 0; 0; 0; 1; 1; 0; 0; 0; 0; 1; 0; 0; 0; 0; 1]).
Lemma xy_shear_is_lost_witness :
  exists d, decomposeMatrix (flat sheared_matrix) = Ret (Some d) /\ (skew d).[0]%num = Some 0 /\
    forall s0 s1 s2 k0 k1 k2 u0 u1 u2,
      scale d = [Some s0; Some s1; Some s2] -> skew d = [Some k0; Some k1; Some k2] ->
      rotation u0 u1 u2 ->
      ~ rebuilt s0 s1 s2 k0 k1 k2 u0 u1 u2 (row3 (normal sheared_matrix) 0)
          (row3 (normal sheared_matrix) 1) (row3 (normal sheared_matrix) 2).
Proof.
  apply (xy_shear_is_lost sheared_matrix).
  - change (1 <> 0). lra.
  - unfold volume, triple, dot, cross, row3, normal. cbn. lra.
  - unfold dot, row3, normal. cbn. lra.
Defined.

Definition two_numbers : heap_of R := {[0%nat := [Some 3; Some 4]]}.
Lemma half_radian : angle (A:=R) "0.5rad" = Some (Q2R (1 # 2)).
Proof.
  assert (E : Transform.parseFloat "0.5rad" = Some (5 # 10)) by (vm_compute; reflexivity).
  unfold angle. rewrite E. cbn. f_equal. by apply Qeq_eqR.
Qed.

(** A half turn about an axis between X and minus Y: the signs of the parts of the
    quaternion are read off entries that are zero, and those of another half turn
    result. *)
Example half_turn_loses_signs :
  let a := (0, -1, 0) in let b := (-1, 0, 0) in let c := (0, 0, -1) in
  rotation a b c /\
  exists x y z w, quaternionOf [v3 a; v3 b; v3 c] = [Some x; Some y; Some z; Some w] /\
    ~ spins x y z w a b c.
Proof.
  cbv zeta. split.
  - unfold rotation, orthonormal, triple, dot, cross. split_and!; lra.
  - assert (Z : forall X, X = 0 -> (half * Math_sqrt (Math_max (Some X) (int 0)))%num = Some 0).
    { intros X ->. unfold Math_max, int, half. cbn [lift2].
      rewrite Rmax_left, sqrt_some, sqrt_0 by lra. cbn. f_equal. ring. }
    assert (P : forall X, X = 2 -> (half * Math_sqrt (Math_max (Some X) (int 0)))%num = Some (/ 2 * sqrt 2)).
    { intros X ->. unfold Math_max, int, half. cbn [lift2]. by rewrite Rmax_left, sqrt_some by lra. }
    assert (N : forall r, nlt (Some r) (Some r) = false) by (intros r; apply (proj2 (Rltb_false r r)); lra).
    exists (/ 2 * sqrt 2), (/ 2 * sqrt 2), 0, 0. split.
    + unfold quaternionOf, entry. cbn -[nmul Math_sqrt Math_max nlt half]. rewrite !N.
      rewrite !P, !Z by ring. done.
    + intros ([= _ E _] & _). pose proof (sqrt_sqrt 2 ltac:(lra)). lra.
Qed.
