(* ===== verification/Blob.v ===== *)
(** * Blobs

    Libraries/Blob: BlobRegistry.js, BlobManager.js, Blob.js and File.js, with the store
    of bytes behind them ([store], [resolve], [createFromParts] and [release] of
    RCTBlobManager.mm), which receives the calls in the order they are made.

    A string is the list of its UTF-16 code units, bytes and sizes are integers.
    [uuidv4] draws from [Math.random], a parameter; the collectors are objects of native
    that only have an identity here (what the garbage collector does is not modelled).
    The object [createFromParts] returns to the constructor of [Blob], which keeps its
    data only, is garbage after that and is taken off the heap there. *)
From S2P Require Import Prelude.
From stdpp Require Import base numbers list strings gmap fin_maps fin_sets.
From Stdlib Require Import Ascii.
Open Scope Z_scope.

Record BlobData := {
  blobId : string;
  offset : Z;
  size : Z;
  name : option string;
  type_ : option string;
  lastModified : option Z;
  collector : option nat
}.
Definition with_collector (c : option nat) (d : BlobData) : BlobData :=
  {| blobId := blobId d; offset := offset d; size := size d; name := name d; type_ := type_ d;
     lastModified := lastModified d; collector := c |}.
Definition with_name (n : string) (d : BlobData) : BlobData :=
  {| blobId := blobId d; offset := offset d; size := size d; name := Some n; type_ := type_ d;
     lastModified := lastModified d; collector := collector d |}.
Record BlobOptions := { o_type : string; o_lastModified : Z }.

(** An item of a call to native, and the calls. *)
Inductive item := BlobItem (data : BlobData) | StringItem (data : list Z).
Inductive native_call :=
  | CreateFromParts (items : list item) (id : string)
  | Release (id : string)
  | AddNetworkingHandler
  | AddWebSocketHandler (socketId : nat)
  | RemoveWebSocketHandler (socketId : nat)
  | SendOverSocket (data : BlobData) (socketId : nat)
  | StoredByNative (id : string) (bytes : list Z).   (* the body of a response or a message *)

(** ** UTF-8 *)
Definition is_high (u : Z) : bool := (0xD800 <=? u) && (u <=? 0xDBFF).
Definition is_low (u : Z) : bool := (0xDC00 <=? u) && (u <=? 0xDFFF).
Definition utf8_of (c : Z) : list Z :=
  if c <? 0x80 then [c]
  else if c <? 0x800 then [0xC0 + Z.shiftr c 6; 0x80 + Z.land c 63]
  else if c <? 0x10000 then
    [0xE0 + Z.shiftr c 12; 0x80 + Z.land (Z.shiftr c 6) 63; 0x80 + Z.land c 63]
  else [0xF0 + Z.shiftr c 18; 0x80 + Z.land (Z.shiftr c 12) 63;
        0x80 + Z.land (Z.shiftr c 6) 63; 0x80 + Z.land c 63].
(** The bytes of a string: [encodeURI] throws at a lone surrogate. *)
Fixpoint utf8 (s : list Z) : option (list Z) :=
  match s with
  | [] => Some []
  | u :: s' =>
      if is_high u then
        match s' with
        | v :: s'' =>
            if is_low v
            then app (utf8_of (0x10000 + (u - 0xD800) * 0x400 + (v - 0xDC00))) <$> utf8 s''
            else None
        | [] => None
        end
      else if is_low u then None
      else app (utf8_of u) <$> utf8 s'
  end.

(** ** The store of native *)
Inductive resolved := Nil | Bytes (b : list Z) | RangeException.
Definition subdata (b : list Z) (off sz : Z) : resolved :=
  if (0 <=? off) && (0 <=? sz) && (off + sz <=? Z.of_nat (length b))
  then Bytes (take (Z.to_nat sz) (drop (Z.to_nat off) b))
  else RangeException.
Definition resolve (store : gmap string (list Z)) (d : BlobData) : resolved :=
  match store !! blobId d with
  | None => Nil
  | Some b =>
      if negb (offset d =? 0) || (negb (size d =? -1) && negb (size d =? Z.of_nat (length b)))
      then subdata b (offset d) (size d) else Bytes b
  end.
Definition item_bytes (store : gmap string (list Z)) (i : item) : option (list Z) :=
  match i with
  | BlobItem d => if resolve store d is Bytes b then Some b else None
  | StringItem s => utf8 s
  end.
(** A call that raises an exception stores nothing. *)
Definition native_step (store : gmap string (list Z)) (c : native_call) : gmap string (list Z) :=
  match c with
  | CreateFromParts items id =>
      match mapM (item_bytes store) items with
      | Some bs => <[id := concat bs]> store
      | None => store
      end
  | Release id => delete id store
  | StoredByNative id b => <[id := b]> store
  | _ => store
  end.
Definition native_store (calls : list native_call) : gmap string (list Z) :=
  foldl native_step ∅ calls.

(** ** State *)
(** [blobs]: the [_data] of each Blob object, [None] for [null]. *)
Record st := {
  registry : gmap string nat;
  blobs : gmap nat (option BlobData);
  collectors : nat;
  drawn : nat;
  calls : list native_call
}.
Definition set_registry x (s : st) : st :=
  {| registry := x; blobs := blobs s; collectors := collectors s; drawn := drawn s; calls := calls s |}.
Definition set_blobs x (s : st) : st :=
  {| registry := registry s; blobs := x; collectors := collectors s; drawn := drawn s; calls := calls s |}.
Definition set_collectors x (s : st) : st :=
  {| registry := registry s; blobs := blobs s; collectors := x; drawn := drawn s; calls := calls s |}.
Definition set_drawn x (s : st) : st :=
  {| registry := registry s; blobs := blobs s; collectors := collectors s; drawn := x; calls := calls s |}.
Definition set_calls x (s : st) : st :=
  {| registry := registry s; blobs := blobs s; collectors := collectors s; drawn := drawn s; calls := x |}.
Definition store_of (s : st) : gmap string (list Z) := native_store (calls s).
Definition initial : st :=
  {| registry := ∅; blobs := ∅; collectors := 0; drawn := 0; calls := [] |}.

Inductive part := PBlob (b : nat) | PString (s : list Z) | PBuffer.

(** ** BlobRegistry *)
Definition register (id : string) : JS st unit := modify (fun s =>
  set_registry
    match registry s !! id with
    | Some (S n) => <[id := S (S n)]> (registry s)
    | _ => <[id := 1%nat]> (registry s)
    end s).
Definition unregister (id : string) : JS st unit := modify (fun s =>
  set_registry
    match registry s !! id with
    | Some (S n) =>
        let r := <[id := n]> (registry s) in if (n <=? 0)%nat then delete id r else r
    | _ => registry s
    end s).
Definition has (id : string) : JS st bool :=
  gets (fun s => if registry s !! id is Some n then (0 <? n)%nat else false).

Section Blob.
(** Whether the native module and the provider of collectors are there; the draws of
    [(Math.random() * 16) | 0]; [Date.now()]. *)
Context (available provider : bool) (random16 : nat -> Z) (now : Z).

Definition native (c : native_call) : JS st unit := modify (fun s => set_calls (calls s ++ [c]) s).
Definition require_native : JS st unit := invariant available "NativeBlobModule is available.".

(** ** BlobManager *)
Definition hex_digit (v : Z) : ascii :=
  ascii_of_nat (Z.to_nat (if v <? 10 then 48 + v else 87 + v)).
Definition template : string := "xxxxxxxx-xxxx-4xxx-yxxx-xxxxxxxxxxxx".
Fixpoint replace_xy (t : string) : JS st string :=
  match t with
  | EmptyString => ret EmptyString
  | String c t' =>
      let! c' := (if Ascii.eqb c "x" || Ascii.eqb c "y" then
        let! r := gets (fun s => random16 (drawn s)) in
        do! modify (fun s => set_drawn (S (drawn s)) s);
        let v := if Ascii.eqb c "x" then r else Z.lor (Z.land r 0x3) 0x8 in
        ret (hex_digit v)
      else ret c) in
      let! rest := replace_xy t' in
      ret (String c' rest)
  end.
Definition uuidv4 : JS st string := replace_xy template.

Definition createBlobCollector (id : string) : JS st (option nat) :=
  if provider then
    let! n := gets collectors in
    do! modify (set_collectors (S n));
    ret (Some n)
  else ret None.

Definition new_object (d : option BlobData) : JS st nat := fun s =>
  let b := fresh (dom (blobs s)) in (Ret b, set_blobs (<[b := d]> (blobs s)) s).
Definition createFromOptions (options : BlobData) : JS st nat :=
  do! register (blobId options);
  let! data := (if collector options is None then
      let! c := createBlobCollector (blobId options) in
      ret (with_collector c options)
    else ret options) in
  new_object (Some data).

(** The accessors [blob.data], [blob.data = d], [blob.size], [blob.type]. *)
Definition get_data (b : nat) : JS st BlobData :=
  let! d := gets (fun s => mjoin (blobs s !! b)) in
  match d with
  | Some d => ret d
  | None => throw (JSError "Blob has been closed and is no longer available")
  end.
Definition set_data (b : nat) (d : option BlobData) : JS st unit :=
  modify (fun s => set_blobs (<[b := d]> (blobs s)) s).
Definition get_size (b : nat) : JS st Z := let! d := get_data b in ret (size d).
Definition get_type (b : nat) : JS st string :=
  let! d := get_data b in ret (default "" (type_ d)).

Fixpoint map_parts (parts : list part) : JS st (list item) :=
  match parts with
  | [] => ret []
  | p :: parts' =>
      let! i := match p with
        | PBuffer => throw (JSError "Creating blobs from 'ArrayBuffer' and 'ArrayBufferView' are not supported")
        | PBlob b => let! d := get_data b in ret (BlobItem d)
        | PString s => ret (StringItem s)
        end in
      let! items := map_parts parts' in
      ret (i :: items)
  end.
Fixpoint sum_sizes (acc : Z) (items : list item) : JS st Z :=
  match items with
  | [] => ret acc
  | StringItem s :: items' =>
      match utf8 s with
      | Some b => sum_sizes (acc + Z.of_nat (length b)) items'
      | None => throw (JSError "URIError")
      end
  | BlobItem d :: items' => sum_sizes (acc + size d) items'
  end.
Definition createFromParts (parts : list part) (options : option BlobOptions) : JS st nat :=
  do! require_native;
  let! id := uuidv4 in
  let! items := map_parts parts in
  let! sz := sum_sizes 0 items in
  do! native (CreateFromParts items id);
  createFromOptions
    {| blobId := id; offset := 0; size := sz; name := None;
       type_ := Some (if options is Some o then o_type o else "");
       lastModified := Some (if options is Some o then o_lastModified o else now);
       collector := None |}.

Definition release (id : string) : JS st unit :=
  do! require_native;
  do! unregister id;
  let! h := has id in
  if h then ret tt else native (Release id).
Definition addNetworkingHandler : JS st unit := do! require_native; native AddNetworkingHandler.
Definition addWebSocketHandler (socketId : nat) : JS st unit :=
  do! require_native; native (AddWebSocketHandler socketId).
Definition removeWebSocketHandler (socketId : nat) : JS st unit :=
  do! require_native; native (RemoveWebSocketHandler socketId).
Definition sendOverSocket (blob socketId : nat) : JS st unit :=
  do! require_native;
  let! d := get_data blob in
  native (SendOverSocket d socketId).

(** ** Blob and File *)
Definition new_Blob (parts : list part) (options : option BlobOptions) : JS st nat :=
  let! this := new_object None in
  let! tmp := createFromParts parts options in
  let! d := get_data tmp in
  do! set_data this (Some d);
  do! modify (fun s => set_blobs (delete tmp (blobs s)) s);
  ret this.

(** [None] is an argument that is not a number. *)
Definition slice (b : nat) (start end_ : option Z) : JS st nat :=
  let! d := get_data b in
  let! range := match start with
    | Some start =>
        let start := if size d <? start then size d else start in
        let offset' := offset d + start in
        let size' := size d - start in
        match end_ with
        | Some e =>
            let! this_size := get_size b in
            let e := if e <? 0 then this_size + e else e in
            ret (offset', e - start)
        | None => ret (offset', size')
        end
    | None => ret (offset d, size d)
    end in
  let! d' := get_data b in
  createFromOptions
    {| blobId := blobId d'; offset := fst range; size := snd range; name := None; type_ := None;
       lastModified := None; collector := None |}.
Definition close (b : nat) : JS st unit :=
  let! d := get_data b in
  do! release (blobId d);
  set_data b None.

(** [null] and [undefined] arguments are [None]. *)
Definition new_File (parts : option (list part)) (name : option string) (options : option BlobOptions)
    : JS st nat :=
  match parts, name with
  | Some parts, Some name =>
      let! this := new_Blob parts options in
      let! d := get_data this in
      do! set_data this (Some (with_name name d));
      ret this
  | _, _ =>
      throw (InvariantViolation "Failed to construct `File`: Must pass both `parts` and `name` arguments.")
  end.
Definition get_name (b : nat) : JS st string :=
  let! d := get_data b in
  match name d with
  | Some n => ret n
  | None => throw (InvariantViolation "Files must have a name set.")
  end.
Definition get_lastModified (b : nat) : JS st Z :=
  let! d := get_data b in ret (default 0 (lastModified d)).
End Blob.

(** ** What the operations do *)
Open Scope nat_scope.
Section Laws.
Context (available provider : bool) (random16 : nat -> Z) (now : Z).
Abbreviation new_Blob := (new_Blob available provider random16 now).
Abbreviation new_File := (new_File available provider random16 now).
Abbreviation createFromParts := (createFromParts available provider random16 now).
Abbreviation createFromOptions := (createFromOptions provider).
Abbreviation slice := (slice provider).
Abbreviation close := (close available).

Definition registered (s : st) (id : string) : nat := default 0 (registry s !! id).
Definition registered_more (id : string) (r : gmap string nat) : gmap string nat :=
  <[id := S (default 0 (r !! id))]> r.
Definition registered_less (id : string) (r : gmap string nat) : gmap string nat :=
  match r !! id with
  | Some (S (S n)) => <[id := S n]> r
  | Some 1 => delete id r
  | _ => r
  end.
Lemma register_run id s : register id s = (Ret tt, set_registry (registered_more id (registry s)) s).
Proof.
  unfold register, modify, registered_more. by destruct (registry s !! id) as [[|n]|].
Qed.
Lemma unregister_run id s : unregister id s = (Ret tt, set_registry (registered_less id (registry s)) s).
Proof.
  unfold unregister, modify, registered_less. destruct (registry s !! id) as [[|[|n]]|]; try done.
  cbn. by rewrite delete_insert_eq.
Qed.
Lemma registered_more_lookup id r k :
  default 0 (registered_more id r !! k) = default 0 (r !! k) + (if decide (id = k) then 1 else 0).
Proof.
  unfold registered_more. case_decide as E.
  - subst. rewrite lookup_insert_eq. simpl. lia.
  - rewrite lookup_insert_ne by done. lia.
Qed.
Lemma registered_less_lookup id r k :
  default 0 (registered_less id r !! k) = default 0 (r !! k) - (if decide (id = k) then 1 else 0).
Proof.
  unfold registered_less. case_decide as E.
  - subst. destruct (r !! k) as [[|[|n]]|] eqn:E; rewrite ?lookup_delete_eq, ?lookup_insert_eq, ?E; simpl; lia.
  - destruct (r !! id) as [[|[|n]]|]; rewrite ?lookup_delete_ne, ?lookup_insert_ne by done; lia.
Qed.

(** The number of open blobs of an id. *)
Definition of_id (id : string) (kv : nat * option BlobData) : Prop := blobId <$> snd kv = Some id.
#[local] Instance of_id_dec id kv : Decision (of_id id kv).
Proof. unfold of_id. apply _. Defined.
Definition open_blobs (id : string) (m : gmap nat (option BlobData)) : nat :=
  base.size (filter (of_id id) m).
Definition is_of (id : string) (d : option BlobData) : nat :=
  if decide (blobId <$> d = Some id) then 1 else 0.

Lemma open_blobs_insert id m b d :
  m !! b = None -> open_blobs id (<[b := d]> m) = is_of id d + open_blobs id m.
Proof.
  intros Hb. unfold open_blobs, is_of. case_decide as E.
  - rewrite map_filter_insert_True by done. rewrite map_size_insert_None; [done|].
    apply map_lookup_filter_None. by left.
  - rewrite map_filter_insert_False by done. by rewrite delete_id.
Qed.
Lemma open_blobs_delete id m b d :
  m !! b = Some d -> open_blobs id m = is_of id d + open_blobs id (delete b m).
Proof.
  intros Hb. rewrite <- (insert_delete_id m b d Hb) at 1. apply open_blobs_insert, lookup_delete_eq.
Qed.
Lemma open_blobs_update id m b d d' :
  m !! b = Some d -> open_blobs id (<[b := d']> m) + is_of id d = open_blobs id m + is_of id d'.
Proof.
  intros Hb. rewrite <- insert_delete_eq, open_blobs_insert by apply lookup_delete_eq.
  rewrite (open_blobs_delete id m b d Hb). lia.
Qed.

Lemma replace_xy_run t s : exists u n, replace_xy random16 t s = (Ret u, set_drawn n s).
Proof.
  revert s. induction t as [|c t IH]; intros s; [by exists EmptyString, (drawn s); destruct s|].
  cbn [replace_xy]. destruct (_ || _).
  - destruct (IH (set_drawn (S (drawn s)) s)) as (u & n & E). eexists _, n.
    unfold bind, gets, modify, ret. cbv zeta. rewrite E. done.
  - destruct (IH s) as (u & n & E). eexists _, n. unfold bind, ret. rewrite E. done.
Qed.
Lemma uuidv4_run s : exists u n, uuidv4 random16 s = (Ret u, set_drawn n s).
Proof. apply replace_xy_run. Qed.
(** The id the next blob gets. *)
Definition next_uuid (s : st) : string := if outcome (uuidv4 random16) s is Ret u then u else "".

Lemma get_data_run b s :
  get_data b s = match mjoin (blobs s !! b) with
                 | Some d => (Ret d, s)
                 | None => (Throw (JSError "Blob has been closed and is no longer available"), s)
                 end.
Proof. unfold get_data, bind, gets. by destruct (mjoin _). Qed.
Lemma map_parts_run parts s : exists r, map_parts parts s = (r, s) /\ r <> OutOfFuel.
Proof.
  induction parts as [|p parts (r & IH & Hr)]; cbn [map_parts]; [by eexists|].
  destruct p as [b|x|]; [|unfold bind, ret; rewrite IH; destruct r; try done; by eexists|by eexists].
  unfold bind, ret. rewrite get_data_run. destruct (mjoin _) as [d|]; [|by eexists].
  rewrite IH. destruct r; try done; by eexists.
Qed.
Lemma sum_sizes_run acc items s : exists r, sum_sizes acc items s = (r, s) /\ r <> OutOfFuel.
Proof.
  revert acc. induction items as [|[d|x] items IH]; intros acc; cbn [sum_sizes]; [by eexists|apply IH|].
  destruct (utf8 x); [apply IH|by eexists].
Qed.

(** The state after a blob of the data [d] is made as object [b]. *)
Definition added (b : nat) (d : BlobData) (n : nat) (s : st) : st :=
  {| registry := registered_more (blobId d) (registry s); blobs := <[b := Some d]> (blobs s);
     collectors := n; drawn := drawn s; calls := calls s |}.
Lemma createFromOptions_run d s : exists b c n,
  createFromOptions d s = (Ret b, added b (with_collector c d) n s) /\ blobs s !! b = None.
Proof.
  exists (fresh (dom (blobs s))).
  assert (Hf : blobs s !! fresh (dom (blobs s)) = None) by apply not_elem_of_dom, is_fresh.
  unfold createFromOptions, createBlobCollector, new_object. unfold bind at 1. rewrite register_run.
  destruct d as [id off sz nm ty lm [c|]].
  - exists (Some c), (collectors s). split; [|done]. by destruct s.
  - destruct provider.
    + exists (Some (collectors s)), (S (collectors s)). split; [|done]. by destruct s.
    + exists None, (collectors s). split; [|done]. by destruct s.
Qed.

Definition part_options (id : string) (n : Z) (options : option BlobOptions) : BlobData :=
  {| blobId := id; offset := 0; size := n; name := None;
     type_ := Some (if options is Some o then o_type o else "");
     lastModified := Some (if options is Some o then o_lastModified o else now);
     collector := None |}.
Lemma createFromParts_run parts options s : exists n,
  let s1 := set_drawn n s in
  ((exists e, createFromParts parts options s = (Throw e, s1)) /\
   forall items sz, available = true -> map_parts parts s1 = (Ret items, s1) ->
     sum_sizes 0 items s1 <> (Ret sz, s1)) \/
  (available = true /\ exists items sz,
     map_parts parts s1 = (Ret items, s1) /\ sum_sizes 0 items s1 = (Ret sz, s1) /\
     createFromParts parts options s =
       createFromOptions (part_options (next_uuid s) sz options)
         (set_calls (calls s ++ [CreateFromParts items (next_uuid s)]) s1)).
Proof.
  unfold createFromParts, Blob.createFromParts, require_native, invariant. destruct available.
  - destruct (uuidv4_run s) as (u & n & E). exists n. cbv zeta. set (s1 := set_drawn n s).
    rewrite (bind_ret tt), (bind_of _ _ _ _ _ E). fold s1.
    assert (Eu : next_uuid s = u) by (unfold next_uuid, outcome; by rewrite E).
    destruct (map_parts_run parts s1) as ([items|e|] & Ei & ?); try done;
      [|left; split; [exists e; by rewrite (bind_throws _ _ _ _ _ Ei)|intros ? ? _ ?; congruence]].
    rewrite (bind_of _ _ _ _ _ Ei).
    destruct (sum_sizes_run 0 items s1) as ([sz|e|] & Es & ?); try done;
      [|left; split; [exists e; by rewrite (bind_throws _ _ _ _ _ Es)|intros ? ? _ ? ?; congruence]].
    rewrite (bind_of _ _ _ _ _ Es).
    right. split; [done|]. exists items, sz. rewrite Eu. split; [done|]. split; [done|]. reflexivity.
  - exists (drawn s). cbv zeta. left. split; [|done]. eexists. by destruct s.
Qed.

Lemma replace_xy_ext t s s' :
  drawn s = drawn s' -> outcome (replace_xy random16 t) s = outcome (replace_xy random16 t) s'.
Proof.
  revert s s'. induction t as [|c t IH]; intros s s' E; [done|]. unfold outcome, bind in *. cbn [replace_xy].
  destruct (_ || _).
  - unfold bind, gets, modify, ret. rewrite E. cbv zeta.
    specialize (IH (set_drawn (S (drawn s')) s) (set_drawn (S (drawn s')) s') eq_refl).
    destruct (replace_xy random16 t _) as [[]], (replace_xy random16 t _) as [[]]; by simplify_eq/=.
  - unfold bind, ret. specialize (IH s s' E).
    destruct (replace_xy random16 t s) as [[]], (replace_xy random16 t s') as [[]]; by simplify_eq/=.
Qed.
Lemma next_uuid_ext s s' : drawn s = drawn s' -> next_uuid s = next_uuid s'.
Proof. intros E. unfold next_uuid, uuidv4. by rewrite (replace_xy_ext _ s s' E). Qed.
Lemma map_parts_ext parts s s' :
  (forall b, mjoin (blobs s !! b) = mjoin (blobs s' !! b)) ->
  outcome (map_parts parts) s = outcome (map_parts parts) s'.
Proof.
  intros E. induction parts as [|p parts IH]; [done|]. unfold outcome, bind, ret in *. cbn [map_parts].
  unfold bind, ret. destruct p as [b|x|]; [|destruct (map_parts parts s) as [[]], (map_parts parts s') as [[]]; by simplify_eq/=|done].
  rewrite !get_data_run, E. destruct (mjoin _); [|done].
  destruct (map_parts parts s) as [[]], (map_parts parts s') as [[]]; by simplify_eq/=.
Qed.
Lemma sum_sizes_ext acc items s s' : outcome (sum_sizes acc items) s = outcome (sum_sizes acc items) s'.
Proof.
  revert acc. induction items as [|[d|x] items IH]; intros acc; cbn [sum_sizes]; [done|apply IH|].
  destruct (utf8 x); [apply IH|done].
Qed.
Lemma run_ext {A} (m : JS st A) s s' r :
  m s = (r, s) -> (exists r', m s' = (r', s')) -> outcome m s = outcome m s' -> m s' = (r, s').
Proof. unfold outcome. intros E [r' E'] H. rewrite E, E' in H. simpl in H. by subst. Qed.

Lemma same_data (s s' : st) this :
  blobs s !! this = None -> blobs s' = <[this := None]> (blobs s) ->
  forall b, mjoin (blobs s' !! b) = mjoin (blobs s !! b).
Proof.
  intros Ht E b. rewrite E. destruct (decide (this = b)) as [<-|].
  - by rewrite lookup_insert_eq, Ht.
  - by rewrite lookup_insert_ne.
Qed.
(** The state after a constructor made the blob [this] of [items]. *)
Definition constructed (this : nat) (d : BlobData) (items : list item) (nc n : nat) (s : st) : st :=
  {| registry := registered_more (blobId d) (registry s); blobs := <[this := Some d]> (blobs s);
     collectors := nc; drawn := n; calls := calls s ++ [CreateFromParts items (blobId d)] |}.
(** The state after a constructor failed. *)
Definition failed (this n : nat) (s : st) : st := set_blobs (<[this := None]> (blobs s)) (set_drawn n s).
Lemma new_Blob_run parts options s : exists this n, blobs s !! this = None /\
  ((exists e, new_Blob parts options s = (Throw e, failed this n s) /\
      forall items sz, available = true -> map_parts parts s = (Ret items, s) ->
        sum_sizes 0 items s <> (Ret sz, s)) \/
   (available = true /\ exists items sz c nc,
      map_parts parts s = (Ret items, s) /\ sum_sizes 0 items s = (Ret sz, s) /\
      let d := with_collector c (part_options (next_uuid s) sz options) in
      new_Blob parts options s = (Ret this, constructed this d items nc n s))).
Proof.
  set (this := fresh (dom (blobs s))). set (s0 := set_blobs (<[this := None]> (blobs s)) s).
  assert (Ht : blobs s !! this = None) by apply not_elem_of_dom, is_fresh.
  assert (E0 : new_object None s = (Ret this, s0)) by done.
  unfold new_Blob, Blob.new_Blob. fold createFromParts. rewrite (bind_of _ _ _ _ _ E0).
  destruct (createFromParts_run parts options s0) as (n & [[[e E] Hno]|(Ha & items & sz & Ei & Es & E)]).
  - exists this, n. split; [done|]. left. exists e. split; [by rewrite (bind_throws _ _ _ _ _ E)|].
    intros items sz Ha Ei Es. apply (Hno items sz Ha).
    + eapply run_ext; [exact Ei|destruct (map_parts_run parts (set_drawn n s0)) as (r & ? & _); by exists r|].
      symmetry. apply map_parts_ext. exact (same_data s (set_drawn n s0) this Ht eq_refl).
    + eapply run_ext; [exact Es|destruct (sum_sizes_run 0 items (set_drawn n s0)) as (r & ? & _); by exists r|].
      apply sum_sizes_ext.
  - exists this, n. split; [done|]. right. split; [done|]. exists items, sz.
    rewrite (next_uuid_ext s0 s eq_refl) in E. set (u := next_uuid s) in *.
    destruct (createFromOptions_run (part_options u sz options)
      (set_calls (calls s0 ++ [CreateFromParts items u]) (set_drawn n s0))) as (tmp & c & nc & Ec & Htmp).
    exists c, nc. cbn in Htmp. apply lookup_insert_None in Htmp as [Htmp Hne].
    rewrite Ec in E. split_and!.
    + eapply run_ext; [exact Ei|destruct (map_parts_run parts s) as (r & ? & _); by exists r|].
      apply map_parts_ext. exact (same_data s (set_drawn n s0) this Ht eq_refl).
    + eapply run_ext; [exact Es|destruct (sum_sizes_run 0 items s) as (r & ? & _); by exists r|].
      apply sum_sizes_ext.
    + cbv zeta. rewrite (bind_of _ _ _ _ _ E). set (d := with_collector c _).
      unfold bind at 1. rewrite get_data_run. cbn. rewrite lookup_insert_eq. cbn.
      unfold bind, set_data, modify, ret. f_equal. unfold constructed, added, set_blobs. cbn. f_equal.
      apply map_eq. intros k. destruct (decide (k = tmp)) as [->|].
      * by rewrite lookup_delete_eq, lookup_insert_ne, Htmp.
      * rewrite lookup_delete_ne by done. destruct (decide (k = this)) as [->|].
        -- by rewrite !lookup_insert_eq.
        -- by rewrite !lookup_insert_ne.
Qed.

(** What a slice of the data [d] is. *)
Definition sliced (d : BlobData) (start end_ : option Z) : BlobData :=
  let range := match start with
    | Some start =>
        let start := if (size d <? start)%Z then size d else start in
        match end_ with
        | Some e => (offset d + start, (if (e <? 0)%Z then size d + e else e) - start)%Z
        | None => (offset d + start, size d - start)%Z
        end
    | None => (offset d, size d)
    end in
  {| blobId := blobId d; offset := fst range; size := snd range; name := None; type_ := None;
     lastModified := None; collector := None |}.
Lemma slice_open b d start end_ s :
  mjoin (blobs s !! b) = Some d -> slice b start end_ s = createFromOptions (sliced d start end_) s.
Proof.
  intros Hd. assert (E : get_data b s = (Ret d, s)) by by rewrite get_data_run, Hd.
  assert (Es : get_size b s = (Ret (size d), s)) by (unfold get_size; by rewrite (bind_of _ _ _ _ _ E)).
  unfold slice, Blob.slice. fold createFromOptions. rewrite (bind_of _ _ _ _ _ E). unfold sliced.
  destruct start as [start|].
  - destruct end_ as [e|]; cbv zeta.
    + unfold bind at 1. rewrite (bind_of _ _ _ _ _ Es). unfold ret. by rewrite (bind_of _ _ _ _ _ E).
    + rewrite (bind_ret _). by rewrite (bind_of _ _ _ _ _ E).
  - rewrite (bind_ret _). by rewrite (bind_of _ _ _ _ _ E).
Qed.
Lemma closed_throws {A} b (k : BlobData -> JS st A) s :
  mjoin (blobs s !! b) = None ->
  bind (get_data b) k s = (Throw (JSError "Blob has been closed and is no longer available"), s).
Proof. intros Hb. unfold bind. by rewrite get_data_run, Hb. Qed.

(** The state after the last blob of [id], or another one, is closed. *)
Definition closed (b : nat) (id : string) (s : st) : st :=
  {| registry := registered_less id (registry s); blobs := <[b := None]> (blobs s);
     collectors := collectors s; drawn := drawn s;
     calls := calls s ++ (if 1 <? registered s id then [] else [Release id]) |}.
Lemma close_open b d s :
  available = true -> mjoin (blobs s !! b) = Some d -> close b s = (Ret tt, closed b (blobId d) s).
Proof.
  intros Ha Hd. assert (E : get_data b s = (Ret d, s)) by by rewrite get_data_run, Hd.
  unfold close, Blob.close, release, require_native, invariant. rewrite (bind_of _ _ _ _ _ E), Ha.
  unfold bind at 1. rewrite (bind_ret tt), (bind_of _ _ _ _ _ (unregister_run _ _)).
  set (s1 := set_registry _ s).
  assert (Eh : has (blobId d) s1 = (Ret (1 <? registered s (blobId d)), s1)).
  { unfold has, gets. cbn. f_equal. f_equal. unfold registered_less, registered.
    destruct (registry s !! blobId d) as [[|[|n]]|] eqn:Er; rewrite ?Er, ?lookup_delete_eq, ?lookup_insert_eq; done. }
  rewrite (bind_of _ _ _ _ _ Eh). unfold closed. destruct (1 <? registered s (blobId d)).
  - unfold ret, set_data, modify, s1, set_registry, set_blobs. cbn. by rewrite app_nil_r.
  - done.
Qed.

(** ** The registry counts the open blobs *)
Definition counted (s : st) : Prop := forall id, registered s id = open_blobs id (blobs s).
Lemma is_of_Some id d : is_of id (Some d) = if decide (blobId d = id) then 1 else 0.
Proof. unfold is_of. cbn. by destruct (decide (blobId d = id)), (decide (Some (blobId d) = Some id)); simplify_eq. Qed.
Lemma is_of_None id : is_of id None = 0.
Proof. unfold is_of. by case_decide. Qed.
Lemma counted_more (s s' : st) b d :
  counted s -> blobs s !! b = None -> registry s' = registered_more (blobId d) (registry s) ->
  blobs s' = <[b := Some d]> (blobs s) -> counted s'.
Proof.
  intros C Hb Er Eb id. unfold registered. rewrite Er, Eb, registered_more_lookup, open_blobs_insert, is_of_Some by done.
  specialize (C id). unfold registered in C. case_decide; lia.
Qed.
Lemma counted_failed this n s : counted s -> blobs s !! this = None -> counted (failed this n s).
Proof.
  intros C Hb id. unfold failed. cbn. rewrite open_blobs_insert, is_of_None by done. apply C.
Qed.
Lemma counted_closed b d s : counted s -> blobs s !! b = Some (Some d) -> counted (closed b (blobId d) s).
Proof.
  intros C Hb id. unfold registered, closed. cbn. rewrite registered_less_lookup.
  pose proof (open_blobs_update id _ _ _ None Hb) as U. rewrite is_of_Some, is_of_None in U.
  specialize (C id). unfold registered in C. case_decide; lia.
Qed.

(** ** Histories *)
Inductive op :=
  | NewBlob (parts : list part) (options : option BlobOptions)
  | NewFile (parts : option (list part)) (nm : option string) (options : option BlobOptions)
  | Slice (b : nat) (start end_ : option Z)
  | Close (b : nat)
  | FromNative (d : BlobData)                    (* createFromOptions of XMLHttpRequest, WebSocket *)
  | Stored (id : string) (bytes : list Z)        (* native keeps a body under a new id *)
  | Send (b socketId : nat).
Definition run (o : op) (s : st) : st :=
  match o with
  | NewBlob parts options => final (new_Blob parts options) s
  | NewFile parts nm options => final (new_File parts nm options) s
  | Slice b start end_ => final (slice b start end_) s
  | Close b => final (close b) s
  | FromNative d => final (createFromOptions d) s
  | Stored id bytes => final (native (StoredByNative id bytes)) s
  | Send b socketId => final (sendOverSocket available b socketId) s
  end.

Lemma new_File_run parts nm options s : exists this n,
  new_File parts nm options s = (Throw (InvariantViolation
    "Failed to construct `File`: Must pass both `parts` and `name` arguments."), s) \/
  blobs s !! this = None /\
  ((exists e, new_File parts nm options s = (Throw e, failed this n s)) \/
   (available = true /\ exists parts' nm' items sz c nc,
      map_parts parts' s = (Ret items, s) /\ sum_sizes 0 items s = (Ret sz, s) /\
      let d := with_name nm' (with_collector c (part_options (next_uuid s) sz options)) in
      new_File parts nm options s = (Ret this, constructed this d items nc n s))).
Proof.
  destruct parts as [parts|]; [|exists 0, 0; by left]. destruct nm as [nm|]; [|exists 0, 0; by left].
  destruct (new_Blob_run parts options s) as (this & n & Ht & [(e & E & _)|(Ha & items & sz & c & nc & Ei & Es & E)]);
    exists this, n; right; (split; [done|]).
  - left. exists e. unfold new_File, Blob.new_File. fold new_Blob. by rewrite (bind_throws _ _ _ _ _ E).
  - right. split; [done|]. exists parts, nm, items, sz, c, nc. split; [done|]. split; [done|]. cbv zeta in *.
    unfold new_File, Blob.new_File. fold new_Blob. rewrite (bind_of _ _ _ _ _ E).
    unfold bind at 1. rewrite get_data_run. cbn. rewrite lookup_insert_eq. cbn.
    unfold bind, set_data, modify, ret. f_equal. unfold constructed, set_blobs. cbn. f_equal.
    apply insert_insert_eq.
Qed.

Lemma sendOverSocket_run b k s : exists r c,
  sendOverSocket available b k s = (r, set_calls (calls s ++ c) s) /\
  (c = [] \/ exists d, c = [SendOverSocket d k]).
Proof.
  assert (E0 : set_calls (calls s ++ []) s = s) by (rewrite app_nil_r; by destruct s).
  unfold sendOverSocket, require_native, invariant. destruct available; [rewrite (bind_ret tt)|].
  - destruct (mjoin (blobs s !! b)) as [d|] eqn:Hd.
    + exists (Ret tt), [SendOverSocket d k]. split; [|right; by eexists].
      unfold bind. by rewrite get_data_run, Hd.
    + exists (Throw (JSError "Blob has been closed and is no longer available")), [].
      split; [by rewrite closed_throws, E0|by left].
  - eexists (Throw _), []. split; [by rewrite E0|by left].
Qed.

Lemma close_cases b s :
  (exists e, close b s = (Throw e, s)) \/
  (exists d, blobs s !! b = Some (Some d) /\ close b s = (Ret tt, closed b (blobId d) s)).
Proof.
  destruct (mjoin (blobs s !! b)) as [d|] eqn:Hd; [|left; eexists; by apply closed_throws].
  destruct available eqn:Ha.
  - right. exists d. rewrite <- Ha. split; [|by apply close_open]. by destruct (blobs s !! b) as [[]|]; simplify_eq/=.
  - left. eexists. unfold close, Blob.close, bind at 1. by rewrite get_data_run, Hd.
Qed.

Lemma counted_run o s : counted s -> counted (run o s).
Proof.
  intros C. destruct o as [parts options|parts nm options|b start end_|b|d|id bytes|b k]; cbn [run].
  - destruct (new_Blob_run parts options s) as (this & n & Ht & [(e & E & _)|(_ & items & sz & c & nc & _ & _ & E)]);
      unfold final; rewrite E; [by apply counted_failed|]. by eapply counted_more.
  - destruct (new_File_run parts nm options s)
      as (this & n & [E|(Ht & [[e E]|(_ & p' & n' & items & sz & c & nc & _ & _ & E)])]);
      unfold final; rewrite E; [done|by apply counted_failed|]. by eapply counted_more.
  - unfold final. destruct (mjoin (blobs s !! b)) as [d|] eqn:Hd.
    + rewrite (slice_open b d) by done. destruct (createFromOptions_run (sliced d start end_) s) as (x & c & n & E & Hx).
      rewrite E. by eapply counted_more.
    + unfold slice, Blob.slice. by rewrite closed_throws.
  - unfold final. destruct (close_cases b s) as [[e E]|(d & Hd & E)]; rewrite E; [done|by apply counted_closed].
  - unfold final. destruct (createFromOptions_run d s) as (x & c & n & E & Hx). rewrite E. by eapply counted_more.
  - exact C.
  - unfold final. by destruct (sendOverSocket_run b k s) as (r & c & -> & _).
Qed.

(** ** Every open blob can be read *)
Definition in_range (store : gmap string (list Z)) (d : BlobData) : Prop :=
  exists b, store !! blobId d = Some b /\
    (0 <= offset d /\ 0 <= size d /\ offset d + size d <= Z.of_nat (length b))%Z.
Definition readable (s : st) : Prop :=
  forall b d, blobs s !! b = Some (Some d) -> in_range (store_of s) d.
(** The bytes of a blob in range. *)
Definition bytes_of (store : gmap string (list Z)) (d : BlobData) : list Z :=
  take (Z.to_nat (size d)) (drop (Z.to_nat (offset d)) (default [] (store !! blobId d))).
Lemma resolve_in_range store d : in_range store d -> resolve store d = Bytes (bytes_of store d).
Proof.
  intros (b & Hb & H1 & H2 & H3). unfold resolve, bytes_of, subdata. rewrite Hb. cbn.
  destruct (_ || _) eqn:E.
  - rewrite !(proj2 (Z.leb_le _ _)) by lia. done.
  - apply orb_false_iff in E as [E1 E2]. rewrite negb_false_iff, Z.eqb_eq in E1.
    rewrite E1. cbn. destruct (size d =? -1)%Z eqn:Em; [apply Z.eqb_eq in Em; lia|].
    cbn in E2. rewrite negb_false_iff, Z.eqb_eq in E2. rewrite E2, Nat2Z.id. f_equal.
    symmetry. by apply take_ge.
Qed.
Lemma bytes_of_length store d :
  in_range store d -> Z.of_nat (length (bytes_of store d)) = size d.
Proof.
  intros (b & Hb & H1 & H2 & H3). unfold bytes_of. rewrite Hb. cbn.
  rewrite length_take, length_drop. lia.
Qed.

(** What the parts of a new blob are, byte by byte. *)
Definition part_bytes (s : st) (p : part) : option (list Z) :=
  match p with
  | PBlob b => bytes_of (store_of s) <$> mjoin (blobs s !! b)
  | PString x => utf8 x
  | PBuffer => None
  end.
Lemma sum_sizes_more acc items s n :
  sum_sizes acc items s = (Ret n, s) -> sum_sizes 0 items s = (Ret (n - acc)%Z, s).
Proof.
  revert acc n. assert (Gen : forall acc k n, sum_sizes acc items s = (Ret n, s) -> sum_sizes (acc + k) items s = (Ret (n + k)%Z, s)).
  { induction items as [|[d|x] items IH]; intros acc k n; cbn [sum_sizes].
    - unfold ret. by intros [= <-].
    - intros E. apply (IH _ k) in E. rewrite <- E. f_equal. lia.
    - destruct (utf8 x) as [b|]; [|done]. intros E. apply (IH _ k) in E. rewrite <- E. f_equal. lia. }
  intros acc n E. apply (Gen _ (- acc)%Z) in E. by rewrite Z.add_opp_diag_r in E.
Qed.
Lemma items_bytes parts items sz s :
  readable s -> map_parts parts s = (Ret items, s) -> sum_sizes 0 items s = (Ret sz, s) ->
  exists bs, mapM (item_bytes (store_of s)) items = Some bs /\
    mapM (part_bytes s) parts = Some bs /\ Z.of_nat (length (concat bs)) = sz.
Proof.
  intros Hr. revert items sz. induction parts as [|p parts IH]; intros items sz Ei Es.
  { cbn in Ei. injection Ei as <-. cbn in Es. injection Es as <-. by exists []. }
  cbn [map_parts] in Ei. apply bind_Ret_inv in Ei as (i & s1 & Ep & Ei).
  apply bind_Ret_inv in Ei as (items' & s2 & Ei & [= <- E2]).
  assert (s1 = s) by (destruct (map_parts_run parts s1) as (r & E & _); congruence). subst s1 s2.
  assert (exists b, item_bytes (store_of s) i = Some b /\ part_bytes s p = Some b /\
    sum_sizes (Z.of_nat (length b)) items' s = (Ret sz, s)) as (b & Hi & Hp & Hsum).
  { destruct p as [k|x|]; [|injection Ep as <-|done].
    - unfold bind in Ep. rewrite get_data_run in Ep. destruct (mjoin (blobs s !! k)) as [d|] eqn:Hd; [|done].
      injection Ep as <-. assert (Hk : blobs s !! k = Some (Some d)) by (by destruct (blobs s !! k) as [[]|]; simplify_eq/=).
      exists (bytes_of (store_of s) d). unfold item_bytes, part_bytes.
      rewrite Hd, (resolve_in_range _ d), (bytes_of_length _ d) by (by eapply Hr). done.
    - cbn in Es. unfold item_bytes, part_bytes. destruct (utf8 x) as [b|]; [|done]. by exists b. }
  apply sum_sizes_more in Hsum. destruct (IH _ _ Ei Hsum) as (bs & E1 & E3 & E4).
  exists (b :: bs). split_and!.
  - cbn. by rewrite Hi, E1.
  - cbn. by rewrite Hp, E3.
  - cbn. rewrite length_app. lia.
Qed.

Lemma store_app s s' c : calls s' = calls s ++ c -> store_of s' = foldl native_step (store_of s) c.
Proof. intros E. unfold store_of, native_store. by rewrite E, foldl_app. Qed.
Lemma in_range_ext store store' d :
  store' !! blobId d = store !! blobId d -> in_range store d -> in_range store' d.
Proof. intros E (b & Hb & H). exists b. by rewrite E. Qed.
Lemma open_registered s b d :
  counted s -> blobs s !! b = Some (Some d) -> 0 < registered s (blobId d).
Proof.
  intros C Hb. rewrite C, (open_blobs_delete _ _ _ _ Hb), is_of_Some, decide_True by done. lia.
Qed.
Lemma open_twice s b b' d d' :
  counted s -> blobs s !! b = Some (Some d) -> blobs s !! b' = Some (Some d') -> b <> b' ->
  blobId d' = blobId d -> 1 < registered s (blobId d).
Proof.
  intros C Hb Hb' Hne Hid. rewrite C, (open_blobs_delete _ _ _ _ Hb), is_of_Some, decide_True by done.
  rewrite (open_blobs_delete _ _ b' (Some d')), is_of_Some, decide_True by (done || by rewrite lookup_delete_ne). lia.
Qed.

(** Slices inside of the blob. *)
Definition in_slice (d : BlobData) (start end_ : option Z) : Prop :=
  match start with
  | Some a =>
      (0 <= a)%Z /\
      match end_ with
      | Some e => let a' := if (size d <? a)%Z then size d else a in
                  let e' := if (e <? 0)%Z then (size d + e)%Z else e in
                  (a' <= e' <= size d)%Z
      | None => True
      end
  | None => True
  end.
Lemma in_range_sliced store d start end_ :
  in_range store d -> in_slice d start end_ -> in_range store (sliced d start end_).
Proof.
  intros (b & Hb & H1 & H2 & H3) Hs. exists b. split; [by destruct start as [a|]|].
  destruct start as [a|]; [|done]. destruct Hs as [Ha Hs]. cbn.
  destruct end_ as [e|]; cbn; destruct (size d <? a)%Z eqn:F;
    rewrite ?Z.ltb_lt, ?Z.ltb_ge in F; try lia; destruct (e <? 0)%Z; cbv zeta in Hs; lia.
Qed.

(** What the environment promises: identifiers do not come twice, native hands out blobs it
    has, and slices are asked for inside of a blob. *)
Definition proper (o : op) (s : st) : Prop :=
  match o with
  | NewBlob _ _ | NewFile _ _ _ => registered s (next_uuid s) = 0
  | Slice b start end_ => forall d, blobs s !! b = Some (Some d) -> in_slice d start end_
  | FromNative d => in_range (store_of s) d
  | Stored id _ => registered s id = 0
  | Close _ | Send _ _ => True
  end.

(** A new blob [this] of data [d] over a store that changed at no open blob. *)
Lemma readable_more s s' this d :
  readable s -> blobs s' = <[this := Some d]> (blobs s) ->
  (forall b d', blobs s !! b = Some (Some d') -> store_of s' !! blobId d' = store_of s !! blobId d') ->
  in_range (store_of s') d -> readable s'.
Proof.
  intros Hr Eb Hs Hd b d' Hb. rewrite Eb in Hb. apply lookup_insert_Some in Hb as [[_ [= <-]]|[_ Hb]]; [done|].
  eapply in_range_ext; [by eapply Hs|by eapply Hr].
Qed.
Lemma readable_failed this n s : readable s -> blobs s !! this = None -> readable (failed this n s).
Proof.
  intros Hr Ht b d Hb. cbn in Hb. apply lookup_insert_Some in Hb as [[_ [=]]|[_ Hb]]. by eapply Hr.
Qed.
Lemma constructed_store this d items nc n s bs :
  mapM (item_bytes (store_of s)) items = Some bs ->
  store_of (constructed this d items nc n s) = <[blobId d := concat bs]> (store_of s).
Proof.
  intros Hb. rewrite (store_app s _ [CreateFromParts items (blobId d)]) by done. cbn. by rewrite Hb.
Qed.
Lemma readable_constructed this d items parts nc n s sz :
  counted s -> readable s -> registered s (blobId d) = 0 ->
  map_parts parts s = (Ret items, s) -> sum_sizes 0 items s = (Ret sz, s) ->
  offset d = 0%Z -> size d = sz -> readable (constructed this d items nc n s).
Proof.
  intros C Hr Hf Ei Es Ho Hsz. destruct (items_bytes parts items sz s Hr Ei Es) as (bs & Hb & _ & Hlen).
  apply (readable_more s _ this d); [done..| |]; rewrite (constructed_store _ _ _ _ _ _ bs) by done.
  - intros b d' Hd'. apply lookup_insert_ne. intros E. pose proof (open_registered s b d' C Hd'). rewrite E in Hf. lia.
  - exists (concat bs). rewrite lookup_insert_eq. split; [done|lia].
Qed.
Lemma readable_closed b d s :
  counted s -> readable s -> blobs s !! b = Some (Some d) -> readable (closed b (blobId d) s).
Proof.
  intros C Hr Hb b' d' Hb'. cbn in Hb'. apply lookup_insert_Some in Hb' as [[_ [=]]|[Hne Hb']].
  eapply in_range_ext; [|by eapply Hr]. rewrite (store_app s (closed b (blobId d) s) _ eq_refl).
  destruct (1 <? registered s (blobId d)) eqn:F; [done|]. apply Nat.ltb_ge in F. cbn.
  apply lookup_delete_ne. intros E.
  pose proof (open_twice s b b' d d' C Hb Hb' Hne (eq_sym E)). lia.
Qed.
Lemma readable_run o s : counted s -> readable s -> proper o s -> readable (run o s).
Proof.
  intros C Hr Hp. destruct o as [parts options|parts nm options|b start end_|b|d|id bytes|b k]; cbn [run proper] in *.
  - destruct (new_Blob_run parts options s) as (this & n & Ht & [(e & E & _)|(_ & items & sz & c & nc & Ei & Es & E)]);
      unfold final; rewrite E; [by apply readable_failed|]. by eapply readable_constructed.
  - destruct (new_File_run parts nm options s)
      as (this & n & [E|(Ht & [[e E]|(_ & p' & n' & items & sz & c & nc & Ei & Es & E)])]);
      unfold final; rewrite E; [done|by apply readable_failed|]. by eapply readable_constructed.
  - unfold final. destruct (mjoin (blobs s !! b)) as [d|] eqn:Hd.
    + assert (Hb : blobs s !! b = Some (Some d)) by (by destruct (blobs s !! b) as [[]|]; simplify_eq/=).
      rewrite (slice_open b d) by done. destruct (createFromOptions_run (sliced d start end_) s) as (x & c & n & E & Hx).
      rewrite E. eapply readable_more; [done..|].
      destruct (in_range_sliced _ d start end_ (Hr b d Hb) (Hp d Hb)) as (l & Hl). by exists l.
    + unfold slice, Blob.slice. by rewrite closed_throws.
  - unfold final. destruct (close_cases b s) as [[e E]|(d & Hd & E)]; rewrite E; [done|by apply readable_closed].
  - unfold final. destruct (createFromOptions_run d s) as (x & c & n & E & Hx). rewrite E.
    eapply readable_more; [done..|]. destruct Hp as (l & Hl). by exists l.
  - intros b d Hb. eapply in_range_ext; [|by eapply Hr]. cbn in Hb.
    rewrite (store_app s _ [StoredByNative id bytes]) by done. cbn.
    apply lookup_insert_ne. intros ->. pose proof (open_registered s b d C Hb). lia.
  - unfold final. destruct (sendOverSocket_run b k s) as (r & c & -> & Hc). intros b' d' Hb'. cbn in Hb'.
    eapply in_range_ext; [|by eapply Hr]. rewrite (store_app s _ c) by done.
    by destruct Hc as [->|[d ->]].
Qed.

Inductive reach : st -> Prop :=
  | reach_initial : reach initial
  | reach_step s o : reach s -> proper o s -> reach (run o s).
Lemma reach_inv s : reach s -> counted s /\ readable s.
Proof.
  induction 1 as [|s o _ [C R] Hp].
  - split; [by intros id|by intros b d].
  - split; [by apply counted_run|by apply readable_run].
Qed.


Lemma no_other_open id m : (forall b d, m !! b = Some (Some d) -> blobId d <> id) -> open_blobs id m = 0.
Proof.
  intros Hn. unfold open_blobs. apply map_size_empty_iff, map_empty. intros b.
  apply map_lookup_filter_None. right. intros [d|] Hb Hd; [|done]. injection Hd as Hd. by apply (Hn b d).
Qed.

(** Closing a blob makes it unusable and leaves the others alone, and native is told
    to release the bytes exactly when no other open blob has them. *)
Theorem close_releases_last s b d :
  reach s -> available = true -> blobs s !! b = Some (Some d) ->
  exists s', close b s = (Ret tt, s') /\
    outcome (get_data b) s' = Throw (JSError "Blob has been closed and is no longer available") /\
    (forall b', b' <> b -> blobs s' !! b' = blobs s !! b') /\
    ((exists b' d', b' <> b /\ blobs s !! b' = Some (Some d') /\ blobId d' = blobId d) ->
       calls s' = calls s) /\
    ((forall b' d', b' <> b -> blobs s !! b' = Some (Some d') -> blobId d' <> blobId d) ->
       calls s' = calls s ++ [Release (blobId d)]).
Proof.
  intros [C _]%reach_inv Ha Hb. exists (closed b (blobId d) s). split_and!.
  - apply close_open; [done|]. by rewrite Hb.
  - unfold outcome. rewrite get_data_run. cbn. by rewrite lookup_insert_eq.
  - intros b' Hne. cbn. by rewrite lookup_insert_ne.
  - intros (b' & d' & Hne & Hb' & Hid).
    change (calls s ++ (if 1 <? registered s (blobId d) then [] else [Release (blobId d)]) = calls s).
    pose proof (open_twice s b b' d d' C Hb Hb' ltac:(done) Hid) as Hlt.
    apply Nat.ltb_lt in Hlt. rewrite Hlt. apply app_nil_r.
  - intros Hn.
    change (calls s ++ (if 1 <? registered s (blobId d) then [] else [Release (blobId d)])
      = calls s ++ [Release (blobId d)]).
    replace (1 <? registered s (blobId d)) with false; [done|].
    symmetry. apply Nat.ltb_ge. rewrite C, (open_blobs_delete _ _ _ _ Hb), is_of_Some, decide_True by done.
    rewrite no_other_open; [lia|]. intros b' d' Hb'. apply lookup_delete_Some in Hb' as [Hne Hb'].
    by apply (Hn b').
Qed.

Lemma map_parts_total parts s bs :
  mapM (part_bytes s) parts = Some bs -> exists items, map_parts parts s = (Ret items, s).
Proof.
  revert bs. induction parts as [|p parts IH]; intros bs E; [by exists []|]. cbn in E.
  destruct (part_bytes s p) as [b|] eqn:Ep; [|done]. cbn in E.
  destruct (mapM (part_bytes s) parts) as [bs'|]; [|done]. destruct (IH bs' eq_refl) as [items Ei].
  cbn [map_parts]. destruct p as [k|x|]; [|eexists; unfold bind, ret; by rewrite Ei|done].
  cbn in Ep. destruct (mjoin (blobs s !! k)) as [d|] eqn:Hd; [|done].
  exists (BlobItem d :: items). unfold bind, ret. by rewrite get_data_run, Hd, Ei.
Qed.
Lemma sum_sizes_total parts items s bs acc :
  mapM (part_bytes s) parts = Some bs -> map_parts parts s = (Ret items, s) ->
  exists sz, sum_sizes acc items s = (Ret sz, s).
Proof.
  revert items bs acc. induction parts as [|p parts IH]; intros items bs acc E Ei.
  { injection Ei as <-. by eexists. }
  cbn in E. destruct (part_bytes s p) as [b|] eqn:Ep; [|done]. cbn in E.
  destruct (mapM (part_bytes s) parts) as [bs'|]; [|done].
  cbn [map_parts] in Ei. apply bind_Ret_inv in Ei as (i & s1 & Ei1 & Ei).
  apply bind_Ret_inv in Ei as (items' & s2 & Ei & [= <- E2]).
  assert (s1 = s) by (destruct (map_parts_run parts s1) as (r & E1 & _); congruence). subst s1 s2.
  destruct p as [k|x|]; [|injection Ei1 as <-|done].
  - unfold bind in Ei1. rewrite get_data_run in Ei1. destruct (mjoin _) as [d|]; [|done].
    injection Ei1 as <-. cbn [sum_sizes]. by apply (IH items' bs').
  - cbn in Ep. cbn [sum_sizes]. rewrite Ep. by apply (IH items' bs').
Qed.

(** C21. A blob made of parts, strings without lone surrogates and open blobs, has the
    bytes of the parts in their order: what [createFromParts] sums up is their length,
    and the items it sends to native are these bytes. *)
Theorem blob_holds_parts parts options s bs :
  reach s -> available = true -> registered s (next_uuid s) = 0 ->
  mapM (part_bytes s) parts = Some bs ->
  exists this d s', new_Blob parts options s = (Ret this, s') /\
    blobs s !! this = None /\ blobs s' !! this = Some (Some d) /\
    resolve (store_of s') d = Bytes (concat bs) /\ size d = Z.of_nat (length (concat bs)).
Proof.
  intros Hreach Ha Hf Hbs. pose proof (reach_inv s Hreach) as [C R].
  destruct (map_parts_total parts s bs Hbs) as [items Ei].
  destruct (sum_sizes_total parts items s bs 0%Z Hbs Ei) as [sz Es].
  destruct (items_bytes parts items sz s R Ei Es) as (bs' & Hb & Hp & Hlen).
  rewrite Hbs in Hp. injection Hp as <-.
  destruct (new_Blob_run parts options s) as (this & n & Ht & [(e & E & Hno)|(_ & items' & sz' & c & nc & Ei' & Es' & E)]).
  - by destruct (Hno items sz Ha Ei).
  - rewrite Ei in Ei'. injection Ei' as <-. rewrite Es in Es'. injection Es' as <-. cbv zeta in E.
    set (d := with_collector c (part_options (next_uuid s) sz options)) in *.
    exists this, d. eexists. split; [exact E|]. split_and!; [done|by apply lookup_insert_eq| |by rewrite Hlen].
    rewrite (constructed_store _ _ _ _ _ _ bs Hb). rewrite resolve_in_range.
    + unfold bytes_of. rewrite lookup_insert_eq. cbn [default]. change (offset d) with 0%Z. change (size d) with sz.
      rewrite <- Hlen, Nat2Z.id. cbn. rewrite drop_0. by rewrite take_ge.
    + exists (concat bs). rewrite lookup_insert_eq. split; [done|]. change (offset d) with 0%Z. change (size d) with sz. lia.
Qed.

(** A slice inside of a blob is a view of its bytes from [start] to [end], counted
    from the end where it is negative, over the same bytes of native. *)
Theorem slice_is_view s b d start end_ :
  reach s -> blobs s !! b = Some (Some d) -> in_slice d (Some start) end_ ->
  let a := Z.min start (size d) in
  let e := match end_ with
           | Some e => if (e <? 0)%Z then size d + e else e
           | None => size d
           end%Z in
  exists b' d' s', slice b (Some start) end_ s = (Ret b', s') /\
    blobs s' !! b' = Some (Some d') /\ blobId d' = blobId d /\ size d' = (e - a)%Z /\
    resolve (store_of s') d' = Bytes (take (Z.to_nat (e - a)) (drop (Z.to_nat a) (bytes_of (store_of s) d))).
Proof.
  intros [_ R]%reach_inv Hb Hs a e. pose proof (R b d Hb) as Hd.
  destruct (createFromOptions_run (sliced d (Some start) end_) s) as (b' & c & n & E & Hb').
  exists b', (with_collector c (sliced d (Some start) end_)). eexists.
  split; [rewrite (slice_open b d); [exact E|by rewrite Hb]|].
  pose proof (in_range_sliced _ _ _ _ Hd Hs) as Hd'.
  assert (Ea : (if (size d <? start)%Z then size d else start) = a).
  { unfold a. destruct (Z.ltb_spec (size d) start); lia. }
  assert (Es : size (sliced d (Some start) end_) = (e - a)%Z).
  { unfold sliced. cbv zeta. rewrite Ea. unfold e. by destruct end_. }
  assert (Eo : offset (sliced d (Some start) end_) = (offset d + a)%Z).
  { unfold sliced. cbv zeta. rewrite Ea. by destruct end_. }
  split_and!; [by apply lookup_insert_eq|done|exact Es|].
  change (store_of (added b' _ n s)) with (store_of s).
  rewrite resolve_in_range by (destruct Hd' as (l & Hl); by exists l). f_equal.
  unfold bytes_of. change (blobId (with_collector c _)) with (blobId d).
  change (size (with_collector c ?x)) with (size x). change (offset (with_collector c ?x)) with (offset x).
  rewrite Es, Eo. destruct Hd as (l & Hl & H1 & H2 & H3). rewrite Hl. cbn.
  destruct Hs as [Ha Hs].
  assert ((0 <= a <= e)%Z /\ (e <= size d)%Z) as [Hae He].
  { unfold e. destruct end_ as [e'|]; [cbv zeta in Hs; rewrite Ea in Hs|]; unfold a in *; lia. }
  replace (Z.to_nat (size d)) with (Z.to_nat a + (Z.to_nat (size d) - Z.to_nat a)) by lia.
  rewrite <- take_drop_commute, take_take, drop_drop, Z2Nat.inj_add by lia. f_equal. lia.
Qed.
End Laws.

(** ** Examples *)
Section Examples.
(** Draws that do not repeat soon. *)
Definition draws (n : nat) : Z := Z.of_nat ((7 * n + n / 31) mod 16).
Definition abc : list part := [PString [97; 98; 99]%Z].
Abbreviation run_op := (run true true draws 0).
Definition one_blob : st := run_op (NewBlob abc None) initial.
Definition with_slice : st := run_op (Slice 0 (Some 1%Z) None) one_blob.

Lemma initial_proper : proper draws (NewBlob abc None) initial.
Proof. done. Qed.
Lemma one_blob_reached : reach true true draws 0 one_blob.
Proof. apply reach_step; [apply reach_initial|apply initial_proper]. Qed.
Definition data_of (s : st) (b : nat) : BlobData :=
  default (part_options 0 "" 0 None) (mjoin (blobs s !! b)).
Lemma with_slice_reached : reach true true draws 0 with_slice.
Proof.
  apply reach_step; [apply one_blob_reached|]. intros d Hd. vm_compute in Hd. injection Hd as <-.
  by vm_compute.
Qed.

Lemma blob_holds_parts_witness :
  exists this d s', Blob.new_Blob true true draws 0 [PBlob 0; PString [233; 0xD83D; 0xDE00]%Z] None one_blob = (Ret this, s') /\
    blobs one_blob !! this = None /\ blobs s' !! this = Some (Some d) /\
    resolve (store_of s') d = Bytes [97; 98; 99; 0xC3; 0xA9; 0xF0; 0x9F; 0x98; 0x80]%Z /\ size d = 9%Z.
Proof.
  apply (blob_holds_parts true true draws 0 [PBlob 0; PString [233; 0xD83D; 0xDE00]%Z] None one_blob
    [[97; 98; 99]; [0xC3; 0xA9; 0xF0; 0x9F; 0x98; 0x80]]%Z one_blob_reached eq_refl); by vm_compute.
Defined.
Lemma close_releases_last_witness :
  exists s', Blob.close true 1 with_slice = (Ret tt, s') /\
    outcome (get_data 1) s' = Throw (JSError "Blob has been closed and is no longer available") /\
    (forall b', b' <> 1 -> blobs s' !! b' = blobs with_slice !! b').
Proof.
  destruct (close_releases_last true true draws 0 with_slice 1 (data_of with_slice 1) with_slice_reached eq_refl)
    as (s' & H1 & H2 & H3 & _); [vm_compute; reflexivity|]. exists s'. exact (conj H1 (conj H2 H3)).
Defined.
Lemma slice_is_view_witness :
  exists b' d' s', Blob.slice true 0 (Some 1%Z) (Some (-1)%Z) one_blob = (Ret b', s') /\
    blobs s' !! b' = Some (Some d') /\ blobId d' = blobId (data_of one_blob 0) /\ size d' = 1%Z /\
    resolve (store_of s') d' = Bytes (take 1 (drop 1 (bytes_of (store_of one_blob) (data_of one_blob 0)))).
Proof.
  apply (slice_is_view true true draws 0 one_blob 0 (data_of one_blob 0) 1%Z (Some (-1)%Z) one_blob_reached);
    by vm_compute.
Defined.

(** Slices past the end or from the end: native raises an exception when they are read. *)
Definition read_slice (start end_ : option Z) : resolved :=
  let '(r, s) := Blob.slice true 0 start end_ one_blob in
  if r is Ret b then resolve (store_of s) (data_of s b) else Nil.
Example slices_out_of_range :
  read_slice (Some 0%Z) (Some 10%Z) = RangeException /\ read_slice (Some (-2)%Z) None = RangeException /\
  read_slice (Some 2%Z) (Some 1%Z) = RangeException /\
  read_slice None (Some 1%Z) = Bytes [97; 98; 99]%Z.
Proof. by vm_compute. Qed.
(** A slice has a collector of its own for the bytes it shares. *)
Example slice_has_own_collector :
  collector (data_of with_slice 0) = Some 0 /\ collector (data_of with_slice 1) = Some 1 /\
  blobId (data_of with_slice 0) = blobId (data_of with_slice 1).
Proof. by vm_compute. Qed.
(** Closing one of two views releases nothing, closing both does. *)
Example one_close_is_not_enough :
  calls (run_op (Close 0) with_slice) = calls with_slice /\
  calls (run_op (Close 1) (run_op (Close 0) with_slice))
    = calls with_slice ++ [Release (blobId (data_of with_slice 0))].
Proof. by vm_compute. Qed.
End Examples.
