(* ===== verification/FileReader.v ===== *)
(** * FileReader

    Libraries/Blob/FileReader.js: one reader, over the blobs of Blob.  A call to the
    native module is a pending promise, settled later by [settle]; the listeners are
    client code, which may call the reader again. *)
From S2P Require Import Prelude Blob.
From stdpp Require Import base numbers list strings gmap.
Open Scope nat_scope.

Inductive ready_state := EMPTY | LOADING | DONE.
#[export] Instance ready_state_eq_dec : EqDecision ready_state.
Proof. solve_decision. Defined.
Inductive event := Readystatechange | Abort | Error | Load | Loadend.

(** A request to [NativeFileReaderModule]. *)
Inductive request := ReadAsDataURL (d : BlobData) | ReadAsText (d : BlobData) (encoding : string).

Record st := {
  readyState : ready_state;
  error : option string;
  result : option string;
  aborted : bool;
  requests : list request;
  trace : list event;
  blob_state : Blob.st
}.
Definition set_readyState x (s : st) : st :=
  {| readyState := x; error := error s; result := result s; aborted := aborted s;
     requests := requests s; trace := trace s; blob_state := blob_state s |}.
Definition set_error x (s : st) : st :=
  {| readyState := readyState s; error := x; result := result s; aborted := aborted s;
     requests := requests s; trace := trace s; blob_state := blob_state s |}.
Definition set_result x (s : st) : st :=
  {| readyState := readyState s; error := error s; result := x; aborted := aborted s;
     requests := requests s; trace := trace s; blob_state := blob_state s |}.
Definition set_aborted x (s : st) : st :=
  {| readyState := readyState s; error := error s; result := result s; aborted := x;
     requests := requests s; trace := trace s; blob_state := blob_state s |}.
Definition set_requests x (s : st) : st :=
  {| readyState := readyState s; error := error s; result := result s; aborted := aborted s;
     requests := x; trace := trace s; blob_state := blob_state s |}.
Definition set_trace x (s : st) : st :=
  {| readyState := readyState s; error := error s; result := result s; aborted := aborted s;
     requests := requests s; trace := x; blob_state := blob_state s |}.

Definition reset : JS st unit := modify (fun s => set_result None (set_error None (set_readyState EMPTY s))).
Definition new_FileReader (b : Blob.st) : st :=
  {| readyState := EMPTY; error := None; result := None; aborted := false; requests := [];
     trace := []; blob_state := b |}.

Section FileReader.
Context (listener : event -> JS st unit).

Definition dispatchEvent (e : event) : JS st unit :=
  do! modify (fun s => set_trace (trace s ++ [e]) s);
  listener e.
Definition setReadyState (newState : ready_state) : JS st unit :=
  do! modify (set_readyState newState);
  do! dispatchEvent Readystatechange;
  when (bool_decide (newState = DONE)) (
    let! a := gets aborted in
    let! e := gets error in
    do! (if a then dispatchEvent Abort
         else if e is Some _ then dispatchEvent Error
         else dispatchEvent Load);
    dispatchEvent Loadend).

Definition readAsArrayBuffer : JS st unit :=
  throw (JSError "FileReader.readAsArrayBuffer is not implemented").

(** [blob.data] of the argument; [None] is [null] or [undefined]. *)
Definition data_of (name : string) (blob : option nat) : JS st BlobData :=
  match blob with
  | None => throw (JSError ("Failed to execute '" +:+ name +:+ "' on 'FileReader': parameter 1 is not of type 'Blob'"))
  | Some b =>
      let! d := gets (fun s => mjoin (blobs (blob_state s) !! b)) in
      match d with
      | Some d => ret d
      | None => throw (JSError "Blob has been closed and is no longer available")
      end
  end.
Definition request_native (r : request) : JS st unit :=
  modify (fun s => set_requests (requests s ++ [r]) s).
Definition readAsDataURL (blob : option nat) : JS st unit :=
  do! modify (set_aborted false);
  let! d := data_of "readAsDataURL" blob in
  request_native (ReadAsDataURL d).
Definition readAsText (blob : option nat) (encoding : option string) : JS st unit :=
  do! modify (set_aborted false);
  let! d := data_of "readAsText" blob in
  request_native (ReadAsText d (default "UTF-8" encoding)).

(** The promise of a request is resolved with a text, or rejected. *)
Definition settle (outcome : string + string) : JS st unit :=
  let! a := gets aborted in
  if a then ret tt else
    do! modify match outcome with
               | inl text => set_result (Some text)
               | inr e => set_error (Some e)
               end;
    setReadyState DONE.

Definition abort : JS st unit :=
  do! modify (set_aborted true);
  let! r := gets readyState in
  do! when (bool_decide (r <> EMPTY) && bool_decide (r <> DONE)) (
    do! reset;
    setReadyState DONE);
  reset.

(** ** Properties *)
(** Client code calls the methods of the reader. *)
Definition never_loading (s : st) : Prop := readyState s <> LOADING.
Hypothesis listener_ok : forall e, evolves (keeps never_loading) (listener e).
#[local] Instance keeps_preorder : PreOrder (keeps never_loading).
Proof. split; [by intros s|intros a b c H1 H2 H; by apply H2, H1]. Qed.

Lemma never_loading_modify f :
  (forall s, readyState (f s) = readyState s \/ readyState (f s) <> LOADING) ->
  evolves (keeps never_loading) (modify f).
Proof. intros Hf. apply evolves_modify. intros s Hs. destruct (Hf s) as [E|E]; unfold never_loading; congruence. Qed.
Lemma never_loading_dispatch e : evolves (keeps never_loading) (dispatchEvent e).
Proof.
  apply evolves_bind; [apply _| |intros _; apply listener_ok]. apply never_loading_modify. by left.
Qed.
#[local] Hint Resolve keeps_preorder never_loading_dispatch : js.
Ltac never_loading_tac := js_auto; try (apply never_loading_modify; intros []; cbn; auto; fail).

Lemma setReadyState_never_loading : evolves (keeps never_loading) (setReadyState DONE).
Proof. unfold setReadyState. never_loading_tac. Qed.
Lemma data_of_never_loading n b : evolves (keeps never_loading) (data_of n b).
Proof. unfold data_of. never_loading_tac. Qed.
#[local] Hint Resolve setReadyState_never_loading data_of_never_loading : js.
Lemma operations_never_load :
  (forall b, evolves (keeps never_loading) (readAsDataURL b)) /\
  (forall b x, evolves (keeps never_loading) (readAsText b x)) /\
  (forall o, evolves (keeps never_loading) (settle o)) /\
  evolves (keeps never_loading) abort.
Proof.
  unfold readAsDataURL, readAsText, request_native, settle, abort, reset.
  split_and!; intros; never_loading_tac.
  all: apply never_loading_modify; intros []; destruct o; cbn; auto.
Qed.
End FileReader.

(** ** Histories *)
Inductive op :=
  | ODataURL (b : option nat) | OText (b : option nat) (encoding : option string)
  | OSettle (outcome : string + string) | OAbort.
Definition run (listener : event -> JS st unit) (o : op) : JS st unit :=
  match o with
  | ODataURL b => readAsDataURL b
  | OText b x => readAsText b x
  | OSettle r => settle listener r
  | OAbort => abort listener
  end.
Inductive reach (listener : event -> JS st unit) : st -> Prop :=
  | reach_new b : reach listener (new_FileReader b)
  | reach_step s o : reach listener s -> reach listener (final (run listener o) s).

Lemma reach_never_loading listener s :
  (forall e, evolves (keeps never_loading) (listener e)) -> reach listener s -> never_loading s.
Proof.
  intros Hl. induction 1 as [|s o _ IH]; [done|].
  destruct (operations_never_load listener Hl) as (H1 & H2 & H3 & H4).
  destruct o as [b|b x|r|]; [by apply H1|by apply H2|by apply H3|by apply H4].
Qed.
Lemma abort_not_loading listener s :
  never_loading s ->
  abort listener s = (Ret tt, set_result None (set_error None (set_readyState EMPTY (set_aborted true s)))).
Proof.
  intros Hs. unfold abort. rewrite bind_modify, bind_gets. cbn.
  destruct (readyState s) eqn:E; try (by destruct Hs); done.
Qed.

(** No read ever puts the reader in the state LOADING, so that [abort] dispatches no
    event, whatever is pending: it only resets the reader. *)
Theorem abort_is_silent listener s :
  (forall e, evolves (keeps never_loading) (listener e)) -> reach listener s ->
  exists s', abort listener s = (Ret tt, s') /\ trace s' = trace s /\
    readyState s' = EMPTY /\ result s' = None /\ error s' = None.
Proof.
  intros Hl Hr%reach_never_loading; [|done]. eexists. by rewrite abort_not_loading.
Qed.

(** Listeners that leave the reader alone. *)
Definition reader_of (s : st) := (readyState s, error s, result s, aborted s, requests s, trace s).
Definition same_reader (s s' : st) : Prop := reader_of s' = reader_of s.

Definition quiet (listener : event -> JS st unit) : Prop :=
  forall e s1, exists s2, listener e s1 = (Ret tt, s2) /\ same_reader s1 s2.
Lemma dispatch_quiet listener : quiet listener -> forall e s, exists s',
  dispatchEvent listener e s = (Ret tt, s') /\ reader_of s' = reader_of (set_trace (trace s ++ [e]) s).
Proof.
  intros Hl e s. destruct (Hl e (set_trace (trace s ++ [e]) s)) as (s' & E & R). exists s'.
  unfold dispatchEvent. by rewrite bind_modify.
Qed.
Definition end_event (s : st) : event :=
  if aborted s then Abort else if error s is Some _ then Error else Load.
Lemma done_quiet listener : quiet listener -> forall s, exists s',
  setReadyState listener DONE s = (Ret tt, s') /\
  reader_of s' = reader_of (set_trace (trace s ++ [Readystatechange; end_event s; Loadend]) (set_readyState DONE s)).
Proof.
  intros Hl s. unfold setReadyState. rewrite bind_modify.
  destruct (dispatch_quiet listener Hl Readystatechange (set_readyState DONE s)) as (s1 & E1 & R1).
  rewrite (bind_of _ _ _ _ _ E1). cbn [when]. rewrite bool_decide_eq_true_2 by done. cbn [when]. rewrite !bind_gets.
  unfold reader_of in R1. injection R1 as A1 A2 A3 A4 A5 A6. cbn in *.
  destruct (dispatch_quiet listener Hl (end_event s) s1) as (s2 & E2 & R2).
  assert (E2' : (if aborted s1 then dispatchEvent listener Abort
    else if error s1 is Some _ then dispatchEvent listener Error else dispatchEvent listener Load) s1 = (Ret tt, s2)).
  { rewrite <- E2. unfold end_event. rewrite A4, A2. destruct (aborted s); [done|]. by destruct (error s). }
  rewrite (bind_of _ _ _ _ _ E2'). unfold reader_of in R2. injection R2 as B1 B2 B3 B4 B5 B6. cbn in *.
  destruct (dispatch_quiet listener Hl Loadend s2) as (s3 & E3 & R3). exists s3. split; [done|].
  rewrite R3. unfold reader_of. cbn. rewrite B1, B2, B3, B4, B5, B6, A1, A2, A3, A4, A5, A6.
  by rewrite <- !app_assoc.
Qed.

(** A reader that did not fail before reports a read once: with the text and [load],
    or with the error and [error], between [readystatechange] and [loadend]; and
    reports nothing of a read that was aborted. *)
Theorem read_reports_once listener s b d encoding outcome :
  quiet listener ->
  mjoin (blobs (blob_state s) !! b) = Some d -> readyState s = EMPTY -> error s = None ->
  let read := readAsText (Some b) encoding in
  requests (final read s) = requests s ++ [ReadAsText d (default "UTF-8" encoding)] /\
  (let s' := final (do! read; settle listener outcome) s in
   readyState s' = DONE /\
   match outcome with
   | inl text => result s' = Some text /\ trace s' = trace s ++ [Readystatechange; Load; Loadend]
   | inr e => error s' = Some e /\ trace s' = trace s ++ [Readystatechange; Error; Loadend]
   end) /\
  trace (final (do! read; do! abort listener; settle listener outcome) s) = trace s.
Proof.
  intros Hl Hb Hs He read.
  assert (Er : read s = (Ret tt, set_requests (requests s ++ [ReadAsText d (default "UTF-8" encoding)])
    (set_aborted false s))).
  { unfold read, readAsText, data_of. rewrite bind_modify. unfold bind, gets. cbn. by rewrite Hb. }
  set (s1 := set_requests _ _) in Er.
  split_and!; unfold final; [by rewrite Er| |].
  - rewrite (bind_of _ _ _ _ _ Er). unfold settle. rewrite bind_gets. cbn [aborted s1 set_requests set_aborted].
    rewrite bind_modify. set (s2 := _ s1).
    destruct (done_quiet listener Hl s2) as (s3 & E3 & R3). rewrite E3. cbn [snd].
    unfold reader_of in R3. destruct outcome as [text|e]; unfold s2, s1 in R3; cbn in R3;
      rewrite ?He in R3; injection R3 as -> Ee Er' _ _ Et; by rewrite ?Ee, ?Er', Et.
  - rewrite (bind_of _ _ _ _ _ Er), (bind_of _ _ _ _ _ (abort_not_loading listener s1 ltac:(by unfold never_loading, s1; cbn; rewrite Hs))).
    done.
Qed.

(** ** Examples *)
Definition silent : event -> JS st unit := fun _ => ret tt.
Definition a_reader : st := new_FileReader one_blob.
Lemma silent_listener_quiet : quiet silent.
Proof. intros e s. by exists s. Qed.
Lemma abort_is_silent_witness :
  exists s', abort silent (final (run silent (OText (Some 0) None)) a_reader) = (Ret tt, s') /\
    trace s' = [] /\ readyState s' = EMPTY /\ result s' = None /\ error s' = None.
Proof.
  apply (abort_is_silent silent (final (run silent (OText (Some 0) None)) a_reader)).
  - intros e s Hs. exact Hs.
  - apply reach_step, reach_new.
Defined.
Lemma read_reports_once_witness :
  let read := readAsText (Some 0) None in
  requests (final read a_reader) = requests a_reader ++ [ReadAsText (Blob.data_of one_blob 0) (default "UTF-8" None)] /\
  (let s' := final (do! read; settle silent (inl "abc")) a_reader in
   readyState s' = DONE /\
   result s' = Some "abc" /\ trace s' = trace a_reader ++ [Readystatechange; Load; Loadend]) /\
  trace (final (do! read; do! abort silent; settle silent (inl "abc")) a_reader) = trace a_reader.
Proof.
  assert (Hb : mjoin (blobs (blob_state a_reader) !! 0) = Some (Blob.data_of one_blob 0)) by (vm_compute; reflexivity).
  exact (read_reports_once silent a_reader 0 (Blob.data_of one_blob 0) None (inl "abc") silent_listener_quiet Hb eq_refl eq_refl).
Defined.

(** The error of a read is that of every later one; a read that was aborted is reported
    when the reader is used again before it settles. *)
Example error_sticks :
  trace (final (do! readAsText (Some 0) None; do! settle silent (inr "e");
                do! readAsText (Some 0) None; settle silent (inl "abc")) a_reader)
  = [Readystatechange; Error; Loadend; Readystatechange; Error; Loadend].
Proof. vm_compute. reflexivity. Qed.
Example aborted_read_revives :
  let s := final (do! readAsText (Some 0) (Some "latin1"); do! abort silent;
                  do! readAsText (Some 0) None; settle silent (inl "of the first request")) a_reader in
  result s = Some "of the first request" /\ trace s = [Readystatechange; Load; Loadend].
Proof. split; vm_compute; reflexivity. Qed.
