(* ===== verification/WebSocket.v ===== *)
(** * WebSocket

    Libraries/WebSocket/WebSocket.js: the sockets of a program, over the native module
    and the blobs of Blob.  [_socketId] of a socket is its index in [sockets], as
    [nextWebSocketId] counts them.  Native's events are the operation [deliver], which
    offers an event to the listeners of every socket in the order they registered.

    A listener of client code is a list of calls of the interface, which it may choose
    by what it sees; the event target calls listeners one by one and reports what they
    throw.  base64-js is a parameter. *)
From S2P Require Import Prelude Blob.
From stdpp Require Import base numbers list strings gmap.
Open Scope nat_scope.

Inductive ready_state := CONNECTING | OPEN | CLOSING | CLOSED.
#[export] Instance ready_state_eq_dec : EqDecision ready_state.
Proof. solve_decision. Defined.
Inductive binary_type := Type_blob | Type_arraybuffer | Type_other (s : string).
#[export] Instance binary_type_eq_dec : EqDecision binary_type.
Proof. solve_decision. Defined.

Inductive data := Text (s : string) | Buffer (b : list Z) | BlobObject (b : nat) | OtherData.
Inductive event :=
  | EOpen
  | EMessage (d : data)
  | EError (message : string)
  | EClose (code : Z) (reason : string)
  | ECloseFailed (message : string).

Abbreviation header_map := (list (string * string)).
Inductive protocols := OneProtocol (s : string) | Protocols (l : list string) | NoProtocols.
(** The properties of the options but for [headers], with the strings among their values. *)
Record options := {
  o_headers : option header_map;
  o_others : list (string * option string)
}.

Inductive native_call :=
  | Connect (url : string) (protocols : option (list string)) (headers : header_map) (id : nat)
  | NSend (s : string) (id : nat)
  | NSendBinary (base64 : string) (id : nat)
  | NPing (id : nat)
  | NClose (code : Z) (reason : string) (id : nat).

Record socket := {
  readyState : ready_state;
  binaryType : option binary_type;
  protocol : option string;
  subscribed : bool;
  dispatched : list event
}.
Definition set_readyState x (w : socket) : socket :=
  {| readyState := x; binaryType := binaryType w; protocol := protocol w;
     subscribed := subscribed w; dispatched := dispatched w |}.
Definition set_binaryType x (w : socket) : socket :=
  {| readyState := readyState w; binaryType := x; protocol := protocol w;
     subscribed := subscribed w; dispatched := dispatched w |}.
Definition set_protocol x (w : socket) : socket :=
  {| readyState := readyState w; binaryType := binaryType w; protocol := x;
     subscribed := subscribed w; dispatched := dispatched w |}.
Definition set_subscribed x (w : socket) : socket :=
  {| readyState := readyState w; binaryType := binaryType w; protocol := protocol w;
     subscribed := x; dispatched := dispatched w |}.
Definition set_dispatched x (w : socket) : socket :=
  {| readyState := readyState w; binaryType := binaryType w; protocol := protocol w;
     subscribed := subscribed w; dispatched := x |}.
Definition new_socket : socket :=
  {| readyState := CONNECTING; binaryType := None; protocol := None; subscribed := true; dispatched := [] |}.

Record st := {
  sockets : list socket;
  native : list native_call;
  warnings : nat;
  blob_state : Blob.st
}.
Definition set_sockets x (s : st) : st :=
  {| sockets := x; native := native s; warnings := warnings s; blob_state := blob_state s |}.
Definition set_native x (s : st) : st :=
  {| sockets := sockets s; native := x; warnings := warnings s; blob_state := blob_state s |}.
Definition set_warnings x (s : st) : st :=
  {| sockets := sockets s; native := native s; warnings := x; blob_state := blob_state s |}.
Definition set_blob_state x (s : st) : st :=
  {| sockets := sockets s; native := native s; warnings := warnings s; blob_state := x |}.
Definition initial : st :=
  {| sockets := []; native := []; warnings := 0; blob_state := Blob.initial |}.

(** A call of client code. *)
Inductive action :=
  | New (url : string) (p : protocols) (o : option options)
  | Close (k : nat) (code : option Z) (reason : option string)
  | Send (k : nat) (d : data)
  | Ping (k : nat)
  | SetBinaryType (k : nat) (t : binary_type).

(** The events of native. *)
Inductive payload := PText (s : string) | PBinary (base64 : string) | PBlobData (d : BlobData).
Inductive native_event :=
  | WebsocketMessage (id : nat) (d : payload)
  | WebsocketOpen (id : nat) (protocol : string)
  | WebsocketClosed (id : nat) (code : Z) (reason : string)
  | WebsocketFailed (id : nat) (message : string).
Definition id_of (ev : native_event) : nat :=
  match ev with
  | WebsocketMessage id _ | WebsocketOpen id _ | WebsocketClosed id _ _ | WebsocketFailed id _ => id
  end.

Section WebSocket.
Context (available provider : bool) (toByteArray : string -> list Z) (fromByteArray : list Z -> string).
(** The listeners of a socket for an event, each with the calls it makes. *)
Context (listeners : nat -> event -> st -> list (list action)).

Definition call_native (c : native_call) : JS st unit := modify (fun s => set_native (native s ++ [c]) s).
Definition warn : JS st unit := modify (fun s => set_warnings (S (warnings s)) s).
Definition lift {A} (m : JS Blob.st A) : JS st A := fun s =>
  let '(r, b) := m (blob_state s) in (r, set_blob_state b s).
Definition this (k : nat) : JS st socket := gets (fun s => default new_socket (sockets s !! k)).
Definition update (k : nat) (f : socket -> socket) : JS st unit :=
  modify (fun s => set_sockets (alter f k (sockets s)) s).

Definition set_header (k v : string) (h : header_map) : header_map :=
  if existsb (fun e => String.eqb (fst e) k) h
  then (fun e => if String.eqb (fst e) k then (k, v) else e) <$> h
  else h ++ [(k, v)].
Definition new_WebSocket (url : string) (p : protocols) (o : option options) : JS st nat :=
  let headers := match o with Some o => default [] (o_headers o) | None => [] end in
  let unrecognized := match o with Some o => o_others o | None => [] end in
  let origin := List.find (fun e => String.eqb (fst e) "origin") unrecognized in
  let! rest := match origin with
    | Some (_, Some origin) =>
        do! warn;
        ret (set_header "origin" origin headers,
             List.filter (fun e => negb (String.eqb (fst e) "origin")) unrecognized)
    | _ => ret (headers, unrecognized)
    end in
  do! when (0 <? length (snd rest)) warn;
  let protocols := match p with
                   | OneProtocol s => Some [s]
                   | Protocols l => Some l
                   | NoProtocols => None
                   end in
  let! id := gets (fun s => length (sockets s)) in
  do! modify (fun s => set_sockets (sockets s ++ [new_socket]) s);
  do! call_native (Connect url protocols (fst rest) id);
  ret id.

Definition is_blob (t : option binary_type) : bool := bool_decide (t = Some Type_blob).
Definition set_binary_type (k : nat) (t : binary_type) : JS st unit :=
  match t with
  | Type_other _ => throw (JSError "binaryType must be either 'blob' or 'arraybuffer'")
  | _ =>
      let! w := this k in
      do! when (is_blob (binaryType w) || bool_decide (t = Type_blob)) (
        do! invariant available "Native module BlobModule is required for blob support";
        if decide (t = Type_blob)
        then lift (addWebSocketHandler available k)
        else lift (removeWebSocketHandler available k));
      update k (set_binaryType (Some t))
  end.

Definition CLOSE_NORMAL : Z := 1000.
Definition _close (k : nat) (code : option Z) (reason : option string) : JS st unit :=
  do! call_native (NClose (default CLOSE_NORMAL code) (default "" reason) k);
  let! w := this k in
  when (available && is_blob (binaryType w)) (lift (removeWebSocketHandler available k)).
Definition close (k : nat) (code : option Z) (reason : option string) : JS st unit :=
  let! w := this k in
  if bool_decide (readyState w = CLOSING) || bool_decide (readyState w = CLOSED) then ret tt
  else
    do! update k (set_readyState CLOSING);
    _close k code reason.

Definition send (k : nat) (d : data) : JS st unit :=
  let! w := this k in
  if bool_decide (readyState w = CONNECTING) then throw (JSError "INVALID_STATE_ERR")
  else
    match d with
    | BlobObject b =>
        do! invariant available "Native module BlobModule is required for blob support";
        lift (sendOverSocket available b k)
    | Text s => call_native (NSend s k)
    | Buffer b => call_native (NSendBinary (fromByteArray b) k)
    | OtherData => throw (JSError "Unsupported data type")
    end.
Definition ping (k : nat) : JS st unit :=
  let! w := this k in
  if bool_decide (readyState w = CONNECTING) then throw (JSError "INVALID_STATE_ERR")
  else call_native (NPing k).

(** ** Client code *)
(** Objects that do not exist cannot be called. *)
Definition exists_ (k : nat) : JS st bool := gets (fun s => k <? length (sockets s)).
Definition perform (a : action) : JS st unit :=
  match a with
  | New url p o => let! _ := new_WebSocket url p o in ret tt
  | Close k code reason => let! b := exists_ k in when b (close k code reason)
  | Send k d => let! b := exists_ k in when b (send k d)
  | Ping k => let! b := exists_ k in when b (ping k)
  | SetBinaryType k t => let! b := exists_ k in when b (set_binary_type k t)
  end.
Definition dispatchEvent (k : nat) (e : event) : JS st unit :=
  do! update k (fun w => set_dispatched (dispatched w ++ [e]) w);
  let! ls := gets (listeners k e) in
  for_each ls (fun l => try_catch (for_each l perform) (fun _ => ret tt)).

(** ** The listeners of a socket for native's events *)
Definition _unregisterEvents (k : nat) : JS st unit := update k (set_subscribed false).
Definition message_data (d : payload) : JS st data :=
  match d with
  | PText s => ret (Text s)
  | PBinary s => ret (Buffer (toByteArray s))
  | PBlobData d => let! b := lift (createFromOptions provider d) in ret (BlobObject b)
  end.
Definition on_native_event (k : nat) (ev : native_event) : JS st unit :=
  if negb (id_of ev =? k) then ret tt
  else
    match ev with
    | WebsocketMessage _ d =>
        let! d := message_data d in
        dispatchEvent k (EMessage d)
    | WebsocketOpen _ p =>
        do! update k (set_readyState OPEN);
        do! update k (set_protocol (Some p));
        dispatchEvent k EOpen
    | WebsocketClosed _ code reason =>
        do! update k (set_readyState CLOSED);
        do! dispatchEvent k (EClose code reason);
        do! _unregisterEvents k;
        close k None None
    | WebsocketFailed _ message =>
        do! update k (set_readyState CLOSED);
        do! dispatchEvent k (EError message);
        do! dispatchEvent k (ECloseFailed message);
        do! _unregisterEvents k;
        close k None None
    end.
Definition deliver (ev : native_event) : JS st unit :=
  let! n := gets (fun s => length (sockets s)) in
  for_each (seq 0 n) (fun k =>
    let! w := this k in
    when (subscribed w) (on_native_event k ev)).

(** ** What client code can do to the sockets *)
(** A socket may be closed by client code, and new ones may come. *)
Definition moved (w w' : socket) : Prop :=
  subscribed w' = subscribed w /\ dispatched w' = dispatched w /\ protocol w' = protocol w /\
  (readyState w' = readyState w \/ readyState w <> CLOSED /\ readyState w' = CLOSING).
Definition fresh_socket (w : socket) : Prop :=
  subscribed w = true /\ dispatched w = [] /\ readyState w <> CLOSED /\ readyState w <> OPEN.
Definition grows (s s' : st) : Prop := length (sockets s) <= length (sockets s').
(** At every socket but [but], if that is one. *)
Definition moves (but : option nat) (s s' : st) : Prop :=
  (forall k w', but <> Some k -> sockets s' !! k = Some w' ->
    match sockets s !! k with
    | Some w => moved w w'
    | None => fresh_socket w'
    end) /\
  grows s s'.
Abbreviation clients := (moves None).

Lemma moved_refl w : moved w w.
Proof. split_and!; auto. Qed.
Lemma moved_trans w1 w2 w3 : moved w1 w2 -> moved w2 w3 -> moved w1 w3.
Proof.
  intros (A1 & A2 & A3 & A4) (B1 & B2 & B3 & B4). split_and!; [congruence..|].
  destruct A4 as [A4|[A4 A5]], B4 as [B4|[B4 B5]]; rewrite ?A4, ?A5 in *; auto.
Qed.
Lemma fresh_moved w w' : fresh_socket w -> moved w w' -> fresh_socket w'.
Proof.
  intros (F1 & F2 & F3 & F4) (A1 & A2 & _ & A4). split_and!; [congruence..| |];
    destruct A4 as [A4|[_ A4]]; rewrite A4; done.
Qed.
#[local] Instance moves_preorder but : PreOrder (moves but).
Proof.
  split.
  - intros s. split; [|apply Nat.le_refl]. intros k w _ ->. apply moved_refl.
  - intros s1 s2 s3 [C1 G1] [C2 G2]. split; [|unfold grows in *; lia]. intros k w3 Hk H3.
    specialize (C2 k w3 Hk H3). specialize (C1 k). destruct (sockets s2 !! k) as [w2|] eqn:H2.
    + specialize (C1 w2 Hk eq_refl). destruct (sockets s1 !! k) as [w1|]; [by eapply moved_trans|by eapply fresh_moved].
    + destruct (sockets s1 !! k) as [w1|] eqn:H1; [|done].
      apply lookup_lt_Some in H1. apply lookup_ge_None in H2. unfold grows in *. lia.
Qed.
Lemma clients_same s s' : sockets s' = sockets s -> clients s s'.
Proof. intros E. split; [|unfold grows; by rewrite E]. intros k w _. rewrite E. intros ->. apply moved_refl. Qed.
Lemma clients_modify f : (forall s, sockets (f s) = sockets s) -> evolves clients (modify f).
Proof. intros Hf. apply evolves_modify. intros s. by apply clients_same. Qed.
Lemma clients_update k f : (forall w, moved w (f w)) -> evolves clients (update k f).
Proof.
  intros Hf. apply evolves_modify. intros s. split; [|unfold grows; cbn; by rewrite length_alter].
  intros j w' _ Hj. cbn in Hj. destruct (decide (k = j)) as [<-|Hne].
  - rewrite list_lookup_alter_eq in Hj. destruct (sockets s !! k); [|done]. injection Hj as <-. apply Hf.
  - rewrite list_lookup_alter_ne in Hj by done. rewrite Hj. apply moved_refl.
Qed.
Lemma clients_lift {A} (m : JS Blob.st A) : evolves clients (lift m).
Proof. intros s. unfold final, lift. destruct (m (blob_state s)). by apply clients_same. Qed.
Lemma clients_call c : evolves clients (call_native c).
Proof. by apply clients_modify. Qed.
Lemma clients_warn : evolves clients warn.
Proof. by apply clients_modify. Qed.
Lemma clients_push : evolves clients (modify (fun s => set_sockets (sockets s ++ [new_socket]) s)).
Proof.
  apply evolves_modify. intros s. split; [|unfold grows; cbn; rewrite length_app; lia].
  intros k w _ Hk. cbn in Hk. destruct (sockets s !! k) as [w'|] eqn:E.
  - rewrite lookup_app_l in Hk by (by eapply lookup_lt_Some). rewrite E in Hk. injection Hk as <-. apply moved_refl.
  - apply lookup_ge_None in E. rewrite lookup_app_r in Hk by done.
    destruct (k - length (sockets s)) as [|n]; [|by destruct n]. injection Hk as <-. done.
Qed.
#[local] Hint Resolve moves_preorder clients_call clients_warn clients_push : js.
#[local] Hint Extern 1 (evolves clients (lift _)) => apply clients_lift : js.
Lemma clients_this k : evolves clients (this k).
Proof. by apply evolves_gets, moves_preorder. Qed.
#[local] Hint Resolve clients_this : js.
Lemma clients__close k code reason : evolves clients (_close k code reason).
Proof. unfold _close. js_auto. Qed.
Lemma clients_close k code reason : evolves clients (close k code reason).
Proof.
  intros s. unfold close, this, final. rewrite bind_gets. destruct (_ || _) eqn:E; [done|].
  apply orb_false_iff in E as [E1%bool_decide_eq_false E2%bool_decide_eq_false].
  unfold update. rewrite bind_modify. set (s1 := set_sockets _ s).
  transitivity s1; [|apply clients__close].
  split; [|unfold grows; cbn; by rewrite length_alter]. intros j w' _ Hj. cbn in Hj.
  destruct (decide (k = j)) as [<-|Hne].
  - rewrite list_lookup_alter_eq in Hj. destruct (sockets s !! k) as [w|]; [|done]. injection Hj as <-.
    cbn in E2. split_and!; try done. by right.
  - rewrite list_lookup_alter_ne in Hj by done. rewrite Hj. apply moved_refl.
Qed.
#[local] Hint Resolve clients_close : js.
Lemma clients_set_binary k t : evolves clients (set_binary_type k t).
Proof.
  unfold set_binary_type. destruct t; js_auto.
  all: try (apply clients_update; intros w; split_and!; auto).
Qed.
Lemma clients_send k d : evolves clients (send k d).
Proof. unfold send. js_auto. Qed.
Lemma clients_ping k : evolves clients (ping k).
Proof. unfold ping. js_auto. Qed.
Lemma clients_new url p o : evolves clients (new_WebSocket url p o).
Proof. unfold new_WebSocket. js_auto. Qed.
#[local] Hint Resolve clients_set_binary clients_send clients_ping clients_new : js.
Lemma clients_perform a : evolves clients (perform a).
Proof. destruct a; unfold perform, exists_; js_auto. Qed.
#[local] Hint Resolve clients_perform : js.
Lemma clients_listeners (ls : list (list action)) :
  evolves clients (for_each ls (fun l => try_catch (for_each l perform) (fun _ => ret tt))).
Proof. js_auto. Qed.

(** A socket handling its event leaves the others to client code. *)
Lemma clients_moves but s s' : clients s s' -> moves but s s'.
Proof. intros [C G]. split; [|done]. intros k w' _. by apply C. Qed.
Lemma moves_update k f : evolves (moves (Some k)) (update k f).
Proof.
  apply evolves_modify. intros s. split; [|unfold grows; cbn; by rewrite length_alter].
  intros j w' Hj Hw. cbn in Hw. rewrite list_lookup_alter_ne in Hw by congruence. rewrite Hw. apply moved_refl.
Qed.
Lemma moves_listeners k ls :
  evolves (moves (Some k)) (for_each ls (fun l : list action => try_catch (for_each l perform) (fun _ => ret tt))).
Proof. eapply evolves_impl; [apply clients_moves|apply clients_listeners]. Qed.
Lemma moves_close k code reason : evolves (moves (Some k)) (close k code reason).
Proof. eapply evolves_impl; [apply clients_moves|apply clients_close]. Qed.
Lemma moves_message k p : evolves (moves (Some k)) (message_data p).
Proof. eapply evolves_impl; [apply clients_moves|]. unfold message_data; destruct p; js_auto. Qed.
#[local] Hint Resolve moves_update moves_listeners moves_close moves_message : js.
Lemma moves_dispatch k e : evolves (moves (Some k)) (dispatchEvent k e).
Proof. unfold dispatchEvent. js_auto. Qed.
#[local] Hint Resolve moves_dispatch : js.
Lemma moves_event k ev : evolves (moves (Some k)) (on_native_event k ev).
Proof. unfold on_native_event, _unregisterEvents. js_auto. Qed.

(** ** The life of a socket *)
(** Events of the wire, and the two ways a socket ends. *)
Definition on_wire (e : event) : Prop := match e with EOpen | EMessage _ => True | _ => False end.
Inductive last_events : list event -> Prop :=
  | Closed_normally code reason : last_events [EClose code reason]
  | Failed_with message : last_events [EError message; ECloseFailed message].
Definition alive (w : socket) : Prop :=
  subscribed w = true /\ readyState w <> CLOSED /\ Forall on_wire (dispatched w).
Definition ended (w : socket) : Prop :=
  subscribed w = false /\ readyState w = CLOSED /\
  exists l tail, dispatched w = l ++ tail /\ Forall on_wire l /\ last_events tail.
Definition well_formed (w : socket) : Prop := alive w \/ ended w.
Definition all_well_formed (s : st) : Prop := forall k w, sockets s !! k = Some w -> well_formed w.

(** While a socket reports its end, and after: the events it has dispatched are [d]. *)
Definition ending (sub : bool) (d : list event) (w : socket) : Prop :=
  subscribed w = sub /\ readyState w = CLOSED /\ dispatched w = d.
(** The socket that handles native's event is in phase [Q], the others are well formed. *)
Definition phase (k : nat) (Q : socket -> Prop) (s : st) : Prop :=
  (exists w, sockets s !! k = Some w /\ Q w) /\
  forall j w, j <> k -> sockets s !! j = Some w -> well_formed w.
Definition stable (Q : socket -> Prop) : Prop := forall w w', moved w w' -> Q w -> Q w'.

Lemma stable_alive : stable alive.
Proof.
  intros w w' (M1 & M2 & _ & M4) (A1 & A2 & A3). split_and!; [congruence| |by rewrite M2].
  by destruct M4 as [->|[_ ->]].
Qed.
Lemma moved_closed w w' : moved w w' -> readyState w = CLOSED -> readyState w' = CLOSED.
Proof. intros (_ & _ & _ & [M|[M _]]) E; congruence. Qed.
Lemma stable_ended : stable ended.
Proof.
  intros w w' M (A1 & A2 & A3). assert (A4 := moved_closed _ _ M A2).
  destruct M as (M1 & M2 & _). split_and!; [congruence|done|by rewrite M2].
Qed.
Lemma stable_ending sub d : stable (ending sub d).
Proof.
  intros w w' M (A1 & A2 & A3). assert (A4 := moved_closed _ _ M A2).
  destruct M as (M1 & M2 & _). split_and!; congruence.
Qed.
Lemma stable_well_formed : stable well_formed.
Proof. intros w w' M [A|A]; [left; by eapply stable_alive|right; by eapply stable_ended]. Qed.
Lemma fresh_alive w : fresh_socket w -> alive w.
Proof. intros (F1 & F2 & F3 & _). split_and!; [done..|]. rewrite F2. constructor. Qed.
Lemma clients_well_formed s s' j w' :
  clients s s' -> (forall w, sockets s !! j = Some w -> well_formed w) ->
  sockets s' !! j = Some w' -> well_formed w'.
Proof.
  intros [C _] H E. specialize (C j w' ltac:(done) E). destruct (sockets s !! j) as [w|] eqn:Ew.
  - by eapply stable_well_formed, H.
  - left. by apply fresh_alive.
Qed.
Lemma clients_all s s' : clients s s' -> all_well_formed s -> all_well_formed s'.
Proof. intros C H j w E. eapply (clients_well_formed s s' j w); [done| |done]. apply H. Qed.
Lemma clients_phase k Q s s' : stable Q -> clients s s' -> phase k Q s -> phase k Q s'.
Proof.
  intros HQ C [(w & Hw & Qw) H]. split.
  - destruct C as [C G]. destruct (lookup_lt_is_Some_2 (sockets s') k) as [w' Hw'].
    { apply lookup_lt_Some in Hw. unfold grows in G. lia. }
    exists w'. split; [done|]. specialize (C k w' ltac:(done) Hw'). rewrite Hw in C. by eapply HQ.
  - intros j w' Hj. eapply (clients_well_formed s s' j w'); [done|]. intros w2. by apply H.
Qed.
Lemma phase_update k (Q Q' : socket -> Prop) f s :
  (forall w, Q w -> Q' (f w)) -> phase k Q s -> phase k Q' (set_sockets (alter f k (sockets s)) s).
Proof.
  intros Hf [(w & Hw & Qw) H]. split; cbn.
  - exists (f w). rewrite list_lookup_alter_eq, Hw. split; [done|]. by apply Hf.
  - intros j w' Hj. rewrite list_lookup_alter_ne by done. by apply H.
Qed.
Lemma phase_all k (Q : socket -> Prop) s : (forall w, Q w -> well_formed w) -> phase k Q s -> all_well_formed s.
Proof.
  intros HQ [(w & Hw & Qw) H] j w' E. destruct (decide (j = k)) as [->|Hne]; [|by apply (H j)].
  rewrite Hw in E. injection E as <-. by apply HQ.
Qed.

Lemma terminates_lift {A} (m : JS Blob.st A) : terminates m -> terminates (lift m).
Proof. intros T s. specialize (T (blob_state s)). unfold outcome, lift in *. by destruct (m (blob_state s)). Qed.
Lemma terminates_perform a : terminates (perform a).
Proof.
  destruct a; unfold perform, new_WebSocket, close, _close, send, ping, set_binary_type; js_terminates; try done.
  all: apply terminates_lift; unfold sendOverSocket, addWebSocketHandler, removeWebSocketHandler, require_native,
    Blob.get_data; js_terminates; done.
Qed.
(** Whatever its listeners throw, an event target returns. *)
Lemma returns_listener (l : list action) : returns (try_catch (for_each l perform) (fun _ => ret tt)).
Proof.
  intros s. assert (T : terminates (for_each l perform)).
  { apply terminates_for_each. intros. apply terminates_perform. }
  unfold outcome, try_catch. specialize (T s). unfold outcome in T.
  destruct (for_each l perform s) as [[[]|e|] s']; cbn in *; eauto; done.
Qed.
Lemma dispatch_phase k e (Q Q' : socket -> Prop) s : stable Q' -> phase k Q s ->
  (forall w, Q w -> Q' (set_dispatched (dispatched w ++ [e]) w)) ->
  exists s', dispatchEvent k e s = (Ret tt, s') /\ phase k Q' s'.
Proof.
  intros HQ HP Hf. unfold dispatchEvent, update. rewrite bind_modify, bind_gets.
  set (s1 := set_sockets _ s). set (ls := listeners k e s1).
  destruct (returns_run _ s1 (returns_for_each ls _ returns_listener)) as [[] E].
  eexists. split; [exact E|]. eapply (clients_phase k Q' s1); [done|apply clients_listeners|].
  by eapply phase_update.
Qed.
Lemma update_phase k f (Q Q' : socket -> Prop) s : phase k Q s -> (forall w, Q w -> Q' (f w)) ->
  exists s', update k f s = (Ret tt, s') /\ phase k Q' s'.
Proof. intros HP Hf. eexists. split; [done|]. by eapply phase_update. Qed.
Lemma close_ended k d s : phase k (ending false d) s -> close k None None s = (Ret tt, s).
Proof.
  intros [(w & Hw & _ & Hc & _) _]. unfold close, this. rewrite bind_gets, Hw. cbn. rewrite Hc. done.
Qed.
Lemma end_phase k d s : phase k (ending true d) s ->
  exists s', (do! _unregisterEvents k; close k None None) s = (Ret tt, s') /\ phase k (ending false d) s'.
Proof.
  intros HP. destruct (update_phase k (set_subscribed false) _ (ending false d) s HP) as (s1 & E1 & P1).
  { intros w (_ & W2 & W3). done. }
  exists s1. split; [|done]. rewrite (bind_of _ _ _ _ _ E1). by eapply close_ended.
Qed.

(** What each kind of native event makes of the socket it is for. *)
Definition alive_with (d : list event) (w : socket) : Prop := alive w /\ dispatched w = d.
Lemma stable_alive_with d : stable (alive_with d).
Proof. intros w w' M [A E]. split; [by eapply stable_alive|]. destruct M as (_ & -> & _). done. Qed.
Lemma alive_dispatches d e w : on_wire e -> alive_with d w ->
  alive_with (d ++ [e]) (set_dispatched (dispatched w ++ [e]) w).
Proof.
  intros He [(A1 & A2 & A3) E]. unfold alive_with, alive. cbn. rewrite E in *. split_and!; try done.
  apply Forall_app. by split; [|repeat constructor].
Qed.
Lemma open_phase k d p s : phase k (alive_with d) s ->
  exists s', on_native_event k (WebsocketOpen k p) s = (Ret tt, s') /\ phase k (alive_with (d ++ [EOpen])) s'.
Proof.
  intros HP. unfold on_native_event, id_of. rewrite Nat.eqb_refl. cbn [negb].
  destruct (update_phase k (set_readyState OPEN) _ (alive_with d) s HP) as (s1 & E1 & P1); [by intros w [(? & ? & ?) ?]|].
  destruct (update_phase k (set_protocol (Some p)) _ (alive_with d) s1 P1) as (s2 & E2 & P2); [by intros w [(? & ? & ?) ?]|].
  destruct (dispatch_phase k EOpen _ (alive_with (d ++ [EOpen])) s2 (stable_alive_with _) P2) as (s3 & E3 & P3).
  { intros w. by apply alive_dispatches. }
  exists s3. by rewrite (bind_of _ _ _ _ _ E1), (bind_of _ _ _ _ _ E2).
Qed.
Lemma closed_phase k d code reason s : phase k (alive_with d) s ->
  exists s', on_native_event k (WebsocketClosed k code reason) s = (Ret tt, s') /\
    phase k (ending false (d ++ [EClose code reason])) s'.
Proof.
  intros HP. unfold on_native_event, id_of. rewrite Nat.eqb_refl. cbn [negb].
  destruct (update_phase k (set_readyState CLOSED) _ (ending true d) s HP) as (s1 & E1 & P1); [by intros w [(? & ? & ?) ?]|].
  destruct (dispatch_phase k (EClose code reason) _ (ending true (d ++ [EClose code reason])) s1 (stable_ending _ _) P1)
    as (s2 & E2 & P2); [by intros w (? & ? & <-)|].
  destruct (end_phase k _ s2 P2) as (s3 & E3 & P3).
  exists s3. by rewrite (bind_of _ _ _ _ _ E1), (bind_of _ _ _ _ _ E2).
Qed.
Lemma failed_phase k d message s : phase k (alive_with d) s ->
  exists s', on_native_event k (WebsocketFailed k message) s = (Ret tt, s') /\
    phase k (ending false (d ++ [EError message; ECloseFailed message])) s'.
Proof.
  intros HP. unfold on_native_event, id_of. rewrite Nat.eqb_refl. cbn [negb].
  destruct (update_phase k (set_readyState CLOSED) _ (ending true d) s HP) as (s1 & E1 & P1); [by intros w [(? & ? & ?) ?]|].
  destruct (dispatch_phase k (EError message) _ (ending true (d ++ [EError message])) s1 (stable_ending _ _) P1)
    as (s2 & E2 & P2); [by intros w (? & ? & <-)|].
  destruct (dispatch_phase k (ECloseFailed message) _ (ending true (d ++ [EError message; ECloseFailed message])) s2
    (stable_ending _ _) P2) as (s3 & E3 & P3).
  { intros w (? & ? & E). split_and!; try done. cbn. by rewrite E, <- app_assoc. }
  destruct (end_phase k _ s3 P3) as (s4 & E4 & P4).
  exists s4. by rewrite (bind_of _ _ _ _ _ E1), (bind_of _ _ _ _ _ E2), (bind_of _ _ _ _ _ E3).
Qed.
(** A message is lost with an exception if there is no blob module to wrap its data. *)
Lemma message_phase k d p s : phase k (alive_with d) s ->
  exists d' s', final (on_native_event k (WebsocketMessage k p)) s = s' /\ phase k (alive_with d') s' /\
    (d' = d \/ exists m, d' = d ++ [EMessage m]).
Proof.
  intros HP. unfold on_native_event, id_of. rewrite Nat.eqb_refl. cbn [negb].
  assert (Hm : evolves clients (message_data p)) by (unfold message_data; destruct p; js_auto).
  specialize (Hm s). unfold final in *. destruct (message_data p s) as [[m|e|] s1] eqn:E1; cbn in Hm.
  2,3: exists d, s1; unfold bind; rewrite E1; split_and!; [done| |by left];
    by eapply clients_phase; [apply stable_alive_with|exact Hm|].
  assert (P1 : phase k (alive_with d) s1) by (by eapply clients_phase; [apply stable_alive_with|exact Hm|]).
  destruct (dispatch_phase k (EMessage m) _ (alive_with (d ++ [EMessage m])) s1 (stable_alive_with _) P1) as (s2 & E2 & P2).
  { intros w. by apply alive_dispatches. }
  exists (d ++ [EMessage m]), s2. rewrite (bind_of _ _ _ _ _ E1), E2. eauto.
Qed.

(** An event of native runs the handler of the socket it names. *)
Definition handle (ev : native_event) : JS st unit :=
  let! w := this (id_of ev) in
  when (subscribed w) (on_native_event (id_of ev) ev).
Lemma not_mine ev k s : k <> id_of ev ->
  (let! w := this k in when (subscribed w) (on_native_event k ev)) s = (Ret tt, s).
Proof.
  intros Hk. unfold this, on_native_event. rewrite bind_gets.
  apply not_eq_sym, Nat.eqb_neq in Hk. rewrite Hk. cbn. by destruct (subscribed _).
Qed.
Lemma foldl_same {A B} (l : list A) (s : B) : foldl (fun s _ => s) s l = s.
Proof. induction l; auto. Qed.
Lemma no_one l ev s : id_of ev ∉ l ->
  for_each l (fun k => let! w := this k in when (subscribed w) (on_native_event k ev)) s = (Ret tt, s).
Proof.
  intros Hl. rewrite (for_each_total _ _ (fun _ s => s)); [by rewrite foldl_same|].
  intros k s' Hk. apply not_mine. by intros ->.
Qed.
Lemma deliver_run ev s : final (deliver ev) s = if id_of ev <? length (sockets s) then final (handle ev) s else s.
Proof.
  unfold final, deliver. rewrite bind_gets. set (n := length (sockets s)). set (id := id_of ev).
  destruct (Nat.ltb_spec id n) as [Hlt|Hge].
  - replace n with (id + S (n - S id)) by lia. rewrite seq_app, for_each_app. cbn [seq for_each].
    rewrite (bind_of _ _ _ tt s); [|apply no_one; rewrite elem_of_seq; fold id; lia].
    change (0 + id) with id. fold (handle ev). unfold bind at 1.
    change (fun s' => ?f s') with f. destruct (handle ev s) as [[[]|e|] s'] eqn:E; unfold handle in E; fold id in E;
      rewrite E; [|done..]. rewrite no_one; [done|]. rewrite elem_of_seq. fold id. lia.
  - rewrite no_one; [done|]. rewrite elem_of_seq. fold id. lia.
Qed.

(** *** Histories *)
Inductive op := Client (a : action) | Native (ev : native_event).
Definition step (s : st) (o : op) : st :=
  match o with
  | Client a => final (perform a) s
  | Native ev => final (deliver ev) s
  end.
Definition run (s : st) (ops : list op) : st := foldl step s ops.

Lemma well_formed_phase s k w : all_well_formed s -> sockets s !! k = Some w -> subscribed w = true ->
  phase k (alive_with (dispatched w)) s.
Proof.
  intros H Hw Hs. split; [|intros j w' _; apply H]. exists w. split; [done|].
  destruct (H k w Hw) as [A|(A & _)]; [done|congruence].
Qed.
Lemma alive_ok d w : alive_with d w -> well_formed w.
Proof. intros [A _]. by left. Qed.
Lemma ending_ok l tail w : Forall on_wire l -> last_events tail -> ending false (l ++ tail) w -> well_formed w.
Proof. intros Hl Ht (E1 & E2 & E3). right. split_and!; [done..|]. by exists l, tail. Qed.
Lemma handle_well_formed ev s : all_well_formed s -> id_of ev < length (sockets s) ->
  all_well_formed (final (handle ev) s).
Proof.
  intros H [w Hw]%lookup_lt_is_Some_2. unfold handle, this, final. rewrite bind_gets, Hw. change (default new_socket (Some w)) with w. destruct (subscribed w) eqn:Hs; [|done].
  assert (HP := well_formed_phase s _ w H Hw Hs). cbn [when].
  assert (Hd : Forall on_wire (dispatched w)) by (destruct (H _ w Hw) as [(_ & _ & A)|(A & _)]; [done|congruence]).
  destruct ev; cbn [id_of] in *.
  - destruct (message_phase _ _ d s HP) as (d' & s' & <- & P & _). eapply phase_all; [|exact P]. apply alive_ok.
  - destruct (open_phase _ _ protocol0 s HP) as (s' & -> & P). eapply phase_all; [|exact P]. apply alive_ok.
  - destruct (closed_phase _ _ code reason s HP) as (s' & -> & P). eapply phase_all; [|exact P].
    intros w'. apply ending_ok; [done|constructor].
  - destruct (failed_phase _ _ message s HP) as (s' & -> & P). eapply phase_all; [|exact P].
    intros w'. apply ending_ok; [done|constructor].
Qed.
Lemma step_well_formed s o : all_well_formed s -> all_well_formed (step s o).
Proof.
  intros H. destruct o as [a|ev]; cbn.
  - eapply clients_all; [apply clients_perform|done].
  - rewrite deliver_run. destruct (Nat.ltb_spec (id_of ev) (length (sockets s))); [by apply handle_well_formed|done].
Qed.
Lemma run_well_formed s ops : all_well_formed s -> all_well_formed (run s ops).
Proof. revert s. induction ops as [|o ops IH]; intros s H; [done|]. by apply IH, step_well_formed. Qed.
Lemma initial_well_formed : all_well_formed initial.
Proof. intros k w. done. Qed.

(** A socket that has ended stays as it is. *)
Definition is_over (k : nat) (d : list event) (s : st) : Prop :=
  exists w, sockets s !! k = Some w /\ ending false d w.
Lemma moves_over but k d s s' : but <> Some k -> moves but s s' -> is_over k d s -> is_over k d s'.
Proof.
  intros Hk [C G] (w & Hw & E). destruct (lookup_lt_is_Some_2 (sockets s') k) as [w' Hw'].
  { apply lookup_lt_Some in Hw. unfold grows in G. lia. }
  exists w'. split; [done|]. specialize (C k w' Hk Hw'). rewrite Hw in C. by eapply stable_ending.
Qed.
Lemma step_over k d s o : is_over k d s -> is_over k d (step s o).
Proof.
  intros H. destruct o as [a|ev]; cbn.
  - eapply moves_over; [|apply clients_perform|done]. done.
  - rewrite deliver_run. destruct (_ <? _); [|done]. unfold handle, this, final. rewrite bind_gets.
    destruct (decide (id_of ev = k)) as [->|Hne].
    + assert (HO := H). destruct H as (w & -> & E & _). cbn. by rewrite E.
    + destruct (subscribed _); [|done]. eapply (moves_over (Some (id_of ev))); [congruence|apply moves_event|done].
Qed.
Lemma run_over k d s ops : is_over k d s -> is_over k d (run s ops).
Proof. revert s. induction ops as [|o ops IH]; intros s H; [done|]. by apply IH, step_over. Qed.
Lemma ended_over s k w : all_well_formed s -> sockets s !! k = Some w -> readyState w = CLOSED ->
  is_over k (dispatched w) s.
Proof. intros H Hw Hc. exists w. split; [done|]. destruct (H k w Hw) as [(_ & A & _)|(A & _)]; done. Qed.
Lemma run_app s ops more : run s (ops ++ more) = run (run s ops) more.
Proof. apply foldl_app. Qed.

(** ** Theorems *)
(** C13. In every history of calls by client code, its listeners and events of native, a
    socket that is not closed has only dispatched open and message events and listens
    to native; a closed one has dispatched after those either one close event or an
    error and then a close event, and from then on nothing that happens changes its
    state or makes it dispatch another event. *)
Theorem close_is_last ops k w : sockets (run initial ops) !! k = Some w ->
  well_formed w /\
  (readyState w = CLOSED -> forall more, exists w',
     sockets (run initial (ops ++ more)) !! k = Some w' /\
     readyState w' = CLOSED /\ dispatched w' = dispatched w).
Proof.
  intros Hw. assert (H := run_well_formed _ ops initial_well_formed). split; [by eapply H|].
  intros Hc more. rewrite run_app.
  destruct (run_over k _ _ more (ended_over _ _ _ H Hw Hc)) as (w' & E & _ & E2 & E3). eauto.
Qed.

(** What a socket dispatches for an event of native that it receives while alive. *)
Definition report (ev : native_event) : list event :=
  match ev with
  | WebsocketMessage _ _ => []
  | WebsocketOpen _ _ => [EOpen]
  | WebsocketClosed _ code reason => [EClose code reason]
  | WebsocketFailed _ message => [EError message; ECloseFailed message]
  end.
Definition ends (ev : native_event) : bool :=
  match ev with WebsocketClosed _ _ _ | WebsocketFailed _ _ => true | _ => false end.
Lemma report_phase ev d s : (forall id p, ev <> WebsocketMessage id p) -> phase (id_of ev) (alive_with d) s ->
  phase (id_of ev) (if ends ev then ending false (d ++ report ev) else alive_with (d ++ report ev))
    (final (on_native_event (id_of ev) ev) s).
Proof.
  intros Hm HP. unfold final. destruct ev as [id p|id p|id code reason|id message]; cbn [id_of ends report] in *.
  - by destruct (Hm id p).
  - by destruct (open_phase _ _ p s HP) as (s' & -> & P).
  - by destruct (closed_phase _ _ code reason s HP) as (s' & -> & P).
  - by destruct (failed_phase _ _ message s HP) as (s' & -> & P).
Qed.
(** When native opens, closes or fails a socket that is not closed, the socket
    dispatches exactly the events for it, whatever its listeners call or throw and
    whatever other sockets there are; it is closed afterwards if native ended it. *)
Theorem native_is_reported ops k w ev : sockets (run initial ops) !! k = Some w ->
  readyState w <> CLOSED -> id_of ev = k -> (forall id p, ev <> WebsocketMessage id p) ->
  exists w', sockets (step (run initial ops) (Native ev)) !! k = Some w' /\
    dispatched w' = dispatched w ++ report ev /\
    (readyState w' = CLOSED <-> ends ev = true) /\ subscribed w' = negb (ends ev).
Proof.
  intros Hw Hc <- Hm. set (s := run initial ops) in *.
  assert (H : all_well_formed s) by apply run_well_formed, initial_well_formed.
  assert (Hs : subscribed w = true) by (destruct (H _ w Hw) as [(A & _)|(_ & A & _)]; done).
  assert (HP := report_phase ev _ s Hm (well_formed_phase s _ w H Hw Hs)).
  cbn [step]. rewrite deliver_run. apply lookup_lt_Some in Hw as Hlt. apply Nat.ltb_lt in Hlt. rewrite Hlt.
  unfold handle, this, final. rewrite bind_gets, Hw. change (default new_socket (Some w)) with w. rewrite Hs. cbn [when].
  destruct HP as [(w' & Hw' & Q) _]. exists w'. split; [done|]. destruct (ends ev).
  - by destruct Q as (-> & -> & ->).
  - destruct Q as ((-> & Hc' & _) & ->). split_and!; try done.
Qed.
End WebSocket.

(** ** Examples *)
Section Examples.
(** A listener that answers an error with calls that throw. *)
Definition fussy (k : nat) (e : event) (_ : st) : list (list action) :=
  match e with
  | EError _ => [[Send k OtherData; Ping k]; [Close k None None]]
  | EOpen => [[Send k (Text "hello")]]
  | _ => []
  end.
Abbreviation run_ops := (run true true (fun _ => []) (fun _ => "") fussy initial).
Definition url : string := "ws://example.org".
Definition opened : list op := [Client (New url (OneProtocol "chat") None); Native (WebsocketOpen 0 "chat")].
Definition failed : list op := opened ++ [Native (WebsocketFailed 0 "gone")].
Definition nth_socket (k : nat) (s : st) : socket := default new_socket (sockets s !! k).

Lemma close_is_last_witness :
  well_formed (nth_socket 0 (run_ops failed)) /\
  (readyState (nth_socket 0 (run_ops failed)) = CLOSED -> forall more, exists w',
     sockets (run_ops (failed ++ more)) !! 0 = Some w' /\
     readyState w' = CLOSED /\ dispatched w' = dispatched (nth_socket 0 (run_ops failed))).
Proof.
  apply (close_is_last true true (fun _ => []) (fun _ => "") fussy failed 0). vm_compute. reflexivity.
Defined.
Lemma native_is_reported_witness :
  exists w', sockets (step true true (fun _ => []) (fun _ => "") fussy (run_ops opened) (Native (WebsocketFailed 0 "gone"))) !! 0
      = Some w' /\
    dispatched w' = [EOpen; EError "gone"; ECloseFailed "gone"] /\
    (readyState w' = CLOSED <-> true = true) /\ subscribed w' = false.
Proof.
  apply (native_is_reported true true (fun _ => []) (fun _ => "") fussy opened 0 (nth_socket 0 (run_ops opened))
    (WebsocketFailed 0 "gone")); [vm_compute; reflexivity|vm_compute; discriminate|reflexivity|discriminate].
Defined.

(** An open event that arrives after [close] makes the closing socket open again. *)
Definition early_close : list op := [Client (New url NoProtocols None); Client (Close 0 None None)].
Example open_revives :
  readyState (nth_socket 0 (run_ops early_close)) = CLOSING /\
  readyState (nth_socket 0 (run_ops (early_close ++ [Native (WebsocketOpen 0 "")]))) = OPEN.
Proof. by vm_compute. Qed.
(** The [close] at the end of native's closing finds the socket closed and leaves its
    blob handler behind; one that client code closes is removed. *)
Definition blob_socket : list op := opened ++ [Client (SetBinaryType 0 Type_blob)].
Example blob_handler_stays :
  Blob.calls (blob_state (run_ops (blob_socket ++ [Native (WebsocketClosed 0 1000 "")]))) =
    [AddWebSocketHandler 0] /\
  Blob.calls (blob_state (run_ops (blob_socket ++ [Client (Close 0 None None)]))) =
    [AddWebSocketHandler 0; RemoveWebSocketHandler 0].
Proof. by vm_compute. Qed.
(** A socket that is closing, or closed, still sends. *)
Example closed_socket_sends :
  native (run_ops (failed ++ [Client (Send 0 (Text "late"))])) =
    [Connect url (Some ["chat"]) [] 0; NSend "hello" 0; NSend "late" 0].
Proof. by vm_compute. Qed.
(** [origin] is moved to the headers, anything else is dropped with a warning. *)
Example origin_is_a_header :
  let s := run_ops [Client (New url NoProtocols
    (Some {| o_headers := None; o_others := [("origin", Some "example.org"); ("agent", None)] |}))] in
  native s = [Connect url None [("origin", "example.org")] 0] /\ warnings s = 2.
Proof. by vm_compute. Qed.
End Examples.
