(* ===== verification/AttributePayload.v ===== *)
(** * Update payloads of native views

    The module ReactNativeAttributePayload in
    Libraries/Renderer/implementations/ReactNativeRenderer-dev.js, which computes what
    native has to be told when the props of a view change, with
    Libraries/Utilities/differ/deepDiffer.js and Libraries/StyleSheet/flattenStyle.js.

    Objects and arrays are references into a heap that this code only reads.  Objects are
    plain: their fields are those of their literal, and their constructor is [Object].
    The functions [diff] and [process] of an attribute's configuration are part of the
    configuration.  Recursion over the heap has fuel. *)
From S2P Require Import Prelude.
From stdpp Require Import base numbers list strings gmap.
Open Scope nat_scope.

Inductive value :=
  | VUndefined
  | VNull
  | VBool (b : bool)
  | VNumber (n : option Z)   (* [None] is NaN *)
  | VString (s : string)
  | VFunction (f : nat)
  | VRef (l : nat).
#[export] Instance value_eq_dec : EqDecision value.
Proof. solve_decision. Defined.
Abbreviation fields := (list (string * value)).
Inductive object := Obj (f : fields) | Arr (l : list value).
Abbreviation heap := (gmap nat object).

Definition get (f : fields) (k : string) : value := default VUndefined (map_get k f).
Definition keys {A} (f : list (string * A)) : list string := f.*1.
Definition is_undefined (v : value) : bool := bool_decide (v = VUndefined).
Definition is_function (v : value) : bool := match v with VFunction _ => true | _ => false end.
Definition strict_equal (a b : value) : bool :=
  match a with VNumber None => false | _ => bool_decide (a = b) end.
Definition truthy (v : value) : bool :=
  match v with
  | VUndefined | VNull | VBool false | VNumber None | VNumber (Some 0%Z) | VString "" => false
  | _ => true
  end.

Section Heap.
Context (h : heap).
Definition deref (l : nat) : object := default (Obj []) (h !! l).
(** [Array.isArray], and what [for ... in] and [.] see of a value that is no array. *)
Definition elements (v : value) : option (list value) :=
  match v with
  | VRef l => match deref l with Arr a => Some a | Obj _ => None end
  | _ => None
  end.
Definition fields_of (v : value) : fields :=
  match v with
  | VRef l => match deref l with Obj f => f | Arr _ => [] end
  | _ => []
  end.

(** ** deepDiffer.js *)
(** A loop that returns at the first pair that differs; [None] is no more fuel. *)
Fixpoint some_differ (differ : value -> value -> option bool) (l : list (value * value)) : option bool :=
  match l with
  | [] => Some false
  | (a, b) :: l' =>
      match differ a b with
      | Some false => some_differ differ l'
      | r => r
      end
  end.
Fixpoint deepDiffer (fuel : nat) (unsafelyIgnoreFunctions : option bool) (one two : value) (maxDepth : Z)
    : option bool :=
  match fuel with
  | 0 => None
  | S fuel =>
      let differ a b := deepDiffer fuel unsafelyIgnoreFunctions a b (maxDepth - 1) in
      if (maxDepth =? 0)%Z then Some true
      else if strict_equal one two then Some false
      else match one, two with
      | VFunction _, VFunction _ => Some (negb (default true unsafelyIgnoreFunctions))
      | VRef l1, VRef l2 =>
          match deref l1, deref l2 with
          | Arr a, Arr b =>
              if negb (length b =? length a) then Some true
              else some_differ differ (zip a b)
          | Obj a, Obj b =>
              match some_differ differ ((fun kv => (snd kv, get b (fst kv))) <$> a) with
              | Some false =>
                  Some (existsb (fun kv => is_undefined (get a (fst kv)) && negb (is_undefined (snd kv))) b)
              | r => r
              end
          | _, _ => Some true
          end
      | _, _ => Some true
      end
  end.

(** ** flattenStyle.js *)
Definition assign (result computedStyle : fields) : fields :=
  foldl (fun r kv => map_set (fst kv) (snd kv) r) result computedStyle.
(** [Some None] is [undefined]; an object stands for its fields. *)
Fixpoint flatten_elements (flatten : value -> option (option fields)) (elems : list value) (result : fields)
    : option (option fields) :=
  match elems with
  | [] => Some (Some result)
  | e :: elems' =>
      match flatten e with
      | None => None
      | Some None => flatten_elements flatten elems' result
      | Some (Some computedStyle) => flatten_elements flatten elems' (assign result computedStyle)
      end
  end.
Fixpoint flattenStyle (fuel : nat) (style : value) : option (option fields) :=
  match fuel with
  | 0 => None
  | S fuel =>
      match style with
      | VRef l =>
          match deref l with
          | Obj f => Some (Some f)
          | Arr elems => flatten_elements (flattenStyle fuel) elems []
          end
      | _ => Some None
      end
  end.
End Heap.

(** ** Attribute configurations *)
Inductive attribute :=
  | Valid   (* anything that is no object *)
  | Config (diff : option (value -> value -> bool)) (process : option (value -> value))
      (nested : list (string * attribute)).
Abbreviation attributes := (list (string * attribute)).
(** The kinds of configuration the code tells apart. *)
Definition is_leaf (c : attribute) : bool :=
  match c with
  | Valid => true
  | Config d p _ => bool_decide (is_Some d) || bool_decide (is_Some p)
  end.
Definition processed (c : attribute) (v : value) : value :=
  match c with
  | Config _ (Some process) _ => process v
  | _ => v
  end.

Abbreviation payload := (option fields).
Definition slot (p : payload) (k : string) : value := get (default [] p) k.
Definition updated (p : payload) (k : string) : bool := negb (is_undefined (slot p k)).
Definition set_slot (p : payload) (k : string) (v : value) : payload := Some (map_set k v (default [] p)).

Record st := {
  removedKeys : option (list (string * bool));
  removedKeyCount : Z
}.
Definition initial : st := {| removedKeys := None; removedKeyCount := 0 |}.
Definition set_removedKeys x (s : st) : st := {| removedKeys := x; removedKeyCount := removedKeyCount s |}.
Definition set_removedKeyCount x (s : st) : st := {| removedKeys := removedKeys s; removedKeyCount := x |}.
Definition is_removed (k : string) (s : st) : bool :=
  match removedKeys s with Some m => default false (map_get k m) | None => false end.
Definition set_removed (k : string) (b : bool) : JS st unit :=
  modify (fun s => match removedKeys s with
                   | Some m => set_removedKeys (Some (map_set k b m)) s
                   | None => s
                   end).

Definition of_option {S A} (r : option A) : JS S A :=
  match r with Some a => ret a | None => out_of_fuel end.
(** A loop that threads the payload. *)
Fixpoint fold_each {S A B} (l : list A) (acc : B) (f : B -> A -> JS S B) : JS S B :=
  match l with
  | [] => ret acc
  | x :: l' => let! acc := f acc x in fold_each l' acc f
  end.

Section Payload.
Context (h : heap) (depth : nat).

Definition defaultDiffer (prevProp nextProp : value) : JS st bool :=
  match nextProp with
  | VRef _ => of_option (deepDiffer h depth (Some true) prevProp nextProp (-1))
  | _ => ret true
  end.
Definition as_marker (v : value) : value := if is_function v then VBool true else v.

Definition assign_processed (c : attribute) (p : payload) (k : string) (v : value) : payload :=
  if is_leaf c then set_slot p k (processed c v) else p.
Definition restore_key (attrs : attributes) (obj : fields) (p : payload) (propKey : string) : JS st payload :=
  let! on := gets (is_removed propKey) in
  if negb on then ret p else
  let nextProp := get obj propKey in
  if is_undefined nextProp then ret p else
  match map_get propKey attrs with
  | None => ret p
  | Some c =>
      let p := assign_processed c p propKey (as_marker nextProp) in
      do! set_removed propKey false;
      do! modify (fun s => set_removedKeyCount (removedKeyCount s - 1) s);
      ret p
  end.
Fixpoint restoreDeletedValuesInNestedArray (fuel : nat) (p : payload) (node : value) (attrs : attributes)
    : JS st payload :=
  match fuel with
  | 0 => out_of_fuel
  | S fuel =>
      match elements h node with
      | Some elems =>
          fold_each (reverse elems) p (fun p e =>
            let! count := gets removedKeyCount in
            if (0 <? count)%Z then restoreDeletedValuesInNestedArray fuel p e attrs else ret p)
      | None =>
          let! count := gets removedKeyCount in
          if truthy node && (0 <? count)%Z then
            let! ks := gets (fun s => keys (default [] (removedKeys s))) in
            fold_each ks p (restore_key attrs (fields_of h node))
          else ret p
      end
  end.

Definition diffNestedArrayProperty (diffNestedProperty : payload -> value -> value -> JS st payload)
    (clearNestedProperty addNestedProperty : payload -> value -> JS st payload)
    (p : payload) (prevArray nextArray : list value) : JS st payload :=
  let minLength := Nat.min (length prevArray) (length nextArray) in
  let! p := fold_each (zip prevArray nextArray) p (fun p e => diffNestedProperty p (fst e) (snd e)) in
  let! p := fold_each (drop minLength prevArray) p clearNestedProperty in
  fold_each (drop minLength nextArray) p addNestedProperty.

(** The style as an object that [diffProperties] is given for an array. *)
Definition flattened (style : value) : JS st fields :=
  let! f := of_option (flattenStyle h depth style) in
  ret (default [] f).

(** What an old and a new prop are compared as: functions are markers, and an explicit
    undefined is null. *)
Definition compared (prevProp nextProp : value) : value * value :=
  let '(prevProp, nextProp) :=
    if is_function nextProp then (as_marker prevProp, VBool true) else (prevProp, nextProp) in
  if is_undefined nextProp then (if is_undefined prevProp then VNull else prevProp, VNull)
  else (prevProp, nextProp).
(** The body of the loop over the new props, with the function for nested attributes. *)
Definition next_prop (diffNested : payload -> value -> value -> attributes -> JS st payload)
    (restore : payload -> value -> attributes -> JS st payload)
    (prevProps nextProps : fields) (validAttributes : attributes) (p : payload) (propKey : string) : JS st payload :=
  match map_get propKey validAttributes with
  | None => ret p
  | Some c =>
      let '(prevProp, nextProp) := compared (get prevProps propKey) (get nextProps propKey) in
      do! set_removed propKey false;
      if updated p propKey then ret (assign_processed c p propKey nextProp)
      else if strict_equal prevProp nextProp then ret p
      else
        match c with
        | Valid =>
            let! b := defaultDiffer prevProp nextProp in
            ret (if b then set_slot p propKey nextProp else p)
        | Config d process nested =>
            if is_leaf c then
              let! shouldUpdate :=
                if is_undefined prevProp then ret true
                else match d with
                     | Some diff => ret (diff prevProp nextProp)
                     | None => defaultDiffer prevProp nextProp
                     end in
              ret (if shouldUpdate : bool then set_slot p propKey (processed c nextProp) else p)
            else
              do! modify (fun s => set_removedKeyCount 0 (set_removedKeys None s));
              let! p := diffNested p prevProp nextProp nested in
              let! count := gets removedKeyCount in
              if (0 <? count)%Z && bool_decide (is_Some p) then
                let! p := restore p nextProp nested in
                do! modify (set_removedKeys None);
                ret p
              else ret p
        end
  end.
(** A leaf that is gone is flagged for removal with a sentinel. *)
Definition remove_prop (p : payload) (propKey : string) : JS st payload :=
  do! modify (fun s => match removedKeys s with None => set_removedKeys (Some []) s | Some _ => s end);
  let! on := gets (is_removed propKey) in
  do! when (negb on) (
    do! set_removed propKey true;
    modify (fun s => set_removedKeyCount (removedKeyCount s + 1) s));
  ret (set_slot p propKey VNull).
(** The body of the loop over the old props. *)
Definition prev_prop (clearNested : payload -> value -> attributes -> JS st payload)
    (prevProps nextProps : fields) (validAttributes : attributes) (p : payload) (propKey : string) : JS st payload :=
  if negb (is_undefined (get nextProps propKey)) then ret p
  else
    match map_get propKey validAttributes with
    | None => ret p
    | Some c =>
        if updated p propKey then ret p
        else
          let prevProp := get prevProps propKey in
          if is_undefined prevProp then ret p
          else
            match c with
            | Config _ _ nested =>
                if is_leaf c then remove_prop p propKey else clearNested p prevProp nested
            | Valid => remove_prop p propKey
            end
    end.

Fixpoint diffProperties (fuel : nat) (p : payload) (prevProps nextProps : fields) (validAttributes : attributes)
    : JS st payload :=
  match fuel with
  | 0 => out_of_fuel
  | S fuel =>
      let! p := fold_each (keys nextProps) p
        (next_prop (diffNestedProperty fuel) (restoreDeletedValuesInNestedArray depth) prevProps nextProps validAttributes) in
      fold_each (keys prevProps) p
        (prev_prop (clearNestedProperty fuel) prevProps nextProps validAttributes)
  end
with diffNestedProperty (fuel : nat) (p : payload) (prevProp nextProp : value) (validAttributes : attributes)
    : JS st payload :=
  match fuel with
  | 0 => out_of_fuel
  | S fuel =>
      if bool_decide (p = None) && strict_equal prevProp nextProp then ret p
      else if negb (truthy prevProp) || negb (truthy nextProp) then
        if truthy nextProp then addNestedProperty fuel p nextProp validAttributes
        else if truthy prevProp then clearNestedProperty fuel p prevProp validAttributes
        else ret p
      else
        match elements h prevProp, elements h nextProp with
        | None, None => diffProperties fuel p (fields_of h prevProp) (fields_of h nextProp) validAttributes
        | Some prevArray, Some nextArray =>
            diffNestedArrayProperty (fun p a b => diffNestedProperty fuel p a b validAttributes)
              (fun p a => clearNestedProperty fuel p a validAttributes)
              (fun p a => addNestedProperty fuel p a validAttributes) p prevArray nextArray
        | Some _, None =>
            let! f := flattened prevProp in
            diffProperties fuel p f (fields_of h nextProp) validAttributes
        | None, Some _ =>
            let! f := flattened nextProp in
            diffProperties fuel p (fields_of h prevProp) f validAttributes
        end
  end
with addNestedProperty (fuel : nat) (p : payload) (nextProp : value) (validAttributes : attributes)
    : JS st payload :=
  match fuel with
  | 0 => out_of_fuel
  | S fuel =>
      if negb (truthy nextProp) then ret p
      else
        match elements h nextProp with
        | None => diffProperties fuel p [] (fields_of h nextProp) validAttributes   (* addProperties *)
        | Some l => fold_each l p (fun p a => addNestedProperty fuel p a validAttributes)
        end
  end
with clearNestedProperty (fuel : nat) (p : payload) (prevProp : value) (validAttributes : attributes)
    : JS st payload :=
  match fuel with
  | 0 => out_of_fuel
  | S fuel =>
      if negb (truthy prevProp) then ret p
      else
        match elements h prevProp with
        | None => diffProperties fuel p (fields_of h prevProp) [] validAttributes   (* clearProperties *)
        | Some l => fold_each l p (fun p a => clearNestedProperty fuel p a validAttributes)
        end
  end.

Lemma diffProperties_S n p prevProps nextProps attrs :
  diffProperties (S n) p prevProps nextProps attrs =
    let! p := fold_each (keys nextProps) p
      (next_prop (diffNestedProperty n) (restoreDeletedValuesInNestedArray depth) prevProps nextProps attrs) in
    fold_each (keys prevProps) p (prev_prop (clearNestedProperty n) prevProps nextProps attrs).
Proof. done. Qed.
Lemma addNestedProperty_S n p v attrs :
  addNestedProperty (S n) p v attrs =
    if negb (truthy v) then ret p
    else match elements h v with
         | None => diffProperties n p [] (fields_of h v) attrs
         | Some l => fold_each l p (fun p a => addNestedProperty n p a attrs)
         end.
Proof. done. Qed.
Lemma clearNestedProperty_S n p v attrs :
  clearNestedProperty (S n) p v attrs =
    if negb (truthy v) then ret p
    else match elements h v with
         | None => diffProperties n p (fields_of h v) [] attrs
         | Some l => fold_each l p (fun p a => clearNestedProperty n p a attrs)
         end.
Proof. done. Qed.
Lemma diffNestedProperty_S n p v w attrs :
  diffNestedProperty (S n) p v w attrs =
    if bool_decide (p = None) && strict_equal v w then ret p
    else if negb (truthy v) || negb (truthy w) then
      if truthy w then addNestedProperty n p w attrs
      else if truthy v then clearNestedProperty n p v attrs
      else ret p
    else
      match elements h v, elements h w with
      | None, None => diffProperties n p (fields_of h v) (fields_of h w) attrs
      | Some a, Some b =>
          diffNestedArrayProperty (fun p a b => diffNestedProperty n p a b attrs)
            (fun p a => clearNestedProperty n p a attrs) (fun p a => addNestedProperty n p a attrs) p a b
      | Some _, None => let! f := flattened v in diffProperties n p f (fields_of h w) attrs
      | None, Some _ => let! f := flattened w in diffProperties n p (fields_of h v) f attrs
      end.
Proof. done. Qed.

Definition create (fuel : nat) (props : fields) (validAttributes : attributes) : JS st payload :=
  diffProperties fuel None [] props validAttributes.
Definition diff (fuel : nat) (prevProps nextProps : fields) (validAttributes : attributes) : JS st payload :=
  diffProperties fuel None prevProps nextProps validAttributes.
End Payload.

(** ** What it is for two values to look the same *)
Inductive shape :=
  | SUndefined | SNull | SBool (b : bool) | SNumber (n : option Z) | SString (s : string)
  | SFunction | SObject | SArray (len : nat).
Inductive access := Key (k : string) | Index (i : nat).

Section Alike.
Context (h : heap).
Definition shape_of (v : value) : shape :=
  match v with
  | VUndefined => SUndefined
  | VNull => SNull
  | VBool b => SBool b
  | VNumber n => SNumber n
  | VString s => SString s
  | VFunction _ => SFunction
  | VRef l => match deref h l with Obj _ => SObject | Arr a => SArray (length a) end
  end.
Definition child (v : value) (a : access) : value :=
  match v with
  | VRef l =>
      match deref h l, a with
      | Obj f, Key k => get f k
      | Arr a, Index i => default VUndefined (a !! i)
      | _, _ => VUndefined
      end
  | _ => VUndefined
  end.
Fixpoint observe (v : value) (path : list access) : shape :=
  match path with
  | [] => shape_of v
  | a :: path' => observe (child v a) path'
  end.
(** No sequence of property accesses tells them apart; a missing property is undefined
    and any two functions are the same. *)
Definition alike (v w : value) : Prop := forall path, observe v path = observe w path.
#[export] Instance alike_equivalence : Equivalence alike.
Proof.
  split; [by intros v path|by intros v w H path|]. intros u v w H1 H2 path. by rewrite H1, H2.
Qed.
Lemma alike_intro v w :
  shape_of v = shape_of w -> (forall a, alike (child v a) (child w a)) -> alike v w.
Proof. intros H1 H2 [|a path]; [done|]. apply H2. Qed.
Lemma alike_shape v w : alike v w -> shape_of v = shape_of w.
Proof. intros H. apply (H []). Qed.
Lemma alike_child v w a : alike v w -> alike (child v a) (child w a).
Proof. intros H path. apply (H (a :: path)). Qed.

(** Objects refer to older objects only, and their keys are distinct. *)
Definition rank (v : value) : nat := match v with VRef l => S l | _ => 0 end.
Definition contents (o : object) : list value := match o with Obj f => f.*2 | Arr a => a end.
Definition acyclic : Prop := forall l v, v ∈ contents (deref h l) -> rank v <= l.
Definition distinct_keys : Prop := forall l f, deref h l = Obj f -> NoDup (keys f).
Definition no_NaN (v : value) : Prop := forall path, observe v path <> SNumber None.
Lemma no_NaN_child v a : no_NaN v -> no_NaN (child v a).
Proof. intros H path. apply (H (a :: path)). Qed.
Lemma strict_equal_eq a b : strict_equal a b = true -> a = b.
Proof. destruct a as [| | |[]| | |]; cbn; try apply bool_decide_eq_true_1. done. Qed.
Lemma strict_equal_refl a : a <> VNumber None -> strict_equal a a = true.
Proof. intros H. destruct a as [| | |[]| | |]; try by apply bool_decide_eq_true_2. done. Qed.

Lemma some_differ_false differ l :
  some_differ differ l = Some false <-> Forall (fun p => differ (fst p) (snd p) = Some false) l.
Proof.
  induction l as [|[a b] l IH]; cbn; [by split|]. rewrite Forall_cons. cbn.
  destruct (differ a b) as [[]|]; [|tauto|]; (split; [done|intros [? _]; done]).
Qed.
Lemma some_differ_total differ l :
  Forall (fun p => is_Some (differ (fst p) (snd p))) l -> is_Some (some_differ differ l).
Proof.
  induction 1 as [|[a b] l [r Hr] _ IH]; cbn in *; [done|]. rewrite Hr. by destruct r.
Qed.
Lemma get_entry (f : fields) k : map_get k f = None \/ exists v, map_get k f = Some v /\ (k, v) ∈ f.
Proof.
  induction f as [|[k' v] f IH]; cbn; [by left|]. destruct (decide (k' = k)) as [->|].
  - right. exists v. split; [done|]. by left.
  - destruct IH as [|(w & ? & ?)]; [by left|]. right. exists w. split; [done|]. by right.
Qed.
Lemma get_of_entry (f : fields) k v : NoDup (keys f) -> (k, v) ∈ f -> map_get k f = Some v.
Proof.
  induction f as [|[k' w] f IH]; cbn; [by intros _ ?%elem_of_nil|]. intros [Hn Hd]%NoDup_cons [E|Hin]%elem_of_cons.
  - injection E as -> ->. by rewrite decide_True.
  - rewrite decide_False; [by apply IH|]. intros ->. apply Hn. apply list_elem_of_fmap. by exists (k, v).
Qed.

Lemma object_alike l1 l2 a b :
  deref h l1 = Obj a -> deref h l2 = Obj b ->
  (forall k, alike (get a k) (get b k)) -> alike (VRef l1) (VRef l2).
Proof.
  intros E1 E2 H. apply alike_intro; cbn; rewrite E1, E2; [done|]. by intros [k|i].
Qed.
Lemma array_alike l1 l2 a b :
  deref h l1 = Arr a -> deref h l2 = Arr b -> length a = length b ->
  (forall i, alike (default VUndefined (a !! i)) (default VUndefined (b !! i))) -> alike (VRef l1) (VRef l2).
Proof.
  intros E1 E2 Hl H. apply alike_intro; cbn; rewrite E1, E2; [by rewrite Hl|]. by intros [k|i].
Qed.
Lemma deepDiffer_sound n ignore one two d :
  ignore <> Some false -> deepDiffer h n ignore one two d = Some false -> alike one two.
Proof.
  intros Hi. revert one two d. induction n as [|n IH]; intros one two d; cbn [deepDiffer]; [done|].
  destruct (d =? 0)%Z; [done|]. destruct (strict_equal one two) eqn:E.
  { apply strict_equal_eq in E as ->. done. }
  destruct one as [| | | | |f|l1], two as [| | | | |f'|l2]; try done.
  { intros _. by apply alike_intro. }
  destruct (deref h l1) as [a|a] eqn:E1, (deref h l2) as [b|b] eqn:E2; try done.
  - destruct (some_differ _ _) as [[]|] eqn:Es; try done. intros [= Hb].
    apply some_differ_false in Es. rewrite Forall_fmap, Forall_forall in Es.
    eapply object_alike; [done..|]. intros k. destruct (get_entry a k) as [Ea|(v & Ea & Hin)].
    + assert (Ha : get a k = VUndefined) by (unfold get; by rewrite Ea).
      rewrite Ha. destruct (get_entry b k) as [Eb|(w & Eb & Hinb)]; [unfold get; by rewrite Eb|].
      destruct (decide (w = VUndefined)) as [->|Hw]; [unfold get; by rewrite Eb|].
      assert (Ht : existsb (fun kv => is_undefined (get a (fst kv)) && negb (is_undefined (snd kv))) b = true).
      { apply existsb_exists. exists (k, w). split; [by apply list_elem_of_In|]. cbn. rewrite Ha.
        unfold is_undefined. by rewrite (bool_decide_eq_false_2 (w = VUndefined)). }
      congruence.
    + specialize (Es _ Hin). cbn in Es. unfold get at 1. rewrite Ea. cbn. eapply IH, Es.
  - destruct (Nat.eqb_spec (length b) (length a)) as [Hl|]; cbn; [|done]. intros Es%some_differ_false.
    eapply array_alike; [done..|]. intros i.
    destruct (a !! i) as [v|] eqn:Ev.
    + destruct (lookup_lt_is_Some_2 b i) as [w Ew]; [apply lookup_lt_Some in Ev; lia|]. rewrite Ew. cbn.
      rewrite Forall_lookup in Es. specialize (Es i (v, w)). rewrite lookup_zip_with, Ev in Es. cbn in Es. rewrite Ew in Es.
      eapply IH, Es. done.
    + rewrite (proj2 (lookup_ge_None b i)); [done|]. apply lookup_ge_None in Ev. lia.
Qed.

Lemma contents_field l f k v : deref h l = Obj f -> (k, v) ∈ f -> v ∈ contents (deref h l).
Proof. intros -> Hin. cbn. apply list_elem_of_fmap. by exists (k, v). Qed.
Lemma deepDiffer_total n ignore one two d : acyclic -> rank one < n -> is_Some (deepDiffer h n ignore one two d).
Proof.
  intros Hac. revert one two d. induction n as [|n IH]; intros one two d Hr; [lia|]. cbn [deepDiffer].
  destruct (d =? 0)%Z; [by eexists|]. destruct (strict_equal one two); [by eexists|].
  destruct one as [| | | | |f|l1], two as [| | | | |f'|l2]; try by eexists.
  destruct (deref h l1) as [a|a] eqn:E1, (deref h l2) as [b|b] eqn:E2; try by eexists.
  - edestruct some_differ_total as [r Hs]; [|rewrite Hs; destruct r; by eexists].
    apply Forall_fmap, Forall_forall. intros [k v] Hin. cbn. apply IH.
    specialize (Hac l1 v (contents_field _ _ _ _ E1 Hin)). cbn in Hr. lia.
  - destruct (_ =? _); cbn; [|by eexists]. apply some_differ_total, Forall_forall.
    intros [v w] Hin%elem_of_zip_l. apply IH. specialize (Hac l1 v). rewrite E1 in Hac. specialize (Hac Hin).
    cbn in *. lia.
Qed.
Lemma same_shape one two : shape_of one = shape_of two ->
  one = two \/ (exists f g, one = VFunction f /\ two = VFunction g) \/
  exists l1 l2, one = VRef l1 /\ two = VRef l2 /\
    ((exists a b, deref h l1 = Obj a /\ deref h l2 = Obj b) \/
     exists a b, deref h l1 = Arr a /\ deref h l2 = Arr b /\ length a = length b).
Proof.
  destruct one as [| | | | |f|l1], two as [| | | | |f'|l2]; cbn; try (destruct (deref h _); done);
    try done; try (intros [= ->]; by left); try (by left).
  - intros _. right. left. eauto.
  - intros Hs. right. right. exists l1, l2. split_and!; [done..|].
    destruct (deref h l1) as [a|a], (deref h l2) as [b|b]; try done; [left; eauto|]. injection Hs as Hs. right. eauto.
Qed.
Lemma deepDiffer_complete n ignore one two d :
  acyclic -> distinct_keys -> rank one < n -> (d < 0)%Z -> ignore <> Some false ->
  no_NaN one -> alike one two -> deepDiffer h n ignore one two d = Some false.
Proof.
  intros Hac Hdk Hr Hd Hi. revert one two d Hr Hd.
  induction n as [|n IH]; intros one two d Hr Hd Hn Ha; [lia|]. cbn [deepDiffer].
  destruct (Z.eqb_spec d 0); [lia|].
  destruct (same_shape one two (alike_shape _ _ Ha)) as [<-|[(f & g & -> & ->)|(l1 & l2 & -> & -> & H)]].
  { rewrite strict_equal_refl; [done|]. intros ->. by apply (Hn []). }
  { destruct (strict_equal _ _); [done|]. by destruct ignore as [[]|]. }
  destruct (strict_equal _ _); [done|].
  destruct H as [(a & b & E1 & E2)|(a & b & E1 & E2 & Hl)]; rewrite E1, E2.
  - rewrite (proj2 (some_differ_false _ _)).
    + f_equal. apply not_true_iff_false. rewrite existsb_exists. intros ([k w] & Hin%list_elem_of_In & Hk).
      apply andb_true_iff in Hk as [H1%bool_decide_eq_true H2%negb_true_iff%bool_decide_eq_false]. cbn in *.
      apply (alike_child _ _ (Key k)) in Ha. cbn in Ha. rewrite E1, E2, H1 in Ha. apply alike_shape in Ha.
      unfold get in Ha. rewrite (get_of_entry b k w) in Ha; [|by eapply Hdk|done]. cbn in Ha.
      destruct w; cbn in Ha; try done. by destruct (deref h l).
    + apply Forall_fmap, Forall_forall. intros [k v] Hin. cbn.
      assert (Hv : get a k = v) by (unfold get; by rewrite (get_of_entry a k v); [|eapply Hdk|]).
      apply IH; [|lia| |].
      * specialize (Hac l1 v (contents_field _ _ _ _ E1 Hin)). cbn in Hr. lia.
      * apply (no_NaN_child _ (Key k)) in Hn. cbn in Hn. by rewrite E1, Hv in Hn.
      * apply (alike_child _ _ (Key k)) in Ha. cbn in Ha. by rewrite E1, E2, Hv in Ha.
  - rewrite Hl, Nat.eqb_refl. cbn. apply some_differ_false, Forall_lookup. intros i [v w] Hi'.
    apply lookup_zip_Some in Hi' as [Hv Hw]. cbn. apply IH; [|lia| |].
    + specialize (Hac l1 v). rewrite E1 in Hac. specialize (Hac (list_elem_of_lookup_2 _ _ _ Hv)). cbn in Hr. lia.
    + apply (no_NaN_child _ (Index i)) in Hn. cbn in Hn. by rewrite E1, Hv in Hn.
    + apply (alike_child _ _ (Index i)) in Ha. cbn in Ha. by rewrite E1, E2, Hv, Hw in Ha.
Qed.

(** ** Flattened styles *)
Definition flat (v : value) : fields := default [] (default None (flattenStyle h (S (rank v)) v)).
#[global] Arguments flat : simpl never.
Definition over {A} (x r : option A) : option A := match x with Some _ => x | None => r end.
Lemma over_assoc {A} (x y z : option A) : over x (over y z) = over (over x y) z.
Proof. by destruct x. Qed.
Lemma over_None {A} (x : option A) : over x None = x.
Proof. by destruct x. Qed.

Lemma flatten_elements_ext f g elems r :
  (forall e, e ∈ elems -> f e = g e) -> flatten_elements f elems r = flatten_elements g elems r.
Proof.
  revert r. induction elems as [|e elems IH]; intros r H; cbn; [done|].
  rewrite (H e) by left. assert (H' : forall e, e ∈ elems -> f e = g e) by (intros; apply H; by right).
  destruct (g e) as [[]|]; auto.
Qed.
Lemma flattenStyle_fuel n m v : acyclic -> rank v < n -> rank v < m -> flattenStyle h n v = flattenStyle h m v.
Proof.
  intros Hac. revert m v. induction n as [|n IH]; intros [|m] v Hn Hm; try lia. cbn [flattenStyle].
  destruct v as [| | | | | |l]; try done. destruct (deref h l) as [f|elems] eqn:E; [done|].
  apply flatten_elements_ext. intros e He. specialize (Hac l e). rewrite E in Hac. specialize (Hac He).
  cbn in *. apply IH; lia.
Qed.
Lemma flatten_elements_total f elems r : (forall e, e ∈ elems -> is_Some (f e)) ->
  exists r', flatten_elements f elems r = Some (Some r').
Proof.
  revert r. induction elems as [|e elems IH]; intros r H; cbn; [eauto|].
  destruct (H e) as [x ->]; [left|]. assert (H' : forall e, e ∈ elems -> is_Some (f e)) by (intros; apply H; by right).
  destruct x; auto.
Qed.
Lemma flattenStyle_total n v : acyclic -> rank v < n -> is_Some (flattenStyle h n v).
Proof.
  intros Hac. revert v. induction n as [|n IH]; intros v Hn; [lia|]. cbn [flattenStyle].
  destruct v as [| | | | | |l]; try by eexists. destruct (deref h l) as [f|elems] eqn:E; [by eexists|].
  destruct (flatten_elements_total (flattenStyle h n) elems []) as [r ->]; [|by eexists].
  intros e He. specialize (Hac l e). rewrite E in Hac. specialize (Hac He). cbn in *. apply IH. lia.
Qed.
Lemma flattened_run depth v s : acyclic -> rank v < depth -> flattened h depth v s = (Ret (flat v), s).
Proof.
  intros Hac Hr. unfold flattened, flat. rewrite (flattenStyle_fuel depth (S (rank v)) v) by (done || lia).
  destruct (flattenStyle_total (S (rank v)) v Hac) as [x Hx]; [lia|]. by rewrite Hx.
Qed.
Lemma flat_leaf v : elements h v = None -> flat v = fields_of h v.
Proof. unfold flat. destruct v as [| | | | | |l]; try done. cbn. by destruct (deref h l). Qed.

Lemma assign_get (f r : fields) k : NoDup (keys f) -> map_get k (assign r f) = over (map_get k f) (map_get k r).
Proof.
  unfold assign. revert r. induction f as [|[k' v] f IH]; intros r; cbn; [done|]. intros [Hn Hd]%NoDup_cons.
  rewrite IH, map_get_set by done. case_decide as Hk; [|done]. subst k'.
  by rewrite (proj2 (map_get_None k f)) by done.
Qed.
Lemma assign_NoDup (f r : fields) : NoDup (keys r) -> NoDup (keys (assign r f)).
Proof.
  unfold assign. revert r. induction f as [|[k' v] f IH]; intros r Hr; cbn; [done|]. by apply IH, map_set_NoDup.
Qed.
(** The last element that has the key has it for the array. *)
Definition last_of {A B} (f : A -> option B) (l : list A) : option B := foldl (fun r e => over (f e) r) None l.
Lemma last_of_from {A B} (f : A -> option B) l r : foldl (fun r e => over (f e) r) r l = over (last_of f l) r.
Proof.
  revert r. unfold last_of. induction l as [|e l IH] using rev_ind; intros r; [done|].
  rewrite !foldl_app. cbn. rewrite IH. by rewrite over_assoc.
Qed.
Lemma last_of_cons {A B} (f : A -> option B) e l : last_of f (e :: l) = over (last_of f l) (f e).
Proof. unfold last_of at 1. cbn. by rewrite last_of_from, over_None. Qed.
Lemma last_of_app {A B} (f : A -> option B) l l' : last_of f (l ++ l') = over (last_of f l') (last_of f l).
Proof. unfold last_of at 1. rewrite foldl_app. apply last_of_from. Qed.
Lemma last_of_fmap {A B C} (f : A -> option B) (g : C -> A) l : last_of f (g <$> l) = last_of (fun x => f (g x)) l.
Proof. induction l as [|e l IH]; [done|]. cbn [fmap list_fmap]. by rewrite !last_of_cons, IH. Qed.
Lemma last_of_None {A B} (l : list A) : last_of (fun _ => None : option B) l = None.
Proof. induction l as [|e l IH]; [done|]. by rewrite last_of_cons, IH. Qed.
Definition last_def (k : string) : list value -> option value := last_of (fun e => map_get k (flat e)).
Lemma flatten_elements_get n elems r k :
  acyclic -> (forall e, e ∈ elems -> rank e < n /\ NoDup (keys (flat e))) -> NoDup (keys r) ->
  exists r', flatten_elements (flattenStyle h n) elems r = Some (Some r') /\ NoDup (keys r') /\
    map_get k r' = over (last_def k elems) (map_get k r).
Proof.
  intros Hac. revert r. induction elems as [|e elems IH]; intros r He Hr; cbn [flatten_elements]; [eauto|].
  destruct (He e) as [He1 He2]; [left|].
  assert (He' : forall e, e ∈ elems -> rank e < n /\ NoDup (keys (flat e))) by (intros; apply He; by right).
  destruct (flattenStyle_total n e Hac He1) as [x Hx]. rewrite Hx.
  assert (Hf : flat e = default [] x).
  { unfold flat. rewrite (flattenStyle_fuel _ n e) by (done || lia). by rewrite Hx. }
  unfold last_def in *. rewrite last_of_cons, <- over_assoc. destruct x as [f|].
  - cbn in Hf. subst f. destruct (IH (assign r (flat e)) He' (assign_NoDup _ _ Hr)) as (r' & E1 & E2 & E3).
    exists r'. by rewrite E1, E3, assign_get.
  - cbn in Hf. destruct (IH r He' Hr) as (r' & E1 & E2 & E3). exists r'. rewrite E1, E3, Hf. done.
Qed.
Lemma flat_ref l elems : deref h l = Arr elems ->
  flat (VRef l) = default [] (default None (flatten_elements (flattenStyle h (S l)) elems [])).
Proof.
  intros E. transitivity (default [] (default None match deref h l with
    | Obj f => Some (Some f) | Arr a => flatten_elements (flattenStyle h (S l)) a [] end)); [done|]. by rewrite E.
Qed.
Lemma flat_keys v : acyclic -> distinct_keys -> NoDup (keys (flat v)).
Proof.
  intros Hac Hdk. remember (rank v) as n eqn:Hn. revert v Hn.
  induction (lt_wf n) as [n _ IH]. intros v ->. destruct (elements h v) as [elems|] eqn:E.
  - destruct v as [| | | | | |l]; try done. cbn in E. destruct (deref h l) as [f|a] eqn:El; [done|]. injection E as ->.
    rewrite (flat_ref l elems El).
    destruct (flatten_elements_get (S l) elems [] "" Hac) as (r & -> & Hr & _); [|constructor|done].
    intros e He. specialize (Hac l e). rewrite El in Hac. specialize (Hac He). split; [lia|].
    apply (IH (rank e)); [cbn; lia|done].
  - rewrite flat_leaf by done. destruct v as [| | | | | |l]; cbn; try constructor.
    destruct (deref h l) as [f|a] eqn:El; [by eapply Hdk|constructor].
Qed.
Lemma flat_array v elems k : acyclic -> distinct_keys -> elements h v = Some elems ->
  map_get k (flat v) = last_def k elems.
Proof.
  intros Hac Hdk E. destruct v as [| | | | | |l]; try done. cbn in E.
  destruct (deref h l) as [f|a] eqn:El; [done|]. injection E as ->.
  rewrite (flat_ref l elems El).
  destruct (flatten_elements_get (S l) elems [] k Hac) as (r & -> & _ & Hr); [|constructor|].
  - intros e He. assert (Hr := Hac l e). rewrite El in Hr. specialize (Hr He). split; [lia|]. by apply flat_keys.
  - cbn. etransitivity; [exact Hr|apply over_None].
Qed.
Lemma elements_rank v elems e : acyclic -> elements h v = Some elems -> e ∈ elems -> S (rank e) <= rank v.
Proof.
  intros Hac. destruct v as [| | | | | |l]; try done. cbn. destruct (deref h l) as [f|a] eqn:El; [done|].
  intros [= ->] He. specialize (Hac l e). rewrite El in Hac. specialize (Hac He). lia.
Qed.
End Alike.

(** ** Slots of the payload and flags of removed keys *)
Lemma get_set (f : fields) k v j : get (map_set k v f) j = if decide (k = j) then v else get f j.
Proof. unfold get. rewrite map_get_set. by case_decide. Qed.
Lemma slot_set p k v j : slot (set_slot p k v) j = if decide (k = j) then v else slot p j.
Proof. unfold slot, set_slot. cbn. apply get_set. Qed.
Lemma updated_slot p k : updated p k = true <-> slot p k <> VUndefined.
Proof. unfold updated, is_undefined. rewrite negb_true_iff. apply bool_decide_eq_false. Qed.
Lemma is_undefined_spec v : is_undefined v = true <-> v = VUndefined.
Proof. apply bool_decide_eq_true. Qed.

(** The flags that are up are at most as many as are counted. *)
Definition b2z (b : bool) : Z := if b then 1%Z else 0%Z.
Fixpoint up (m : list (string * bool)) : Z :=
  match m with [] => 0 | (_, b) :: m' => b2z b + up m' end%Z.
Definition counted (s : st) : Prop :=
  NoDup (keys (default [] (removedKeys s))) /\ (up (default [] (removedKeys s)) <= removedKeyCount s)%Z.
Lemma up_set k b m : up (map_set k b m) = (up m - b2z (default false (map_get k m)) + b2z b)%Z.
Proof.
  induction m as [|[k' b'] m IH]; cbn; [lia|]. destruct (decide (k' = k)); cbn; [lia|]. rewrite IH. lia.
Qed.
Lemma up_nonneg m : (0 <= up m)%Z.
Proof. induction m as [|[? []] m IH]; cbn; lia. Qed.
Lemma up_pos k m : map_get k m = Some true -> (0 < up m)%Z.
Proof.
  induction m as [|[k' b'] m IH]; cbn; [done|]. destruct (decide (k' = k)).
  - intros [= ->]. assert (H0 := up_nonneg m). cbn. lia.
  - intros H. specialize (IH H). destruct b'; cbn; lia.
Qed.
Lemma counted_removed k s : counted s -> is_removed k s = true -> (0 < removedKeyCount s)%Z.
Proof.
  unfold counted, is_removed. destruct (removedKeys s) as [m|]; [|done]. cbn.
  destruct (map_get k m) as [[]|] eqn:E; try done. intros [_ H] _. apply up_pos in E. lia.
Qed.

(** [set_removed] and the flags. *)
Definition flagged (k : string) (b : bool) (s : st) : st := final (set_removed k b) s.
Lemma set_removed_run k b s : set_removed k b s = (Ret tt, flagged k b s).
Proof. done. Qed.
Lemma flagged_down k s j : is_removed j (flagged k false s) = if decide (k = j) then false else is_removed j s.
Proof.
  unfold flagged, final, set_removed, is_removed. cbn. destruct (removedKeys s) as [m|] eqn:E; cbn.
  - rewrite map_get_set. by case_decide.
  - rewrite E. by case_decide.
Qed.
Lemma flagged_counted k s : counted s -> counted (flagged k false s).
Proof.
  unfold flagged, final, set_removed, counted. cbn. destruct (removedKeys s) as [m|] eqn:E; cbn; [|by rewrite E].
  intros [Hn H]. split; [by apply map_set_NoDup|]. rewrite up_set. destruct (default false (map_get k m)); cbn; lia.
Qed.
Lemma remove_prop_run p k s : counted s -> exists s',
  remove_prop p k s = (Ret (set_slot p k VNull), s') /\ counted s' /\
  forall j, is_removed j s' = if decide (k = j) then true else is_removed j s.
Proof.
  intros Hc. unfold remove_prop. rewrite bind_modify, bind_gets.
  set (s1 := match removedKeys s with None => set_removedKeys (Some []) s | Some _ => s end).
  assert (Hf : forall j, is_removed j s1 = is_removed j s).
  { intros j. unfold s1, is_removed. by destruct (removedKeys s) eqn:E; cbn; rewrite ?E. }
  assert (Hc1 : counted s1).
  { unfold counted, s1 in *. destruct (removedKeys s) eqn:E; cbn in *; rewrite ?E; [done|]. split; [constructor|apply Hc]. }
  assert (Hm : exists m, removedKeys s1 = Some m) by (unfold s1; destruct (removedKeys s) eqn:E; cbn; eauto).
  destruct Hm as [m Hm]. rewrite Hf. destruct (is_removed k s) eqn:Ek; cbn [negb when].
  - exists s1. split_and!; [done|done|]. intros j. rewrite Hf. case_decide; [by subst|done].
  - unfold set_removed. rewrite bind_assoc, bind_modify, bind_modify, Hm. eexists. split_and!; [done| |].
    + unfold counted in *. cbn. rewrite Hm in Hc1. cbn in Hc1. destruct Hc1 as [Hn Hc1].
      split; [by apply map_set_NoDup|]. rewrite up_set. cbn.
      assert (0 <= b2z (default false (map_get k m)))%Z by (destruct (default false (map_get k m)); cbn; lia). lia.
    + intros j. unfold is_removed at 1. cbn. rewrite map_get_set. case_decide; [done|].
      rewrite <- Hf. unfold is_removed. by rewrite Hm.
Qed.

(** A loop over distinct keys, as far as it concerns what [V] sees, which only the
    iteration for [j0] touches. *)
Lemma fold_each_at {X} (V : payload -> st -> X) (I : payload -> st -> Prop) (R : X -> X -> Prop) (j0 : string)
    (body : payload -> string -> JS st payload) ks p s :
  NoDup ks -> I p s ->
  (forall p s j, j ∈ ks -> I p s -> exists p' s', body p j s = (Ret p', s') /\ I p' s' /\
     (j <> j0 -> V p' s' = V p s) /\ (j = j0 -> R (V p s) (V p' s'))) ->
  exists p' s', fold_each ks p body s = (Ret p', s') /\ I p' s' /\
    if decide (j0 ∈ ks) then R (V p s) (V p' s') else V p' s' = V p s.
Proof.
  revert p s. induction ks as [|j ks IH]; intros p s Hd Hi Hb; cbn [fold_each].
  { exists p, s. split_and!; [done..|]. rewrite decide_False by apply not_elem_of_nil. done. }
  apply NoDup_cons in Hd as [Hn Hd]. destruct (Hb p s j) as (p1 & s1 & E1 & I1 & F1 & R1); [left|done|].
  destruct (IH p1 s1 Hd I1) as (p2 & s2 & E2 & I2 & H2).
  { intros p' s' j' Hj. apply Hb. by right. }
  exists p2, s2. rewrite (bind_of _ _ _ _ _ E1). split_and!; [done..|]. destruct (decide (j = j0)) as [<-|Hne].
  - rewrite decide_False in H2 by done. rewrite decide_True by left. rewrite H2. by apply R1.
  - rewrite F1 in H2 by done. case_decide as Hin.
    + rewrite decide_True by (by right). done.
    + rewrite decide_False; [done|]. intros [->|?]%elem_of_cons; done.
Qed.

(** ** What native is to show for a prop *)
Definition normal (v : value) : value := if is_undefined v then VNull else as_marker v.
Definition target (c : attribute) (v : value) : value := processed c (normal v).

Section Diff.
Context (h : heap) (depth : nat) (Hac : acyclic h) (Hdk : distinct_keys h).
Abbreviation alike := (alike h).
Abbreviation flat := (flat h).

(** The functions of a configuration are as [processColor] and [sizesDiffer] are meant to
    be: [process] never gives undefined, resets what is reset and treats equal contents
    equally; [diff] only misses changes that native would not see. *)
Record good (c : attribute) : Prop := {
  good_leaf : is_leaf c = true;
  good_process v : v <> VUndefined -> processed c v <> VUndefined;
  good_null : processed c VNull = VNull;
  good_alike v w : alike v w -> alike (processed c v) (processed c w);
  good_diff : match c with
              | Config (Some d) _ _ =>
                  forall p v, is_function v = false -> v <> VUndefined -> d p v = false ->
                    alike (processed c (normal p)) (processed c v)
              | _ => True
              end
}.
Lemma normal_defined v : normal v <> VUndefined.
Proof. unfold normal, as_marker. destruct (is_undefined v) eqn:E; [done|]. by destruct v. Qed.
Lemma target_defined c v : good c -> target c v <> VUndefined.
Proof. intros H. apply H, normal_defined. Qed.

Lemma defaultDiffer_run p v s : rank p < depth -> exists b,
  defaultDiffer h depth p v s = (Ret b, s) /\ (b = false -> alike p v /\ exists l, v = VRef l).
Proof.
  intros Hr. unfold defaultDiffer. destruct v as [| | | | | |l]; try by exists true.
  destruct (deepDiffer_total h depth (Some true) p (VRef l) (-1) Hac Hr) as [b E]. rewrite E.
  exists b. split; [done|]. intros ->. split; [|by exists l]. by eapply (deepDiffer_sound h depth (Some true)), E.
Qed.
Lemma alike_ref_normal p l : alike p (VRef l) -> exists l', p = VRef l'.
Proof.
  intros H%alike_shape. destruct p as [| | | | | |l']; cbn in H; try (destruct (deref h l); done). by exists l'.
Qed.

Lemma compared_next p v : snd (compared p v) = normal v.
Proof. unfold compared, normal, as_marker. by destruct v. Qed.
Lemma compared_rank p v : rank p < depth -> rank (fst (compared p v)) < depth.
Proof. unfold compared, as_marker. by destruct v, p. Qed.
Lemma compared_prev p v : normal (fst (compared p v)) = normal p.
Proof. unfold compared, normal, as_marker. by destruct v, p. Qed.
Lemma compared_undefined p v : fst (compared p v) = VUndefined -> p = VUndefined /\ v <> VUndefined.
Proof. unfold compared, as_marker. by destruct v, p. Qed.
Lemma compared_equal p v : strict_equal (fst (compared p v)) (snd (compared p v)) = true ->
  normal p = normal v /\ (p = VUndefined -> v = VUndefined).
Proof.
  intros E%strict_equal_eq. split.
  - rewrite <- (compared_prev p v), E, compared_next. unfold normal, as_marker. by destruct v.
  - intros ->. unfold compared in E. by destruct v.
Qed.

(** A value of the old props that gets no update agrees with the new one. *)
Definition unchanged (c : attribute) (p v : value) : Prop :=
  (p = VUndefined -> v = VUndefined) /\ alike (target c p) (target c v).
Lemma unchanged_equal c p v : normal p = normal v -> (p = VUndefined -> v = VUndefined) -> unchanged c p v.
Proof. intros H1 H2. split; [done|]. unfold target. by rewrite H1. Qed.
Lemma unchanged_deep c p v p' : good c -> p' = fst (compared p v) -> alike p' (normal v) -> (exists l, normal v = VRef l) ->
  unchanged c p v.
Proof.
  intros Hg -> Ha [l El]. rewrite El in Ha. destruct (alike_ref_normal _ _ Ha) as [l' El'].
  split; [intros ->; unfold compared in El'; by destruct v|]. unfold target. apply Hg.
  rewrite <- (compared_prev p v), El', El. by rewrite El' in Ha.
Qed.
Lemma unchanged_diff c d pr nested p v : c = Config (Some d) pr nested -> good c ->
  fst (compared p v) <> VUndefined -> d (fst (compared p v)) (normal v) = false -> unchanged c p v.
Proof.
  intros -> Hg Hu Hd. assert (H := good_diff _ Hg). cbn in H. apply H in Hd; [|by destruct v|apply normal_defined].
  split; [|unfold target; by rewrite compared_prev in Hd].
  intros ->. destruct v; try done; by destruct Hu.
Qed.

(** The iteration of the loop over the new props for a leaf. *)
Lemma next_leaf diffNested restore prev next attrs p k s c :
  map_get k attrs = Some c -> good c -> rank (get prev k) < depth ->
  exists b : bool,
    next_prop h depth diffNested restore prev next attrs p k s =
      (Ret (if b then set_slot p k (target c (get next k)) else p), flagged k false s) /\
    (b = false -> slot p k = VUndefined /\ unchanged c (get prev k) (get next k)).
Proof.
  intros Hc Hg Hr. unfold next_prop. rewrite Hc.
  assert (Hp := compared_rank _ (get next k) Hr). assert (Hn := compared_next (get prev k) (get next k)).
  assert (He := compared_equal (get prev k) (get next k)).
  assert (Hu := unchanged_deep c (get prev k) (get next k) _ Hg eq_refl).
  assert (Hx := fun d pr nested E => unchanged_diff c d pr nested (get prev k) (get next k) E Hg).
  assert (Hd := compared_undefined (get prev k) (get next k)).
  destruct (compared (get prev k) (get next k)) as [p' v']. cbn [fst snd] in *. subst v'.
  rewrite (bind_of _ _ _ _ _ (set_removed_run k false s)). destruct (updated p k) eqn:Eu.
  { exists true. split; [|done]. unfold assign_processed. by rewrite (good_leaf _ Hg). }
  assert (Hs : slot p k = VUndefined) by (destruct (decide (slot p k = VUndefined)) as [|Hn%updated_slot]; congruence).
  destruct (strict_equal p' _) eqn:Es.
  { exists false. split; [done|]. intros _. split; [done|]. destruct (He eq_refl). by apply unchanged_equal. }
  destruct (defaultDiffer_run p' (normal (get next k)) (flagged k false s) Hp) as (b & Eb & Hb).
  assert (Hb' : b = false -> unchanged c (get prev k) (get next k)).
  { intros ->. destruct (Hb eq_refl) as [Ha [l Hl]]. by apply Hu; [|exists l]. }
  destruct c as [|d pr nested].
  - exists b. rewrite (bind_of _ _ _ _ _ Eb). split; [by destruct b|auto].
  - rewrite (good_leaf _ Hg). destruct (is_undefined p') eqn:Ep; [by exists true|].
    destruct d as [d|].
    + exists (d p' (normal (get next k))). rewrite bind_ret. split; [by destruct (d _ _)|].
      intros Hf. split; [done|]. eapply Hx; [done| |done]. intros E. by rewrite E in Ep.
    + exists b. rewrite (bind_of _ _ _ _ _ Eb). split; [by destruct b|auto].
Qed.
Lemma prev_leaf clearNested prev next attrs p k s c : map_get k attrs = Some c -> is_leaf c = true ->
  prev_prop clearNested prev next attrs p k s =
    if is_undefined (get next k) && is_undefined (slot p k) && negb (is_undefined (get prev k))
    then remove_prop p k s else (Ret p, s).
Proof.
  intros Hc Hl. unfold prev_prop, updated. rewrite Hc. destruct (is_undefined (get next k)); [|done]. cbn.
  destruct (is_undefined (slot p k)); [|done]. cbn. destruct (is_undefined (get prev k)); [done|]. cbn.
  destruct c; [done|]. by rewrite Hl.
Qed.

(** What the loops do to the slot and the flag of a key. *)
Definition view (k : string) (p : payload) (s : st) : value * bool := (slot p k, is_removed k s).
Definition next_step (attrs : attributes) (prev next : fields) (k : string) (x y : value * bool) : Prop :=
  match map_get k attrs with
  | None => y = x
  | Some c =>
      snd y = false /\
      (fst y = target c (get next k) \/
       fst x = VUndefined /\ fst y = VUndefined /\ unchanged c (get prev k) (get next k))
  end.
Definition prev_step (attrs : attributes) (prev next : fields) (k : string) (x y : value * bool) : Prop :=
  match map_get k attrs with
  | None => y = x
  | Some _ =>
      if is_undefined (get next k) && is_undefined (fst x) && negb (is_undefined (get prev k))
      then y = (VNull, true) else y = x
  end.
Definition good_attributes (attrs : attributes) : Prop := forall k c, map_get k attrs = Some c -> good c.
Definition shallow (f : fields) : Prop := forall k, rank (get f k) < depth.

Lemma next_loop diffNested restore prev next attrs k p s :
  good_attributes attrs -> shallow prev -> NoDup (keys next) -> counted s ->
  exists p' s', fold_each (keys next) p (next_prop h depth diffNested restore prev next attrs) s = (Ret p', s') /\
    counted s' /\
    if decide (k ∈ keys next) then next_step attrs prev next k (view k p s) (view k p' s')
    else view k p' s' = view k p s.
Proof.
  intros Hg Hs Hd Hc. apply (fold_each_at (view k) (fun _ => counted) (next_step attrs prev next k) k); [done..|].
  intros p1 s1 j Hj Hc1. unfold next_step. destruct (map_get j attrs) as [c|] eqn:Ec.
  - destruct (next_leaf diffNested restore prev next attrs p1 j s1 c Ec (Hg _ _ Ec) (Hs j)) as (b & E & Hb).
    eexists _, _. split; [exact E|]. split; [by apply flagged_counted|]. split.
    + intros Hne. unfold view. rewrite flagged_down, decide_False by done. f_equal.
      destruct b; [|done]. by rewrite slot_set, decide_False.
    + intros <-. rewrite Ec. unfold view. cbn [fst snd]. rewrite flagged_down, decide_True by done. split; [done|].
      destruct b; [left; by rewrite slot_set, decide_True|right]. destruct (Hb eq_refl). done.
  - exists p1, s1. unfold next_prop. rewrite Ec. split_and!; try done. intros <-. by rewrite Ec.
Qed.
Lemma prev_loop clearNested prev next attrs k p s :
  good_attributes attrs -> NoDup (keys prev) -> counted s ->
  exists p' s', fold_each (keys prev) p (prev_prop clearNested prev next attrs) s = (Ret p', s') /\
    counted s' /\
    if decide (k ∈ keys prev) then prev_step attrs prev next k (view k p s) (view k p' s')
    else view k p' s' = view k p s.
Proof.
  intros Hg Hd Hc. apply (fold_each_at (view k) (fun _ => counted) (prev_step attrs prev next k) k); [done..|].
  intros p1 s1 j Hj Hc1. unfold prev_step. destruct (map_get j attrs) as [c|] eqn:Ec.
  - rewrite (prev_leaf clearNested prev next attrs p1 j s1 c Ec (good_leaf _ (Hg _ _ Ec))).
    destruct (_ && _) eqn:Eb.
    + destruct (remove_prop_run p1 j s1 Hc1) as (s2 & E & C & F). eexists _, _. split; [exact E|]. split; [done|].
      unfold view. rewrite slot_set, F. split.
      * intros Hne. by rewrite !decide_False.
      * intros <-. rewrite !decide_True by done. cbn. by rewrite Ec, Eb.
    + exists p1, s1. split_and!; try done. intros <-. cbn. by rewrite Ec, Eb.
  - exists p1, s1. unfold prev_prop. rewrite Ec. split_and!; try done; [by destruct (negb _)|]. intros <-. by rewrite Ec.
Qed.

(** *** The invariant of a key of nested attributes *)
(** [P] and [N] are the last definitions of the key so far in the old and the new style. *)
Definition agree (c : attribute) (P N : option value) : Prop :=
  match P, N with
  | None, None => True
  | Some p, Some n => alike (target c p) (target c n)
  | _, _ => False
  end.
Definition tracks (c : attribute) (P N : option value) (x : value * bool) : Prop :=
  fst x = VUndefined /\ agree c P N \/
  (snd x = false /\ exists v, N = Some v /\ fst x = target c v) \/
  (fst x = VNull /\ (snd x = true \/ N = None)).
Definition carries (attrs : attributes) (fa fb : string -> option value) (p : payload) (s : st) (p' : payload) (s' : st)
    : Prop :=
  counted s' /\
  (forall k, map_get k attrs = None -> slot p' k = slot p k) /\
  forall k c P N, map_get k attrs = Some c -> tracks c P N (view k p s) ->
    tracks c (over (fa k) P) (over (fb k) N) (view k p' s').
Definition defined (f : fields) : Prop := forall k, map_get k f <> Some VUndefined.

Lemma get_defined f k : defined f -> get f k = VUndefined <-> map_get k f = None.
Proof.
  intros Hd. unfold get. specialize (Hd k). destruct (map_get k f) as [v|]; cbn; [|done].
  split; [intros ->; by destruct Hd|done].
Qed.
Lemma keys_get {A} (f : list (string * A)) k : k ∈ keys f <-> is_Some (map_get k f).
Proof.
  destruct (map_get k f) as [v|] eqn:E.
  - split; [by eexists|]. intros _. destruct (decide (k ∈ keys f)) as [|Hn]; [done|]. apply map_get_None in Hn. congruence.
  - apply map_get_None in E. split; [done|by intros [? ?]].
Qed.
Lemma leaf_tracks c attrs a b k P N x y z : good c -> map_get k attrs = Some c -> defined a -> defined b ->
  (if decide (k ∈ keys b) then next_step attrs a b k x y else y = x) ->
  (if decide (k ∈ keys a) then prev_step attrs a b k y z else z = y) ->
  tracks c P N x -> tracks c (over (map_get k a) P) (over (map_get k b) N) z.
Proof.
  intros Hg Hc Da Db Hy Hz Hx. unfold next_step, prev_step in *. rewrite Hc in *.
  assert (Ga := get_defined a k Da). assert (Gb := get_defined b k Db).
  destruct (map_get k b) as [n|] eqn:Eb.
  - assert (Hnu : is_undefined (get b k) = false).
    { apply not_true_iff_false. rewrite is_undefined_spec, Gb. done. }
    rewrite decide_True in Hy by (apply keys_get; rewrite Eb; by eexists). rewrite Hnu in Hz. cbn in Hz.
    assert (z = y) as -> by (by destruct (decide _)). destruct Hy as [Hf Hy].
    assert (Hget : get b k = n) by (unfold get; by rewrite Eb). rewrite Hget in Hy. cbn [over].
    destruct Hy as [Hy|(H1 & H2 & H3 & H4)]; [right; left; split; [done|]; by exists n|].
    left. split; [done|]. destruct (map_get k a) as [pv|] eqn:Ea; cbn.
    + assert (Hga : get a k = pv) by (unfold get; by rewrite Ea). by rewrite Hga in H4.
    + exfalso. rewrite <- Hget in H3. specialize (H3 (proj2 Ga eq_refl)). apply Gb in H3. done.
  - rewrite decide_False in Hy by (rewrite keys_get, Eb; by intros []). subst y. cbn [over].
    rewrite (proj2 (is_undefined_spec _) (proj2 Gb eq_refl)) in Hz. cbn in Hz.
    destruct (map_get k a) as [pv|] eqn:Ea; cbn [over].
    + rewrite decide_True in Hz by (apply keys_get; rewrite Ea; by eexists).
      assert (Hpu : is_undefined (get a k) = false) by (apply not_true_iff_false; rewrite is_undefined_spec, Ga; done).
      rewrite Hpu in Hz. destruct (is_undefined (fst x)) eqn:Ex; cbn in Hz; subst z.
      * right. right. split; [done|by left].
      * destruct Hx as [[Hx _]|[Hx|Hx]]; [by rewrite Hx in Ex|by right; left|by right; right].
    + rewrite decide_False in Hz by (rewrite keys_get, Ea; by intros []). by subst z.
Qed.
Lemma diffProperties_leaf n p a b attrs s :
  good_attributes attrs -> shallow a -> NoDup (keys a) -> NoDup (keys b) -> defined a -> defined b -> counted s ->
  exists p' s', diffProperties h depth (S n) p a b attrs s = (Ret p', s') /\
    carries attrs (fun k => map_get k a) (fun k => map_get k b) p s p' s'.
Proof.
  intros Hg Hs Ha Hb Da Db Hc. rewrite diffProperties_S.
  assert (H1 := fun k => next_loop (diffNestedProperty h depth n) (restoreDeletedValuesInNestedArray h depth)
    a b attrs k p s Hg Hs Hb Hc).
  destruct (H1 "") as (p1 & s1 & E1 & C1 & _). rewrite (bind_of _ _ _ _ _ E1).
  assert (H2 := fun k => prev_loop (clearNestedProperty h depth n) a b attrs k p1 s1 Hg Ha C1).
  destruct (H2 "") as (p2 & s2 & E2 & C2 & _).
  exists p2, s2. split; [exact E2|]. split; [done|].
  assert (R1 : forall k, if decide (k ∈ keys b) then next_step attrs a b k (view k p s) (view k p1 s1)
    else view k p1 s1 = view k p s).
  { intros k. destruct (H1 k) as (? & ? & E & _ & R). rewrite E1 in E. by injection E as <- <-. }
  assert (R2 : forall k, if decide (k ∈ keys a) then prev_step attrs a b k (view k p1 s1) (view k p2 s2)
    else view k p2 s2 = view k p1 s1).
  { intros k. destruct (H2 k) as (? & ? & E & _ & R). rewrite E2 in E. by injection E as <- <-. }
  split.
  - intros k Hk. specialize (R1 k). specialize (R2 k). unfold next_step, prev_step in *. rewrite Hk in *.
    assert (view k p2 s2 = view k p s) as [=]%(f_equal fst) by (repeat case_decide; congruence). done.
  - intros k c P Q Hk. exact (leaf_tracks c attrs a b k P Q _ _ _ (Hg _ _ Hk) Hk Da Db (R1 k) (R2 k)).
Qed.

(** *** Styles *)
Inductive defined_style (v : value) : Prop :=
  | Defined_style :
      (elements h v = None -> defined (fields_of h v)) ->
      (forall elems e, elements h v = Some elems -> e ∈ elems -> defined_style e) ->
      defined_style v.
Lemma defined_leaf v : defined_style v -> elements h v = None -> defined (fields_of h v).
Proof. by intros [H _]. Qed.
Lemma defined_element v elems e : defined_style v -> elements h v = Some elems -> e ∈ elems -> defined_style e.
Proof. intros [_ H]. apply H. Qed.

Lemma last_of_Some {A B} (f : A -> option B) l x : last_of f l = Some x -> exists e, e ∈ l /\ f e = Some x.
Proof.
  induction l as [|e l IH]; [done|]. rewrite last_of_cons. destruct (last_of f l) as [y|]; cbn.
  - intros [= ->]. destruct (IH eq_refl) as (e' & ? & ?). exists e'. split; [by right|done].
  - intros E. exists e. split; [by left|done].
Qed.
(** A field of a flattened style is a field of one of the objects in it. *)
Lemma flat_entry v k x : map_get k (flat v) = Some x -> exists u,
  rank u <= rank v /\ map_get k (fields_of h u) = Some x /\ elements h u = None /\ (defined_style v -> defined_style u).
Proof.
  remember (rank v) as n eqn:Hn. revert v x Hn. induction (lt_wf n) as [n _ IH]. intros v x ->.
  destruct (elements h v) as [elems|] eqn:E.
  - rewrite (flat_array h v elems k Hac Hdk E). intros (e & He & Hx)%last_of_Some.
    assert (Hr := elements_rank h v elems e Hac E He).
    destruct (IH (rank e) ltac:(lia) e x eq_refl Hx) as (u & U1 & U2 & U3 & U4).
    exists u. split_and!; [lia|done|done|]. intros D. by eapply U4, defined_element.
  - rewrite flat_leaf by done. intros Hx. exists v. split_and!; auto.
Qed.
Lemma flat_defined v : defined_style v -> defined (flat v).
Proof.
  intros D k (u & _ & Hu & El & Du)%flat_entry. apply (defined_leaf u (Du D) El k Hu).
Qed.
Lemma fields_rank u k x : map_get k (fields_of h u) = Some x -> S (rank x) <= rank u.
Proof.
  intros Hx. destruct u as [| | | | | |l]; try done. cbn in *. destruct (deref h l) as [f|a] eqn:E; [|done].
  destruct (get_entry f k) as [|(y & Hy & Hin)]; [congruence|]. assert (x = y) as -> by congruence.
  specialize (Hac l y (contents_field h _ _ _ _ E Hin)). lia.
Qed.
Lemma flat_shallow v : rank v < depth -> shallow (flat v).
Proof.
  intros Hr k. unfold get. destruct (map_get k (flat v)) as [x|] eqn:E; cbn; [|lia].
  apply flat_entry in E as (u & U1 & U2 & _). apply fields_rank in U2. lia.
Qed.
Lemma flat_falsy v : truthy v = false -> flat v = [].
Proof. by destruct v. Qed.
Lemma flat_leaf_keys v : elements h v = None -> NoDup (keys (fields_of h v)).
Proof. intros E. rewrite <- flat_leaf by done. by apply flat_keys. Qed.

(** [carries] for sequences of steps. *)
Lemma carries_refl attrs p s : counted s -> carries attrs (fun _ => None) (fun _ => None) p s p s.
Proof. intros Hc. split_and!; auto. Qed.
Lemma carries_trans attrs fa fb fa' fb' p s p1 s1 p2 s2 :
  carries attrs fa fb p s p1 s1 -> carries attrs fa' fb' p1 s1 p2 s2 ->
  carries attrs (fun k => over (fa' k) (fa k)) (fun k => over (fb' k) (fb k)) p s p2 s2.
Proof.
  intros (_ & S1 & T1) (C2 & S2 & T2). split_and!; [done| |].
  - intros k Hk. by rewrite S2, S1.
  - intros k c P N Hk H. rewrite <- !over_assoc. by apply T2, T1.
Qed.
Lemma carries_ext attrs fa fb fa' fb' p s p' s' :
  (forall k, fa k = fa' k) -> (forall k, fb k = fb' k) ->
  carries attrs fa fb p s p' s' -> carries attrs fa' fb' p s p' s'.
Proof. intros Ha Hb (C & S & T). split_and!; [done..|]. intros k c P N Hk. rewrite <- Ha, <- Hb. by apply T. Qed.
Lemma carries_each {A} attrs (fa fb : A -> string -> option value) (f : payload -> A -> JS st payload) l p s :
  counted s ->
  (forall p s x, x ∈ l -> counted s -> exists p' s', f p x s = (Ret p', s') /\ carries attrs (fa x) (fb x) p s p' s') ->
  exists p' s', fold_each l p f s = (Ret p', s') /\
    carries attrs (fun k => last_of (fun x => fa x k) l) (fun k => last_of (fun x => fb x k) l) p s p' s'.
Proof.
  revert p s. induction l as [|x l IH]; intros p s Hc Hf; cbn [fold_each].
  { exists p, s. split; [done|]. by apply carries_refl. }
  destruct (Hf p s x) as (p1 & s1 & E1 & C1); [left|done|].
  destruct (IH p1 s1) as (p2 & s2 & E2 & C2); [apply C1|intros; apply Hf; [by right|done]|].
  exists p2, s2. rewrite (bind_of _ _ _ _ _ E1). split; [done|].
  eapply carries_ext; [| |eapply carries_trans; [exact C1|exact C2]]; intros k; by rewrite last_of_cons.
Qed.

Section Nested.
Context (attrs : attributes) (Hg : good_attributes attrs).
(** Reads a style that the code can handle with this fuel. *)
Definition readable (n : nat) (v : value) : Prop := defined_style v /\ rank v < depth /\ rank v + 2 <= n.
Lemma readable_element n v elems e : readable (S n) v -> elements h v = Some elems -> e ∈ elems -> readable n e.
Proof.
  intros (D & R1 & R2) E He. assert (Hr := elements_rank h v elems e Hac E He).
  split_and!; [by eapply defined_element|lia..].
Qed.
Lemma readable_with_more n v : readable n v -> readable (S n) v.
Proof. intros (D & R1 & R2). split_and!; [done..|lia]. Qed.
Lemma leaf_fields n v : readable n v -> elements h v = None ->
  shallow (fields_of h v) /\ NoDup (keys (fields_of h v)) /\ defined (fields_of h v).
Proof.
  intros (D & R1 & R2) E. split_and!; [|by apply flat_leaf_keys|by apply defined_leaf].
  rewrite <- flat_leaf by done. by apply flat_shallow.
Qed.
Lemma no_fields : 0 < depth -> shallow [].
Proof. intros H k. done. Qed.

Lemma addNested_carries n p v s : readable n v -> counted s -> exists p' s',
  addNestedProperty h depth n p v attrs s = (Ret p', s') /\
  carries attrs (fun _ => None) (fun k => map_get k (flat v)) p s p' s'.
Proof.
  revert p v s. induction n as [|n IH]; intros p v s R Hc; [destruct R; lia|]. rewrite addNestedProperty_S.
  destruct (truthy v) eqn:Et; cbn [negb].
  2:{ exists p, s. rewrite (flat_falsy v Et). split; [done|]. by apply carries_refl. }
  destruct (elements h v) as [l|] eqn:E.
  - destruct (carries_each attrs (fun _ _ => None) (fun e k => map_get k (flat e))
      (fun p a => addNestedProperty h depth n p a attrs) l p s Hc) as (p' & s' & E1 & C1).
    { intros p1 s1 e He Hc1. apply IH; [by eapply readable_element|done]. }
    exists p', s'. split; [done|]. eapply carries_ext; [| |exact C1]; intros k; cbn.
    + apply last_of_None.
    + by rewrite (flat_array h v l k Hac Hdk E).
  - rewrite (flat_leaf h v E). destruct n as [|n]; [destruct R as (_ & _ & R); lia|].
    destruct (leaf_fields _ v R E) as (F1 & F2 & F3).
    apply (diffProperties_leaf n p [] (fields_of h v) attrs s); try done; [apply no_fields; destruct R; lia|constructor].
Qed.
Lemma clearNested_carries n p v s : readable n v -> counted s -> exists p' s',
  clearNestedProperty h depth n p v attrs s = (Ret p', s') /\
  carries attrs (fun k => map_get k (flat v)) (fun _ => None) p s p' s'.
Proof.
  revert p v s. induction n as [|n IH]; intros p v s R Hc; [destruct R; lia|]. rewrite clearNestedProperty_S.
  destruct (truthy v) eqn:Et; cbn [negb].
  2:{ exists p, s. rewrite (flat_falsy v Et). split; [done|]. by apply carries_refl. }
  destruct (elements h v) as [l|] eqn:E.
  - destruct (carries_each attrs (fun e k => map_get k (flat e)) (fun _ _ => None)
      (fun p a => clearNestedProperty h depth n p a attrs) l p s Hc) as (p' & s' & E1 & C1).
    { intros p1 s1 e He Hc1. apply IH; [by eapply readable_element|done]. }
    exists p', s'. split; [done|]. eapply carries_ext; [| |exact C1]; intros k; cbn.
    + by rewrite (flat_array h v l k Hac Hdk E).
    + apply last_of_None.
  - rewrite (flat_leaf h v E). destruct n as [|n]; [destruct R as (_ & _ & R); lia|].
    destruct (leaf_fields _ v R E) as (F1 & F2 & F3).
    apply (diffProperties_leaf n p (fields_of h v) [] attrs s); try done; constructor.
Qed.

(** A style of which nothing has changed yet, and which is the same. *)
Lemma carries_same p s v : p = None -> counted s ->
  carries attrs (fun k => map_get k (flat v)) (fun k => map_get k (flat v)) p s p s.
Proof.
  intros -> Hc. split_and!; [done..|]. intros k c P N Hk [[H1 H2]|[(H1 & x & -> & H2)|[H1 _]]].
  - left. split; [done|]. destruct (map_get k (flat v)) as [x|]; [|done]. cbn. done.
  - exfalso. cbn in H2. by apply (target_defined c x (Hg _ _ Hk)).
  - done.
Qed.
Lemma flat_fields_readable n v : readable n v ->
  shallow (flat v) /\ NoDup (keys (flat v)) /\ defined (flat v).
Proof. intros (D & R1 & R2). split_and!; [by apply flat_shallow|by apply flat_keys|by apply flat_defined]. Qed.

Lemma zip_last_fst {A} (f : value -> option A) (l1 l2 : list value) :
  last_of (fun e => f (fst e)) (zip l1 l2) = last_of f (take (Nat.min (length l1) (length l2)) l1).
Proof.
  revert l2. induction l1 as [|x l1 IH]; intros [|y l2]; try done. cbn -[last_of]. by rewrite !last_of_cons, IH.
Qed.
Lemma zip_last_snd {A} (f : value -> option A) (l1 l2 : list value) :
  last_of (fun e => f (snd e)) (zip l1 l2) = last_of f (take (Nat.min (length l1) (length l2)) l2).
Proof.
  revert l2. induction l1 as [|x l1 IH]; intros [|y l2]; try done. cbn -[last_of]. by rewrite !last_of_cons, IH.
Qed.
Lemma array_carries n p l1 l2 s :
  (forall e, e ∈ l1 -> readable n e) -> (forall e, e ∈ l2 -> readable n e) -> counted s ->
  (forall p v w s, readable n v -> readable n w -> counted s -> exists p' s',
     diffNestedProperty h depth (S n) p v w attrs s = (Ret p', s') /\
     carries attrs (fun k => map_get k (flat v)) (fun k => map_get k (flat w)) p s p' s') ->
  exists p' s', diffNestedArrayProperty (fun p a b => diffNestedProperty h depth (S n) p a b attrs)
      (fun p a => clearNestedProperty h depth (S n) p a attrs) (fun p a => addNestedProperty h depth (S n) p a attrs) p l1 l2 s
      = (Ret p', s') /\
    carries attrs (fun k => last_def h k l1) (fun k => last_def h k l2) p s p' s'.
Proof.
  intros R1 R2 Hc IH. unfold diffNestedArrayProperty. set (m := Nat.min (length l1) (length l2)).
  destruct (carries_each attrs (fun e k => map_get k (flat (fst e))) (fun e k => map_get k (flat (snd e)))
    (fun p e => diffNestedProperty h depth (S n) p (fst e) (snd e) attrs) (zip l1 l2) p s Hc) as (p1 & s1 & E1 & C1).
  { intros p' s' [x y] Hin Hc'. apply IH; [by eapply R1, elem_of_zip_l|by eapply R2, elem_of_zip_r|done]. }
  destruct (carries_each attrs (fun e k => map_get k (flat e)) (fun _ _ => None)
    (fun p a => clearNestedProperty h depth (S n) p a attrs) (drop m l1) p1 s1 (proj1 C1)) as (p2 & s2 & E2 & C2).
  { intros p' s' x Hin Hc'. apply clearNested_carries; [|done]. apply readable_with_more, R1. rewrite <- (take_drop m l1). apply elem_of_app. by right. }
  destruct (carries_each attrs (fun _ _ => None) (fun e k => map_get k (flat e))
    (fun p a => addNestedProperty h depth (S n) p a attrs) (drop m l2) p2 s2 (proj1 C2)) as (p3 & s3 & E3 & C3).
  { intros p' s' x Hin Hc'. apply addNested_carries; [|done]. apply readable_with_more, R2. rewrite <- (take_drop m l2). apply elem_of_app. by right. }
  exists p3, s3. rewrite (bind_of _ _ _ _ _ E1), (bind_of _ _ _ _ _ E2). split; [done|].
  eapply carries_ext; [| |eapply carries_trans; [exact C1|eapply carries_trans; [exact C2|exact C3]]]; intros k; cbn.
  - rewrite !last_of_None. cbn. rewrite (zip_last_fst (fun e => map_get k (flat e))). fold m. unfold last_def.
    rewrite <- (take_drop m l1) at 3. by rewrite last_of_app.
  - rewrite !last_of_None, over_None. rewrite (zip_last_snd (fun e => map_get k (flat e))). fold m. unfold last_def.
    rewrite <- (take_drop m l2) at 3. by rewrite last_of_app.
Qed.
Lemma diffNested_carries n p v w s : readable n v -> readable n w -> counted s -> exists p' s',
  diffNestedProperty h depth (S n) p v w attrs s = (Ret p', s') /\
  carries attrs (fun k => map_get k (flat v)) (fun k => map_get k (flat w)) p s p' s'.
Proof.
  revert p v w s. induction n as [|n IH]; intros p v w s Rv Rw Hc; [destruct Rv; lia|]. rewrite diffNestedProperty_S.
  destruct (_ && _) eqn:Es.
  { apply andb_true_iff in Es as [Hp%bool_decide_eq_true ->%strict_equal_eq].
    exists p, s. split; [done|]. by apply carries_same. }
  clear Es. destruct (truthy w) eqn:Tw; [destruct (truthy v) eqn:Tv|]; cbn [negb orb].
  3:{ rewrite orb_true_r, (flat_falsy w Tw). destruct (truthy v) eqn:Tv; [by apply clearNested_carries|].
      rewrite (flat_falsy v Tv). exists p, s. split; [done|]. by apply carries_refl. }
  2:{ rewrite (flat_falsy v Tv). by apply addNested_carries. }
  destruct (elements h v) as [l1|] eqn:Ev, (elements h w) as [l2|] eqn:Ew.
  - destruct (array_carries n p l1 l2 s) as (p' & s' & E & C); [intros e He; by apply (readable_element n v l1)|
      intros e He; by apply (readable_element n w l2)|done|exact IH|].
    exists p', s'. split; [exact E|]. eapply carries_ext; [| |exact C]; intros k;
      [by rewrite (flat_array h v l1 k Hac Hdk Ev)|by rewrite (flat_array h w l2 k Hac Hdk Ew)].
  - rewrite (bind_of _ _ _ _ _ (flattened_run h depth v s Hac (proj1 (proj2 Rv)))).
    destruct (flat_fields_readable _ v Rv) as (F1 & F2 & F3). destruct (leaf_fields _ w Rw Ew) as (G1 & G2 & G3).
    rewrite (flat_leaf h w Ew). by apply diffProperties_leaf.
  - rewrite (bind_of _ _ _ _ _ (flattened_run h depth w s Hac (proj1 (proj2 Rw)))).
    destruct (flat_fields_readable _ w Rw) as (F1 & F2 & F3). destruct (leaf_fields _ v Rv Ev) as (G1 & G2 & G3).
    rewrite (flat_leaf h v Ev). by apply diffProperties_leaf.
  - destruct (leaf_fields _ v Rv Ev) as (F1 & F2 & F3). destruct (leaf_fields _ w Rw Ew) as (G1 & G2 & G3).
    rewrite (flat_leaf h v Ev), (flat_leaf h w Ew). by apply diffProperties_leaf.
Qed.

(** *** Restoring what was removed *)
Definition restored (k : string) (d : option value) (x y : value * bool) : Prop :=
  match map_get k attrs, d with
  | Some c, Some v => if snd x then y = (target c v, false) else y = x
  | _, _ => y = x
  end.
Lemma restored_down k d x : snd x = false -> restored k d x x.
Proof. intros H. unfold restored. destruct (map_get k attrs), d; rewrite ?H; done. Qed.
Lemma restored_trans k d1 d2 x y z : restored k d1 x y -> restored k d2 y z -> restored k (over d1 d2) x z.
Proof.
  unfold restored. destruct (map_get k attrs) as [c|]; [|by intros -> ->]. destruct d1 as [v|]; cbn; [|by intros ->].
  destruct (snd x) eqn:Ex; intros -> H; [by destruct d2|]. rewrite Ex in H. by destruct d2.
Qed.
Lemma restore_key_run f p s k : defined f -> counted s -> exists p' s',
  restore_key attrs f p k s = (Ret p', s') /\ counted s' /\
  restored k (map_get k f) (view k p s) (view k p' s') /\
  forall j, j <> k -> view j p' s' = view j p s.
Proof.
  intros Df Hc. unfold restore_key. rewrite bind_gets. destruct (is_removed k s) eqn:Ek; cbn [negb].
  2:{ exists p, s. split_and!; [done|done| |done]. by apply restored_down. }
  destruct (map_get k f) as [v|] eqn:Ev.
  2:{ exists p, s. unfold get. rewrite Ev. split_and!; [done|done| |done]. unfold restored. by destruct (map_get k attrs). }
  assert (Hv : get f k = v) by (unfold get; by rewrite Ev). rewrite Hv.
  assert (Hu : is_undefined v = false).
  { apply not_true_iff_false. rewrite is_undefined_spec. intros ->. by apply (Df k). }
  rewrite Hu. unfold restored. destruct (map_get k attrs) as [c|] eqn:Ec; [|by exists p, s].
  rewrite (bind_of _ _ _ _ _ (set_removed_run k false s)), bind_modify. eexists _, _. split; [done|].
  assert (Hl := good_leaf _ (Hg _ _ Ec)). unfold assign_processed. rewrite Hl.
  assert (Ht : processed c (as_marker v) = target c v) by (unfold target, normal; by rewrite Hu). rewrite Ht.
  split_and!.
  - unfold counted, flagged, final, set_removed, is_removed in *. cbn. destruct (removedKeys s) as [m|] eqn:Em; [|done].
    cbn in *. destruct Hc as [Hn Hc]. split; [by apply map_set_NoDup|]. rewrite up_set, Ek. cbn. lia.
  - unfold view. cbn [snd]. rewrite Ek. f_equal; [by rewrite slot_set, decide_True|].
    transitivity (is_removed k (flagged k false s)); [done|]. by rewrite flagged_down, decide_True.
  - intros j Hj. unfold view. f_equal; [by rewrite slot_set, decide_False|].
    transitivity (is_removed j (flagged k false s)); [done|]. by rewrite flagged_down, decide_False.
Qed.
Lemma no_flags s k : counted s -> (removedKeyCount s <= 0)%Z -> is_removed k s = false.
Proof. intros Hc H. apply not_true_iff_false. intros E. apply counted_removed in E; [lia|done]. Qed.
Lemma restore_leaf f p s k : defined f -> counted s -> exists p' s',
  fold_each (keys (default [] (removedKeys s))) p (restore_key attrs f) s = (Ret p', s') /\ counted s' /\
  restored k (map_get k f) (view k p s) (view k p' s').
Proof.
  intros Df Hc.
  destruct (fold_each_at (view k) (fun _ => counted) (restored k (map_get k f)) k (restore_key attrs f)
    (keys (default [] (removedKeys s))) p s) as (p' & s' & E & C & R); [apply Hc|done| |].
  - intros p1 s1 j Hj Hc1. destruct (restore_key_run f p1 s1 j Df Hc1) as (p2 & s2 & E & C & R & F).
    exists p2, s2. split_and!; [done|done| |]; [intros Hne; apply F; congruence|by intros <-].
  - exists p', s'. split_and!; [done|done|]. destruct (decide _) as [|Hn]; [done|]. rewrite R. apply restored_down.
    apply not_true_iff_false. unfold view, is_removed. cbn. intros E'. apply Hn, keys_get.
    destruct (removedKeys s) as [m|]; [|done]. cbn in *. destruct (map_get k m); [by eexists|done].
Qed.
Lemma restore_run n p node s k : rank node < n -> defined_style node -> counted s -> exists p' s',
  restoreDeletedValuesInNestedArray h n p node attrs s = (Ret p', s') /\ counted s' /\
  restored k (map_get k (flat node)) (view k p s) (view k p' s').
Proof.
  revert p node s. induction n as [|n IH]; intros p node s Hr D Hc; [lia|]. cbn [restoreDeletedValuesInNestedArray].
  destruct (elements h node) as [elems|] eqn:E.
  - rewrite (flat_array h node elems k Hac Hdk E).
    replace (last_def h k elems) with (last_def h k (reverse (reverse elems))) by (by rewrite reverse_involutive).
    assert (He : forall e, e ∈ reverse elems -> rank e < n /\ defined_style e).
    { intros e He. rewrite elem_of_reverse in He. assert (H := elements_rank h node elems e Hac E He). split; [lia|]. by eapply defined_element. }
    clear E Hr D node. revert p s Hc He. generalize (reverse elems) as l. intros l. induction l as [|e l IHl]; intros p s Hc He.
    { exists p, s. split_and!; [done..|]. unfold restored. by destruct (map_get k attrs). }
    rewrite reverse_cons. unfold last_def. rewrite last_of_app. cbn [fold_each].
    assert (H1 : exists p1 s1, (let! count := gets removedKeyCount in
        if (0 <? count)%Z then restoreDeletedValuesInNestedArray h n p e attrs else ret p) s = (Ret p1, s1) /\
        counted s1 /\ restored k (map_get k (flat e)) (view k p s) (view k p1 s1)).
    { rewrite bind_gets. destruct (Z.ltb_spec 0 (removedKeyCount s)).
      - apply IH; [apply He; left|apply He; left|done].
      - exists p, s. split_and!; [done|done|]. by apply restored_down, no_flags. }
    destruct H1 as (p1 & s1 & E1 & C1 & R1). rewrite (bind_of _ _ _ _ _ E1).
    destruct (IHl p1 s1 C1) as (p2 & s2 & E2 & C2 & R2); [intros; apply He; by right|].
    exists p2, s2. split_and!; [done|done|]. unfold last_def in R2. rewrite last_of_cons. eapply restored_trans; done.
  - rewrite bind_gets. destruct (truthy node) eqn:Et; cbn [andb].
    2:{ exists p, s. split_and!; [done..|]. rewrite (flat_falsy node Et). unfold restored. by destruct (map_get k attrs). }
    destruct (Z.ltb_spec 0 (removedKeyCount s)).
    + rewrite bind_gets, (flat_leaf h node E). apply restore_leaf; [by apply defined_leaf|done].
    + exists p, s. split_and!; [done|done|]. by apply restored_down, no_flags.
Qed.

(** What a key of nested attributes ends with: an update to the new value, or none. *)
Definition settled (c : attribute) (P N : option value) (x : value) : Prop :=
  x = VUndefined /\ agree c P N \/
  x = match N with Some v => target c v | None => VNull end.
Lemma tracks_restored k c P N x y : map_get k attrs = Some c -> tracks c P N x -> restored k N x y -> settled c P N (fst y).
Proof.
  intros Hc Hx Hy. unfold restored in Hy. rewrite Hc in Hy. destruct N as [v|].
  - destruct (snd x) eqn:Ex; subst y; [by right|].
    destruct Hx as [Hx|[(_ & w & [= <-] & Hx)|(_ & [Hx|Hx])]]; [by left|by right|congruence|done].
  - subst y. destruct Hx as [Hx|[(_ & w & Hx & _)|(Hx & _)]]; [by left|done|by right].
Qed.
End Nested.

(** ** Props and their nested attributes *)
Section Props.
(** [used]: the props that are ever given to the view. *)
Context (attrs : attributes) (used : string -> Prop).
Definition at_top (k : string) (c : attribute) : Prop := used k /\ map_get k attrs = Some c.
Definition group (g : string) (sub : attributes) : Prop := at_top g (Config None None sub).
(** Every attribute is a leaf or a group of leaves, and no name is used twice. *)
Record well_laid : Prop := {
  laid_good k c : at_top k c -> good c \/ exists sub, c = Config None None sub /\ good_attributes sub;
  laid_apart g sub k : group g sub -> is_Some (map_get k sub) -> forall c, ~ at_top k c;
  laid_once g g' sub sub' k : group g sub -> group g' sub' -> is_Some (map_get k sub) -> is_Some (map_get k sub') -> g' = g
}.
Context (W : well_laid) (n : nat) (Hn : depth + 1 <= n).
Record proper (props : fields) : Prop := {
  proper_keys : NoDup (keys props);
  proper_used k : k ∈ keys props -> used k;
  proper_rank : shallow props;
  proper_style g sub : group g sub -> defined_style (get props g)
}.

(** Where native gets what it shows for a key, and what that is. *)
Inductive source := FromProp (c : attribute) | FromStyle (g : string) (c : attribute).
Definition is_source (k : string) (o : source) : Prop :=
  match o with
  | FromProp c => at_top k c /\ is_leaf c = true
  | FromStyle g c => exists sub, group g sub /\ map_get k sub = Some c
  end.
Definition style_value (c : attribute) (v : option value) : value :=
  match v with Some v => target c v | None => VNull end.
Definition shown (o : source) (props : fields) (k : string) : value :=
  match o with
  | FromProp c => if is_undefined (get props k) then VNull else target c (get props k)
  | FromStyle g c => style_value c (map_get k (flat (get props g)))
  end.
Definition owner (k : string) (o : source) : string :=
  match o with FromProp _ => k | FromStyle g _ => g end.

Lemma group_good g sub : group g sub -> good_attributes sub.
Proof.
  intros G. destruct (laid_good W _ _ G) as [H|(sub' & [= <-] & H)]; [|done]. by apply good_leaf in H.
Qed.
Lemma leaf_good k c : at_top k c -> is_leaf c = true -> good c.
Proof. intros T L. destruct (laid_good W _ _ T) as [H|(sub & -> & _)]; [done|]. done. Qed.
Lemma not_leaf_group k c : at_top k c -> is_leaf c = false -> exists sub, c = Config None None sub /\ group k sub.
Proof.
  intros T L. destruct (laid_good W _ _ T) as [H|(sub & -> & _)]; [|by exists sub].
  apply good_leaf in H. congruence.
Qed.
(** The iteration for [j] only touches the slots it owns. *)
Lemma owner_of_leaf k o j c : is_source k o -> at_top j c -> is_leaf c = true -> j <> owner k o -> j <> k.
Proof.
  intros Ho T L Hne ->. destruct o as [c'|g c']; cbn in *; [done|].
  destruct Ho as (sub & G & E). eapply (laid_apart W g sub k G); [by eexists|exact T].
Qed.
Lemma owner_of_group k o j sub : is_source k o -> group j sub -> j <> owner k o -> map_get k sub = None.
Proof.
  intros Ho G Hne. destruct (map_get k sub) as [c|] eqn:E; [|done]. exfalso.
  destruct o as [c'|g c']; cbn in *.
  - destruct Ho as [T _]. eapply (laid_apart W j sub k G); [by eexists|exact T].
  - destruct Ho as (sub' & G' & E'). apply Hne, (laid_once W g j sub' sub k); try done; by eexists.
Qed.

(** Between iterations: the names of groups have no slot. *)
Definition tidy (p : payload) (s : st) : Prop := counted s /\ forall g sub, group g sub -> slot p g = VUndefined.

(** A leaf that is settled: updated to the new value, or shown like it before. *)
Definition settled_prop (c : attribute) (v w x : value) : Prop :=
  x = VUndefined /\
    alike (if is_undefined v then VNull else target c v) (if is_undefined w then VNull else target c w) \/
  x = if is_undefined w then VNull else target c w.
Lemma unchanged_settled c v w : good c -> unchanged c v w -> settled_prop c v w VUndefined.
Proof.
  intros Hg [H1 H2]. left. split; [done|]. destruct (is_undefined v) eqn:Ev.
  - apply is_undefined_spec in Ev. rewrite (H1 Ev). done.
  - destruct (is_undefined w) eqn:Ew; [|done]. apply is_undefined_spec in Ew as ->.
    change (target c VUndefined) with (processed c VNull) in H2. by rewrite (good_null _ Hg) in H2.
Qed.
Lemma updated_settled c v w : good c -> settled_prop c v w (target c w).
Proof.
  intros Hg. right. destruct (is_undefined w) eqn:Ew; [|done]. apply is_undefined_spec in Ew as ->. apply (good_null _ Hg).
Qed.

Section Step.
Context (prev next : fields) (Pp : proper prev) (Pn : proper next).

Lemma scalar_readable u v : rank u = 0 -> elements h u = None -> fields_of h u = [] -> readable n v -> readable n u.
Proof.
  intros R1 R2 R3 (_ & Ra & Rb). split_and!; [|lia..]. constructor; [by rewrite R3|by rewrite R2].
Qed.
Lemma compared_readable v w : readable n v -> readable n (fst (compared v w)).
Proof.
  intros R. unfold compared, as_marker. destruct (is_function w); cbn.
  - destruct (is_function v); [by apply (scalar_readable _ v)|done].
  - destruct (is_undefined w); cbn; [|done]. destruct (is_undefined v); [by apply (scalar_readable _ v)|done].
Qed.
Lemma normal_readable v : readable n v -> readable n (normal v).
Proof.
  intros R. unfold normal, as_marker. destruct (is_undefined v); [by apply (scalar_readable _ v)|].
  destruct (is_function v); [by apply (scalar_readable _ v)|done].
Qed.
Lemma proper_readable f g sub : proper f -> group g sub -> readable n (get f g).
Proof.
  intros Pf G. assert (R := proper_rank _ Pf g). split_and!; [by eapply proper_style|done|lia].
Qed.
Lemma flat_compared v w : flat (fst (compared v w)) = flat v.
Proof. by destruct v, w. Qed.
Lemma flat_normal v : flat (normal v) = flat v.
Proof. by destruct v. Qed.
Lemma agree_refl c v : agree c v v.
Proof. by destruct v. Qed.

(** The nested attributes of a group start with no removed keys. *)
Definition start (s : st) : st := set_removedKeyCount 0 (set_removedKeys None s).
Lemma start_counted s : counted (start s).
Proof. split; [constructor|done]. Qed.
Lemma settled_fresh c P N x : good c -> tracks c P N x -> fst x = VUndefined -> settled c P N (fst x).
Proof.
  intros Hg [H|[(_ & v & _ & H)|(H & _)]] Hx; [by left| |congruence].
  exfalso. apply (target_defined c v Hg). congruence.
Qed.
Lemma end_counted s : counted s -> counted (set_removedKeys None s).
Proof.
  intros [_ H]. split; [constructor|]. cbn. assert (H0 := up_nonneg (default [] (removedKeys s))). lia.
Qed.
Lemma group_step sub p s v w : good_attributes sub -> readable n v -> readable n w -> exists p' s',
  (do! modify (fun s => set_removedKeyCount 0 (set_removedKeys None s));
   let! p := diffNestedProperty h depth (S n) p v w sub in
   let! count := gets removedKeyCount in
   if (0 <? count)%Z && bool_decide (is_Some p) then
     let! p := restoreDeletedValuesInNestedArray h depth p w sub in
     do! modify (set_removedKeys None);
     ret p
   else ret p) s = (Ret p', s') /\ counted s' /\
  (forall k, map_get k sub = None -> slot p' k = slot p k) /\
  forall k c, map_get k sub = Some c -> slot p k = VUndefined ->
    settled c (map_get k (flat v)) (map_get k (flat w)) (slot p' k).
Proof.
  intros Hg Rv Rw. rewrite bind_modify. fold (start s).
  destruct (diffNested_carries sub Hg n p v w (start s) Rv Rw (start_counted s)) as (p1 & s1 & E1 & C1 & S1 & T1).
  rewrite (bind_of _ _ _ _ _ E1), bind_gets.
  assert (T : forall k c, map_get k sub = Some c -> slot p k = VUndefined ->
    tracks c (map_get k (flat v)) (map_get k (flat w)) (view k p1 s1)).
  { intros k c Hk Hu. rewrite <- (over_None (map_get k (flat v))), <- (over_None (map_get k (flat w))).
    apply T1; [done|]. by left. }
  destruct (_ && _) eqn:Eb.
  - assert (HR := fun k => restore_run sub Hg depth p1 w s1 k (proj1 (proj2 Rw)) (proj1 Rw) C1).
    destruct (HR "") as (p2 & s2 & E2 & C2 & _). rewrite (bind_of _ _ _ _ _ E2), bind_modify.
    assert (R : forall k, restored sub k (map_get k (flat w)) (view k p1 s1) (view k p2 s2)).
    { intros k. destruct (HR k) as (? & ? & E & _ & R). rewrite E2 in E. by injection E as <- <-. }
    eexists _, _. split_and!; [done|by apply end_counted| |].
    + intros k Hk. rewrite <- S1 by done. specialize (R k). unfold restored in R. rewrite Hk in R.
      by injection R.
    + intros k c Hk Hu. eapply (tracks_restored sub k c _ _ (view k p1 s1) (view k p2 s2)); eauto.
  - exists p1, s1. split_and!; [done..|]. intros k c Hk Hu. specialize (T k c Hk Hu).
    apply andb_false_iff in Eb as [Ec%Z.ltb_ge|Ep%bool_decide_eq_false].
    + eapply (tracks_restored sub k c _ _ (view k p1 s1) (view k p1 s1)); [done..|]. by apply restored_down, no_flags.
    + apply (settled_fresh c _ _ (view k p1 s1) (Hg _ _ Hk) T). cbn. destruct p1; [|done]. by destruct Ep; eexists.
Qed.
Lemma next_group g sub p s : group g sub -> tidy p s -> exists p' s',
  next_prop h depth (diffNestedProperty h depth (S n)) (restoreDeletedValuesInNestedArray h depth) prev next attrs p g s
    = (Ret p', s') /\ counted s' /\
  (forall k, map_get k sub = None -> slot p' k = slot p k) /\
  forall k c, map_get k sub = Some c -> slot p k = VUndefined ->
    settled c (map_get k (flat (get prev g))) (map_get k (flat (get next g))) (slot p' k).
Proof.
  intros G [Hc Ht]. assert (Hg := group_good g sub G). unfold next_prop. rewrite (proj2 G).
  assert (Rp := compared_readable _ (get next g) (proper_readable _ _ _ Pp G)).
  assert (Rn := normal_readable _ (proper_readable _ _ _ Pn G)).
  assert (Fp := flat_compared (get prev g) (get next g)). assert (Fn := flat_normal (get next g)).
  assert (En := compared_next (get prev g) (get next g)).
  destruct (compared (get prev g) (get next g)) as [v w]. cbn [fst snd] in *. subst w.
  rewrite (bind_of _ _ _ _ _ (set_removed_run g false s)).
  assert (Hu : updated p g = false) by (apply not_true_iff_false; rewrite updated_slot, (Ht g sub G); intros []; done).
  rewrite Hu. destruct (strict_equal v _) eqn:Es.
  - apply strict_equal_eq in Es. exists p, (flagged g false s). split_and!; [done|by apply flagged_counted|done|].
    intros k c Hk Hx. left. split; [done|]. rewrite <- Fp, Es, Fn. apply agree_refl.
  - cbn [is_leaf]. rewrite !bool_decide_eq_false_2 by (by intros []). cbn [orb].
    rewrite <- Fp, <- Fn. by apply group_step.
Qed.
Lemma prev_group g sub p s : group g sub -> tidy p s -> exists p' s',
  prev_prop (clearNestedProperty h depth (S n)) prev next attrs p g s = (Ret p', s') /\ counted s' /\
  (forall k, map_get k sub = None -> slot p' k = slot p k) /\
  forall k c, map_get k sub = Some c ->
    settled c (map_get k (flat (get prev g))) (map_get k (flat (get next g))) (slot p k) \/
      slot p k = VUndefined /\ get next g = VUndefined ->
    settled c (map_get k (flat (get prev g))) (map_get k (flat (get next g))) (slot p' k).
Proof.
  intros G [Hc Ht]. unfold prev_prop. destruct (is_undefined (get next g)) eqn:Eg; cbn [negb].
  2:{ exists p, s. split_and!; [done..|]. intros k c Hk [H|[_ H%is_undefined_spec]]; [done|congruence]. }
  apply is_undefined_spec in Eg. rewrite (proj2 G).
  assert (Hu : updated p g = false) by (apply not_true_iff_false; rewrite updated_slot, (Ht g sub G); intros []; done).
  rewrite Hu. destruct (is_undefined (get prev g)) eqn:Ep.
  { apply is_undefined_spec in Ep. exists p, s. split_and!; [done..|]. intros k c Hk [H|[H _]]; [done|].
    rewrite Ep, Eg. left. split; [done|apply agree_refl]. }
  cbn [is_leaf]. rewrite !bool_decide_eq_false_2 by (by intros []). cbn [orb].
  destruct (clearNested_carries sub (group_good g sub G) (S n) p (get prev g) s
    (readable_with_more n _ (proper_readable _ _ _ Pp G)) Hc) as (p' & s' & E & C & S & T).
  exists p', s'. split_and!; [done..|]. intros k c Hk. rewrite Eg. change (map_get k (flat VUndefined)) with (None : option value).
  set (P := map_get k (flat (get prev g))). intros H.
  assert (HT : tracks c (over P (if bool_decide (slot p k = VUndefined) then None else P)) None (view k p' s')).
  { apply (T k c _ None Hk). destruct H as [[[H _]|H]|[H _]].
    - left. split; [done|]. by rewrite bool_decide_eq_true_2.
    - right. right. split; [done|]. by right.
    - left. split; [done|]. by rewrite bool_decide_eq_true_2. }
  replace (over P _) with P in HT by (destruct P, (bool_decide _); done).
  destruct HT as [HT|[(_ & v & HT & _)|(HT & _)]]; [by left|done|by right].
Qed.

(** The state of the slot that belongs to a source of [k]. *)
Definition settled_at (k : string) (o : source) (x : value) : Prop :=
  match o with
  | FromProp c => settled_prop c (get prev k) (get next k) x
  | FromStyle g c => settled c (map_get k (flat (get prev g))) (map_get k (flat (get next g))) x
  end.
Lemma tidy_leaf p s j c v s' : tidy p s -> at_top j c -> is_leaf c = true -> counted s' -> tidy (set_slot p j v) s'.
Proof.
  intros [_ Ht] T L Hc. split; [done|]. intros g sub G. rewrite slot_set, decide_False; [by eapply Ht|].
  intros ->. destruct T as [_ T], G as [_ G]. rewrite T in G. by injection G as ->.
Qed.
Lemma tidy_group p s j sub p' s' : tidy p s -> group j sub -> counted s' ->
  (forall k, map_get k sub = None -> slot p' k = slot p k) -> tidy p' s'.
Proof.
  intros [_ Ht] G Hc HS. split; [done|]. intros g sub' G'. rewrite HS; [by eapply Ht|].
  destruct (map_get g sub) as [c|] eqn:E; [|done]. exfalso. eapply (laid_apart W j sub g G); [by eexists|apply G'].
Qed.
Lemma get_absent (f : fields) k : k ∉ keys f -> get f k = VUndefined.
Proof. intros H%map_get_None. unfold get. by rewrite H. Qed.

Abbreviation next_body := (next_prop h depth (diffNestedProperty h depth (S n))
  (restoreDeletedValuesInNestedArray h depth) prev next attrs).
Abbreviation prev_body := (prev_prop (clearNestedProperty h depth (S n)) prev next attrs).

Lemma no_source k o j : is_source k o -> map_get j attrs = None -> j <> owner k o.
Proof.
  intros Ho E ->. destruct o as [c|g c]; cbn in *; [destruct Ho as [[_ Ho] _]|destruct Ho as (sub & [_ Ho] & _)]; congruence.
Qed.
Lemma leaf_source k o j c : is_source k o -> at_top j c -> is_leaf c = true -> j = owner k o -> o = FromProp c /\ k = j.
Proof.
  intros Ho [_ T] L ->. destruct o as [c'|g c']; cbn in *.
  - split; [|done]. destruct Ho as [[_ Ho] _]. congruence.
  - destruct Ho as (sub & [_ Ho] & _). rewrite Ho in T. by injection T as <-.
Qed.
Lemma group_source k o j sub : is_source k o -> group j sub -> j = owner k o ->
  exists c, o = FromStyle j c /\ map_get k sub = Some c.
Proof.
  intros Ho [_ G] ->. destruct o as [c'|g c']; cbn in *.
  - destruct Ho as [[_ Ho] L]. rewrite Ho in G. by injection G as ->.
  - destruct Ho as (sub' & [_ Ho] & Hk). rewrite Ho in G. injection G as ->. by exists c'.
Qed.
Lemma next_iteration p s j : used j -> tidy p s ->
  exists p' s', next_body p j s = (Ret p', s') /\ tidy p' s' /\
    forall k o, is_source k o ->
      (j <> owner k o -> slot p' k = slot p k) /\
      (j = owner k o -> slot p k = VUndefined -> settled_at k o (slot p' k)).
Proof.
  intros Hj Ht. destruct (map_get j attrs) as [c|] eqn:Ec.
  2:{ exists p, s. unfold next_prop. rewrite Ec. split_and!; [done..|]. intros k o Ho.
      assert (Hne := no_source k o j Ho Ec). by split. }
  assert (T : at_top j c) by done. destruct (is_leaf c) eqn:El.
  - assert (Hg := leaf_good j c T El).
    destruct (next_leaf (diffNestedProperty h depth (S n)) (restoreDeletedValuesInNestedArray h depth)
      prev next attrs p j s c Ec Hg (proper_rank _ Pp j)) as (b & E & Hb).
    eexists _, _. split; [exact E|]. assert (Hf : counted (flagged j false s)) by (apply flagged_counted, Ht). split.
    + destruct b; [by eapply tidy_leaf|split; [done|apply Ht]].
    + intros k o Ho. split.
      * intros Hne. destruct b; [|done]. rewrite slot_set, decide_False; [done|by eapply owner_of_leaf].
      * intros [-> ->]%(leaf_source k o j c Ho T El) Hx. cbn [settled_at]. destruct b.
        -- rewrite slot_set, decide_True by done. by apply updated_settled.
        -- rewrite Hx. apply unchanged_settled; [done|]. by apply Hb.
  - destruct (not_leaf_group j c T El) as (sub & -> & G).
    destruct (next_group j sub p s G Ht) as (p' & s' & E & C & S & R). exists p', s'. split; [done|].
    split; [by eapply tidy_group|]. intros k o Ho. split.
    + intros Hne. by eapply S, owner_of_group.
    + intros (c & -> & Hk)%(group_source k o j sub Ho G) Hx. by apply R.
Qed.
Lemma prev_iteration p s j : used j -> tidy p s ->
  exists p' s', prev_body p j s = (Ret p', s') /\ tidy p' s' /\
    forall k o, is_source k o ->
      (j <> owner k o -> slot p' k = slot p k) /\
      (j = owner k o -> settled_at k o (slot p k) \/ slot p k = VUndefined /\ get next j = VUndefined ->
       settled_at k o (slot p' k)).
Proof.
  intros Hj Ht. destruct (map_get j attrs) as [c|] eqn:Ec.
  2:{ exists p, s. unfold prev_prop. rewrite Ec. split_and!; [by destruct (negb _)|done..|]. intros k o Ho.
      assert (Hne := no_source k o j Ho Ec). by split. }
  assert (T : at_top j c) by done. destruct (is_leaf c) eqn:El.
  - rewrite (prev_leaf (clearNestedProperty h depth (S n)) prev next attrs p j s c Ec El). destruct (_ && _) eqn:Eb.
    + apply andb_true_iff in Eb as [[En _]%andb_true_iff _].
      destruct (remove_prop_run p j s (proj1 Ht)) as (s2 & E & C & _). eexists _, _. split; [exact E|].
      split; [by eapply tidy_leaf|]. intros k o Ho. split.
      * intros Hne. rewrite slot_set, decide_False; [done|by eapply owner_of_leaf].
      * intros [-> ->]%(leaf_source k o j c Ho T El) _. right. by rewrite slot_set, decide_True, En.
    + exists p, s. split_and!; [done..|]. intros k o Ho. split; [done|].
      intros [-> ->]%(leaf_source k o j c Ho T El) [H|[Hx Hx']]; [done|]. cbn [settled_at].
      rewrite Hx, Hx' in *. cbn in Eb. apply negb_false_iff in Eb. left. rewrite Eb. done.
  - destruct (not_leaf_group j c T El) as (sub & -> & G).
    destruct (prev_group j sub p s G Ht) as (p' & s' & E & C & S & R). exists p', s'. split; [done|].
    split; [by eapply tidy_group|]. intros k o Ho. split.
    + intros Hne. by eapply S, owner_of_group.
    + intros (c & -> & Hk)%(group_source k o j sub Ho G) Hx. by apply R.
Qed.
Lemma unused_settled k o : owner k o ∉ keys prev -> owner k o ∉ keys next -> settled_at k o VUndefined.
Proof.
  intros H1%get_absent H2%get_absent. destruct o as [c|g c]; cbn in *; rewrite H1, H2; left; [done|].
  split; [done|apply agree_refl].
Qed.
Lemma diffProperties_settles s : counted s -> exists p' s',
  diffProperties h depth (S (S n)) None prev next attrs s = (Ret p', s') /\ counted s' /\
  forall k o, is_source k o -> settled_at k o (slot p' k).
Proof.
  intros Hc. rewrite diffProperties_S. assert (T0 : tidy None s) by done.
  destruct (fold_each_at (fun _ _ => tt) tidy (fun _ _ => True) "" next_body (keys next) None s (proper_keys _ Pn) T0)
    as (p1 & s1 & E1 & T1 & _).
  { intros p2 s2 j Hj Ht. destruct (next_iteration p2 s2 j (proper_used _ Pn j Hj) Ht) as (p3 & s3 & E & T & _).
    by exists p3, s3. }
  destruct (fold_each_at (fun _ _ => tt) tidy (fun _ _ => True) "" prev_body (keys prev) p1 s1 (proper_keys _ Pp) T1)
    as (p2 & s2 & E2 & T2 & _).
  { intros p2 s2 j Hj Ht. destruct (prev_iteration p2 s2 j (proper_used _ Pp j Hj) Ht) as (p3 & s3 & E & T & _).
    by exists p3, s3. }
  exists p2, s2. rewrite (bind_of _ _ _ _ _ E1). split_and!; [done|apply T2|]. intros k o Ho.
  destruct (fold_each_at (fun p _ => slot p k) tidy (fun x y => x = VUndefined -> settled_at k o y) (owner k o)
    next_body (keys next) None s (proper_keys _ Pn) T0) as (p1' & s1' & E1' & _ & R1).
  { intros p3 s3 j Hj Ht. destruct (next_iteration p3 s3 j (proper_used _ Pn j Hj) Ht) as (p4 & s4 & E & T & R).
    exists p4, s4. destruct (R k o Ho). done. }
  rewrite E1 in E1'. injection E1' as <- <-.
  destruct (fold_each_at (fun p _ => slot p k) tidy (fun x y => settled_at k o x \/ x = VUndefined /\
    get next (owner k o) = VUndefined -> settled_at k o y) (owner k o)
    prev_body (keys prev) p1 s1 (proper_keys _ Pp) T1) as (p2' & s2' & E2' & _ & R2).
  { intros p3 s3 j Hj Ht. destruct (prev_iteration p3 s3 j (proper_used _ Pp j Hj) Ht) as (p4 & s4 & E & T & R).
    exists p4, s4. destruct (R k o Ho) as [Ra Rb]. split_and!; [done..|]. intros ->. by apply Rb. }
  rewrite E2 in E2'. injection E2' as <- <-.
  destruct (decide (owner k o ∈ keys next)) as [Hin|Hin], (decide (owner k o ∈ keys prev)) as [Hip|Hip].
  - apply R2. left. by apply R1.
  - rewrite R2. by apply R1.
  - apply R2. right. split; [done|by apply get_absent].
  - rewrite R2, R1. by apply unused_settled.
Qed.
End Step.

(** *** A view and its renders *)
Record screen := {
  module_state : st;
  current : fields;
  native_view : string -> value   (* what native shows; null is its default *)
}.
(** Native takes over what the payload has; undefined does not cross the bridge. *)
Definition apply_update (p : payload) (v : string -> value) : string -> value := fun k =>
  if is_undefined (slot p k) then v k else slot p k.
Definition commit (r : result payload * st) (props : fields) (v : string -> value) : option screen :=
  match r with
  | (Ret p, s) => Some {| module_state := s; current := props; native_view := apply_update p v |}
  | _ => None
  end.
Definition mount_view (fuel : nat) (props : fields) (s : st) : option screen :=
  commit (create h depth fuel props attrs s) props (fun _ => VNull).
Definition update (fuel : nat) (props : fields) (sc : screen) : option screen :=
  commit (diff h depth fuel (current sc) props attrs (module_state sc)) props (native_view sc).
Fixpoint updates (fuel : nat) (sc : screen) (renders : list fields) : option screen :=
  match renders with
  | [] => Some sc
  | props :: renders' =>
      match update fuel props sc with
      | Some sc' => updates fuel sc' renders'
      | None => None
      end
  end.
Definition in_sync (props : fields) (sc : screen) : Prop :=
  current sc = props /\ counted (module_state sc) /\
  forall k o, is_source k o -> alike (native_view sc k) (shown o props k).

Lemma settled_shown prev next k o x v : is_source k o -> settled_at prev next k o x ->
  alike v (shown o prev k) -> alike (if is_undefined x then v else x) (shown o next k).
Proof.
  intros Ho Hx Hv. destruct o as [c|g c]; cbn [settled_at shown] in *.
  - destruct Hx as [[-> Ha]| ->]; [by etransitivity; [exact Hv|exact Ha]|].
    assert (Hg : good c) by (destruct Ho; by eapply leaf_good).
    destruct (is_undefined (get next k)) eqn:E; [done|].
    destruct (is_undefined (target c _)) eqn:Et; [|done]. apply is_undefined_spec in Et. by apply target_defined in Et.
  - assert (Hg : good c) by (destruct Ho as (sub & G & Hk); by eapply (group_good g sub G)).
    destruct Hx as [[-> Ha]| ->].
    + etransitivity; [exact Hv|]. by destruct (map_get k (flat (get prev g))), (map_get k (flat (get next g))).
    + destruct (map_get k (flat (get next g))) as [w|]; [|done]. cbn [style_value].
      destruct (is_undefined (target c w)) eqn:Et; [|done]. apply is_undefined_spec in Et. by apply target_defined in Et.
Qed.
Abbreviation fuel := (S (S n)).
Lemma render_in_sync prev next sc : proper prev -> proper next -> in_sync prev sc ->
  exists sc', update fuel next sc = Some sc' /\ in_sync next sc'.
Proof.
  intros Pp Pn (Hcur & Hc & Hs). unfold update, diff. rewrite Hcur.
  destruct (diffProperties_settles prev next Pp Pn (module_state sc) Hc) as (p & s & E & C & R). rewrite E.
  eexists. split; [done|]. split_and!; [done..|]. intros k o Ho.
  eapply settled_shown; [done|by apply R|by apply Hs].
Qed.
Lemma proper_nothing : 0 < depth -> proper [].
Proof.
  intros Hd. split; [apply NoDup_nil_2|by intros k ?%elem_of_nil|by apply no_fields|]. intros g sub _. by constructor.
Qed.
Lemma shown_nothing k o : shown o [] k = VNull.
Proof. by destruct o. Qed.
Lemma mount_view_in_sync props s : 0 < depth -> counted s -> proper props ->
  exists sc, mount_view fuel props s = Some sc /\ in_sync props sc.
Proof.
  intros Hd Hc Pp. set (sc0 := {| module_state := s; current := []; native_view := fun _ => VNull |}).
  apply (render_in_sync [] props sc0 (proper_nothing Hd) Pp). split_and!; [done..|].
  intros k o _. by rewrite shown_nothing.
Qed.
Lemma updates_in_sync renders props sc : proper props -> in_sync props sc -> Forall proper renders ->
  exists sc', updates fuel sc renders = Some sc' /\ in_sync (default props (last renders)) sc'.
Proof.
  revert props sc. induction renders as [|next renders IH]; intros props sc Pp Hs Hr; [by exists sc|].
  apply Forall_cons in Hr as [Pn Hr]. destruct (render_in_sync props next sc Pp Pn Hs) as (sc1 & E1 & S1).
  cbn [updates]. rewrite E1. destruct (IH next sc1 Pn S1 Hr) as (sc2 & E2 & S2). exists sc2. split; [done|].
  rewrite last_cons. by destruct (last renders).
Qed.

(** C8. However often a view is rendered, whatever props the renders give it and
    whatever earlier diffs have left in the module, the diffs return and native shows
    what the last props say: for each attribute, the prop's processed value, or that of
    the last style of nested arrays which has it, and the default where there is none.
    Proper props have no explicit undefined inside of styles, and the functions of the
    configuration are [good]. *)
Theorem native_shows_last_props s first renders :
  0 < depth -> counted s -> proper first -> Forall proper renders ->
  exists sc0 sc, mount_view fuel first s = Some sc0 /\ updates fuel sc0 renders = Some sc /\
    forall k o, is_source k o -> alike (native_view sc k) (shown o (default first (last renders)) k).
Proof.
  intros Hd Hc Pf Hr. destruct (mount_view_in_sync first s Hd Hc Pf) as (sc0 & E0 & S0).
  destruct (updates_in_sync renders first sc0 Pf S0 Hr) as (sc & E & _ & _ & H). by exists sc0, sc.
Qed.
End Props.
End Diff.

(** C38. On data without cycles [deepDiffer] returns, and says that two values do not
    differ exactly if no sequence of property accesses tells them apart, except that
    NaN differs from itself. *)
Theorem deepDiffer_decides h fuel ignore one two :
  acyclic h -> distinct_keys h -> rank one < fuel -> ignore <> Some false ->
  exists differ, deepDiffer h fuel ignore one two (-1) = Some differ /\
    (differ = false -> alike h one two) /\
    (no_NaN h one -> alike h one two -> differ = false).
Proof.
  intros Hac Hdk Hr Hi. destruct (deepDiffer_total h fuel ignore one two (-1) Hac Hr) as [b E].
  exists b. split_and!; [done| |].
  - intros ->. by eapply deepDiffer_sound.
  - intros Hn Ha. rewrite (deepDiffer_complete h fuel ignore one two (-1)) in E by (done || lia). by injection E.
Qed.

(** ** Examples *)
Section Examples.
Definition objects : list object :=
  [Obj [("w", VNumber (Some 5%Z))]; Obj [("w", VNumber (Some 1%Z)); ("color", VString "red")]; Obj [];
   Arr [VRef 0; VRef 1]; Arr [VRef 0; VRef 2]; Obj [("w", VUndefined)];
   Arr [VRef 0; VRef 5; VRef 1]; Arr [VRef 0; VRef 5; VRef 2]; Arr [VRef 1; VRef 5]; Arr [VRef 1; VRef 2];
   Arr [VRef 3; VRef 1]].
Definition example_heap : heap := map_seq 0 objects.
Definition toColor (v : value) : value :=
  match v with VString s => VNumber (Some (if decide (s = "red") then 0xffff0000 else 0)%Z) | _ => v end.
Definition notSame (prev next : value) : bool := negb (strict_equal prev next).
Definition style_attributes : attributes := [("w", Valid); ("color", Config None (Some toColor) [])].
Definition example_attributes : attributes :=
  [("onPress", Valid); ("tint", Config None (Some toColor) []); ("offset", Config (Some notSame) None []);
   ("style", Config None None style_attributes)].

Lemma example_deref l : deref example_heap l = default (Obj []) (objects !! l).
Proof. unfold deref, example_heap. by rewrite lookup_map_seq_0. Qed.
Lemma example_acyclic : acyclic example_heap.
Proof.
  intros l v. rewrite example_deref. do 11 (destruct l as [|l]; [cbn; intros Hv; set_unfold in Hv; naive_solver lia|]).
  cbn. by intros ?%elem_of_nil.
Qed.
Lemma example_distinct : distinct_keys example_heap.
Proof.
  intros l f. rewrite example_deref. do 11 (destruct l as [|l]; [cbn; intros [= <-]; apply (bool_decide_unpack (NoDup _)); by vm_compute|]).
  intros [= <-]. apply NoDup_nil_2.
Qed.
Lemma toColor_good h : good h (Config None (Some toColor) []).
Proof.
  split; [done|by intros []|done| |done]. intros v w H. assert (Hs := alike_shape _ _ _ H).
  destruct v, w; cbn in *; try done; try (destruct (deref h _); done). by injection Hs as ->.
Qed.
Lemma notSame_good h : good h (Config (Some notSame) None []).
Proof.
  split; [done..|]. intros p v Hf Hu H%negb_false_iff%strict_equal_eq. subst p. cbn.
  unfold normal, is_undefined, as_marker. by rewrite bool_decide_eq_false_2, Hf.
Qed.
Lemma Valid_good h : good h Valid.
Proof. by split. Qed.
Lemma style_attributes_good h : good_attributes h style_attributes.
Proof.
  intros k c. cbn. repeat case_decide; intros [= <-]; [apply Valid_good|apply toColor_good].
Qed.
Definition any_key (_ : string) : Prop := True.
Lemma example_laid : well_laid example_heap example_attributes any_key.
Proof.
  assert (Hg : forall g sub, group example_attributes any_key g sub -> g = "style" /\ sub = style_attributes).
  { intros g sub [_ G]. cbn in G. repeat case_decide; simplify_eq; done. }
  split.
  - intros k c [_ E]. cbn in E. repeat case_decide; simplify_eq; try (left; auto using Valid_good, toColor_good, notSame_good; fail).
    right. eexists. split; [done|apply style_attributes_good].
  - intros g sub k [-> ->]%Hg [c0 E] c [_ T]. cbn in *. repeat case_decide; simplify_eq.
  - intros g g' sub sub' k [-> ->]%Hg [-> ->]%Hg. done.
Qed.

Lemma style_object l f : deref example_heap l = Obj f -> defined f -> defined_style example_heap (VRef l).
Proof. intros E Hd. constructor; cbn [elements fields_of]; by rewrite ?E. Qed.
Lemma style_array l a : deref example_heap l = Arr a -> Forall (defined_style example_heap) a ->
  defined_style example_heap (VRef l).
Proof.
  intros E Ha. constructor; cbn [elements fields_of]; rewrite ?E; [done|]. intros elems e [= <-] He. rewrite Forall_forall in Ha. by apply Ha.
Qed.
Lemma objects_defined l : l <= 2 -> defined_style example_heap (VRef l).
Proof.
  intros Hl. do 3 (destruct l as [|l]; [eapply style_object; [by rewrite example_deref|]; intros k; cbn; by repeat case_decide|]). lia.
Qed.
Lemma arrays_defined l : l = 3 \/ l = 4 -> defined_style example_heap (VRef l).
Proof.
  intros [-> | ->]; (eapply style_array; [by rewrite example_deref|]);
    apply Forall_cons; (split; [apply objects_defined; lia|]); apply Forall_singleton, objects_defined; lia.
Qed.
Abbreviation props0 := [("onPress", VFunction 1); ("tint", VString "red"); ("style", VRef 3)].
Abbreviation props1 := [("tint", VNull); ("style", VRef 4); ("offset", VRef 0)].
Abbreviation props2 := [("style", VUndefined); ("onPress", VBool true)].
Lemma proper_example (v : value) (props : fields) :
  NoDup (keys props) -> Forall (fun kv => rank (snd kv) < 12) props -> get props "style" = v ->
  defined_style example_heap v -> proper example_heap 12 example_attributes any_key props.
Proof.
  intros Hd Hr <- Hs. split; [done|done| |].
  - intros k. destruct (get_entry props k) as [E|(w & E & Hin)]; unfold get; rewrite E; cbn; [lia|].
    rewrite Forall_forall in Hr. by apply (Hr (k, w)).
  - intros g sub [_ G]. cbn in G. repeat case_decide; simplify_eq. done.
Qed.
Lemma no_style v : elements example_heap v = None -> fields_of example_heap v = [] -> defined_style example_heap v.
Proof. intros E1 E2. constructor; [by rewrite E2|by rewrite E1]. Qed.
Lemma proper0 : proper example_heap 12 example_attributes any_key props0.
Proof.
  apply (proper_example (VRef 3)); [apply (bool_decide_unpack (NoDup _)); by vm_compute|repeat (apply Forall_cons; split; [cbn; lia|]); apply Forall_nil; done|done|].
  apply arrays_defined. by left.
Qed.
Lemma proper1 : proper example_heap 12 example_attributes any_key props1.
Proof.
  apply (proper_example (VRef 4)); [apply (bool_decide_unpack (NoDup _)); by vm_compute|repeat (apply Forall_cons; split; [cbn; lia|]); apply Forall_nil; done|done|].
  apply arrays_defined. by right.
Qed.
Lemma proper2 : proper example_heap 12 example_attributes any_key props2.
Proof.
  apply (proper_example VUndefined); [apply (bool_decide_unpack (NoDup _)); by vm_compute|repeat (apply Forall_cons; split; [cbn; lia|]); apply Forall_nil; done|done|].
  by apply no_style.
Qed.
Lemma native_shows_last_props_witness : exists sc0 sc,
  mount_view example_heap 12 example_attributes 15 props0 initial = Some sc0 /\
  updates example_heap 12 example_attributes 15 sc0 [props1; props2] = Some sc /\
  forall k o, is_source example_attributes any_key k o ->
    alike example_heap (native_view sc k) (shown example_heap o props2 k).
Proof.
  apply (native_shows_last_props example_heap 12 example_acyclic example_distinct example_attributes any_key
    example_laid 13 (le_n 13) initial props0 [props1; props2]).
  - lia.
  - split; [apply NoDup_nil_2|by vm_compute].
  - apply proper0.
  - constructor; [apply proper1|]. constructor; [apply proper2|constructor].
Defined.
Lemma deepDiffer_decides_witness : exists differ,
  deepDiffer example_heap 12 None (VRef 3) (VRef 4) (-1) = Some differ /\
  (differ = false -> alike example_heap (VRef 3) (VRef 4)) /\
  (no_NaN example_heap (VRef 3) -> alike example_heap (VRef 3) (VRef 4) -> differ = false).
Proof.
  apply (deepDiffer_decides example_heap 12 None (VRef 3) (VRef 4) example_acyclic example_distinct); [cbn; lia|discriminate].
Defined.

Definition payload_of (prev next : fields) : result payload :=
  outcome (diff example_heap 12 15 prev next example_attributes) initial.
(** What was removed by a later style comes back from an earlier one. *)
Example removed_is_restored :
  payload_of [("style", VRef 10)] [("style", VRef 4)] = Ret (Some [("w", VNumber (Some 5%Z)); ("color", VNull)]).
Proof. by vm_compute. Qed.
(** The same styles again in new arrays need no update. *)
Example equal_styles_need_no_update : payload_of [("style", VRef 3)] [("style", VRef 3)] = Ret None.
Proof. by vm_compute. Qed.

(** An explicit undefined in a style array, which is to reset what comes before it, is
    forgotten when a later style loses the key: native shows 5 and the props say null. *)
Example undefined_is_passed_over :
  let prev := [("style", VRef 6)] in let next := [("style", VRef 7)] in
  slot (if payload_of prev next is Ret p then p else None) "w" = VNumber (Some 5%Z) /\
  slot (if payload_of [] next is Ret p then p else None) "w" = VNull.
Proof. by vm_compute. Qed.
(** One that goes away is taken to have shown what came before: native keeps null. *)
Example undefined_was_empty :
  let prev := [("style", VRef 8)] in let next := [("style", VRef 9)] in
  payload_of prev next = Ret None /\
  slot (if payload_of [] prev is Ret p then p else None) "w" = VNull /\
  slot (if payload_of [] next is Ret p then p else None) "w" = VNumber (Some 1%Z).
Proof. by vm_compute. Qed.
End Examples.
