(* ===== verification/UpdateQueue.v ===== *)
(** * Queues of state updates

    The update queues of class components and roots in
    Libraries/Renderer/implementations/ReactNativeRenderer-dev.js: [enqueueUpdate],
    [processUpdateQueue] and what they call.

    Updates are nodes of circular lists that the queues of the current fiber and of the
    work in progress share, so nodes, queues, shared queues and fibers are objects of a
    heap.  The loop of [processUpdateQueue] has fuel.  A partial state is a list of
    fields whose values are opaque; updater functions are a parameter, with the updates
    they schedule on their fiber (which the program warns of).  Warnings and the context
    flags of development mode are left out. *)
From S2P Require Import Prelude.
From stdpp Require Import base numbers list gmap strings.
Open Scope Z_scope.

Abbreviation fields := (list (string * nat)).
(** [None] is null (or undefined). *)
Abbreviation state := (option fields).
Inductive tag := UpdateState | ReplaceState | ForceUpdate | CaptureUpdate.
Inductive payload := PNothing | PObject (f : fields) | PFunction (updater : nat).
(** What an update says, without its place in a list. *)
Record item := {
  expirationTime : Z;
  suspenseConfig : option nat;
  utag : tag;
  upayload : payload;
  callback : option nat
}.
Record update := { contents : item; next : option nat }.
Record queue := {
  baseState : state;
  baseQueue : option nat;   (* the last update of the circular list *)
  shared : nat;
  effects : option (list nat)
}.
Record fiber := {
  updateQueue : option nat;
  alternate : option nat;
  memoizedState : state;
  fiberExpirationTime : Z;
  effectTag : Z
}.

Definition NoWork : Z := 0.
Definition Idle : Z := 2.
Definition Sync : Z := 1073741823.
Definition Callback : Z := 32.
Definition DidCapture : Z := 64.
Definition ShouldCapture : Z := 4096.

Definition set_next (x : option nat) (u : update) : update := {| contents := contents u; next := x |}.
Definition with_callback (c : option nat) (i : item) : item :=
  {| expirationTime := expirationTime i; suspenseConfig := suspenseConfig i; utag := utag i;
     upayload := upayload i; callback := c |}.
Definition with_expirationTime (e : Z) (i : item) : item :=
  {| expirationTime := e; suspenseConfig := suspenseConfig i; utag := utag i;
     upayload := upayload i; callback := callback i |}.
Definition set_base (bs : state) (bq : option nat) (q : queue) : queue :=
  {| baseState := bs; baseQueue := bq; shared := shared q; effects := effects q |}.
Definition set_effects (e : option (list nat)) (q : queue) : queue :=
  {| baseState := baseState q; baseQueue := baseQueue q; shared := shared q; effects := e |}.
Definition set_updateQueue x (f : fiber) : fiber :=
  {| updateQueue := x; alternate := alternate f; memoizedState := memoizedState f;
     fiberExpirationTime := fiberExpirationTime f; effectTag := effectTag f |}.
Definition set_memoized (e : Z) (m : state) (f : fiber) : fiber :=
  {| updateQueue := updateQueue f; alternate := alternate f; memoizedState := m;
     fiberExpirationTime := e; effectTag := effectTag f |}.
Definition set_effectTag x (f : fiber) : fiber :=
  {| updateQueue := updateQueue f; alternate := alternate f; memoizedState := memoizedState f;
     fiberExpirationTime := fiberExpirationTime f; effectTag := x |}.

Record st := {
  updates : gmap nat update;
  queues : gmap nat queue;
  pendings : gmap nat (option nat);   (* the field [pending] of the shared queues *)
  fibers : gmap nat fiber;
  allocated : nat;                    (* objects so far *)
  hasForceUpdate : bool;
  nextUnprocessedUpdateTime : Z;      (* workInProgressRoot... *)
  latestProcessedExpirationTime : Z;
  latestSuspenseTimeout : Z;
  canSuspendUsingConfig : option nat;
  called : list nat                   (* callbacks, in the order of their calls *)
}.
Definition set_updates x (s : st) : st := Build_st x (queues s) (pendings s) (fibers s)
  (allocated s) (hasForceUpdate s) (nextUnprocessedUpdateTime s)
  (latestProcessedExpirationTime s) (latestSuspenseTimeout s) (canSuspendUsingConfig s)
  (called s).
Definition set_queues x (s : st) : st := Build_st (updates s) x (pendings s) (fibers s)
  (allocated s) (hasForceUpdate s) (nextUnprocessedUpdateTime s)
  (latestProcessedExpirationTime s) (latestSuspenseTimeout s) (canSuspendUsingConfig s)
  (called s).
Definition set_pendings x (s : st) : st := Build_st (updates s) (queues s) x (fibers s)
  (allocated s) (hasForceUpdate s) (nextUnprocessedUpdateTime s)
  (latestProcessedExpirationTime s) (latestSuspenseTimeout s) (canSuspendUsingConfig s)
  (called s).
Definition set_fibers x (s : st) : st := Build_st (updates s) (queues s) (pendings s) x
  (allocated s) (hasForceUpdate s) (nextUnprocessedUpdateTime s)
  (latestProcessedExpirationTime s) (latestSuspenseTimeout s) (canSuspendUsingConfig s)
  (called s).
Definition set_allocated x (s : st) : st := Build_st (updates s) (queues s) (pendings s)
  (fibers s) x (hasForceUpdate s) (nextUnprocessedUpdateTime s)
  (latestProcessedExpirationTime s) (latestSuspenseTimeout s) (canSuspendUsingConfig s)
  (called s).
Definition set_hasForceUpdate x (s : st) : st := Build_st (updates s) (queues s) (pendings
  s) (fibers s) (allocated s) x (nextUnprocessedUpdateTime s) (latestProcessedExpirationTime
  s) (latestSuspenseTimeout s) (canSuspendUsingConfig s) (called s).
Definition set_nextUnprocessedUpdateTime x (s : st) : st := Build_st (updates s) (queues s)
  (pendings s) (fibers s) (allocated s) (hasForceUpdate s) x (latestProcessedExpirationTime
  s) (latestSuspenseTimeout s) (canSuspendUsingConfig s) (called s).
Definition set_latestProcessedExpirationTime x (s : st) : st := Build_st (updates s) (queues
  s) (pendings s) (fibers s) (allocated s) (hasForceUpdate s) (nextUnprocessedUpdateTime s)
  x (latestSuspenseTimeout s) (canSuspendUsingConfig s) (called s).
Definition set_latestSuspenseTimeout x (s : st) : st := Build_st (updates s) (queues s)
  (pendings s) (fibers s) (allocated s) (hasForceUpdate s) (nextUnprocessedUpdateTime s)
  (latestProcessedExpirationTime s) x (canSuspendUsingConfig s) (called s).
Definition set_canSuspendUsingConfig x (s : st) : st := Build_st (updates s) (queues s)
  (pendings s) (fibers s) (allocated s) (hasForceUpdate s) (nextUnprocessedUpdateTime s)
  (latestProcessedExpirationTime s) (latestSuspenseTimeout s) x (called s).
Definition set_called x (s : st) : st := Build_st (updates s) (queues s) (pendings s)
  (fibers s) (allocated s) (hasForceUpdate s) (nextUnprocessedUpdateTime s)
  (latestProcessedExpirationTime s) (latestSuspenseTimeout s) (canSuspendUsingConfig s) x.

Definition no_item : item :=
  {| expirationTime := NoWork; suspenseConfig := None; utag := UpdateState; upayload := PNothing; callback := None |}.
Definition no_update : update := {| contents := no_item; next := None |}.
Definition no_queue : queue := {| baseState := None; baseQueue := None; shared := 0; effects := None |}.
Definition no_fiber : fiber :=
  {| updateQueue := None; alternate := None; memoizedState := None; fiberExpirationTime := NoWork; effectTag := 0 |}.
Definition update_of (s : st) (a : nat) : update := default no_update (updates s !! a).
Definition queue_of (s : st) (q : nat) : queue := default no_queue (queues s !! q).
Definition pending_of (s : st) (x : nat) : option nat := default None (pendings s !! x).
Definition fiber_of (s : st) (f : nat) : fiber := default no_fiber (fibers s !! f).
Definition on_update (a : nat) (f : update -> update) : JS st unit :=
  modify (fun s => set_updates (<[a := f (update_of s a)]> (updates s)) s).
Definition on_queue (q : nat) (f : queue -> queue) : JS st unit :=
  modify (fun s => set_queues (<[q := f (queue_of s q)]> (queues s)) s).
Definition set_pending (x : nat) (p : option nat) : JS st unit :=
  modify (fun s => set_pendings (<[x := p]> (pendings s)) s).
Definition on_fiber (x : nat) (f : fiber -> fiber) : JS st unit :=
  modify (fun s => set_fibers (<[x := f (fiber_of s x)]> (fibers s)) s).

(** [Object.assign({}, prevState, partialState)] *)
Definition assign (target source : fields) : fields := foldl (fun r kv => map_set (fst kv) (snd kv) r) target source.

Section UpdateQueue.
(** What an updater function makes of the previous state, and the updates it schedules. *)
Context (call : nat -> state -> state * list item).

Definition alloc_update (i : item) (nx : nat -> option nat) : JS st nat := fun s =>
  let a := allocated s in
  (Ret a, set_allocated (S a) (set_updates (<[a := {| contents := i; next := nx a |}]> (updates s)) s)).
Definition createUpdate (e : Z) (config : option nat) : JS st nat :=
  alloc_update {| expirationTime := e; suspenseConfig := config; utag := UpdateState; upayload := PNothing; callback := None |} Some.
Definition initializeUpdateQueue (fiber_ : nat) : JS st unit := fun s =>
  let sh := allocated s in let q := S sh in
  (Ret tt,
   set_fibers (<[fiber_ := set_updateQueue (Some q) (fiber_of s fiber_)]> (fibers s))
     (set_queues (<[q := {| baseState := memoizedState (fiber_of s fiber_); baseQueue := None;
                            shared := sh; effects := None |}]> (queues s))
        (set_pendings (<[sh := None]> (pendings s)) (set_allocated (S q) s)))).
Definition cloneUpdateQueue (current workInProgress : nat) : JS st unit := fun s =>
  match updateQueue (fiber_of s workInProgress), updateQueue (fiber_of s current) with
  | Some q, Some cq =>
      if bool_decide (q = cq) then
        let c := allocated s in
        (Ret tt, set_fibers (<[workInProgress := set_updateQueue (Some c) (fiber_of s workInProgress)]> (fibers s))
                   (set_queues (<[c := queue_of s cq]> (queues s)) (set_allocated (S c) s)))
      else (Ret tt, s)
  | _, _ => (Ret tt, s)
  end.

Definition enqueueUpdate (fiber_ update_ : nat) : JS st unit :=
  let! f := gets (fun s => fiber_of s fiber_) in
  match updateQueue f with
  | None => ret tt
  | Some q =>
      let! sh := gets (fun s => shared (queue_of s q)) in
      let! pending := gets (fun s => pending_of s sh) in
      do! match pending with
          | None => on_update update_ (set_next (Some update_))
          | Some p =>
              let! first := gets (fun s => next (update_of s p)) in
              do! on_update update_ (set_next first);
              on_update p (set_next (Some update_))
          end;
      set_pending sh (Some update_)
  end.
Definition enqueueCapturedUpdate (workInProgress update_ : nat) : JS st unit :=
  let! f := gets (fun s => fiber_of s workInProgress) in
  do! match alternate f with
      | Some current => cloneUpdateQueue current workInProgress
      | None => ret tt
      end;
  let! f := gets (fun s => fiber_of s workInProgress) in
  match updateQueue f with
  | None => throw (JSError "TypeError")
  | Some q =>
      let! last := gets (fun s => baseQueue (queue_of s q)) in
      match last with
      | None =>
          do! on_queue q (fun q => set_base (baseState q) (Some update_) q);
          on_update update_ (set_next (Some update_))
      | Some last =>
          let! first := gets (fun s => next (update_of s last)) in
          do! on_update update_ (set_next first);
          on_update last (set_next (Some update_))
      end
  end.

(** An update is created, what it says is filled in, and it is put in the queue. *)
Definition fill (i : item) (u : update) : update :=
  {| contents := {| expirationTime := expirationTime (contents u); suspenseConfig := suspenseConfig (contents u);
                    utag := utag i; upayload := upayload i; callback := callback i |}; next := next u |}.
Definition enqueue_item (fiber_ : nat) (i : item) : JS st unit :=
  let! u := createUpdate (expirationTime i) (suspenseConfig i) in
  do! on_update u (fill i);
  enqueueUpdate fiber_ u.
(** The expiration time is an argument; [scheduleWork] is left out. *)
Definition enqueueSetState (fiber_ : nat) (p : payload) (cb : option nat) (e : Z) (config : option nat) : JS st unit :=
  enqueue_item fiber_ {| expirationTime := e; suspenseConfig := config; utag := UpdateState; upayload := p; callback := cb |}.
Definition enqueueReplaceState (fiber_ : nat) (p : payload) (cb : option nat) (e : Z) (config : option nat) : JS st unit :=
  enqueue_item fiber_ {| expirationTime := e; suspenseConfig := config; utag := ReplaceState; upayload := p; callback := cb |}.
Definition enqueueForceUpdate (fiber_ : nat) (cb : option nat) (e : Z) (config : option nat) : JS st unit :=
  enqueue_item fiber_ {| expirationTime := e; suspenseConfig := config; utag := ForceUpdate; upayload := PNothing; callback := cb |}.

(** The value of a payload; the updates an updater schedules go to the fiber. *)
Definition schedule (workInProgress : nat) (l : list item) : JS st unit := for_each l (enqueue_item workInProgress).
Definition payload_value (workInProgress : nat) (p : payload) (prevState : state) : JS st state :=
  match p with
  | PNothing => ret None
  | PObject f => ret (Some f)
  | PFunction u =>
      let '(r, scheduled) := call u prevState in
      do! schedule workInProgress scheduled;
      ret r
  end.
Definition merge (prevState partialState : state) : state :=
  match partialState with
  | None => prevState
  | Some partial => Some (assign (assign [] (default [] prevState)) partial)
  end.
Definition getStateFromUpdate (workInProgress : nat) (u : item) (prevState : state) : JS st state :=
  match utag u with
  | ReplaceState => payload_value workInProgress (upayload u) prevState
  | CaptureUpdate =>
      do! on_fiber workInProgress (fun f =>
        set_effectTag (Z.lor (Z.land (effectTag f) (Z.lnot ShouldCapture)) DidCapture) f);
      let! partialState := payload_value workInProgress (upayload u) prevState in
      ret (merge prevState partialState)
  | UpdateState =>
      let! partialState := payload_value workInProgress (upayload u) prevState in
      ret (merge prevState partialState)
  | ForceUpdate =>
      do! modify (set_hasForceUpdate true);
      ret prevState
  end.

Definition markRenderEventTimeAndConfig (e : Z) (config : option nat) : JS st unit := modify (fun s =>
  let s := if (e <? latestProcessedExpirationTime s) && (Idle <? e)
           then set_latestProcessedExpirationTime e s else s in
  match config with
  | Some c =>
      if (e <? latestSuspenseTimeout s) && (Idle <? e)
      then set_canSuspendUsingConfig (Some c) (set_latestSuspenseTimeout e s) else s
  | None => s
  end).
Definition markUnprocessedUpdateTime (e : Z) : JS st unit := modify (fun s =>
  if nextUnprocessedUpdateTime s <? e then set_nextUnprocessedUpdateTime e s else s).

(** The variables of the loop. *)
Record vars := {
  newState : state;
  newExpirationTime : Z;
  newBaseState : state;
  newBaseQueueFirst : option nat;
  newBaseQueueLast : option nat
}.
(** [newBaseQueueLast = newBaseQueueLast.next = clone]; the first clone is both ends. *)
Definition append_clone (i : item) (v : vars) : JS st vars :=
  let! clone := alloc_update i (fun _ => None) in
  match newBaseQueueLast v with
  | None =>
      ret {| newState := newState v; newExpirationTime := newExpirationTime v; newBaseState := newState v;
             newBaseQueueFirst := Some clone; newBaseQueueLast := Some clone |}
  | Some last =>
      do! on_update last (set_next (Some clone));
      ret {| newState := newState v; newExpirationTime := newExpirationTime v; newBaseState := newBaseState v;
             newBaseQueueFirst := newBaseQueueFirst v; newBaseQueueLast := Some clone |}
  end.
Definition with_newState (x : state) (v : vars) : vars :=
  {| newState := x; newExpirationTime := newExpirationTime v; newBaseState := newBaseState v;
     newBaseQueueFirst := newBaseQueueFirst v; newBaseQueueLast := newBaseQueueLast v |}.
Definition with_newExpirationTime (x : Z) (v : vars) : vars :=
  {| newState := newState v; newExpirationTime := x; newBaseState := newBaseState v;
     newBaseQueueFirst := newBaseQueueFirst v; newBaseQueueLast := newBaseQueueLast v |}.

(** The body of the loop for one update. *)
Definition process_update (workInProgress q : nat) (renderExpirationTime : Z) (u : nat) (v : vars) : JS st vars :=
  let! i := gets (fun s => contents (update_of s u)) in
  let e := expirationTime i in
  if e <? renderExpirationTime then
    let! v := append_clone i v in
    ret (if newExpirationTime v <? e then with_newExpirationTime e v else v)
  else
    let! v := if bool_decide (is_Some (newBaseQueueLast v))
              then append_clone (with_expirationTime Sync i) v else ret v in
    do! markRenderEventTimeAndConfig e (suspenseConfig i);
    let! x := getStateFromUpdate workInProgress i (newState v) in
    do! when (bool_decide (is_Some (callback i))) (
      do! on_fiber workInProgress (fun f => set_effectTag (Z.lor (effectTag f) Callback) f);
      on_queue q (fun q => set_effects (Some (default [] (effects q) ++ [u])) q));
    ret (with_newState x v).
Fixpoint process_loop (fuel : nat) (workInProgress q : nat) (renderExpirationTime : Z)
    (first baseQueue_ u : nat) (v : vars) : JS st vars :=
  match fuel with
  | O => out_of_fuel
  | S fuel =>
      let! v := process_update workInProgress q renderExpirationTime u v in
      let! nx := gets (fun s => next (update_of s u)) in
      if bool_decide (nx = None \/ nx = Some first) then
        let! sh := gets (fun s => shared (queue_of s q)) in
        let! pendingQueue := gets (fun s => pending_of s sh) in
        match pendingQueue with
        | None => ret v
        | Some p =>
            let! nx := gets (fun s => next (update_of s p)) in
            do! on_update baseQueue_ (set_next nx);
            do! on_update p (set_next (Some first));
            do! on_queue q (fun q => set_base (baseState q) (Some p) q);
            do! set_pending sh None;
            match nx with
            | Some u => process_loop fuel workInProgress q renderExpirationTime first p u v
            | None => throw (JSError "TypeError")
            end
        end
      else
        match nx with
        | Some u => process_loop fuel workInProgress q renderExpirationTime first baseQueue_ u v
        | None => throw (JSError "TypeError")
        end
  end.

(** The pending updates are put after those of the base queue; the current fiber's queue
    gets them too. *)
Definition take_pending (workInProgress q : nat) : JS st (option nat) :=
  let! base := gets (fun s => baseQueue (queue_of s q)) in
  let! sh := gets (fun s => shared (queue_of s q)) in
  let! pendingQueue := gets (fun s => pending_of s sh) in
  match pendingQueue with
  | None => ret base
  | Some p =>
      do! match base with
          | Some b =>
              let! baseFirst := gets (fun s => next (update_of s b)) in
              let! pendingFirst := gets (fun s => next (update_of s p)) in
              do! on_update b (set_next pendingFirst);
              on_update p (set_next baseFirst)
          | None => ret tt
          end;
      do! set_pending sh None;
      let! current := gets (fun s => alternate (fiber_of s workInProgress)) in
      do! match current with
          | Some c =>
              let! currentQueue := gets (fun s => updateQueue (fiber_of s c)) in
              match currentQueue with
              | Some cq => on_queue cq (fun q => set_base (baseState q) (Some p) q)
              | None => ret tt
              end
          | None => ret tt
          end;
      ret (Some p)
  end.
(** What remains is closed into a circular list and stored. *)
Definition write_back (workInProgress q : nat) (v : vars) : JS st unit :=
  let! bs := match newBaseQueueLast v with
             | None => ret (newState v)
             | Some last =>
                 do! on_update last (set_next (newBaseQueueFirst v));
                 ret (newBaseState v)
             end in
  do! on_queue q (fun q => set_base bs (newBaseQueueLast v) q);
  do! markUnprocessedUpdateTime (newExpirationTime v);
  on_fiber workInProgress (set_memoized (newExpirationTime v) (newState v)).
Definition processUpdateQueue (fuel : nat) (workInProgress : nat) (renderExpirationTime : Z) : JS st unit :=
  let! wq := gets (fun s => updateQueue (fiber_of s workInProgress)) in
  match wq with
  | None => throw (JSError "TypeError")
  | Some q =>
      do! modify (set_hasForceUpdate false);
      let! base := take_pending workInProgress q in
      match base with
      | None => ret tt
      | Some b =>
          let! first := gets (fun s => next (update_of s b)) in
          let! start := gets (fun s => baseState (queue_of s q)) in
          let v := {| newState := start; newExpirationTime := NoWork; newBaseState := None;
                      newBaseQueueFirst := None; newBaseQueueLast := None |} in
          let! v := match first with
                    | Some f => process_loop fuel workInProgress q renderExpirationTime f b f v
                    | None => ret v
                    end in
          write_back workInProgress q v
      end
  end.

Definition commitUpdateQueue (finishedQueue : nat) : JS st unit :=
  let! es := gets (fun s => effects (queue_of s finishedQueue)) in
  do! on_queue finishedQueue (set_effects None);
  for_each (default [] es) (fun e =>
    let! c := gets (fun s => callback (contents (update_of s e))) in
    match c with
    | Some c =>
        do! on_update e (fun u => {| contents := with_callback None (contents u); next := next u |});
        modify (fun s => set_called (called s ++ [c]) s)
    | None => ret tt
    end).

(** The other fiber of the pair is made, or used again, from the current one. *)
Definition set_alternate x (f : fiber) : fiber :=
  {| updateQueue := updateQueue f; alternate := x; memoizedState := memoizedState f;
     fiberExpirationTime := fiberExpirationTime f; effectTag := effectTag f |}.
Definition createFiber : JS st nat := fun s =>
  let w := allocated s in (Ret w, set_allocated (S w) (set_fibers (<[w := no_fiber]> (fibers s)) s)).
Definition createWorkInProgress (current : nat) : JS st nat :=
  let! alt := gets (fun s => alternate (fiber_of s current)) in
  let! w := match alt with
            | None =>
                let! w := createFiber in
                do! on_fiber w (set_alternate (Some current));
                do! on_fiber current (set_alternate (Some w));
                ret w
            | Some w => do! on_fiber w (set_effectTag 0); ret w
            end in
  let! f := gets (fun s => fiber_of s current) in
  do! on_fiber w (fun x => set_updateQueue (updateQueue f) (set_memoized (fiberExpirationTime f) (memoizedState f) x));
  ret w.

(** ** The life of a component's state *)
Inductive event :=
  | Enqueue (through_alternate : bool) (i : item)
  | Render (renderExpirationTime : Z)
  | Commit.
Definition start_work (current : nat) : JS st nat :=
  let! w := createWorkInProgress current in
  do! cloneUpdateQueue current w;
  ret w.
(** The current fiber, and the work in progress once it is rendered. *)
Definition step (x : nat * option nat) (e : event) : JS st (nat * option nat) :=
  let '(current, rendered) := x in
  match e with
  | Enqueue alt i =>
      let! f := gets (fun s => fiber_of s current) in
      do! enqueue_item (if alt then default current (alternate f) else current) i;
      ret x
  | Render R =>
      let! w := start_work current in
      let! n := gets allocated in
      do! processUpdateQueue n w R;
      ret (current, Some w)
  | Commit =>
      match rendered with
      | None => ret x
      | Some w =>
          let! q := gets (fun s => updateQueue (fiber_of s w)) in
          do! match q with Some q => commitUpdateQueue q | None => ret tt end;
          ret (w, None)
      end
  end.
Fixpoint run (x : nat * option nat) (l : list event) : JS st (nat * option nat) :=
  match l with [] => ret x | e :: l' => let! x := step x e in run x l' end.
Definition mount_state (S0 : state) : JS st nat :=
  let! c := createFiber in
  do! on_fiber c (set_memoized NoWork S0);
  do! initializeUpdateQueue c;
  ret c.
(** A render after a history from the mount on: the current fiber and the work in progress. *)
Definition life (S0 : state) (l : list event) (R : Z) : JS st (nat * option nat) :=
  let! c := mount_state S0 in
  let! x := run (c, None) l in
  step x (Render R).
Definition enqueued (l : list event) : list item :=
  flat_map (fun e => match e with Enqueue _ i => [i] | _ => [] end) l.
End UpdateQueue.

(** ** Circular lists *)
Abbreviation nodes := (gmap nat update).
Fixpoint chain (h : nodes) (ids : list nat) (its : list item) (tail : option nat) : Prop :=
  match ids, its with
  | [], [] => True
  | a :: ids', i :: its' =>
      h !! a = Some {| contents := i; next := match ids' with [] => tail | b :: _ => Some b end |} /\
      chain h ids' its' tail
  | _, _ => False
  end.
(** The circular list that ends in [bq], if any. *)
Definition ring (h : nodes) (bq : option nat) (ids : list nat) (its : list item) : Prop :=
  NoDup ids /\ last ids = bq /\ chain h ids its (head ids).
Definition head_or (ids : list nat) (tail : option nat) : option nat :=
  match ids with [] => tail | b :: _ => Some b end.

Lemma chain_cons h a ids i its tail :
  chain h (a :: ids) (i :: its) tail <->
  h !! a = Some {| contents := i; next := head_or ids tail |} /\ chain h ids its tail.
Proof. done. Qed.
Lemma chain_frame h h' ids its tail :
  (forall a, a ∈ ids -> h' !! a = h !! a) -> chain h ids its tail -> chain h' ids its tail.
Proof.
  revert its. induction ids as [|a ids IH]; intros [|i its] Hf; try done. cbn. intros [H1 H2]. split.
  - rewrite Hf; [done|left].
  - apply IH; [|done]. intros b Hb. apply Hf. by right.
Qed.
Lemma chain_app h ids1 ids2 its1 its2 tail :
  chain h ids1 its1 (head_or ids2 tail) -> chain h ids2 its2 tail -> chain h (ids1 ++ ids2) (its1 ++ its2) tail.
Proof.
  revert its1. induction ids1 as [|a ids1 IH]; intros [|i its1]; try done. cbn. intros [H1 H2] H3. split; [|by apply IH].
  rewrite H1. f_equal. f_equal. destruct ids1, ids2; done.
Qed.
(** The last node gets another tail. *)
Lemma chain_retarget h ids l its tail tail' :
  NoDup ids -> last ids = Some l -> chain h ids its tail ->
  chain (<[l := set_next tail' (default no_update (h !! l))]> h) ids its tail'.
Proof.
  revert its. induction ids as [|a ids IH]; intros [|i its] Hd Hl; try done.
  cbn. intros [H1 H2]. apply NoDup_cons in Hd as [Hn Hd]. destruct ids as [|b ids].
  - injection Hl as ->. destruct its; [|done]. split; [|done]. by rewrite lookup_insert_eq, H1.
  - assert (Hl' : last (b :: ids) = Some l) by done. split; [|by apply (IH its)].
    rewrite lookup_insert_ne; [done|]. intros ->. apply Hn, last_Some_elem_of. exact Hl'.
Qed.
Lemma chain_lengths h ids its tail : chain h ids its tail -> length ids = length its.
Proof. revert its. induction ids as [|a ids IH]; intros [|i its]; try done. cbn. intros [_ H]. f_equal. by apply IH. Qed.
Lemma chain_last_lookup h ids its tail l : chain h ids its tail -> last ids = Some l -> exists i,
  h !! l = Some {| contents := i; next := tail |}.
Proof.
  revert its. induction ids as [|a ids IH]; intros [|i its]; try done. intros [H1 H2] Hl.
  destruct ids as [|b ids]; [injection Hl as ->; by exists i|]. by apply (IH its).
Qed.
Lemma ring_next h l ids its : ring h (Some l) ids its -> next (default no_update (h !! l)) = head ids.
Proof. intros (_ & Hl & Hc). destruct (chain_last_lookup _ _ _ _ _ Hc Hl) as [i ->]. done. Qed.
Lemma ring_empty h : ring h None [] [].
Proof. split_and!; [constructor|done..]. Qed.
Lemma ring_none h ids its : ring h None ids its -> ids = [] /\ its = [].
Proof.
  intros (_ & Hl & Hc). apply last_None in Hl as ->. destruct its; done.
Qed.
Lemma ring_frame h h' bq ids its : (forall a, a ∈ ids -> h' !! a = h !! a) -> ring h bq ids its -> ring h' bq ids its.
Proof. intros Hf (H1 & H2 & H3). split_and!; [done..|]. by eapply chain_frame. Qed.
(** Two lists are joined by exchanging the successors of their last nodes. *)
Lemma ring_join h b p ids1 ids2 its1 its2 :
  ring h (Some b) ids1 its1 -> ring h (Some p) ids2 its2 -> (forall x, x ∈ ids1 -> x ∉ ids2) ->
  let h1 := <[b := set_next (head ids2) (default no_update (h !! b))]> h in
  ring (<[p := set_next (head ids1) (default no_update (h1 !! p))]> h1) (Some p) (ids1 ++ ids2) (its1 ++ its2).
Proof.
  intros (D1 & L1 & C1) (D2 & L2 & C2) Hd h1.
  assert (Hb : b ∈ ids1) by (by apply last_Some_elem_of). assert (Hp : p ∈ ids2) by (by apply last_Some_elem_of).
  assert (Hbp : b <> p) by (intros ->; by eapply Hd). split_and!.
  - apply NoDup_app. split_and!; [done| |done]. apply Hd.
  - rewrite last_app, L2. done.
  - apply chain_app.
    + assert (Hh : head_or ids2 (head (ids1 ++ ids2)) = head ids2) by (by destruct ids2). rewrite Hh.
      eapply chain_frame; [|by apply (chain_retarget h ids1 b its1 (head ids1))].
      intros a Ha. rewrite lookup_insert_ne; [done|]. intros ->. by eapply Hd.
    + assert (Hh : head (ids1 ++ ids2) = head ids1) by (by destruct ids1). rewrite Hh.
      apply (chain_retarget h1 ids2 p its2 (head ids2)); [done..|].
      eapply chain_frame; [|exact C2]. intros a Ha. unfold h1. rewrite lookup_insert_ne; [done|]. intros <-. by eapply Hd.
Qed.

(** ** What the updates come to *)
Section Spec.
Context (call : nat -> state -> state * list item).
Definition value_of (p : payload) (prevState : state) : state :=
  match p with
  | PNothing => None
  | PObject f => Some f
  | PFunction u => fst (call u prevState)
  end.
Definition apply_item (prevState : state) (i : item) : state :=
  match utag i with
  | ReplaceState => value_of (upayload i) prevState
  | ForceUpdate => prevState
  | _ => merge prevState (value_of (upayload i) prevState)
  end.
(** All updates, in their order. *)
Definition apply_all (s : state) (l : list item) : state := foldl apply_item s l.
(** Those of sufficient priority; and, from the first that is skipped on, the state and
    the updates to start from the next time. *)
Definition rebase_item (R : Z) (x : state * option (state * list item)) (i : item) : state * option (state * list item) :=
  let '(s, base) := x in
  if expirationTime i <? R then
    (s, Some match base with None => (s, [i]) | Some (b, l) => (b, l ++ [i]) end)
  else
    (apply_item s i,
     match base with None => None | Some (b, l) => Some (b, l ++ [with_expirationTime Sync i]) end).
Definition rebase (R : Z) (s : state) (l : list item) : state * option (state * list item) :=
  foldl (rebase_item R) (s, None) l.
(** The base state and the base queue afterwards. *)
Definition rebased (x : state * option (state * list item)) : state * list item :=
  match snd x with None => (fst x, []) | Some b => b end.
(** The highest priority that is left. *)
Definition left_over (R : Z) (l : list item) : Z :=
  foldl (fun e i => if expirationTime i <? R then Z.max e (expirationTime i) else e) NoWork l.

Lemma apply_Sync s i : apply_item s (with_expirationTime Sync i) = apply_item s i.
Proof. done. Qed.
Lemma apply_all_snoc s l i : apply_all s (l ++ [i]) = apply_item (apply_all s l) i.
Proof. unfold apply_all. by rewrite foldl_app. Qed.
(** Whatever is skipped, in the end every update has been applied in its order. *)
Lemma rebase_keeps R s l :
  let '(s', l') := rebased (rebase R s l) in apply_all s' l' = apply_all s l.
Proof.
  unfold rebase. induction l as [|i l IH] using rev_ind; [done|]. rewrite foldl_app, apply_all_snoc. cbn [foldl].
  destruct (foldl (rebase_item R) (s, None) l) as [s1 [[b r]|]]; cbn in *; destruct (_ <? _); cbn;
    rewrite ?apply_all_snoc; cbn; by rewrite <- ?IH.
Qed.
Lemma rebase_all R s l : Forall (fun i => R <= expirationTime i) l -> rebase R s l = (apply_all s l, None).
Proof.
  unfold rebase. induction l as [|i l IH] using rev_ind; [done|]. rewrite Forall_app, Forall_singleton. intros [H1 H2].
  rewrite foldl_app, apply_all_snoc, (IH H1). cbn. destruct (Z.ltb_spec (expirationTime i) R); [lia|done].
Qed.
Lemma rebased_times (P : Z -> Prop) R s l : P Sync -> Forall (fun i => P (expirationTime i)) l ->
  Forall (fun i => P (expirationTime i)) (snd (rebased (rebase R s l))).
Proof.
  intros HS. unfold rebase. induction l as [|i l IH] using rev_ind; [constructor|]. rewrite Forall_app, Forall_singleton.
  intros [H1 H2]. specialize (IH H1). rewrite foldl_app. cbn [foldl].
  destruct (foldl (rebase_item R) (s, None) l) as [s1 [[b r]|]]; cbn in *; destruct (_ <? _); cbn; try done.
  - apply Forall_app. split; [done|by repeat constructor].
  - apply Forall_app. split; [done|by repeat constructor].
  - by repeat constructor.
Qed.
End Spec.

(** ** What the steps leave alone *)
Definition bare (q : queue) : queue := set_effects None q.
Definition links (f : fiber) : option nat * option nat := (updateQueue f, alternate f).
Definition quiet (s s' : st) : Prop :=
  pendings s' = pendings s /\ (allocated s <= allocated s')%nat /\
  (forall q, bare (queue_of s' q) = bare (queue_of s q)) /\
  forall f, links (fiber_of s' f) = links (fiber_of s f).
(** ... and the nodes too *)
Definition minor (s s' : st) : Prop :=
  quiet s s' /\ updates s' = updates s /\ allocated s' = allocated s /\
  forall f, memoizedState (fiber_of s' f) = memoizedState (fiber_of s f).
#[export] Instance quiet_preorder : PreOrder quiet.
Proof.
  split; [by intros s|]. intros s1 s2 s3 (A1 & A2 & A3 & A4) (B1 & B2 & B3 & B4).
  split_and!; [congruence|lia|intros q; by rewrite B3|intros f; by rewrite B4].
Qed.
#[export] Instance minor_preorder : PreOrder minor.
Proof.
  split; [by intros s|]. intros s1 s2 s3 (A1 & A2 & A3 & A4) (B1 & B2 & B3 & B4).
  split_and!; [by etransitivity|congruence|congruence|intros f; by rewrite B4].
Qed.
Lemma minor_quiet s s' : minor s s' -> quiet s s'.
Proof. by intros []. Qed.
#[local] Hint Resolve minor_preorder : js.
Lemma minor_modify f : (forall s, minor s (f s)) -> evolves minor (modify f).
Proof. apply evolves_modify. Qed.
Lemma fiber_of_insert s x f y :
  fiber_of (set_fibers (<[x := f]> (fibers s)) s) y = if decide (x = y) then f else fiber_of s y.
Proof. unfold fiber_of. cbn. case_decide as H; [subst; by rewrite lookup_insert_eq|by rewrite lookup_insert_ne]. Qed.
Lemma queue_of_insert s x q y :
  queue_of (set_queues (<[x := q]> (queues s)) s) y = if decide (x = y) then q else queue_of s y.
Proof. unfold queue_of. cbn. case_decide as H; [subst; by rewrite lookup_insert_eq|by rewrite lookup_insert_ne]. Qed.
Lemma minor_fiber x f : (forall y, links (f y) = links y) -> (forall y, memoizedState (f y) = memoizedState y) ->
  evolves minor (on_fiber x f).
Proof.
  intros H1 H2. apply minor_modify. intros s. unfold minor, quiet. split_and!; try done.
  - intros y. rewrite fiber_of_insert. case_decide; [by subst|done].
  - intros y. rewrite fiber_of_insert. case_decide; [by subst|done].
Qed.
Lemma minor_queue x f : (forall y, bare (f y) = bare y) -> evolves minor (on_queue x f).
Proof.
  intros H. apply minor_modify. intros s. unfold minor, quiet. split_and!; try done.
  intros y. rewrite queue_of_insert. case_decide; [by subst|done].
Qed.
Lemma minor_mark e c : evolves minor (markRenderEventTimeAndConfig e c).
Proof.
  apply minor_modify. intros s. cbv zeta. destruct ((e <? latestProcessedExpirationTime s) && (Idle <? e)), c; try done;
    by destruct ((e <? latestSuspenseTimeout _) && (Idle <? e)).
Qed.
Lemma minor_unprocessed e : evolves minor (markUnprocessedUpdateTime e).
Proof. apply minor_modify. intros s. by destruct (_ <? _). Qed.
Lemma minor_force b : evolves minor (modify (set_hasForceUpdate b)).
Proof. by apply minor_modify. Qed.
#[local] Hint Resolve minor_mark minor_unprocessed minor_force : js.

Section Processing.
Context (call : nat -> state -> state * list item).
(** Updater functions schedule nothing, as they should. *)
Context (Hpure : forall u s, snd (call u s) = []).
Abbreviation apply_item := (apply_item call).
Abbreviation rebase_item := (rebase_item call).

Lemma payload_value_run w p prev s : payload_value call w p prev s = (Ret (value_of call p prev), s).
Proof.
  destruct p as [| |u]; cbn; try done. specialize (Hpure u prev). destruct (call u prev) as [r l]. cbn in *. by subst.
Qed.
Lemma getState_run w i prev s : exists s',
  getStateFromUpdate call w i prev s = (Ret (apply_item prev i), s') /\ minor s s'.
Proof.
  unfold getStateFromUpdate, UpdateQueue.apply_item. destruct (utag i).
  - rewrite (bind_of _ _ _ _ _ (payload_value_run w (upayload i) prev s)). by eexists.
  - rewrite payload_value_run. by eexists.
  - eexists. split; [done|]. apply (minor_force true s).
  - set (f := fun f => set_effectTag _ f). rewrite (bind_of _ _ _ tt (final (on_fiber w f) s)) by done.
    rewrite (bind_of _ _ _ _ _ (payload_value_run w (upayload i) prev _)). eexists. split; [done|].
    by apply minor_fiber.
Qed.

(** The updates that are kept so far. *)
Definition keeps_base (h : nodes) (v : vars) (nb : list nat) (base : option (state * list item)) : Prop :=
  match base with
  | None => nb = [] /\ newBaseQueueFirst v = None /\ newBaseQueueLast v = None
  | Some (b, l) =>
      nb <> [] /\ NoDup nb /\ newBaseState v = b /\ newBaseQueueFirst v = head nb /\ newBaseQueueLast v = last nb /\
      chain h nb l None
  end.
Definition extends (nb : list nat) (s s' : st) : Prop :=
  quiet s s' /\ (forall a, (a < allocated s)%nat -> a ∉ nb -> updates s' !! a = updates s !! a).

Lemma append_clone_run i v s nb base :
  keeps_base (updates s) v nb base -> (forall a, a ∈ nb -> a < allocated s)%nat -> exists v' s',
    append_clone i v s = (Ret v', s') /\ extends nb s s' /\ allocated s' = S (allocated s) /\
    newState v' = newState v /\ newExpirationTime v' = newExpirationTime v /\
    keeps_base (updates s') v' (nb ++ [allocated s])
      (Some match base with None => (newState v, [i]) | Some (b, l) => (b, l ++ [i]) end).
Proof.
  intros Hk Hlt. unfold append_clone, alloc_update. unfold bind at 1. cbn beta iota.
  set (s1 := set_allocated _ _).
  assert (Q1 : quiet s s1) by (split_and!; [done|cbn; lia|done|done]).
  assert (U1 : forall a, (a < allocated s)%nat -> updates s1 !! a = updates s !! a).
  { intros a Ha. cbn. rewrite lookup_insert_ne; [done|lia]. }
  destruct base as [[b l]|].
  - destruct Hk as (Hne & Hd & Hb & Hf & Hl & Hc). destruct (last nb) as [x|] eqn:Ex; [|by apply last_None in Ex].
    rewrite Hl. assert (Hx : x ∈ nb) by (by apply last_Some_elem_of). assert (Hxlt := Hlt x Hx).
    unfold on_update. rewrite bind_modify. eexists _, _. split; [done|]. unfold extends, keeps_base. split_and!; try done.
    + intros a Ha Hn. cbn. rewrite lookup_insert_ne by (by intros ->). by apply U1.
    + by destruct nb.
    + apply NoDup_app. split_and!; [done| |apply NoDup_singleton]. intros a Ha ->%list_elem_of_singleton.
      specialize (Hlt _ Ha). lia.
    + cbn. rewrite Hf. by destruct nb.
    + by rewrite last_snoc.
    + apply chain_app.
      * cbn [head_or updates set_updates]. unfold update_of. apply chain_retarget with (tail := None); [done..|].
        eapply chain_frame; [|exact Hc]. intros a Ha. apply U1. by apply Hlt.
      * cbn. rewrite lookup_insert_ne by lia. by rewrite lookup_insert_eq.
  - destruct Hk as (-> & _ & ->). eexists _, _. split; [done|]. unfold extends, keeps_base. split_and!; try done.
    + intros a Ha _. by apply U1.
    + apply NoDup_singleton.
    + cbn. by rewrite lookup_insert_eq.
Qed.
Lemma minor_extends nb s s' : minor s s' -> extends nb s s'.
Proof. intros (Q & U & _). split; [done|]. intros a _ _. by rewrite U. Qed.
(** The new nodes are old clones or newly allocated. *)
Definition grown (nb nb' : list nat) (s s' : st) : Prop :=
  (forall a, a ∈ nb' -> a ∈ nb \/ (allocated s <= a)%nat) /\ forall a, a ∈ nb' -> (a < allocated s')%nat.
Lemma extends_trans nb nb' s1 s2 s3 : (forall a, a ∈ nb' -> a ∈ nb \/ (allocated s1 <= a)%nat) ->
  extends nb s1 s2 -> extends nb' s2 s3 -> extends nb s1 s3.
Proof.
  intros Hnb [Q1 U1] [Q2 U2]. split; [by etransitivity|]. intros a Ha Hn. assert (Hq := proj1 (proj2 Q1)).
  rewrite U2, U1; [done..|lia|]. intros Hin. destruct (Hnb a Hin); [done|lia].
Qed.
Lemma grown_snoc nb s s' : (forall a, a ∈ nb -> a < allocated s)%nat -> allocated s' = S (allocated s) ->
  grown nb (nb ++ [allocated s]) s s'.
Proof.
  intros Hlt Hs. split; intros a; rewrite elem_of_app, list_elem_of_singleton.
  - intros [?| ->]; [by left|right; lia].
  - intros [H| ->]; [apply Hlt in H|]; lia.
Qed.
Lemma grown_refl nb s s' : (forall a, a ∈ nb -> a < allocated s)%nat -> (allocated s <= allocated s')%nat -> grown nb nb s s'.
Proof. intros Hlt Hs. split; intros a Ha; [by left|]. apply Hlt in Ha. lia. Qed.
Definition left_of (R : Z) (e : Z) (i : item) : Z := if expirationTime i <? R then Z.max e (expirationTime i) else e.

(** The effects of an update on the queue and the fiber. *)
Lemma effects_minor (w q u : nat) (b : bool) : evolves minor (when b (
  do! on_fiber w (fun f => set_effectTag (Z.lor (effectTag f) Callback) f);
  on_queue q (fun q => set_effects (Some (default [] (effects q) ++ [u])) q))).
Proof.
  assert (H1 : evolves minor (on_fiber w (fun f => set_effectTag (Z.lor (effectTag f) Callback) f))) by by apply minor_fiber.
  assert (H2 : evolves minor (on_queue q (fun q => set_effects (Some (default [] (effects q) ++ [u])) q))) by by apply minor_queue.
  js_auto.
Qed.
Lemma effects_run w q u b s : exists s', when b (
  do! on_fiber w (fun f => set_effectTag (Z.lor (effectTag f) Callback) f);
  on_queue q (fun q => set_effects (Some (default [] (effects q) ++ [u])) q)) s = (Ret tt, s') /\ minor s s'.
Proof. assert (H := effects_minor w q u b s). unfold final in H. destruct b; by eexists. Qed.
Lemma keeps_base_state h v nb base x : keeps_base h v nb base -> keeps_base h (with_newState x v) nb base.
Proof. by destruct base as [[]|]. Qed.
Lemma process_update_run R w q u i nx v s nb base :
  updates s !! u = Some {| contents := i; next := nx |} ->
  keeps_base (updates s) v nb base -> (forall a, a ∈ nb -> a < allocated s)%nat ->
  exists v' s' nb', process_update call w q R u v s = (Ret v', s') /\
    extends nb s s' /\ grown nb nb' s s' /\
    keeps_base (updates s') v' nb' (snd (rebase_item R (newState v, base) i)) /\
    newState v' = fst (rebase_item R (newState v, base) i) /\
    newExpirationTime v' = left_of R (newExpirationTime v) i.
Proof.
  intros Hu Hk Hlt. unfold process_update, left_of. rewrite bind_gets.
  assert (Hi : contents (update_of s u) = i) by (unfold update_of; by rewrite Hu). rewrite Hi. unfold UpdateQueue.rebase_item.
  destruct (expirationTime i <? R) eqn:Er; cbn [fst snd].
  - destruct (append_clone_run i v s nb base Hk Hlt) as (v1 & s1 & E & X & A & N & T & K).
    rewrite (bind_of _ _ _ _ _ E). eexists _, s1, _. split; [done|]. split; [done|]. split; [by apply grown_snoc|]. split_and!.
    + destruct (newExpirationTime v1 <? expirationTime i); destruct base as [[b l]|]; exact K.
    + by destruct (newExpirationTime v1 <? expirationTime i).
    + rewrite T. destruct (Z.ltb_spec (newExpirationTime v) (expirationTime i)); cbn; [lia|]. rewrite T. lia.
  - assert (H1 : exists v1 s1 nb1, (if bool_decide (is_Some (newBaseQueueLast v))
        then append_clone (with_expirationTime Sync i) v else ret v) s = (Ret v1, s1) /\ extends nb s s1 /\ grown nb nb1 s s1 /\
        newState v1 = newState v /\ newExpirationTime v1 = newExpirationTime v /\
        keeps_base (updates s1) v1 nb1 match base with None => None | Some (b, l) => Some (b, l ++ [with_expirationTime Sync i]) end).
    { destruct base as [[b l]|].
      - assert (Hl : is_Some (newBaseQueueLast v)).
        { destruct Hk as (Hne & _ & _ & _ & -> & _). apply last_is_Some. done. }
        rewrite bool_decide_eq_true_2 by done.
        destruct (append_clone_run (with_expirationTime Sync i) v s nb (Some (b, l)) Hk Hlt) as (v1 & s1 & E & X & A & N & T & K).
        exists v1, s1, (nb ++ [allocated s]). split_and!; try done; by apply grown_snoc.
      - assert (Hl : newBaseQueueLast v = None) by apply Hk. rewrite Hl, bool_decide_eq_false_2 by (by intros []).
        exists v, s, nb. split; [done|]. split; [by split|]. split; [by apply grown_refl|]. by split_and!. }
    destruct H1 as (v1 & s1 & nb1 & E1 & X1 & G1 & N1 & T1 & K1). rewrite (bind_of _ _ _ _ _ E1).
    rewrite (bind_of _ _ _ tt (final (markRenderEventTimeAndConfig (expirationTime i) (suspenseConfig i)) s1)) by done.
    set (s2 := final _ s1). assert (M2 : minor s1 s2) by apply minor_mark.
    destruct (getState_run w i (newState v1) s2) as (s3 & E3 & M3). rewrite (bind_of _ _ _ _ _ E3).
    destruct (effects_run w q u (bool_decide (is_Some (callback i))) s3) as (s4 & E4 & M4). rewrite (bind_of _ _ _ _ _ E4).
    assert (M : minor s1 s4) by (etransitivity; [exact M2|]; by etransitivity).
    eexists _, s4, nb1. split; [done|]. split; [|split; [|split; [|split]]].
    + eapply extends_trans; [exact (proj1 G1)|exact X1|by apply minor_extends].
    + split; [apply G1|]. destruct M as (_ & _ & -> & _). apply G1.
    + apply keeps_base_state. destruct M as (_ & -> & _). exact K1.
    + cbn. by rewrite N1.
    + done.
Qed.

(** The loop over a circular list, with no updates pending. *)
Lemma process_loop_run R w q first b u ids its v s nb base fuel :
  chain (updates s) (u :: ids) its (Some first) -> first ∉ ids -> NoDup (u :: ids) ->
  (forall a, a ∈ u :: ids -> (a < allocated s)%nat /\ a ∉ nb) ->
  keeps_base (updates s) v nb base -> (forall a, a ∈ nb -> a < allocated s)%nat ->
  pending_of s (shared (queue_of s q)) = None -> (length ids < fuel)%nat ->
  exists v' s' nb', process_loop call fuel w q R first b u v s = (Ret v', s') /\
    extends nb s s' /\ grown nb nb' s s' /\
    keeps_base (updates s') v' nb' (snd (foldl (rebase_item R) (newState v, base) its)) /\
    newState v' = fst (foldl (rebase_item R) (newState v, base) its) /\
    newExpirationTime v' = foldl (left_of R) (newExpirationTime v) its.
Proof.
  revert u its v s nb base fuel. induction ids as [|u' ids IH]; intros u its v s nb base fuel Hc Hf Hd Hlt Hk Hnb Hp Hfu;
    destruct fuel as [|fuel]; try lia; destruct its as [|i its]; try done; apply chain_cons in Hc as [Hu Hc].
  - destruct its; [|done]. cbn [process_loop].
    destruct (process_update_run R w q u i _ v s nb base Hu Hk Hnb) as (v1 & s1 & nb1 & E1 & X1 & G1 & K1 & N1 & T1).
    rewrite (bind_of _ _ _ _ _ E1), bind_gets.
    assert (Hn : next (update_of s1 u) = Some first).
    { destruct (Hlt u) as [Hu1 Hu2]; [left|]. unfold update_of. rewrite (proj2 X1) by done. by rewrite Hu. }
    rewrite Hn, bool_decide_eq_true_2 by (by right). rewrite !bind_gets.
    assert (Hp1 : pending_of s1 (shared (queue_of s1 q)) = None).
    { destruct X1 as [(P1 & _ & Q1 & _) _]. unfold pending_of in *. rewrite P1.
      assert (Hs : shared (queue_of s1 q) = shared (queue_of s q)) by apply (f_equal shared (Q1 q)). by rewrite Hs. }
    rewrite Hp1. exists v1, s1, nb1. split_and!; try done; apply X1 || apply G1.
  - cbn [process_loop].
    destruct (process_update_run R w q u i _ v s nb base Hu Hk Hnb) as (v1 & s1 & nb1 & E1 & X1 & G1 & K1 & N1 & T1).
    rewrite (bind_of _ _ _ _ _ E1), bind_gets.
    apply NoDup_cons in Hd as [Hd1 Hd2]. apply not_elem_of_cons in Hf as [Hf1 Hf2].
    assert (Hn : next (update_of s1 u) = Some u').
    { destruct (Hlt u) as [Hu1 Hu2]; [left|]. unfold update_of. rewrite (proj2 X1) by done. by rewrite Hu. }
    rewrite Hn, bool_decide_eq_false_2 by (intros [?|[= ->]]; done).
    assert (Ha := proj1 (proj2 (proj1 X1))).
    destruct (IH u' its v1 s1 nb1 (snd (rebase_item R (newState v, base) i)) fuel) as (v2 & s2 & nb2 & E2 & X2 & G2 & K2 & N2 & T2).
    + eapply chain_frame; [|exact Hc]. intros a Hin. destruct (Hlt a) as [H1 H2]; [by right|]. by apply X1.
    + done.
    + done.
    + intros a Hin. destruct (Hlt a) as [H1 H2]; [by right|]. split; [lia|]. intros H3.
      destruct (proj1 G1 a H3); [done|lia].
    + exact K1.
    + apply G1.
    + destruct X1 as [(P1 & _ & Q1 & _) _]. unfold pending_of in *. rewrite P1.
      assert (Hs : shared (queue_of s1 q) = shared (queue_of s q)) by apply (f_equal shared (Q1 q)). by rewrite Hs.
    + cbn in Hfu. lia.
    + assert (Er : rebase_item R (newState v, base) i = (newState v1, snd (rebase_item R (newState v, base) i))).
      { rewrite N1. by destruct (rebase_item R (newState v, base) i). }
      exists v2, s2, nb2. split; [done|]. split; [by eapply extends_trans; [exact (proj1 G1)| |]|]. split.
      { split; [|apply G2]. intros a Hin. destruct (proj1 G2 a Hin) as [H3|H3]; [by apply G1|right; lia]. }
      cbn [foldl]. rewrite Er, <- T1. done.
Qed.

(** The pending updates follow those of the base queue, in the current queue too. *)
Lemma take_pending_run w q c cq s ids1 its1 ids2 its2 :
  alternate (fiber_of s w) = Some c -> updateQueue (fiber_of s c) = Some cq -> cq <> q ->
  baseQueue (queue_of s cq) = baseQueue (queue_of s q) ->
  ring (updates s) (baseQueue (queue_of s q)) ids1 its1 ->
  ring (updates s) (pending_of s (shared (queue_of s q))) ids2 its2 -> (forall x, x ∈ ids1 -> x ∉ ids2) ->
  exists bq s', take_pending w q s = (Ret bq, s') /\ ring (updates s') bq (ids1 ++ ids2) (its1 ++ its2) /\
    pending_of s' (shared (queue_of s q)) = None /\ allocated s' = allocated s /\ fibers s' = fibers s /\
    queue_of s' q = queue_of s q /\ queue_of s' cq = set_base (baseState (queue_of s cq)) bq (queue_of s cq).
Proof.
  intros Ha Hc Hne Hb R1 R2 Hd. unfold take_pending. rewrite !bind_gets.
  destruct (pending_of s (shared (queue_of s q))) as [p|] eqn:Ep.
  - set (m := match baseQueue (queue_of s q) with Some _ => _ | None => _ end).
    assert (Hm : exists h, m s = (Ret tt, set_updates h s) /\ ring h (Some p) (ids1 ++ ids2) (its1 ++ its2)).
    { unfold m. destruct (baseQueue (queue_of s q)) as [b|] eqn:Eb.
      - rewrite !bind_gets. unfold update_of at 1 2. rewrite (ring_next _ _ _ _ R1), (ring_next _ _ _ _ R2).
        unfold on_update. rewrite bind_modify. eexists. split; [done|]. by apply ring_join.
      - apply ring_none in R1 as [-> ->]. exists (updates s). split; [by destruct s|done]. }
    destruct Hm as (h & Em & Rh). rewrite (bind_of _ _ _ _ _ Em). unfold set_pending. rewrite bind_modify, bind_gets.
    replace (alternate _) with (Some c) by (symmetry; exact Ha). rewrite bind_assoc, bind_gets.
    replace (updateQueue _) with (Some cq) by (symmetry; exact Hc). unfold on_queue. rewrite bind_modify.
    eexists _, _. split; [done|]. split; [exact Rh|]. rewrite !queue_of_insert, decide_False, decide_True by done.
    split_and!; try done. unfold pending_of. cbn. by rewrite lookup_insert_eq.
  - apply ring_none in R2 as [-> ->]. rewrite !app_nil_r. eexists _, s. split; [done|]. split_and!; try done.
    rewrite <- Hb. by destruct (queue_of s cq).
Qed.

Lemma write_back_run w q v s nb base :
  keeps_base (updates s) v nb base -> exists s', write_back w q v s = (Ret tt, s') /\
    let '(b, l) := rebased (newState v, base) in
    queue_of s' q = set_base b (newBaseQueueLast v) (queue_of s q) /\
    ring (updates s') (newBaseQueueLast v) nb l /\
    (forall a, a ∉ nb -> updates s' !! a = updates s !! a) /\
    pendings s' = pendings s /\ allocated s' = allocated s /\
    (forall q', q' <> q -> queue_of s' q' = queue_of s q') /\
    (forall f, f <> w -> fiber_of s' f = fiber_of s f) /\
    fiber_of s' w = set_memoized (newExpirationTime v) (newState v) (fiber_of s w).
Proof.
  intros Hk. unfold write_back.
  set (m := match newBaseQueueLast v with Some _ => _ | None => _ end).
  assert (Hm : exists h, m s = (Ret (fst (rebased (newState v, base))), set_updates h s) /\
     ring h (newBaseQueueLast v) nb (snd (rebased (newState v, base))) /\ (forall a, a ∉ nb -> h !! a = updates s !! a)).
  { unfold m. destruct base as [[b l]|].
    - destruct Hk as (Hne & Hd & Hb & Hf & Hl & Hc). destruct (last nb) as [x|] eqn:Ex; [|by apply last_None in Ex].
      rewrite Hl, Hf. unfold on_update. rewrite bind_modify. eexists. split; [by rewrite Hb|]. split.
      + split_and!; [done..|]. by apply chain_retarget with (tail := None).
      + intros a Ha. rewrite lookup_insert_ne; [done|]. intros ->. by apply Ha, last_Some_elem_of.
    - destruct Hk as (-> & _ & ->). exists (updates s). split; [by destruct s|]. split; [apply ring_empty|done]. }
  destruct Hm as (h & Em & Rh & Fh). rewrite (bind_of _ _ _ _ _ Em).
  destruct (rebased (newState v, base)) as [b l]. cbn [fst snd] in *.
  unfold on_queue, markUnprocessedUpdateTime. rewrite !bind_modify. eexists. split; [done|].
  set (s1 := set_queues _ _). set (s2 := if _ <? _ then _ else s1).
  assert (H2 : updates s2 = h /\ pendings s2 = pendings s /\ allocated s2 = allocated s /\ queues s2 = queues s1 /\ fibers s2 = fibers s)
    by (unfold s2; by destruct (_ <? _)).
  destruct H2 as (U & P & A & Q & F).
  assert (Hq : forall y, queue_of s2 y = queue_of s1 y) by (intros y; unfold queue_of; by rewrite Q).
  assert (Hf : forall y, fiber_of s2 y = fiber_of s y) by (intros y; unfold fiber_of; by rewrite F).
  split_and!; cbn; try congruence.
  - etransitivity; [exact (Hq q)|]. unfold s1. by rewrite queue_of_insert, decide_True.
  - intros a Ha. rewrite U. by apply Fh.
  - intros q' Hne. etransitivity; [exact (Hq q')|]. unfold s1. by rewrite queue_of_insert, decide_False.
  - intros f Hne. rewrite fiber_of_insert, decide_False by done. apply Hf.
  - rewrite fiber_of_insert, decide_True by done. f_equal. apply Hf.
Qed.

(** The loop from the first node of a circular list to its last one. *)
Lemma walk_run R w q b s ids its start fuel :
  ring (updates s) (Some b) ids its -> (forall a, a ∈ ids -> a < allocated s)%nat ->
  pending_of s (shared (queue_of s q)) = None -> (length ids <= fuel)%nat ->
  let v := {| newState := start; newExpirationTime := NoWork; newBaseState := None;
              newBaseQueueFirst := None; newBaseQueueLast := None |} in
  exists v' s' nb, match next (update_of s b) with
                   | Some f => process_loop call fuel w q R f b f v
                   | None => ret v
                   end s = (Ret v', s') /\
    extends [] s s' /\ grown [] nb s s' /\ keeps_base (updates s') v' nb (snd (rebase call R start its)) /\
    newState v' = fst (rebase call R start its) /\ newExpirationTime v' = left_over R its.
Proof.
  intros Hr Hlt Hp Hf v. unfold update_of. rewrite (ring_next _ _ _ _ Hr). destruct Hr as (Hd & Hl & Hc).
  destruct ids as [|u ids]; [done|]. cbn [head]. cbn [length] in Hf.
  apply (process_loop_run R w q u b u ids its v s [] None fuel); try done.
  - by apply NoDup_cons in Hd as [].
  - intros a Ha. split; [by apply Hlt|apply not_elem_of_nil].
  - intros a Ha. by apply not_elem_of_nil in Ha.
Qed.
Definition contains (s : st) (q : nat) (b : state) (ids : list nat) (its : list item) : Prop :=
  baseState (queue_of s q) = b /\ ring (updates s) (baseQueue (queue_of s q)) ids its.
Lemma process_queue_run R w q c cq s b ids1 its1 ids2 its2 fuel :
  updateQueue (fiber_of s w) = Some q -> alternate (fiber_of s w) = Some c -> updateQueue (fiber_of s c) = Some cq ->
  cq <> q -> baseQueue (queue_of s cq) = baseQueue (queue_of s q) -> contains s q b ids1 its1 ->
  ring (updates s) (pending_of s (shared (queue_of s q))) ids2 its2 -> (forall x, x ∈ ids1 -> x ∉ ids2) ->
  (forall a, a ∈ ids1 ++ ids2 -> a < allocated s)%nat -> (length (ids1 ++ ids2) <= fuel)%nat ->
  let x := rebase call R b (its1 ++ its2) in
  exists s' nb, processUpdateQueue call fuel w R s = (Ret tt, s') /\
    contains s' cq (baseState (queue_of s cq)) (ids1 ++ ids2) (its1 ++ its2) /\
    contains s' q (fst (rebased x)) nb (snd (rebased x)) /\
    (forall a, a ∈ nb -> a < allocated s')%nat /\ (allocated s <= allocated s')%nat /\
    pending_of s' (shared (queue_of s q)) = None /\
    shared (queue_of s' q) = shared (queue_of s q) /\ shared (queue_of s' cq) = shared (queue_of s cq) /\
    (forall f, links (fiber_of s' f) = links (fiber_of s f)) /\
    match its1 ++ its2 with
    | [] => forall f, memoizedState (fiber_of s' f) = memoizedState (fiber_of s f)
    | _ => memoizedState (fiber_of s' w) = fst x /\ fiberExpirationTime (fiber_of s' w) = left_over R (its1 ++ its2)
    end.
Proof.
  intros Hq Ha Hc Hne Hb [Hs R1] R2 Hd Hlt Hf x. unfold processUpdateQueue. rewrite bind_gets, Hq, bind_modify.
  set (s0 := set_hasForceUpdate false s).
  destruct (take_pending_run w q c cq s0 ids1 its1 ids2 its2 Ha Hc Hne Hb R1 R2 Hd)
    as (bq & s1 & E1 & Rg & P1 & A1 & F1 & Q1 & C1). rewrite (bind_of _ _ _ _ _ E1).
  assert (F1' : forall f, fiber_of s1 f = fiber_of s f) by (intros f; unfold fiber_of; by rewrite F1).
  destruct bq as [l|].
  - rewrite !bind_gets, Q1. change (baseState (queue_of s0 q)) with (baseState (queue_of s q)). rewrite Hs.
    destruct (walk_run R w q l s1 _ _ b fuel Rg) as (v & s2 & nb & E2 & [(P2 & A2 & Q2 & F2) U2] & G2 & K2 & N2 & T2);
      [rewrite A1; exact Hlt|rewrite Q1; exact P1|exact Hf|].
    rewrite (bind_of _ _ _ _ _ E2). destruct (write_back_run w q v s2 nb _ K2) as (s3 & E3 & H3).
    assert (Ex : (newState v, snd (rebase call R b (its1 ++ its2))) = x) by (rewrite N2; symmetry; apply surjective_pairing).
    rewrite Ex in H3. destruct (rebased x) as [b' l'] eqn:Er. destruct H3 as (Q3 & R3 & U3 & P3 & A3 & O3 & F3 & W3).
    assert (Hold : forall a, a ∈ ids1 ++ ids2 -> updates s3 !! a = updates s1 !! a).
    { intros a Hin. assert (Hl := Hlt a Hin). rewrite U3, U2; [done|rewrite A1; exact Hl|apply not_elem_of_nil|].
      intros Hn. destruct (proj1 G2 a Hn) as [Hn'|Hn']; [by apply not_elem_of_nil in Hn'|rewrite A1 in Hn'; cbn in Hn'; lia]. }
    assert (Hcq : queue_of s3 cq = queue_of s2 cq) by (apply O3; done). assert (B2 := Q2 cq). rewrite C1 in B2.
    exists s3, nb. split; [done|]. unfold contains. rewrite Hcq, Q3. cbn [baseState baseQueue set_base shared fst snd].
    split_and!; try done.
    + apply (f_equal baseState B2).
    + rewrite (f_equal baseQueue B2 : baseQueue (queue_of s2 cq) = Some l). by eapply ring_frame.
    + intros a Hin. rewrite A3. by apply G2.
    + rewrite A3. rewrite A1 in A2. exact A2.
    + unfold pending_of. rewrite P3, P2. exact P1.
    + assert (B3 := f_equal shared (Q2 q)). rewrite Q1 in B3. exact B3.
    + apply (f_equal shared B2).
    + intros f. destruct (decide (f = w)) as [->|Hw]; [rewrite W3|rewrite F3 by done].
      * rewrite <- F1'. apply (F2 w).
      * rewrite <- F1'. apply F2.
    + rewrite W3. destruct (its1 ++ its2) eqn:E12; [|split; [exact N2|exact T2]].
      destruct Rg as (_ & Hla & Hch). by destruct (ids1 ++ ids2).
  - apply ring_none in Rg as [Ei Et]. exists s1, []. rewrite Et in *. split; [done|]. unfold contains. rewrite Q1, C1.
    apply app_eq_nil in Et as [-> ->]. assert (ids1 = []) as -> by (destruct ids1; done).
    split_and!; try done; try (intros a Hin; by apply not_elem_of_nil in Hin).
    + rewrite Ei. apply ring_empty.
    + by rewrite A1.
    + intros f. by rewrite F1'.
    + intros f. by rewrite F1'.
Qed.
End Processing.

(** ** The current fiber and its alternate *)
Lemma rebased_nonempty call R s l : match snd (rebase call R s l) with Some (_, []) => False | _ => True end.
Proof.
  unfold rebase. induction l as [|i l IH] using rev_ind; [done|]. rewrite foldl_app. cbn [foldl].
  destruct (foldl (rebase_item call R) (s, None) l) as [s1 [[b r]|]]; cbn in *; destruct (_ <? _); cbn; try done; by destruct r.
Qed.
Lemma length_bounded n l : NoDup l -> (forall a, a ∈ l -> a < n)%nat -> (length l <= n)%nat.
Proof.
  intros Hd Hlt. rewrite <- (length_seq n 0). apply submseteq_length, NoDup_submseteq; [done|].
  intros a Ha. apply elem_of_seq. specialize (Hlt a Ha). lia.
Qed.
Lemma enqueue_item_run f q i s ids its :
  updateQueue (fiber_of s f) = Some q -> ring (updates s) (pending_of s (shared (queue_of s q))) ids its ->
  (forall a, a ∈ ids -> a < allocated s)%nat -> exists s',
    enqueue_item f i s = (Ret tt, s') /\
    ring (updates s') (pending_of s' (shared (queue_of s q))) (ids ++ [allocated s]) (its ++ [i]) /\
    (forall a, a ∉ ids -> a <> allocated s -> updates s' !! a = updates s !! a) /\
    queues s' = queues s /\ fibers s' = fibers s /\ allocated s' = S (allocated s).
Proof.
  intros Hq Hr Hlt. unfold enqueue_item, createUpdate, alloc_update, on_update. unfold bind at 1. cbn beta iota.
  rewrite bind_modify. unfold enqueueUpdate. rewrite bind_gets. set (u := allocated s). set (s1 := set_updates _ _).
  replace (updateQueue (fiber_of s1 f)) with (Some q) by (symmetry; exact Hq). rewrite !bind_gets.
  change (shared (queue_of s1 q)) with (shared (queue_of s q)).
  change (pending_of s1 (shared (queue_of s q))) with (pending_of s (shared (queue_of s q))).
  assert (Hu : updates s1 !! u = Some {| contents := i; next := Some u |}).
  { cbn. rewrite lookup_insert_eq. unfold update_of. cbn. rewrite lookup_insert_eq. by destruct i. }
  assert (Ho : forall a, a <> u -> updates s1 !! a = updates s !! a) by (intros a Ha; cbn; by rewrite !lookup_insert_ne).
  assert (Hs : queues s1 = queues s /\ fibers s1 = fibers s /\ allocated s1 = S u /\ pendings s1 = pendings s) by done.
  destruct Hs as (Qs & Fs & As & Ps). clearbody s1.
  assert (Hun : u ∉ ids) by (intros Hin; apply Hlt in Hin; unfold u in Hin; lia).
  assert (R1 : ring (updates s1) (pending_of s (shared (queue_of s q))) ids its).
  { eapply ring_frame; [|exact Hr]. intros a Ha. apply Ho. by intros ->. }
  assert (R2 : ring (updates s1) (Some u) [u] [i]) by (split_and!; [apply NoDup_singleton|done|by rewrite chain_cons]).
  destruct (pending_of s (shared (queue_of s q))) as [p|] eqn:Ep.
  - rewrite bind_assoc, bind_gets. rewrite (ring_next _ _ _ _ R1 : next (update_of s1 p) = head ids).
    unfold on_update. rewrite bind_assoc, !bind_modify. unfold set_pending, modify. eexists. split; [done|].
    assert (Hp : p ∈ ids) by (apply last_Some_elem_of, R1). assert (Hpu : p <> u) by (by intros ->).
    cbn [updates set_pendings set_updates queues fibers allocated]. split_and!; try congruence.
    + unfold pending_of. cbn [pendings set_pendings]. rewrite lookup_insert_eq. cbn [default].
      assert (Rj := ring_join _ _ _ _ _ _ _ R1 R2). cbn [head] in Rj. unfold update_of. cbn [updates set_updates].
      rewrite insert_insert_ne by done. rewrite lookup_insert_ne in Rj by done. rewrite (lookup_insert_ne _ u p) by done.
      apply Rj. by intros x Hx ->%list_elem_of_singleton.
    + intros a Ha Hau. rewrite !lookup_insert_ne; [by apply Ho| |]; intros ->; done.
  - apply ring_none in R1 as [-> ->]. unfold on_update. rewrite bind_modify. unfold set_pending, modify.
    eexists. split; [done|]. cbn [updates set_pendings set_updates queues fibers allocated]. split_and!; try congruence.
    + unfold pending_of. cbn [pendings set_pendings]. rewrite lookup_insert_eq. cbn [default app].
      split_and!; [apply NoDup_singleton|done|]. rewrite chain_cons. split; [|done]. rewrite lookup_insert_eq.
      unfold update_of. by rewrite Hu.
    + intros a _ Hau. rewrite lookup_insert_ne; [by apply Ho|]. by intros ->.
Qed.

(** Committing changes callbacks only. *)
Abbreviation strip := (with_callback None).
Definition cleared (h h' : nodes) : Prop := forall a u, h !! a = Some u -> exists u',
  h' !! a = Some u' /\ next u' = next u /\ strip (contents u') = strip (contents u).
Definition committed (s s' : st) : Prop :=
  cleared (updates s) (updates s') /\ pendings s' = pendings s /\ fibers s' = fibers s /\ allocated s' = allocated s /\
  forall q, bare (queue_of s' q) = bare (queue_of s q).
#[export] Instance cleared_preorder : PreOrder cleared.
Proof.
  split; [intros h a u Hu; by exists u|]. intros h1 h2 h3 H12 H23 a u Hu.
  destruct (H12 a u Hu) as (u2 & H2 & N2 & S2). destruct (H23 a u2 H2) as (u3 & H3 & N3 & S3).
  exists u3. split_and!; congruence.
Qed.
#[export] Instance committed_preorder : PreOrder committed.
Proof.
  split; [by intros s; split_and!|]. intros s1 s2 s3 (A1 & A2 & A3 & A4 & A5) (B1 & B2 & B3 & B4 & B5).
  split; [by etransitivity|]. split_and!; try congruence; intros q; by rewrite B5.
Qed.
#[local] Hint Resolve committed_preorder : js.
Lemma commit_committed q : evolves committed (commitUpdateQueue q).
Proof.
  assert (H1 : evolves committed (on_queue q (set_effects None))).
  { apply evolves_modify. intros s. split_and!; try done. intros y. rewrite queue_of_insert. by case_decide; [subst|]. }
  assert (H2 : forall c, evolves committed (modify (fun s => set_called (called s ++ [c]) s))) by (intros c; by apply evolves_modify).
  assert (H3 : forall e, evolves committed
    (on_update e (fun u => {| contents := with_callback None (contents u); next := next u |}))).
  { intros e. apply evolves_modify. intros s. split_and!; try done. intros a u Hu. cbn. destruct (decide (a = e)) as [->|Hne].
    - rewrite lookup_insert_eq. unfold update_of. rewrite Hu. by eexists.
    - rewrite lookup_insert_ne by done. by exists u. }
  unfold commitUpdateQueue. js_auto.
Qed.
Lemma commit_returns q : returns (commitUpdateQueue q).
Proof. unfold commitUpdateQueue, on_queue, on_update. js_returns. Qed.
Lemma chain_cleared h h' ids its tail : cleared h h' -> chain h ids its tail -> exists its',
  chain h' ids its' tail /\ map strip its' = map strip its.
Proof.
  intros Hc. revert its. induction ids as [|a ids IH]; intros [|i its]; try done; [by exists []|].
  rewrite chain_cons. intros [H1 H2]. destruct (IH its H2) as (its' & C & S). destruct (Hc _ _ H1) as (u & Hu & Hn & Hi).
  exists (contents u :: its'). rewrite chain_cons. split; [split; [|done]|cbn in *; by f_equal].
  rewrite Hu. destruct u. cbn in *. by subst.
Qed.
Lemma ring_cleared h h' bq ids its : cleared h h' -> ring h bq ids its -> exists its',
  ring h' bq ids its' /\ map strip its' = map strip its.
Proof. intros Hc (Hd & Hl & C). destruct (chain_cleared _ _ _ _ _ Hc C) as (its' & C' & S). exists its'. by split. Qed.
Lemma apply_strip call s i : apply_item call s (strip i) = apply_item call s i.
Proof. done. Qed.
Lemma apply_all_strip call l l' s : map strip l = map strip l' -> apply_all call s l = apply_all call s l'.
Proof.
  revert l' s. induction l as [|i l IH]; intros [|i' l'] s; try done. intros H.
  assert (Hi := f_equal (fun l => default no_item (head l)) H : strip i = strip i').
  assert (Hl := f_equal tail H : map strip l = map strip l').
  cbn. rewrite <- (apply_strip call s i), Hi, apply_strip. by apply IH.
Qed.
Lemma times_strip (P : Z -> Prop) l l' : map strip l = map strip l' ->
  Forall (fun i => P (expirationTime i)) l -> Forall (fun i => P (expirationTime i)) l'.
Proof.
  revert l'. induction l as [|i l IH]; intros [|i' l']; try done. intros H [H1 H2]%Forall_cons.
  injection H as He _ _ _ Hl. apply Forall_cons. split; [by rewrite <- He|by apply IH].
Qed.

Section History.
Context (call : nat -> state -> state * list item).
Context (Hpure : forall u s, snd (call u s) = []).
(** The state at first, and what holds of the priorities of the updates. *)
Context (S0 : state) (P : Z -> Prop) (HSync : P Sync).

(** The queue of a fiber and the pending updates come to what the log says. *)
Definition base_of (s : st) (f sh : nat) (ids2 : list nat) (its2 log : list item) : Prop := exists q b ids1 its1,
  updateQueue (fiber_of s f) = Some q /\ (q < allocated s)%nat /\ shared (queue_of s q) = sh /\
  contains s q b ids1 its1 /\ (forall x, x ∈ ids1 -> x ∉ ids2) /\ (forall a, a ∈ ids1 -> a < allocated s)%nat /\
  apply_all call b (its1 ++ its2) = apply_all call S0 log /\ Forall (fun i => P (expirationTime i)) its1 /\
  (its1 = [] -> memoizedState (fiber_of s f) = b).
Definition sharing (s : st) (f sh : nat) : Prop := exists q, updateQueue (fiber_of s f) = Some q /\ shared (queue_of s q) = sh.
Definition pair_inv (s : st) (x : nat * option nat) (log : list item) : Prop := exists sh ids2 its2,
  ring (updates s) (pending_of s sh) ids2 its2 /\ (forall a, a ∈ ids2 -> a < allocated s)%nat /\
  Forall (fun i => P (expirationTime i)) its2 /\
  (fst x < allocated s)%nat /\ base_of s (fst x) sh ids2 its2 log /\
  match alternate (fiber_of s (fst x)) with
  | None => snd x = None
  | Some w => w <> fst x /\ (w < allocated s)%nat /\ alternate (fiber_of s w) = Some (fst x) /\ sharing s w sh /\
              (snd x = None \/ snd x = Some w /\ base_of s w sh ids2 its2 log)
  end.

Lemma base_sharing s f sh ids2 its2 log : base_of s f sh ids2 its2 log -> sharing s f sh.
Proof. intros (q & _ & _ & _ & H & _ & H' & _). by exists q. Qed.
Lemma base_enqueue s s' f sh ids2 its2 log i :
  base_of s f sh ids2 its2 log -> queues s' = queues s -> fibers s' = fibers s -> allocated s' = S (allocated s) ->
  (forall a, a ∉ ids2 -> a <> allocated s -> updates s' !! a = updates s !! a) ->
  base_of s' f sh (ids2 ++ [allocated s]) (its2 ++ [i]) (log ++ [i]).
Proof.
  intros (q & b & ids1 & its1 & H1 & H2 & H3 & [H4 H4'] & H5 & H6 & H7 & H8 & H9) Hq Hf Ha Hu.
  exists q, b, ids1, its1. unfold contains, queue_of, fiber_of in *. rewrite Hq, Hf, Ha. split_and!; try done.
  - lia.
  - eapply ring_frame; [|exact H4']. intros a Hin. apply Hu; [by apply H5|]. specialize (H6 a Hin). lia.
  - intros x Hx [?| ->%list_elem_of_singleton]%elem_of_app; [by eapply H5|]. specialize (H6 _ Hx). lia.
  - intros a Hin. specialize (H6 a Hin). lia.
  - by rewrite app_assoc, !apply_all_snoc, H7.
Qed.
Lemma sharing_same s s' f sh : sharing s f sh -> queues s' = queues s -> fibers s' = fibers s -> sharing s' f sh.
Proof. intros (q & H1 & H2) Hq Hf. exists q. unfold queue_of, fiber_of in *. by rewrite Hq, Hf. Qed.
Lemma enqueue_step s x log alt i : P (expirationTime i) -> pair_inv s x log -> exists s',
  step call x (Enqueue alt i) s = (Ret x, s') /\ pair_inv s' x (log ++ [i]).
Proof.
  intros HP (sh & ids2 & its2 & R2 & L2 & P2 & Hc & B & HA). destruct x as [c r]. cbn [step fst snd] in *. rewrite bind_gets.
  set (f := if alt then _ else c).
  assert (Hs : sharing s f sh).
  { unfold f. destruct alt; [|by eapply base_sharing]. destruct (alternate (fiber_of s c)); [apply HA|by eapply base_sharing]. }
  destruct Hs as (q & Hq & Hsh). rewrite <- Hsh in R2.
  destruct (enqueue_item_run f q i s ids2 its2 Hq R2 L2) as (s' & E & R' & U & Qs & Fs & A). rewrite (bind_of _ _ _ _ _ E).
  eexists. split; [done|]. exists sh, (ids2 ++ [allocated s]), (its2 ++ [i]). cbn [fst snd]. rewrite Hsh in R'.
  assert (Ff : forall y, fiber_of s' y = fiber_of s y) by (intros y; unfold fiber_of; by rewrite Fs). rewrite Ff, A.
  split_and!; try done.
  - intros a [Ha|Ha]%elem_of_app; [apply L2 in Ha; lia|]. apply list_elem_of_singleton in Ha. lia.
  - apply Forall_app. by rewrite Forall_singleton.
  - lia.
  - by eapply base_enqueue.
  - destruct (alternate (fiber_of s c)) as [w|]; [|done]. destruct HA as (H1 & H2 & H3 & H4 & H5). rewrite Ff.
    split_and!; [done|lia|done|by eapply sharing_same|]. destruct H5 as [?|[? H5]]; [by left|right]. split; [done|].
    by eapply base_enqueue.
Qed.
Lemma base_commit s s' f sh ids2 its2 its2' log :
  base_of s f sh ids2 its2 log -> committed s s' -> map strip its2' = map strip its2 -> base_of s' f sh ids2 its2' log.
Proof.
  intros (q & b & ids1 & its1 & H1 & H2 & H3 & [H4 H4'] & H5 & H6 & H7 & H8 & H9) (C & _ & F & A & Q) Hm.
  destruct (ring_cleared _ _ _ _ _ C H4') as (its1' & R & Hm1). exists q, b, ids1, its1'.
  assert (Ff : forall y, fiber_of s' y = fiber_of s y) by (intros y; unfold fiber_of; by rewrite F).
  unfold contains. rewrite Ff, A. rewrite (f_equal shared (Q q) : shared (queue_of s' q) = _).
  rewrite (f_equal baseState (Q q) : baseState (queue_of s' q) = _), (f_equal baseQueue (Q q) : baseQueue (queue_of s' q) = _).
  split_and!; try done.
  - rewrite <- H7. apply apply_all_strip. by rewrite !map_app, Hm1, Hm.
  - by eapply times_strip.
  - intros ->. apply H9. by destruct its1.
Qed.
Lemma commit_step s x log : pair_inv s x log -> exists x' s', step call x Commit s = (Ret x', s') /\ pair_inv s' x' log.
Proof.
  intros Hi. destruct x as [c [w|]]; [|by eexists _, s]. destruct Hi as (sh & ids2 & its2 & R2 & L2 & P2 & Hc & B & HA).
  cbn [step fst snd] in *. rewrite bind_gets. destruct (alternate (fiber_of s c)) as [w'|] eqn:Ea; [|done].
  destruct HA as (Hne & Hw & Haw & _ & [?|[[= <-] Bw]]); [done|]. assert (Bw' := Bw).
  destruct Bw' as (q & _ & _ & _ & -> & _). destruct (returns_run (commitUpdateQueue q) s (commit_returns q)) as [[] E].
  rewrite (bind_of _ _ _ _ _ E). eexists _, _. split; [done|]. assert (C := commit_committed q s). set (s' := final _ s) in *.
  destruct C as (C & Ps & Fs & As & Qs). destruct (ring_cleared _ _ _ _ _ C R2) as (its2' & R2' & Hm).
  assert (Ff : forall y, fiber_of s' y = fiber_of s y) by (intros y; unfold fiber_of; by rewrite Fs).
  exists sh, ids2, its2'. cbn [fst snd]. rewrite Ff, As, Haw, Ff, Ea. unfold pending_of. rewrite Ps. split_and!; try done.
  - by eapply times_strip.
  - by eapply base_commit.
  - destruct (base_sharing _ _ _ _ _ _ B) as (qc & H1 & H2). exists qc. rewrite Ff. split; [done|].
    by rewrite (f_equal shared (Qs qc) : shared (queue_of s' qc) = _).
  - by left.
Qed.

Lemma fiber_of_allocated n s y : fiber_of (set_allocated n s) y = fiber_of s y.
Proof. done. Qed.
Ltac fiber_simpl := repeat (first
  [ rewrite fiber_of_insert | rewrite fiber_of_allocated | rewrite decide_True by done | rewrite decide_False by done ];
  cbn [updateQueue memoizedState alternate set_updateQueue set_memoized set_effectTag set_alternate]).
(** A work in progress is another fiber with the state and the queue of the current one ... *)
Lemma create_run s c :
  (c < allocated s)%nat ->
  match alternate (fiber_of s c) with
  | None => True
  | Some w => w <> c /\ (w < allocated s)%nat /\ alternate (fiber_of s w) = Some c
  end -> exists w s', createWorkInProgress c s = (Ret w, s') /\ w <> c /\ (w < allocated s')%nat /\
    (allocated s <= allocated s')%nat /\ updates s' = updates s /\ queues s' = queues s /\ pendings s' = pendings s /\
    updateQueue (fiber_of s' w) = updateQueue (fiber_of s c) /\ memoizedState (fiber_of s' w) = memoizedState (fiber_of s c) /\
    alternate (fiber_of s' w) = Some c /\ alternate (fiber_of s' c) = Some w /\
    updateQueue (fiber_of s' c) = updateQueue (fiber_of s c) /\ memoizedState (fiber_of s' c) = memoizedState (fiber_of s c).
Proof.
  intros Hc Ha. unfold createWorkInProgress. rewrite bind_gets. destruct (alternate (fiber_of s c)) as [w|] eqn:Ea.
  - destruct Ha as (Hne & Hw & Haw). unfold on_fiber. rewrite bind_assoc, bind_modify, bind_ret, bind_gets, bind_modify.
    eexists w, _. split; [done|]. cbn [allocated updates queues pendings set_fibers].
    fiber_simpl. by split_and!.
  - assert (Hne : allocated s <> c) by lia. rewrite bind_assoc. unfold createFiber at 1. unfold bind at 1. cbn beta iota.
    unfold on_fiber. rewrite bind_assoc, bind_modify, bind_assoc, bind_modify, bind_ret, bind_gets, bind_modify.
    eexists _, _. split; [done|]. cbn [allocated updates queues pendings set_fibers set_allocated].
    fiber_simpl. split_and!; try done; lia.
Qed.

(** ... and then with a queue of its own. *)
Lemma clone_run s c w q :
  updateQueue (fiber_of s w) = Some q -> updateQueue (fiber_of s c) = Some q -> w <> c -> (q < allocated s)%nat ->
  exists s', cloneUpdateQueue c w s = (Ret tt, s') /\ allocated s' = S (allocated s) /\
    updates s' = updates s /\ pendings s' = pendings s /\
    queue_of s' (allocated s) = queue_of s q /\ queue_of s' q = queue_of s q /\
    updateQueue (fiber_of s' w) = Some (allocated s) /\ updateQueue (fiber_of s' c) = Some q /\
    (forall f, alternate (fiber_of s' f) = alternate (fiber_of s f)) /\
    (forall f, memoizedState (fiber_of s' f) = memoizedState (fiber_of s f)).
Proof.
  intros Hw Hc Hne Hq. unfold cloneUpdateQueue. rewrite Hw, Hc, bool_decide_eq_true_2 by done. eexists. split; [done|].
  unfold queue_of. cbn. rewrite lookup_insert_eq, lookup_insert_ne by lia. split_and!; try done.
  - unfold fiber_of. cbn. by rewrite lookup_insert_eq.
  - unfold fiber_of. cbn. by rewrite lookup_insert_ne.
  - intros f. unfold fiber_of. cbn. destruct (decide (f = w)) as [->|Hf]; [by rewrite lookup_insert_eq|by rewrite lookup_insert_ne].
  - intros f. unfold fiber_of. cbn. destruct (decide (f = w)) as [->|Hf]; [by rewrite lookup_insert_eq|by rewrite lookup_insert_ne].
Qed.
(** What a render shows: the updates that count at its priority, of a list that comes to the log. *)
Definition shown (s : st) (R : Z) (w : nat) (log : list item) : Prop := exists b l,
  apply_all call b l = apply_all call S0 log /\ Forall (fun i => P (expirationTime i)) l /\
  memoizedState (fiber_of s w) = fst (rebase call R b l) /\
  (l <> [] -> fiberExpirationTime (fiber_of s w) = left_over R l).
Lemma prepare_run s x log : pair_inv s x log -> exists w s' n q b ids1 its1 sh ids2 its2,
  start_work (fst x) s = (Ret w, s') /\
  w <> fst x /\ (fst x < allocated s')%nat /\ (w < allocated s')%nat /\ (n < allocated s')%nat /\ (q < allocated s')%nat /\ q <> n /\
  updateQueue (fiber_of s' w) = Some n /\ updateQueue (fiber_of s' (fst x)) = Some q /\
  alternate (fiber_of s' w) = Some (fst x) /\ alternate (fiber_of s' (fst x)) = Some w /\
  shared (queue_of s' n) = sh /\ queue_of s' q = queue_of s' n /\ contains s' n b ids1 its1 /\
  ring (updates s') (pending_of s' sh) ids2 its2 /\ (forall y, y ∈ ids1 -> y ∉ ids2) /\
  (forall a, a ∈ ids1 ++ ids2 -> a < allocated s')%nat /\ apply_all call b (its1 ++ its2) = apply_all call S0 log /\
  Forall (fun i => P (expirationTime i)) (its1 ++ its2) /\
  (its1 = [] -> memoizedState (fiber_of s' w) = b /\ memoizedState (fiber_of s' (fst x)) = b).
Proof.
  intros (sh & ids2 & its2 & R2 & L2 & P2 & Hc & B & HA). destruct x as [c r]. cbn [fst snd] in *.
  destruct B as (q & b & ids1 & its1 & Hq & Lq & Hsh & [Hb R1] & Hd & L1 & Hl & P1 & Hm).
  destruct (create_run s c Hc) as (w & s1 & E1 & Hne & Hw & A1 & U1 & Q1 & Pe1 & W1 & M1 & Aw & Ac & C1 & Mc).
  { destruct (alternate (fiber_of s c)); [|done]. by split_and!; apply HA. }
  rewrite Hq in W1, C1. destruct (clone_run s1 c w q W1 C1 Hne) as (s2 & E2 & A2 & U2 & Pe2 & Qn & Qq & W2 & C2 & Al & Me); [lia|].
  assert (Qs : queue_of s1 q = queue_of s q) by (unfold queue_of; by rewrite Q1). rewrite Qs in Qn, Qq.
  unfold start_work. rewrite (bind_of _ _ _ _ _ E1), (bind_of _ _ _ _ _ E2).
  exists w, s2, (allocated s1), q, b, ids1, its1, sh, ids2, its2. split; [done|]. unfold contains, pending_of.
  rewrite !Al, !Me, A2, U2, U1, Pe2, Pe1, Qn, Qq. split_and!; try done; try lia.
  - intros a [Ha|Ha]%elem_of_app; [apply L1 in Ha|apply L2 in Ha]; lia.
  - by apply Forall_app.
  - intros E. by rewrite M1, Mc, (Hm E).
Qed.

Lemma render_step s x log R : pair_inv s x log -> exists w s',
  step call x (Render R) s = (Ret (fst x, Some w), s') /\ pair_inv s' (fst x, Some w) log /\ shown s' R w log.
Proof.
  intros Hi. destruct (prepare_run s x log Hi) as (w & s1 & n & q & b & ids1 & its1 & sh & ids2 & its2 & E1 & Hne & Lc & Lw & Ln &
    Lq & Hqn & Wq & Cq & Aw & Ac & Hsh & Qq & Cn & R2 & Hd & L & Hl & HP & Hm).
  destruct x as [c r]. cbn [step fst] in *. rewrite (bind_of _ _ _ _ _ E1), bind_gets.
  assert (Hb : baseState (queue_of s1 n) = b) by apply Cn. rewrite <- Hsh in R2.
  destruct (process_queue_run call Hpure R w n c q s1 b ids1 its1 ids2 its2 (allocated s1) Wq Aw Cq Hqn) as
    (s2 & nb & E2 & C2 & N2 & Lnb & A2 & P2 & Sn & Sq & Lk & Hx); try done.
  { by rewrite Qq. }
  { apply length_bounded; [|done]. apply NoDup_app. split_and!; [apply Cn|done|apply R2]. }
  rewrite (bind_of _ _ _ _ _ E2). eexists w, _. split; [done|].
  assert (Hlk : forall f, updateQueue (fiber_of s2 f) = updateQueue (fiber_of s1 f) /\ alternate (fiber_of s2 f) = alternate (fiber_of s1 f)).
  { intros f. specialize (Lk f). by injection Lk. }
  set (l := its1 ++ its2) in *. set (y := rebase call R b l) in *.
  assert (Hw : memoizedState (fiber_of s2 w) = fst y /\ (l = [] -> memoizedState (fiber_of s2 c) = b)).
  { destruct l as [|i l'] eqn:El; [|split; [apply Hx|done]]. apply app_eq_nil in El as [-> ->].
    rewrite !Hx. destruct (Hm eq_refl). by split. }
  split.
  - exists sh, [], []. cbn [fst snd]. rewrite <- Hsh, P2, (proj2 (Hlk c)), Ac, (proj2 (Hlk w)). split; [apply ring_empty|].
    split; [by intros a Ha%not_elem_of_nil|]. split; [done|]. split; [lia|]. split; [|split; [done|split; [lia|split; [done|split]]]].
    + exists q, b, (ids1 ++ ids2), l. rewrite (proj1 (Hlk c)), app_nil_r, Sq, Qq. rewrite Qq, Hb in C2.
      split_and!; try done; [lia|intros ? _; apply not_elem_of_nil|intros a Ha; apply L in Ha; lia|apply Hw].
    + exists n. by rewrite (proj1 (Hlk w)), Sn.
    + right. split; [done|]. exists n, (fst (rebased y)), nb, (snd (rebased y)). rewrite (proj1 (Hlk w)), app_nil_r, Sn.
      split_and!; try done; [lia|intros ? _; apply not_elem_of_nil| | |].
      * rewrite <- Hl. assert (H := rebase_keeps call R b l). fold y in H. by destruct (rebased y).
      * by apply rebased_times.
      * intros H. rewrite (proj1 Hw). assert (Hn := rebased_nonempty call R b l). fold y in Hn.
        destruct y as [v [[b' [|i l']]|]]; done.
  - exists b, l. split_and!; try done; [apply Hw|]. intros Hn. destruct l; [done|]. apply Hx.
Qed.

Lemma mount_inv s : exists c s', mount_state S0 s = (Ret c, s') /\ pair_inv s' (c, None) [].
Proof.
  unfold mount_state, createFiber, on_fiber, initializeUpdateQueue. unfold bind at 1. cbn beta iota. rewrite bind_modify.
  unfold bind at 1. cbn beta iota zeta. eexists _, _. split; [done|]. exists (S (allocated s)), [], []. cbn [fst snd].
  fiber_simpl. cbn [alternate no_fiber]. split_and!; try done.
  - unfold pending_of. cbn. rewrite lookup_insert_eq. apply ring_empty.
  - by intros a Ha%not_elem_of_nil.
  - cbn. lia.
  - exists (S (S (allocated s))), S0, [], []. unfold contains, fiber_of, queue_of. cbn. rewrite !lookup_insert_eq. cbn.
    split_and!; try done; try lia; try apply ring_empty; try apply NoDup_nil_2; intros a Ha; by apply not_elem_of_nil in Ha.
  - unfold fiber_of. cbn. by rewrite !lookup_insert_eq.
Qed.
Lemma event_step s x log e : Forall (fun i => P (expirationTime i)) (enqueued [e]) -> pair_inv s x log -> exists x' s',
  step call x e s = (Ret x', s') /\ pair_inv s' x' (log ++ enqueued [e]).
Proof.
  intros HP Hi. destruct e as [alt i|R|]; cbn [enqueued flat_map app] in *.
  - exists x. apply Forall_inv in HP. by apply enqueue_step.
  - rewrite app_nil_r. destruct (render_step s x log R Hi) as (w & s' & E & Hi' & _). by eexists _, _.
  - rewrite app_nil_r. by apply commit_step.
Qed.
Lemma run_inv l s x log : Forall (fun i => P (expirationTime i)) (enqueued l) -> pair_inv s x log -> exists x' s',
  run call x l s = (Ret x', s') /\ pair_inv s' x' (log ++ enqueued l).
Proof.
  revert s x log. induction l as [|e l IH]; intros s x log HP Hi.
  - exists x, s. by rewrite app_nil_r.
  - change (enqueued (e :: l)) with (enqueued ([e] ++ l)) in *. unfold enqueued in *. rewrite flat_map_app in *.
    apply Forall_app in HP as [H1 H2]. destruct (event_step s x log e H1 Hi) as (x1 & s1 & E1 & I1). cbn [run].
    rewrite (bind_of _ _ _ _ _ E1), app_assoc. by apply IH.
Qed.
Lemma life_shows l s R : Forall (fun i => P (expirationTime i)) (enqueued l) -> exists c w s',
  life call S0 l R s = (Ret (c, Some w), s') /\ pair_inv s' (c, Some w) (enqueued l) /\ shown s' R w (enqueued l).
Proof.
  intros HP. unfold life. destruct (mount_inv s) as (c & s1 & E1 & I1). rewrite (bind_of _ _ _ _ _ E1).
  destruct (run_inv l s1 (c, None) [] HP I1) as (x & s2 & E2 & I2). rewrite (bind_of _ _ _ _ _ E2).
  destruct (render_step s2 x _ R I2) as (w & s3 & E3 & I3 & H3). by exists (fst x), w, s3.
Qed.
End History.
Lemma left_over_ge R l : NoWork <= left_over R l /\ forall i, i ∈ l -> expirationTime i < R -> expirationTime i <= left_over R l.
Proof.
  unfold left_over. induction l as [|j l [IH1 IH2]] using rev_ind; [split; [done|by intros i Hi%not_elem_of_nil]|].
  rewrite foldl_app. cbn [foldl]. destruct (Z.ltb_spec (expirationTime j) R); (split; [lia|]); intros i Hi Hlt;
    (apply elem_of_app in Hi as [Hi|Hi]; [specialize (IH2 i Hi Hlt); lia|apply list_elem_of_singleton in Hi as ->; lia]).
Qed.

(** C5. No update is lost or applied out of order: mount a component, enqueue updates through either fiber of its
    pair, and render at any priorities, commit or abandon renders in between; a render whose priority all updates
    have then completes and computes the state that results from applying all updates in the order they were enqueued. *)
Theorem all_updates_in_order call S0 l R s :
  (forall u prev, snd (call u prev) = []) -> R <= Sync -> Forall (fun i => R <= expirationTime i) (enqueued l) ->
  exists c w s', life call S0 l R s = (Ret (c, Some w), s') /\
    memoizedState (fiber_of s' w) = apply_all call S0 (enqueued l).
Proof.
  intros Hpure HR HP. destruct (life_shows call Hpure S0 (fun e => R <= e) HR l s R HP) as (c & w & s' & E & _ & b & its & Hl & Hp & Hm & _).
  exists c, w, s'. split; [done|]. by rewrite Hm, (rebase_all call R b its Hp).
Qed.

(** C27. Skipped work is announced: after any such history a render at any priority completes, and when it leaves
    no expiration time on the work in progress, its state has all updates. *)
Theorem skipped_work_is_announced call S0 l R s :
  (forall u prev, snd (call u prev) = []) -> Forall (fun i => NoWork < expirationTime i) (enqueued l) ->
  exists c w s', life call S0 l R s = (Ret (c, Some w), s') /\
    (fiberExpirationTime (fiber_of s' w) = NoWork -> memoizedState (fiber_of s' w) = apply_all call S0 (enqueued l)).
Proof.
  intros Hpure HP. assert (HS : NoWork < Sync) by done.
  destruct (life_shows call Hpure S0 (fun e => NoWork < e) HS l s R HP) as (c & w & s' & E & _ & b & its & Hl & Hp & Hm & He).
  exists c, w, s'. split; [done|]. intros H0. rewrite Hm, <- Hl. destruct its as [|i its]; [done|]. rewrite He in H0 by done.
  rewrite rebase_all; [done|]. apply Forall_forall. intros j Hj. destruct (Z.le_gt_cases R (expirationTime j)) as [?|Hlt]; [done|].
  assert (H1 := proj2 (left_over_ge R (i :: its)) j Hj ltac:(lia)). rewrite Forall_forall in Hp. specialize (Hp j Hj). lia.
Qed.

(** ** Examples *)
Module Examples.
(** Updater [d] puts the digit [d] at the end of a number. *)
Definition digit (u : nat) (prev : state) : state :=
  Some [("n", u + 10 * default 0 (map_get "n" (default [] prev)))%nat].
Definition by_digits (u : nat) (prev : state) : state * list item := (digit u prev, []).
Definition update_with (e : Z) (u : nat) (cb : option nat) : item :=
  {| expirationTime := e; suspenseConfig := None; utag := UpdateState; upayload := PFunction u; callback := cb |}.
Definition empty_st : st := {| updates := ∅; queues := ∅; pendings := ∅; fibers := ∅; allocated := 0;
  hasForceUpdate := false; nextUnprocessedUpdateTime := NoWork; latestProcessedExpirationTime := Sync;
  latestSuspenseTimeout := Sync; canSuspendUsingConfig := None; called := [] |}.
Definition mixed : list event :=
  [Enqueue false (update_with 1000 1 None); Enqueue false (update_with Sync 2 None); Render Sync; Commit;
   Enqueue true (update_with 500 3 None); Render 1000; Enqueue false (update_with Sync 4 (Some 7%nat)); Render Sync].
Definition shows (call : nat -> state -> state * list item) (l : list event) (R : Z) : result (state * Z) :=
  outcome (let! x := life call None l R in
           gets (fun s => let f := fiber_of s (default 0%nat (snd x)) in (memoizedState f, fiberExpirationTime f))) empty_st.
(** A high update jumps the queue, and is applied again in its place later. *)
Example jumps : shows by_digits (firstn 2 mixed) Sync = Ret (Some [("n", 2%nat)], 1000).
Proof. by vm_compute. Qed.
Example in_order : shows by_digits mixed 500 = Ret (Some [("n", 1234%nat)], 0).
Proof. by vm_compute. Qed.
Example partly : shows by_digits mixed Sync = Ret (Some [("n", 24%nat)], 1000).
Proof. by vm_compute. Qed.
(** A callback is called again when its update is rebased. *)
Example called_twice : called (final (life by_digits None
  [Enqueue false (update_with 1000 1 None); Enqueue false (update_with Sync 2 (Some 7%nat)); Render Sync; Commit; Render 1000; Commit]
  Sync) empty_st) = [7%nat; 7%nat].
Proof. by vm_compute. Qed.
(** A captured update comes first of the updates that were skipped, not at the end. *)
Example captured_first : outcome (
  let! c := mount_state None in
  let! x := run by_digits (c, None) [Enqueue false (update_with 1000 1 None); Enqueue false (update_with 1000 2 None); Render Sync] in
  let w := default 0%nat (snd x) in
  let! u := createUpdate Sync None in
  do! on_update u (fill {| expirationTime := Sync; suspenseConfig := None; utag := CaptureUpdate; upayload := PFunction 3; callback := None |});
  do! enqueueCapturedUpdate w u;
  do! processUpdateQueue by_digits 100 w 1000;
  gets (fun s => memoizedState (fiber_of s w))) empty_st = Ret (Some [("n", 312%nat)]).
Proof. by vm_compute. Qed.
(** An updater that schedules an update: when its render is abandoned, the scheduled one comes first the next time. *)
Definition schedules (u : nat) (prev : state) : state * list item :=
  (digit u prev, if bool_decide (u = 1)%nat then [update_with Sync 9 None] else []).
Example scheduled_last : shows schedules [Enqueue false (update_with Sync 1 None); Enqueue false (update_with Sync 2 None)] Sync =
  Ret (Some [("n", 129%nat)], 0).
Proof. by vm_compute. Qed.
Example scheduled_rotates : shows schedules
  [Enqueue false (update_with Sync 1 None); Enqueue false (update_with Sync 2 None); Render Sync] Sync = Ret (Some [("n", 9129%nat)], 0).
Proof. by vm_compute. Qed.
End Examples.

Lemma all_updates_in_order_witness : exists c w s', life Examples.by_digits None Examples.mixed 500 Examples.empty_st = (Ret (c, Some w), s') /\
  memoizedState (fiber_of s' w) = apply_all Examples.by_digits None (enqueued Examples.mixed).
Proof.
  apply (all_updates_in_order Examples.by_digits None Examples.mixed 500 Examples.empty_st); [done|done|].
  repeat (apply Forall_cons; split; [by vm_compute|]). by apply Forall_nil.
Defined.
Lemma skipped_work_is_announced_witness : exists c w s', life Examples.by_digits None Examples.mixed 500 Examples.empty_st = (Ret (c, Some w), s') /\
  (fiberExpirationTime (fiber_of s' w) = NoWork ->
   memoizedState (fiber_of s' w) = apply_all Examples.by_digits None (enqueued Examples.mixed)).
Proof.
  apply (skipped_work_is_announced Examples.by_digits None Examples.mixed 500 Examples.empty_st); [done|].
  repeat (apply Forall_cons; split; [by vm_compute|]). by apply Forall_nil.
Defined.
