(* ===== verification/Fiber.v ===== *)
(** * Fibers

    The data of the reconciler in Libraries/Renderer/implementations/
    ReactNativeRenderer-dev.js: what a component renders ([child]), the fibers that stand
    for it, which form pairs of a current one and a work in progress and are linked by
    [child], [sibling], [return] and the lists of effects, and native's views.

    Fibers are objects of a heap.  A host instance is the tag of its view; [_children] of
    an instance is kept in [children_].  Types of components and props are opaque: what
    kind of fiber a type makes is the parameter [tagOf].  State, update queues but for the
    flag that there is a payload, contexts and the fields of development mode are left
    out, and refs are functions, objects or null. *)
From S2P Require Import Prelude.
From stdpp Require Import base numbers list gmap strings.
Open Scope Z_scope.

(** What may be rendered.  Numbers are rendered as strings; booleans as null.  An element
    whose type is a fragment is [CFragment]. *)
Inductive child :=
  | CNull
  | CUndefined
  | CText (s : string)
  | CElement (key : option string) (type : nat) (props : nat) (ref : option nat)
  | CFragment (key : option string) (children : child)
  | CPortal (key : option string) (containerInfo implementation : nat) (children : child)
  | CArray (l : list child)
  | CObject
  | CFunction.
Inductive props := PProps (id : nat) | PText (s : string) | PChildren (c : child).
Inductive tag_ := ClassComponent | FunctionComponent | HostRoot | HostPortal | HostComponent | HostText | Fragment | OtherTag.
#[export] Instance tag_eq_dec : EqDecision tag_.
Proof. solve_decision. Defined.
(** A host instance, or the containers of portals and roots. *)
Inductive node := NInstance (nativeTag : nat) | NPortal (containerInfo implementation : nat) | NRoot (containerInfo : nat).
Record fiber := {
  tag : tag_;
  key : option string;
  elementType : option nat;
  mode : Z;
  stateNode : option node;
  return_ : option nat;
  child_ : option nat;
  sibling : option nat;
  index : Z;
  ref : option nat;
  pendingProps : option props;
  memoizedProps : option props;
  updateQueue : bool;              (* whether there is an update payload *)
  effectTag : Z;
  nextEffect : option nat;
  firstEffect : option nat;
  lastEffect : option nat;
  expirationTime : Z;
  alternate : option nat
}.
Definition set_elementType x (f : fiber) : fiber := Build_fiber (tag f) (key f) x (mode f)
  (stateNode f) (return_ f) (child_ f) (sibling f) (index f) (ref f) (pendingProps f)
  (memoizedProps f) (updateQueue f) (effectTag f) (nextEffect f) (firstEffect f)
  (lastEffect f) (expirationTime f) (alternate f).
Definition set_stateNode x (f : fiber) : fiber := Build_fiber (tag f) (key f) (elementType
  f) (mode f) x (return_ f) (child_ f) (sibling f) (index f) (ref f) (pendingProps f)
  (memoizedProps f) (updateQueue f) (effectTag f) (nextEffect f) (firstEffect f) (lastEffect
  f) (expirationTime f) (alternate f).
Definition set_return_ x (f : fiber) : fiber := Build_fiber (tag f) (key f) (elementType f)
  (mode f) (stateNode f) x (child_ f) (sibling f) (index f) (ref f) (pendingProps f)
  (memoizedProps f) (updateQueue f) (effectTag f) (nextEffect f) (firstEffect f) (lastEffect
  f) (expirationTime f) (alternate f).
Definition set_child_ x (f : fiber) : fiber := Build_fiber (tag f) (key f) (elementType f)
  (mode f) (stateNode f) (return_ f) x (sibling f) (index f) (ref f) (pendingProps f)
  (memoizedProps f) (updateQueue f) (effectTag f) (nextEffect f) (firstEffect f) (lastEffect
  f) (expirationTime f) (alternate f).
Definition set_sibling x (f : fiber) : fiber := Build_fiber (tag f) (key f) (elementType f)
  (mode f) (stateNode f) (return_ f) (child_ f) x (index f) (ref f) (pendingProps f)
  (memoizedProps f) (updateQueue f) (effectTag f) (nextEffect f) (firstEffect f) (lastEffect
  f) (expirationTime f) (alternate f).
Definition set_index x (f : fiber) : fiber := Build_fiber (tag f) (key f) (elementType f)
  (mode f) (stateNode f) (return_ f) (child_ f) (sibling f) x (ref f) (pendingProps f)
  (memoizedProps f) (updateQueue f) (effectTag f) (nextEffect f) (firstEffect f) (lastEffect
  f) (expirationTime f) (alternate f).
Definition set_ref x (f : fiber) : fiber := Build_fiber (tag f) (key f) (elementType f)
  (mode f) (stateNode f) (return_ f) (child_ f) (sibling f) (index f) x (pendingProps f)
  (memoizedProps f) (updateQueue f) (effectTag f) (nextEffect f) (firstEffect f) (lastEffect
  f) (expirationTime f) (alternate f).
Definition set_pendingProps x (f : fiber) : fiber := Build_fiber (tag f) (key f)
  (elementType f) (mode f) (stateNode f) (return_ f) (child_ f) (sibling f) (index f) (ref
  f) x (memoizedProps f) (updateQueue f) (effectTag f) (nextEffect f) (firstEffect f)
  (lastEffect f) (expirationTime f) (alternate f).
Definition set_memoizedProps x (f : fiber) : fiber := Build_fiber (tag f) (key f)
  (elementType f) (mode f) (stateNode f) (return_ f) (child_ f) (sibling f) (index f) (ref
  f) (pendingProps f) x (updateQueue f) (effectTag f) (nextEffect f) (firstEffect f)
  (lastEffect f) (expirationTime f) (alternate f).
Definition set_updateQueue x (f : fiber) : fiber := Build_fiber (tag f) (key f) (elementType
  f) (mode f) (stateNode f) (return_ f) (child_ f) (sibling f) (index f) (ref f)
  (pendingProps f) (memoizedProps f) x (effectTag f) (nextEffect f) (firstEffect f)
  (lastEffect f) (expirationTime f) (alternate f).
Definition set_effectTag x (f : fiber) : fiber := Build_fiber (tag f) (key f) (elementType
  f) (mode f) (stateNode f) (return_ f) (child_ f) (sibling f) (index f) (ref f)
  (pendingProps f) (memoizedProps f) (updateQueue f) x (nextEffect f) (firstEffect f)
  (lastEffect f) (expirationTime f) (alternate f).
Definition set_nextEffect x (f : fiber) : fiber := Build_fiber (tag f) (key f) (elementType
  f) (mode f) (stateNode f) (return_ f) (child_ f) (sibling f) (index f) (ref f)
  (pendingProps f) (memoizedProps f) (updateQueue f) (effectTag f) x (firstEffect f)
  (lastEffect f) (expirationTime f) (alternate f).
Definition set_firstEffect x (f : fiber) : fiber := Build_fiber (tag f) (key f) (elementType
  f) (mode f) (stateNode f) (return_ f) (child_ f) (sibling f) (index f) (ref f)
  (pendingProps f) (memoizedProps f) (updateQueue f) (effectTag f) (nextEffect f) x
  (lastEffect f) (expirationTime f) (alternate f).
Definition set_lastEffect x (f : fiber) : fiber := Build_fiber (tag f) (key f) (elementType
  f) (mode f) (stateNode f) (return_ f) (child_ f) (sibling f) (index f) (ref f)
  (pendingProps f) (memoizedProps f) (updateQueue f) (effectTag f) (nextEffect f)
  (firstEffect f) x (expirationTime f) (alternate f).
Definition set_expirationTime x (f : fiber) : fiber := Build_fiber (tag f) (key f)
  (elementType f) (mode f) (stateNode f) (return_ f) (child_ f) (sibling f) (index f) (ref
  f) (pendingProps f) (memoizedProps f) (updateQueue f) (effectTag f) (nextEffect f)
  (firstEffect f) (lastEffect f) x (alternate f).
Definition set_alternate x (f : fiber) : fiber := Build_fiber (tag f) (key f) (elementType
  f) (mode f) (stateNode f) (return_ f) (child_ f) (sibling f) (index f) (ref f)
  (pendingProps f) (memoizedProps f) (updateQueue f) (effectTag f) (nextEffect f)
  (firstEffect f) (lastEffect f) (expirationTime f) x.
Definition NoEffect : Z := 0.
Definition PerformedWork : Z := 1.
Definition Placement : Z := 2.
Definition Update : Z := 4.
Definition Deletion : Z := 8.

(** Native's views, and what of the renderer's host instances the code keeps. *)
Record view := { viewType : option nat;   (* [None] is RCTRawText *)
                 viewProps : props; subviews : list nat }.
Record st := {
  fibers : gmap nat fiber;
  allocated : nat;
  nextReactTag : nat;
  children_ : gmap nat (list nat);
  views : gmap nat view
}.
Definition set_fibers x (s : st) : st := Build_st x (allocated s) (nextReactTag s) (children_ s) (views s).
Definition set_allocated x (s : st) : st := Build_st (fibers s) x (nextReactTag s) (children_ s) (views s).
Definition set_nextReactTag x (s : st) : st := Build_st (fibers s) (allocated s) x (children_ s) (views s).
Definition set_children x (s : st) : st := Build_st (fibers s) (allocated s) (nextReactTag s) x (views s).
Definition set_views x (s : st) : st := Build_st (fibers s) (allocated s) (nextReactTag s) (children_ s) x.

Definition createFiber_ (t : tag_) (pending : option props) (k : option string) (m : Z) : fiber :=
  Build_fiber t k None m None None None None 0 None pending None false NoEffect None None None 0 None.
Definition no_fiber : fiber := createFiber_ OtherTag None None 0.
Definition fiber_of (s : st) (x : nat) : fiber := default no_fiber (fibers s !! x).
Definition upd (x : nat) (f : fiber -> fiber) (s : st) : st := set_fibers (<[x := f (fiber_of s x)]> (fibers s)) s.
Definition on_fiber (x : nat) (f : fiber -> fiber) : JS st unit := modify (upd x f).

Definition grow (f : fiber) (s : st) : st :=
  set_allocated (S (allocated s)) (set_fibers (<[allocated s := f]> (fibers s)) s).
Definition alloc (f : fiber) : JS st nat := fun s => (Ret (allocated s), grow f s).
Definition createFiber t pending k m : JS st nat := alloc (createFiber_ t pending k m).

(** Of a fiber and new props, the other fiber of its pair. *)
Definition createWorkInProgress (current : nat) (pending : option props) : JS st nat :=
  let! c := gets (fun s => fiber_of s current) in
  let! w := match alternate c with
            | None =>
                let! w := createFiber (tag c) pending (key c) (mode c) in
                do! on_fiber w (fun f => set_stateNode (stateNode c) (set_elementType (elementType c) f));
                do! on_fiber w (set_alternate (Some current));
                do! on_fiber current (set_alternate (Some w));
                ret w
            | Some w =>
                do! on_fiber w (set_pendingProps pending);
                do! on_fiber w (set_effectTag NoEffect);
                do! on_fiber w (fun f => set_lastEffect None (set_firstEffect None (set_nextEffect None f)));
                ret w
            end in
  let! c := gets (fun s => fiber_of s current) in
  do! on_fiber w (fun f => set_memoizedProps (memoizedProps c) (set_child_ (child_ c) (set_expirationTime (expirationTime c) f)));
  do! on_fiber w (set_updateQueue (updateQueue c));
  do! on_fiber w (fun f => set_ref (ref c) (set_index (index c) (set_sibling (sibling c) f)));
  ret w.

Section Create.
Context (tagOf : nat -> tag_).
Definition createFiberFromText (content : string) (m : Z) (e : Z) : JS st nat :=
  let! f := createFiber HostText (Some (PText content)) None m in
  do! on_fiber f (set_expirationTime e);
  ret f.
Definition createFiberFromFragment (elements : child) (m : Z) (e : Z) (k : option string) : JS st nat :=
  let! f := createFiber Fragment (Some (PChildren elements)) k m in
  do! on_fiber f (set_expirationTime e);
  ret f.
Definition createFiberFromPortal (k : option string) (containerInfo implementation : nat) (children : child) (m : Z) (e : Z) : JS st nat :=
  let pending := match children with CNull => CArray [] | c => c end in
  let! f := createFiber HostPortal (Some (PChildren pending)) k m in
  do! on_fiber f (set_expirationTime e);
  do! on_fiber f (set_stateNode (Some (NPortal containerInfo implementation)));
  ret f.
(** Of a valid type; the mode that some types of React add is left out. *)
Definition createFiberFromTypeAndProps (t : nat) (k : option string) (p : nat) (m : Z) (e : Z) : JS st nat :=
  let! f := createFiber (tagOf t) (Some (PProps p)) k m in
  do! on_fiber f (set_elementType (Some t));
  do! on_fiber f (set_expirationTime e);
  ret f.
End Create.

(** ** Total correctness *)
(** The computation returns, and then [Q] holds of what it returns and of the state. *)
Definition wp {A} (m : JS st A) (Q : A -> st -> Prop) (s : st) : Prop :=
  match m s with (Ret a, s') => Q a s' | _ => False end.
Lemma wp_bind {A B} (m : JS st A) (k : A -> JS st B) Q s : wp m (fun a => wp (k a) Q) s -> wp (bind m k) Q s.
Proof. unfold wp, bind. by destruct (m s) as [[a|e|] s']. Qed.
Lemma wp_assoc {A B C} (m : JS st A) (f : A -> JS st B) (g : B -> JS st C) Q s :
  wp (bind (bind m f) g) Q s -> wp (bind m (fun a => bind (f a) g)) Q s.
Proof. unfold wp. by rewrite bind_assoc. Qed.
Lemma wp_ret {A} (a : A) (Q : A -> st -> Prop) s : Q a s -> wp (ret a) Q s.
Proof. done. Qed.
Lemma wp_gets {A} (f : st -> A) (Q : A -> st -> Prop) s : Q (f s) s -> wp (gets f) Q s.
Proof. done. Qed.
Lemma wp_modify f (Q : unit -> st -> Prop) s : Q tt (f s) -> wp (modify f) Q s.
Proof. done. Qed.
Lemma wp_on x f (Q : unit -> st -> Prop) s : Q tt (upd x f s) -> wp (on_fiber x f) Q s.
Proof. done. Qed.
Lemma wp_alloc f (Q : nat -> st -> Prop) s :
  Q (allocated s) (grow f s) -> wp (alloc f) Q s.
Proof. done. Qed.
Lemma wp_mono {A} (m : JS st A) (Q Q' : A -> st -> Prop) s : wp m Q s -> (forall a s', Q a s' -> Q' a s') -> wp m Q' s.
Proof. unfold wp. destruct (m s) as [[a|e|] s']; auto. Qed.
Lemma wp_run {A} (m : JS st A) Q s : wp m Q s -> exists a s', m s = (Ret a, s') /\ Q a s'.
Proof. unfold wp. destruct (m s) as [[a|e|] s']; [|done..]. by exists a, s'. Qed.
Lemma wp_for_each {A} (l : list A) (f : A -> JS st unit) (I : list A -> st -> Prop) s :
  (forall l1 x l2 s, l = l1 ++ x :: l2 -> I l1 s -> wp (f x) (fun _ s' => I (l1 ++ [x]) s') s) -> I [] s ->
  wp (for_each l f) (fun _ s' => I l s') s.
Proof.
  intros Hf. cut (forall l1 l2 s, l = l1 ++ l2 -> I l1 s -> wp (for_each l2 f) (fun _ s' => I l s') s).
  { intros H HI. by apply (H []). }
  intros l1 l2. revert l1. induction l2 as [|x l2 IH]; intros l1 s' Hl HI; [rewrite app_nil_r in Hl; by subst|].
  cbn. apply wp_bind. eapply wp_mono; [by eapply Hf|]. intros [] t Ht. apply (IH (l1 ++ [x])); [by rewrite <- app_assoc|done].
Qed.
#[global] Opaque wp.
Ltac wp_step := lazymatch goal with
  | |- wp (bind _ _) _ _ => apply wp_bind
  | |- wp (ret _) _ _ => apply wp_ret
  | |- wp (gets _) _ _ => apply wp_gets
  | |- wp (on_fiber _ _) _ _ => apply wp_on
  | |- wp (modify _) _ _ => apply wp_modify
  | |- wp (alloc _) _ _ => apply wp_alloc
  | |- wp (createFiber _ _ _ _) _ _ => apply wp_alloc
  end; cbv beta.

Lemma fiber_of_upd x f s y : fiber_of (upd x f s) y = if decide (y = x) then f (fiber_of s y) else fiber_of s y.
Proof.
  unfold upd, fiber_of. cbn. case_decide as H; [subst; by rewrite lookup_insert_eq|by rewrite lookup_insert_ne].
Qed.
Lemma fiber_of_eq x f s : fiber_of (upd x f s) x = f (fiber_of s x).
Proof. by rewrite fiber_of_upd, decide_True. Qed.
Lemma fiber_of_ne x f s y : y <> x -> fiber_of (upd x f s) y = fiber_of s y.
Proof. intros H. by rewrite fiber_of_upd, decide_False. Qed.
Lemma fiber_of_new f s y :
  fiber_of (grow f s) y =
  if decide (y = allocated s) then f else fiber_of s y.
Proof. unfold grow, fiber_of. cbn. case_decide as H; [subst; by rewrite lookup_insert_eq|by rewrite lookup_insert_ne]. Qed.
Lemma fiber_of_grow_eq f s : fiber_of (grow f s) (allocated s) = f.
Proof. by rewrite fiber_of_new, decide_True. Qed.
Lemma fiber_of_grow_ne f s y : y <> allocated s -> fiber_of (grow f s) y = fiber_of s y.
Proof. intros H. by rewrite fiber_of_new, decide_False. Qed.

(** ** Pairs of fibers *)
(** What the fibers of a pair have in common. *)
Definition kind (f : fiber) : tag_ * option string * option nat * option node := (tag f, key f, elementType f, stateNode f).
(** The host side, which reconciliation does not touch. *)
Definition outside (s : st) : nat * gmap nat (list nat) * gmap nat view := (nextReactTag s, children_ s, views s).
Lemma outside_upd x f s : outside (upd x f s) = outside s.
Proof. done. Qed.
Lemma outside_grow f s : outside (grow f s) = outside s.
Proof. done. Qed.
(** The alternate of [o], if any, is a fiber apart from those of [l]. *)
Definition paired (s : st) (l : list nat) (o : nat) : Prop :=
  (o < allocated s)%nat /\
  match alternate (fiber_of s o) with
  | None => True
  | Some a => (a < allocated s)%nat /\ a ∉ l /\ alternate (fiber_of s a) = Some o /\ kind (fiber_of s a) = kind (fiber_of s o)
  end.
(** What is true of a new work in progress [w] of [o]. *)
Definition cloned (s : st) (o : nat) (pending : option props) (w : nat) (s' : st) : Prop :=
  outside s' = outside s /\ (allocated s <= allocated s')%nat /\ (w < allocated s')%nat /\ w <> o /\
  (alternate (fiber_of s o) = Some w \/ alternate (fiber_of s o) = None /\ w = allocated s) /\
  fiber_of s' o = set_alternate (Some w) (fiber_of s o) /\
  (forall y, y <> w -> y <> o -> fiber_of s' y = fiber_of s y) /\
  let f := fiber_of s' w in
  kind f = kind (fiber_of s o) /\ alternate f = Some o /\ pendingProps f = pending /\
  memoizedProps f = memoizedProps (fiber_of s o) /\ updateQueue f = updateQueue (fiber_of s o) /\
  child_ f = child_ (fiber_of s o) /\ sibling f = sibling (fiber_of s o) /\ index f = index (fiber_of s o) /\
  effectTag f = NoEffect /\ nextEffect f = None /\ firstEffect f = None /\ lastEffect f = None.
Ltac fibers := repeat (first
  [ rewrite fiber_of_eq | rewrite fiber_of_ne by (done || congruence || lia) | rewrite fiber_of_grow_eq | rewrite fiber_of_grow_ne by (done || congruence || lia) ]).
Lemma createWorkInProgress_spec s l o pending : o ∈ l -> paired s l o ->
  wp (createWorkInProgress o pending) (fun w s' => cloned s o pending w s') s.
Proof.
  intros Hl [Ho Ha]. unfold createWorkInProgress. do 2 wp_step.
  destruct (alternate (fiber_of s o)) as [a|] eqn:Ea.
  - destruct Ha as (Hlt & Hn & Haa & Hk). assert (Hne : a <> o) by (by intros ->).
    repeat wp_step. unfold cloned. rewrite !outside_upd. fibers. cbn. rewrite Ea. injection Hk as K1 K2 K3 K4.
    split_and!; try done; try (by left).
    + by destruct (fiber_of s o); cbn in *; subst.
    + intros y H1 H2. by fibers.
    + unfold kind. cbn. by rewrite K1, K2, K3, K4.
  - assert (Hne : allocated s <> o) by lia. repeat wp_step. unfold cloned. rewrite !outside_upd, outside_grow. fibers. cbn.
    split_and!; try done; try lia; try (by right).
    intros y H1 H2. by fibers.
Qed.
