(* ===== verification/ChildReconciler.v ===== *)
(** * Reconciliation of children

    [ChildReconciler] of Libraries/Renderer/implementations/ReactNativeRenderer-dev.js:
    the children a component rendered are matched by keys, positions and types with the
    fibers of the last time, which are used again, and the fibers to delete, to insert and
    to move are marked.  [shouldTrackSideEffects] is false on mounting.

    Children that are iterables but not arrays go through a copy of the algorithm for
    arrays, and are left out with the warnings.  Loops along [sibling] have fuel. *)
From S2P Require Import Prelude Fiber.
From stdpp Require Import base numbers list gmap strings sorting.
Open Scope Z_scope.

(** Keys of the map of remaining children: a key, or the index of a child without one. *)
Inductive slot_key := ByKey (k : string) | ByIndex (i : Z).
#[export] Instance slot_key_eq_dec : EqDecision slot_key.
Proof. solve_decision. Defined.
Definition slot_key_of (k : option string) (i : Z) : slot_key :=
  match k with Some k => ByKey k | None => ByIndex i end.

Section Reconciler.
Context (tagOf : nat -> tag_) (shouldTrackSideEffects : bool).

Definition deleteChild (returnFiber childToDelete : nat) : JS st unit :=
  if negb shouldTrackSideEffects then ret tt else
  let! last := gets (fun s => lastEffect (fiber_of s returnFiber)) in
  do! match last with
      | Some last =>
          do! on_fiber last (set_nextEffect (Some childToDelete));
          on_fiber returnFiber (set_lastEffect (Some childToDelete))
      | None => on_fiber returnFiber (fun f => set_firstEffect (Some childToDelete) (set_lastEffect (Some childToDelete) f))
      end;
  do! on_fiber childToDelete (set_nextEffect None);
  on_fiber childToDelete (set_effectTag Deletion).
Fixpoint deleteRemaining (fuel : nat) (returnFiber : nat) (childToDelete : option nat) : JS st unit :=
  match childToDelete with
  | None => ret tt
  | Some c =>
      match fuel with
      | O => out_of_fuel
      | S fuel =>
          do! deleteChild returnFiber c;
          let! next := gets (fun s => sibling (fiber_of s c)) in
          deleteRemaining fuel returnFiber next
      end
  end.
Definition deleteRemainingChildren (fuel : nat) (returnFiber : nat) (currentFirstChild : option nat) : JS st (option nat) :=
  do! when shouldTrackSideEffects (deleteRemaining fuel returnFiber currentFirstChild);
  ret None.
Fixpoint mapRemainingChildren (fuel : nat) (existingChild : option nat) (m : list (slot_key * nat)) : JS st (list (slot_key * nat)) :=
  match existingChild with
  | None => ret m
  | Some c =>
      match fuel with
      | O => out_of_fuel
      | S fuel =>
          let! f := gets (fun s => fiber_of s c) in
          mapRemainingChildren fuel (sibling f) (Prelude.map_set (slot_key_of (key f) (index f)) c m)
      end
  end.

Definition useFiber (fiber_ : nat) (pending : option props) : JS st nat :=
  let! clone := createWorkInProgress fiber_ pending in
  do! on_fiber clone (set_index 0);
  do! on_fiber clone (set_sibling None);
  ret clone.
Definition placeChild (newFiber : nat) (lastPlacedIndex newIndex : Z) : JS st Z :=
  do! on_fiber newFiber (set_index newIndex);
  if negb shouldTrackSideEffects then ret lastPlacedIndex else
  let! current := gets (fun s => alternate (fiber_of s newFiber)) in
  match current with
  | Some current =>
      let! oldIndex := gets (fun s => index (fiber_of s current)) in
      if oldIndex <? lastPlacedIndex then
        do! on_fiber newFiber (set_effectTag Placement);
        ret lastPlacedIndex
      else ret oldIndex
  | None =>
      do! on_fiber newFiber (set_effectTag Placement);
      ret lastPlacedIndex
  end.
Definition placeSingleChild (newFiber : nat) : JS st nat :=
  let! current := gets (fun s => alternate (fiber_of s newFiber)) in
  do! when (shouldTrackSideEffects && bool_decide (current = None)) (on_fiber newFiber (set_effectTag Placement));
  ret newFiber.

(** A fiber that is created and one that is used again get their parent. *)
Definition returning (returnFiber : nat) (m : JS st nat) : JS st nat :=
  let! f := m in
  do! on_fiber f (set_return_ (Some returnFiber));
  ret f.
Definition mode_of (x : nat) : JS st Z := gets (fun s => mode (fiber_of s x)).
Definition updateTextNode (returnFiber : nat) (current : option nat) (textContent : string) (e : Z) : JS st nat :=
  let create := let! m := mode_of returnFiber in returning returnFiber (createFiberFromText textContent m e) in
  match current with
  | None => create
  | Some c =>
      let! f := gets (fun s => fiber_of s c) in
      if bool_decide (tag f <> HostText) then create
      else returning returnFiber (useFiber c (Some (PText textContent)))
  end.
(** A new fiber for an element, with its ref. *)
Definition createElement (returnFiber : nat) (k : option string) (t p : nat) (r : option nat) (e : Z) : JS st nat :=
  let! m := mode_of returnFiber in
  let! f := createFiberFromTypeAndProps tagOf t k p m e in
  do! on_fiber f (set_ref r);
  returning returnFiber (ret f).
Definition updateElement (returnFiber : nat) (current : option nat) (k : option string) (t p : nat) (r : option nat) (e : Z) : JS st nat :=
  match current with
  | None => createElement returnFiber k t p r e
  | Some c =>
      let! f := gets (fun s => fiber_of s c) in
      if bool_decide (elementType f = Some t) then
        let! existing := useFiber c (Some (PProps p)) in
        do! on_fiber existing (set_ref r);
        returning returnFiber (ret existing)
      else createElement returnFiber k t p r e
  end.
Definition same_portal (f : fiber) (containerInfo implementation : nat) : bool :=
  bool_decide (tag f = HostPortal) &&
  match stateNode f with
  | Some (NPortal c i) => (c =? containerInfo)%nat && (i =? implementation)%nat
  | _ => false
  end.
(** [portal.children || []], but for the number 0, which is a text here. *)
Definition or_empty (c : child) : child :=
  match c with CNull | CUndefined => CArray [] | CText s => if bool_decide (s = "") then CArray [] else c | _ => c end.
Definition updatePortal (returnFiber : nat) (current : option nat) (k : option string) (containerInfo implementation : nat)
    (children : child) (e : Z) : JS st nat :=
  let create :=
    let! m := mode_of returnFiber in
    returning returnFiber (createFiberFromPortal k containerInfo implementation children m e) in
  match current with
  | None => create
  | Some c =>
      let! f := gets (fun s => fiber_of s c) in
      if negb (same_portal f containerInfo implementation) then create
      else returning returnFiber (useFiber c (Some (PChildren (or_empty children))))
  end.
Definition updateFragment (returnFiber : nat) (current : option nat) (fragment : child) (e : Z) (k : option string) : JS st nat :=
  let create := let! m := mode_of returnFiber in returning returnFiber (createFiberFromFragment fragment m e k) in
  match current with
  | None => create
  | Some c =>
      let! f := gets (fun s => fiber_of s c) in
      if bool_decide (tag f <> Fragment) then create
      else returning returnFiber (useFiber c (Some (PChildren fragment)))
  end.

Definition throwOnInvalidObjectType {A} : JS st A := throw (JSError "Objects are not valid as a React child").
Definition createChild (returnFiber : nat) (newChild : child) (e : Z) : JS st (option nat) :=
  let! m := mode_of returnFiber in
  match newChild with
  | CText t => let! f := returning returnFiber (createFiberFromText t m e) in ret (Some f)
  | CElement k t p r => let! f := createElement returnFiber k t p r e in ret (Some f)
  | CFragment k children => let! f := returning returnFiber (createFiberFromFragment children m e k) in ret (Some f)
  | CPortal k c i children => let! f := returning returnFiber (createFiberFromPortal k c i children m e) in ret (Some f)
  | CArray l => let! f := returning returnFiber (createFiberFromFragment newChild m e None) in ret (Some f)
  | CObject => throwOnInvalidObjectType
  | CNull | CUndefined | CFunction => ret None
  end.
(** The fiber of the slot is updated if the keys match. *)
Definition updateSlot (returnFiber : nat) (oldFiber : option nat) (newChild : child) (e : Z) : JS st (option nat) :=
  let! oldKey := match oldFiber with
                 | Some o => gets (fun s => key (fiber_of s o))
                 | None => ret None
                 end in
  match newChild with
  | CText t =>
      if bool_decide (oldKey <> None) then ret None
      else let! f := updateTextNode returnFiber oldFiber t e in ret (Some f)
  | CElement k t p r =>
      if bool_decide (k = oldKey) then
        let! f := updateElement returnFiber oldFiber k t p r e in ret (Some f)
      else ret None
  | CFragment k children =>
      if bool_decide (k = oldKey) then
        let! f := updateFragment returnFiber oldFiber children e oldKey in ret (Some f)
      else ret None
  | CPortal k c i children =>
      if bool_decide (k = oldKey) then
        let! f := updatePortal returnFiber oldFiber k c i children e in ret (Some f)
      else ret None
  | CArray l =>
      if bool_decide (oldKey <> None) then ret None
      else let! f := updateFragment returnFiber oldFiber newChild e None in ret (Some f)
  | CObject => throwOnInvalidObjectType
  | CNull | CUndefined | CFunction => ret None
  end.
Definition updateFromMap (existingChildren : list (slot_key * nat)) (returnFiber : nat) (newIdx : Z) (newChild : child) (e : Z)
    : JS st (option nat) :=
  match newChild with
  | CText t =>
      let! f := updateTextNode returnFiber (Prelude.map_get (ByIndex newIdx) existingChildren) t e in ret (Some f)
  | CElement k t p r =>
      let! f := updateElement returnFiber (Prelude.map_get (slot_key_of k newIdx) existingChildren) k t p r e in ret (Some f)
  | CFragment k children =>
      let! f := updateFragment returnFiber (Prelude.map_get (slot_key_of k newIdx) existingChildren) children e k in ret (Some f)
  | CPortal k c i children =>
      let! f := updatePortal returnFiber (Prelude.map_get (slot_key_of k newIdx) existingChildren) k c i children e in ret (Some f)
  | CArray l =>
      let! f := updateFragment returnFiber (Prelude.map_get (ByIndex newIdx) existingChildren) newChild e None in ret (Some f)
  | CObject => throwOnInvalidObjectType
  | CNull | CUndefined | CFunction => ret None
  end.

(** The variables of [reconcileChildrenArray] for the new list. *)
Record progress := { resultingFirstChild : option nat; previousNewFiber : option nat; lastPlacedIndex : Z }.
Definition place (newFiber : nat) (newIdx : Z) (v : progress) : JS st progress :=
  let! last := placeChild newFiber (lastPlacedIndex v) newIdx in
  do! match previousNewFiber v with
      | None => ret tt
      | Some p => on_fiber p (set_sibling (Some newFiber))
      end;
  ret {| resultingFirstChild := match previousNewFiber v with None => Some newFiber | Some _ => resultingFirstChild v end;
         previousNewFiber := Some newFiber; lastPlacedIndex := last |}.
(** Slot by slot, as long as keys match. *)
Fixpoint slots_loop (returnFiber : nat) (e : Z) (newChildren : list child) (oldFiber : option nat) (newIdx : Z) (v : progress)
    : JS st (option nat * list child * Z * progress) :=
  match newChildren, oldFiber with
  | c :: cs, Some o =>
      let! f := gets (fun s => fiber_of s o) in
      let '(oldFiber, nextOldFiber) := if newIdx <? index f then (None, Some o) else (Some o, sibling f) in
      let! newFiber := updateSlot returnFiber oldFiber c e in
      match newFiber with
      | None => ret (match oldFiber with None => nextOldFiber | Some o => Some o end, newChildren, newIdx, v)
      | Some n =>
          let! alt := gets (fun s => alternate (fiber_of s n)) in
          do! match oldFiber with
              | Some o => when (shouldTrackSideEffects && bool_decide (alt = None)) (deleteChild returnFiber o)
              | None => ret tt
              end;
          let! v := place n newIdx v in
          slots_loop returnFiber e cs nextOldFiber (newIdx + 1) v
      end
  | _, _ => ret (oldFiber, newChildren, newIdx, v)
  end.
(** The rest are insertions. *)
Fixpoint create_loop (returnFiber : nat) (e : Z) (newChildren : list child) (newIdx : Z) (v : progress) : JS st progress :=
  match newChildren with
  | [] => ret v
  | c :: cs =>
      let! newFiber := createChild returnFiber c e in
      let! v := match newFiber with None => ret v | Some n => place n newIdx v end in
      create_loop returnFiber e cs (newIdx + 1) v
  end.
(** The rest are looked up in the map. *)
Fixpoint map_loop (returnFiber : nat) (e : Z) (newChildren : list child) (newIdx : Z) (existing : list (slot_key * nat)) (v : progress)
    : JS st (list (slot_key * nat) * progress) :=
  match newChildren with
  | [] => ret (existing, v)
  | c :: cs =>
      let! newFiber := updateFromMap existing returnFiber newIdx c e in
      match newFiber with
      | None => map_loop returnFiber e cs (newIdx + 1) existing v
      | Some n =>
          let! f := gets (fun s => fiber_of s n) in
          let existing := if shouldTrackSideEffects && bool_decide (is_Some (alternate f))
                          then Prelude.map_delete (slot_key_of (key f) newIdx) existing else existing in
          let! v := place n newIdx v in
          map_loop returnFiber e cs (newIdx + 1) existing v
      end
  end.
Definition reconcileChildrenArray (fuel : nat) (returnFiber : nat) (currentFirstChild : option nat) (newChildren : list child) (e : Z)
    : JS st (option nat) :=
  let v := {| resultingFirstChild := None; previousNewFiber := None; lastPlacedIndex := 0 |} in
  let! r := slots_loop returnFiber e newChildren currentFirstChild 0 v in
  let '(oldFiber, rest, newIdx, v) := r in
  match rest, oldFiber with
  | [], _ =>
      do! deleteRemainingChildren fuel returnFiber oldFiber;
      ret (resultingFirstChild v)
  | _, None =>
      let! v := create_loop returnFiber e rest newIdx v in
      ret (resultingFirstChild v)
  | _, Some _ =>
      let! existing := mapRemainingChildren fuel oldFiber [] in
      let! r := map_loop returnFiber e rest newIdx existing v in
      do! when shouldTrackSideEffects (for_each (fst r).*2 (deleteChild returnFiber));
      ret (resultingFirstChild (snd r))
  end.

Definition reconcileSingleTextNode (fuel : nat) (returnFiber : nat) (currentFirstChild : option nat) (textContent : string) (e : Z)
    : JS st nat :=
  let create :=
    do! deleteRemainingChildren fuel returnFiber currentFirstChild;
    let! m := mode_of returnFiber in
    returning returnFiber (createFiberFromText textContent m e) in
  match currentFirstChild with
  | None => create
  | Some c =>
      let! f := gets (fun s => fiber_of s c) in
      if bool_decide (tag f = HostText) then
        do! deleteRemainingChildren fuel returnFiber (sibling f);
        returning returnFiber (useFiber c (Some (PText textContent)))
      else create
  end.
(** The first child with the key is used if it fits; all others are deleted. *)
Fixpoint single_loop (fuel : nat) (returnFiber : nat) (child : option nat) (k : option string) (fits : fiber -> bool)
    (pending : props) : JS st (option nat) :=
  match child with
  | None => ret None
  | Some c =>
      match fuel with
      | O => out_of_fuel
      | S fuel =>
          let! f := gets (fun s => fiber_of s c) in
          if bool_decide (key f = k) then
            if fits f then
              do! deleteRemainingChildren fuel returnFiber (sibling f);
              let! existing := useFiber c (Some pending) in
              ret (Some existing)
            else
              do! deleteRemainingChildren (S fuel) returnFiber (Some c);
              ret None
          else
            do! deleteChild returnFiber c;
            let! next := gets (fun s => sibling (fiber_of s c)) in
            single_loop fuel returnFiber next k fits pending
      end
  end.
Definition reconcileSingleElement (fuel : nat) (returnFiber : nat) (currentFirstChild : option nat) (k : option string) (t p : nat)
    (r : option nat) (e : Z) : JS st nat :=
  let! existing := single_loop fuel returnFiber currentFirstChild k
    (fun f => bool_decide (tag f <> Fragment /\ elementType f = Some t)) (PProps p) in
  let! f := match existing with
            | Some f => ret f
            | None => let! m := mode_of returnFiber in createFiberFromTypeAndProps tagOf t k p m e
            end in
  do! on_fiber f (set_ref r);
  returning returnFiber (ret f).
(** An element whose type is a fragment. *)
Definition reconcileSingleFragment (fuel : nat) (returnFiber : nat) (currentFirstChild : option nat) (k : option string)
    (children : child) (e : Z) : JS st nat :=
  let! existing := single_loop fuel returnFiber currentFirstChild k (fun f => bool_decide (tag f = Fragment)) (PChildren children) in
  match existing with
  | Some f => returning returnFiber (ret f)
  | None => let! m := mode_of returnFiber in returning returnFiber (createFiberFromFragment children m e k)
  end.
Definition reconcileSinglePortal (fuel : nat) (returnFiber : nat) (currentFirstChild : option nat) (k : option string)
    (containerInfo implementation : nat) (children : child) (e : Z) : JS st nat :=
  let! existing := single_loop fuel returnFiber currentFirstChild k
    (fun f => same_portal f containerInfo implementation) (PChildren (or_empty children)) in
  match existing with
  | Some f => returning returnFiber (ret f)
  | None => let! m := mode_of returnFiber in returning returnFiber (createFiberFromPortal k containerInfo implementation children m e)
  end.

Definition reconcileChildFibers (fuel : nat) (returnFiber : nat) (currentFirstChild : option nat) (newChild : child) (e : Z)
    : JS st (option nat) :=
  let isUnkeyedTopLevelFragment := match newChild with CFragment None _ => true | _ => false end in
  let newChild := match newChild with CFragment None children => children | c => c end in
  let single (m : JS st nat) := let! f := m in let! f := placeSingleChild f in ret (Some f) in
  match newChild with
  | CElement k t p r => single (reconcileSingleElement fuel returnFiber currentFirstChild k t p r e)
  | CFragment k children => single (reconcileSingleFragment fuel returnFiber currentFirstChild k children e)
  | CPortal k c i children => single (reconcileSinglePortal fuel returnFiber currentFirstChild k c i children e)
  | CText t => single (reconcileSingleTextNode fuel returnFiber currentFirstChild t e)
  | CArray l => reconcileChildrenArray fuel returnFiber currentFirstChild l e
  | CObject => throwOnInvalidObjectType
  | CUndefined =>
      let! t := gets (fun s => tag (fiber_of s returnFiber)) in
      if negb isUnkeyedTopLevelFragment && bool_decide (t = ClassComponent \/ t = FunctionComponent)
      then throw (JSError "Nothing was returned from render")
      else deleteRemainingChildren fuel returnFiber currentFirstChild
  | CNull | CFunction => deleteRemainingChildren fuel returnFiber currentFirstChild
  end.
End Reconciler.

(** ** A fiber for a child *)
Section Making.
Context (tagOf : nat -> tag_) (HtagOf : forall t, tagOf t ∉ [HostText; Fragment; HostPortal; HostRoot]).
(** What a fiber of a child looks like. *)
Definition fits (c : child) (f : fiber) : Prop :=
  match c with
  | CText t => tag f = HostText /\ key f = None /\ elementType f = None /\ pendingProps f = Some (PText t)
  | CElement k t p _ => tag f = tagOf t /\ key f = k /\ elementType f = Some t /\ pendingProps f = Some (PProps p)
  | CFragment k ch => tag f = Fragment /\ key f = k /\ elementType f = None /\ pendingProps f = Some (PChildren ch)
  | CPortal k c i ch => tag f = HostPortal /\ key f = k /\ elementType f = None /\ stateNode f = Some (NPortal c i)
  | CArray l => tag f = Fragment /\ key f = None /\ elementType f = None /\ pendingProps f = Some (PChildren (CArray l))
  | _ => False
  end.
(** When the fiber of another child can be used for a child with the same key. *)
Definition compatible (c : child) (f : fiber) : bool :=
  match c with
  | CText _ => bool_decide (tag f = HostText)
  | CElement _ t _ _ => bool_decide (elementType f = Some t)
  | CFragment _ _ | CArray _ => bool_decide (tag f = Fragment)
  | CPortal _ c i _ => same_portal f c i
  | _ => false
  end.
Definition key_of (c : child) : option string :=
  match c with CElement k _ _ _ | CFragment k _ | CPortal k _ _ _ => k | _ => None end.
Definition fresh_work (P : nat) (f : fiber) : Prop :=
  return_ f = Some P /\ sibling f = None /\ effectTag f = NoEffect /\ nextEffect f = None /\ firstEffect f = None /\ lastEffect f = None.
(** [n] is a new fiber for [c], or the work in progress of [cur] with which it is compatible. *)
Definition made (P : nat) (s : st) (c : child) (cur : option nat) (n : nat) (s' : st) : Prop :=
  outside s' = outside s /\ (allocated s <= allocated s')%nat /\ (n < allocated s')%nat /\
  fits c (fiber_of s' n) /\ fresh_work P (fiber_of s' n) /\
  match alternate (fiber_of s' n) with
  | None => n = allocated s /\ (forall y, y <> n -> fiber_of s' y = fiber_of s y) /\
            (forall o, cur = Some o -> compatible c (fiber_of s o) = false) /\
            (tag (fiber_of s' n) <> HostPortal -> stateNode (fiber_of s' n) = None) /\ child_ (fiber_of s' n) = None
  | Some o => cur = Some o /\ n <> o /\ compatible c (fiber_of s o) = true /\
              (alternate (fiber_of s o) = Some n \/ alternate (fiber_of s o) = None /\ n = allocated s) /\
              fiber_of s' o = set_alternate (Some n) (fiber_of s o) /\
              (forall y, y <> n -> y <> o -> fiber_of s' y = fiber_of s y) /\
              kind (fiber_of s' n) = kind (fiber_of s o) /\
              memoizedProps (fiber_of s' n) = memoizedProps (fiber_of s o) /\
              updateQueue (fiber_of s' n) = updateQueue (fiber_of s o)
  end.
Lemma made_new P s c cur s' : let f := fiber_of s' (allocated s) in
  outside s' = outside s -> allocated s' = S (allocated s) -> (forall y, y <> allocated s -> fiber_of s' y = fiber_of s y) ->
  fits c f -> fresh_work P f -> alternate f = None -> (tag f <> HostPortal -> stateNode f = None) -> child_ f = None ->
  (forall o, cur = Some o -> compatible c (fiber_of s o) = false) -> made P s c cur (allocated s) s'.
Proof. intros f Ho Hal Hs Hf Hw Ha Hn Hch Hc. unfold made. fold f. rewrite Ha, Hal. split_and!; try done; lia. Qed.
Ltac made_new := repeat wp_step; apply made_new; fibers; [done|done|intros y Hy; by fibers|..]; cbn; try done.
Lemma wp_createText P s t m e cur : (forall o, cur = Some o -> compatible (CText t) (fiber_of s o) = false) ->
  wp (returning P (createFiberFromText t m e)) (fun n s' => made P s (CText t) cur n s') s.
Proof. intros Hc. unfold returning, createFiberFromText, createFiber. made_new. Qed.
Lemma wp_createFragment P s k ch m e cur : (forall o, cur = Some o -> compatible (CFragment k ch) (fiber_of s o) = false) ->
  wp (returning P (createFiberFromFragment ch m e k)) (fun n s' => made P s (CFragment k ch) cur n s') s.
Proof. intros Hc. unfold returning, createFiberFromFragment, createFiber. made_new. Qed.
Lemma wp_createPortal P s k c i ch m e cur : (forall o, cur = Some o -> compatible (CPortal k c i ch) (fiber_of s o) = false) ->
  wp (returning P (createFiberFromPortal k c i ch m e)) (fun n s' => made P s (CPortal k c i ch) cur n s') s.
Proof. intros Hc. unfold returning, createFiberFromPortal, createFiber. made_new. Qed.
Lemma wp_createElement P s k t p r e cur : (forall o, cur = Some o -> compatible (CElement k t p r) (fiber_of s o) = false) ->
  wp (createElement tagOf P k t p r e) (fun n s' => made P s (CElement k t p r) cur n s') s.
Proof. intros Hc. unfold createElement, mode_of, returning, createFiberFromTypeAndProps, createFiber. made_new. Qed.

(** A fiber that may be used for [c]. *)
Definition usable (s : st) (l : list nat) (c : child) (o : nat) : Prop :=
  o ∈ l /\ paired s l o /\ key (fiber_of s o) = key_of c /\ exists c0, fits c0 (fiber_of s o).
Lemma fits_kind c f f' : kind f' = kind f -> pendingProps f' = pendingProps f -> fits c f -> fits c f'.
Proof. intros [= H1 H2 H3 H4] H5. destruct c; cbn; by rewrite ?H1, ?H2, ?H3, ?H4, ?H5. Qed.
(** Another fiber of the right kind with new props. *)
Lemma compatible_fits c f f' pending : key f = key_of c -> (exists c0, fits c0 f) -> compatible c f = true ->
  kind f' = kind f -> pendingProps f' = Some pending ->
  match c with
  | CText t => pending = PText t | CElement _ _ p _ => pending = PProps p | CFragment _ ch => pending = PChildren ch
  | CArray l => pending = PChildren (CArray l) | _ => True
  end -> fits c f'.
Proof.
  intros Hk [c0 H0] Hc [= K1 K2 K3 K4] Hp Hpp.
  assert (Ht : forall t, tag f = tagOf t -> tag f <> HostText /\ tag f <> Fragment /\ tag f <> HostPortal).
  { intros t ->. specialize (HtagOf t). split_and!; intros E; apply HtagOf; rewrite E; set_solver. }
  assert (He : forall t, elementType f = Some t -> tag f = tagOf t).
  { intros t E. destruct c0; cbn in H0; try done; destruct H0 as (? & ? & ? & ?); congruence. }
  assert (Hn : tag f = HostText \/ tag f = Fragment \/ tag f = HostPortal -> elementType f = None).
  { intros E. destruct (elementType f) as [t|] eqn:Et; [|done]. destruct (Ht t (He t eq_refl)) as (A1 & A2 & A3). by destruct E as [E|[E|E]]. }
  destruct c; cbn in *; subst; try done; try apply bool_decide_eq_true_1 in Hc;
    try (rewrite K1, K2, K3, Hp; split_and!; by auto).
  unfold same_portal in Hc. apply andb_prop in Hc as [Hc1 Hc2]. apply bool_decide_eq_true_1 in Hc1.
  rewrite K1, K2, K3, K4. split_and!; try by auto. destruct (stateNode f) as [[]|]; try done.
  apply andb_prop in Hc2 as [->%Nat.eqb_eq ->%Nat.eqb_eq]. done.
Qed.

Lemma made_used P s l c o pending n s1 s' : usable s l c o -> compatible c (fiber_of s o) = true ->
  match c with
  | CText t => pending = PText t | CElement _ _ p _ => pending = PProps p | CFragment _ ch => pending = PChildren ch
  | CArray l => pending = PChildren (CArray l) | _ => True
  end -> cloned s o (Some pending) n s1 ->
  outside s' = outside s1 -> allocated s' = allocated s1 -> (forall y, y <> n -> fiber_of s' y = fiber_of s1 y) ->
  (exists i r, fiber_of s' n = set_return_ (Some P) (set_ref r (set_sibling None (set_index i (fiber_of s1 n))))) ->
  made P s c (Some o) n s'.
Proof.
  intros (Hl & Hp & Hk & Hw) Hc Hpp (C1 & C2 & C3 & C4 & C5 & C6 & C7 & F1 & F2 & F3 & F4 & F5 & F6 & F7 & F8 & F9 & F10 & F11 & F12)
    Ho Ha Hf (i & r & Hn). unfold made. rewrite Hn. cbn [alternate set_return_ set_ref set_sibling set_index]. rewrite F2, Ho, Ha.
  split_and!; try done.
  - apply (compatible_fits c (fiber_of s o) _ pending); done.
  - by rewrite Hf.
  - intros y H1 H2. by rewrite Hf, C7.
Qed.
Lemma wp_use P s l c o pending : usable s l c o -> compatible c (fiber_of s o) = true ->
  match c with
  | CText t => pending = PText t | CElement _ _ p _ => pending = PProps p | CFragment _ ch => pending = PChildren ch
  | CArray l => pending = PChildren (CArray l) | _ => True
  end -> wp (returning P (useFiber o (Some pending))) (fun n s' => made P s c (Some o) n s') s.
Proof.
  intros Hu Hc Hpp. unfold returning, useFiber. do 2 wp_step. eapply wp_mono; [by eapply createWorkInProgress_spec; apply Hu|].
  intros n s1 C. repeat wp_step. eapply made_used; try done; [intros y Hy; by fibers|].
  exists 0, (ref (fiber_of s1 n)). fibers. by destruct (fiber_of s1 n).
Qed.
Lemma wp_use_ref P s l k t p r o : usable s l (CElement k t p r) o -> compatible (CElement k t p r) (fiber_of s o) = true ->
  wp (let! f := useFiber o (Some (PProps p)) in do! on_fiber f (set_ref r); returning P (ret f))
    (fun n s' => made P s (CElement k t p r) (Some o) n s') s.
Proof.
  intros Hu Hc. unfold returning, useFiber. do 2 wp_step. eapply wp_mono; [by eapply createWorkInProgress_spec; apply Hu|].
  intros n s1 C. repeat wp_step. eapply made_used; try done; [intros y Hy; by fibers|].
  exists 0, r. by fibers.
Qed.
(** What a slot has is usable for the child, or nothing. *)
Definition slot (s : st) (l : list nat) (c : child) (cur : option nat) : Prop := forall o, cur = Some o -> usable s l c o.
Lemma wp_text P s l t e cur : slot s l (CText t) cur ->
  wp (updateTextNode P cur t e) (fun n s' => made P s (CText t) cur n s') s.
Proof.
  intros Hs. unfold updateTextNode, mode_of. destruct cur as [o|]; [|do 2 wp_step; by apply wp_createText].
  do 2 wp_step. case_bool_decide as Ht.
  - do 2 wp_step. apply wp_createText. intros ? [= <-]. by apply bool_decide_eq_false_2.
  - eapply wp_use; [by apply Hs| |done]. by apply bool_decide_eq_true_2.
Qed.
Lemma wp_fragment P s l k ch e cur : slot s l (CFragment k ch) cur ->
  wp (updateFragment P cur ch e k) (fun n s' => made P s (CFragment k ch) cur n s') s.
Proof.
  intros Hs. unfold updateFragment, mode_of. destruct cur as [o|]; [|do 2 wp_step; by apply wp_createFragment].
  do 2 wp_step. case_bool_decide as Ht.
  - do 2 wp_step. apply wp_createFragment. intros ? [= <-]. by apply bool_decide_eq_false_2.
  - eapply wp_use; [by apply Hs| |done]. by apply bool_decide_eq_true_2.
Qed.
Lemma made_array P s l cur n s' : made P s (CFragment None (CArray l)) cur n s' -> made P s (CArray l) cur n s'.
Proof. done. Qed.
Lemma wp_portal P s l k c i ch e cur : slot s l (CPortal k c i ch) cur ->
  wp (updatePortal P cur k c i ch e) (fun n s' => made P s (CPortal k c i ch) cur n s') s.
Proof.
  intros Hs. unfold updatePortal, mode_of. destruct cur as [o|]; [|do 2 wp_step; apply wp_createPortal; by intros ? [=]].
  do 2 wp_step. destruct (same_portal (fiber_of s o) c i) eqn:Ep; cbn [negb].
  - eapply wp_use; [by apply Hs|done..].
  - do 2 wp_step. apply wp_createPortal. by intros ? [= <-].
Qed.
Lemma wp_element P s l k t p r e cur : slot s l (CElement k t p r) cur ->
  wp (updateElement tagOf P cur k t p r e) (fun n s' => made P s (CElement k t p r) cur n s') s.
Proof.
  intros Hs. unfold updateElement. destruct cur as [o|]; [|by apply wp_createElement].
  do 2 wp_step. case_bool_decide as Ht.
  - eapply wp_use_ref; [by apply Hs|by apply bool_decide_eq_true_2].
  - apply wp_createElement. intros ? [= <-]. by apply bool_decide_eq_false_2.
Qed.
(** Children that make no fiber, and those that may be rendered. *)
Definition empty (c : child) : bool := match c with CNull | CUndefined | CFunction => true | _ => false end.
Definition valid (c : child) : Prop := c <> CObject.
Definition slot_result (P : nat) (s : st) (c : child) (cur : option nat) (r : option nat) (s' : st) : Prop :=
  match r with
  | Some n => empty c = false /\ made P s c cur n s'
  | None => s' = s
  end.
Lemma wp_result P s c cur (m : JS st nat) (R : option nat -> Prop) :
  wp m (fun n s' => made P s c cur n s') s -> empty c = false -> (forall n, R (Some n)) ->
  wp (let! f := m in ret (Some f)) (fun r s' => slot_result P s c cur r s' /\ R r) s.
Proof. intros Hm He Hq. wp_step. eapply wp_mono; [done|]. intros n s' H. wp_step. by split; [split|]. Qed.
Lemma wp_createChild P s c e : valid c ->
  wp (createChild tagOf P c e) (fun r s' => slot_result P s c None r s' /\ (r = None -> empty c = true)) s.
Proof.
  intros Hv. unfold createChild, mode_of. do 2 wp_step. destruct c; try done; try (by destruct (Hv eq_refl)); try (by wp_step);
    (apply wp_result; [|done|done]).
  - by apply wp_createText.
  - by apply wp_createElement.
  - by apply wp_createFragment.
  - apply wp_createPortal. by intros ? [=].
  - apply (wp_createFragment P s None (CArray l)). by intros ? [=].
Qed.
Definition key_at (s : st) (o : option nat) : option string := match o with Some o => key (fiber_of s o) | None => None end.
Lemma wp_updateSlot P s l cur c e : valid c ->
  (forall o, cur = Some o -> key (fiber_of s o) = key_of c -> usable s l c o) ->
  wp (updateSlot tagOf P cur c e) (fun r s' => slot_result P s c cur r s' /\
    match r with None => empty c = true \/ key_of c <> key_at s cur | Some _ => key_of c = key_at s cur end) s.
Proof.
  intros Hv Hs. assert (Hsl : key_of c = key_at s cur -> slot s l c cur) by (intros Hk o ->; apply Hs; [done|by rewrite Hk]).
  unfold updateSlot. apply wp_bind. apply (wp_mono _ (fun k s' => k = key_at s cur /\ s' = s)); [by destruct cur; wp_step|].
  intros k s' [-> ->]. destruct c; try done; try (by destruct (Hv eq_refl)); try (wp_step; by split; [|left]); cbn [key_of] in *; case_bool_decide as Hk;
    try (wp_step; by split; [|right]);
    try (apply dec_stable in Hk); (apply wp_result; [|done|done]).
  - eapply wp_text. by apply Hsl.
  - eapply wp_element. by apply Hsl.
  - rewrite <- Hk. eapply wp_fragment. by apply Hsl.
  - eapply wp_portal. by apply Hsl.
  - apply (wp_fragment P s l None (CArray l0)). by apply Hsl.
Qed.
Lemma wp_updateFromMap P s l c e m i : valid c -> let cur := Prelude.map_get (slot_key_of (key_of c) i) m in
  slot s l c cur ->
  wp (updateFromMap tagOf m P i c e) (fun r s' => slot_result P s c cur r s' /\ (r = None -> empty c = true)) s.
Proof.
  intros Hv cur Hs. unfold updateFromMap. destruct c; try done; try (by destruct (Hv eq_refl)); try (by wp_step); subst cur; cbn [key_of slot_key_of] in *;
    (apply wp_result; [|done|done]).
  - by eapply wp_text.
  - by eapply wp_element.
  - by eapply wp_fragment.
  - by eapply wp_portal.
  - by apply (wp_fragment P s l None (CArray l0)).
Qed.
End Making.

(** ** Reconciling an array *)
Fixpoint linked (next : fiber -> option nat) (s : st) (ids : list nat) : Prop :=
  match ids with [] => True | a :: ids' => next (fiber_of s a) = head ids' /\ linked next s ids' end.
Lemma linked_frame next s s' ids : (forall a, a ∈ ids -> next (fiber_of s' a) = next (fiber_of s a)) ->
  linked next s ids -> linked next s' ids.
Proof.
  induction ids as [|a ids IH]; [done|]. intros Hf [H1 H2]. split; [rewrite Hf; [done|left]|].
  apply IH; [|done]. intros b Hb. apply Hf. by right.
Qed.
(** A node is put at the end. *)
Lemma linked_snoc next s s' ids x : NoDup ids -> x ∉ ids -> linked next s ids ->
  (forall l, last ids = Some l -> next (fiber_of s' l) = Some x) -> next (fiber_of s' x) = None ->
  (forall a, a ∈ ids -> Some a <> last ids -> next (fiber_of s' a) = next (fiber_of s a)) -> linked next s' (ids ++ [x]).
Proof.
  induction ids as [|a ids IH]; [by split|]. intros Hd Hx [H1 H2] Hl Hn Hf.
  apply NoDup_cons in Hd as [Hd1 Hd2]. apply not_elem_of_cons in Hx as [Hx1 Hx2]. destruct ids as [|b ids].
  - split; [by apply Hl|by split].
  - split.
    + rewrite Hf; [done|left|]. intros E. symmetry in E. apply Hd1, last_Some_elem_of. exact E.
    + apply IH; [done..|]. intros y Hy. apply Hf. by right.
Qed.
(** What is said of a new fiber: the old one it goes on with, whether it is placed, its
    child and its index. *)
Record entry := { eid : nat; eold : option nat; eplaced : bool; echild : child; eidx : Z }.
Abbreviation ids := (map eid).
Abbreviation reused := (omap eold).
(** The old fibers that stay where they are. *)
Definition stable (es : list entry) : list nat := omap (fun e => if eplaced e then None else eold e) es.
(** What stays of an old fiber. *)
Definition lasting (f : fiber) := (kind f, sibling f, index f, (memoizedProps f, updateQueue f, return_ f, child_ f), pendingProps f).
Lemma lasting_inv f f' : lasting f = lasting f' -> kind f = kind f' /\ sibling f = sibling f' /\ index f = index f' /\
  memoizedProps f = memoizedProps f' /\ updateQueue f = updateQueue f' /\ return_ f = return_ f' /\ child_ f = child_ f' /\
  pendingProps f = pendingProps f'.
Proof. unfold lasting. generalize (kind f) (kind f'). intros k k' [= -> H1 H2 H3 H4 H5 H6 H7]. by split_and!. Qed.

Section Array.
Context (tagOf : nat -> tag_) (HtagOf : forall t, tagOf t ∉ [HostText; Fragment; HostPortal; HostRoot]).
Context (track : bool) (P : nat) (s0 : st) (olds : list nat).
Context (Hpair : forall o, o ∈ olds -> paired s0 (P :: olds) o) (Hfit : forall o, o ∈ olds -> exists c, fits tagOf c (fiber_of s0 o)).
Context (HP : P ∉ olds) (HPa : (P < allocated s0)%nat) (Htrack : track = true \/ olds = []).
Abbreviation pos o := (index (fiber_of s0 o)).
Context (Hpos0 : forall o, o ∈ olds -> 0 <= pos o).
(** An old fiber is moved only if one before it that stays was after it. *)
Definition needed (es : list entry) : Prop := forall es1 e es2 o,
  es = es1 ++ e :: es2 -> eold e = Some o -> eplaced e = true -> exists o', o' ∈ stable es1 /\ pos o < pos o'.

(** A new fiber for [c] that is not yet in the list. *)
Record ready (s : st) (n : nat) (c : child) (old : option nat) : Prop := {
  r_apart : n ∉ P :: olds;
  r_allocated : (n < allocated s)%nat;
  r_fits : fits tagOf c (fiber_of s n);
  r_alternate : alternate (fiber_of s n) = old;
  r_return : return_ (fiber_of s n) = Some P;
  r_effects : nextEffect (fiber_of s n) = None /\ firstEffect (fiber_of s n) = None /\ lastEffect (fiber_of s n) = None;
  r_old : match old with
          | None => (allocated s0 <= n)%nat /\ (tag (fiber_of s n) <> HostPortal -> stateNode (fiber_of s n) = None) /\
                    child_ (fiber_of s n) = None
          | Some o => o ∈ olds /\ alternate (fiber_of s o) = Some n /\ kind (fiber_of s n) = kind (fiber_of s0 o) /\
                      memoizedProps (fiber_of s n) = memoizedProps (fiber_of s0 o) /\
                      updateQueue (fiber_of s n) = updateQueue (fiber_of s0 o) /\
                      (alternate (fiber_of s0 o) = Some n \/ alternate (fiber_of s0 o) = None /\ (allocated s0 <= n)%nat)
          end
}.
Definition entry_ok (s : st) (e : entry) : Prop :=
  ready s (eid e) (echild e) (eold e) /\ index (fiber_of s (eid e)) = eidx e /\
  effectTag (fiber_of s (eid e)) = (if eplaced e then Placement else NoEffect) /\ (eold e = None -> eplaced e = track).
(** The list [es] is made and [D] are deleted; the work in progress of [x] is on the way. *)
Record inv (s : st) (es : list entry) (D : list nat) (idx : Z) (v : progress) (x : option nat) : Prop := {
  i_outside : outside s = outside s0;
  i_allocated : (allocated s0 <= allocated s)%nat;
  i_old o : o ∈ olds -> lasting (fiber_of s o) = lasting (fiber_of s0 o);
  i_alternate o : o ∈ olds -> o ∉ reused es -> Some o <> x -> alternate (fiber_of s o) = alternate (fiber_of s0 o);
  i_entries e : e ∈ es -> entry_ok s e;
  i_linked : linked sibling s (ids es);
  i_first : resultingFirstChild v = head (ids es) /\ previousNewFiber v = last (ids es);
  i_ids : NoDup (ids es);
  i_reused : NoDup (reused es);
  i_deleted : NoDup D /\ linked nextEffect s D /\
    (forall o, o ∈ D -> o ∈ olds /\ o ∉ reused es /\ effectTag (fiber_of s o) = Deletion);
  i_parent : fiber_of s P = set_firstEffect (head D) (set_lastEffect (last D) (fiber_of s0 P));
  i_index : StronglySorted (fun e e' => eidx e < eidx e') es /\ (forall e, e ∈ es -> 0 <= eidx e < idx);
  i_placed : StronglySorted (fun a b => pos a <= pos b) (stable es) /\ (forall o, o ∈ stable es -> pos o <= lastPlacedIndex v) /\
    (lastPlacedIndex v = 0 \/ exists o, o ∈ stable es /\ pos o = lastPlacedIndex v) /\ needed es;
  i_frame y : (y < allocated s0)%nat -> y ∉ P :: olds -> y ∉ ids es -> (forall o, x = Some o -> alternate (fiber_of s0 o) <> Some y) ->
    fiber_of s y = fiber_of s0 y
}.
Lemma stable_reused es o : o ∈ stable es -> o ∈ reused es.
Proof.
  unfold stable. rewrite !list_elem_of_omap. intros (e & He & H). exists e. by destruct (eplaced e).
Qed.
Lemma ids_elem es e : e ∈ es -> eid e ∈ ids es.
Proof. intros He. apply list_elem_of_fmap. by exists e. Qed.
Lemma ids_inv es n : n ∈ ids es -> exists e, e ∈ es /\ eid e = n.
Proof. intros Hn. apply list_elem_of_fmap in Hn as (e & -> & He). by exists e. Qed.
Lemma reused_elem (es : list entry) e o : e ∈ es -> eold e = Some o -> o ∈ reused es.
Proof. intros He Ho. apply list_elem_of_omap. by exists e. Qed.
Lemma ready_frame s s' n c old : ready s n c old -> (allocated s <= allocated s')%nat ->
  (exists x, fiber_of s' n = set_sibling x (fiber_of s n)) ->
  (forall o, old = Some o -> alternate (fiber_of s' o) = alternate (fiber_of s o)) -> ready s' n c old.
Proof.
  intros [R1 R2 R3 R4 R5 R6 R7] Ha [x Hn] Ho. split; rewrite ?Hn; try done; [lia|].
  destruct old as [o|]; [|done]. by rewrite Ho.
Qed.
Lemma entry_frame s s' e : entry_ok s e -> (allocated s <= allocated s')%nat ->
  (exists x, fiber_of s' (eid e) = set_sibling x (fiber_of s (eid e))) ->
  (forall o, eold e = Some o -> alternate (fiber_of s' o) = alternate (fiber_of s o)) -> entry_ok s' e.
Proof.
  intros (R & H1 & H2 & H3) Ha [x Hn] Ho. split; [by apply (ready_frame s); [|lia|exists x|]|]. by rewrite Hn.
Qed.
Lemma same_sibling s s' n : fiber_of s' n = fiber_of s n -> exists x, fiber_of s' n = set_sibling x (fiber_of s n).
Proof. intros ->. exists (sibling (fiber_of s n)). by destruct (fiber_of s n). Qed.
Lemma inv_move s s1 es D idx v x : inv s es D idx v None ->
  outside s1 = outside s -> (allocated s <= allocated s1)%nat ->
  (forall e, e ∈ es -> fiber_of s1 (eid e) = fiber_of s (eid e)) -> fiber_of s1 P = fiber_of s P ->
  (forall o, o ∈ olds -> fiber_of s1 o = fiber_of s o \/ x = Some o /\ exists a, fiber_of s1 o = set_alternate a (fiber_of s o)) ->
  (forall o, x = Some o -> o ∉ reused es) ->
  (forall y, (y < allocated s0)%nat -> y ∉ P :: olds -> (forall o, x = Some o -> alternate (fiber_of s0 o) <> Some y) ->
     fiber_of s1 y = fiber_of s y) ->
  inv s1 es D idx v x.
Proof.
  intros I Ho Ha He Hp Hold Hx Hf.
  assert (Hl : forall o, o ∈ olds -> lasting (fiber_of s1 o) = lasting (fiber_of s o) /\
    nextEffect (fiber_of s1 o) = nextEffect (fiber_of s o) /\ effectTag (fiber_of s1 o) = effectTag (fiber_of s o)).
  { intros o Hin. by destruct (Hold o Hin) as [->|(_ & a & ->)]. }
  assert (Hal : forall o, o ∈ olds -> Some o <> x -> alternate (fiber_of s1 o) = alternate (fiber_of s o)).
  { intros o Hin Hne. by destruct (Hold o Hin) as [->|(-> & _)]. }
  destruct I as [I1 I2 I3 I4 I5 I6 I7 I8 I9 (I10 & I11 & I12) I13 I14 I15 I16]. split; try done; try congruence; try lia.
  - intros o Hin. rewrite (proj1 (Hl o Hin)). by apply I3.
  - intros o Hin Hr Hne. rewrite Hal by done. by apply I4.
  - intros e Hin. apply (entry_frame s); [by apply I5|lia|by apply same_sibling, He|]. intros o Heo. apply Hal.
    + assert (R := r_old _ _ _ _ (proj1 (I5 e Hin))). rewrite Heo in R. apply R.
    + intros E. apply (Hx o); [done|]. by apply (reused_elem es e).
  - eapply linked_frame; [|exact I6]. intros n Hn. apply ids_inv in Hn as (e & Hin & <-). by rewrite He.
  - split; [done|]. split.
    + eapply linked_frame; [|exact I11]. intros o Hin. by apply Hl, I12.
    + intros o Hin. destruct (I12 o Hin) as (H1 & H2 & H3). by rewrite (proj2 (proj2 (Hl o H1))).
  - intros y H1 H2 H3 H4. rewrite Hf by done. by apply I16.
Qed.
(** The work in progress of an old fiber, or a new fiber, is none of the others. *)
Lemma work_apart s es D idx v o n : inv s es D idx v None -> o ∈ olds -> o ∉ reused es ->
  alternate (fiber_of s o) = Some n \/ alternate (fiber_of s o) = None /\ n = allocated s ->
  n ∉ P :: olds /\ n ∉ ids es /\
  (alternate (fiber_of s0 o) = Some n \/ alternate (fiber_of s0 o) = None /\ (allocated s0 <= n)%nat).
Proof.
  intros I Ho Hr Ha. assert (Hal := i_allocated _ _ _ _ _ _ I).
  rewrite (i_alternate _ _ _ _ _ _ I o Ho Hr) in Ha by done. destruct Ha as [Ha|[Ha ->]].
  - destruct (Hpair o Ho) as [_ Hp]. rewrite Ha in Hp. destruct Hp as (H1 & H2 & H3 & _). split; [done|]. split; [|by left].
    intros Hn. apply ids_inv in Hn as (e & He & <-). destruct (i_entries _ _ _ _ _ _ I e He) as [R _].
    assert (R7 := r_old _ _ _ _ R). destruct (eold e) as [o'|] eqn:Eo; [|lia].
    destruct R7 as (Ho' & _ & _ & _ & _ & [R7|R7]); [|lia]. destruct (Hpair o' Ho') as [_ Hp']. rewrite R7 in Hp'.
    destruct Hp' as (_ & _ & H3' & _). assert (o' = o) as -> by congruence. by apply Hr, (reused_elem es e).
  - split; [|split; [|by right]].
    + intros [E|Hn]%elem_of_cons; [lia|]. destruct (Hpair _ Hn). lia.
    + intros Hn. apply ids_inv in Hn as (e & He & Hn). assert (R := r_allocated _ _ _ _ (proj1 (i_entries _ _ _ _ _ _ I e He))). lia.
Qed.
Lemma new_apart s es D idx v : inv s es D idx v None -> allocated s ∉ P :: olds /\ allocated s ∉ ids es.
Proof.
  intros I. assert (Hal := i_allocated _ _ _ _ _ _ I). split.
  - intros [H|Hn]%elem_of_cons; [lia|]. destruct (Hpair _ Hn). lia.
  - intros Hn. apply ids_inv in Hn as (e & He & Hn). assert (R := r_allocated _ _ _ _ (proj1 (i_entries _ _ _ _ _ _ I e He))). lia.
Qed.
(** A child is given its fiber. *)
Lemma inv_made s es D idx v c cur n s1 : inv s es D idx v None -> made tagOf P s c cur n s1 ->
  (forall o, cur = Some o -> o ∈ olds /\ o ∉ reused es /\ o ∉ D) ->
  let old := alternate (fiber_of s1 n) in
  inv s1 es D idx v old /\ ready s1 n c old /\ n ∉ ids es /\ (forall o, old = Some o -> cur = Some o) /\
  sibling (fiber_of s1 n) = None /\ effectTag (fiber_of s1 n) = NoEffect.
Proof.
  intros I (M1 & M2 & M3 & M4 & (M5 & M6 & M7 & M8 & M9 & M10) & M) Hc old. subst old.
  assert (Hal := i_allocated _ _ _ _ _ _ I).
  assert (Hid : forall e, e ∈ es -> eid e ∉ P :: olds) by (intros e He; apply (r_apart _ _ _ _ (proj1 (i_entries _ _ _ _ _ _ I e He)))).
  destruct (alternate (fiber_of s1 n)) as [o|] eqn:Ea.
  - destruct M as (-> & Hno & _ & Halt & So & Sf & K1 & K2 & K3). destruct (Hc o eq_refl) as (Ho & Hr & HD).
    destruct (work_apart s es D idx v o n I Ho Hr Halt) as (Hn & Hni & Ha0). assert (L := lasting_inv _ _ (i_old _ _ _ _ _ _ I o Ho)).
    destruct L as (L1 & _ & _ & L4 & L5 & _). split_and!; try done.
    + apply (inv_move s); try done.
      * intros e He. apply Sf; [intros <-; by apply Hni, ids_elem|intros E; apply (Hid e He); rewrite E; by right].
      * apply Sf; [intros ->; apply Hn; left|by intros ->].
      * intros o' Ho'. destruct (decide (o' = o)) as [->|Hne]; [right; split; [done|by eexists]|left].
        apply Sf; [intros ->; by apply Hn; right|done].
      * by intros ? [= <-].
      * intros y H1 H2 H3. apply Sf; [|by intros ->; apply H2; right]. intros ->.
        destruct Ha0 as [Ha0|[_ Ha0]]; [by apply (H3 o)|lia].
    + split; try done. split_and!; try done; try (rewrite So; done).
      * by rewrite K1.
      * by rewrite K2.
      * by rewrite K3.
  - destruct M as (-> & Sf & _ & Hs). destruct (new_apart s es D idx v I) as [Hn Hni]. split_and!; try done.
    + apply (inv_move s); try done.
      * intros e He. apply Sf. intros E. apply Hni. rewrite <- E. by apply ids_elem.
      * apply Sf. intros E. apply Hn. rewrite <- E. left.
      * intros o' Ho'. left. apply Sf. intros E. apply Hn. rewrite <- E. by right.
      * intros y H1 H2 H3. apply Sf. lia.
Qed.

(** An old fiber is marked for deletion, at the end of the effects. *)
Lemma deleteChild_spec s F D o : track = true -> fiber_of s P = set_firstEffect (head D) (set_lastEffect (last D) F) ->
  o ∉ P :: D -> P ∉ D ->
  wp (deleteChild track P o) (fun _ s' => outside s' = outside s /\ allocated s' = allocated s /\
    fiber_of s' P = set_firstEffect (head (D ++ [o])) (set_lastEffect (last (D ++ [o])) F) /\
    fiber_of s' o = set_effectTag Deletion (set_nextEffect None (fiber_of s o)) /\
    (forall l, last D = Some l -> fiber_of s' l = set_nextEffect (Some o) (fiber_of s l)) /\
    (forall y, y <> P -> y <> o -> last D <> Some y -> fiber_of s' y = fiber_of s y)) s.
Proof.
  intros Ht Hp [Hop HD]%not_elem_of_cons HPD. unfold deleteChild. rewrite Ht. cbn [negb]. do 2 wp_step.
  rewrite Hp. cbn [lastEffect set_firstEffect set_lastEffect]. rewrite last_snoc.
  assert (HlD : forall l, last D = Some l -> l <> o /\ l <> P).
  { intros l El. assert (Hl : l ∈ D) by (by apply last_Some_elem_of). by split; intros ->. }
  apply wp_bind. apply (wp_mono _ (fun _ s1 => outside s1 = outside s /\ allocated s1 = allocated s /\
    fiber_of s1 P = set_firstEffect (head (D ++ [o])) (set_lastEffect (Some o) F) /\
    forall y, y <> P -> fiber_of s1 y = if decide (last D = Some y) then set_nextEffect (Some o) (fiber_of s y) else fiber_of s y)).
  { destruct (last D) as [l|] eqn:El.
    - destruct (HlD l eq_refl) as [Hlo Hlp]. repeat wp_step. split; [done|]. split; [done|]. split.
      + fibers. rewrite Hp. destruct D; [done|]. by destruct F.
      + intros y Hy. fibers. rewrite fiber_of_upd. repeat case_decide; congruence.
    - apply last_None in El as ->. repeat wp_step. split; [done|]. split; [done|]. split.
      + fibers. rewrite Hp. by destruct F.
      + intros y Hy. by fibers. }
  intros [] s1 (O1 & A1 & P1 & F1). repeat wp_step. split; [done|]. split; [done|]. split; [by fibers|]. split; [|split].
  - fibers. rewrite F1 by done. case_decide as E; [by apply HlD in E as (? & _)|done].
  - intros l El. destruct (HlD l El) as (Hlo & Hlp). fibers. rewrite F1 by done. by rewrite decide_True.
  - intros y H1 H2 H3. fibers. rewrite F1 by done. by rewrite decide_False.
Qed.
Lemma inv_delete s es D idx v x o : track = true -> inv s es D idx v x -> o ∈ olds -> o ∉ reused es -> o ∉ D ->
  wp (deleteChild track P o) (fun _ s' => inv s' es (D ++ [o]) idx v x /\
    (forall y, y ∉ P :: olds -> fiber_of s' y = fiber_of s y) /\ allocated s' = allocated s /\
    (forall o', o' ∈ olds -> alternate (fiber_of s' o') = alternate (fiber_of s o'))) s.
Proof.
  intros Ht I Ho Hr HD. destruct (i_deleted _ _ _ _ _ _ I) as (D1 & D2 & D3). assert (Hop : o <> P) by (by intros ->).
  eapply wp_mono; [apply (deleteChild_spec s (fiber_of s0 P) D o); try done|].
  { apply I. } { by apply not_elem_of_cons. } { intros H. by apply HP, D3. }
  intros [] s2 (O2 & A2 & FP & Fo & Fl & Fy).
  assert (HlD : forall l, last D = Some l -> l ∈ D) by (intros l; apply last_Some_elem_of).
  assert (F : forall y, y <> P -> lasting (fiber_of s2 y) = lasting (fiber_of s y) /\ alternate (fiber_of s2 y) = alternate (fiber_of s y)).
  { intros y Hy. destruct (decide (y = o)) as [->|H1]; [by rewrite Fo|].
    destruct (decide (last D = Some y)) as [E|E]; [by rewrite (Fl y E)|by rewrite Fy]. }
  assert (Fn : forall y, y ∉ P :: olds -> fiber_of s2 y = fiber_of s y).
  { intros y [H1 H2]%not_elem_of_cons. apply Fy; [done|by intros ->|]. intros E. by apply H2, D3, HlD. }
  assert (Hne : forall e, e ∈ es -> eid e ∉ P :: olds) by (intros e He; apply (r_apart _ _ _ _ (proj1 (i_entries _ _ _ _ _ _ I e He)))).
  split; [|split_and!; [done|done|intros o' Ho'; apply F; by intros ->]].
  destruct I as [I1 I2 I3 I4 I5 I6 I7 I8 I9 I10 I13 I14 I15 I16]. split; try done; try congruence; try lia.
  - intros o' Ho'. rewrite (proj1 (F o' ltac:(by intros ->))). by apply I3.
  - intros o' Ho' H1 H2. rewrite (proj2 (F o' ltac:(by intros ->))). by apply I4.
  - intros e He. apply (entry_frame s); [by apply I5|lia|by apply same_sibling, Fn, Hne|]. intros o' Heo. apply F. intros ->.
    assert (R := r_old _ _ _ _ (proj1 (I5 e He))). rewrite Heo in R. by apply HP, R.
  - eapply linked_frame; [|exact I6]. intros n Hn. apply ids_inv in Hn as (e & He & <-). by rewrite Fn by by apply Hne.
  - split; [|split].
    + apply NoDup_app. split; [done|]. split; [|apply NoDup_singleton]. by intros y Hy ->%list_elem_of_singleton.
    + apply (linked_snoc _ s); try done.
      * intros l El. by rewrite (Fl l El).
      * by rewrite Fo.
      * intros y Hy Hl. rewrite Fy; [done| | |by intros E].
        -- intros ->. by apply HP, D3.
        -- by intros ->.
    + intros y [Hy| ->%list_elem_of_singleton]%elem_of_app; [|by rewrite Fo]. destruct (D3 y Hy) as (H1 & H2 & H3).
      split; [done|]. split; [done|]. destruct (decide (last D = Some y)) as [E|E]; [by rewrite (Fl y E)|].
      rewrite Fy; [done|by intros ->|by intros ->|done].
  - intros y H1 H2 H3 H4. rewrite Fn; [by apply I16|done].
Qed.

Lemma stable_snoc es e : stable (es ++ [e]) = stable es ++ (match eold e with Some o => if eplaced e then [] else [o] | None => [] end).
Proof. unfold stable. rewrite omap_app. cbn. by destruct (eplaced e), (eold e). Qed.
Lemma reused_snoc (es : list entry) e : reused (es ++ [e]) = reused es ++ (match eold e with Some o => [o] | None => [] end).
Proof. rewrite omap_app. cbn. by destruct (eold e). Qed.
Lemma sorted_snoc {A} (R : A -> A -> Prop) l x : StronglySorted R l -> (forall y, y ∈ l -> R y x) -> StronglySorted R (l ++ [x]).
Proof.
  induction l as [|y l IH]; intros Hs Hx; [by repeat constructor|]. apply StronglySorted_inv in Hs as [H1 H2]. cbn. constructor.
  - apply IH; [done|]. intros z Hz. apply Hx. by right.
  - apply Forall_app. split; [done|]. apply Forall_singleton, Hx. left.
Qed.
(** Whether a new fiber is placed, and the last index after it. *)
Definition placing (old : option nat) (last : Z) : bool * Z :=
  match old with
  | Some o => if pos o <? last then (true, last) else (false, pos o)
  | None => (track, last)
  end.
Lemma placeChild_spec s n c old last i : ready s n c old -> effectTag (fiber_of s n) = NoEffect ->
  (forall o, old = Some o -> index (fiber_of s o) = pos o) ->
  wp (placeChild track n last i) (fun last' s' => last' = snd (placing old last) /\ allocated s' = allocated s /\ outside s' = outside s /\
    fiber_of s' n = set_effectTag (if fst (placing old last) then Placement else NoEffect) (set_index i (fiber_of s n)) /\
    forall y, y <> n -> fiber_of s' y = fiber_of s y) s.
Proof.
  intros R He Hi. unfold placeChild. do 2 wp_step.
  assert (E0 : fiber_of (upd n (set_index i) s) n = set_effectTag NoEffect (set_index i (fiber_of s n))).
  { fibers. destruct (fiber_of s n). cbn in *. by subst. }
  destruct track eqn:Et; cbn [negb].
  - do 2 wp_step. fibers. cbn [alternate set_index]. rewrite (r_alternate _ _ _ _ R). destruct old as [o|]; cbn [placing].
    + do 2 wp_step. assert (Ho := r_old _ _ _ _ R). assert (Hn := r_apart _ _ _ _ R).
      rewrite fiber_of_ne by (intros ->; apply Hn; right; apply Ho). rewrite (Hi o eq_refl).
      destruct (_ <? _); repeat wp_step; (split_and!; [done|done|done| |intros y Hy; by fibers]); [by fibers|done].
    + rewrite Et. repeat wp_step. (split_and!; [done|done|done| |intros y Hy; by fibers]). by fibers.
  - wp_step. destruct old as [o|]; cbn [placing].
    + assert (Ho := r_old _ _ _ _ R). destruct Htrack as [?|H0]; [congruence|]. destruct Ho as [Ho _]. rewrite H0 in Ho.
      by apply not_elem_of_nil in Ho.
    + rewrite Et. (split_and!; [done|done|done|done|intros y Hy; by fibers]).
Qed.

Lemma place_spec s es D idx v n c old i : inv s es D idx v old -> ready s n c old -> n ∉ ids es ->
  sibling (fiber_of s n) = None -> effectTag (fiber_of s n) = NoEffect ->
  wp (place track n i v) (fun v' s' => lastPlacedIndex v' = snd (placing old (lastPlacedIndex v)) /\
    resultingFirstChild v' = head (ids es ++ [n]) /\ previousNewFiber v' = Some n /\
    allocated s' = allocated s /\ outside s' = outside s /\
    fiber_of s' n = set_effectTag (if fst (placing old (lastPlacedIndex v)) then Placement else NoEffect) (set_index i (fiber_of s n)) /\
    (forall l, last (ids es) = Some l -> fiber_of s' l = set_sibling (Some n) (fiber_of s l)) /\
    forall y, y <> n -> last (ids es) <> Some y -> fiber_of s' y = fiber_of s y) s.
Proof.
  intros I R Hn Hs He. unfold place. wp_step. eapply wp_mono; [eapply placeChild_spec; try done|].
  { intros o ->. apply (lasting_inv (fiber_of s o)), (i_old _ _ _ _ _ _ I), (r_old _ _ _ _ R). }
  intros lst s1 (-> & A1 & O1 & F1 & G1). destruct (i_first _ _ _ _ _ _ I) as [Hf Hp]. rewrite Hf, Hp.
  destruct (last (ids es)) as [l|] eqn:El.
  - assert (Hl : l ∈ ids es) by (by apply last_Some_elem_of). assert (Hln : l <> n) by (by intros ->).
    repeat wp_step. split_and!; try done.
    + destruct (ids es); [done|]. done.
    + by fibers.
    + intros ? [= <-]. fibers. by rewrite G1.
    + intros y H1 H2. assert (y <> l) by (by intros ->). fibers. by apply G1.
  - apply last_None in El. rewrite El. repeat wp_step. split_and!; try done. intros y H1 _. by apply G1.
Qed.
Lemma ready_placed s s' n c old b i : ready s n c old -> allocated s' = allocated s ->
  fiber_of s' n = set_effectTag b (set_index i (fiber_of s n)) ->
  (forall o, old = Some o -> alternate (fiber_of s' o) = alternate (fiber_of s o)) -> ready s' n c old.
Proof.
  intros [R1 R2 R3 R4 R5 R6 R7] Ha Hn Ho. split; rewrite ?Hn; try done; [lia|].
  destruct old as [o|]; [|done]. by rewrite Ho.
Qed.
Lemma entries_placed s s' es D idx v n c old i (b : bool) : inv s es D idx v old -> ready s n c old -> n ∉ ids es ->
  allocated s' = allocated s -> fiber_of s' n = set_effectTag (if b then Placement else NoEffect) (set_index i (fiber_of s n)) ->
  (forall y, y ∈ P :: olds -> fiber_of s' y = fiber_of s y) -> (old = None -> b = track) ->
  (forall y, y ∈ ids es -> exists x, fiber_of s' y = set_sibling x (fiber_of s y)) ->
  forall e, e ∈ es ++ [{| eid := n; eold := old; eplaced := b; echild := c; eidx := i |}] -> entry_ok s' e.
Proof.
  intros I R Hn A1 Fn Fo Hb Fe. assert (Ha : forall c n o, ready s n c (Some o) -> alternate (fiber_of s' o) = alternate (fiber_of s o)).
  { intros c' n' o R'. rewrite Fo; [done|]. right. apply (r_old _ _ _ _ R'). }
  intros e [He| ->%list_elem_of_singleton]%elem_of_app.
  - assert (Ok := i_entries _ _ _ _ _ _ I e He). apply (entry_frame s); [done|lia|by apply Fe, ids_elem|].
    intros o Heo. destruct Ok as [Ok _]. rewrite Heo in Ok. by eapply Ha.
  - split; [|cbn; by rewrite Fn]. apply (ready_placed s _ _ _ _ _ _ R A1 Fn). intros o ->. by eapply Ha.
Qed.
Lemma needed_snoc es e : needed es -> (forall o, eold e = Some o -> eplaced e = true -> exists o', o' ∈ stable es /\ pos o < pos o') ->
  needed (es ++ [e]).
Proof.
  intros Hn He es1 e' es2 o E Ho Hp. destruct es2 as [|x es3 _] using rev_ind.
  - apply app_inj_tail in E as [<- <-]. by apply He.
  - rewrite app_comm_cons, app_assoc in E. apply app_inj_tail in E as [-> <-]. by eapply Hn.
Qed.
Lemma stable_placed s es D idx v n c old i : inv s es D idx v old -> (forall o, old = Some o -> o ∈ olds) ->
  let e := {| eid := n; eold := old; eplaced := fst (placing old (lastPlacedIndex v)); echild := c; eidx := i |} in
  let last := snd (placing old (lastPlacedIndex v)) in
  StronglySorted (fun a b => pos a <= pos b) (stable (es ++ [e])) /\ (forall o, o ∈ stable (es ++ [e]) -> pos o <= last) /\
  (last = 0 \/ exists o, o ∈ stable (es ++ [e]) /\ pos o = last) /\ needed (es ++ [e]).
Proof.
  intros I Hin e. destruct (i_placed _ _ _ _ _ _ I) as (J1 & J2 & J3 & J4).
  assert (N : needed (es ++ [e])).
  { apply needed_snoc; [done|]. cbn. intros o -> Hp. cbn in Hp. destruct (Z.ltb_spec (pos o) (lastPlacedIndex v)) as [Hlt|]; [|done].
    assert (H0 := Hpos0 o (Hin o eq_refl)). destruct J3 as [E|(o' & Ho' & E)]; [lia|exists o'; split; [done|lia]]. }
  rewrite stable_snoc. cbn [eold eplaced e]. unfold placing. destruct old as [o|]; cbn [fst snd]; [|rewrite app_nil_r; by split_and!].
  destruct (Z.ltb_spec (pos o) (lastPlacedIndex v)) as [Hlt|Hge]; cbn [fst snd].
  - rewrite app_nil_r. by split_and!.
  - split; [apply sorted_snoc; [done|]; intros y Hy; apply J2 in Hy; lia|]. split.
    + intros y [Hy| ->%list_elem_of_singleton]%elem_of_app; [apply J2 in Hy|]; lia.
    + split; [|done]. right. exists o. split; [apply elem_of_app; right; left|done].
Qed.
Lemma inv_place s es D idx v n c old i : inv s es D idx v old -> ready s n c old -> n ∉ ids es ->
  sibling (fiber_of s n) = None -> effectTag (fiber_of s n) = NoEffect ->
  (forall o, old = Some o -> o ∉ reused es /\ o ∉ D) -> 0 <= idx <= i ->
  wp (place track n i v) (fun v' s' =>
    let e := {| eid := n; eold := old; eplaced := fst (placing old (lastPlacedIndex v)); echild := c; eidx := i |} in
    inv s' (es ++ [e]) D (i + 1) v' None) s.
Proof.
  intros I R Hn Hs He Hold Hi. eapply wp_mono; [by eapply place_spec|].
  intros v' s' (V1 & V2 & V3 & A1 & O1 & Fn & Fl & Fy) e.
  assert (Hid : forall y, y ∈ ids es -> y ∉ P :: olds).
  { intros y Hy. apply ids_inv in Hy as (e' & Hin & <-). apply (r_apart _ _ _ _ (proj1 (i_entries _ _ _ _ _ _ I e' Hin))). }
  assert (Hids : ids (es ++ [e]) = ids es ++ [n]) by (by rewrite map_app).
  assert (Fo : forall y, y ∈ P :: olds -> fiber_of s' y = fiber_of s y).
  { intros y Hy. apply Fy; [by intros ->; apply (r_apart _ _ _ _ R)|]. intros El. apply last_Some_elem_of in El. by apply (Hid y). }
  assert (Hr : reused (es ++ [e]) = reused es ++ match old with Some o => [o] | None => [] end) by apply reused_snoc.
  assert (Ff : forall y, y ∈ ids es -> y <> n) by (by intros y Hy ->). assert (St := stable_placed s es D idx v n c old i I).
  assert (Hino : forall o, old = Some o -> o ∈ olds) by (intros o ->; apply (r_old _ _ _ _ R)).
  assert (I0 := I). destruct I as [I1 I2 I3 I4 I5 I6 I7 I8 I9 I10 I13 I14 I15 I16]. split; try done; try congruence; try lia.
  - intros o Ho. rewrite Fo by (by right). by apply I3.
  - intros o Ho Hnr _. rewrite Fo by (by right). rewrite Hr in Hnr. apply not_elem_of_app in Hnr as [H1 H2]. apply I4; [done..|].
    intros <-. apply H2. by apply list_elem_of_singleton.
  - eapply entries_placed; try done; [by intros ->|]. intros y Hy. destruct (decide (last (ids es) = Some y)) as [E|E]; [rewrite (Fl _ E); by eexists|].
    apply same_sibling, Fy; [by apply Ff|done].
  - rewrite Hids. apply (linked_snoc _ s); try done.
    + intros l El. by rewrite (Fl l El).
    + by rewrite Fn.
    + intros y Hy Hl. rewrite Fy; [done|by apply Ff|]. by intros E.
  - rewrite Hids. by rewrite last_snoc.
  - rewrite Hids. apply NoDup_app. split; [done|]. split; [|apply NoDup_singleton]. by intros y Hy ->%list_elem_of_singleton.
  - rewrite Hr. apply NoDup_app. split; [done|]. split; [|destruct old; [apply NoDup_singleton|constructor]].
    intros o Ho Hin. destruct old as [o'|]; [|by apply not_elem_of_nil in Hin]. apply list_elem_of_singleton in Hin as ->.
    by destruct (Hold o' eq_refl).
  - destruct I10 as (D1 & D2 & D3). split; [done|]. split.
    + eapply linked_frame; [|exact D2]. intros o Ho. rewrite Fo; [done|]. right. by apply D3.
    + intros o Ho. destruct (D3 o Ho) as (H1 & H2 & H3). split; [done|]. rewrite Fo by (by right). split; [|done].
      rewrite Hr. apply not_elem_of_app. split; [done|]. destruct old as [o'|]; [|apply not_elem_of_nil].
      intros ->%list_elem_of_singleton. by destruct (Hold o' eq_refl).
  - rewrite Fo; [done|left].
  - destruct I14 as [J1 J2]. split; [apply sorted_snoc; [done|]; intros e' He'; by apply J2 in He'; cbn; lia|].
    intros e' [He'| ->%list_elem_of_singleton]%elem_of_app; [apply J2 in He'|cbn]; lia.
  - rewrite V1. by apply St.
  - intros y H1 H2 H3 _. rewrite Hids in H3. apply not_elem_of_app in H3 as [H3 H4]. rewrite not_elem_of_cons in H4.
    destruct H4 as [H4 _]. rewrite Fy; [|done|intros El; by apply H3, last_Some_elem_of]. apply I16; [done..|].
    intros o -> Ha. destruct (r_old _ _ _ _ R) as (_ & _ & _ & _ & _ & [H|[H _]]); congruence.
Qed.

(** ** The loops *)
Lemma inv_usable s es D idx v o c : inv s es D idx v None -> o ∈ olds -> o ∉ reused es -> key (fiber_of s o) = key_of c ->
  usable tagOf s (P :: olds) c o.
Proof.
  intros I Ho Hr Hk. destruct (lasting_inv _ _ (i_old _ _ _ _ _ _ I o Ho)) as (K & _ & _ & _ & _ & _ & _ & Hpp).
  assert (Hal := i_allocated _ _ _ _ _ _ I). destruct (Hpair o Ho) as [Hlt Hp].
  split; [by right|]. split; [|split; [done|]].
  - split; [lia|]. assert (A := i_alternate _ _ _ _ _ _ I o Ho Hr ltac:(done)). rewrite A.
    destruct (alternate (fiber_of s0 o)) as [a|] eqn:Ea; [|done]. destruct Hp as (H1 & H2 & H3 & H4).
    destruct (work_apart s es D idx v o a I Ho Hr) as (_ & Ha & _); [left; by rewrite A|].
    assert (Fa : fiber_of s a = fiber_of s0 a) by by apply (i_frame _ _ _ _ _ _ I). rewrite Fa, K. split_and!; try done. lia.
  - destruct (Hfit o Ho) as [c0 H0]. exists c0. by apply (fits_kind _ _ (fiber_of s0 o)).
Qed.
Lemma compatible_kind c f f' : kind f' = kind f -> compatible c f' = compatible c f.
Proof. intros [= H1 H2 H3 H4]. destruct c; cbn; unfold same_portal; by rewrite ?H1, ?H2, ?H3, ?H4. Qed.
Lemma linked_app next s l1 a l2 : linked next s (l1 ++ a :: l2) -> next (fiber_of s a) = head l2 /\ linked next s l2.
Proof. induction l1 as [|b l1 IH]; [done|]. intros [_ H]. by apply IH. Qed.
Context (Hchain : linked sibling s0 olds) (Hnodup : NoDup olds).
Context (Hkeys : forall o o' k, o ∈ olds -> o' ∈ olds -> key (fiber_of s0 o) = Some k -> key (fiber_of s0 o') = Some k -> o = o').
Context (Hpos : StronglySorted (fun a b => pos a < pos b) olds).
(** Old fibers and children have the same slot when they have the same key, or no key and
    the same index. *)
Definition slot_of (o : nat) : slot_key := slot_key_of (key (fiber_of s0 o)) (pos o).
Definition seat (e : entry) : Z * child := (eidx e, echild e).
Definition slot_for (p : Z * child) : slot_key := slot_key_of (key_of (snd p)) (fst p).
Lemma sorted_apart l a b : StronglySorted (fun a b => pos a < pos b) l -> a ∈ l -> b ∈ l -> pos a = pos b -> a = b.
Proof.
  induction l as [|x l IH]; intros Hs Ha Hb He; [by apply not_elem_of_nil in Ha|]. apply StronglySorted_inv in Hs as [Hs Hx].
  rewrite Forall_forall in Hx. apply elem_of_cons in Ha as [->|Ha], Hb as [->|Hb]; try done; [apply Hx in Hb; lia|apply Hx in Ha; lia|by apply IH].
Qed.
Lemma slot_of_inj a b : a ∈ olds -> b ∈ olds -> slot_of a = slot_of b -> a = b.
Proof.
  intros Ha Hb. unfold slot_of, slot_key_of. destruct (key (fiber_of s0 a)) as [k|] eqn:Ea, (key (fiber_of s0 b)) as [k'|] eqn:Eb;
    intros [= E]; [subst; by apply (Hkeys a b k')|by apply (sorted_apart olds)].
Qed.
(** The old fibers that are done with: used again or deleted. *)
Definition consumed (done : list nat) (es : list entry) (D : list nat) : Prop := forall o, o ∈ done <-> o ∈ reused es \/ o ∈ D.
(** A child goes on with the old fiber of its slot, if it can; and so far a deleted one had
    no key, or another type than the child with its key. *)
Definition claimed (es : list entry) : Prop := forall e o,
  e ∈ es -> o ∈ olds -> slot_of o = slot_for (seat e) -> compatible (echild e) (fiber_of s0 o) = true -> eold e = Some o.
Definition keyed (es : list entry) (D : list nat) : Prop :=
  claimed es /\ forall o, o ∈ D -> exists e, e ∈ es /\ key_of (echild e) = key (fiber_of s0 o).
(** The children with their positions. *)
Fixpoint numbered (i : Z) (l : list child) : list (Z * child) :=
  match l with [] => [] | c :: l' => (if empty c then [] else [(i, c)]) ++ numbered (i + 1) l' end.
Lemma numbered_keep i c l : empty c = false -> numbered i (c :: l) = (i, c) :: numbered (i + 1) l.
Proof. cbn. by intros ->. Qed.
Lemma numbered_skip i c l : empty c = true -> numbered i (c :: l) = numbered (i + 1) l.
Proof. cbn. by intros ->. Qed.
Lemma numbered_app i l1 l2 : numbered i (l1 ++ l2) = numbered i l1 ++ numbered (i + Z.of_nat (length l1)) l2.
Proof.
  revert i. induction l1 as [|c l1 IH]; intros i; cbn [app numbered length]; [by rewrite Z.add_0_r|]. rewrite IH, app_assoc. do 2 f_equal. lia.
Qed.
Abbreviation seats := (map seat).
Abbreviation keys l := (omap key_of l).
Lemma keys_numbered i l : keys (map snd (numbered i l)) = keys l.
Proof. revert i. induction l as [|c l IH]; intros i; [done|]. cbn [numbered]. rewrite map_app, omap_app, IH. destruct c; cbn; try done; by case_match. Qed.
Lemma children_seats es : map snd (seats es) = map echild es.
Proof. by rewrite map_map. Qed.
Lemma old_sibling s es D idx v x done o rest : inv s es D idx v x -> olds = done ++ o :: rest ->
  sibling (fiber_of s o) = head rest /\ index (fiber_of s o) = pos o /\ key (fiber_of s o) = key (fiber_of s0 o).
Proof.
  intros I Ho. assert (Hin : o ∈ olds) by (rewrite Ho; set_solver).
  destruct (lasting_inv _ _ (i_old _ _ _ _ _ _ I o Hin)) as ([= _ K _ _] & -> & -> & _).
  rewrite Ho in Hchain. by destruct (linked_app _ _ _ _ _ Hchain) as [-> _].
Qed.

Record going (s : st) (es : list entry) (D : list nat) (idx : Z) (v : progress) (done : list nat) : Prop := {
  g_inv : inv s es D idx v None;
  g_consumed : consumed done es D;
  g_keyed : keyed es D;
  g_idx : 0 <= idx;
  g_before o : o ∈ done -> key (fiber_of s0 o) = None -> pos o < idx
}.
Lemma going_rest s es D idx v done rest o : going s es D idx v done -> olds = done ++ rest -> o ∈ rest ->
  o ∈ olds /\ o ∉ reused es /\ o ∉ D.
Proof.
  intros G Ho Hin. assert (Hc := g_consumed _ _ _ _ _ _ G). assert (Hnd := Hnodup). rewrite Ho in Hnd |- *.
  apply NoDup_app in Hnd as (_ & Hnd & _). split; [by apply elem_of_app; right|].
  by split; intros H; apply (Hnd o); [apply Hc; auto|..|apply Hc; auto|].
Qed.
Lemma keyed_snoc es D e : keyed es D ->
  (forall o, o ∈ olds -> slot_of o = slot_for (seat e) -> compatible (echild e) (fiber_of s0 o) = true -> eold e = Some o) ->
  keyed (es ++ [e]) D.
Proof.
  intros [K1 K2] He. split.
  - intros e' o [H| ->%list_elem_of_singleton]%elem_of_app; [by apply K1|by apply He].
  - intros o Ho. destruct (K2 o Ho) as (e' & H & Hk). exists e'. split; [by apply elem_of_app; left|done].
Qed.
(** The new fiber goes on with what has its slot. *)
Lemma made_keyed s es D idx v done c cur n s1 e : going s es D idx v done -> made tagOf P s c cur n s1 ->
  (forall o, cur = Some o -> o ∈ olds) -> (forall o, alternate (fiber_of s1 n) = Some o -> cur = Some o) ->
  (forall o, o ∈ olds -> slot_of o = slot_for (idx, c) -> compatible c (fiber_of s0 o) = true -> cur = Some o) ->
  seat e = (idx, c) -> eold e = alternate (fiber_of s1 n) -> keyed (es ++ [e]) D.
Proof.
  intros G (_ & _ & _ & _ & _ & M) Hin Hsub Hcl Es Eo. apply keyed_snoc; [apply G|]. intros o Ho Hs Hc.
  rewrite Es in Hs. injection Es as _ Ec. rewrite Ec in Hc. assert (E := Hcl o Ho Hs Hc). rewrite Eo.
  destruct (alternate (fiber_of s1 n)) as [o'|]; [by rewrite <- (Hsub o' eq_refl)|]. destruct M as (_ & _ & M & _).
  specialize (M o E). rewrite (compatible_kind c (fiber_of s0 o)) in M; [congruence|].
  by apply lasting_inv, (i_old _ _ _ _ _ _ (g_inv _ _ _ _ _ _ G)).
Qed.
Lemma place_going s es D idx v n c old done' (Q : progress -> st -> Prop) :
  inv s es D idx v old -> ready s n c old -> n ∉ ids es ->
  sibling (fiber_of s n) = None -> effectTag (fiber_of s n) = NoEffect ->
  (forall o, old = Some o -> o ∉ reused es /\ o ∉ D) -> 0 <= idx ->
  (forall o, o ∈ done' <-> (o ∈ reused es \/ o ∈ D) \/ old = Some o) ->
  (forall o, o ∈ done' -> key (fiber_of s0 o) = None -> pos o < idx + 1) ->
  (forall e, seat e = (idx, c) -> eold e = old -> keyed (es ++ [e]) D) ->
  (forall s' e v', going s' (es ++ [e]) D (idx + 1) v' done' -> seat e = (idx, c) -> eold e = old -> Q v' s') ->
  wp (place track n idx v) Q s.
Proof.
  intros I R Hn Hs He Hold Hi Hd Hb Hk HQ. eapply wp_mono; [by eapply inv_place|]. intros v' s' I'. cbv beta zeta in I'.
  match type of I' with inv _ (_ ++ [?e]) _ _ _ _ => apply (HQ s' e v'); [|done|done] end.
  split; [exact I'| |by apply Hk|lia|done]. intros o. rewrite reused_snoc, elem_of_app, Hd. cbn [eold].
  destruct old as [o'|]; rewrite ?list_elem_of_singleton; [|set_solver]. naive_solver.
Qed.
(** *** The slots *)
Lemma rest_after done o rest a : olds = done ++ o :: rest -> a ∈ rest -> pos o < pos a.
Proof.
  intros Ho Ha. assert (H := Hpos). rewrite Ho in H. apply StronglySorted_app_1_r, StronglySorted_inv in H as [_ H].
  rewrite Forall_forall in H. by apply H.
Qed.
(** What [oldFiber] is for a slot, and what the loop goes on with. *)
Definition at_slot (idx : Z) (cur : option nat) (rest rest' : list nat) : Prop :=
  cur = None /\ rest' = rest /\ (forall o, o ∈ rest -> idx < pos o) \/ exists o, cur = Some o /\ rest = o :: rest' /\ pos o <= idx.
Lemma at_slot_claim s es D idx v done c cur rest rest' o : going s es D idx v done -> olds = done ++ rest ->
  (forall a, a ∈ rest -> idx <= pos a) -> key_of c = key_at s cur -> at_slot idx cur rest rest' ->
  o ∈ olds -> slot_of o = slot_for (idx, c) -> cur = Some o.
Proof.
  intros G Ho Ha Hk Hcur Hin Es. unfold slot_of, slot_for, slot_key_of in Es. cbn [fst snd] in Es.
  destruct Hcur as [(-> & _ & Hr)|(o' & -> & -> & Hle)]; cbn [key_at] in Hk.
  - rewrite Hk in Es. destruct (key (fiber_of s0 o)) eqn:Ek; [done|]. injection Es as Ep. rewrite Ho in Hin.
    apply elem_of_app in Hin as [H|H]; [apply (g_before _ _ _ _ _ _ G o) in H; [lia|done]|apply Hr in H; lia].
  - destruct (old_sibling _ _ _ _ _ _ _ _ _ (g_inv _ _ _ _ _ _ G) Ho) as (_ & _ & K). rewrite Hk, K in Es. f_equal.
    assert (Hin' : o' ∈ olds) by (rewrite Ho; set_solver).
    destruct (key (fiber_of s0 o)) as [k|] eqn:Ek, (key (fiber_of s0 o')) as [k'|] eqn:Ek'; try done; injection Es as E.
    + subst k'. by apply (Hkeys o' o k).
    + apply (sorted_apart olds); try done. assert (H := Ha o' ltac:(left)). lia.
Qed.
Lemma done_before s es D idx v done o : going s es D idx v done -> (key (fiber_of s0 o) = None -> pos o <= idx) ->
  forall a, a ∈ done ++ [o] -> key (fiber_of s0 a) = None -> pos a < idx + 1.
Proof.
  intros G H a [Ha| ->%list_elem_of_singleton]%elem_of_app Hk; [apply (g_before _ _ _ _ _ _ G a) in Ha; [lia|done]|].
  apply H in Hk. lia.
Qed.
(** The old fiber of the slot does not fit: it is deleted, and the new one placed. *)
Lemma slot_deleted s es D idx v done c o rest' n s1 (Q : progress -> st -> Prop) : track = true ->
  going s es D idx v done -> olds = (done ++ [o]) ++ rest' -> key_of c = key (fiber_of s0 o) -> pos o <= idx ->
  inv s1 es D idx v None -> ready s1 n c None -> n ∉ ids es -> sibling (fiber_of s1 n) = None -> effectTag (fiber_of s1 n) = NoEffect ->
  o ∈ olds -> o ∉ reused es -> o ∉ D ->
  (forall e, seat e = (idx, c) -> eold e = None -> keyed (es ++ [e]) D) ->
  (forall s' e D' v' done', going s' (es ++ [e]) D' (idx + 1) v' done' -> olds = done' ++ rest' -> seat e = (idx, c) -> Q v' s') ->
  wp (do! deleteChild track P o; place track n idx v) Q s1.
Proof.
  intros Ht G Ho Hk Hp I1 R Hni Hs He Hoo Hor HoD Hkd HQ. wp_step. eapply wp_mono; [by apply (inv_delete _ _ _ _ _ _ o Ht I1)|].
  intros [] s2 (I2 & F2 & A2 & B2). assert (Hna := r_apart _ _ _ _ R). assert (Hi := g_idx _ _ _ _ _ _ G).
  eapply (place_going s2 es (D ++ [o]) idx v n c None (done ++ [o])); try done; try (by rewrite F2); try lia.
  - apply (ready_frame s1); [done|lia|by apply same_sibling, F2|done].
  - intros y. rewrite !elem_of_app, (g_consumed _ _ _ _ _ _ G y). set_solver.
  - eapply done_before; [exact G|auto].
  - intros e E1 E2. destruct (Hkd e E1 E2) as [K1 K2]. split; [done|]. intros y [Hy| ->%list_elem_of_singleton]%elem_of_app; [by apply K2|].
    exists e. split; [by apply elem_of_app; right; left|]. injection E1 as _ ->. done.
  - intros s' e v' G3 E1 E2. by eapply HQ.
Qed.
Lemma slot_kept s es D idx v done c o rest' n s1 (Q : progress -> st -> Prop) :
  going s es D idx v done -> olds = (done ++ [o]) ++ rest' -> pos o <= idx ->
  inv s1 es D idx v (Some o) -> ready s1 n c (Some o) -> n ∉ ids es -> sibling (fiber_of s1 n) = None -> effectTag (fiber_of s1 n) = NoEffect ->
  o ∉ reused es -> o ∉ D ->
  (forall e, seat e = (idx, c) -> eold e = Some o -> keyed (es ++ [e]) D) ->
  (forall s' e D' v' done', going s' (es ++ [e]) D' (idx + 1) v' done' -> olds = done' ++ rest' -> seat e = (idx, c) -> Q v' s') ->
  wp (place track n idx v) Q s1.
Proof.
  intros G Ho Hp I1 R Hni Hs He Hor HoD Hkd HQ. assert (Hi := g_idx _ _ _ _ _ _ G).
  eapply (place_going s1 es D idx v n c (Some o) (done ++ [o])); try done; try lia.
  - intros ? [= <-]. done.
  - intros y. rewrite elem_of_app, list_elem_of_singleton, (g_consumed _ _ _ _ _ _ G y). naive_solver.
  - eapply done_before; [exact G|auto].
  - intros s' e v' G3 E1 E2. by eapply HQ.
Qed.
Lemma slot_new s es D idx v done c n s1 (Q : progress -> st -> Prop) :
  going s es D idx v done -> inv s1 es D idx v None -> ready s1 n c None -> n ∉ ids es ->
  sibling (fiber_of s1 n) = None -> effectTag (fiber_of s1 n) = NoEffect ->
  (forall e, seat e = (idx, c) -> eold e = None -> keyed (es ++ [e]) D) ->
  (forall s' e v', going s' (es ++ [e]) D (idx + 1) v' done -> seat e = (idx, c) -> Q v' s') ->
  wp (place track n idx v) Q s1.
Proof.
  intros G I1 R Hni Hs He Hkd HQ. eapply (place_going s1 es D idx v n c None done); try done.
  - apply G.
  - intros y. rewrite (g_consumed _ _ _ _ _ _ G y). naive_solver.
  - intros o Ho Hk. apply (g_before _ _ _ _ _ _ G o) in Ho; [lia|done].
  - intros s' e v' G3 E1 E2. by eapply HQ.
Qed.
(** The old fiber of a slot is used again, or deleted. *)
Lemma after_slot s es D idx v done rest c cur n s1 rest' (Q : progress -> st -> Prop) :
  going s es D idx v done -> olds = done ++ rest -> (forall a, a ∈ rest -> idx <= pos a) ->
  made tagOf P s c cur n s1 -> key_of c = key_at s cur -> at_slot idx cur rest rest' ->
  (forall s' e D' v' done', going s' (es ++ [e]) D' (idx + 1) v' done' -> olds = done' ++ rest' -> seat e = (idx, c) -> Q v' s') ->
  wp (do! match cur with
          | Some o => when (track && bool_decide (alternate (fiber_of s1 n) = None)) (deleteChild track P o)
          | None => ret tt
          end;
      place track n idx v) Q s1.
Proof.
  intros G Ho Ha M Hk Hcur HQ. assert (I := g_inv _ _ _ _ _ _ G).
  assert (Hfree : forall o, cur = Some o -> o ∈ olds /\ o ∉ reused es /\ o ∉ D).
  { intros o ->. destruct Hcur as [(? & _)|(o' & [= <-] & -> & _)]; [done|]. eapply going_rest; [done..|left]. }
  destruct (inv_made _ _ _ _ _ _ _ _ _ I M Hfree) as (I1 & R & Hni & Hsub & Hs & He).
  assert (Hkd : forall e, seat e = (idx, c) -> eold e = alternate (fiber_of s1 n) -> keyed (es ++ [e]) D).
  { intros e. eapply made_keyed; [exact G|exact M|intros o E; by apply Hfree|done|]. intros o Hin Es _. by eapply at_slot_claim. }
  destruct Hcur as [(-> & -> & _)|(o & -> & -> & Hp)].
  - destruct (alternate (fiber_of s1 n)) as [o|]; [by specialize (Hsub o eq_refl)|]. do 2 wp_step. eapply slot_new; try done.
    intros s' e v' G3 E1. by eapply HQ.
  - destruct (Hfree o eq_refl) as (Hoo & Hor & HoD). assert (Ho' : olds = (done ++ [o]) ++ rest') by (by rewrite <- app_assoc).
    assert (Ht : track = true) by (destruct Htrack as [?|E]; [done|]; rewrite E in Hoo; by apply not_elem_of_nil in Hoo).
    destruct (alternate (fiber_of s1 n)) as [o'|]; rewrite Ht; cbn [andb].
    + injection (Hsub o' eq_refl) as <-. rewrite bool_decide_eq_false_2 by done. cbn [when]. do 2 wp_step. rewrite <- Ht.
      by eapply slot_kept.
    + rewrite bool_decide_eq_true_2 by done. cbn [when]. rewrite <- Ht. eapply slot_deleted; try done.
      rewrite Hk. cbn [key_at]. by apply (old_sibling s es D idx v None done o rest').
Qed.
(** The first loop goes on as long as children fit their slots. *)
Lemma at_slot_start idx done o rest : olds = done ++ o :: rest ->
  at_slot idx (if idx <? pos o then None else Some o) (o :: rest) (if idx <? pos o then o :: rest else rest).
Proof.
  intros Ho. unfold at_slot. destruct (Z.ltb_spec idx (pos o)) as [H|H]; [left|right; exists o; by split_and!]. split_and!; try done.
  intros a [->|Ha]%elem_of_cons; [done|]. assert (H' := rest_after _ _ _ _ Ho Ha). lia.
Qed.
Lemma at_slot_ahead idx done cur rest rest' : olds = done ++ rest -> (forall a, a ∈ rest -> idx <= pos a) -> at_slot idx cur rest rest' ->
  forall a, a ∈ rest' -> idx + 1 <= pos a.
Proof.
  intros Ho Ha [(_ & -> & H)|(o & _ & -> & H)] a Hin; [apply H in Hin; lia|]. assert (H' := rest_after _ _ _ _ Ho Hin).
  assert (H2 := Ha o ltac:(left)). lia.
Qed.
Lemma slots_spec e cs : forall s es D idx v done rest, going s es D idx v done -> olds = done ++ rest ->
  (forall a, a ∈ rest -> idx <= pos a) -> Forall valid cs ->
  wp (slots_loop tagOf track P e cs (head rest) idx v) (fun r s' => let '(oldFiber, cs', idx', v') := r in
    exists es' D' done' rest' cs1, going s' es' D' idx' v' done' /\ olds = done' ++ rest' /\ oldFiber = head rest' /\
      cs = cs1 ++ cs' /\ idx' = idx + Z.of_nat (length cs1) /\ seats es' = seats es ++ numbered idx cs1) s.
Proof.
  assert (Stop : forall s es D idx v done rest cs, going s es D idx v done -> olds = done ++ rest -> 
    exists es' D' done' rest' cs1, going s es' D' idx v done' /\ olds = done' ++ rest' /\ head rest = head rest' /\
      cs = cs1 ++ cs /\ idx = idx + Z.of_nat (length cs1) /\ seats es' = seats es ++ numbered idx cs1).
  { intros s es D idx v done rest cs' G Ho. exists es, D, done, rest, []. split_and!; try done; [cbn; lia|by rewrite app_nil_r]. }
  induction cs as [|c cs IH]; intros s es D idx v done rest G Ho Ha Hv; [cbn [slots_loop]; wp_step; by apply (Stop s es D idx v done rest)|].
  destruct rest as [|o rest]; cbn [slots_loop head]; [wp_step; by apply (Stop s es D idx v done [])|].
  apply Forall_cons in Hv as [Hv1 Hv]. do 2 wp_step. assert (I := g_inv _ _ _ _ _ _ G).
  destruct (old_sibling _ _ _ _ _ _ _ _ _ I Ho) as (-> & -> & Hk).
  destruct (going_rest _ _ _ _ _ _ _ o G Ho) as (Hoo & Hor & HoD); [left|]. assert (Hcur := at_slot_start idx done o rest Ho).
  replace (if idx <? pos o then (None, Some o) else (Some o, head rest)) with
    (if idx <? pos o then None else Some o, head (if idx <? pos o then o :: rest else rest)) by by destruct (idx <? pos o).
  set (cur := if idx <? pos o then None else Some o) in *. set (rest' := if idx <? pos o then o :: rest else rest) in *.
  wp_step. eapply wp_mono; [eapply (wp_updateSlot tagOf HtagOf P s (P :: olds)); [done|]|].
  { intros o' Ec Hk'. assert (o' = o) as -> by (unfold cur in Ec; destruct (idx <? pos o); congruence). by eapply inv_usable. }
  intros [n|] s1 [H1 H2].
  - destruct H1 as [He M]. do 2 wp_step. apply wp_assoc. wp_step.
    eapply (after_slot s es D idx v done (o :: rest) c cur n s1 rest'); try done.
    intros s2 en D2 v2 done2 G2 Ho2 Ec. assert (Ha2 := at_slot_ahead _ _ _ _ _ Ho Ha Hcur).
    eapply wp_mono; [by eapply IH|]. intros [[[oldF cs'] idx'] v'] s3 (es' & D' & done' & rest2 & cs1 & G3 & Ho3 & -> & -> & -> & Hes).
    exists es', D', done', rest2, (c :: cs1). split_and!; try done; [cbn [length]; lia|].
    rewrite Hes, map_app, numbered_keep by done. cbn. by rewrite Ec, <- app_assoc.
  - cbn in H1. subst s1. wp_step. replace (match cur with Some o => Some o | None => head rest' end) with (head (o :: rest)).
    + by apply (Stop s es D idx v done (o :: rest)).
    + by destruct Hcur as [(-> & -> & _)|(o' & -> & [= -> _] & _)].
Qed.
Lemma fits_key c f : fits tagOf c f -> key f = key_of c.
Proof. destruct c; cbn; try done; by intros (_ & -> & _). Qed.
Lemma consumed_key s es D idx v done o : going s es D idx v done -> o ∈ done -> exists e, e ∈ es /\ key_of (echild e) = key (fiber_of s0 o).
Proof.
  intros G Ho. apply (g_consumed _ _ _ _ _ _ G) in Ho as [Ho|Ho]; [|by apply (g_keyed _ _ _ _ _ _ G)].
  apply list_elem_of_omap in Ho as (e & He & Heo). exists e. split; [done|].
  destruct (i_entries _ _ _ _ _ _ (g_inv _ _ _ _ _ _ G) e He) as [R _]. rewrite <- (fits_key _ _ (r_fits _ _ _ _ R)).
  assert (Hr := r_old _ _ _ _ R). rewrite Heo in Hr. destruct Hr as (_ & _ & [= _ -> _ _] & _). done.
Qed.
(** A key is not used twice. *)
Lemma key_once (es : list entry) c cs e k : NoDup (keys (map echild es ++ c :: cs)) -> e ∈ es -> key_of c = Some k ->
  key_of (echild e) <> Some k.
Proof.
  rewrite omap_app, NoDup_app. intros (_ & H & _) He Hc Hk. apply (H k).
  - apply list_elem_of_omap. exists (echild e). split; [|done]. apply list_elem_of_fmap. by exists e.
  - cbn. rewrite Hc. left.
Qed.
(** What is done with is in no slot to come. *)
Lemma done_apart s es D idx v done c cs o : going s es D idx v done -> NoDup (keys (map echild es ++ c :: cs)) -> o ∈ done ->
  slot_of o <> slot_for (idx, c).
Proof.
  intros G Hnd Ho E. unfold slot_of, slot_for, slot_key_of in E. cbn [fst snd] in E.
  destruct (key (fiber_of s0 o)) as [k|] eqn:Ek, (key_of c) as [k'|] eqn:Ec; try done; injection E as E.
  - subst k'. destruct (consumed_key _ _ _ _ _ _ o G Ho) as (e & He & Hk). rewrite Ek in Hk. by destruct (key_once es c cs e k Hnd He Ec).
  - apply (g_before _ _ _ _ _ _ G) in Ho; [lia|done].
Qed.
Lemma keys_next es e c cs i : seat e = (i, c) -> NoDup (keys (map echild es ++ c :: cs)) -> NoDup (keys (map echild (es ++ [e]) ++ cs)).
Proof. intros [= _ <-] H. by rewrite map_app, <- app_assoc. Qed.
Lemma keys_skip es c cs : empty c = true -> NoDup (keys (map echild es ++ c :: cs)) -> NoDup (keys (map echild es ++ cs)).
Proof. intros He. rewrite !omap_app. by destruct c. Qed.
Lemma going_skip s es D idx v done : going s es D idx v done -> going s es D (idx + 1) v done.
Proof.
  intros [I Hc Hk Hi Hb]. split; try done; [|lia|intros o Ho Hk'; apply Hb in Ho; [lia|done]].
  destruct I as [I1 I2 I3 I4 I5 I6 I7 I8 I9 I10 I13 [I14 I14'] I15 I16]. split; try done. split; [done|].
  intros e He. apply I14' in He. lia.
Qed.
(** *** Insertions *)
(** A child for which nothing can be used is created. *)
Lemma created_going s es D idx v done c n s1 cs (Q : progress -> st -> Prop) : going s es D idx v done ->
  (forall o, o ∈ olds -> o ∈ done) -> NoDup (keys (map echild es ++ c :: cs)) -> made tagOf P s c None n s1 ->
  (forall s' e v', going s' (es ++ [e]) D (idx + 1) v' done -> seat e = (idx, c) -> Q v' s') ->
  wp (place track n idx v) Q s1.
Proof.
  intros G Hall Hnd M HQ. destruct (inv_made _ _ _ _ _ _ _ _ _ (g_inv _ _ _ _ _ _ G) M) as (I1 & R & Hni & Hsub & Hs & He); [done|].
  assert (Hkd : forall e, seat e = (idx, c) -> eold e = alternate (fiber_of s1 n) -> keyed (es ++ [e]) D).
  { intros e. eapply made_keyed; [exact G|exact M|done|done|]. intros o Ho Es _. by destruct (done_apart s es D idx v done c cs o G Hnd (Hall o Ho)). }
  destruct (alternate (fiber_of s1 n)) as [o|]; [by specialize (Hsub o eq_refl)|]. by eapply slot_new.
Qed.
Lemma created_spec e cs : forall s es D idx v done, going s es D idx v done -> (forall o, o ∈ olds -> o ∈ done) -> Forall valid cs ->
  NoDup (keys (map echild es ++ cs)) ->
  wp (create_loop tagOf track P e cs idx v) (fun v' s' => exists es' idx', going s' es' D idx' v' done /\
    seats es' = seats es ++ numbered idx cs) s.
Proof.
  induction cs as [|c cs IH]; intros s es D idx v done G Hall Hv Hnd; cbn [create_loop].
  { wp_step. exists es, idx. by rewrite app_nil_r. }
  apply Forall_cons in Hv as [Hv1 Hv]. wp_step. eapply wp_mono; [by apply wp_createChild|]. intros [n|] s1 [H1 H2].
  - destruct H1 as [He M]. wp_step. eapply (created_going s es D idx v done c n s1 cs); try done.
    intros s2 en v2 G2 Ec. eapply wp_mono; [eapply IH; try done; by eapply keys_next|].
    intros v' s3 (es' & idx' & G3 & Hes). exists es', idx'. rewrite Hes, numbered_keep, map_app by done. cbn. by rewrite Ec, <- app_assoc.
  - cbn in H1. subst s1. rewrite numbered_skip by by apply H2. do 2 wp_step.
    apply IH; try done; [by apply going_skip|]. by eapply keys_skip; [apply H2|].
Qed.
(** *** The map of the remaining children *)
Definition pairs (l : list nat) : list (slot_key * nat) := map (fun o => (slot_of o, o)) l.
Lemma pairs_get l k : (forall o, o ∈ l -> o ∈ olds) -> NoDup l ->
  match Prelude.map_get k (pairs l) with
  | Some o => o ∈ l /\ slot_of o = k
  | None => forall o, o ∈ l -> slot_of o <> k
  end.
Proof.
  induction l as [|a l IH]; cbn; intros Hl Hd; [by intros o Ho%not_elem_of_nil|]. apply NoDup_cons in Hd as [Hd1 Hd2].
  case_decide as E; [by split; [left|]|]. assert (IH' := IH ltac:(intros o Ho; apply Hl; by right) Hd2).
  unfold pairs in *. destruct (Prelude.map_get k _) as [o|]; [destruct IH'; split; [by right|done]|].
  intros o [->|Ho]%elem_of_cons; [done|by apply IH'].
Qed.
Lemma pairs_set l o : (forall a, a ∈ l -> slot_of a <> slot_of o) -> Prelude.map_set (slot_of o) o (pairs l) = pairs (l ++ [o]).
Proof.
  induction l as [|a l IH]; cbn; intros Hl; [done|]. rewrite decide_False by (apply Hl; left). f_equal. apply IH.
  intros b Hb. apply Hl. by right.
Qed.
Lemma pairs_delete l o : (forall a, a ∈ l -> a ∈ olds) -> o ∈ olds ->
  Prelude.map_delete (slot_of o) (pairs l) = pairs (filter (fun a => a <> o) l).
Proof.
  intros Hl Ho. unfold Prelude.map_delete. induction l as [|a l IH]; [done|]. cbn [pairs map]. rewrite !filter_cons. cbn [fst].
  assert (IH' := IH ltac:(intros b Hb; apply Hl; by right)). destruct (decide (a = o)) as [->|Hne].
  - rewrite !decide_False by (intros H; by apply H). exact IH'.
  - rewrite !decide_True; [cbn; by f_equal|done|]. intros E. apply Hne, slot_of_inj; [apply Hl; left|done|done].
Qed.
Lemma mapRemaining_spec s es D idx v done : forall rest l1 fuel, inv s es D idx v None -> olds = done ++ rest ->
  (forall a, a ∈ l1 -> a ∈ done) -> (length rest <= fuel)%nat ->
  wp (mapRemainingChildren fuel (head rest) (pairs l1)) (fun m s' => s' = s /\ m = pairs (l1 ++ rest)) s.
Proof.
  intros rest. revert done. induction rest as [|o rest IH]; intros done l1 fuel I Ho Hl Hf.
  { cbn [head]. rewrite app_nil_r. destruct fuel; cbn [mapRemainingChildren]; by wp_step. }
  destruct fuel as [|fuel]; [cbn in Hf; lia|]. cbn [mapRemainingChildren head]. do 2 wp_step.
  destruct (old_sibling _ _ _ _ _ _ _ _ _ I Ho) as (-> & -> & ->). fold (slot_of o).
  assert (Hnd := Hnodup). rewrite Ho in Hnd. apply NoDup_app in Hnd as (_ & Hnd & _).
  rewrite pairs_set.
  - replace (l1 ++ o :: rest) with ((l1 ++ [o]) ++ rest) by (by rewrite <- app_assoc). apply (IH (done ++ [o])); [done| | |cbn in Hf; lia].
    + by rewrite <- app_assoc.
    + intros a. rewrite !elem_of_app. intros [Ha|Ha]; [left; by apply Hl|by right].
  - intros a Ha E. apply slot_of_inj in E; [|rewrite Ho; apply elem_of_app; left; by apply Hl|rewrite Ho; set_solver]. subst a.
    apply (Hnd o); [by apply Hl|left].
Qed.
(** What is left in the map is what is not done with. *)
Definition left_in (l done : list nat) : Prop := NoDup l /\ forall o, o ∈ olds -> (o ∈ l <-> o ∉ done).
(** What the map has for a child. *)
Lemma map_claim l done c idx : left_in l done -> (forall o, o ∈ l -> o ∈ olds) ->
  let cur := Prelude.map_get (slot_for (idx, c)) (pairs l) in
  (forall o, cur = Some o -> o ∈ olds /\ o ∉ done /\ slot_of o = slot_for (idx, c)) /\
  (forall o, o ∈ olds -> o ∉ done -> slot_of o = slot_for (idx, c) -> cur = Some o).
Proof.
  intros [Hnl Hl] Hlo cur. assert (Hc := pairs_get l (slot_for (idx, c)) Hlo Hnl). fold cur in Hc. split.
  - intros o E. rewrite E in Hc. destruct Hc as [Ho Hs]. assert (Hoo := Hlo o Ho). by apply (Hl o Hoo) in Ho.
  - intros o Ho Hd Es. destruct cur as [o'|]; [|by destruct (Hc o (proj2 (Hl o Ho) Hd))]. destruct Hc as [Ho' Es']. f_equal.
    apply slot_of_inj; [by apply Hlo|done|congruence].
Qed.
Lemma left_delete l done o : left_in l done -> left_in (filter (fun a => a <> o) l) (done ++ [o]).
Proof.
  intros [Hnl Hl]. split; [by apply NoDup_filter|]. intros y Hy.
  rewrite list_elem_of_filter, elem_of_app, list_elem_of_singleton, (Hl y Hy). naive_solver.
Qed.
Lemma map_step s es D idx v done l c n s1 cs (Q : list (slot_key * nat) -> progress -> st -> Prop) : going s es D idx v done ->
  left_in l done -> (forall o, o ∈ l -> o ∈ olds) -> NoDup (keys (map echild es ++ c :: cs)) ->
  made tagOf P s c (Prelude.map_get (slot_for (idx, c)) (pairs l)) n s1 ->
  (forall s' e v' done' l', going s' (es ++ [e]) D (idx + 1) v' done' -> left_in l' done' -> (forall o, o ∈ l' -> o ∈ olds) ->
     seat e = (idx, c) -> Q (pairs l') v' s') ->
  wp (place track n idx v) (fun v' s' => let f := fiber_of s1 n in
    Q (if track && bool_decide (is_Some (alternate f)) then Prelude.map_delete (slot_key_of (key f) idx) (pairs l) else pairs l) v' s') s1.
Proof.
  intros G Hl Hlo Hnd M HQ. cbv zeta. destruct (map_claim l done c idx Hl Hlo) as [Hcur Hcl]. set (cur := Prelude.map_get _ _) in *.
  assert (Hfree : forall o, cur = Some o -> o ∈ olds /\ o ∉ reused es /\ o ∉ D).
  { intros o E. destruct (Hcur o E) as (Ho & Hd & _). split; [done|]. by split; intros H; apply Hd, (g_consumed _ _ _ _ _ _ G); auto. }
  destruct (inv_made _ _ _ _ _ _ _ _ _ (g_inv _ _ _ _ _ _ G) M Hfree) as (I1 & R & Hni & Hsub & Hs & He).
  assert (Hkf : key (fiber_of s1 n) = key_of c) by apply fits_key, (r_fits _ _ _ _ R).
  assert (Hkd : forall e, seat e = (idx, c) -> eold e = alternate (fiber_of s1 n) -> keyed (es ++ [e]) D).
  { intros e. eapply made_keyed; [exact G|exact M|intros o E; by apply Hfree|done|]. intros o Ho Es _. apply Hcl; [done| |done].
    intros Hd. by apply (done_apart s es D idx v done c cs o G Hnd Hd). }
  destruct (alternate (fiber_of s1 n)) as [o|].
  - assert (Ec := Hsub o eq_refl). destruct (Hcur o Ec) as (_ & _ & Hsl). destruct (Hfree o Ec) as (Hoo & Hor & HoD).
    assert (Ht : track = true) by (destruct Htrack as [?|E]; [done|]; rewrite E in Hoo; by apply not_elem_of_nil in Hoo).
    replace (track && bool_decide (is_Some (Some o))) with true by (by rewrite Ht, bool_decide_eq_true_2).
    change (slot_for (idx, c)) with (slot_key_of (key_of c) idx) in Hsl. rewrite Hkf, <- Hsl, pairs_delete by done.
    eapply (place_going s1 es D idx v n c (Some o) (done ++ [o])); try done; [intros ? [= <-]; done|apply G|..].
    + intros y. rewrite elem_of_app, list_elem_of_singleton, (g_consumed _ _ _ _ _ _ G y). naive_solver.
    + eapply done_before; [exact G|]. intros Hk. unfold slot_of in Hsl. rewrite Hk in Hsl. destruct (key_of c); [done|]. injection Hsl. lia.
    + intros s' e v' G3 E1 E2. eapply HQ; [done|by apply left_delete| |done].
      intros y Hy. apply list_elem_of_filter in Hy as [_ Hy]. by apply Hlo.
  - rewrite (bool_decide_eq_false_2 (is_Some None)) by (by intros []). rewrite andb_false_r.
    eapply slot_new; try done. intros s' e v' G3 E1. by eapply HQ.
Qed.
Lemma map_spec e cs : forall s es D idx v done l, going s es D idx v done -> left_in l done -> (forall o, o ∈ l -> o ∈ olds) ->
  Forall valid cs -> NoDup (keys (map echild es ++ cs)) ->
  wp (map_loop tagOf track P e cs idx (pairs l) v) (fun r s' => exists es' idx' done' l', going s' es' D idx' (snd r) done' /\
    fst r = pairs l' /\ left_in l' done' /\ (forall o, o ∈ l' -> o ∈ olds) /\ seats es' = seats es ++ numbered idx cs) s.
Proof.
  induction cs as [|c cs IH]; intros s es D idx v done l G Hl Hlo Hv Hnd; cbn [map_loop].
  { wp_step. exists es, idx, done, l. by rewrite app_nil_r. }
  apply Forall_cons in Hv as [Hv1 Hv]. destruct (map_claim l done c idx Hl Hlo) as [Hcur _].
  wp_step. eapply wp_mono; [apply (wp_updateFromMap tagOf HtagOf P s (P :: olds)); [done|]|].
  { intros o Ec. destruct (Hcur o Ec) as (Ho & Hd & Hs). assert (I := g_inv _ _ _ _ _ _ G). eapply inv_usable; [done|done|..].
    - intros H. apply Hd, (g_consumed _ _ _ _ _ _ G). by left.
    - destruct (lasting_inv _ _ (i_old _ _ _ _ _ _ I o Ho)) as ([= _ -> _ _] & _). unfold slot_of, slot_for in Hs. cbn [fst snd] in Hs.
      destruct (key (fiber_of s0 o)), (key_of c); cbn in Hs; congruence. }
  intros [n|] s1 [H1 H2].
  - destruct H1 as [He M]. do 3 wp_step.
    eapply wp_mono; [eapply (map_step s es D idx v done l c n s1 cs
      (fun m v' s' => wp (map_loop tagOf track P e cs (idx + 1) m v') (fun r s' => exists es' idx' done' l', going s' es' D idx' (snd r) done' /\
        fst r = pairs l' /\ left_in l' done' /\ (forall o, o ∈ l' -> o ∈ olds) /\ seats es' = seats es ++ numbered idx (c :: cs)) s'));
      try done|by intros v2 s2 H].
    intros s2 en v2 done2 l2 G2 Hl2 Hlo2 Ec. eapply wp_mono; [eapply (IH s2 (es ++ [en])); try done; by eapply keys_next|].
    intros r s3 (es' & idx' & done' & l' & G3 & Hr & Hl' & Hlo' & Hes). exists es', idx', done', l'. split_and!; try done.
    rewrite Hes, numbered_keep, map_app by done. cbn. by rewrite Ec, <- app_assoc.
  - cbn in H1. subst s1. rewrite numbered_skip by by apply H2. apply (IH s es D (idx + 1) v done); try done; [by apply going_skip|].
    by eapply keys_skip; [apply H2|].
Qed.
(** ** Deletions *)
Lemma delete_all s es D idx v x l : inv s es D idx v x -> track = true -> NoDup l ->
  (forall o, o ∈ l -> o ∈ olds /\ o ∉ reused es /\ o ∉ D) ->
  wp (for_each l (deleteChild track P)) (fun _ s' => inv s' es (D ++ l) idx v x) s.
Proof.
  intros I Ht. revert s D I. induction l as [|o l IH]; intros s D I Hd Hl; cbn [for_each].
  { wp_step. by rewrite app_nil_r. }
  apply NoDup_cons in Hd as [Hd1 Hd2]. destruct (Hl o) as (H1 & H2 & H3); [left|]. wp_step.
  eapply wp_mono; [by apply (inv_delete s es D idx v x o)|]. intros [] s1 (I1 & _).
  eapply wp_mono; [apply (IH s1 (D ++ [o])); [done|done|]|intros [] s2 I2; by rewrite <- app_assoc in I2].
  intros o' Ho'. destruct (Hl o') as (H4 & H5 & H6); [by right|]. split; [done|]. split; [done|].
  rewrite elem_of_app, list_elem_of_singleton. intros [?| ->]; done.
Qed.
Lemma deleteRemaining_spec s es D idx v x done rest fuel : inv s es D idx v x -> track = true -> olds = done ++ rest ->
  (forall o, o ∈ rest -> o ∉ reused es /\ o ∉ D) -> (length rest <= fuel)%nat ->
  wp (deleteRemaining track fuel P (head rest)) (fun _ s' => inv s' es (D ++ rest) idx v x) s.
Proof.
  intros I Ht. revert s D done fuel I. induction rest as [|o rest IH]; intros s D done fuel I Ho Hr Hf.
  { destruct fuel; cbn [deleteRemaining head]; wp_step; by rewrite app_nil_r. }
  destruct fuel as [|fuel]; [cbn in Hf; lia|]. cbn [deleteRemaining head]. destruct (Hr o) as [H1 H2]; [left|]. wp_step.
  eapply wp_mono; [apply (inv_delete s es D idx v x o); [done..| |done|done]|].
  { rewrite Ho. set_solver. }
  intros [] s1 (I1 & _). do 2 wp_step. destruct (old_sibling _ _ _ _ _ _ _ _ _ I1 Ho) as (-> & _).
  assert (Hnd := Hnodup). rewrite Ho in Hnd. apply NoDup_app in Hnd as (_ & _ & Hnd). apply NoDup_cons in Hnd as [Hnd _].
  eapply wp_mono; [apply (IH s1 (D ++ [o]) (done ++ [o])); [done| | |cbn in Hf; lia]|intros [] s2 I2; by rewrite <- app_assoc in I2].
  - by rewrite <- app_assoc.
  - intros o' Ho'. destruct (Hr o') as (H5 & H6); [by right|]. split; [done|].
    rewrite elem_of_app, list_elem_of_singleton. intros [?| ->]; done.
Qed.
(** ** The whole *)
Context (HP0 : firstEffect (fiber_of s0 P) = None /\ lastEffect (fiber_of s0 P) = None).
Definition start : progress := {| resultingFirstChild := None; previousNewFiber := None; lastPlacedIndex := 0 |}.
Lemma inv_start : going s0 [] [] 0 start [].
Proof.
  split; [|by intros o; rewrite !elem_of_nil; naive_solver| |done|by intros o Ho%not_elem_of_nil].
  - split; try done; try by intros e He%not_elem_of_nil.
    + by apply NoDup_nil_2.
    + by apply NoDup_nil_2.
    + split; [by apply NoDup_nil_2|]. split; [done|]. by intros o Ho%not_elem_of_nil.
    + destruct HP0. by destruct (fiber_of s0 P); cbn in *; subst.
    + split; [constructor|by intros e He%not_elem_of_nil].
    + split; [constructor|]. split; [by intros e He%not_elem_of_nil|]. split; [by left|]. by intros [].
  - split; [by intros e o He%not_elem_of_nil|by intros o Ho%not_elem_of_nil].
Qed.
(** The new fibers [es] with the deletions [D] are for the children [news]. *)
Record reconciled (s : st) (es : list entry) (D : list nat) (news : list child) : Prop := {
  d_inv : exists idx v, inv s es D idx v None;
  d_seats : seats es = numbered 0 news;
  d_all : forall o, o ∈ olds -> o ∈ reused es \/ o ∈ D;
  d_claimed : claimed es
}.
Lemma going_reconciled {A} s es D idx v (x : JS st A) done rest news : going s es D idx v done -> (forall o, o ∈ olds -> o ∈ done \/ o ∈ rest) ->
  seats es = numbered 0 news -> wp x (fun _ s' => inv s' es (D ++ rest) idx v None) s ->
  wp (do! x; ret (resultingFirstChild v)) (fun r s' => exists es D, r = head (ids es) /\ reconciled s' es D news) s.
Proof.
  intros G Hall Hes Hx. wp_step. eapply wp_mono; [exact Hx|]. intros a s' I'. wp_step. exists es, (D ++ rest).
  split; [by apply (i_first _ _ _ _ _ _ I')|]. split; [by exists idx, v|done| |apply G].
  intros o Ho. rewrite elem_of_app. destruct (Hall o Ho) as [H|H]; [apply (g_consumed _ _ _ _ _ _ G) in H|]; naive_solver.
Qed.
(** The three ways on after the slots. *)
Lemma rest_deleted s es D idx v done rest news fuel : going s es D idx v done -> olds = done ++ rest -> (rest <> [] -> track = true) ->
  seats es = numbered 0 news -> (length rest <= fuel)%nat ->
  wp (do! deleteRemainingChildren track fuel P (head rest); ret (resultingFirstChild v))
    (fun r s' => exists es D, r = head (ids es) /\ reconciled s' es D news) s.
Proof.
  intros G Ho Ht Hes Hf. eapply (going_reconciled s es D idx v _ done rest); try done; [intros o; rewrite Ho; apply elem_of_app|].
  unfold deleteRemainingChildren. wp_step. eapply (wp_mono _ (fun _ s' => inv s' es (D ++ rest) idx v None)); [|intros [] s2 I2; by wp_step].
  destruct rest as [|o rest].
  - rewrite app_nil_r. assert (I := g_inv _ _ _ _ _ _ G). destruct track; cbn [when head]; [|by wp_step].
    destruct fuel; cbn [deleteRemaining]; by wp_step.
  - rewrite Ht by done. cbn [when]. rewrite <- Ht by done. eapply deleteRemaining_spec; [apply G|by apply Ht|done| |done].
    intros a Ha. by apply (going_rest _ _ _ _ _ _ _ a G Ho).
Qed.
Lemma rest_created s es D idx v done cs news e : going s es D idx v done -> olds = done -> Forall valid cs ->
  NoDup (keys (map echild es ++ cs)) -> numbered 0 news = seats es ++ numbered idx cs ->
  wp (let! v := create_loop tagOf track P e cs idx v in ret (resultingFirstChild v))
    (fun r s' => exists es D, r = head (ids es) /\ reconciled s' es D news) s.
Proof.
  intros G Ho Hv Hnd Hn. wp_step. eapply wp_mono; [eapply (created_spec e cs s es); try done; by rewrite <- Ho|].
  intros v' s2 (es' & idx' & G2 & Hes'). wp_step. assert (I := g_inv _ _ _ _ _ _ G2). exists es', D.
  split; [by apply (i_first _ _ _ _ _ _ I)|]. split; [by exists idx', v'|by rewrite Hn| |apply G2].
  intros o Hoo. apply (g_consumed _ _ _ _ _ _ G2). by rewrite <- Ho.
Qed.
Lemma rest_mapped s es D idx v done rest cs news e fuel : going s es D idx v done -> olds = done ++ rest -> (rest <> [] -> track = true) ->
  rest <> [] -> Forall valid cs -> NoDup (keys (map echild es ++ cs)) -> numbered 0 news = seats es ++ numbered idx cs ->
  (length rest <= fuel)%nat ->
  wp (let! existing := mapRemainingChildren fuel (head rest) [] in
      let! r := map_loop tagOf track P e cs idx existing v in
      do! when track (for_each (fst r).*2 (deleteChild track P));
      ret (resultingFirstChild (snd r)))
    (fun r s' => exists es D, r = head (ids es) /\ reconciled s' es D news) s.
Proof.
  intros G Ho Ht Hr Hv Hnd Hn Hf. assert (Hnr := Hnodup). rewrite Ho in Hnr. apply NoDup_app in Hnr as (_ & Hdr & Hnr).
  assert (Hin : forall o, o ∈ olds <-> o ∈ done \/ o ∈ rest) by (intros o; by rewrite Ho, elem_of_app).
  wp_step. change (@nil (slot_key * nat)) with (pairs []).
  eapply wp_mono; [eapply (mapRemaining_spec s es D idx v done); [apply G|done| |done]|]; [by intros a Ha%not_elem_of_nil|].
  intros m s2 [-> ->]. rewrite app_nil_l. wp_step. eapply wp_mono; [eapply (map_spec e cs s es D idx v done); try done|].
  - split; [done|]. intros a Ha. split; [by intros H H'; apply (Hdr a)|]. intros H. by apply Hin in Ha as [?|?].
  - intros a Ha. apply Hin. by right.
  - intros [m v'] s2 (es' & idx' & done' & l' & G2 & Hm & [Hl1 Hl2] & Hl3 & Hes'). cbn [fst snd] in *. subst m.
    eapply (going_reconciled s2 es' D idx' v' _ done' l'); try done; [|by rewrite Hn|].
    { intros a Ha. destruct (decide (a ∈ done')) as [H|H]; [by left|right]. by apply Hl2. }
    rewrite Ht by done. cbn [when]. rewrite <- Ht by done.
    replace ((pairs l').*2) with l' by (unfold pairs; clear; induction l'; cbn; congruence).
    apply delete_all; [apply G2|by apply Ht|done|]. intros a Ha. split; [by apply Hl3|].
    assert (Hnd' : a ∉ done') by (apply Hl2; auto). split; intros H; apply Hnd', (g_consumed _ _ _ _ _ _ G2); auto.
Qed.
Lemma array_spec fuel news e : Forall valid news -> NoDup (keys news) -> (length olds <= fuel)%nat ->
  wp (reconcileChildrenArray tagOf track fuel P (head olds) news e) (fun r s' => exists es D, r = head (ids es) /\ reconciled s' es D news) s0.
Proof.
  intros Hv Hnd Hf. unfold reconcileChildrenArray. fold start. wp_step.
  eapply wp_mono; [eapply (slots_spec e news s0 [] [] 0 start [] olds); [apply inv_start|done|exact Hpos0|done]|].
  intros [[[oldF cs] idx] v] s1 (es & D & done & rest & cs1 & G & Ho & -> & -> & -> & Hes). cbn [map app] in Hes. rewrite Z.add_0_l in *.
  apply Forall_app in Hv as [_ Hv]. rewrite Ho, length_app in Hf.
  assert (Ht : rest <> [] -> track = true) by (intros H; destruct Htrack as [?|E]; [done|]; rewrite E in Ho; by destruct done, rest).
  assert (Hn : numbered 0 (cs1 ++ cs) = seats es ++ numbered (Z.of_nat (length cs1)) cs) by (by rewrite Hes, numbered_app).
  assert (Hnd' : NoDup (keys (map echild es ++ cs))).
  { rewrite omap_app, <- (children_seats es), Hes, keys_numbered, <- omap_app. done. }
  destruct cs as [|c cs].
  - cbn [numbered] in Hn. rewrite !app_nil_r in *. eapply rest_deleted; try done; lia.
  - destruct rest as [|o rest]; cbn [head].
    + rewrite app_nil_r in Ho. by eapply rest_created.
    + change (Some o) with (head (o :: rest)). eapply rest_mapped; try done. lia.
Qed.
End Array.

(** ** What reconciliation does *)
(** The fibers [olds] can be reconciled below the work in progress [P]. *)
Record children_of_parent (tagOf : nat -> tag_) (s : st) (P : nat) (olds : list nat) : Prop := {
  c_paired o : o ∈ olds -> paired s (P :: olds) o;
  c_fits o : o ∈ olds -> exists c, fits tagOf c (fiber_of s o);
  c_apart : P ∉ olds;
  c_allocated : (P < allocated s)%nat;
  c_linked : linked sibling s olds;
  c_once : NoDup olds;
  c_keys o o' k : o ∈ olds -> o' ∈ olds -> key (fiber_of s o) = Some k -> key (fiber_of s o') = Some k -> o = o';
  c_sorted : StronglySorted (fun a b => index (fiber_of s a) < index (fiber_of s b)) olds;
  c_index o : o ∈ olds -> 0 <= index (fiber_of s o);
  c_effects : firstEffect (fiber_of s P) = None /\ lastEffect (fiber_of s P) = None
}.
(** [x] is a fiber of [s] for its child. *)
Definition stands_for (tagOf : nat -> tag_) (s : st) (P : nat) (x : entry) : Prop :=
  let f := fiber_of s (eid x) in
  fits tagOf (echild x) f /\ return_ f = Some P /\ index f = eidx x /\ alternate f = eold x /\
  effectTag f = (if eplaced x then Placement else NoEffect).
Lemma reconciled_permutation tagOf P track s0 s olds es D news : children_of_parent tagOf s0 P olds ->
  reconciled tagOf track P s0 olds s es D news -> olds ≡ₚ reused es ++ D.
Proof.
  intros C [(idx & v & I) _ Hall _]. assert (HD := i_deleted _ _ _ _ _ _ _ _ _ _ _ I). destruct HD as (D1 & _ & D3).
  apply NoDup_Permutation; [by apply (c_once _ _ _ _ C)|apply NoDup_app; split; [by apply (i_reused _ _ _ _ _ _ _ _ _ _ _ I)|]|].
  - split; [|done]. intros o Ho HD. by apply D3 in HD as (_ & ? & _).
  - intros o. rewrite elem_of_app. split; [by apply Hall|]. intros [Ho|Ho]; [|by apply D3].
    apply list_elem_of_omap in Ho as (e & He & Ho). destruct (i_entries _ _ _ _ _ _ _ _ _ _ _ I e He) as [R _].
    assert (R7 := r_old _ _ _ _ _ _ _ _ R). rewrite Ho in R7. by apply R7.
Qed.

(** C6. Reconciling an array whose keys are distinct returns, with a new fiber for each
    child that is not empty, in order and at its index: it stands for the child and is
    below the parent.  Every old fiber is used again by one of them or, once, among the
    effects of the parent as a deletion.  A child whose slot - its key, or its index if it
    has none - had a fiber of its type goes on with that fiber.  The old fibers that are
    not moved keep their order, and one is moved only if one before it that stays was
    after it. *)
Theorem children_matched (tagOf : nat -> tag_) (HtagOf : forall t, tagOf t ∉ [HostText; Fragment; HostPortal; HostRoot])
  (track : bool) (fuel P : nat) (s : st) (olds : list nat) (news : list child) (e : Z)
  (Hc : children_of_parent tagOf s P olds) (Htrack : track = true \/ olds = [])
  (Hvalid : Forall valid news) (Hkeys : NoDup (omap key_of news)) (Hfuel : (length olds <= fuel)%nat) :
  exists es D s', reconcileChildrenArray tagOf track fuel P (head olds) news e s = (Ret (head (ids es)), s') /\
    map seat es = numbered 0 news /\ NoDup (ids es) /\ linked sibling s' (ids es) /\
    (forall x, x ∈ es -> stands_for tagOf s' P x) /\
    olds ≡ₚ reused es ++ D /\ firstEffect (fiber_of s' P) = head D /\ lastEffect (fiber_of s' P) = last D /\
    linked nextEffect s' D /\ (forall o, o ∈ D -> effectTag (fiber_of s' o) = Deletion) /\
    claimed s olds es /\ StronglySorted (fun a b => index (fiber_of s a) <= index (fiber_of s b)) (stable es) /\ needed s es.
Proof.
  assert (Hc' := Hc). destruct Hc' as [C1 C2 C3 C4 C5 C6 C7 C8 C9 C10].
  destruct (wp_run _ _ _ (array_spec tagOf HtagOf track P s olds C1 C2 C3 C4 Htrack C9 C5 C6 C7 C8 C10 fuel news e Hvalid Hkeys Hfuel))
    as (r & s' & Hr & es & D & -> & R).
  assert (Hp := reconciled_permutation _ _ _ _ _ _ _ _ _ Hc R).
  destruct R as [(idx & v & I) Hs _ Hcl]. exists es, D, s'.
  destruct (i_deleted _ _ _ _ _ _ _ _ _ _ _ I) as (_ & D2 & D3). destruct (i_placed _ _ _ _ _ _ _ _ _ _ _ I) as (P1 & _ & _ & P2).
  split_and!; try done; try (by apply I).
  - intros x Hx. destruct (i_entries _ _ _ _ _ _ _ _ _ _ _ I x Hx) as (Rx & H1 & H2 & _). split_and!; try done; apply Rx.
  - by rewrite (i_parent _ _ _ _ _ _ _ _ _ _ _ I).
  - by rewrite (i_parent _ _ _ _ _ _ _ _ _ _ _ I).
Qed.

(** ** On concrete children *)
Module Examples.
Definition tagOf (t : nat) : tag_ := HostComponent.
Definition old (k : option string) (t : nat) (next : option nat) (i : Z) : fiber :=
  set_return_ (Some 0%nat) (set_sibling next (set_index i (set_elementType (Some t) (createFiber_ HostComponent (Some (PProps t)) k 0)))).
(** A parent 0 with the children 1, 2 and 3, of which only the last has no key. *)
Definition before : st := {|
  fibers := {[ 0%nat := createFiber_ HostComponent None None 0; 1%nat := old (Some "a") 7 (Some 2%nat) 0;
               2%nat := old (Some "b") 7 (Some 3%nat) 1; 3%nat := old None 8 None 2 ]};
  allocated := 4; nextReactTag := 3; children_ := ∅; views := ∅ |}.
Definition el (k : option string) (t p : nat) : child := CElement k t p None.
Definition after (news : list child) : option (option nat * st) :=
  match reconcileChildrenArray tagOf true 3 0 (Some 1%nat) news 0 before with
  | (Ret r, s) => Some (r, s)
  | _ => None
  end.
(** The first new fiber, and of each fiber from 4 on its alternate, index, effect and sibling. *)
Definition shown (r : option (option nat * st)) :=
  match r with
  | Some (f, s) => (f, firstEffect (fiber_of s 0), map (fun n => let f := fiber_of s n in (alternate f, index f, effectTag f, sibling f)) (seq 4 (allocated s - 4)))
  | None => (None, None, [])
  end.
(** Swapped: [b] stays, and [a] is moved behind it. *)
Example swapped : shown (after [el (Some "b") 7 1; el (Some "a") 7 2; el None 8 3]) =
  (Some 4%nat, None, [(Some 2%nat, 0, NoEffect, Some 5%nat); (Some 1%nat, 1, Placement, Some 6%nat); (Some 3%nat, 2, NoEffect, None)]).
Proof. vm_compute. reflexivity. Qed.
(** Another type: the old fiber is deleted and a new one inserted. *)
Example retyped : shown (after [el (Some "a") 9 1; el (Some "b") 7 2; el None 8 3]) =
  (Some 4%nat, Some 1%nat, [(None, 0, Placement, Some 5%nat); (Some 2%nat, 1, NoEffect, Some 6%nat); (Some 3%nat, 2, NoEffect, None)]).
Proof. vm_compute. reflexivity. Qed.
(** An empty child keeps its index: the child without a key after it keeps its fiber. *)
Example gap : shown (after [el (Some "a") 7 1; CNull; el None 8 3]) =
  (Some 4%nat, Some 2%nat, [(Some 1%nat, 0, NoEffect, Some 5%nat); (Some 3%nat, 2, NoEffect, None)]).
Proof. vm_compute. reflexivity. Qed.
(** Without it the index, and so the slot, is another one. *)
Example no_gap : shown (after [el (Some "a") 7 1; el None 8 3]) =
  (Some 4%nat, Some 2%nat, [(Some 1%nat, 0, NoEffect, Some 5%nat); (None, 1, Placement, None)]).
Proof. vm_compute. reflexivity. Qed.
Lemma before_ok : children_of_parent tagOf before 0 [1%nat; 2%nat; 3%nat].
Proof.
  assert (E : forall o, o ∈ [1%nat; 2%nat; 3%nat] -> o = 1%nat \/ o = 2%nat \/ o = 3%nat) by (intros o; set_solver).
  split.
  - intros o Ho. destruct (E o Ho) as [->|[->| ->]]; (split; [cbn; lia|exact I]).
  - intros o Ho. destruct (E o Ho) as [->|[->| ->]]; [exists (el (Some "a") 7 7)|exists (el (Some "b") 7 7)|exists (el None 8 8)];
      vm_compute; by split_and!.
  - intros H. destruct (E _ H) as [?|[?|?]]; done.
  - cbn. lia.
  - vm_compute. by split_and!.
  - by apply (bool_decide_unpack _).
  - intros o o' k Ho Ho'. by destruct (E o Ho) as [->|[->| ->]], (E o' Ho') as [->|[->| ->]]; vm_compute; intros [= <-].
  - repeat constructor.
  - intros o Ho. destruct (E o Ho) as [->|[->| ->]]; vm_compute; done.
  - done.
Qed.
End Examples.
Lemma children_matched_witness : exists es D s',
  reconcileChildrenArray Examples.tagOf true 3 0 (Some 1%nat) [Examples.el (Some "b") 7 1; CNull; CText "x"; Examples.el (Some "a") 7 2] 0 Examples.before =
    (Ret (head (ids es)), s') /\ map echild es = [Examples.el (Some "b") 7 1; CText "x"; Examples.el (Some "a") 7 2] /\ [1%nat; 2%nat; 3%nat] ≡ₚ reused es ++ D.
Proof.
  destruct (children_matched Examples.tagOf ltac:(intros t; set_solver) true 3 0 Examples.before [1%nat; 2%nat; 3%nat]
    [Examples.el (Some "b") 7 1; CNull; CText "x"; Examples.el (Some "a") 7 2] 0 Examples.before_ok ltac:(by left)
    ltac:(by repeat constructor) ltac:(by apply (bool_decide_unpack _)) ltac:(cbn; lia)) as (es & D & s' & H1 & H2 & _ & _ & _ & H3 & _).
  exists es, D, s'. split; [exact H1|]. split; [|exact H3]. rewrite <- children_seats. by rewrite H2.
Defined.
